(* ===== verification/_CoqProject ===== *)
-Q . S2P
Prelude.v
Graph.v
Plan.v
Affinity.v
CriticalPath.v
Text.v
Paths.v
Ids.v
Molecule.v
RunState.v
Links.v
Process.v
Contract.v
State.v
DagPolicy.v
DagCompile.v
Lease.v
Verify.v
Scc.v
Cron.v
Scheduler.v
Journal.v
Supervisor.v
Concurrent.v
Store.v
Collapse.v
DispatchLedger.v
Diversity.v
Committee.v
Sor.v
Grant.v
Ancestry.v
JsonLines.v
HarvestPolicy.v
HarvestLedger.v
HarvestDoor.v
Formula.v
Evolve.v
LifeOps.v
LifeRuns.v
Reclaim.v
SessionPass.v
WorktreePass.v
WorkMessage.v
WorkStore.v
WorkRuns.v
WorkCalls.v
WorkRetry.v
Collaboration.v
Bindings.v
BindingRuns.v
