(* ===== verification/Prelude.v ===== *)
(** * Cosmon: a verification library

    Cosmon runs units of agent work, "molecules", in a store of files. A
    molecule is nucleated from a formula, tackled by a worker, evolved step by
    step and completed or collapsed; molecules block each other by typed links;
    a resident runtime dispatches what is ready; daemons, patrols, committees of
    reviewers and pilots under a lease act on the same files. The Rust sources
    are under [src/crates]; this library models their decision cores as
    functional programs and their file operations as interleaved processes.

    ** Parts, files and sources

    - [Prelude], [Text], [Paths]: results, instants, orders, stable sorting,
      Rust's [str] on UTF-8 bytes, its [Path], and a tree of files with
      symbolic links.
    - Graphs, [cosmon-graph]: [Graph] ([lib.rs], [mutation.rs]), [Plan]
      ([plan.rs]), [Affinity], [CriticalPath], [Scc].
    - Data model, [cosmon-core]: [Ids] ([id.rs]), [Molecule] ([molecule.rs]),
      [RunState] ([worker.rs], [agent.rs], [run_state.rs]), [Links] ([kind.rs],
      [interaction.rs]), [Process] ([process.rs] and what it carries),
      [Contract] ([collapse_contract.rs]).
    - Store: [State] (the record of [cosmon-state/src/lib.rs], the frontier and
      the orphan scan), [Store] ([cosmon-filestore/src/lib.rs] as a shared
      state), [Concurrent] (programs over a shared state and their
      interleavings), [Journal] (the JSON-lines log), [Collapse]
      ([cosmon-state/src/ops/collapse.rs]).
    - Runtime, [cosmon-runtime]: [DagPolicy] and [DagCompile]
      ([dag_policy.rs]), [DispatchLedger] ([dispatch_ledger.rs]).
    - Patrols and daemons: [Cron] and [Scheduler] ([cosmon-scheduler]),
      [Supervisor] ([cosmon-daemon-supervisor]).
    - Authority: [Lease] ([operator_attestation.rs], [pilot_lease.rs] and
      [pilot_lease_store.rs]), [Diversity] ([criticality.rs], the requirement
      sets of [config.rs], [provider_diversity.rs]), [Committee]
      ([committee.rs]), [Sor] ([sor.rs]).
    - Harvest: [Grant] ([harvest_authorization.rs]), [Ancestry]
      ([authorization_facts.rs]), [HarvestPolicy] ([base_branch.rs],
      [remote_harvest.rs], the door's vocabulary of [cosmon-core]),
      [JsonLines] (a log file whose last write may stop anywhere),
      [HarvestLedger] ([harvest_authority.rs], [done_authority.rs] and the
      locked part of [transaction.rs]), [HarvestDoor]
      ([cosmon-filestore/src/harvest_door.rs]).
    - Work on one molecule: [Formula] ([formula.rs]), [Evolve]
      ([cosmon-core/src/evolve.rs]), [LifeOps] (the operations of
      [cosmon-state/src/ops] but collapse, and the gate of
      [cosmon-cli/src/cmd/evolve.rs]), [LifeRuns] (their interleavings).
    - Reclaim: [Reclaim] (the decisions of [cosmon-core/src/worktree_reclaim.rs]
      and [session_reclaim.rs]), [SessionPass] ([slugify.rs] and
      [cosmon-cli/src/cmd/session_reclaim.rs]), [WorktreePass]
      ([cosmon-harvest/src/worktree_reclaim.rs] and
      [cosmon-cli/src/cmd/worktree_reclaim.rs]).
    - Messages inside a declared work: [WorkMessage]
      ([cosmon-core/src/work_message.rs]), [WorkStore]
      ([cosmon-state/src/work_message.rs] and [work_ops.rs], and
      [cosmon-cli/src/work_hook.rs] and [work_turn_input.rs]), [WorkRuns] (the
      invariant of the directory of a work), [WorkCalls] (the calls and their
      interleavings), [WorkRetry] (a submission that meets no fault).
    - Collaborators of a work: [Collaboration] ([collaboration.rs] of
      [cosmon-core] and of [cosmon-rpp-adapter], [auth/scopes.rs]), [Bindings]
      ([cosmon-state/src/collaboration.rs] and the commit of
      [routes/work.rs]), [BindingRuns] (their interleavings).
    - Replay: [Verify] ([cosmon-verify]).

    ** How the parts meet

    [DagPolicy] drives [Plan] over what [DagCompile] reads from the [State] of
    the molecules, orders the frontier with [Affinity] and [CriticalPath], and
    its dispatches are recorded by [DispatchLedger]. [DispatchLedger] and
    [Collapse] are programs of [Concurrent] over the one [Store], with the
    collapse decided by [Contract] and, for a keyed request under a lease, by a
    verdict of [Lease]. [Scc.non_trivial_sccs] is compared with
    [Graph.toposort]. [Committee] measures its floors on the endpoints of
    [Diversity], and [Sor] gates on the criticality defined there. [Scheduler]
    uses [Cron]. [HarvestDoor] calls an effect; [HarvestLedger] is its locked
    part: it asks [Grant] about each installed grant, with the facts that
    [Ancestry] and [HarvestPolicy] give, and keeps receipts and journal on
    [JsonLines]. [LifeOps] runs the decision of [Evolve] over a parsed
    [Formula] as programs of [Concurrent]; [Formula] orders its steps with
    [Graph.toposort]. [SessionPass] and [WorktreePass] gather the observations,
    put them to the decisions of [Reclaim] and act on the answer, on sessions
    and on a tree of [Paths]; the statuses they ask for are those of [Molecule].
    [WorkStore] asks [WorkMessage] for every decision and keeps its files as
    programs of [Concurrent]. [Collaboration] admits a caller as the
    [AdmittedWorkCaller] of [WorkMessage], and [Bindings] keeps the bindings it
    reads, and fences the effects of an admitted caller, as programs of
    [Concurrent] too.

    Structures and enumerations keep the fields and constructors of the source,
    with a short prefix on a field where two records share its name; a method
    is a function of the record. Rust's [Result] is [result], a panic that the
    theorems exclude is [None]. Maps are [gmap]; a [HashMap] whose iteration
    order shows is iterated through an order argument. Strings are byte
    strings. Instants are nanoseconds in [Z]; counters that the source bounds
    are [N] or [nat] and the places where a width matters say so: [u64] scores
    wrap in [CriticalPath], [i64] scores in [Sor], the clock limits of
    [chrono] are in [Supervisor], bit sets of 64 bits in [Cron].

    ** What is an interface

    Code that is not in the repository, or whose text does not matter to a
    decision, is a class or an argument with its documented behaviour as laws:
    digests ([ContractHash], [Digests], [SorHash], [SpecHash], [EventCodec]),
    signatures ([OperatorGestureVerifier], [HarvestSealVerifier]), dates and
    digests of grants ([GrantText]), the texts of an evolve ([EvolveText]), digests,
    canonical scopes and printed instants of messages ([WorkText]), JSON ([LeaseSerde], [EnvelopeParser],
    [LineCodec]), stores behind a port ([StateStore], [DoorStore]), the time zone ([LocalClock]), hash-map order
    ([HashOrder]), the ordered identifiers of the graphs ([OrdId]), debug texts
    ([ReclaimText]). What a process reads from the outside (clocks, liveness
    probes, commands and files that may fail) is a record: [world] in
    [Scheduler], [outside] in [Supervisor] and [LifeOps], [circumstances] in
    [Collapse], [DispatchLedger] and [WorkStore], [binding_circumstances] in
    [Bindings], [session_world] in [SessionPass],
    [worktree_world] in [WorktreePass]. Every property with a
    hypothesis about an interface has a witness with a concrete instance.

    ** Groups of theorems

    - Concurrency: [collapse_exactly_once], [retry_converges],
      [keyed_alone_exact], [one_dispatch_per_molecule], [commit_all_or_nothing]
      hold for all interleavings, failing operations and kills that their
      statements name; they are proved by the rely/guarantee rules of
      [Concurrent] from one pass over each call. The uniqueness of a dispatch
      is about dispatchers that saw the molecule unbound; a resurrection may
      commit over the process that it saw.
    - Scheduling: a dispatched molecule was ready and not running, caps hold,
      without caps everything ready goes out; the plan's ready set is the
      recomputed frontier; the invariants survive any sequence of ticks,
      reloads and collections.
    - Life cycles: invariants over all runs of the molecule machine, of the
      lease ledger, of the children of the supervisor and of the patrols.
    - Reference definitions: topological order, components, critical path,
      affinity, cron and trace validation are shown equal to a specification
      that does not mention the algorithm.
    - Authority: fenced leases, canonical bytes that determine the transfer,
      committees that confirm only on an observed, distinct and intact jury,
      selections that answer the best of the fit candidates.
    - Harvest: an authorization is exactly what the seal, the grant and the
      facts allow; a permit is spent once and lands one merge, whatever stops in
      between; the journal holds one operation per permit; the door opens
      exactly when it should, lets its effect run only then and answers what the
      record says; the record has both a merge and a reason against it only
      where the resident loop stamped over the reason. [DoorSamples] has a
      conflict that the loop records as merged.
    - Work: the parser of formulas accepts exactly the valid ones, keeps every
      field and names a fault that is there otherwise; a parsed one is walked to
      its end unless a step has no identifier; concurrent evolves complete each step once and
      in order; a tag call never removes a reservation. [LifeSamples] has the
      schedules that the operations without the fleet lock, and the gate, do
      not survive.
    - Reclaim: whatever the commands and files answer, a pass over the sessions
      kills only detached ones of terminal molecules whose screen was saved, and
      a pass over the worktrees ends and removes only below a derived root of a
      candidate that its gates cleared, as long as no link lies on the way to
      the lock of the build. [SessionSamples] and [WorktreeSamples] show what a
      shared session name and such a link do. A session name keeps the bounds
      of its parts.
    - Messages: a submission is admitted, a duplicate or refused under exact
      conditions; the fold of receipts is a description of them; a block shown
      to a model has two fences, whatever the payload says. Over all
      interleavings, faults, cut lines and kills the directory of a work keeps
      messages, bytes, budgets and attempts, and a key is admitted and reported
      on once; where no line was cut, a submission that meets no fault is
      settled and its retry changes nothing. [MailRuns] has the cut line that no
      retry mends and the turns that exceed the attempts.
    - Collaboration: a caller is admitted exactly by the one active binding that
      fits and grants; over all interleavings no effect of a binding follows its
      revocation.

    ** Fuel

    [Scc.tarjan] takes the number of vertices and edges as fuel, and
    [tarjan_scc_correct] shows that this is enough; Kahn's loop and the plan's
    rounds recurse on the number of nodes, which their theorems show to be
    enough. The walk of [Ancestry] has the cost of entering each stored
    molecule once as fuel, which [mission_ancestry_exact] shows to be enough.
    [Paths.resolve] follows at most 40 links, the limit of the kernel, and
    [WorktreePass.reclaim_root] descends along the path of the build lock, with
    one unit of fuel more than its length; [worktree_pass_contained] shows that
    a pass never runs out. All other recursion is structural.

    ** Not modelled

    The rest of the command line ([cosmon-cli], [cosmon-thin-cli],
    [cosmon-cockpit]), the HTTP adapters, the transports (tmux, ssh, processes),
    the provider clients and the agent harness are input and output around the
    modelled cores. Serde derivations, texts for people, and third-party code
    (serde, chrono, blake3, git) are interfaces or left out. Of the harvest
    transaction the part under the lock is modelled; the merge itself is git's.
    Of the operations on a molecule, those that start workers are left out.
    [PROJECT.json] lists every part with its status. *)
From stdpp Require Import prelude gmap strings list sorting fin_maps relations.

(** ** Fallible code: Rust's [Result] *)

Inductive result (E A : Type) : Type :=
| Ok (a : A)
| Err (e : E).
Arguments Ok {E A} a.
Arguments Err {E A} e.

#[export] Instance result_ret {E} : MRet (result E) := λ A a, Ok a.
#[export] Instance result_bind {E} : MBind (result E) := λ A B f m,
  match m with Ok a => f a | Err e => Err e end.
#[export] Instance result_fmap {E} : FMap (result E) := λ A B f m,
  match m with Ok a => Ok (f a) | Err e => Err e end.

Definition is_ok {E A} (r : result E A) : bool :=
  match r with Ok _ => true | Err _ => false end.

Definition is_some {A} (o : option A) : bool := match o with Some _ => true | None => false end.

Lemma is_some_spec {A} (o : option A) : is_some o ↔ is_Some o.
Proof. destruct o; simpl; [by split; eauto|]. split; [done|]. by intros [? ?]. Qed.

Definition map_err {E F A} (f : E → F) (r : result E A) : result F A :=
  match r with Ok a => Ok a | Err e => Err (f e) end.

Lemma result_bind_ok {E A B} (m : result E A) (f : A → result E B) b :
  m ≫= f = Ok b ↔ ∃ a, m = Ok a ∧ f a = Ok b.
Proof.
  split; [|by intros (a & -> & ?)].
  destruct m as [a|e]; [by exists a | done].
Qed.

(** ** Instants: [DateTime<Utc>] in nanoseconds *)

(** [TimeDelta::num_seconds] truncates towards zero. *)
Definition num_seconds (delta : Z) : Z := delta `quot` 1000000000.

Lemma num_seconds_ge delta n :
  (0 < n)%Z → (n ≤ num_seconds delta ↔ n * 1000000000 ≤ delta)%Z.
Proof.
  intros Hn. unfold num_seconds. destruct (decide (0 ≤ delta)%Z) as [Hd|Hd].
  - rewrite Z.quot_div_nonneg by lia. split; intros H.
    + pose proof (Z.mul_div_le delta 1000000000). lia.
    + apply Z.div_le_lower_bound; lia.
  - pose proof (Z.quot_opp_l delta 1000000000 ltac:(done)) as Ho.
    rewrite (Z.quot_div_nonneg (- delta)) in Ho by lia.
    pose proof (Z.div_pos (- delta) 1000000000 ltac:(lia) ltac:(lia)). lia.
Qed.

Lemma num_seconds_neg delta : (num_seconds delta < 0 ↔ delta ≤ - 1000000000)%Z.
Proof.
  pose proof (num_seconds_ge (- delta) 1 ltac:(lia)) as H. revert H. unfold num_seconds.
  rewrite Z.quot_opp_l by done. lia.
Qed.

(** ** Identifiers: Rust's [Eq + Hash + Ord + Clone] *)

(** What the code asks of a node or molecule identifier. [ord_le] is the
    non-strict order of [Ord]; hashing shows up as countability, the
    iteration order of a hash table is the separate class [HashOrder]. *)
Class OrdId (N : Type) := {
  ord_eq_dec :: EqDecision N;
  ord_countable :: Countable N;
  ord_le : relation N;
  ord_le_dec :: RelDecision ord_le;
  ord_le_po :: PartialOrder ord_le;
  ord_le_total :: Total ord_le;
}.

#[global] Arguments ord_eq_dec {_ _} _ _ : simpl never.
#[global] Arguments ord_countable {_ _} : simpl never.
#[global] Arguments ord_le {_ _} _ _ : simpl never.
#[global] Arguments ord_le_dec {_ _} _ _ : simpl never.

Declare Scope cosmon_scope.
Delimit Scope cosmon_scope with cosmon.
Infix "≼" := ord_le (at level 70, no associativity) : cosmon_scope.
Open Scope cosmon_scope.

(** Rust leaves the iteration order of [HashMap] and [HashSet] unspecified.
    A hash order is any enumeration of a finite set; every theorem is stated
    for an arbitrary one. *)
Class HashOrder (N : Type) `{OrdId N} := {
  hash_iter : gset N → list N;
  hash_iter_perm (X : gset N) : hash_iter X ≡ₚ elements X;
}.

(** One hash order, used by the closed examples. *)
Definition plain_order {N} `{OrdId N} : HashOrder N :=
  {| hash_iter := elements; hash_iter_perm := λ X, reflexivity (elements X) |}.

#[export] Instance nat_ord : OrdId nat := {| ord_le := le |}.
#[export] Program Instance string_ord : OrdId string := {| ord_le := String.le |}.

(** The lexicographic order of Rust's tuples. *)
Section PairOrder.
Context {A B} `{OrdId A} `{OrdId B}.

Definition pair_le (x y : A * B) : Prop :=
  (x.1 ≠ y.1 ∧ x.1 ≼ y.1) ∨ (x.1 = y.1 ∧ x.2 ≼ y.2).

#[export] Instance pair_le_dec : RelDecision pair_le.
Proof. intros x y. unfold pair_le. apply _. Defined.

#[export] Instance pair_le_po : PartialOrder pair_le.
Proof.
  split; [split|].
  - intros [a b]. right. by split.
  - intros [a b] [c d] [e f]; unfold pair_le; simpl.
    intros [[Hn H1]|[-> H1]] [[Hm H2]|[-> H2]].
    + left. split; [|by transitivity c].
      intros ->. apply Hn. by apply (anti_symm ord_le).
    + by left.
    + by left.
    + right. split; [done|]. by transitivity d.
  - intros [a b] [c d]; unfold pair_le; simpl.
    intros [[Hn H1]|[-> H1]] [[Hm H2]|[? H2]]; subst; try done.
    + by destruct Hn; apply (anti_symm ord_le).
    + f_equal. by apply (anti_symm ord_le).
Qed.

#[export] Instance pair_le_total : Total pair_le.
Proof.
  intros [a b] [c d]; unfold pair_le; simpl.
  destruct (decide (a = c)) as [->|Hn].
  - destruct (total ord_le b d); auto.
  - destruct (total ord_le a c); [left|right]; left; auto.
Qed.

#[export] Instance pair_ord : OrdId (A * B) := {| ord_le := pair_le |}.
End PairOrder.

#[export] Instance Z_ord : OrdId Z := {| ord_le := Z.le |}.

(** [Option]: [None] comes first. *)
Section OptionOrder.
Context {A} `{OrdId A}.

Definition option_le (x y : option A) : Prop :=
  match x, y with None, _ => True | Some _, None => False | Some a, Some b => a ≼ b end.

#[export] Instance option_le_dec : RelDecision option_le.
Proof. intros [a|] [b|]; cbn; apply _. Defined.

#[export] Instance option_le_po : PartialOrder option_le.
Proof.
  split; [split|].
  - intros [a|]; cbn; [reflexivity|done].
  - intros [a|] [b|] [c|]; cbn; try done. intros ? ?. by transitivity b.
  - intros [a|] [b|]; cbn; try done. intros. f_equal. by apply (anti_symm ord_le).
Qed.

#[export] Instance option_le_total : Total option_le.
Proof. intros [a|] [b|]; cbn; auto. apply (total ord_le). Qed.

#[export] Instance option_ord : OrdId (option A) := {| ord_le := option_le |}.
End OptionOrder.

(** ** Sorting *)

(** [sort_by] with a key: stable. *)
Section StableSort.
Context {A K} `{OrdId K} (key : A → K).

Fixpoint insert_by (x : A) (l : list A) : list A :=
  match l with
  | [] => [x]
  | y :: l' => if decide (key x ≼ key y) then x :: l else y :: insert_by x l'
  end.

Definition sort_by (l : list A) : list A := foldr insert_by [] l.

Lemma insert_by_perm x l : insert_by x l ≡ₚ x :: l.
Proof.
  induction l as [|y l IH]; cbn; [done|]. case_decide; [done|]. rewrite IH. apply Permutation_swap.
Qed.

Lemma sort_by_perm l : sort_by l ≡ₚ l.
Proof. induction l as [|x l IH]; cbn; [done|]. by rewrite insert_by_perm, IH. Qed.

Lemma insert_by_sorted x l :
  StronglySorted (λ x y, key x ≼ key y) l → StronglySorted (λ x y, key x ≼ key y) (insert_by x l).
Proof.
  induction 1 as [|y l' Hs IH Hy]; cbn; [apply SSorted_cons; constructor|]. case_decide as Hxy.
  - constructor; [by constructor|]. constructor; [done|].
    eapply Forall_impl; [exact Hy|]. intros z Hz. by transitivity (key y).
  - constructor; [done|]. rewrite insert_by_perm. constructor; [|done].
    by destruct (total ord_le (key x) (key y)) as [Hle|Hle]; [destruct Hxy|].
Qed.

Lemma sort_by_sorted l : StronglySorted (λ x y, key x ≼ key y) (sort_by l).
Proof. induction l as [|x l IH]; cbn; [constructor|]. by apply insert_by_sorted. Qed.

(** The first of the least elements comes first. *)
Lemma sort_by_head l x l' :
  sort_by l = x :: l' →
  ∃ pre post, l = pre ++ x :: post ∧ (∀ y, y ∈ l → key x ≼ key y) ∧ ∀ y, y ∈ pre → key y ≠ key x.
Proof.
  revert x l'. induction l as [|z l IH]; intros x l' Hx; [done|].
  assert (∀ y, y ∈ z :: l → key x ≼ key y) as Hmin.
  { intros y Hy. rewrite <- (sort_by_perm (z :: l)), Hx in Hy. pose proof (sort_by_sorted (z :: l)) as Hs.
    rewrite Hx in Hs. inversion Hs as [|? ? _ Hall]; subst. rewrite Forall_forall in Hall.
    apply elem_of_cons in Hy as [->|Hy]; [done|by apply Hall]. }
  change (insert_by z (sort_by l) = x :: l') in Hx. destruct (sort_by l) as [|y l2] eqn:Hl.
  - injection Hx as <- <-. exists [], l. split_and!; [done|done|by intros ? ?%elem_of_nil].
  - cbn in Hx. case_decide as Hzy.
    + injection Hx as <- <-. exists [], l. split_and!; [done|done|by intros ? ?%elem_of_nil].
    + injection Hx as <- _. destruct (IH y l2 eq_refl) as (pre & post & -> & _ & Hpre).
      exists (z :: pre), post. split_and!; [done|done|].
      intros w [->|Hw]%elem_of_cons; [|by apply Hpre]. intros Heq. apply Hzy. by rewrite Heq.
Qed.

End StableSort.

Section Sorting.
Context {N} `{OrdId N}.

(** [sort] and [sort_unstable] of a vector of identifiers. *)
Definition sort_ids : list N → list N := merge_sort ord_le.

Lemma sort_ids_perm l : sort_ids l ≡ₚ l.
Proof. apply merge_sort_Permutation. Qed.

Lemma sort_ids_sorted l : StronglySorted ord_le (sort_ids l).
Proof. apply StronglySorted_merge_sort; apply _. Qed.

Lemma elem_of_sort_ids x l : x ∈ sort_ids l ↔ x ∈ l.
Proof. by rewrite sort_ids_perm. Qed.

Lemma sort_ids_NoDup l : NoDup (sort_ids l) ↔ NoDup l.
Proof. by rewrite sort_ids_perm. Qed.

Lemma length_sort_ids l : length (sort_ids l) = length l.
Proof. by rewrite sort_ids_perm. Qed.

(** Sorting forgets the order of its input. *)
Lemma sort_ids_unique l l' :
  StronglySorted ord_le l' → l' ≡ₚ l → sort_ids l = l'.
Proof.
  intros Hs Hp. apply (StronglySorted_unique ord_le); auto using sort_ids_sorted.
  by rewrite sort_ids_perm.
Qed.

#[export] Instance sort_ids_proper : Proper ((≡ₚ) ==> (=)) sort_ids.
Proof.
  intros l l' Hl. apply sort_ids_unique; [apply sort_ids_sorted|].
  by rewrite sort_ids_perm.
Qed.

(** The sorted contents of a [BTreeSet], in iteration order. *)
Definition btree_iter (X : gset N) : list N := sort_ids (elements X).

Lemma elem_of_btree_iter x X : x ∈ btree_iter X ↔ x ∈ X.
Proof. unfold btree_iter. by rewrite elem_of_sort_ids, elem_of_elements. Qed.

Lemma btree_iter_NoDup X : NoDup (btree_iter X).
Proof. apply sort_ids_NoDup, NoDup_elements. Qed.

Lemma elem_of_hash_iter `{!HashOrder N} x X : x ∈ hash_iter X ↔ x ∈ X.
Proof. by rewrite hash_iter_perm, elem_of_elements. Qed.

Lemma sort_filter_hash_iter `{!HashOrder N} (P : N → Prop) `{∀ x, Decision (P x)} X :
  sort_ids (filter P (hash_iter X)) = sort_ids (filter P (elements X)).
Proof. by rewrite hash_iter_perm. Qed.

Lemma sort_hash_iter `{!HashOrder N} X : sort_ids (hash_iter X) = btree_iter X.
Proof. unfold btree_iter. by rewrite hash_iter_perm. Qed.
End Sorting.

(** ** Loops *)

(** [loop fuel step s] runs a [while] loop whose body is [step]: [step]
    answers [None] where the source leaves the loop. A loop lemma bounds the
    number of iterations by a measure, so that [fuel] is enough. *)
Fixpoint loop {S : Type} (fuel : nat) (step : S → option S) (s : S) : S :=
  match fuel with
  | 0 => s
  | Datatypes.S fuel' =>
      match step s with None => s | Some s' => loop fuel' step s' end
  end.

Section Loop.
Context {S : Type} (step : S → option S) (I : S → Prop).
Hypothesis step_inv : ∀ s s', I s → step s = Some s' → I s'.

Lemma loop_inv fuel s : I s → I (loop fuel step s).
Proof.
  revert s. induction fuel as [|fuel IH]; intros s Hs; simpl; [done|].
  destruct (step s) eqn:E; eauto.
Qed.

(** Enough fuel: the state the loop stops in is one the source exits in. *)
Lemma loop_exits (μ : S → nat) fuel s :
  (∀ s s', I s → step s = Some s' → μ s' < μ s) →
  I s → μ s ≤ fuel → step (loop fuel step s) = None.
Proof.
  intros Hμ. revert s. induction fuel as [|fuel IH]; intros s Hs Hf; simpl.
  - destruct (step s) as [s'|] eqn:E; [|done]. specialize (Hμ s s' Hs E). lia.
  - destruct (step s) as [s'|] eqn:E; [|done].
    apply IH; [by eapply step_inv|]. specialize (Hμ s s' Hs E). lia.
Qed.
End Loop.

Lemma loop_ext {S} (step1 step2 : S → option S) fuel s :
  (∀ s, step1 s = step2 s) → loop fuel step1 s = loop fuel step2 s.
Proof.
  intros Hext. revert s. induction fuel as [|fuel IH]; intros s; simpl; [done|].
  rewrite Hext. destruct (step2 s); auto.
Qed.

(** ** Cycles in finite relations *)

Section Cycles.
Context {N : Type} `{OrdId N} (R : relation N).

(** A finite set in which everybody has a predecessor contains a cycle
    upstream of each of its elements. *)
Lemma predecessors_cycle (X : gset N) n :
  (∀ m, m ∈ X → ∃ p, p ∈ X ∧ R p m) → n ∈ X → ∃ c, tc R c c ∧ rtc R c n.
Proof.
  intros Hpred Hn.
  assert (∀ k (V : gset N) m, size (X ∖ V) ≤ k → m ∈ X → rtc R m n →
            (∀ v, v ∈ V → tc R m v) → ∃ c, tc R c c ∧ rtc R c n) as Hwalk.
  { induction k as [|k IH]; intros V m Hk Hm Hrtc HV;
      (destruct (decide (m ∈ V)) as [HmV|HmV]; [by exists m; auto|]).
    - assert (X ∖ V ≡ ∅) as Hempty by (apply size_empty_iff; lia).
      exfalso. clear -Hm HmV Hempty. set_solver.
    - destruct (Hpred m Hm) as (p & Hp & Hpm).
      apply (IH ({[m]} ∪ V) p); [|done|by eapply rtc_l|].
      + assert (size (X ∖ ({[m]} ∪ V)) < size (X ∖ V)); [|lia].
        apply subset_size. split; [clear; set_solver|].
        intros Hsub. assert (m ∈ X ∖ ({[m]} ∪ V)) as Hin by (apply Hsub; set_solver).
        set_solver.
      + intros v [->%elem_of_singleton|Hv]%elem_of_union; [by apply tc_once|].
        eapply tc_l; eauto. }
  by apply (Hwalk _ ∅ n (le_n _)); [|reflexivity|set_solver].
Qed.
End Cycles.

(** ** Grouping: [map.entry(k).or_default().push(v)] *)

Section Grouping.
Context {K V : Type} `{Countable K}.

Definition push_entry (m : gmap K (list V)) (k : K) (v : V) : gmap K (list V) :=
  <[k := default [] (m !! k) ++ [v]]> m.

Definition group_entries (l : list (K * V)) : gmap K (list V) :=
  foldl (λ m '(k, v), push_entry m k v) ∅ l.

Definition entries_at (k : K) (l : list (K * V)) : list V :=
  (filter (λ kv, kv.1 = k) l).*2.

Lemma entries_at_app k l1 l2 :
  entries_at k (l1 ++ l2) = entries_at k l1 ++ entries_at k l2.
Proof. unfold entries_at. by rewrite filter_app, fmap_app. Qed.

Lemma elem_of_entries_at k v l : v ∈ entries_at k l ↔ (k, v) ∈ l.
Proof.
  unfold entries_at. rewrite list_elem_of_fmap. split.
  - intros ([k' v'] & -> & [Hk Hin]%list_elem_of_filter). simpl in Hk. by subst.
  - intros Hin. exists (k, v). split; [done|]. by apply list_elem_of_filter.
Qed.

Lemma group_entries_lookup l k :
  group_entries l !! k =
    match entries_at k l with [] => None | vs => Some vs end.
Proof.
  induction l as [|[k' v'] l IH] using rev_ind; [apply lookup_empty|].
  unfold group_entries in *. rewrite foldl_app. simpl.
  rewrite entries_at_app. unfold entries_at at 2. rewrite filter_cons. simpl.
  set (m := foldl _ _ _) in *. unfold push_entry.
  destruct (decide (k' = k)) as [->|Hne]; simpl.
  - rewrite lookup_insert_eq, IH. by destruct (entries_at k l).
  - rewrite lookup_insert_ne, IH, app_nil_r by done. done.
Qed.

Lemma group_entries_default l k :
  default [] (group_entries l !! k) = entries_at k l.
Proof. rewrite group_entries_lookup. by destruct (entries_at k l). Qed.
End Grouping.

(** ** Finite sets of identifiers *)

Lemma NoDup_subset_length {N} `{OrdId N} (l : list N) (X : gset N) :
  NoDup l → (∀ n, n ∈ l → n ∈ X) → length l ≤ size X.
Proof.
  intros Hl Hsub. rewrite <- (size_list_to_set (C := gset N) l) by done.
  apply subseteq_size. set_solver.
Qed.

Lemma NoDup_full_subset {N} `{OrdId N} (l : list N) (X : gset N) :
  NoDup l → (∀ n, n ∈ l → n ∈ X) → length l = size X → ∀ n, n ∈ X → n ∈ l.
Proof.
  intros Hl Hsub Hlen n Hn.
  assert (list_to_set (C := gset N) l = X) as HX.
  { apply set_subseteq_size_eq; [set_solver|].
    by rewrite size_list_to_set, Hlen. }
  rewrite <- HX in Hn. by apply elem_of_list_to_set in Hn.
Qed.

Lemma size_insert_new {N} `{OrdId N} (x : N) (X : gset N) :
  x ∉ X → size ({[x]} ∪ X) = S (size X).
Proof. intros Hx. rewrite size_union by set_solver. by rewrite size_singleton. Qed.

(** ** Multiplicities *)

Section Occurrences.
Context {A : Type} `{EqDecision A}.

Definition occ (x : A) (l : list A) : nat := length (filter (.= x) l).

Lemma occ_cons x y l : occ x (y :: l) = (if decide (y = x) then 1 else 0) + occ x l.
Proof. unfold occ. rewrite filter_cons. by case_decide. Qed.

Lemma elem_of_occ x l : x ∈ l ↔ 0 < occ x l.
Proof.
  induction l as [|y l IH]; [split; [set_solver|unfold occ; simpl; lia]|].
  rewrite occ_cons, elem_of_cons, IH. case_decide; subst; [naive_solver lia|].
  naive_solver lia.
Qed.

#[export] Instance occ_proper x : Proper ((≡ₚ) ==> (=)) (occ x).
Proof. intros l l' Hl. unfold occ. by rewrite Hl. Qed.
End Occurrences.

(** ** Counting with a filter *)

Lemma length_filter_mono {A} (P Q : A → Prop) `{∀ x, Decision (P x)} `{∀ x, Decision (Q x)} l :
  (∀ x, x ∈ l → P x → Q x) → length (filter P l) ≤ length (filter Q l).
Proof.
  induction l as [|x l IH]; intros HPQ; [done|]. rewrite !filter_cons.
  assert (length (filter P l) ≤ length (filter Q l)) by (apply IH; set_solver).
  repeat case_decide; simpl; try lia. exfalso. set_solver.
Qed.

Lemma NoDup_fmap_eq {A B} (f : A → B) l x y :
  NoDup (f <$> l) → x ∈ l → y ∈ l → f x = f y → x = y.
Proof.
  induction l as [|z l IH]; cbn; [set_solver|].
  intros [Hz Hl]%NoDup_cons [->|Hx]%elem_of_cons [->|Hy]%elem_of_cons Hf; [done|..|by apply IH].
  - destruct Hz. rewrite Hf. by apply list_elem_of_fmap_2.
  - destruct Hz. rewrite <- Hf. by apply list_elem_of_fmap_2.
Qed.

Lemma list_filter_none {A} (P : A → Prop) `{∀ x, Decision (P x)} l :
  (∀ x, x ∈ l → ¬ P x) → filter P l = [].
Proof.
  intros Hn. destruct (filter P l) as [|x l'] eqn:Hf; [done|].
  assert (x ∈ filter P l) as [HP Hx]%list_elem_of_filter by (rewrite Hf; left). by edestruct Hn.
Qed.

Lemma omap_nil_iff {A B} (f : A → option B) l : omap f l = [] ↔ ∀ x, x ∈ l → f x = None.
Proof.
  induction l as [|x l IH]; cbn; [set_solver|]. destruct (f x) eqn:Hx.
  - split; [done|]. intros Hn. rewrite Hn in Hx; [done|left].
  - rewrite IH. set_solver.
Qed.

Lemma length_le_1_eq {A} (l : list A) x y : length l ≤ 1 → x ∈ l → y ∈ l → x = y.
Proof.
  destruct l as [|a [|b l]]; simpl; [set_solver| |lia].
  by intros _ ->%list_elem_of_singleton ->%list_elem_of_singleton.
Qed.

(** ** Sorted lists *)

Lemma StronglySorted_filter {A} (R : relation A) (P : A → Prop) `{∀ x, Decision (P x)} l :
  StronglySorted R l → StronglySorted R (filter P l).
Proof.
  induction 1 as [|x l Hl IH Hx]; [constructor|].
  rewrite filter_cons. case_decide; [|done]. constructor; [done|].
  apply Forall_forall. intros y [_ Hy]%list_elem_of_filter.
  by eapply Forall_forall in Hx.
Qed.

Lemma list_filter_True {A} (P : A → Prop) `{∀ x, Decision (P x)} l :
  Forall P l → filter P l = l.
Proof. induction 1; [done|]. rewrite filter_cons_True by done. by f_equal. Qed.

Lemma StronglySorted_snoc {A} (R : relation A) l x :
  StronglySorted R l → Forall (λ y, R y x) l → StronglySorted R (l ++ [x]).
Proof.
  induction 1 as [|y l Hl IH Hy]; intros Hx; simpl; [repeat constructor|].
  apply Forall_cons in Hx as [Hyx Hx]. constructor; [auto|].
  apply Forall_app. split; [done|]. by constructor.
Qed.

Lemma StronglySorted_sublist {A} (R : relation A) l1 l2 :
  l1 `sublist_of` l2 → StronglySorted R l2 → StronglySorted R l1.
Proof.
  induction 1 as [|x l1 l2 Hsub IH|x l1 l2 Hsub IH]; intros Hs; [done| |].
  - apply StronglySorted_cons in Hs as [Hx Hs]. constructor; [auto|].
    apply Forall_forall. intros y Hy. rewrite Forall_forall in Hx. apply Hx.
    by eapply elem_of_sublist.
  - apply StronglySorted_cons in Hs as [_ Hs]. auto.
Qed.
