(* ===== verification/Graph.v ===== *)
(** Kahn's topological sort, the ready frontier and the graph mutations of
    [crates/cosmon-graph] ([lib.rs] and [mutation.rs]). Edges are
    [(dependency, dependent)] pairs over an arbitrary identifier type. *)
From S2P Require Import Prelude.
From stdpp Require Import prelude gmap list sorting fin_maps relations.

(** The error of [toposort]. [IndexPanic] is the out-of-range [edges[0]] of
    the source's last resort; [toposort_no_panic] shows that it is dead. *)
Inductive topo_error (N : Type) := CycleError (n : N) | IndexPanic.
Arguments CycleError {N} n.
Arguments IndexPanic {N}.

Section Graph.
Context {N : Type} `{OrdId N}.
Implicit Types (edges : list (N * N)) (n node : N).

(** All nodes mentioned by the edges. *)
Definition nodes_of edges : gset N :=
  foldl (λ X '(a, b), {[b]} ∪ ({[a]} ∪ X)) ∅ edges.

Definition dependents_of edges : gmap N (list N) := group_entries edges.

(** [entry(step).or_default() += 1] over the zero-initialised degree map. *)
Definition init_degrees edges : gmap N Z :=
  foldl (λ (m : gmap N Z) '(_, step), <[step := (default 0 (m !! step) + 1)%Z]> m)
    (gset_to_gmap 0%Z (nodes_of edges)) edges.

(** The inner loop: decrement the degree of every dependent, collecting
    those that reach zero. *)
Fixpoint relax (deg : gmap N Z) (deps : list N) : gmap N Z * list N :=
  match deps with
  | [] => (deg, [])
  | dep :: deps' =>
      match deg !! dep with
      | None => relax deg deps'
      | Some d =>
          let '(deg', ready) := relax (<[dep := (d - 1)%Z]> deg) deps' in
          (deg', if decide (d - 1 = 0)%Z then dep :: ready else ready)
      end
  end.

Record kahn_state := KahnState {
  kahn_queue : list N;
  kahn_degrees : gmap N Z;
  kahn_result : list N;
}.

(** One iteration of [while let Some(node) = queue.first()]. *)
Definition kahn_step (dependents : gmap N (list N)) (st : kahn_state) :
    option kahn_state :=
  match kahn_queue st with
  | [] => None
  | node :: queue =>
      let result := kahn_result st ++ [node] in
      match dependents !! node with
      | Some deps =>
          let '(deg, newly_ready) := relax (kahn_degrees st) deps in
          Some (KahnState (queue ++ sort_ids newly_ready) deg result)
      | None => Some (KahnState queue (kahn_degrees st) result)
      end
  end.

Definition kahn_init `{!HashOrder N} edges : kahn_state :=
  let deg := init_degrees edges in
  KahnState
    (sort_ids (filter (λ n, deg !! n = Some 0%Z) (hash_iter (dom deg)))) deg [].

(** The state in which the queue is empty; [size (nodes_of edges)]
    iterations reach it ([kahn_run_exits]). *)
Definition kahn_run `{!HashOrder N} edges : kahn_state :=
  loop (size (nodes_of edges)) (kahn_step (dependents_of edges)) (kahn_init edges).

Definition toposort `{!HashOrder N} edges : result (topo_error N) (list N) :=
  let st := kahn_run edges in
  if decide (length (kahn_result st) = size (nodes_of edges)) then
    Ok (kahn_result st)
  else
    match list_find (λ n, (0 < default 0 (kahn_degrees st !! n))%Z)
            (hash_iter (dom (kahn_degrees st))) with
    | Some (_, stuck) => Err (CycleError stuck)
    | None =>
        match last (kahn_result st), edges with
        | Some n, _ => Err (CycleError n)
        | None, (a, _) :: _ => Err (CycleError a)
        | None, [] => Err IndexPanic
        end
    end.

(** [deps_of.get(node).is_none_or(|deps| deps.iter().all(..))] *)
Definition deps_all (P : N → bool) edges n : bool :=
  match group_entries (prod_swap <$> edges) !! n with
  | None => true
  | Some deps => forallb P deps
  end.

Definition ready_frontier `{!HashOrder N} edges (completed : gset N) : list N :=
  sort_ids (filter (λ n, (n ∉ completed) ∧
                         deps_all (λ d, bool_decide (d ∈ completed)) edges n)
              (hash_iter (nodes_of edges))).

(** ** Mutation ([mutation.rs]) *)

Definition prune_completed `{!HashOrder N} edges (completed : gset N) :
    list (N * N) * list N :=
  let pruned := sort_ids (filter (λ e, e.1 ∉ completed) edges) in
  (pruned, sort_ids (hash_iter (nodes_of edges ∖ nodes_of pruned))).

(** [seen.insert(edge)]: keep the first copy of every edge. *)
Fixpoint dedup_edges (seen : gset (N * N)) edges : list (N * N) :=
  match edges with
  | [] => []
  | e :: edges' =>
      if decide (e ∈ seen) then dedup_edges seen edges'
      else e :: dedup_edges ({[e]} ∪ seen) edges'
  end.

Definition insert_subgraph `{!HashOrder N} edges new_edges :
    result (topo_error N) (list (N * N)) :=
  let merged := dedup_edges ∅ (edges ++ new_edges) in
  match toposort merged with
  | Err e => Err e
  | Ok _ => Ok (sort_ids merged)
  end.
End Graph.
Arguments kahn_state N {_} : rename.

(** ** Specification *)

Section Spec.
Context {N : Type} `{OrdId N}.
Implicit Types (edges : list (N * N)) (n : N) (l : list N).

Definition edge_rel edges : relation N := λ a b, (a, b) ∈ edges.

Definition acyclic edges : Prop := ∀ n, ¬ tc (edge_rel edges) n n.

(** [l] lists every dependency before the nodes that depend on it. *)
Definition topo_ordered edges l : Prop :=
  ∀ l1 n l2, l = l1 ++ n :: l2 → ∀ d, (d, n) ∈ edges → d ∈ l1.

Definition is_topo_order edges l : Prop :=
  NoDup l ∧ (∀ n, n ∈ l ↔ n ∈ nodes_of edges) ∧ topo_ordered edges l.
End Spec.

(** ** Degrees and the inner loop *)

Create HintDb graph discriminated.

Section Degrees.
Context {N : Type} `{OrdId N}.
Implicit Types (edges : list (N * N)) (n node : N) (l : list N).

Lemma nodes_of_snoc edges a b :
  nodes_of (edges ++ [(a, b)]) = {[b]} ∪ ({[a]} ∪ nodes_of edges).
Proof. unfold nodes_of. by rewrite foldl_app. Qed.

Lemma elem_of_nodes_of edges n :
  n ∈ nodes_of edges ↔ ∃ e, e ∈ edges ∧ (n = e.1 ∨ n = e.2).
Proof.
  induction edges as [|[a b] edges IH] using rev_ind; [set_solver|].
  rewrite nodes_of_snoc, !elem_of_union, !elem_of_singleton, IH.
  setoid_rewrite elem_of_app. setoid_rewrite list_elem_of_singleton. split.
  - intros [->|[->|(e & ? & ?)]]; [exists (a, b)..|exists e]; simpl; auto.
  - intros (e & [?| ->] & He); [right; right; by exists e|]. naive_solver.
Qed.

Lemma edge_source edges a b : (a, b) ∈ edges → a ∈ nodes_of edges.
Proof. intros He. apply elem_of_nodes_of. exists (a, b); auto. Qed.

Lemma edge_target edges a b : (a, b) ∈ edges → b ∈ nodes_of edges.
Proof. intros He. apply elem_of_nodes_of. exists (a, b); auto. Qed.

#[local] Hint Resolve edge_source edge_target : graph.

(** Incoming edges of [n] from a source outside [R], with multiplicity. *)
Definition pending edges (R : list N) n : nat :=
  length (filter (λ e, e.2 = n ∧ e.1 ∉ R) edges).

Lemma pending_snoc edges R node n :
  node ∉ R →
  pending edges R n =
    pending edges (R ++ [node]) n + occ n (entries_at node edges).
Proof.
  intros Hnode. unfold pending, entries_at.
  induction edges as [|[a b] edges IH]; [done|]. rewrite !filter_cons; csimpl.
  assert (a ∈ R ++ [node] ↔ a ∈ R ∨ a = node) as HR
    by (by rewrite elem_of_app, list_elem_of_singleton).
  destruct (decide (a = node)) as [->|Ha], (decide (b = n)) as [->|Hb];
    repeat case_decide; csimpl; rewrite ?occ_cons; repeat case_decide; rewrite ?IH;
    solve [lia | exfalso; naive_solver].
Qed.

Lemma pending_perm edges1 edges2 R n :
  edges1 ≡ₚ edges2 → pending edges1 R n = pending edges2 R n.
Proof. intros He. unfold pending. by rewrite He. Qed.

Lemma pending_zero edges R n :
  pending edges R n = 0 ↔ ∀ d, (d, n) ∈ edges → d ∈ R.
Proof.
  unfold pending. rewrite length_zero_iff_nil. split.
  - intros Hnil d Hd. apply dec_stable. intros HR.
    assert ((d, n) ∈ filter (λ e, e.2 = n ∧ e.1 ∉ R) edges) as Hin
      by (apply list_elem_of_filter; auto).
    rewrite Hnil in Hin. by apply elem_of_nil in Hin.
  - intros Hall. destruct (filter _ _) as [|e l] eqn:E; [done|].
    assert (e ∈ e :: l) as He by constructor. rewrite <- E in He.
    apply list_elem_of_filter in He as [[<- Hn] He]. destruct e as [d n].
    by destruct Hn; apply Hall.
Qed.

Lemma init_degrees_lookup edges n :
  init_degrees edges !! n =
    if decide (n ∈ nodes_of edges) then Some (Z.of_nat (pending edges [] n)) else None.
Proof.
  assert (∀ m : gmap N Z,
    (∀ e, e ∈ edges → is_Some (m !! e.2)) →
    foldl (λ (m : gmap N Z) '(_, step), <[step := (default 0 (m !! step) + 1)%Z]> m) m edges !! n
    = (λ d, (d + Z.of_nat (pending edges [] n))%Z) <$> m !! n) as Hgen.
  { induction edges as [|[a b] edges IH]; intros m Hm; simpl.
    - destruct (m !! n) as [d|]; simpl; [|done]. by rewrite Z.add_0_r.
    - destruct (Hm (a, b)) as [d Hd]; [left|]. simpl in Hd.
      rewrite IH; unfold pending; rewrite ?filter_cons; simpl.
      + destruct (decide (b = n)) as [->|Hne].
        * rewrite lookup_insert_eq, Hd; simpl.
          rewrite decide_True by (split; [done|apply not_elem_of_nil]). simpl.
          f_equal. lia.
        * rewrite lookup_insert_ne, decide_False by naive_solver. done.
      + intros e He. rewrite lookup_insert. case_decide; [done|].
        apply Hm. by right. }
  unfold init_degrees. rewrite Hgen.
  - case_decide as Hn.
    + by rewrite (proj2 (lookup_gset_to_gmap_Some _ _ _ _) (conj Hn eq_refl)).
    + by rewrite (proj2 (lookup_gset_to_gmap_None _ _ _) Hn).
  - intros [a b] He. exists 0%Z. apply lookup_gset_to_gmap_Some.
    split; [eauto with graph|done].
Qed.

(** The inner loop subtracts multiplicities, and collects each dependent
    once, exactly when its degree reaches zero. *)
Lemma relax_spec (deg deg' : gmap N Z) deps ready :
  relax deg deps = (deg', ready) →
  (∀ n, n ∈ deps → ∃ d, deg !! n = Some d ∧
                   (Z.of_nat (occ n deps) ≤ d)%Z) →
  (∀ n, deg' !! n = (λ d, (d - Z.of_nat (occ n deps))%Z) <$> deg !! n) ∧
  NoDup ready ∧
  (∀ n, n ∈ ready ↔ n ∈ deps ∧ deg' !! n = Some 0%Z).
Proof.
  revert deg ready. induction deps as [|x deps IH]; intros deg ready; simpl.
  { intros [= <- <-] _. split_and!; [|constructor|set_solver].
    intros n. unfold occ; simpl. destruct (deg !! n); simpl; [f_equal; lia|done]. }
  intros Heq Hd. destruct (Hd x) as (d & Hx & Hle); [left|].
  rewrite Hx in Heq. rewrite occ_cons, decide_True in Hle by done.
  destruct (relax _ deps) as [deg1 ready1] eqn:E. injection Heq as <- Hready.
  destruct (IH _ _ E) as (Hdeg & Hnd & Hin).
  { intros n Hn. rewrite lookup_insert. destruct (decide (x = n)) as [<-|Hxn].
    - exists (d - 1)%Z. split; [done|lia].
    - destruct (Hd n) as (d' & ? & Hle'); [by right|].
      rewrite occ_cons, decide_False in Hle' by done. by exists d'. }
  assert (∀ n, deg1 !! n = (λ d, (d - Z.of_nat (occ n (x :: deps)))%Z)
                <$> deg !! n) as Hdeg'.
  { intros n. rewrite Hdeg, occ_cons, lookup_insert.
    destruct (decide (x = n)) as [<-|Hxn].
    - rewrite Hx. simpl. f_equal. lia.
    - done. }
  split_and!; [done| |].
  - subst ready. case_decide as Hz; [|done]. constructor; [|done].
    intros [Hxin%elem_of_occ _]%Hin. lia.
  - intros n. subst ready. rewrite elem_of_cons.
    assert (deg1 !! x = Some (d - 1 - Z.of_nat (occ x deps))%Z) as Hx1.
    { rewrite Hdeg, lookup_insert_eq. done. }
    case_decide as Hz; rewrite ?elem_of_cons, Hin; split.
    + intros [->|[? ?]]; [|by auto]. split; [by left|]. rewrite Hx1. f_equal. lia.
    + intros [[->|?] ?]; auto.
    + intros [? ?]; auto.
    + intros [[->|?] Hn0]; [|auto]. split; [|done].
      rewrite Hx1 in Hn0. injection Hn0 as Hn0. apply elem_of_occ. lia.
Qed.
End Degrees.
#[export] Hint Resolve edge_source edge_target : graph.

(** ** The loop invariant of Kahn's algorithm *)

Section Kahn.
Context {N : Type} `{OrdId N}.
Implicit Types (edges : list (N * N)) (n node : N) (l : list N).

Lemma topo_ordered_snoc edges l n :
  topo_ordered edges l → (∀ d, (d, n) ∈ edges → d ∈ l) → topo_ordered edges (l ++ [n]).
Proof.
  intros Hl Hn l1 m l2 Heq d Hd.
  destruct l2 as [|x l2 _] using rev_ind.
  - apply app_inj_tail in Heq as [<- <-]. by apply Hn.
  - rewrite app_comm_cons, app_assoc in Heq. apply app_inj_tail in Heq as [-> _].
    by eapply Hl.
Qed.

Record kahn_inv edges (st : kahn_state N) : Prop := {
  ki_degrees n :
    kahn_degrees st !! n =
      if decide (n ∈ nodes_of edges)
      then Some (Z.of_nat (pending edges (kahn_result st) n)) else None;
  ki_nodup : NoDup (kahn_result st ++ kahn_queue st);
  ki_seen n :
    n ∈ kahn_result st ++ kahn_queue st ↔
      n ∈ nodes_of edges ∧ pending edges (kahn_result st) n = 0;
  ki_topo : topo_ordered edges (kahn_result st);
}.

Lemma elem_of_dom_degrees edges n :
  n ∈ dom (init_degrees edges) ↔ n ∈ nodes_of edges.
Proof.
  rewrite elem_of_dom, init_degrees_lookup. case_decide; [naive_solver|].
  split; [by intros []|done].
Qed.

Lemma kahn_init_inv `{!HashOrder N} edges : kahn_inv edges (kahn_init edges).
Proof.
  assert (∀ n, n ∈ kahn_queue (kahn_init edges) ↔
               n ∈ nodes_of edges ∧ pending edges [] n = 0) as Hq.
  { intros n. simpl. rewrite elem_of_sort_ids, list_elem_of_filter, elem_of_hash_iter,
      elem_of_dom_degrees, init_degrees_lookup.
    case_decide; split; [intros [[= ?] ?]; split; [done|lia] | intros [? ->]; done
      | naive_solver | naive_solver]. }
  split; simpl in *.
  - intros n. apply init_degrees_lookup.
  - apply sort_ids_NoDup, NoDup_filter. rewrite hash_iter_perm. apply NoDup_elements.
  - exact Hq.
  - intros l1 n l2 Hl. by destruct l1.
Qed.

Lemma kahn_step_cons edges node queue deg R :
  kahn_step (dependents_of edges) (KahnState (node :: queue) deg R) =
    let '(deg', ready) := relax deg (entries_at node edges) in
    Some (KahnState (queue ++ sort_ids ready) deg' (R ++ [node])).
Proof.
  unfold kahn_step, dependents_of; simpl. rewrite group_entries_lookup.
  destruct (entries_at node edges); simpl; [|done]. by rewrite app_nil_r.
Qed.

Lemma kahn_step_inv edges (st st' : kahn_state N) :
  kahn_inv edges st → kahn_step (dependents_of edges) st = Some st' → kahn_inv edges st'.
Proof.
  destruct st as [[|node queue] deg R]; [done|]. intros [Hdeg Hnd Hseen Htopo].
  simpl in *. rewrite kahn_step_cons.
  destruct (relax _ _) as [deg' ready] eqn:E. intros [= <-].
  assert (node ∉ R) as HR by (apply NoDup_app in Hnd as (_ & Hnd & _); set_solver).
  destruct (proj1 (Hseen node)) as [_ Hnode]; [set_solver|].
  assert (∀ n, pending edges R n =
    pending edges (R ++ [node]) n + occ n (entries_at node edges)) as Hpend
    by (intros n; by apply pending_snoc).
  apply relax_spec in E as (Hdeg' & Hndr & Hready).
  2:{ intros n Hn%elem_of_entries_at. exists (Z.of_nat (pending edges R n)).
      rewrite Hdeg, decide_True by eauto with graph. split; [done|].
      rewrite Hpend. lia. }
  assert (∀ n, deg' !! n = if decide (n ∈ nodes_of edges)
    then Some (Z.of_nat (pending edges (R ++ [node]) n)) else None) as Hdeg1.
  { intros n. rewrite Hdeg', Hdeg. case_decide; [|done]. simpl. f_equal.
    rewrite Hpend. lia. }
  assert (∀ n, n ∈ ready ↔ n ∈ entries_at node edges ∧ pending edges (R ++ [node]) n = 0)
    as Hready'.
  { intros n. rewrite Hready, Hdeg1. split; intros [Hn Hz]; (split; [done|]).
    - case_decide; [|done]. injection Hz as Hz. lia.
    - rewrite decide_True, Hz; [done|]. apply elem_of_entries_at in Hn.
      eauto with graph. }
  assert (∀ n, n ∈ ready → n ∉ R ++ node :: queue) as Hfresh.
  { intros n [Hn Hz]%Hready' [_ Hn0]%Hseen. rewrite Hpend, Hz in Hn0.
    apply elem_of_occ in Hn. lia. }
  assert ((R ++ [node]) ++ queue ++ sort_ids ready ≡ₚ (R ++ node :: queue) ++ ready) as Hperm.
  { rewrite sort_ids_perm. by rewrite <- !(assoc_L (++)). }
  split; simpl; [done| | |].
  - rewrite Hperm. apply NoDup_app. split_and!; [done|set_solver|done].
  - intros n. rewrite Hperm, elem_of_app, Hready', Hseen, Hpend, elem_of_entries_at. split.
    + intros [[? ?]|[He ?]]; (split; [|lia]); [done|eauto with graph].
    + intros [Hn Hz]. rewrite Hz. destruct (decide (n ∈ entries_at node edges)) as [Hin|Hin].
      * right. by rewrite <- elem_of_entries_at.
      * left. split; [done|]. rewrite elem_of_occ in Hin. lia.
  - apply topo_ordered_snoc; [done|]. by apply pending_zero.
Qed.

(** The loop exits within one iteration per node. *)
Lemma kahn_run_exits `{!HashOrder N} edges :
  kahn_step (dependents_of edges) (kahn_run edges) = None ∧ kahn_inv edges (kahn_run edges).
Proof.
  unfold kahn_run.
  split; [|apply loop_inv; eauto using kahn_step_inv, kahn_init_inv].
  apply (loop_exits _ (kahn_inv edges)) with
    (μ := λ st, size (nodes_of edges) - length (kahn_result st));
    [by eauto using kahn_step_inv| |by apply kahn_init_inv|simpl; lia].
  intros st st' Hst Hstep. assert (kahn_inv edges st') as [_ Hnd Hseen _]
    by eauto using kahn_step_inv.
  destruct st as [[|node queue] deg R]; [done|]. rewrite kahn_step_cons in Hstep.
  destruct (relax _ _). injection Hstep as <-. simpl in *.
  apply NoDup_app in Hnd as (Hnd & _ & _).
  assert (length (R ++ [node]) ≤ size (nodes_of edges)) as Hle
    by (apply NoDup_subset_length; [done|]; intros n Hn; apply Hseen; set_solver).
  rewrite length_app in *. simpl in *. lia.
Qed.

Lemma kahn_run_done `{!HashOrder N} edges (R := kahn_result (kahn_run edges)) :
  NoDup R ∧ topo_ordered edges R ∧
  (∀ n, n ∈ R ↔ n ∈ nodes_of edges ∧ pending edges R n = 0) ∧
  (∀ n, kahn_degrees (kahn_run edges) !! n =
     if decide (n ∈ nodes_of edges) then Some (Z.of_nat (pending edges R n)) else None).
Proof.
  unfold R. destruct (kahn_run_exits edges) as [Hex [Hdeg Hnd Hseen Htopo]].
  destruct (kahn_run edges) as [[|node queue] deg R']; simpl in *.
  - rewrite app_nil_r in *. auto.
  - unfold kahn_step in Hex. simpl in Hex. destruct (_ !! node); [|done].
    by destruct (relax _ _).
Qed.
End Kahn.

(** ** Correctness of [toposort] *)

Section Toposort.
Context {N : Type} `{OrdId N}.
Implicit Types (edges : list (N * N)) (n : N) (l : list N).

Lemma topo_order_before edges l a b :
  topo_ordered edges l → tc (edge_rel edges) a b →
  ∀ l1 l2, l = l1 ++ b :: l2 → a ∈ l1.
Proof.
  intros Hl. induction 1 as [a b Hab|a m b Ham Htc IH]; intros l1 l2 ->.
  - by eapply Hl.
  - specialize (IH l1 l2 eq_refl). apply list_elem_of_split in IH as (k1 & k2 & ->).
    rewrite elem_of_app. left. eapply Hl; [|exact Ham]. by rewrite <- (assoc_L (++)).
Qed.

Lemma topo_order_acyclic edges l : is_topo_order edges l → acyclic edges.
Proof.
  intros (Hnd & Hall & Htopo) n Hn.
  assert (n ∈ l) as Hin.
  { apply Hall. inv Hn; unfold edge_rel in *; eauto with graph. }
  apply list_elem_of_split in Hin as (l1 & l2 & ->).
  assert (n ∈ l1) by (by eapply topo_order_before).
  apply NoDup_app in Hnd as (_ & Hnd & _). by eapply Hnd; [|left].
Qed.

Lemma stuck_predecessor edges l n :
  n ∉ l → (∀ m, m ∈ l ↔ m ∈ nodes_of edges ∧ pending edges l m = 0) →
  n ∈ nodes_of edges → ∃ d, (d ∈ nodes_of edges ∧ d ∉ l) ∧ edge_rel edges d n.
Proof.
  intros Hn Hl Hnodes. unfold edge_rel.
  destruct (decide (Exists (λ e, e.2 = n ∧ e.1 ∉ l) edges)) as [Hex|Hex].
  - apply Exists_exists in Hex as ([d n'] & He & [<- Hd]). exists d.
    split; [split; [eauto with graph|done]|done].
  - destruct Hn. apply Hl. split; [done|]. apply pending_zero. intros d Hd.
    apply dec_stable. intros Hdl. apply Hex, Exists_exists. by exists (d, n).
Qed.

Lemma toposort_cases `{!HashOrder N} edges :
  (∃ l, toposort edges = Ok l ∧ is_topo_order edges l) ∨
  (∃ n, toposort edges = Err (CycleError n) ∧
    ∃ c, tc (edge_rel edges) c c ∧ rtc (edge_rel edges) c n).
Proof.
  destruct (kahn_run_done edges) as (Hnd & Htopo & HR & Hdeg).
  unfold toposort. set (st := kahn_run edges) in *.
  case_decide as Hlen.
  { left. eexists; split; [done|]. split_and!; [done| |done].
    intros n. split; [intros ?%HR; naive_solver|].
    apply NoDup_full_subset; [done| |done]. intros m ?%HR. naive_solver. }
  right. destruct (list_find _ _) as [[i n]|] eqn:Hfind.
  - exists n. split; [done|].
    apply list_find_Some in Hfind as (Hi & Hpos & _).
    rewrite Hdeg in Hpos. case_decide as Hn; [|simpl in Hpos; lia].
    apply (predecessors_cycle _ (nodes_of edges ∖ list_to_set (kahn_result st))).
    + intros m Hm. destruct (stuck_predecessor edges (kahn_result st) m)
        as (d & [] & ?); [set_solver|done|set_solver|]. exists d. split; [set_solver|done].
    + apply elem_of_difference. split; [done|]. rewrite elem_of_list_to_set.
      intros [_ Hz]%HR. rewrite Hz in Hpos. simpl in Hpos. lia.
  - exfalso. apply list_find_None in Hfind. rewrite Forall_forall in Hfind.
    apply Hlen, Nat.le_antisymm.
    { apply NoDup_subset_length; [done|]. intros m ?%HR. naive_solver. }
    rewrite <- (size_list_to_set (C := gset N) (kahn_result st)) by done.
    apply subseteq_size. intros n Hn. apply elem_of_list_to_set, HR.
    split; [done|].
    assert (n ∈ hash_iter (dom (kahn_degrees st))) as Hin.
    { rewrite elem_of_hash_iter, elem_of_dom, Hdeg, decide_True by done. eauto. }
    specialize (Hfind n Hin). rewrite Hdeg, decide_True in Hfind by done.
    simpl in Hfind. lia.
Qed.
End Toposort.

Section ToposortTheorems.
Context {N : Type} `{OrdId N}.
Implicit Types (edges : list (N * N)) (n : N) (l : list N).

(** A successful [toposort] lists every node of the graph exactly once,
    each after all of its dependencies. *)
Theorem toposort_sound `{!HashOrder N} edges l :
  toposort edges = Ok l → is_topo_order edges l.
Proof.
  destruct (toposort_cases edges) as [(l' & -> & ?)|(n & -> & _)]; [|done].
  by intros [= <-].
Qed.

Lemma toposort_ok_acyclic `{!HashOrder N} edges l :
  toposort edges = Ok l → acyclic edges.
Proof.
  destruct (toposort_cases edges) as [(l' & -> & Hl)|(n & -> & _)]; [|done].
  intros _. by eapply topo_order_acyclic.
Qed.

(** [toposort] succeeds exactly on acyclic graphs. *)
Theorem toposort_ok_iff_acyclic `{!HashOrder N} edges :
  (∃ l, toposort edges = Ok l) ↔ acyclic edges.
Proof.
  destruct (toposort_cases edges) as [(l & -> & Hl)|(n & -> & c & Hc & _)].
  - split; [intros _; by eapply topo_order_acyclic|eauto].
  - split; [by intros [? ?]|]. intros Hac. by destruct (Hac c).
Qed.

(** On a cyclic graph [toposort] answers [CycleError n] for a node [n]
    that some cycle leads to; the index panic of the source's last resort
    never happens. *)
Theorem toposort_cycle_error `{!HashOrder N} edges e :
  toposort edges = Err e →
  ∃ n c, e = CycleError n ∧ tc (edge_rel edges) c c ∧ rtc (edge_rel edges) c n.
Proof.
  destruct (toposort_cases edges) as [(l & -> & _)|(n & -> & c & ? & ?)]; [done|].
  intros [= <-]. eauto.
Qed.
End ToposortTheorems.

(** ** Determinism *)

Section Determinism.
Context {N : Type} `{OrdId N}.
Implicit Types (edges : list (N * N)) (n : N) (l : list N).

Lemma relax_perm (deg : gmap N Z) l1 l2 :
  l1 ≡ₚ l2 →
  (relax deg l1).1 = (relax deg l2).1 ∧ (relax deg l1).2 ≡ₚ (relax deg l2).2.
Proof.
  intros Hl. revert deg. induction Hl as [|x l1 l2 _ IH|x y l|l1 l2 l3 _ IH1 _ IH2];
    intros deg; simpl; [done| | |].
  - destruct (deg !! x) as [d|]; [|done].
    destruct (IH (<[x:=(d - 1)%Z]> deg)) as [Hd Hr].
    destruct (relax _ l1), (relax _ l2); simpl in *. subst.
    case_decide; [by rewrite Hr|done].
  - destruct (decide (x = y)) as [->|Hne]; [done|].
    destruct (deg !! y) as [dy|] eqn:Hy, (deg !! x) as [dx|] eqn:Hx;
      rewrite ?lookup_insert_ne, ?Hx, ?Hy by done; try done.
    rewrite insert_insert_ne by done.
    destruct (relax _ l) as [deg' r]; simpl. split; [done|].
    repeat case_decide; try done. apply perm_swap.
  - destruct (IH1 deg) as [-> ->], (IH2 deg) as [-> ->]. done.
Qed.

Lemma nodes_of_perm edges1 edges2 :
  edges1 ≡ₚ edges2 → nodes_of edges1 = nodes_of edges2.
Proof.
  intros He. apply set_eq. intros n. rewrite !elem_of_nodes_of. by setoid_rewrite He.
Qed.

Lemma kahn_step_perm edges1 edges2 (st : kahn_state N) :
  edges1 ≡ₚ edges2 →
  kahn_step (dependents_of edges1) st = kahn_step (dependents_of edges2) st.
Proof.
  intros He. destruct st as [[|node queue] deg R]; [done|]. rewrite !kahn_step_cons.
  assert (entries_at node edges1 ≡ₚ entries_at node edges2) as Hent
    by (unfold entries_at; by rewrite He).
  destruct (relax_perm deg _ _ Hent) as [Hd Hr].
  destruct (relax deg (entries_at node edges1)), (relax deg (entries_at node edges2)).
  simpl in *. subst. by rewrite Hr.
Qed.

Lemma kahn_init_perm (ho1 ho2 : HashOrder N) edges1 edges2 :
  edges1 ≡ₚ edges2 →
  @kahn_init N _ ho1 edges1 = @kahn_init N _ ho2 edges2.
Proof.
  intros He.
  assert (init_degrees edges1 = init_degrees edges2) as Hdeg.
  { apply map_eq. intros n. rewrite !init_degrees_lookup, (nodes_of_perm _ _ He).
    by rewrite (pending_perm _ _ _ _ He). }
  unfold kahn_init. by rewrite Hdeg, !sort_filter_hash_iter.
Qed.

(** The order [toposort] returns depends neither on the iteration order
    of the hash tables nor on the order in which the edges are listed. *)
Theorem toposort_deterministic (ho1 ho2 : HashOrder N) edges1 edges2 l :
  edges1 ≡ₚ edges2 →
  @toposort N _ ho1 edges1 = Ok l → @toposort N _ ho2 edges2 = Ok l.
Proof.
  intros He. unfold toposort, kahn_run.
  rewrite (kahn_init_perm ho1 ho2 _ _ He), (nodes_of_perm _ _ He).
  rewrite (loop_ext _ _ _ _ (λ st, kahn_step_perm _ _ st He)).
  case_decide; [done|]. repeat case_match; done.
Qed.
End Determinism.

(** ** The ready frontier and the graph mutations *)

Section FrontierTheorems.
Context {N : Type} `{OrdId N} `{!HashOrder N}.
Implicit Types (edges : list (N * N)) (n d : N) (l : list N) (completed : gset N).

Lemma deps_all_true (P : N → bool) edges n :
  deps_all P edges n ↔ ∀ d, (d, n) ∈ edges → P d.
Proof.
  unfold deps_all. rewrite group_entries_lookup.
  assert (∀ d, d ∈ entries_at n (prod_swap <$> edges) ↔ (d, n) ∈ edges) as Hent.
  { intros d. rewrite elem_of_entries_at, list_elem_of_fmap.
    split; [by intros ([] & [= -> ->] & ?)|by exists (d, n)]. }
  setoid_rewrite <- Hent. destruct (entries_at _ _) as [|x l] eqn:E.
  - split; [set_solver|done].
  - rewrite Is_true_true, forallb_forall. setoid_rewrite <- list_elem_of_In.
    by setoid_rewrite Is_true_true.
Qed.

Lemma elem_of_ready_frontier edges completed n :
  n ∈ ready_frontier edges completed ↔
    n ∈ nodes_of edges ∧ (n ∉ completed) ∧ ∀ d, (d, n) ∈ edges → d ∈ completed.
Proof.
  unfold ready_frontier. rewrite elem_of_sort_ids, list_elem_of_filter, elem_of_hash_iter.
  rewrite deps_all_true. setoid_rewrite bool_decide_spec. tauto.
Qed.
Lemma ready_frontier_sorted edges completed :
  StronglySorted ord_le (ready_frontier edges completed) ∧
  NoDup (ready_frontier edges completed).
Proof.
  split; [apply sort_ids_sorted|]. apply sort_ids_NoDup, NoDup_filter.
  rewrite hash_iter_perm. apply NoDup_elements.
Qed.

(** A nonempty acyclic graph always has something to run: when nothing is
    ready, everything has completed. *)
Lemma ready_frontier_progress edges completed :
  acyclic edges → ready_frontier edges completed = [] →
  ∀ n, n ∈ nodes_of edges → n ∈ completed.
Proof.
  intros Hac Hnil n Hn. apply dec_stable. intros Hnc.
  destruct (predecessors_cycle (edge_rel edges) (nodes_of edges ∖ completed) n)
    as (c & Hc & _); [|set_solver|by destruct (Hac c)].
  intros m [Hm Hmc]%elem_of_difference.
  destruct (decide (Exists (λ e, e.2 = m ∧ e.1 ∉ completed) edges)) as [Hex|Hex].
  - apply Exists_exists in Hex as ([d m'] & He & [<- Hd]). exists d.
    split; [|done]. apply elem_of_difference. eauto with graph.
  - exfalso. assert (m ∈ ready_frontier edges completed) as Hin;
      [|rewrite Hnil in Hin; set_solver].
    apply elem_of_ready_frontier. split_and!; [done..|]. intros d Hd.
    apply dec_stable. intros ?. apply Hex, Exists_exists. by exists (d, m).
Qed.

(** [prune_completed] loses no work: what is ready in the original
    graph is exactly what is ready in the pruned one, plus the removed
    nodes that have not completed. *)
Theorem prune_completed_frontier edges completed n :
  n ∈ ready_frontier edges completed ↔
    n ∈ ready_frontier (prune_completed edges completed).1 ∅ ∨
    (n ∈ (prune_completed edges completed).2 ∧ n ∉ completed).
Proof.
  unfold prune_completed. simpl. set (pruned := sort_ids _).
  assert (∀ e, e ∈ pruned ↔ e ∈ edges ∧ e.1 ∉ completed) as Hpr.
  { intros e. unfold pruned. rewrite elem_of_sort_ids, list_elem_of_filter. tauto. }
  assert (n ∈ nodes_of pruned ↔ (∃ e, (e ∈ edges ∧ e.1 ∉ completed) ∧ (n = e.1 ∨ n = e.2)))
    as Hnodes by (rewrite elem_of_nodes_of; by setoid_rewrite Hpr).
  rewrite elem_of_sort_ids, elem_of_hash_iter, elem_of_difference.
  rewrite !elem_of_ready_frontier. setoid_rewrite Hpr. simpl. split.
  - intros (Hn & Hnc & Hdeps).
    destruct (decide (n ∈ nodes_of pruned)); [left|right; tauto].
    split_and!; [done|set_solver|]. intros d [Hd []]. auto.
  - intros [(Hn & _ & Hdeps)|[[Hn Hnp] Hnc]].
    + apply Hnodes in Hn as ([a b] & [He Ha] & Hor); simpl in *.
      assert (∀ d, (d, n) ∈ edges → d ∈ completed) as Hall.
      { intros d Hd. apply dec_stable. intros ?. destruct (Hdeps d); [auto|set_solver]. }
      destruct Hor as [->|Hor]; [|subst; by destruct Ha; apply Hall].
      split_and!; eauto with graph.
    + split_and!; [done..|]. intros d Hd. apply dec_stable. intros ?.
      apply Hnp, Hnodes. exists (d, n). simpl. auto.
Qed.

Lemma dedup_edges_spec (seen : gset (N * N)) edges :
  NoDup (dedup_edges seen edges) ∧
  ∀ e, e ∈ dedup_edges seen edges ↔ e ∈ edges ∧ e ∉ seen.
Proof.
  revert seen. induction edges as [|x edges IH]; intros seen; simpl.
  { split; [constructor|set_solver]. }
  case_decide as Hx.
  - destruct (IH seen) as [Hnd Hin]. split; [done|]. set_solver.
  - destruct (IH ({[x]} ∪ seen)) as [Hnd Hin]. split.
    + constructor; [|done]. rewrite Hin. set_solver.
    + intros e. rewrite elem_of_cons, Hin.
      destruct (decide (e = x)) as [->|]; set_solver.
Qed.

Lemma acyclic_ext edges1 edges2 :
  (∀ e, e ∈ edges1 ↔ e ∈ edges2) → acyclic edges1 ↔ acyclic edges2.
Proof.
  intros He. assert (∀ a b, tc (edge_rel edges1) a b ↔ tc (edge_rel edges2) a b) as Htc.
  { intros a b. split; intros Hab; (eapply tc_congruence with (f := id); [|exact Hab]);
      intros x y Hxy; by apply He. }
  unfold acyclic. by setoid_rewrite Htc.
Qed.

Lemma insert_subgraph_cases edges new_edges :
  match insert_subgraph edges new_edges with
  | Ok merged =>
      acyclic (edges ++ new_edges) ∧ StronglySorted ord_le merged ∧ NoDup merged ∧
      ∀ e, e ∈ merged ↔ e ∈ edges ∨ e ∈ new_edges
  | Err e => ¬ acyclic (edges ++ new_edges) ∧ e ≠ IndexPanic
  end.
Proof.
  destruct (dedup_edges_spec ∅ (edges ++ new_edges)) as [Hnd Hin].
  assert (acyclic (dedup_edges ∅ (edges ++ new_edges)) ↔ acyclic (edges ++ new_edges))
    as Hac by (apply acyclic_ext; set_solver).
  unfold insert_subgraph. destruct (toposort_cases (dedup_edges ∅ (edges ++ new_edges)))
    as [(l & -> & Hl)|(n & -> & c & Hc & _)].
  - split_and!.
    + apply Hac. by apply (topo_order_acyclic _ l).
    + apply sort_ids_sorted.
    + by apply sort_ids_NoDup.
    + intros e. rewrite elem_of_sort_ids, Hin. set_solver.
  - split; [|done]. intros Hacyc%Hac. by destruct (Hacyc c).
Qed.

Lemma insert_subgraph_ok edges new_edges merged :
  insert_subgraph edges new_edges = Ok merged →
  acyclic merged ∧ ∀ e, e ∈ merged ↔ e ∈ edges ∨ e ∈ new_edges.
Proof.
  intros Hins. pose proof (insert_subgraph_cases edges new_edges) as Hspec.
  rewrite Hins in Hspec. destruct Hspec as (Hac & _ & _ & Hin). split; [|done].
  eapply acyclic_ext; [|exact Hac]. intros e. rewrite Hin, elem_of_app. done.
Qed.

(** [insert_subgraph] accepts exactly the acyclic unions and returns the
    sorted union without duplicates; a refused union is cyclic. *)
Theorem insert_subgraph_spec edges new_edges :
  match insert_subgraph edges new_edges with
  | Ok merged =>
      acyclic (edges ++ new_edges) ∧ StronglySorted ord_le merged ∧ NoDup merged ∧
      ∀ e, e ∈ merged ↔ e ∈ edges ∨ e ∈ new_edges
  | Err e => ¬ acyclic (edges ++ new_edges) ∧ e ≠ IndexPanic
  end.
Proof. apply insert_subgraph_cases. Qed.

(** Splicing the same subgraph a second time changes nothing. *)
Theorem insert_subgraph_idempotent edges new_edges merged :
  insert_subgraph edges new_edges = Ok merged →
  insert_subgraph merged new_edges = Ok merged.
Proof.
  intros Hins. pose proof (insert_subgraph_cases edges new_edges) as Hspec.
  rewrite Hins in Hspec. destruct Hspec as (Hac & Hsorted & Hnd & Hin).
  pose proof (insert_subgraph_cases merged new_edges) as Hspec.
  destruct (insert_subgraph merged new_edges) as [merged'|e].
  - destruct Hspec as (_ & Hsorted' & Hnd' & Hin'). f_equal.
    apply (StronglySorted_unique ord_le); [done..|].
    apply NoDup_Permutation; [done..|]. intros e. rewrite Hin', Hin. tauto.
  - destruct Hspec as [[] _]. eapply acyclic_ext; [|exact Hac].
    intros e'. rewrite !elem_of_app, Hin. tauto.
Qed.
End FrontierTheorems.

(** ** Closed examples *)

Section Examples.
Program Definition reverse_order {N} `{OrdId N} : HashOrder N :=
  {| hash_iter := λ X, reverse (elements X) |}.
Next Obligation. intros N ? X. apply reverse_Permutation. Qed.

Program Definition first_order {N} `{OrdId N} (x : N) : HashOrder N :=
  {| hash_iter := λ X, if decide (x ∈ X) then x :: elements (X ∖ {[x]}) else elements X |}.
Next Obligation.
  intros N ? x X. simpl. case_decide as Hx; [|done].
  rewrite <- elements_union_singleton by set_solver.
  by rewrite <- union_difference_singleton_L.
Qed.

#[local] Existing Instance plain_order.

Example toposort_diamond : toposort [(1, 2); (1, 3); (2, 4); (3, 4); (2, 4)] = Ok [1; 2; 3; 4].
Proof. vm_compute. reflexivity. Qed.

Definition off_cycle_graph : list (nat * nat) := [(1, 2); (2, 1); (2, 3)].

(** The node a [CycleError] names need not lie on a cycle: with the edges
    1→2, 2→1, 2→3 some iteration order reports node 3, which has no
    outgoing edge. *)
Theorem toposort_error_off_cycle :
  ∃ ho : HashOrder nat,
    @toposort nat _ ho off_cycle_graph = Err (CycleError 3) ∧
    ¬ tc (edge_rel off_cycle_graph) 3 3.
Proof.
  exists (first_order 3). split; [vm_compute; reflexivity|].
  unfold edge_rel, off_cycle_graph. intros Htc. inv Htc; set_solver.
Qed.

Lemma toposort_sound_witness :
  is_topo_order [(1, 2); (1, 3); (2, 4); (3, 4); (2, 4)] [1; 2; 3; 4].
Proof. apply toposort_sound. vm_compute. reflexivity. Defined.

Lemma toposort_cycle_error_witness :
  ∃ n c, CycleError 2 = CycleError n ∧ tc (edge_rel off_cycle_graph) c c ∧
         rtc (edge_rel off_cycle_graph) c n.
Proof. apply toposort_cycle_error. vm_compute. reflexivity. Defined.

Lemma toposort_deterministic_witness :
  @toposort nat _ reverse_order [(2, 3); (1, 3); (1, 2)] = Ok [1; 2; 3].
Proof.
  apply (toposort_deterministic plain_order reverse_order [(1, 2); (1, 3); (2, 3)]).
  - apply (Permutation_rev [(1, 2); (1, 3); (2, 3)]).
  - vm_compute. reflexivity.
Defined.

Lemma insert_subgraph_idempotent_witness :
  insert_subgraph [(1, 2); (2, 3)] [(2, 3)] = Ok [(1, 2); (2, 3)].
Proof.
  apply (insert_subgraph_idempotent [(1, 2)] [(2, 3)]). vm_compute. reflexivity.
Defined.
End Examples.
