(* ===== verification/Plan.v ===== *)
(** [Plan]: the pure reducer for DAG execution of
    [crates/cosmon-graph/src/plan.rs]. The four sets of the record are the
    lifecycle of a node; every operation is a total function on the record. *)
From S2P Require Import Prelude Graph.
From stdpp Require Import prelude gmap list sorting fin_maps relations.

Section Plan.
Context {N : Type} `{OrdId N}.

Record plan := MkPlan {
  plan_edges : list (N * N);
  plan_ready : gset N;
  plan_running : gset N;
  plan_done : gset N;
  plan_skipped : gset N;
}.

(** [Plan::new_with_roots] *)
Definition new_with_roots `{!HashOrder N} (edges : list (N * N)) (skip roots : gset N) :
    result (topo_error N) plan :=
  match toposort edges with
  | Err e => Err e
  | Ok _ =>
      let nodes := roots ∪ nodes_of edges in
      Ok {| plan_edges := edges;
            plan_ready := filter (λ n, (n ∉ skip) ∧
              deps_all (λ d, bool_decide (d ∈ skip)) edges n) nodes;
            plan_running := ∅;
            plan_done := ∅;
            plan_skipped := skip |}
  end.

(** [Plan::new] *)
Definition plan_new `{!HashOrder N} (edges : list (N * N)) (skip : gset N) :
    result (topo_error N) plan :=
  new_with_roots edges skip ∅.

(** [Plan::mark_running] *)
Definition mark_running (p : plan) (id : N) : plan :=
  if decide (id ∈ plan_ready p) then
    {| plan_edges := plan_edges p;
       plan_ready := plan_ready p ∖ {[id]};
       plan_running := {[id]} ∪ plan_running p;
       plan_done := plan_done p;
       plan_skipped := plan_skipped p |}
  else p.

(** [Plan::mark_ready] *)
Definition mark_ready (p : plan) (id : N) : plan :=
  if decide (id ∈ plan_running p) then
    {| plan_edges := plan_edges p;
       plan_ready := {[id]} ∪ plan_ready p;
       plan_running := plan_running p ∖ {[id]};
       plan_done := plan_done p;
       plan_skipped := plan_skipped p |}
  else p.

(** [Plan::mark_done]: the new state and the newly ready nodes. *)
Definition mark_done (p : plan) (id : N) : plan * list N :=
  if decide (id ∈ plan_done p ∨ id ∈ plan_skipped p) then (p, [])
  else
    let running := plan_running p ∖ {[id]} in
    let ready := plan_ready p ∖ {[id]} in
    let done := {[id]} ∪ plan_done p in
    let candidates : gset N := list_to_set (filter (λ e, e.1 = id) (plan_edges p)).*2 in
    let untouched step :=
      ¬ (step ∈ done ∨ step ∈ running ∨ step ∈ plan_skipped p ∨ step ∈ ready) in
    let all_deps_satisfied step :=
      forallb (λ e, bool_decide (e.1 ∈ done) || bool_decide (e.1 ∈ plan_skipped p))
        (filter (λ e, e.2 = step) (plan_edges p)) in
    let newly_ready := sort_ids
      (filter (λ step, untouched step ∧ all_deps_satisfied step) (btree_iter candidates)) in
    ({| plan_edges := plan_edges p;
        plan_ready := ready ∪ list_to_set newly_ready;
        plan_running := running;
        plan_done := done;
        plan_skipped := plan_skipped p |},
     newly_ready).

(** [Plan::is_drained] *)
Definition is_drained (p : plan) : bool :=
  bool_decide (plan_ready p = ∅) && bool_decide (plan_running p = ∅).

(** The transitions a runtime can take a plan through. *)
Inductive plan_op := OpRunning (id : N) | OpReady (id : N) | OpDone (id : N).

Definition plan_exec (p : plan) (op : plan_op) : plan :=
  match op with
  | OpRunning id => mark_running p id
  | OpReady id => mark_ready p id
  | OpDone id => (mark_done p id).1
  end.

Definition plan_exec_all (p : plan) (ops : list plan_op) : plan := foldl plan_exec p ops.
End Plan.
Arguments plan N {_} : rename.
Arguments plan_op N : clear implicits.

(** ** Well-formedness and its preservation *)

Section PlanInv.
Context {N : Type} `{OrdId N}.
Implicit Types (p : plan N) (n d id : N) (roots : gset N).

(** [done ∪ skipped] covers every dependency of [n]. *)
Definition deps_satisfied p n : Prop :=
  ∀ d, (d, n) ∈ plan_edges p → d ∈ plan_done p ∪ plan_skipped p.

(** The loop invariant of the module documentation, over the universe of
    nodes [roots ∪ nodes_of edges]. *)
Record plan_wf roots p : Prop := {
  pw_acyclic : acyclic (plan_edges p);
  pw_running_done : plan_running p ## plan_done p;
  pw_running_skipped : plan_running p ## plan_skipped p;
  pw_done_skipped : plan_done p ## plan_skipped p;
  pw_running n :
    n ∈ plan_running p → n ∈ roots ∪ nodes_of (plan_edges p) ∧ deps_satisfied p n;
  pw_ready n :
    n ∈ plan_ready p ↔
      n ∈ roots ∪ nodes_of (plan_edges p) ∧
      (n ∉ plan_running p ∪ plan_done p ∪ plan_skipped p) ∧ deps_satisfied p n;
}.

Lemma new_with_roots_wf `{!HashOrder N} edges (skip : gset N) roots p :
  new_with_roots edges skip roots = Ok p → plan_wf roots p.
Proof.
  unfold new_with_roots. destruct (toposort edges) as [l|e] eqn:Htopo; [|done].
  intros [= <-]. split; simpl; [|set_solver..|].
  - by eapply toposort_ok_acyclic.
  - intros n. rewrite elem_of_filter, deps_all_true. unfold deps_satisfied; simpl.
    setoid_rewrite bool_decide_spec. set_solver.
Qed.

Lemma mark_running_wf roots p id : plan_wf roots p → plan_wf roots (mark_running p id).
Proof.
  intros Hp. unfold mark_running. case_decide as Hid; [|done].
  apply (pw_ready _ _ Hp) in Hid as (Hu & Hn & Hd).
  destruct Hp as [Hac Hrd Hrs Hds Hrun Hready].
  split; simpl; [done|set_solver..| |].
  - intros n [->%elem_of_singleton|Hin]%elem_of_union; [done|by apply Hrun].
  - intros n. unfold deps_satisfied in *; simpl.
    rewrite elem_of_difference, Hready. set_solver.
Qed.

Lemma mark_ready_wf roots p id : plan_wf roots p → plan_wf roots (mark_ready p id).
Proof.
  intros Hp. unfold mark_ready. case_decide as Hid; [|done].
  destruct (pw_running _ _ Hp id Hid) as [Hu Hd].
  destruct Hp as [Hac Hrd Hrs Hds Hrun Hready].
  split; simpl; [done|set_solver..| |].
  - intros n [Hin _]%elem_of_difference. by apply Hrun.
  - intros n. unfold deps_satisfied in *; simpl.
    rewrite elem_of_union, elem_of_singleton, Hready.
    destruct (decide (n = id)) as [->|Hne]; [set_solver|].
    clear -Hne. split; [intros [?|(? & ? & ?)]; [done|]|]; set_solver.
Qed.

Lemma mark_done_terminal p id :
  id ∈ plan_done p ∪ plan_skipped p → mark_done p id = (p, []).
Proof. intros Hid%elem_of_union. unfold mark_done. by rewrite decide_True. Qed.

(** [mark_done] on a node that is not terminal yet. *)
Lemma mark_done_fresh p id :
  id ∉ plan_done p ∪ plan_skipped p →
  let p' := (mark_done p id).1 in
  plan_edges p' = plan_edges p ∧ plan_skipped p' = plan_skipped p ∧
  plan_done p' = {[id]} ∪ plan_done p ∧
  plan_running p' = plan_running p ∖ {[id]} ∧
  plan_ready p' = (plan_ready p ∖ {[id]}) ∪ list_to_set (mark_done p id).2 ∧
  (∀ n, n ∈ (mark_done p id).2 ↔
     (id, n) ∈ plan_edges p ∧
     (n ∉ plan_done p' ∪ plan_skipped p' ∪ plan_running p') ∧
     (n ∉ plan_ready p ∖ {[id]}) ∧ deps_satisfied p' n).
Proof.
  rewrite elem_of_union. intros Hid. unfold mark_done. rewrite decide_False by done.
  simpl. split_and!; [done..|]. intros n.
  rewrite elem_of_sort_ids, list_elem_of_filter, elem_of_btree_iter.
  rewrite elem_of_list_to_set, list_elem_of_fmap, Is_true_true, forallb_forall.
  assert ((∃ e, n = e.2 ∧ e ∈ filter (λ e, e.1 = id) (plan_edges p)) ↔ (id, n) ∈ plan_edges p)
    as ->.
  { split; [|by exists (id, n); rewrite list_elem_of_filter].
    by intros ([a b] & -> & [<- ?]%list_elem_of_filter). }
  unfold deps_satisfied; simpl.
  assert ((∀ e, In e (filter (λ e, e.2 = n) (plan_edges p)) →
      bool_decide (e.1 ∈ {[id]} ∪ plan_done p) || bool_decide (e.1 ∈ plan_skipped p) = true) ↔
    (∀ d, (d, n) ∈ plan_edges p → d ∈ ({[id]} ∪ plan_done p) ∪ plan_skipped p)) as ->;
    [|rewrite !elem_of_union; tauto].
  setoid_rewrite <- list_elem_of_In. setoid_rewrite list_elem_of_filter.
  setoid_rewrite orb_true_iff. setoid_rewrite bool_decide_eq_true. split.
  - intros Hall d Hd. rewrite elem_of_union. by apply (Hall (d, n)).
  - intros Hall [d n'] [Hn Hd]; simpl in *; subst n'. rewrite <- elem_of_union. by apply Hall.
Qed.

Lemma mark_done_wf roots p id : plan_wf roots p → plan_wf roots (mark_done p id).1.
Proof.
  intros Hp. destruct (decide (id ∈ plan_done p ∪ plan_skipped p)) as [Hid|Hid].
  { by rewrite mark_done_terminal. }
  destruct (mark_done_fresh p id Hid) as (He & Hs & Hdn & Hr & Hrd & Hnew).
  destruct (mark_done p id) as [p' newly]; simpl in *.
  destruct Hp as [Hac Hrdn Hrs Hds Hrun Hready].
  assert (∀ n, deps_satisfied p n → deps_satisfied p' n) as Hmono.
  { intros n Hn d Hd. rewrite Hdn, Hs. rewrite He in Hd. specialize (Hn d Hd). set_solver. }
  split; rewrite ?He, ?Hs, ?Hdn, ?Hr; [done|set_solver..| |].
  - intros n [Hin _]%elem_of_difference. destruct (Hrun n Hin). auto.
  - intros n. rewrite Hrd, elem_of_union, elem_of_list_to_set, Hnew, Hs, Hdn, Hr.
    rewrite elem_of_difference, elem_of_singleton, Hready. split.
    + intros [((? & ? & ?) & ?)|(Hedge & ? & ? & ?)].
      * split_and!; [done|set_solver|auto].
      * split_and!; [apply elem_of_union_r; eauto with graph|set_solver|done].
    + intros (Hu & Hn & Hsat). assert (n ≠ id) by set_solver.
      destruct (decide (n ∈ plan_ready p)) as [Hin|Hin];
        [left; rewrite Hready in Hin; done|].
      right. clear Hrdn Hrs Hds Hrun Hmono. split_and!;
        [|clear -Hn; set_solver|rewrite <- Hready; clear -Hin; set_solver|done].
      apply dec_stable. intros Hne. apply Hin, Hready. split_and!; [done|set_solver|].
      intros d Hd. specialize (Hsat d). rewrite He, Hdn, Hs in Hsat.
      destruct (decide (d = id)) as [->|]; [done|]. set_solver.
Qed.

Lemma plan_exec_wf roots p op : plan_wf roots p → plan_wf roots (plan_exec p op).
Proof.
  destruct op; simpl; auto using mark_running_wf, mark_ready_wf, mark_done_wf.
Qed.

Lemma plan_exec_all_wf roots p ops : plan_wf roots p → plan_wf roots (plan_exec_all p ops).
Proof.
  unfold plan_exec_all. revert p. induction ops as [|op ops IH]; intros p Hp; simpl; [done|].
  by apply IH, plan_exec_wf.
Qed.

Lemma plan_exec_edges p op :
  plan_edges (plan_exec p op) = plan_edges p ∧ plan_skipped (plan_exec p op) = plan_skipped p.
Proof.
  destruct op as [id|id|id]; simpl; unfold mark_running, mark_ready, mark_done;
    by case_decide.
Qed.
End PlanInv.

(** ** Properties of reachable plans *)

Section PlanTheorems.
Context {N : Type} `{OrdId N} `{!HashOrder N}.
Implicit Types (p : plan N) (n d id : N) (roots skip : gset N) (l : list N).

(** C22. Every plan a runtime can reach, by any sequence of transitions on
    any identifiers, satisfies the loop invariant: the four sets are
    disjoint, running nodes have their dependencies satisfied, and the
    ready set is exactly the untouched nodes whose dependencies are all in
    [done ∪ skipped]. *)
Theorem plan_reachable_wf edges skip roots p ops :
  new_with_roots edges skip roots = Ok p → plan_wf roots (plan_exec_all p ops).
Proof. intros ?%new_with_roots_wf. by apply plan_exec_all_wf. Qed.

Lemma plan_exec_all_edges p ops :
  plan_edges (plan_exec_all p ops) = plan_edges p ∧
  plan_skipped (plan_exec_all p ops) = plan_skipped p.
Proof.
  revert p. induction ops as [|op ops IH]; intros p; simpl; [done|].
  destruct (IH (plan_exec p op)) as [-> ->]. apply plan_exec_edges.
Qed.

Lemma new_with_roots_fields edges skip roots p :
  new_with_roots edges skip roots = Ok p →
  plan_edges p = edges ∧ plan_skipped p = skip ∧ plan_running p = ∅ ∧ plan_done p = ∅.
Proof. unfold new_with_roots. destruct (toposort edges); [|done]. by intros [= <-]. Qed.

(** C23. The incremental frontier of the reducer is the frontier computed
    from scratch: at any reachable plan without extra roots, [ready()]
    lists [ready_frontier] of the completed set minus what is running. *)
Theorem plan_ready_is_frontier edges skip p0 ops :
  plan_new edges skip = Ok p0 →
  let p := plan_exec_all p0 ops in
  btree_iter (plan_ready p) =
    filter (λ n, n ∉ plan_running p) (ready_frontier edges (plan_done p ∪ skip)).
Proof.
  intros Hp0 p. destruct (plan_exec_all_edges p0 ops) as [He Hs].
  destruct (new_with_roots_fields _ _ _ _ Hp0) as (He0 & Hs0 & _).
  assert (plan_wf ∅ p) as Hp by (by eapply plan_exec_all_wf, new_with_roots_wf).
  fold p in He, Hs. rewrite He0 in He. rewrite Hs0 in Hs.
  destruct (ready_frontier_sorted edges (plan_done p ∪ skip)) as [Hsort Hnd].
  apply (StronglySorted_unique ord_le).
  - apply sort_ids_sorted.
  - by apply StronglySorted_filter.
  - apply NoDup_Permutation; [apply btree_iter_NoDup|by apply NoDup_filter|].
    intros n. rewrite elem_of_btree_iter, list_elem_of_filter, elem_of_ready_frontier.
    rewrite (pw_ready _ _ Hp). unfold deps_satisfied. rewrite He, Hs.
    rewrite !elem_of_union. set_solver.
Qed.

Lemma wf_drained_complete roots p :
  plan_wf roots p → plan_ready p = ∅ → plan_running p = ∅ →
  ∀ n, n ∈ roots ∪ nodes_of (plan_edges p) → n ∈ plan_done p ∪ plan_skipped p.
Proof.
  intros Hp Hready Hrun n Hn. apply dec_stable. intros Hnd.
  destruct (predecessors_cycle (edge_rel (plan_edges p))
    ((roots ∪ nodes_of (plan_edges p)) ∖ (plan_done p ∪ plan_skipped p)) n)
    as (c & Hc & _); [|set_solver|by destruct (pw_acyclic _ _ Hp c)].
  intros m [Hm Hmd]%elem_of_difference.
  destruct (decide (Exists (λ e, e.2 = m ∧ e.1 ∉ plan_done p ∪ plan_skipped p) (plan_edges p)))
    as [Hex|Hex].
  - apply Exists_exists in Hex as ([d m'] & He & [<- Hd]). exists d.
    split; [|done]. apply elem_of_difference. split; [|done].
    apply elem_of_union_r. eauto with graph.
  - exfalso. assert (m ∈ plan_ready p) as Hin; [|rewrite Hready in Hin; set_solver].
    apply (pw_ready _ _ Hp). split_and!; [done|rewrite Hrun; set_solver|].
    intros d Hd. apply dec_stable. intros ?. apply Hex, Exists_exists. by exists (d, m).
Qed.

Lemma is_drained_true p : is_drained p ↔ plan_ready p = ∅ ∧ plan_running p = ∅.
Proof. unfold is_drained. by rewrite andb_True, !bool_decide_spec. Qed.

(** No deadlock: a reachable plan that is drained has finished, every
    node of the graph and every root is done or was skipped. *)
Theorem plan_drained_complete edges skip roots p0 ops n :
  new_with_roots edges skip roots = Ok p0 →
  let p := plan_exec_all p0 ops in
  is_drained p → n ∈ roots ∪ nodes_of edges → n ∈ plan_done p ∪ skip.
Proof.
  intros Hp0 p [Hr Hrun]%is_drained_true Hn.
  destruct (plan_exec_all_edges p0 ops) as [He Hs].
  destruct (new_with_roots_fields _ _ _ _ Hp0) as (He0 & Hs0 & _).
  rewrite <- Hs0, <- Hs. apply (wf_drained_complete roots); [|done..|].
  - by eapply plan_exec_all_wf, new_with_roots_wf.
  - by rewrite He, He0.
Qed.

(** [mark_done] returns, sorted and without repetition, exactly the
    nodes it adds to the ready set, and repeating it changes nothing and
    returns nothing. *)
Theorem mark_done_newly_ready roots p id :
  plan_wf roots p →
  let '(p', newly) := mark_done p id in
  StronglySorted ord_le newly ∧ NoDup newly ∧
  (∀ n, n ∈ newly ↔ n ∈ plan_ready p' ∧ n ∉ plan_ready p) ∧
  mark_done p' id = (p', []).
Proof.
  intros Hp. destruct (decide (id ∈ plan_done p ∪ plan_skipped p)) as [Hid|Hid].
  { rewrite mark_done_terminal by done. split_and!; [constructor..|set_solver|].
    by apply mark_done_terminal. }
  destruct (mark_done_fresh p id Hid) as (He & Hs & Hdn & Hr & Hrd & Hnew).
  assert (StronglySorted ord_le (mark_done p id).2 ∧ NoDup (mark_done p id).2) as [? ?].
  { unfold mark_done. rewrite elem_of_union in Hid. rewrite decide_False by done. simpl.
    split; [apply sort_ids_sorted|]. apply sort_ids_NoDup, NoDup_filter, btree_iter_NoDup. }
  destruct (mark_done p id) as [p' newly]; simpl in *. split_and!; [done..| |].
  - intros n. rewrite Hrd, elem_of_union, elem_of_list_to_set. split.
    + intros Hn. split; [by right|]. apply Hnew in Hn as (_ & Hn1 & Hn2 & _).
      clear -Hn1 Hn2 Hdn. set_solver.
    + intros [[?|?] ?]; set_solver.
  - apply mark_done_terminal. rewrite Hdn. set_solver.
Qed.

(** A sequential executor: start the first ready node, finish it, repeat.
    The log is the order of execution. *)
Fixpoint drive (fuel : nat) p : list N * plan N :=
  match fuel with
  | 0 => ([], p)
  | S fuel =>
      match btree_iter (plan_ready p) with
      | [] => ([], p)
      | n :: _ =>
          let '(log, p') := drive fuel (mark_done (mark_running p n) n).1 in
          (n :: log, p')
      end
  end.

(** The nodes still to be executed. *)
Definition remaining roots p : gset N :=
  (roots ∪ nodes_of (plan_edges p)) ∖ (plan_done p ∪ plan_skipped p).

Lemma run_to_done roots p n :
  plan_wf roots p → plan_running p = ∅ → n ∈ plan_ready p →
  let p' := (mark_done (mark_running p n) n).1 in
  plan_wf roots p' ∧ plan_running p' = ∅ ∧ plan_edges p' = plan_edges p ∧
  plan_skipped p' = plan_skipped p ∧ plan_done p' = {[n]} ∪ plan_done p ∧
  size (remaining roots p') < size (remaining roots p).
Proof.
  intros Hp Hrun Hn p'. pose proof (mark_running_wf _ _ n Hp) as Hp1.
  pose proof (mark_done_wf _ _ n Hp1) as Hp2. fold p' in Hp2.
  destruct (proj1 (pw_ready _ _ Hp n) Hn) as (Hu & Hnot & _).
  assert (n ∉ plan_done (mark_running p n) ∪ plan_skipped (mark_running p n)) as Hfresh.
  { unfold mark_running. rewrite decide_True by done. set_solver. }
  destruct (mark_done_fresh _ _ Hfresh) as (He & Hs & Hdn & Hr & _). fold p' in He, Hs, Hdn, Hr.
  destruct (plan_exec_edges p (OpRunning n)) as [He' Hs']. simpl in He', Hs'.
  assert (plan_done (mark_running p n) = plan_done p) as Hdn' by
    (unfold mark_running; by rewrite decide_True).
  assert (plan_running (mark_running p n) = {[n]}) as Hrun'.
  { unfold mark_running. rewrite decide_True by done. simpl. rewrite Hrun. set_solver. }
  rewrite Hdn' in Hdn. rewrite Hrun' in Hr. rewrite He' in He. rewrite Hs' in Hs.
  split_and!; [done|rewrite Hr; set_solver|done..|].
  apply subset_size. unfold remaining. rewrite He, Hs, Hdn.
  clear -Hnot Hu. split; [set_solver|]. intros Hsub.
  assert (n ∈ (roots ∪ nodes_of (plan_edges p)) ∖ (plan_done p ∪ plan_skipped p)) as Hn
    by set_solver.
  apply Hsub in Hn. set_solver.
Qed.

Lemma drive_spec fuel roots p :
  plan_wf roots p → plan_running p = ∅ → size (remaining roots p) ≤ fuel →
  let '(log, p') := drive fuel p in
  plan_wf roots p' ∧ is_drained p' ∧ plan_edges p' = plan_edges p ∧
  plan_skipped p' = plan_skipped p ∧
  plan_done p' = plan_done p ∪ list_to_set log ∧ NoDup log ∧
  (∀ n, n ∈ log → n ∈ remaining roots p) ∧
  (∀ l1 n l2 d, log = l1 ++ n :: l2 → (d, n) ∈ plan_edges p →
     d ∈ plan_done p ∪ plan_skipped p ∪ list_to_set l1).
Proof.
  revert p. induction fuel as [|fuel IH]; intros p Hp Hrun Hsize; simpl.
  - assert (plan_ready p = ∅) as Hready.
    { apply set_eq. intros n. rewrite (pw_ready _ _ Hp).
      assert (remaining roots p ≡ ∅) as Hrem by (apply size_empty_iff; lia).
      unfold remaining in Hrem. clear -Hrem. set_solver. }
    split_and!; [done|by apply is_drained_true|done|done|set_solver|constructor|set_solver|].
    by intros [|??] ????.
  - destruct (btree_iter (plan_ready p)) as [|n ns] eqn:Hbt.
    { split_and!; [done| |done|done|set_solver|constructor|set_solver|].
      - apply is_drained_true. split; [|done]. apply set_eq. intros n.
        rewrite <- elem_of_btree_iter, Hbt. set_solver.
      - by intros [|??] ????. }
    assert (n ∈ plan_ready p) as Hn by (apply elem_of_btree_iter; rewrite Hbt; set_solver).
    destruct (proj1 (pw_ready _ _ Hp n) Hn) as (Hu & Hnot & Hsat).
    destruct (run_to_done roots p n Hp Hrun Hn) as (Hp' & Hrun' & He & Hs & Hdn & Hlt).
    specialize (IH _ Hp' Hrun' ltac:(lia)).
    destruct (drive fuel _) as [log p']. rewrite He, Hs, Hdn in IH.
    destruct IH as (? & ? & ? & ? & Hdone & Hnd & Hfresh & Horder).
    split_and!; [done..|rewrite Hdone; clear; set_solver| | |].
    + constructor; [|done]. intros Hin%Hfresh. unfold remaining in Hin.
      rewrite Hdn in Hin. clear -Hin. set_solver.
    + intros m [->|Hm]%elem_of_cons.
      * unfold remaining. clear -Hnot Hu. set_solver.
      * apply Hfresh in Hm. unfold remaining in *. rewrite He, Hs, Hdn in Hm.
        clear -Hm. set_solver.
    + intros [|n' l1] m l2 d Heq Hd; simplify_list_eq.
      * specialize (Hsat d Hd). clear -Hsat. set_solver.
      * specialize (Horder l1 m l2 d eq_refl Hd). clear -Horder. set_solver.
Qed.

(** Liveness of the reducer: starting each ready node and finishing it,
    a plan over [k] nodes is drained within [k] rounds; the execution log
    has no repetition, runs exactly the nodes that were not skipped, and
    runs every node after all its unskipped dependencies. *)
Theorem plan_drive_complete edges skip roots p0 :
  new_with_roots edges skip roots = Ok p0 →
  let '(log, p') := drive (size (roots ∪ nodes_of edges)) p0 in
  is_drained p' ∧ NoDup log ∧
  (∀ n, n ∈ log ↔ (n ∈ roots ∪ nodes_of edges) ∧ (n ∉ skip)) ∧
  (∀ l1 n l2 d, log = l1 ++ n :: l2 → (d, n) ∈ edges → d ∈ skip ∨ d ∈ l1).
Proof.
  intros Hp0. pose proof (new_with_roots_wf _ _ _ _ Hp0) as Hp.
  destruct (new_with_roots_fields _ _ _ _ Hp0) as (He & Hs & Hrun & Hdn).
  assert (size (remaining roots p0) ≤ size (roots ∪ nodes_of edges)) as Hle.
  { apply subseteq_size. unfold remaining. rewrite He. set_solver. }
  pose proof (drive_spec _ roots p0 Hp Hrun Hle) as Hdr.
  destruct (drive _ p0) as [log p'].
  destruct Hdr as (Hp' & Hdrained & He' & Hs' & Hdone & Hnd & Hlog & Horder).
  rewrite He, Hs, Hdn in *.
  split_and!; [done..| |].
  - intros n. destruct (proj1 (is_drained_true p') Hdrained) as [Hr0 Hrun0].
    pose proof (wf_drained_complete roots p' Hp' Hr0 Hrun0 n) as Hall.
    rewrite He', Hs', Hdone in Hall. split.
    + intros Hn%Hlog. unfold remaining in Hn. rewrite He, Hs, Hdn in Hn. set_solver.
    + intros [Hu Hns]. specialize (Hall Hu). set_solver.
  - intros l1 n l2 d Heq Hd. specialize (Horder l1 n l2 d Heq Hd).
    set_solver.
Qed.
End PlanTheorems.

(** ** The theorems at concrete plans *)

#[local] Existing Instance plain_order.

(** A diamond [0 → 1, 0 → 2, 1 → 3, 2 → 3] with an extra root [7]. *)
Definition diamond : list (nat * nat) := [(0, 1); (0, 2); (1, 3); (2, 3)].

Definition diamond_plan : plan nat :=
  {| plan_edges := diamond; plan_ready := {[0; 7]}; plan_running := ∅;
     plan_done := ∅; plan_skipped := ∅ |}.

Definition diamond_new : plan nat :=
  {| plan_edges := diamond; plan_ready := {[2]}; plan_running := ∅;
     plan_done := ∅; plan_skipped := {[0; 1]} |}.

Lemma plan_reachable_wf_witness :
  plan_wf {[7]} (plan_exec_all diamond_plan [OpRunning 0; OpDone 0; OpReady 2; OpRunning 1]).
Proof.
  apply (plan_reachable_wf diamond ∅). by vm_compute.
Defined.

Lemma plan_ready_is_frontier_witness :
  let p := plan_exec_all diamond_new [OpRunning 2; OpDone 2; OpRunning 3] in
  btree_iter (plan_ready p) =
    filter (λ n, n ∉ plan_running p) (ready_frontier diamond (plan_done p ∪ {[0; 1]})).
Proof.
  apply (plan_ready_is_frontier diamond {[0; 1]} diamond_new
    [OpRunning 2; OpDone 2; OpRunning 3]). by vm_compute.
Defined.

Lemma plan_drained_complete_witness :
  3 ∈ plan_done (plan_exec_all diamond_new [OpRunning 2; OpDone 2; OpRunning 3; OpDone 3])
      ∪ {[0; 1]}.
Proof.
  apply (plan_drained_complete diamond {[0; 1]} ∅ diamond_new
    [OpRunning 2; OpDone 2; OpRunning 3; OpDone 3] 3).
  - by vm_compute.
  - by vm_compute.
  - apply (bool_decide_unpack (3 ∈ ∅ ∪ nodes_of diamond)). by vm_compute.
Defined.

Lemma mark_done_newly_ready_witness :
  mark_done diamond_plan 0 = ((mark_done diamond_plan 0).1, [1; 2]) ∧
  mark_done (mark_done diamond_plan 0).1 0 = ((mark_done diamond_plan 0).1, []).
Proof.
  split; [by vm_compute|].
  assert (plan_wf {[7]} diamond_plan) as Hwf
    by (apply (new_with_roots_wf diamond ∅); by vm_compute).
  exact (proj2 (proj2 (proj2 (mark_done_newly_ready {[7]} diamond_plan 0 Hwf)))).
Defined.

Lemma plan_drive_complete_witness :
  (drive 5 diamond_plan).1 = [0; 1; 2; 3; 7] ∧ is_drained (drive 5 diamond_plan).2.
Proof.
  split; [by vm_compute|].
  assert (new_with_roots diamond ∅ {[7]} = Ok diamond_plan) as Hnew by (by vm_compute).
  exact (proj1 (plan_drive_complete diamond ∅ {[7]} diamond_plan Hnew)).
Defined.
