(* ===== verification/Affinity.v ===== *)
(** Model-affinity batching of [crates/cosmon-graph/src/affinity.rs]:
    [affinity_order] clusters a frontier by the model each molecule is bound
    to, [model_switch_count] measures how often the resident model changes. *)
From S2P Require Import Prelude.
From stdpp Require Import prelude gmap list sorting fin_maps.

Section Affinity.
Context {N M : Type} `{EqDecision N} `{OrdId M}.
Context (model_of : N → option M).

(** The loop that fills the [BTreeMap] [named] and the vector [unbound]. *)
Definition bucket_step (acc : gmap M (list N) * list N) (node : N) :
    gmap M (list N) * list N :=
  let '(named, unbound) := acc in
  match model_of node with
  | Some model => (push_entry named model node, unbound)
  | None => (named, unbound ++ [node])
  end.

Definition buckets (frontier : list N) : gmap M (list N) * list N :=
  foldl bucket_step (∅, []) frontier.

(** The values of a [BTreeMap] in ascending order of its keys. *)
Definition btree_values (named : gmap M (list N)) : list (list N) :=
  omap (λ k, named !! k) (btree_iter (dom named)).

Definition affinity_order (frontier : list N) (resident : option M) : list N :=
  let '(named, unbound) := buckets frontier in
  let '(ordered, named) :=
    match resident with
    | Some res =>
        match named !! res with
        | Some bucket => (bucket, delete res named)
        | None => ([], named)
        end
    | None => ([], named)
    end in
  ordered ++ concat (btree_values named) ++ unbound.

Definition switch_step (acc : option M * nat) (node : N) : option M * nat :=
  let '(current, switches) := acc in
  match model_of node with
  | Some model =>
      if decide (current = Some model) then (current, switches)
      else (Some model, S switches)
  | None => (current, switches)
  end.

Definition model_switch_count (order : list N) (resident : option M) : nat :=
  (foldl switch_step (resident, 0) order).2.

(** ** What the loops compute *)

(** The bucket of a model, and the molecules bound to no model. *)
Definition bound_to (m : M) (l : list N) : list N := filter (λ n, model_of n = Some m) l.
Definition unbound (l : list N) : list N := filter (λ n, model_of n = None) l.

(** The models of a list of molecules. *)
Definition models (l : list N) : gset M := list_to_set (omap model_of l).

Lemma elem_of_models m l : m ∈ models l ↔ ∃ n, n ∈ l ∧ model_of n = Some m.
Proof. unfold models. by rewrite elem_of_list_to_set, list_elem_of_omap. Qed.

Lemma buckets_spec l :
  (∀ m, (buckets l).1 !! m = match bound_to m l with [] => None | b => Some b end) ∧
  (buckets l).2 = unbound l.
Proof.
  unfold buckets. induction l as [|n l [IH1 IH2]] using rev_ind.
  { split; [|done]. intros m. apply lookup_empty. }
  rewrite foldl_app; simpl. destruct (foldl bucket_step _ l) as [named unb]; simpl in *.
  unfold bound_to, unbound in *. split; [intros m|]; rewrite filter_app, filter_cons; simpl.
  - destruct (model_of n) as [m'|]; simpl; [|by rewrite app_nil_r].
    unfold push_entry. destruct (decide (m = m')) as [->|Hne].
    + rewrite decide_True, lookup_insert_eq, IH1 by done.
      by destruct (filter (λ n0, model_of n0 = Some m') l).
    + rewrite decide_False, lookup_insert_ne, app_nil_r by congruence. apply IH1.
  - destruct (model_of n); simpl; [by rewrite app_nil_r|by rewrite IH2].
Qed.

Lemma bound_to_nil m l : bound_to m l = [] ↔ m ∉ models l.
Proof.
  rewrite elem_of_models. unfold bound_to. split.
  - intros Hnil (n & Hn & Hm).
    assert (n ∈ filter (λ n, model_of n = Some m) l) as Hin by by apply list_elem_of_filter.
    rewrite Hnil in Hin. set_solver.
  - intros Hno. destruct (filter _ l) as [|n l'] eqn:Hf; [done|]. exfalso. apply Hno.
    assert (n ∈ filter (λ n, model_of n = Some m) l) as [? ?]%list_elem_of_filter
      by (rewrite Hf; set_solver). eauto.
Qed.

(** The buckets before the molecules without a model: the resident's
    first, the others by ascending key. *)
Definition keys_of (l : list N) (resident : option M) : list M :=
  match resident with
  | Some res => if decide (res ∈ models l) then [res] else []
  | None => []
  end ++ btree_iter (models l ∖ from_option (λ m, {[m]}) ∅ resident).

Lemma concat_values_ext (named : gmap M (list N)) (f : M → list N) :
  (∀ k b, named !! k = Some b → b = f k) →
  concat (btree_values named) = concat (map f (btree_iter (dom named))).
Proof.
  intros Hf. unfold btree_values.
  assert (∀ k, k ∈ btree_iter (dom named) → is_Some (named !! k)) as Hdom
    by (intros k Hk; by apply elem_of_dom, elem_of_btree_iter).
  induction (btree_iter (dom named)) as [|k ks IH]; [done|].
  destruct (Hdom k ltac:(set_solver)) as [b Hb]. csimpl. rewrite Hb. csimpl.
  rewrite <- (Hf k b Hb), <- IH; [done|]. intros; apply Hdom; set_solver.
Qed.

Lemma buckets_dom l : dom (buckets l).1 = models l.
Proof.
  apply set_eq. intros m. rewrite elem_of_dom, (proj1 (buckets_spec l)).
  destruct (bound_to m l) as [|n b] eqn:Hb.
  - apply bound_to_nil in Hb. split; [by intros [? ?]|done].
  - split; [intros _|done]. apply dec_stable. intros Hno%bound_to_nil. congruence.
Qed.

Lemma affinity_order_eq l resident :
  affinity_order l resident = concat (map (λ m, bound_to m l) (keys_of l resident)) ++ unbound l.
Proof.
  unfold affinity_order, keys_of. destruct (buckets_spec l) as [Hnamed Hunb].
  pose proof (buckets_dom l) as Hdom. destruct (buckets l) as [named unb]; simpl in *.
  assert (∀ k b, named !! k = Some b → b = bound_to k l) as Hval.
  { intros k b. rewrite Hnamed. by destruct (bound_to k l); intros [= <-]. }
  rewrite map_app, concat_app, Hunb. destruct resident as [res|]; simpl.
  - destruct (named !! res) as [b|] eqn:Hres.
    + rewrite decide_True by (rewrite <- Hdom, elem_of_dom; eauto). simpl.
      rewrite app_nil_r, (Hval _ _ Hres), <- app_assoc. do 2 f_equal.
      rewrite (concat_values_ext (delete res named) (λ m, bound_to m l)).
      * by rewrite dom_delete_L, Hdom.
      * intros k b' [_ ?]%lookup_delete_Some. auto.
    + assert (res ∉ models l) as Hno by (by rewrite <- Hdom, not_elem_of_dom).
      rewrite decide_False by done. simpl. f_equal.
      rewrite (concat_values_ext _ (λ m, bound_to m l)) by done.
      rewrite Hdom. do 3 f_equal. clear -Hno. apply set_eq. set_solver.
  - f_equal. rewrite (concat_values_ext _ (λ m, bound_to m l)) by done.
    rewrite Hdom. do 3 f_equal. clear. apply set_eq. set_solver.
Qed.

Lemma keys_of_NoDup l resident : NoDup (keys_of l resident).
Proof.
  unfold keys_of. apply NoDup_app. split_and!.
  - destruct resident; [case_decide|]; repeat constructor; set_solver.
  - intros m. rewrite elem_of_btree_iter.
    destruct resident; simpl; [case_decide|]; set_solver.
  - apply btree_iter_NoDup.
Qed.

Lemma elem_of_keys_of m l resident : m ∈ keys_of l resident ↔ m ∈ models l.
Proof.
  unfold keys_of. rewrite elem_of_app, elem_of_btree_iter.
  destruct resident as [res|]; simpl; [|set_solver].
  case_decide; [|set_solver]. destruct (decide (m = res)); set_solver.
Qed.

(** ** A hint, never a filter *)

Lemma concat_bound_perm ks l :
  NoDup ks → (∀ m, m ∈ models l → m ∈ ks) →
  concat (map (λ m, bound_to m l) ks) ++ unbound l ≡ₚ l.
Proof.
  intros Hnd. revert l. induction Hnd as [|k ks Hk Hnd IH]; intros l Hks; simpl.
  - unfold unbound. replace (filter _ l) with l; [done|].
    symmetry. apply list_filter_True, Forall_forall. intros n Hn.
    destruct (model_of n) as [m|] eqn:Hm; [|done].
    specialize (Hks m (proj2 (elem_of_models m l) (ex_intro _ n (conj Hn Hm)))). set_solver.
  - set (l' := filter (λ n, ¬ model_of n = Some k) l).
    assert (concat (map (λ m, bound_to m l) ks) = concat (map (λ m, bound_to m l') ks)) as ->.
    { f_equal. apply map_ext_in. intros m Hm%list_elem_of_In. unfold bound_to, l'.
      rewrite list_filter_filter. apply list_filter_iff. intros n. naive_solver. }
    assert (unbound l = unbound l') as ->.
    { unfold unbound, l'. rewrite list_filter_filter. apply list_filter_iff. naive_solver. }
    rewrite <- app_assoc, IH.
    + apply filter_app_complement.
    + intros m (n & [Hn Hin]%list_elem_of_filter & Hm)%elem_of_models.
      assert (m ∈ k :: ks) as [->|?]%elem_of_cons; [|done|done].
      apply Hks, elem_of_models. eauto.
Qed.

Lemma affinity_order_perm l resident : affinity_order l resident ≡ₚ l.
Proof.
  rewrite affinity_order_eq. apply concat_bound_perm; [apply keys_of_NoDup|].
  intros m. by rewrite elem_of_keys_of.
Qed.

(** ** Counting the switches *)

Lemma switch_acc l cur s :
  (foldl switch_step (cur, s) l).2 = s + model_switch_count l cur.
Proof.
  unfold model_switch_count. revert cur s.
  induction l as [|n l IH]; intros cur s; simpl; [lia|].
  destruct (model_of n) as [m|]; [|apply IH]. case_decide; [apply IH|].
  rewrite IH, (IH _ 1). lia.
Qed.

Lemma switch_count_cons n l cur :
  model_switch_count (n :: l) cur =
    match model_of n with
    | Some m =>
        if decide (cur = Some m) then model_switch_count l cur
        else S (model_switch_count l (Some m))
    | None => model_switch_count l cur
    end.
Proof.
  unfold model_switch_count at 1. simpl.
  destruct (model_of n) as [m|]; [|apply switch_acc].
  case_decide; apply switch_acc.
Qed.

(** The models other than the resident one: each must be loaded. *)
Definition to_load (l : list N) (cur : option M) : gset M :=
  models l ∖ from_option (λ m, {[m]}) ∅ cur.

Lemma switch_count_lower l cur : size (to_load l cur) ≤ model_switch_count l cur.
Proof.
  revert cur. induction l as [|n l IH]; intros cur.
  { replace (to_load [] cur) with (∅ : gset M) by (unfold to_load, models; set_solver).
    by rewrite size_empty. }
  rewrite switch_count_cons.
  assert (models (n :: l) = from_option (λ m, {[m]}) ∅ (model_of n) ∪ models l) as Hm.
  { unfold models. simpl. destruct (model_of n); simpl; set_solver. }
  unfold to_load in *. rewrite Hm. destruct (model_of n) as [m|]; simpl.
  - case_decide as Hcur; [subst cur; simpl|].
    + specialize (IH (Some m)). simpl in IH.
      replace (({[m]} ∪ models l) ∖ {[m]}) with (models l ∖ {[m]}) by set_solver. done.
    + specialize (IH (Some m)). simpl in IH.
      trans (size ({[m]} ∪ (models l ∖ {[m]}))).
      * apply subseteq_size. intros k [Hk _]%elem_of_difference.
        destruct (decide (k = m)); set_solver.
      * rewrite size_union by set_solver. rewrite size_singleton. lia.
  - by rewrite (left_id_L ∅ (∪)).
Qed.

(** Draining one bucket. *)
Lemma switch_count_bucket k b l cur :
  Forall (λ n, model_of n = Some k) b →
  ∃ c, (c = cur ∨ c = Some k) ∧
    model_switch_count (b ++ l) cur ≤
      (if decide (cur = Some k) then 0 else 1) + model_switch_count l c.
Proof.
  intros Hb. revert cur. induction Hb as [|n b Hn Hb IH]; intros cur; simpl.
  { exists cur. split; [by left|]. case_decide; lia. }
  rewrite switch_count_cons, Hn. destruct (decide (cur = Some k)) as [->|Hcur].
  - specialize (IH (Some k)). rewrite decide_True in IH by done. naive_solver.
  - destruct (IH (Some k)) as (c & Hc & Hle). rewrite decide_True in Hle by done.
    exists c. split; [naive_solver|]. lia.
Qed.

Lemma bound_to_forall m l : Forall (λ n, model_of n = Some m) (bound_to m l).
Proof. apply Forall_forall. by intros n [? ?]%list_elem_of_filter. Qed.

Lemma switch_count_unbound l cur : model_switch_count (unbound l) cur = 0.
Proof.
  assert (Forall (λ n, model_of n = None) (unbound l)) as Hun
    by (apply Forall_forall; by intros n [? ?]%list_elem_of_filter).
  induction Hun as [|n l' Hn Hl IH]; [done|]. by rewrite switch_count_cons, Hn.
Qed.

Lemma switch_count_buckets ks l cur :
  NoDup ks → (∀ k, k ∈ ks → cur ≠ Some k) →
  model_switch_count (concat (map (λ m, bound_to m l) ks) ++ unbound l) cur ≤ length ks.
Proof.
  intros Hnd. revert cur. induction Hnd as [|k ks Hk Hnd IH]; intros cur Hcur; simpl.
  { by rewrite switch_count_unbound. }
  rewrite <- app_assoc.
  destruct (switch_count_bucket k (bound_to k l)
    (concat (map (λ m, bound_to m l) ks) ++ unbound l) cur (bound_to_forall k l))
    as (c & Hc & Hle).
  rewrite decide_False in Hle by (apply Hcur; set_solver).
  assert (∀ k', k' ∈ ks → c ≠ Some k') as Hfresh; [|specialize (IH c Hfresh); lia].
  intros k' Hk' ->. destruct Hc as [<-|[= ->]]; [|done]. by apply (Hcur k'); [set_solver|].
Qed.

Lemma affinity_order_upper l resident :
  model_switch_count (affinity_order l resident) resident ≤ size (to_load l resident).
Proof.
  rewrite affinity_order_eq. unfold keys_of, to_load.
  set (X := models l ∖ from_option (λ m, {[m]}) ∅ resident).
  assert (length (btree_iter X) = size X) as HX
    by (unfold btree_iter; by rewrite length_sort_ids).
  assert (∀ k, k ∈ btree_iter X → resident ≠ Some k) as Hres.
  { intros k Hk ->. apply elem_of_btree_iter in Hk. unfold X in Hk. set_solver. }
  pose proof (switch_count_buckets _ l resident (btree_iter_NoDup X) Hres) as Hle.
  rewrite map_app, concat_app, <- app_assoc, <- HX. destruct resident as [res|]; simpl; [|done].
  case_decide; simpl; [|done]. rewrite app_nil_r.
  destruct (switch_count_bucket res (bound_to res l) (concat (map (λ m, bound_to m l)
    (btree_iter X)) ++ unbound l) (Some res) (bound_to_forall res l)) as (c & Hc & Hle').
  rewrite decide_True in Hle' by done. destruct Hc as [->| ->]; lia.
Qed.

Lemma models_proper l l' : l ≡ₚ l' → models l = models l'.
Proof.
  intros Hl. apply set_eq. intros m. rewrite !elem_of_models. by setoid_rewrite Hl.
Qed.

Lemma affinity_order_saves l resident order :
  order ≡ₚ l →
  model_switch_count (affinity_order l resident) resident ≤ model_switch_count order resident.
Proof.
  intros Ho. etrans; [apply affinity_order_upper|]. etrans; [|apply switch_count_lower].
  unfold to_load. rewrite (models_proper _ _ Ho). done.
Qed.

(** The ordering contract of [affinity_order]. It is a hint, never a
    filter: the result is a permutation of the frontier. It is the
    concatenation of one stable bucket per model, the resident's first if
    it is present and the others by strictly ascending key, followed by
    the molecules bound to no model, in their original order. *)
Theorem affinity_order_contract frontier resident :
  affinity_order frontier resident ≡ₚ frontier ∧
  ∃ first rest,
    affinity_order frontier resident =
      concat (map (λ m, filter (λ n, model_of n = Some m) frontier) (first ++ rest)) ++
      filter (λ n, model_of n = None) frontier ∧
    (∀ m, m ∈ first ↔ resident = Some m ∧ m ∈ models frontier) ∧
    (∀ m, m ∈ first ++ rest ↔ m ∈ models frontier) ∧
    NoDup (first ++ rest) ∧ StronglySorted ord_le rest.
Proof.
  split; [apply affinity_order_perm|]. rewrite affinity_order_eq.
  pose proof (λ m, elem_of_keys_of m frontier resident) as Hin.
  pose proof (keys_of_NoDup frontier resident) as Hnd. unfold keys_of in *.
  eexists _, _. split_and!; [reflexivity| |exact Hin|exact Hnd|apply sort_ids_sorted].
  intros m. destruct resident as [res|]; [case_decide|]; set_solver.
Qed.

(** No order of the same molecules reloads the model less often than
    [affinity_order]: its switch count is the number of distinct models of
    the frontier other than the resident one, a lower bound for every
    permutation of the frontier. *)
Theorem affinity_order_optimal frontier resident :
  model_switch_count (affinity_order frontier resident) resident =
    size (models frontier ∖ from_option (λ m, {[m]}) ∅ resident) ∧
  ∀ order, order ≡ₚ frontier →
    model_switch_count (affinity_order frontier resident) resident ≤
      model_switch_count order resident.
Proof.
  pose proof (affinity_order_perm frontier resident) as Hperm.
  split; [|apply affinity_order_saves].
  pose proof (affinity_order_upper frontier resident) as Hup.
  pose proof (switch_count_lower (affinity_order frontier resident) resident) as Hlow.
  unfold to_load in *. rewrite (models_proper _ _ Hperm) in Hlow. lia.
Qed.
End Affinity.

(** Two models alternating in the frontier, the second one resident. *)
Definition parity_model (n : nat) : option nat :=
  if decide (n = 9) then None else Some (n mod 2).

Lemma affinity_order_optimal_witness :
  affinity_order parity_model [1; 2; 9; 3; 4] (Some 1) = [1; 3; 2; 4; 9] ∧
  model_switch_count parity_model (affinity_order parity_model [1; 2; 9; 3; 4] (Some 1)) (Some 1)
    ≤ model_switch_count parity_model [4; 3; 2; 1; 9] (Some 1).
Proof.
  split; [by vm_compute|].
  apply (proj2 (affinity_order_optimal parity_model [1; 2; 9; 3; 4] (Some 1))).
  apply (bool_decide_unpack ([4; 3; 2; 1; 9] ≡ₚ [1; 2; 9; 3; 4])). by vm_compute.
Defined.
