(* ===== verification/CriticalPath.v ===== *)
(** Longest-path analysis of [crates/cosmon-graph/src/critical_path.rs]: the
    forward dynamic program over the topological order, the choice of the
    sink and the reconstruction along the parent pointers. Scores are [u64]:
    every addition wraps, and the theorem says when none does. *)
From S2P Require Import Prelude Graph.
From stdpp Require Import prelude gmap list sorting fin_maps.

Section CriticalPath.
Context {N : Type} `{OrdId N}.
Implicit Types (edges : list (N * N)) (n u v : N) (p q t : list N).

(** [x + y] on [u64]. *)
Definition add_u64 (x y : Z) : Z := ((x + y) mod 2 ^ 64)%Z.

Definition dp_get (dp : gmap N Z) (n : N) : Z := default 0%Z (dp !! n).

(** One predecessor in the inner loop. *)
Definition best_step (dp : gmap N Z) (w : Z) (best : Z * option N) (pred : N) :
    Z * option N :=
  let '(best_score, best_parent) := best in
  let candidate := add_u64 (dp_get dp pred) w in
  if decide (best_score < candidate)%Z then (candidate, Some pred)
  else if decide (candidate = best_score) then
    match best_parent with
    | Some cur =>
        if decide (pred ≼ cur ∧ pred ≠ cur) then (best_score, Some pred)
        else (best_score, best_parent)
    | None => (best_score, best_parent)
    end
  else (best_score, best_parent).

(** One node in the outer loop: the tables [dp] and [parent]. *)
Definition dp_step (weight : N → Z) (preds_of : gmap N (list N))
    (tables : gmap N Z * gmap N (option N)) (node : N) :
    gmap N Z * gmap N (option N) :=
  let '(dp, parent) := tables in
  let w := weight node in
  let '(best_score, best_parent) :=
    match preds_of !! node with
    | Some preds => foldl (best_step dp w) (w, None) preds
    | None => (w, None)
    end in
  (<[node := best_score]> dp, <[node := best_parent]> parent).

(** [a] compares [Greater] than [b] in the closure of [max_by]. *)
Definition better (dp : gmap N Z) (a b : N) : bool :=
  bool_decide (dp_get dp b < dp_get dp a)%Z ||
  (bool_decide (dp_get dp a = dp_get dp b) && bool_decide (a ≼ b ∧ a ≠ b)).

(** [Iterator::max_by]: the later element wins unless the earlier is greater. *)
Definition max_by (dp : gmap N Z) (order : list N) : option N :=
  match order with
  | [] => None
  | n :: rest => Some (foldl (λ best x, if better dp best x then best else x) n rest)
  end.

(** The loop that follows the parent pointers. *)
Fixpoint follow (fuel : nat) (parent : gmap N (option N)) (cursor : option N)
    (rev_path : list N) : list N :=
  match fuel, cursor with
  | S fuel, Some node => follow fuel parent (mjoin (parent !! node)) (rev_path ++ [node])
  | _, _ => rev_path
  end.

Definition critical_path_weighted `{!HashOrder N} edges (weight : N → Z) :
    result (topo_error N) (list N) :=
  match toposort edges with
  | Err e => Err e
  | Ok [] => Ok []
  | Ok order =>
      let preds_of := group_entries (map (λ '(dep, step), (step, dep)) edges) in
      let '(dp, parent) := foldl (dp_step weight preds_of) (∅, ∅) order in
      match max_by dp order with
      | None => Ok []
      | Some sink => Ok (reverse (follow (length order) parent (Some sink) []))
      end
  end.

Definition critical_path `{!HashOrder N} edges : result (topo_error N) (list N) :=
  critical_path_weighted edges (λ _, 1%Z).

(** ** Specification: weighted paths of the graph *)

Definition path_weight (weight : N → Z) p : Z := foldr (λ n acc, weight n + acc)%Z 0%Z p.

(** [path_to edges v p]: [p] is a path of the graph that ends at [v]. *)
Inductive path_to edges : N → list N → Prop :=
| path_single v : v ∈ nodes_of edges → path_to edges v [v]
| path_snoc u v p : path_to edges u p → (u, v) ∈ edges → path_to edges v (p ++ [v]).

(** [traced parent v p]: following the pointers from [v] visits [p]
    backwards. *)
Inductive traced (parent : gmap N (option N)) : N → list N → Prop :=
| traced_root v : parent !! v = Some None → traced parent v [v]
| traced_snoc u v p :
    parent !! v = Some (Some u) → traced parent u p → traced parent v (p ++ [v]).

Lemma path_weight_app weight p q :
  path_weight weight (p ++ q) = (path_weight weight p + path_weight weight q)%Z.
Proof. induction p; simpl; lia. Qed.

Lemma traced_insert parent n b v p :
  parent !! n = None → traced parent v p → traced (<[n := b]> parent) v p.
Proof.
  intros Hn. induction 1; [apply traced_root|eapply traced_snoc]; [|..|done];
    (rewrite lookup_insert_ne; [done|congruence]).
Qed.

Lemma follow_traced parent v p fuel acc :
  traced parent v p → length p ≤ fuel → follow fuel parent (Some v) acc = acc ++ reverse p.
Proof.
  intros Htr. revert fuel acc.
  induction Htr as [v Hv|u v p Hv Htr IH]; intros [|fuel] acc;
    rewrite ?length_app; simpl; intros Hf; try lia; rewrite Hv; simpl.
  - by destruct fuel.
  - rewrite IH by lia. by rewrite reverse_app, <- app_assoc.
Qed.

(** The inner loop maximises over the predecessors. *)
Lemma best_fold dp w preds :
  let '(score, par) := foldl (best_step dp w) (w, None) preds in
  (w ≤ score)%Z ∧ (∀ u, u ∈ preds → (add_u64 (dp_get dp u) w ≤ score)%Z) ∧
  match par with
  | None => score = w
  | Some u => u ∈ preds ∧ score = add_u64 (dp_get dp u) w
  end.
Proof.
  induction preds as [|u preds IH] using rev_ind; simpl; [set_solver by lia|].
  rewrite foldl_app; simpl. destruct (foldl _ _ preds) as [score par].
  destruct IH as (Hw & Hle & Hpar). unfold best_step.
  assert (∀ score', (score ≤ score')%Z → (add_u64 (dp_get dp u) w ≤ score')%Z →
    ∀ u', u' ∈ preds ++ [u] → (add_u64 (dp_get dp u') w ≤ score')%Z) as Hall.
  { intros score' ?? u' [Hu'|Hu']%elem_of_app.
    - specialize (Hle _ Hu'). lia.
    - apply list_elem_of_singleton in Hu' as ->. done. }
  case_decide; [split_and!; [lia|apply Hall; lia|set_solver|done]|].
  assert (match par with
    | None => score = w
    | Some u0 => u0 ∈ preds ++ [u] ∧ score = add_u64 (dp_get dp u0) w end) as Hpar'
    by (destruct par; [|done]; set_solver).
  case_decide; [|split_and!; [done|apply Hall; lia|done]].
  destruct par as [cur|]; [|split_and!; [done|apply Hall; lia|done]].
  destruct Hpar' as [? ?]. case_decide; split_and!; try (done || (apply Hall; lia)). set_solver.
Qed.

(** Weights fit in [u64], and so does the weight of all nodes together. *)
Definition weights_fit edges (weight : N → Z) : Prop :=
  (∀ n, (0 ≤ weight n)%Z) ∧ (path_weight weight (elements (nodes_of edges)) < 2 ^ 64)%Z.

Lemma path_weight_perm weight p q : p ≡ₚ q → path_weight weight p = path_weight weight q.
Proof. induction 1; simpl; lia. Qed.

Lemma path_weight_nonneg weight p : (∀ n, (0 ≤ weight n)%Z) → (0 ≤ path_weight weight p)%Z.
Proof. intros Hw. induction p as [|n p IH]; simpl; [lia|]. specialize (Hw n). lia. Qed.

(** The tables after the prefix [t] of a topological order: scores are the
    weights of traced paths and bound the weight of every path. *)
Record dp_inv edges weight t (dp : gmap N Z) (parent : gmap N (option N)) : Prop := {
  di_dom n : is_Some (parent !! n) ↔ n ∈ t;
  di_bound n : n ∈ t → (0 ≤ dp_get dp n ≤ path_weight weight t)%Z;
  di_traced n :
    n ∈ t → ∃ p, traced parent n p ∧ path_to edges n p ∧
      path_weight weight p = dp_get dp n ∧ length p ≤ length t;
  di_max n q : n ∈ t → path_to edges n q → (path_weight weight q ≤ dp_get dp n)%Z;
}.

Lemma path_to_inv edges v q :
  path_to edges v q →
  q = [v] ∨ ∃ u p, q = p ++ [v] ∧ path_to edges u p ∧ (u, v) ∈ edges.
Proof. destruct 1; eauto 10. Qed.

Lemma preds_lookup edges n :
  group_entries (map (λ '(dep, step), (step, dep)) edges) !! n =
    match (filter (λ e, e.2 = n) edges).*1 with [] => None | us => Some us end.
Proof.
  rewrite group_entries_lookup. unfold entries_at.
  assert ((filter (λ kv, kv.1 = n) (map (λ '(dep, step), (step, dep)) edges)).*2 =
          (filter (λ e, e.2 = n) edges).*1) as ->; [|done].
  induction edges as [|[a b] edges IH]; [done|]. rewrite filter_cons. simpl.
  rewrite filter_cons. simpl. case_decide; csimpl; by rewrite IH.
Qed.

Lemma elem_of_preds edges n u : u ∈ (filter (λ e, e.2 = n) edges).*1 ↔ (u, n) ∈ edges.
Proof.
  rewrite list_elem_of_fmap. setoid_rewrite list_elem_of_filter. split.
  - by intros ([a b] & -> & <- & Hin).
  - intros Hin. by exists (u, n).
Qed.

(** Scores of predecessors do not overflow when the weight of the node is
    added to them. *)
Lemma dp_step_inv edges weight t n dp parent :
  weights_fit edges weight → NoDup (t ++ [n]) →
  (∀ m, m ∈ t ++ [n] → m ∈ nodes_of edges) →
  (∀ u, (u, n) ∈ edges → u ∈ t) →
  dp_inv edges weight t dp parent →
  let '(dp', parent') := dp_step weight
    (group_entries (map (λ '(dep, step), (step, dep)) edges)) (dp, parent) n in
  dp_inv edges weight (t ++ [n]) dp' parent'.
Proof.
  intros [Hpos Hfit] Hnd Hnodes Hpreds [Hdom Hbound Htraced Hmax].
  assert (n ∉ t) as Hn by (apply NoDup_app in Hnd; set_solver).
  assert (parent !! n = None) as Hnone.
  { apply eq_None_not_Some. by rewrite Hdom. }
  assert (path_weight weight (t ++ [n]) < 2 ^ 64)%Z as Hlt.
  { eapply Z.le_lt_trans; [|exact Hfit].
    destruct (submseteq_Permutation (t ++ [n]) (elements (nodes_of edges))) as (k & Hk).
    { apply NoDup_submseteq; [done|]. intros m Hm. by apply elem_of_elements, Hnodes. }
    rewrite (path_weight_perm _ _ _ Hk), (path_weight_app _ (t ++ [n]) k).
    pose proof (path_weight_nonneg weight k Hpos). lia. }
  rewrite path_weight_app in Hlt. simpl in Hlt. pose proof (Hpos n) as Hposn.
  assert (∀ u, (u, n) ∈ edges → add_u64 (dp_get dp u) (weight n) =
      dp_get dp u + weight n)%Z as Hadd.
  { intros u Hu%Hpreds%Hbound. apply Z.mod_small. lia. }
  unfold dp_step. rewrite preds_lookup.
  pose proof (best_fold dp (weight n) (filter (λ e, e.2 = n) edges).*1) as Hbest.
  assert (match match (filter (λ e, e.2 = n) edges).*1 with [] => None | us => Some us end with
    | Some preds => foldl (best_step dp (weight n)) (weight n, None) preds
    | None => (weight n, None) end =
    foldl (best_step dp (weight n)) (weight n, None) (filter (λ e, e.2 = n) edges).*1) as ->
    by (by destruct ((filter (λ e, e.2 = n) edges).*1)).
  destruct (foldl _ _ _) as [score par]. destruct Hbest as (Hw & Hle & Hpar).
  setoid_rewrite elem_of_preds in Hle.
  assert (match par with None => score = weight n
    | Some u => (u, n) ∈ edges ∧ score = dp_get dp u + weight n end)%Z as Hscore.
  { destruct par as [u|]; [|done]. destruct Hpar as [Hu%elem_of_preds ->]. split; [done|].
    by apply Hadd. }
  assert (∀ m, m ∈ t → dp_get (<[n:=score]> dp) m = dp_get dp m) as Hold.
  { intros m Hm. unfold dp_get. rewrite lookup_insert_ne; [done|congruence]. }
  assert (dp_get (<[n:=score]> dp) n = score) as Hnew by
    (unfold dp_get; by rewrite lookup_insert_eq).
  split.
  - intros m. rewrite elem_of_app, list_elem_of_singleton, <- Hdom, lookup_insert_is_Some'.
    naive_solver.
  - intros m [Hm|Hm%list_elem_of_singleton]%elem_of_app; rewrite path_weight_app; simpl.
    + rewrite Hold by done. specialize (Hbound _ Hm). lia.
    + subst m. rewrite Hnew. pose proof (path_weight_nonneg weight t Hpos).
      destruct par as [u|]; [|lia]. destruct Hscore as [Hu ->].
      specialize (Hbound _ (Hpreds _ Hu)). lia.
  - intros m [Hm|Hm%list_elem_of_singleton]%elem_of_app; rewrite length_app; simpl.
    + rewrite Hold by done. destruct (Htraced _ Hm) as (p & ? & ? & ? & ?).
      exists p. split_and!; [by apply traced_insert|done|done|lia].
    + subst m. rewrite Hnew. destruct par as [u|].
      * destruct Hscore as [Hu ->]. destruct (Htraced _ (Hpreds _ Hu)) as (p & ? & ? & Hp & ?).
        exists (p ++ [n]). split_and!.
        -- eapply traced_snoc; [apply lookup_insert_eq|by apply traced_insert].
        -- by eapply path_snoc.
        -- rewrite path_weight_app, Hp. simpl. lia.
        -- rewrite length_app. simpl. lia.
      * exists [n]. split_and!; [apply traced_root, lookup_insert_eq
          |apply path_single, Hnodes; set_solver|simpl; lia|simpl; lia].
  - intros m q [Hm|Hm%list_elem_of_singleton]%elem_of_app Hq.
    + rewrite Hold by done. eauto.
    + subst m. rewrite Hnew.
      apply path_to_inv in Hq as [->|(u & p & -> & Hp & Hu)]; [simpl; lia|].
      rewrite path_weight_app. simpl. specialize (Hle u Hu). rewrite Hadd in Hle by done.
      specialize (Hmax u p (Hpreds _ Hu) Hp). lia.
Qed.

Lemma dp_tables_inv edges weight order :
  weights_fit edges weight → is_topo_order edges order →
  let '(dp, parent) := foldl (dp_step weight
    (group_entries (map (λ '(dep, step), (step, dep)) edges))) (∅, ∅) order in
  dp_inv edges weight order dp parent.
Proof.
  intros Hfit (Hnd & Hall & Htopo).
  assert (∀ t rest, order = t ++ rest → let '(dp, parent) := foldl (dp_step weight
    (group_entries (map (λ '(dep, step), (step, dep)) edges))) (∅, ∅) t in
    dp_inv edges weight t dp parent) as Hpre; [|by apply (Hpre order []); rewrite app_nil_r].
  induction t as [|n t IH] using rev_ind; intros rest Ho; simpl.
  { split; [|set_solver..]. intros n. rewrite lookup_empty. split; [by intros []|set_solver]. }
  rewrite foldl_app. simpl. rewrite <- app_assoc in Ho. specialize (IH _ Ho).
  destruct (foldl _ _ t) as [dp parent]. apply dp_step_inv; [done|..|done].
  - rewrite Ho, app_assoc in Hnd. by apply NoDup_app in Hnd as [? _].
  - intros m Hm. apply Hall. rewrite Ho. set_solver.
  - intros u Hu. by eapply Htopo.
Qed.

(** The sink: a maximal score, the smallest node among equals. *)
Lemma max_by_spec dp order sink :
  max_by dp order = Some sink →
  sink ∈ order ∧ ∀ v, v ∈ order →
    (dp_get dp v ≤ dp_get dp sink)%Z ∧ (dp_get dp v = dp_get dp sink → sink ≼ v).
Proof.
  destruct order as [|n rest]; [done|]. simpl. intros [= <-].
  induction rest as [|x rest IH] using rev_ind; simpl.
  { split; [set_solver|]. intros v ->%list_elem_of_singleton. by split. }
  rewrite foldl_app. simpl. set (b := foldl _ n rest) in *. clearbody b.
  destruct IH as [Hb Hmax]. unfold better.
  assert (∀ v, v ∈ n :: rest ++ [x] → v ∈ n :: rest ∨ v = x) as Hin by set_solver.
  destruct (bool_decide (dp_get dp x < dp_get dp b)%Z) eqn:Hlt; simpl.
  { apply bool_decide_eq_true in Hlt. split; [set_solver|].
    intros v [Hv|Hv]%Hin; [by apply Hmax|]. subst v. split; lia. }
  apply bool_decide_eq_false in Hlt.
  destruct (bool_decide (dp_get dp b = dp_get dp x)) eqn:Heq; simpl.
  - apply bool_decide_eq_true in Heq. case_bool_decide as Hle.
    + split; [set_solver|]. intros v [Hv|Hv]%Hin; [by apply Hmax|]. subst v.
      split; [lia|]. by intros _; destruct Hle.
    + assert (x ≼ b) as Hxb.
      { destruct (decide (x = b)) as [->|Hne]; [reflexivity|].
        destruct (total ord_le b x); [|done]. naive_solver. }
      split; [set_solver|]. intros v [Hv|Hv]%Hin; [|subst v; by split].
      destruct (Hmax v Hv) as [Hv1 Hv2]. split; [lia|]. intros He.
      trans b; [done|]. apply Hv2. lia.
  - apply bool_decide_eq_false in Heq. split; [set_solver|].
    intros v [Hv|Hv]%Hin; [|subst v; by split].
    destruct (Hmax v Hv) as [Hv1 _]. split; lia.
Qed.

(** On an acyclic graph with edges, [critical_path_weighted] answers a
    path of the graph of maximal weight, provided the weights of all nodes
    together fit in [u64]; among the ends of maximal paths it ends at the
    smallest identifier. *)
Theorem critical_path_maximal `{!HashOrder N} edges weight :
  acyclic edges → edges ≠ [] → weights_fit edges weight →
  ∃ sink path, critical_path_weighted edges weight = Ok path ∧ path_to edges sink path ∧
    ∀ v q, path_to edges v q →
      (path_weight weight q ≤ path_weight weight path)%Z ∧
      (path_weight weight q = path_weight weight path → sink ≼ v).
Proof.
  intros Hac Hne Hfit.
  destruct (toposort_cases edges) as [(order & Htopo & Horder)|(n & _ & c & Hc & _)];
    [|by destruct (Hac c)].
  unfold critical_path_weighted. rewrite Htopo.
  pose proof (dp_tables_inv edges weight order Hfit Horder) as Hinv.
  destruct Horder as (_ & Hall & _).
  destruct edges as [|[a b] edges']; [done|]. set (edges := (a, b) :: edges') in *.
  assert (a ∈ order) as Ha by (apply Hall; eapply edge_source; constructor).
  destruct order as [|n order']; [set_solver|]. set (order := n :: order') in *.
  destruct (foldl _ _ order) as [dp parent].
  destruct (max_by dp order) as [sink|] eqn:Hsink; [|done].
  apply max_by_spec in Hsink as [Hin Hmax].
  destruct (di_traced _ _ _ _ _ Hinv sink Hin) as (p & Htr & Hp & Hw & Hlen).
  exists sink, p. split_and!; [|done|].
  - by rewrite (follow_traced _ _ _ _ _ Htr Hlen), app_nil_l, reverse_involutive.
  - intros v q Hq. assert (v ∈ order) as Hv.
    { apply Hall. apply path_to_inv in Hq as Hq'. inv Hq; [done|]. by eapply edge_target. }
    pose proof (di_max _ _ _ _ _ Hinv v q Hv Hq). destruct (Hmax v Hv) as [Hle Htie].
    rewrite Hw. split; [lia|]. intros Heq. apply Htie. lia.
Qed.
End CriticalPath.

Section Examples.
#[local] Existing Instance plain_order.

Lemma critical_path_maximal_witness :
  ∃ sink path, critical_path_weighted [(1, 2); (1, 3); (2, 4); (3, 4)] (λ n, Z.of_nat n) =
      Ok path ∧ path = [1; 3; 4] ∧ path_to [(1, 2); (1, 3); (2, 4); (3, 4)] sink path.
Proof.
  destruct (critical_path_maximal [(1, 2); (1, 3); (2, 4); (3, 4)] (λ n, Z.of_nat n))
    as (sink & path & Hpath & Hto & _).
  - apply (toposort_ok_acyclic _ [1; 2; 3; 4]). by vm_compute.
  - done.
  - split; [lia|by vm_compute].
  - exists sink, path. split_and!; [exact Hpath| |exact Hto].
    vm_compute in Hpath. by injection Hpath as <-.
Defined.
End Examples.
