(* ===== verification/Text.v ===== *)
(** Operations of Rust's [str] and [char] on byte strings, shared by the
    components that parse: character classes, splitting, prefixes, decimal
    and hexadecimal numbers. A Rust string is the string of its UTF-8 bytes;
    the predicates are those of [char::is_ascii_*], which no byte of a
    multi-byte character satisfies. *)
From stdpp Require Import prelude strings list pretty.
From Stdlib Require Import Ascii.
From S2P Require Import Prelude.

Definition code (c : ascii) : nat := nat_of_ascii c.

Definition is_ascii_digit (c : ascii) : bool :=
  bool_decide (code "0" ≤ code c ∧ code c ≤ code "9").

Definition is_ascii_lowercase (c : ascii) : bool :=
  bool_decide (code "a" ≤ code c ∧ code c ≤ code "z").

Definition is_ascii_uppercase (c : ascii) : bool :=
  bool_decide (code "A" ≤ code c ∧ code c ≤ code "Z").

Definition is_ascii_alphanumeric (c : ascii) : bool :=
  is_ascii_digit c || is_ascii_lowercase c || is_ascii_uppercase c.

(** [s.chars().all(p)] *)
Fixpoint all_chars (p : ascii → bool) (s : string) : bool :=
  match s with
  | EmptyString => true
  | String c s' => p c && all_chars p s'
  end.

(** [s.contains(c)] *)
Fixpoint contains_char (c : ascii) (s : string) : bool :=
  match s with
  | EmptyString => false
  | String a s' => bool_decide (a = c) || contains_char c s'
  end.

Definition is_empty (s : string) : bool := bool_decide (s = EmptyString).

Definition starts_with_char (c : ascii) (s : string) : bool :=
  match s with String a _ => bool_decide (a = c) | EmptyString => false end.

Fixpoint ends_with_char (c : ascii) (s : string) : bool :=
  match s with
  | EmptyString => false
  | String a EmptyString => bool_decide (a = c)
  | String _ s' => ends_with_char c s'
  end.

(** [s.strip_prefix(p)] *)
Fixpoint strip_prefix (p s : string) : option string :=
  match p, s with
  | EmptyString, _ => Some s
  | String a p', String b s' => if decide (a = b) then strip_prefix p' s' else None
  | String _ _, EmptyString => None
  end.

(** [str::contains] of a text. *)
Fixpoint contains_str (p s : string) : bool :=
  match strip_prefix p s with
  | Some _ => true
  | None => match s with String _ s => contains_str p s | EmptyString => false end
  end.

Definition starts_with (p s : string) : bool :=
  match strip_prefix p s with Some _ => true | None => false end.

(** [trim_end_matches] of a character. *)
Fixpoint trim_end_char (c : ascii) (s : string) : string :=
  match s with
  | EmptyString => EmptyString
  | String a s =>
      match trim_end_char c s with
      | EmptyString => if decide (a = c) then EmptyString else String a EmptyString
      | t => String a t
      end
  end.

(** The part before and the part after the last [c]: one step of
    [s.rsplitn(n, c)]. *)
Fixpoint rsplit_once (c : ascii) (s : string) : option (string * string) :=
  match s with
  | EmptyString => None
  | String a s' =>
      match rsplit_once c s' with
      | Some (p, q) => Some (String a p, q)
      | None => if decide (a = c) then Some (EmptyString, s') else None
      end
  end.

(** The parts of [s] before and after the first character in [p]: [s.find(p)]
    followed by the two slices. *)
Fixpoint split_find (p : ascii → bool) (s : string) : option (string * string) :=
  match s with
  | EmptyString => None
  | String a s' =>
      if p a then Some (EmptyString, s')
      else match split_find p s' with
           | Some (x, y) => Some (String a x, y)
           | None => None
           end
  end.

(** [s[..n]] and [s[n..]], within the bounds of [s]. *)
Fixpoint str_take (n : nat) (s : string) : string :=
  match n, s with
  | S n, String a s' => String a (str_take n s')
  | _, _ => EmptyString
  end.

Fixpoint str_drop (n : nat) (s : string) : string :=
  match n, s with
  | S n, String _ s' => str_drop n s'
  | _, _ => s
  end.

(** [s.chars().take(n).collect()]: a byte of the form 10xxxxxx continues the
    character before it. *)
Definition is_continuation (c : ascii) : bool := bool_decide (128 ≤ code c ∧ code c < 192).

Fixpoint chars_take (n : nat) (s : string) : string :=
  match s with
  | EmptyString => EmptyString
  | String a s' =>
      if is_continuation a then String a (chars_take n s')
      else match n with S n => String a (chars_take n s') | O => EmptyString end
  end.

(** [s.to_ascii_lowercase()] *)
Definition to_lower (c : ascii) : ascii :=
  if is_ascii_uppercase c then ascii_of_nat (code c + 32) else c.

Fixpoint to_ascii_lowercase (s : string) : string :=
  match s with
  | EmptyString => EmptyString
  | String a s' => String (to_lower a) (to_ascii_lowercase s')
  end.

Definition to_upper (c : ascii) : ascii :=
  if is_ascii_lowercase c then ascii_of_nat (code c - 32) else c.

Fixpoint to_ascii_uppercase (s : string) : string :=
  match s with
  | EmptyString => EmptyString
  | String c s => String (to_upper c) (to_ascii_uppercase s)
  end.

Definition is_ascii_hexdigit (c : ascii) : bool :=
  is_ascii_digit c || bool_decide (code "a" ≤ code c ∧ code c ≤ code "f") ||
  bool_decide (code "A" ≤ code c ∧ code c ≤ code "F").

(** The value of a string of decimal digits. *)
Fixpoint digits_value (acc : nat) (s : string) : nat :=
  match s with
  | EmptyString => acc
  | String c s' => digits_value (10 * acc + (code c - code "0")) s'
  end.

(** [{x:04x}] of a 16-bit number. *)
Definition hex_digit (n : N) : ascii :=
  if decide (n < 10)%N then ascii_of_N (48 + n) else ascii_of_N (87 + n).

Definition hex4 (x : N) : string :=
  String (hex_digit (x / 4096 mod 16)) (String (hex_digit (x / 256 mod 16))
    (String (hex_digit (x / 16 mod 16)) (String (hex_digit (x mod 16)) EmptyString))).

(** ** Unicode classes, on UTF-8 bytes *)

(** The characters of [char::is_whitespace], of one, two and three bytes. *)
Definition ws1 (a : ascii) : bool :=
  bool_decide (9 ≤ code a ∧ code a ≤ 13) || bool_decide (code a = 32).

Definition ws2 (a b : ascii) : bool :=
  bool_decide (code a = 194) && (bool_decide (code b = 133) || bool_decide (code b = 160)).

Definition ws3 (a b c : ascii) : bool :=
  (bool_decide (code a = 225) && bool_decide (code b = 154) && bool_decide (code c = 128)) ||
  (bool_decide (code a = 226) && bool_decide (code b = 128) &&
     (bool_decide (128 ≤ code c ∧ code c ≤ 138) || bool_decide (code c = 168) ||
      bool_decide (code c = 169) || bool_decide (code c = 175))) ||
  (bool_decide (code a = 226) && bool_decide (code b = 129) && bool_decide (code c = 159)) ||
  (bool_decide (code a = 227) && bool_decide (code b = 128) && bool_decide (code c = 128)).

(** [s.trim_start()] *)
Fixpoint trim_start (s : string) : string :=
  match s with
  | String a s1 =>
      if ws1 a then trim_start s1 else
      match s1 with
      | String b s2 =>
          if ws2 a b then trim_start s2 else
          match s2 with
          | String c s3 => if ws3 a b c then trim_start s3 else s
          | EmptyString => s
          end
      | EmptyString => s
      end
  | EmptyString => EmptyString
  end.

(** [s.trim_end()] *)
Fixpoint trim_end (s : string) : string :=
  match s with
  | EmptyString => EmptyString
  | String a s' => if is_empty (trim_start s) then EmptyString else String a (trim_end s')
  end.

Definition trim (s : string) : string := trim_end (trim_start s).

(** [s.chars().any(char::is_whitespace)] *)
Fixpoint any_whitespace (s : string) : bool :=
  match s with
  | EmptyString => false
  | String a s1 =>
      ws1 a ||
      match s1 with
      | String b s2 =>
          ws2 a b || match s2 with String c _ => ws3 a b c | EmptyString => false end
      | EmptyString => false
      end || any_whitespace s1
  end.

(** [s.chars().any(char::is_control)] *)
Fixpoint any_control (s : string) : bool :=
  match s with
  | EmptyString => false
  | String a s1 =>
      bool_decide (code a < 32) || bool_decide (code a = 127) ||
      match s1 with
      | String b _ =>
          bool_decide (code a = 194) && bool_decide (128 ≤ code b ∧ code b ≤ 159)
      | EmptyString => false
      end || any_control s1
  end.

(** ** Lines *)

Definition nl_char : ascii := ascii_of_nat 10.
Definition nl : string := String nl_char EmptyString.
Definition cr_char : ascii := ascii_of_nat 13.

(** The raw lines of a text, each with whether a newline ends it. *)
Fixpoint segments (s : string) : list (string * bool) :=
  match s with
  | EmptyString => []
  | String c s' =>
      if decide (c = nl_char) then (EmptyString, true) :: segments s'
      else match segments s' with
           | [] => [(String c EmptyString, false)]
           | (l, t) :: rest => (String c l, t) :: rest
           end
  end.

(** [l.strip_suffix(c)], without the option. *)
Fixpoint drop_last_if (c : ascii) (l : string) : string :=
  match l with
  | EmptyString => EmptyString
  | String a EmptyString => if decide (a = c) then EmptyString else l
  | String a l' => String a (drop_last_if c l')
  end.

(** [s.lines()] *)
Definition lines (s : string) : list string :=
  map (λ '(l, t), if t : bool then drop_last_if cr_char l else l) (segments s).

(** [s.strip_suffix(p)] *)
Fixpoint strip_suffix (p s : string) : option string :=
  if decide (s = p) then Some EmptyString
  else match s with
       | EmptyString => None
       | String a s' => String a <$> strip_suffix p s'
       end.

(** [s.split(c)] *)
Fixpoint split_on (c : ascii) (s : string) : list string :=
  match s with
  | EmptyString => [EmptyString]
  | String a s' =>
      if decide (a = c) then EmptyString :: split_on c s'
      else match split_on c s' with
           | w :: rest => String a w :: rest
           | [] => [String a EmptyString]
           end
  end.

(** [s.split_once(c)] *)
Definition split_once (c : ascii) (s : string) : option (string * string) :=
  split_find (λ a, bool_decide (a = c)) s.

Definition push_char (a : ascii) (l : list string) : list string :=
  match l with w :: rest => String a w :: rest | [] => [String a EmptyString] end.

(** [s.split(char::is_whitespace)] *)
Fixpoint split_spaces (s : string) : list string :=
  match s with
  | EmptyString => [EmptyString]
  | String a s1 =>
      if ws1 a then EmptyString :: split_spaces s1 else
      match s1 with
      | String b s2 =>
          if ws2 a b then EmptyString :: split_spaces s2 else
          match s2 with
          | String c s3 =>
              if ws3 a b c then EmptyString :: split_spaces s3 else push_char a (split_spaces s1)
          | EmptyString => push_char a (split_spaces s1)
          end
      | EmptyString => push_char a (split_spaces s1)
      end
  end.

(** [s.split_whitespace()] *)
Definition split_whitespace (s : string) : list string :=
  filter (λ w, w ≠ EmptyString) (split_spaces s).

(** The value of decimal digits, in binary. *)
Fixpoint digits_N (acc : N) (s : string) : N :=
  match s with
  | EmptyString => acc
  | String c s' => digits_N (10 * acc + N.of_nat (code c - code "0")) s'
  end.

(** [s.parse::<uN>().ok()] for a type whose largest value is [max]: an
    optional plus sign and digits. *)
Definition parse_unsigned (max : N) (s : string) : option N :=
  let digits := match s with String "+" s' => s' | _ => s end in
  if negb (is_empty digits) && all_chars is_ascii_digit digits && (digits_N 0 digits <=? max)%N
  then Some (digits_N 0 digits) else None.

Definition u32_max : N := 4294967295.
Definition u64_max : N := 18446744073709551615.

(** ** Lemmas *)

Lemma string_app_cons a s t : String a s +:+ t = String a (s +:+ t).
Proof. done. Qed.

Lemma string_app_nil_l s : EmptyString +:+ s = s.
Proof. done. Qed.

Lemma string_app_nil_r s : s +:+ EmptyString = s.
Proof. induction s as [|a s IH]; [done|]. by rewrite string_app_cons, IH. Qed.

Lemma string_app_assoc s t u : s +:+ (t +:+ u) = (s +:+ t) +:+ u.
Proof. induction s as [|a s IH]; [done|]. by rewrite !string_app_cons, IH. Qed.

Lemma ends_with_char_app c s a t : ends_with_char c (s +:+ String a t) = ends_with_char c (String a t).
Proof. induction s as [|b s IH]; [done|]. rewrite string_app_cons, <- IH. by destruct s. Qed.

Lemma all_chars_app p s t : all_chars p (s +:+ t) = all_chars p s && all_chars p t.
Proof. induction s as [|a s IH]; [done|]. simpl. by rewrite IH, andb_assoc. Qed.

Lemma contains_char_app c s t :
  contains_char c (s +:+ t) = contains_char c s || contains_char c t.
Proof. induction s as [|a s IH]; [done|]. simpl. by rewrite IH, orb_assoc. Qed.

(** A class of characters that excludes [c] keeps [c] out. *)
Lemma all_chars_not_contains (p : ascii → bool) c s :
  p c = false → all_chars p s = true → contains_char c s = false.
Proof.
  intros Hc. induction s as [|a s IH]; [done|]. simpl.
  intros [Ha Hs]%andb_prop. rewrite IH by done.
  rewrite bool_decide_eq_false_2; [done|]. congruence.
Qed.

Lemma rsplit_once_none c s : rsplit_once c s = None ↔ contains_char c s = false.
Proof.
  induction s as [|a s IH]; [done|]. simpl. destruct (rsplit_once c s) as [[p q]|].
  - split; [done|]. intros [_ Hs]%orb_false_iff. by apply IH in Hs.
  - rewrite (proj1 IH eq_refl), orb_false_r. case_decide; [|by rewrite bool_decide_eq_false].
    split; [done|]. by rewrite bool_decide_eq_false.
Qed.

Lemma rsplit_once_some c s p q :
  rsplit_once c s = Some (p, q) ↔ s = p +:+ String c q ∧ contains_char c q = false.
Proof.
  revert p. induction s as [|a s IH]; intros p; simpl.
  { split; [done|]. intros [Hs _]. by destruct p. }
  destruct (rsplit_once c s) as [[p' q']|] eqn:Hs.
  - split.
    + intros [= <- <-]. destruct (proj1 (IH p') eq_refl) as [-> ?]. done.
    + intros [Heq Hq]. destruct p as [|b p]; rewrite ?string_app_cons, ?string_app_nil_l in Heq; simplify_eq.
      * apply rsplit_once_none in Hq. congruence.
      * assert (Some (p', q') = Some (p, q)) as [= -> ->]; [by apply IH|done].
  - apply rsplit_once_none in Hs. case_decide as Ha; [subst a|].
    + split; [by intros [= <- <-]|]. intros [Heq Hq].
      destruct p as [|b p]; rewrite ?string_app_cons, ?string_app_nil_l in Heq; simplify_eq; [done|].
      rewrite contains_char_app in Hs. simpl in Hs.
      rewrite bool_decide_eq_true_2, orb_true_r in Hs; done.
    + split; [done|]. intros [Heq Hq]. destruct p as [|b p]; rewrite ?string_app_cons, ?string_app_nil_l in Heq; simplify_eq.
      rewrite contains_char_app in Hs. simpl in Hs.
      rewrite bool_decide_eq_true_2, orb_true_r in Hs; done.
Qed.

Lemma strip_prefix_some p s t : strip_prefix p s = Some t ↔ s = p +:+ t.
Proof.
  revert s. induction p as [|a p IH]; intros s; simpl.
  { rewrite string_app_nil_l. naive_solver. }
  rewrite string_app_cons. destruct s as [|b s]; [done|].
  case_decide; [subst|naive_solver]. rewrite IH. naive_solver.
Qed.

Lemma split_find_app p x c y :
  all_chars (λ a, negb (p a)) x = true → p c = true →
  split_find p (x +:+ String c y) = Some (x, y).
Proof.
  intros Hx Hc. induction x as [|a x IH].
  - rewrite string_app_nil_l. simpl. by rewrite Hc.
  - rewrite string_app_cons. simpl in *. apply andb_prop in Hx as [Ha Hx].
    rewrite negb_true_iff in Ha. by rewrite Ha, IH.
Qed.

Lemma split_find_some p s x y :
  split_find p s = Some (x, y) →
  ∃ c, s = x +:+ String c y ∧ p c = true ∧ all_chars (λ a, negb (p a)) x = true.
Proof.
  revert x. induction s as [|a s IH]; intros x; simpl; [done|].
  destruct (p a) eqn:Ha; [intros [= <- <-]; by exists a|].
  destruct (split_find p s) as [[x' y']|]; [|done]. intros [= <- <-].
  destruct (IH x' eq_refl) as (c & -> & Hc & Hx). exists c. split_and!; [done..|].
  simpl. by rewrite Ha, Hx.
Qed.

Lemma all_chars_impl (p q : ascii → bool) s :
  (∀ c, p c = true → q c = true) → all_chars p s = true → all_chars q s = true.
Proof.
  intros Hpq. induction s as [|a s IH]; [done|]. simpl.
  intros [Ha Hs]%andb_prop. by rewrite (Hpq a Ha), IH.
Qed.

Lemma code_lt c : code c < 256.
Proof. apply nat_ascii_bounded. Qed.

(** A decidable statement about a nibble, by enumeration. *)
Lemma below_16 (P : N → Prop) : Forall P (N.of_nat <$> seq 0 16) → ∀ n, (n < 16)%N → P n.
Proof.
  intros HP n Hn. eapply Forall_forall in HP; [exact HP|].
  apply list_elem_of_fmap. exists (N.to_nat n). rewrite elem_of_seq. lia.
Qed.

Lemma hex_digit_alphanumeric n : (n < 16)%N → is_ascii_alphanumeric (hex_digit n) = true.
Proof. apply (below_16 (λ n, is_ascii_alphanumeric (hex_digit n) = true)). by repeat constructor. Qed.

Lemma hex4_alphanumeric x : all_chars is_ascii_alphanumeric (hex4 x) = true.
Proof.
  unfold hex4. cbn [all_chars].
  by rewrite !hex_digit_alphanumeric by (apply N.mod_upper_bound; lia).
Qed.

Lemma hex_digit_inj m n : (m < 16)%N → (n < 16)%N → hex_digit m = hex_digit n → m = n.
Proof.
  intros Hm Hn. revert m Hm n Hn.
  apply (below_16 (λ m, ∀ n, (n < 16)%N → hex_digit m = hex_digit n → m = n)).
  repeat constructor;
    match goal with |- ∀ n, _ → hex_digit ?m = _ → _ =>
      apply (below_16 (λ n, hex_digit m = hex_digit n → m = n)) end;
    by repeat constructor.
Qed.

(** Different 16-bit numbers have different suffixes. *)
Lemma hex4_inj x y : (x < 65536)%N → (y < 65536)%N → hex4 x = hex4 y → x = y.
Proof.
  unfold hex4. intros Hx Hy [= H1 H2 H3 H4]. apply hex_digit_inj in H1, H2, H3, H4;
    try (apply N.mod_upper_bound; lia).
  assert (∀ z, z / 16 / 16 = z / 256)%N as E1 by (intros; by rewrite N.Div0.div_div).
  assert (∀ z, z / 256 / 16 = z / 4096)%N as E2 by (intros; by rewrite N.Div0.div_div).
  assert (∀ z, z < 65536 → z / 4096 < 16)%N as E3
    by (intros; apply N.Div0.div_lt_upper_bound; lia).
  pose proof (N.div_mod' x 16) as D1. pose proof (N.div_mod' (x / 16) 16) as D2.
  pose proof (N.div_mod' (x / 256) 16) as D3. pose proof (N.div_mod' y 16) as D4.
  pose proof (N.div_mod' (y / 16) 16) as D5. pose proof (N.div_mod' (y / 256) 16) as D6.
  rewrite (N.mod_small (x / 4096)), (N.mod_small (y / 4096)) in H1 by auto.
  rewrite E1 in D2, D5. rewrite E2 in D3, D6. clear -H1 H2 H3 H4 D1 D2 D3 D4 D5 D6.
  congruence.
Qed.

(** ** Lines *)

(** Nothing, or a text whose last line is ended. *)
Definition complete_text (s : string) : Prop := s = EmptyString ∨ ∃ s', s = s' +:+ nl.

Lemma segments_app s t :
  complete_text s → segments (s +:+ t) = segments s ++ segments t.
Proof.
  intros [->|[s' ->]]; [done|]. rewrite <- string_app_assoc.
  induction s' as [|a s' IH].
  - by change (segments (String nl_char t) = (EmptyString, true) :: segments t).
  - rewrite !string_app_cons. simpl. case_decide; [by rewrite IH|].
    rewrite IH. destruct (segments (s' +:+ nl)) as [|[l b] rest] eqn:Hs; [|done].
    exfalso. clear -Hs. destruct s' as [|b s']; [by vm_compute in Hs|].
    rewrite string_app_cons in Hs. simpl in Hs. case_decide; [done|].
    by destruct (segments (s' +:+ nl)) as [|[] ?].
Qed.

Lemma lines_app s t : complete_text s → lines (s +:+ t) = lines s ++ lines t.
Proof. intros Hs. unfold lines. by rewrite segments_app, map_app. Qed.

Lemma segments_line l : contains_char nl_char l = false → segments (l +:+ nl) = [(l, true)].
Proof.
  induction l as [|a l IH]; [done|]. rewrite string_app_cons. simpl. intros [Ha Hl]%orb_false_iff.
  apply bool_decide_eq_false in Ha. by rewrite decide_False, IH.
Qed.

Lemma drop_last_if_id c l : ends_with_char c l = false → drop_last_if c l = l.
Proof.
  induction l as [|a l IH]; [done|]. destruct l as [|b l]; simpl in *.
  - intros Ha%bool_decide_eq_false. by rewrite decide_False.
  - intros Hl. f_equal. by apply IH.
Qed.

Lemma lines_line l :
  contains_char nl_char l = false → ends_with_char cr_char l = false →
  lines (l +:+ nl) = [l].
Proof.
  intros Hn Hc. unfold lines. rewrite segments_line by done. simpl. by rewrite drop_last_if_id.
Qed.

Lemma complete_text_app s t : complete_text s → complete_text t → complete_text (s +:+ t).
Proof.
  intros Hs [->|[t' ->]]; [by rewrite string_app_nil_r|].
  right. exists (s +:+ t'). by rewrite string_app_assoc.
Qed.

Lemma complete_text_nl s : complete_text (s +:+ nl).
Proof. right. by exists s. Qed.

Lemma string_length_app s t :
  String.length (s +:+ t) = String.length s + String.length t.
Proof. induction s as [|a s IH]; [done|]. rewrite string_app_cons. simpl. by rewrite IH. Qed.

Lemma strip_suffix_app s p : strip_suffix p (s +:+ p) = Some s.
Proof.
  induction s as [|a s IH].
  - rewrite string_app_nil_l. destruct p; [done|]. cbn [strip_suffix]. by rewrite decide_True.
  - rewrite string_app_cons. simpl. rewrite IH. case_decide as Hd; [|done].
    exfalso. assert (String.length (String a (s +:+ p)) = String.length p) as Hl by congruence.
    simpl in Hl. rewrite string_length_app in Hl. lia.
Qed.

Lemma strip_suffix_Some p s q : strip_suffix p s = Some q → s = q +:+ p.
Proof.
  revert q. induction s as [|a s IH]; intros q; simpl; case_decide as Hd.
  - intros [= <-]. done.
  - done.
  - intros [= <-]. done.
  - destruct (strip_suffix p s) as [q'|]; [|done]. intros [= <-].
    by rewrite string_app_cons, <- IH.
Qed.

(** ** Decimal numbers *)

Lemma pretty_N_char_digit n : is_ascii_digit (pretty_N_char n) = true.
Proof. unfold pretty_N_char. by repeat case_match. Qed.

Lemma pretty_N_go_digits n s :
  all_chars is_ascii_digit s = true → all_chars is_ascii_digit (pretty_N_go n s) = true.
Proof.
  revert s. induction (N.lt_wf_0 n) as [n _ IH]; intros s Hs.
  destruct (decide (n = 0)%N) as [->|Hn]; [done|].
  rewrite pretty_N_go_step by lia. apply IH; [apply N.div_lt; lia|].
  cbn [all_chars]. by rewrite pretty_N_char_digit.
Qed.

Lemma pretty_N_digits (n : N) : all_chars is_ascii_digit (pretty n) = true.
Proof.
  unfold pretty, pretty_N. case_decide; [done|]. by apply pretty_N_go_digits.
Qed.

Lemma pretty_Z_digits (z : Z) : (0 ≤ z)%Z → all_chars is_ascii_digit (pretty z) = true.
Proof. destruct z; [done|intros _|done]. apply pretty_N_digits. Qed.

(** ** Cutting at a character *)

Lemma cut_first c x y x' y' :
  contains_char c x = false → contains_char c x' = false →
  x +:+ String c y = x' +:+ String c y' → x = x' ∧ y = y'.
Proof.
  revert x'. induction x as [|a x IH]; intros [|a' x']; simpl;
    rewrite ?orb_false_iff, ?bool_decide_eq_false.
  - by intros _ _ [= ->].
  - by intros _ [? _] [= <- _].
  - by intros [? _] _ [= -> _].
  - intros [_ Hx] [_ Hx'] [= -> He]. by destruct (IH x' Hx Hx' He) as [-> ->].
Qed.

Lemma cut_last c x y x' y' :
  contains_char c y = false → contains_char c y' = false →
  x +:+ String c y = x' +:+ String c y' → x = x' ∧ y = y'.
Proof.
  intros Hy Hy' He. assert (rsplit_once c (x +:+ String c y) = Some (x, y)) as H1
    by (by apply rsplit_once_some).
  assert (rsplit_once c (x' +:+ String c y') = Some (x', y')) as H2 by (by apply rsplit_once_some).
  rewrite He in H1. simplify_eq. done.
Qed.

(** Each line with its end. *)
Fixpoint unlines (l : list string) : string :=
  match l with [] => EmptyString | x :: l => x +:+ nl +:+ unlines l end.

Lemma unlines_inj l l' :
  Forall (λ x, contains_char nl_char x = false) l → Forall (λ x, contains_char nl_char x = false) l' →
  unlines l = unlines l' → l = l'.
Proof.
  intros Hl. revert l'. induction Hl as [|x l Hx Hl IH]; intros l' Hl' He.
  - destruct Hl' as [|y l' _ _]; [done|]. by destruct y.
  - destruct Hl' as [|y l' Hy Hl']; [by destruct x|]. change (x +:+ String nl_char (unlines l) =
      y +:+ String nl_char (unlines l')) in He.
    apply cut_first in He as [-> He]; [|done..]. by rewrite (IH l').
Qed.

(** [join] of texts without the separator. *)
Fixpoint join_with (sep : string) (l : list string) : string :=
  match l with
  | [] => EmptyString
  | [x] => x
  | x :: l => x +:+ sep +:+ join_with sep l
  end.

Lemma join_with_cons sep x y l : join_with sep (x :: y :: l) = x +:+ sep +:+ join_with sep (y :: l).
Proof. done. Qed.

Lemma join_with_no c d l :
  c ≠ d → Forall (λ x, contains_char c x = false) l → contains_char c (join_with (String d EmptyString) l) = false.
Proof.
  intros Hcd. induction 1 as [|x [|y l] Hx Hl IH]; [done|done|].
  rewrite join_with_cons, !contains_char_app, Hx, IH. cbn. by rewrite bool_decide_eq_false_2.
Qed.

Lemma contains_char_between c x y : contains_char c (x +:+ String c EmptyString +:+ y) = true.
Proof.
  rewrite !contains_char_app. change (contains_char c (String c EmptyString)) with (bool_decide (c = c) || false).
  by rewrite bool_decide_eq_true_2, orb_true_r.
Qed.

Lemma join_with_inj c l l' :
  l ≠ [] → l' ≠ [] →
  Forall (λ x, contains_char c x = false) l → Forall (λ x, contains_char c x = false) l' →
  join_with (String c EmptyString) l = join_with (String c EmptyString) l' → l = l'.
Proof.
  intros Hn Hn' Hl. revert l' Hn'. induction Hl as [|x l Hx Hl IH]; intros l' Hn' Hl' He; [done|].
  destruct Hl' as [|x' l' Hx' Hl']; [done|]. destruct l as [|y l], l' as [|y' l'].
  - cbn in He. by subst.
  - rewrite join_with_cons in He. change (join_with _ [x]) with x in He. rewrite He in Hx.
    by rewrite contains_char_between in Hx.
  - rewrite join_with_cons in He. change (join_with _ [x']) with x' in He. rewrite <- He in Hx'.
    by rewrite contains_char_between in Hx'.
  - rewrite !join_with_cons in He.
    change (x +:+ String c (join_with (String c EmptyString) (y :: l)) =
            x' +:+ String c (join_with (String c EmptyString) (y' :: l'))) in He.
    apply cut_first in He as [-> He]; [|done..]. f_equal. by apply IH.
Qed.

(** ** Splitting *)

Lemma all_chars_not c x :
  all_chars (λ a, negb (bool_decide (a = c))) x = negb (contains_char c x).
Proof.
  induction x as [|a x IH]; [done|]. simpl. by rewrite IH, negb_orb.
Qed.

Lemma split_once_some c s x y :
  split_once c s = Some (x, y) ↔ s = x +:+ String c y ∧ contains_char c x = false.
Proof.
  unfold split_once. split.
  - intros (a & -> & Ha & Hx)%split_find_some. apply bool_decide_eq_true in Ha as ->.
    rewrite all_chars_not, negb_true_iff in Hx. done.
  - intros [-> Hx]. apply split_find_app; [|by apply bool_decide_eq_true].
    by rewrite all_chars_not, Hx.
Qed.

Lemma split_once_none c s : split_once c s = None ↔ contains_char c s = false.
Proof.
  unfold split_once. induction s as [|a s IH]; [done|]. simpl. case_bool_decide; [done|].
  simpl. rewrite <- IH. by destruct (split_find _ s) as [[??]|].
Qed.

(** ** Parsing unsigned numbers *)

Lemma parse_unsigned_le max s n : parse_unsigned max s = Some n → (n ≤ max)%N.
Proof.
  unfold parse_unsigned. destruct (_ && _) eqn:Hc; [|done]. intros [= <-].
  apply andb_prop in Hc as [_ Hc]. by apply N.leb_le.
Qed.

(** A character other than the plus sign and the digits is not in a number. *)
Lemma parse_unsigned_no max s n c :
  parse_unsigned max s = Some n → is_ascii_digit c = false → c ≠ "+"%char →
  contains_char c s = false.
Proof.
  unfold parse_unsigned. destruct (_ && _) eqn:Hc; [|done]. intros _ Hd Hp.
  apply andb_prop in Hc as [[_ Hc]%andb_prop _].
  assert (∀ t, all_chars is_ascii_digit t = true → contains_char c t = false) as Ht
    by (intros t; by apply all_chars_not_contains).
  destruct s as [|a s]; [done|]. destruct (decide (a = "+"%char)) as [->|Ha].
  - simpl. rewrite bool_decide_eq_false_2 by congruence. by apply Ht.
  - apply Ht. destruct a as [[] [] [] [] [] [] [] []]; done.
Qed.

Lemma digits_N_pretty_go n s : digits_N 0 (pretty_N_go n s) = digits_N n s.
Proof.
  revert s. induction (N.lt_wf_0 n) as [n _ IH]; intros s.
  destruct (decide (n = 0)%N) as [->|Hn]; [done|].
  rewrite pretty_N_go_step by lia. rewrite IH by (apply N.div_lt; lia). cbn [digits_N].
  assert (N.of_nat (code (pretty_N_char (n `mod` 10)) - code "0") = n `mod` 10)%N as Hd.
  { pose proof (N.mod_lt n 10 ltac:(done)) as Hlt. revert Hlt. generalize (n `mod` 10)%N.
    intros d Hd. destruct d as [|d]; [done|].
    do 4 (destruct d as [d|d|]; try done). }
  rewrite Hd. f_equal. pose proof (N.div_mod n 10). lia.
Qed.

Lemma digits_N_pretty n : digits_N 0 (pretty n) = n.
Proof. unfold pretty, pretty_N. case_decide as H0; [by subst|]. apply digits_N_pretty_go. Qed.

Lemma parse_unsigned_pretty max n : (n ≤ max)%N → parse_unsigned max (pretty n) = Some n.
Proof.
  intros Hn. pose proof (digits_N_pretty n) as Hv. pose proof (pretty_N_digits n) as Hd. unfold parse_unsigned.
  destruct (pretty n) as [|a s] eqn:Hp.
  { exfalso. unfold pretty, pretty_N in Hp. case_decide; [done|].
    assert (∀ m t, t ≠ EmptyString → pretty_N_go m t ≠ EmptyString) as Hgo.
    { intros m. induction (N.lt_wf_0 m) as [m _ IH]; intros t Ht.
      destruct (decide (m = 0)%N) as [->|Hm]; [done|].
      rewrite pretty_N_go_step by lia. apply IH; [apply N.div_lt; lia|done]. }
    rewrite pretty_N_go_step in Hp by lia. by apply Hgo in Hp. }
  assert (match String a s with String "+" s' => s' | _ => String a s end = String a s) as ->.
  { simpl in Hd. apply andb_prop in Hd as [Hd _]. by destruct a as [[] [] [] [] [] [] [] []]. }
  rewrite Hd, Hv. simpl. by rewrite (proj2 (N.leb_le _ _) Hn).
Qed.

(** ** Trimming *)

(** Visible ASCII, and ASCII with the space. *)
Definition is_visible (c : ascii) : bool := bool_decide (32 < code c ∧ code c < 127).
Definition is_printable (c : ascii) : bool := is_visible c || bool_decide (code c = 32).

(** No character of these begins white space. *)
Definition opens_no_space (c : ascii) : bool :=
  negb (ws1 c) && bool_decide (code c ≠ 194 ∧ code c ≠ 225 ∧ code c ≠ 226 ∧ code c ≠ 227).

Lemma ws2_code a b : ws2 a b = true → code a = 194 ∧ (code b = 133 ∨ code b = 160).
Proof. unfold ws2. rewrite andb_true_iff, orb_true_iff, !bool_decide_eq_true. tauto. Qed.

Lemma ws3_code a b c : ws3 a b c = true →
  (code a = 225 ∨ code a = 226 ∨ code a = 227) ∧ 128 ≤ code b < 194 ∧ 128 ≤ code c < 194.
Proof.
  unfold ws3. rewrite !orb_true_iff, !andb_true_iff, !orb_true_iff, !bool_decide_eq_true. lia.
Qed.

Lemma trim_start_opens a s : opens_no_space a = true → trim_start (String a s) = String a s.
Proof.
  unfold opens_no_space. rewrite andb_true_iff, negb_true_iff, bool_decide_eq_true. intros [H1 Hc].
  cbn. rewrite H1. destruct s as [|b s]; [done|].
  destruct (ws2 a b) eqn:H2; [apply ws2_code in H2; lia|]. destruct s as [|c s]; [done|].
  destruct (ws3 a b c) eqn:H3; [apply ws3_code in H3; lia|done].
Qed.

Lemma visible_opens a : is_visible a = true → opens_no_space a = true.
Proof.
  unfold is_visible, opens_no_space, ws1. rewrite bool_decide_eq_true. intros H.
  rewrite andb_true_iff, negb_true_iff, orb_false_iff, !bool_decide_eq_false, bool_decide_eq_true. lia.
Qed.

Lemma continuation_opens a : 128 ≤ code a < 194 → opens_no_space a = true.
Proof.
  intros H. unfold opens_no_space, ws1.
  rewrite andb_true_iff, negb_true_iff, orb_false_iff, !bool_decide_eq_false, bool_decide_eq_true. lia.
Qed.

(** No white space begins the text. *)
Definition stops (a : ascii) (s : string) : bool :=
  negb (ws1 a) &&
  match s with
  | String b s2 => negb (ws2 a b) && match s2 with String c _ => negb (ws3 a b c) | EmptyString => true end
  | EmptyString => true
  end.

Lemma trim_start_stops a s : stops a s = true → trim_start (String a s) = String a s.
Proof.
  unfold stops. cbn. destruct (ws1 a); [done|]. destruct s as [|b s]; [done|].
  destruct (ws2 a b); [done|]. destruct s as [|c s]; [done|]. by destruct (ws3 a b c).
Qed.

(** Induction as [trim_start] recurs. *)
Lemma trim_start_ind (P : string → Prop) :
  P EmptyString →
  (∀ a s, ws1 a = true → P s → P (String a s)) →
  (∀ a b s, ws1 a = false → ws2 a b = true → P s → P (String a (String b s))) →
  (∀ a b c s, ws1 a = false → ws2 a b = false → ws3 a b c = true → P s →
     P (String a (String b (String c s)))) →
  (∀ a s, stops a s = true → P (String a s)) → ∀ s, P s.
Proof.
  intros H0 H1 H2 H3 H4 s. remember (String.length s) as n eqn:Hn. revert s Hn.
  induction n as [n IH] using (well_founded_induction lt_wf); intros s ->.
  assert (∀ t, String.length t < String.length s → P t) as IHs by (intros t Ht; by eapply IH).
  clear IH. destruct s as [|a s]; [done|]. destruct (ws1 a) eqn:E1; [by apply H1; [|apply IHs; cbn; lia]|].
  destruct s as [|b s]; [apply H4; unfold stops; by rewrite E1|].
  destruct (ws2 a b) eqn:E2; [by apply H2; [| |apply IHs; cbn; lia]|].
  destruct s as [|c s]; [apply H4; unfold stops; by rewrite E1, E2|].
  destruct (ws3 a b c) eqn:E3; [by apply H3; [| | |apply IHs; cbn; lia]|].
  apply H4. unfold stops. by rewrite E1, E2, E3.
Qed.

Lemma trim_start_idem s : trim_start (trim_start s) = trim_start s.
Proof.
  induction s as [|a s E1 IH|a b s E1 E2 IH|a b c s E1 E2 E3 IH|a s Hs] using trim_start_ind;
    [done|cbn; by rewrite ?E1, ?E2, ?E3..|]. by rewrite !(trim_start_stops a s).
Qed.

Lemma stops_snoc_nl a s : stops a s = true → stops a (s +:+ nl) = true.
Proof.
  assert (∀ b, ws2 b nl_char = false) as H2.
  { intros b. apply not_true_iff_false. intros [_ Hc]%ws2_code. vm_compute in Hc. lia. }
  assert (∀ b c, ws3 b c nl_char = false) as H3.
  { intros b c. apply not_true_iff_false. intros (_ & _ & Hc)%ws3_code. vm_compute in Hc. lia. }
  unfold stops. destruct (ws1 a); [done|]. destruct s as [|b s].
  - rewrite string_app_nil_l. unfold nl. by rewrite H2.
  - rewrite string_app_cons. destruct (ws2 a b); [done|]. destruct s as [|c s].
    + rewrite string_app_nil_l. unfold nl. by rewrite H3.
    + by rewrite string_app_cons.
Qed.

Lemma trim_start_snoc_nl s : is_empty (trim_start (s +:+ nl)) = is_empty (trim_start s).
Proof.
  induction s as [|a s E1 IH|a b s E1 E2 IH|a b c s E1 E2 E3 IH|a s Hs] using trim_start_ind;
    [done|rewrite ?string_app_cons; cbn; by rewrite ?E1, ?E2, ?E3..|].
  by rewrite string_app_cons, !trim_start_stops by (try apply stops_snoc_nl; done).
Qed.

Lemma trim_end_snoc_nl s : trim_end (s +:+ nl) = trim_end s.
Proof.
  induction s as [|a s IH]; [done|]. rewrite string_app_cons. cbn [trim_end].
  rewrite <- string_app_cons, trim_start_snoc_nl. by rewrite IH.
Qed.

Lemma is_empty_cons a s : is_empty (String a s) = false.
Proof. done. Qed.

Lemma stops_trim_end a s : stops a s = true → stops a (trim_end s) = true.
Proof.
  unfold stops. destruct (ws1 a); [done|]. destruct s as [|b s]; [done|]. cbn [trim_end].
  destruct (is_empty (trim_start (String b s))); [done|]. destruct (ws2 a b); [done|].
  destruct s as [|c s]; [done|]. cbn [trim_end].
  by destruct (is_empty (trim_start (String c s))), (ws3 a b c).
Qed.

(** What [trim_end] leaves is white space only if nothing else was there. *)
Lemma trim_start_end_empty s : is_empty (trim_start (trim_end s)) = is_empty (trim_start s).
Proof.
  induction s as [|a s E1 IH|a b s E1 E2 IH|a b c s E1 E2 E3 IH|a s Hs] using trim_start_ind; [done|..].
  - assert (∀ t, trim_start (String a t) = trim_start t) as Ht by (intros; cbn; by rewrite E1).
    cbn [trim_end]. rewrite Ht. destruct (is_empty (trim_start s)) eqn:Hi; [done|]. by rewrite Ht, IH.
  - assert (∀ t, trim_start (String a (String b t)) = trim_start t) as Ht by (intros; cbn; by rewrite E1, E2).
    cbn [trim_end]. rewrite Ht. apply ws2_code in E2 as Hc.
    rewrite (trim_start_opens b s), is_empty_cons by (apply continuation_opens; lia).
    destruct (is_empty (trim_start s)) eqn:Hi; [done|]. by rewrite Ht, IH.
  - assert (∀ t, trim_start (String a (String b (String c t))) = trim_start t) as Ht
      by (intros; cbn; by rewrite E1, E2, E3).
    cbn [trim_end]. rewrite Ht. apply ws3_code in E3 as Hc.
    rewrite (trim_start_opens b), is_empty_cons by (apply continuation_opens; lia).
    rewrite (trim_start_opens c), is_empty_cons by (apply continuation_opens; lia).
    destruct (is_empty (trim_start s)) eqn:Hi; [done|]. by rewrite Ht, IH.
  - cbn [trim_end]. rewrite (trim_start_stops a s), is_empty_cons by done.
    by rewrite (trim_start_stops a (trim_end s)) by (by apply stops_trim_end).
Qed.

Lemma trim_end_idem s : trim_end (trim_end s) = trim_end s.
Proof.
  induction s as [|a s IH]; [done|]. pose proof (trim_start_end_empty (String a s)) as He.
  cbn [trim_end] in *. destruct (is_empty (trim_start (String a s))) eqn:Hi; [done|].
  cbn [trim_end]. by rewrite He, IH.
Qed.

Lemma trim_start_length s : String.length (trim_start s) ≤ String.length s.
Proof.
  induction s as [|a s E1 IH|a b s E1 E2 IH|a b c s E1 E2 E3 IH|a s Hs] using trim_start_ind;
    [done|cbn; rewrite ?E1, ?E2, ?E3; cbn in *; lia..|]. by rewrite trim_start_stops.
Qed.

Lemma trim_start_fixed a s : trim_start (String a s) = String a s → stops a s = true.
Proof.
  intros Hs. apply (f_equal String.length) in Hs. unfold stops. cbn in Hs.
  pose proof (trim_start_length s). destruct (ws1 a); [cbn in *; lia|]. destruct s as [|b s]; [done|].
  pose proof (trim_start_length s). destruct (ws2 a b); [cbn in *; lia|]. destruct s as [|c s]; [done|].
  pose proof (trim_start_length s). destruct (ws3 a b c); [cbn in *; lia|done].
Qed.

Lemma trim_start_end s : trim_start s = s → trim_start (trim_end s) = trim_end s.
Proof.
  destruct s as [|a s]; [done|]. intros Hs. cbn [trim_end]. rewrite Hs, is_empty_cons.
  by apply trim_start_stops, stops_trim_end, trim_start_fixed.
Qed.

Lemma trim_idem s : trim (trim s) = trim s.
Proof. unfold trim. by rewrite trim_start_end, trim_end_idem by apply trim_start_idem. Qed.

(** A text whose last character is visible is kept whole. *)
Fixpoint ends_visible (s : string) : bool :=
  match s with
  | EmptyString => false
  | String a EmptyString => is_visible a
  | String a s => is_printable a && ends_visible s
  end.

Lemma printable_start a s : is_printable a = true →
  trim_start (String a s) = if is_visible a then String a s else trim_start s.
Proof.
  unfold is_printable. destruct (is_visible a) eqn:Hv; cbn [orb].
  - intros _. by apply trim_start_opens, visible_opens.
  - rewrite bool_decide_eq_true. intros Hc. cbn. unfold ws1. by rewrite Hc.
Qed.

Lemma ends_visible_cons a s : ends_visible (String a s) = true →
  is_printable a = true ∧ (s = EmptyString ∧ is_visible a = true ∨ ends_visible s = true).
Proof.
  cbn. destruct s as [|b s]; [|by intros [? ?]%andb_prop; auto].
  intros Hv. unfold is_printable. by rewrite Hv; auto.
Qed.

Lemma ends_visible_start p s : ends_visible p = true → is_empty (trim_start (p +:+ s)) = false.
Proof.
  induction p as [|a p IH]; [done|]. intros [Hp Hv]%ends_visible_cons.
  rewrite string_app_cons, printable_start by done. destruct (is_visible a) eqn:Ha; [done|].
  destruct Hv as [[_ ?]|Hv]; [done|by apply IH].
Qed.

Lemma trim_end_app p s : ends_visible p = true → trim_end (p +:+ s) = p +:+ trim_end s.
Proof.
  induction p as [|a p IH]; [done|]. intros Hv. pose proof (ends_visible_start _ s Hv) as He.
  rewrite !string_app_cons in *. cbn [trim_end]. rewrite He. f_equal.
  apply ends_visible_cons in Hv as [_ [[-> _]|Hv]]; [by rewrite !string_app_nil_l|by apply IH].
Qed.

Lemma trim_end_visible p : ends_visible p = true → trim_end p = p.
Proof. intros Hv. rewrite <- (string_app_nil_r p) at 1. rewrite trim_end_app by done. apply string_app_nil_r. Qed.

Lemma ends_visible_all s : s ≠ EmptyString → all_chars is_visible s = true → ends_visible s = true.
Proof.
  induction s as [|a s IH]; [done|]. intros _. cbn. intros [Ha Hs]%andb_prop.
  destruct s as [|b s]; [done|]. unfold is_printable. rewrite Ha. cbn [orb andb]. by apply IH.
Qed.

Lemma ends_visible_app p s : all_chars is_printable p = true → ends_visible s = true → ends_visible (p +:+ s) = true.
Proof.
  induction p as [|a p IH]; [done|]. cbn [all_chars]. intros [Ha Hp]%andb_prop Hs.
  rewrite string_app_cons. specialize (IH Hp Hs). cbn. rewrite Ha, IH. by destruct (p +:+ s).
Qed.

Lemma trim_visible s : s ≠ EmptyString → all_chars is_visible s = true → trim s = s.
Proof.
  intros Hne Hs. unfold trim. destruct s as [|a s]; [done|].
  rewrite trim_start_opens by (apply visible_opens; by cbn in Hs; apply andb_prop in Hs as [? _]).
  by apply trim_end_visible, ends_visible_all.
Qed.

Lemma trim_space s : trim (String " "%char s) = trim s.
Proof. done. Qed.

Lemma trim_nl s : trim (nl +:+ s) = trim s.
Proof. done. Qed.

Lemma trim_snoc_nl s : trim (s +:+ nl) = trim s.
Proof.
  unfold trim. destruct (is_empty (trim_start s)) eqn:Hi.
  - pose proof (trim_start_snoc_nl s) as Hn. rewrite Hi in Hn. unfold is_empty in *.
    apply bool_decide_eq_true in Hi, Hn. by rewrite Hi, Hn.
  - rewrite <- (trim_end_snoc_nl (trim_start s)). f_equal. revert Hi.
    induction s as [|a s E1 IH|a b s E1 E2 IH|a b c s E1 E2 E3 IH|a s Hs] using trim_start_ind;
      [done|rewrite ?string_app_cons; cbn [trim_start]; by rewrite ?E1, ?E2, ?E3..|].
    intros _. rewrite (trim_start_stops a s), string_app_cons by done.
    by apply trim_start_stops, stops_snoc_nl.
Qed.
