(* ===== verification/Paths.v ===== *)
(** [std::path] and a tree of files: the components of a path, resolution
    through symbolic links ([fs::canonicalize]), and the removal of entries.
    An absolute path is the list of its names. *)
From stdpp Require Import prelude gmap strings list sorting.
From Stdlib Require Import Ascii.
From S2P Require Import Prelude Text.

(** ** [Path::components] *)

Inductive path_component : Type := RootDir | CurDir | ParentDir | Normal (name : string).

#[export] Instance path_component_eq_dec : EqDecision path_component.
Proof. solve_decision. Defined.

(** A component that is not the first: an empty one and [.] do not count. *)
Definition later_component (c : string) : option path_component :=
  if decide (c = EmptyString ∨ c = ".") then None
  else if decide (c = "..") then Some ParentDir else Some (Normal c).

Definition is_absolute (p : string) : bool := starts_with_char "/" p.

Definition path_components (p : string) : list path_component :=
  match split_on "/" p with
  | [] => []
  | first :: rest =>
      (if is_absolute p then [RootDir] else if decide (first = ".") then [CurDir]
       else option_list (later_component first)) ++ omap later_component rest
  end.

Definition is_normal (c : path_component) : bool := match c with Normal _ => true | _ => false end.

(** ** The tree *)

Abbreviation path := (list string).

Definition display (p : path) : string := "/" +:+ join_with "/" p.

(** [Ord] of [PathBuf]: by the names. *)
Fixpoint path_le (p q : path) : Prop :=
  match p, q with
  | [], _ => True
  | _, [] => False
  | a :: p, b :: q => a ≠ b ∧ a ≼ b ∨ a = b ∧ path_le p q
  end.

#[export] Instance path_le_dec : RelDecision path_le.
Proof.
  intros p. induction p as [|a p IH]; intros [|b q]; cbn; [apply _..|].
  pose proof (IH q). change (Decision (path_le p q)) in H. apply _.
Defined.

#[export] Instance path_le_po : PartialOrder path_le.
Proof.
  split; [split|].
  - intros p. induction p as [|a p IH]; cbn; [done|]. by right.
  - intros p. induction p as [|a p IH]; intros [|b q] [|c r]; cbn; try done.
    intros [[Hn H1]|[-> H1]] [[Hm H2]|[-> H2]].
    + left. split; [|by transitivity b]. intros ->. apply Hn. by apply (anti_symm ord_le).
    + by left.
    + by left.
    + right. split; [done|]. by apply IH with q.
  - intros p. induction p as [|a p IH]; intros [|b q]; cbn; try done.
    intros [[Hn H1]|[-> H1]] [[Hm H2]|[? H2]]; subst; try done.
    + by destruct Hn; apply (anti_symm ord_le).
    + f_equal. by apply IH.
Qed.

#[export] Instance path_le_total : Total path_le.
Proof.
  intros p. induction p as [|a p IH]; intros [|b q]; cbn; auto.
  destruct (decide (a = b)) as [->|Hn].
  - destruct (IH q); auto.
  - destruct (total ord_le a b); [left|right]; left; auto.
Qed.

#[export] Instance path_ord : OrdId path := {| ord_le := path_le |}.

(** The names of a path that is printed; what the code prints is absolute and
    has no [..]. *)
Definition path_of_text (s : string) : path :=
  omap (λ c, match c with Normal name => Some name | _ => None end) (path_components s).

(** The target of a link is given as an absolute path. *)
Inductive node : Type := FileNode | DirNode | LinkNode (target : path).

#[export] Instance node_eq_dec : EqDecision node.
Proof. solve_decision. Defined.

Abbreviation tree := (gmap path node).

Definition node_at (t : tree) (real : path) : option node :=
  match real with [] => Some DirNode | _ => t !! real end.

(** [base] is resolved, [todo] is what remains; [fuel] bounds the links that
    are followed. *)
Fixpoint resolve (fuel : nat) (t : tree) : path → path → option path :=
  fix walk (base todo : path) {struct todo} : option path :=
    match todo with
    | [] => Some base
    | c :: rest =>
        match t !! (base ++ [c]) with
        | None => None
        | Some DirNode => walk (base ++ [c]) rest
        | Some FileNode => match rest with [] => Some (base ++ [c]) | _ => None end
        | Some (LinkNode target) =>
            match fuel with 0 => None | S fuel => resolve fuel t [] (target ++ rest) end
        end
    end.

(** The kernel follows at most 40 links. *)
Definition canonicalize (t : tree) (p : path) : option path := resolve 40 t [] p.

Definition exists_at (t : tree) (p : path) : bool := is_some (canonicalize t p).

Definition is_dir (t : tree) (p : path) : bool :=
  match canonicalize t p with Some real => bool_decide (node_at t real = Some DirNode) | None => false end.

(** The place of the entry [name] of a directory; the entry is not followed. *)
Definition place (t : tree) (dir : path) (name : string) : option path :=
  real ← canonicalize t dir; Some (real ++ [name]).

Definition is_symlink (t : tree) (dir : path) (name : string) : bool :=
  match real ← place t dir name; t !! real with Some (LinkNode _) => true | _ => false end.

(** The names in a directory. *)
Definition name_in (real p : path) : option string :=
  match reverse p with n :: r => if decide (reverse r = real) then Some n else None | [] => None end.

Definition names_in (t : tree) (real : path) : gset string := list_to_set (omap (name_in real) (elements (dom t))).

(** [remove_dir_all] and [remove_file] of the entry at a place; [kept] is what
    a removal that fails has left. *)
Definition remove_at (t : tree) (real : path) (kept : gset path) : tree :=
  filter (λ kv, ¬ real `prefix_of` kv.1 ∨ kv.1 ∈ kept) t.

(** ** Resolution *)

Lemma resolve_step fuel t base c rest :
  resolve fuel t base (c :: rest) =
  match t !! (base ++ [c]) with
  | None => None
  | Some DirNode => resolve fuel t (base ++ [c]) rest
  | Some FileNode => match rest with [] => Some (base ++ [c]) | _ => None end
  | Some (LinkNode target) => match fuel with 0 => None | S fuel => resolve fuel t [] (target ++ rest) end
  end.
Proof. by destruct fuel. Qed.

Lemma resolve_nil fuel t base : resolve fuel t base [] = Some base.
Proof. by destruct fuel. Qed.

(** What resolves in a part of the tree resolves to the same in the whole. *)
Lemma resolve_mono fuel t t' base todo real :
  t ⊆ t' → resolve fuel t base todo = Some real → resolve fuel t' base todo = Some real.
Proof.
  intros Hsub. revert base todo. induction fuel as [|fuel IH]; intros base todo; revert base;
    induction todo as [|c rest IHt]; intros base; rewrite ?resolve_nil, ?resolve_step; try done;
    (destruct (t !! (base ++ [c])) as [n|] eqn:Hn; [|done]); rewrite (lookup_weaken _ _ _ _ Hn Hsub);
    destruct n; eauto.
Qed.

Lemma canonicalize_mono t t' p real : t ⊆ t' → canonicalize t p = Some real → canonicalize t' p = Some real.
Proof. apply resolve_mono. Qed.

(** A path splits at any directory on it. *)
Lemma resolve_app fuel t base p q real :
  resolve fuel t base (p ++ q) = Some real → q ≠ [] →
  ∃ fuel' mid, resolve fuel t base p = Some mid ∧ resolve fuel' t mid q = Some real.
Proof.
  intros Hr Hq. revert base p Hr. induction fuel as [|fuel IH]; intros base p; revert base;
    induction p as [|c rest IHp]; intros base; cbn [app]; rewrite ?resolve_nil, ?resolve_step; eauto 6;
    destruct (t !! (base ++ [c])) as [[| |target]|]; try done; try apply IHp;
    try (destruct (rest ++ q) eqn:E; [by apply app_nil in E as [_ ->]|done]).
  rewrite (assoc_L app). apply IH.
Qed.

(** Without links below it a resolved directory is extended by names. *)
Lemma resolve_plain fuel t base q real :
  (∀ q', q' `prefix_of` q → ∀ target, t !! (base ++ q') ≠ Some (LinkNode target)) →
  resolve fuel t base q = Some real → real = base ++ q.
Proof.
  revert base. induction q as [|c q IH]; intros base Hl.
  { rewrite resolve_nil, app_nil_r. by intros [= ->]. }
  rewrite resolve_step. destruct (t !! (base ++ [c])) as [[| |target]|] eqn:Hn; [| | |done].
  - destruct q; [|done]. by intros [= <-].
  - intros ->%IH; [by rewrite <- (assoc_L app)|]. intros q' Hq' target. rewrite <- (assoc_L app). apply Hl.
    by apply prefix_cons.
  - destruct (Hl [c] (prefix_cons _ _ _ (prefix_nil _)) target Hn).
Qed.

Lemma canonicalize_below t p q real mid :
  canonicalize t p = Some mid →
  (∀ q', q' `prefix_of` q → ∀ target, t !! (mid ++ q') ≠ Some (LinkNode target)) →
  canonicalize t (p ++ q) = Some real → real = mid ++ q.
Proof.
  intros Hp Hl Hr. destruct q as [|c q]; [rewrite app_nil_r in Hr; rewrite app_nil_r; congruence|].
  destruct (resolve_app _ _ _ _ _ _ Hr) as (fuel' & mid' & Hp' & Hq); [done|].
  unfold canonicalize in Hp. rewrite Hp in Hp'. injection Hp' as <-. by eapply resolve_plain.
Qed.

(** ** Removal *)

Lemma remove_at_subseteq t real kept : remove_at t real kept ⊆ t.
Proof. apply map_filter_subseteq. Qed.

Lemma remove_at_changed t real kept p : remove_at t real kept !! p ≠ t !! p → real `prefix_of` p.
Proof.
  intros Hne. destruct (decide (real `prefix_of` p)) as [|Hn]; [done|]. destruct Hne. unfold remove_at.
  destruct (t !! p) as [n|] eqn:Hp.
  - apply map_lookup_filter_Some. split; [done|]. by left.
  - apply map_lookup_filter_None. by left.
Qed.
