(* ===== verification/Ids.v ===== *)
(** Validated identifiers of [crates/cosmon-core/src/id.rs]: the [simple_id!]
    newtypes, project, molecule and worker identifiers, with the errors their
    constructors answer. *)
From stdpp Require Import prelude gmap strings list.
From Stdlib Require Import Ascii.
From S2P Require Import Prelude Text.

Inductive id_error : Type :=
| IdEmpty (kind : string)
| IdInvalid (kind reason : string).

#[export] Instance id_error_eq_dec : EqDecision id_error.
Proof. solve_decision. Defined.

(** The double quotation mark of the format strings. *)
Definition dquote : string := String (ascii_of_nat 34) EmptyString.
Definition quoted (s : string) : string := dquote +:+ s +:+ dquote.

(** [$name::new] of the [simple_id!] macro. *)
Definition simple_id_new (kind s : string) : result id_error string :=
  if is_empty s then Err (IdEmpty kind) else Ok s.

(** [ProjectId::new] *)
Definition project_id_new (s : string) : result id_error string :=
  if is_empty s then Err (IdEmpty "ProjectId")
  else if negb (contains_char "-" s) then
    Err (IdInvalid "ProjectId" "expected format: <dirname>-<hash4>")
  else Ok s.

(** ** Molecule identifiers *)

Definition is_valid_molecule_prefix (prefix : string) : bool :=
  negb (is_empty prefix) && negb (starts_with_char "-" prefix) &&
  negb (ends_with_char "-" prefix) &&
  all_chars (λ c, is_ascii_alphanumeric c || bool_decide (c = "-"%char)) prefix.

Record molecule_id := MoleculeId {
  mid_raw : string;
  mid_prefix : string;
  mid_date : string;
  mid_suffix : string;
}.

(** The derived order compares the fields in sequence. *)
Definition id_key (id : molecule_id) : string * (string * (string * string)) :=
  (mid_raw id, (mid_prefix id, (mid_date id, mid_suffix id))).

Lemma id_key_inj x y : id_key x = id_key y → x = y.
Proof. destruct x, y. by intros [= -> -> -> ->]. Qed.

Definition molecule_id_eq_dec : EqDecision molecule_id.
Proof. solve_decision. Defined.

#[export] Program Instance molecule_id_ord : OrdId molecule_id :=
  {| ord_eq_dec := molecule_id_eq_dec;
     ord_countable := @inj_countable' _ _ _ _ molecule_id_eq_dec id_key
       (λ '(a, (b, (c, d))), MoleculeId a b c d) _;
     ord_le x y := id_key x ≼ id_key y;
     ord_le_dec x y := decide (id_key x ≼ id_key y) |}.
Next Obligation. by intros []. Qed.
Next Obligation.
  split; [split|].
  - intros x. reflexivity.
  - intros x y z. apply transitivity.
  - intros x y Hxy Hyx. apply id_key_inj. by apply (anti_symm ord_le).
Qed.
Next Obligation. intros x y. apply (total ord_le (id_key x) (id_key y)). Qed.

Definition bad_prefix (prefix : string) : id_error :=
  IdInvalid "MoleculeId"
    ("prefix must be non-empty ASCII alphanumeric with optional internal hyphens, got "
     +:+ quoted prefix).

(** [s.rsplitn(3, '-')]: suffix, date and prefix. *)
Definition rsplit3 (s : string) : option (string * string * string) :=
  match rsplit_once "-" s with
  | None => None
  | Some (rest, suffix) =>
      match rsplit_once "-" rest with
      | None => None
      | Some (prefix, date) => Some (prefix, date, suffix)
      end
  end.

(** The range check on a date of eight digits. *)
Definition date_in_range (date : string) : bool :=
  let year := digits_value 0 (str_take 4 date) in
  let month := digits_value 0 (str_take 2 (str_drop 4 date)) in
  let day := digits_value 0 (str_take 2 (str_drop 6 date)) in
  negb (bool_decide (year < 2000) || negb (bool_decide (1 ≤ month ≤ 12)) ||
        negb (bool_decide (1 ≤ day ≤ 31))).

Definition parse_inner (s : string) : result id_error molecule_id :=
  if is_empty s then Err (IdEmpty "MoleculeId") else
  match rsplit3 s with
  | None => Err (IdInvalid "MoleculeId" ("expected PREFIX-YYYYMMDD-XXXX, got " +:+ quoted s))
  | Some (prefix, date, suffix) =>
      if negb (is_valid_molecule_prefix prefix) then Err (bad_prefix prefix)
      else if negb (bool_decide (String.length date = 8)) || negb (all_chars is_ascii_digit date) then
        Err (IdInvalid "MoleculeId" ("date must be YYYYMMDD (8 digits), got " +:+ quoted date))
      else if negb (date_in_range date) then
        Err (IdInvalid "MoleculeId" ("invalid date: " +:+ date))
      else if is_empty suffix || negb (all_chars is_ascii_alphanumeric suffix) then
        Err (IdInvalid "MoleculeId" ("suffix must be non-empty alphanumeric, got " +:+ quoted suffix))
      else Ok {| mid_raw := s; mid_prefix := prefix; mid_date := date; mid_suffix := suffix |}
  end.

(** [MoleculeId::generate]: [date] is today's date as the clock formats it,
    [suffix] the 16-bit number drawn from the generator. *)
Definition molecule_id_generate (prefix date : string) (suffix : N) :
    result id_error molecule_id :=
  if negb (is_valid_molecule_prefix prefix) then Err (bad_prefix prefix)
  else parse_inner (prefix +:+ "-" +:+ date +:+ "-" +:+ hex4 suffix).

(** ** Worker identifiers *)

(** [WorkerId::name] *)
Definition worker_name (s : string) : string := default s (strip_prefix "ep-" s).

Definition has_ensemble_prefix (s : string) : bool :=
  match strip_prefix "ep-" s with Some _ => true | None => false end.

Definition worker_id_new (s : string) : result id_error string :=
  if is_empty s then Err (IdEmpty "WorkerId") else
  let name := default s (strip_prefix "ep-" s) in
  if is_empty name then
    Err (IdInvalid "WorkerId" "name after 'ep-' prefix cannot be empty")
  else if negb (all_chars (λ c, is_ascii_alphanumeric c || bool_decide (c = "-"%char)) name) then
    Err (IdInvalid "WorkerId"
      ("name must contain only ASCII alphanumeric or hyphens, got " +:+ quoted name))
  else if starts_with_char "-" name || ends_with_char "-" name then
    Err (IdInvalid "WorkerId" ("name must not start or end with hyphen, got " +:+ quoted name))
  else Ok s.

(** ** The grammar of molecule identifiers *)

(** [PREFIX-YYYYMMDD-XXXX] *)
Record id_grammar (id : molecule_id) : Prop := {
  ig_raw : mid_raw id = mid_prefix id +:+ "-" +:+ mid_date id +:+ "-" +:+ mid_suffix id;
  ig_prefix : is_valid_molecule_prefix (mid_prefix id) = true;
  ig_length : String.length (mid_date id) = 8;
  ig_digits : all_chars is_ascii_digit (mid_date id) = true;
  ig_range : date_in_range (mid_date id) = true;
  ig_suffix : mid_suffix id ≠ EmptyString;
  ig_alnum : all_chars is_ascii_alphanumeric (mid_suffix id) = true;
}.

Lemma rsplit3_some s prefix date suffix :
  rsplit3 s = Some (prefix, date, suffix) ↔
    s = prefix +:+ "-" +:+ date +:+ "-" +:+ suffix ∧
    contains_char "-" date = false ∧ contains_char "-" suffix = false.
Proof.
  unfold rsplit3. destruct (rsplit_once "-" s) as [[rest suffix']|] eqn:Hs.
  - apply rsplit_once_some in Hs as [-> Hsuf].
    destruct (rsplit_once "-" rest) as [[prefix' date']|] eqn:Hr.
    + apply rsplit_once_some in Hr as [-> Hd]. split.
      * intros [= <- <- <-]. split; [|done]. by rewrite <- string_app_assoc.
      * intros (Heq & Hd' & Hsuf').
        assert (rsplit_once "-" ((prefix' +:+ String "-" date') +:+ String "-" suffix') =
          Some (prefix +:+ String "-" date, suffix)) as H1.
        { apply rsplit_once_some. split; [|done]. rewrite Heq. by rewrite <- string_app_assoc. }
        assert (rsplit_once "-" ((prefix' +:+ String "-" date') +:+ String "-" suffix') =
          Some (prefix' +:+ String "-" date', suffix')) as H2 by by apply rsplit_once_some.
        rewrite H1 in H2. injection H2 as H2 ->.
        assert (Some (prefix, date) = Some (prefix', date')) as [= -> ->]; [|done].
        transitivity (rsplit_once "-" (prefix +:+ String "-" date)).
        -- symmetry. by apply rsplit_once_some.
        -- rewrite H2. by apply rsplit_once_some.
    + split; [done|]. intros (Heq & Hd' & Hsuf').
      assert (Some (rest, suffix') = Some (prefix +:+ String "-" date, suffix)) as [= -> ->].
      { transitivity (rsplit_once "-" (rest +:+ String "-" suffix')).
        - symmetry. by apply rsplit_once_some.
        - rewrite Heq. apply rsplit_once_some. by rewrite <- string_app_assoc. }
      assert (rsplit_once "-" (prefix +:+ String "-" date) = Some (prefix, date)) as H1
        by by apply rsplit_once_some. congruence.
  - apply rsplit_once_none in Hs. split; [done|]. intros (-> & _).
    rewrite contains_char_app in Hs. apply orb_false_iff in Hs as [_ Hs].
    change ("-" +:+ ?s) with (String "-" s) in Hs. simpl in Hs. done.
Qed.

Lemma digits_no_dash s : all_chars is_ascii_digit s = true → contains_char "-" s = false.
Proof. by apply all_chars_not_contains. Qed.

Lemma alnum_no_dash s : all_chars is_ascii_alphanumeric s = true → contains_char "-" s = false.
Proof. by apply all_chars_not_contains. Qed.

Lemma is_empty_false s : is_empty s = false ↔ s ≠ EmptyString.
Proof. apply bool_decide_eq_false. Qed.

Lemma parse_inner_grammar s id :
  parse_inner s = Ok id ↔ mid_raw id = s ∧ id_grammar id.
Proof.
  unfold parse_inner. split.
  - destruct (is_empty s); [done|].
    destruct (rsplit3 s) as [[[prefix date] suffix]|] eqn:Hs; [|done].
    apply rsplit3_some in Hs as (Hs & _).
    destruct (is_valid_molecule_prefix prefix) eqn:Hp; [|done]. simpl.
    destruct (bool_decide _) eqn:Hl; [|done]. destruct (all_chars _ date) eqn:Hd; [|done]. simpl.
    destruct (date_in_range date) eqn:Hr; [|done]. simpl.
    destruct (is_empty suffix) eqn:He; [done|]. destruct (all_chars _ suffix) eqn:Hx; [|done].
    intros [= <-]. split; [done|]. apply bool_decide_eq_true in Hl.
    apply is_empty_false in He. by split.
  - intros [<- [Hraw Hp Hl Hd Hr He Hx]].
    assert (rsplit3 (mid_raw id) = Some (mid_prefix id, mid_date id, mid_suffix id)) as Hsp.
    { apply rsplit3_some. split_and!; [done|by apply digits_no_dash|by apply alnum_no_dash]. }
    assert (is_empty (mid_raw id) = false) as ->.
    { apply is_empty_false. intros Hnil. by rewrite Hnil in Hsp. }
    rewrite Hsp, Hp, Hd, Hr, Hx, bool_decide_eq_true_2 by done. simpl.
    rewrite (proj2 (is_empty_false _) He). by destruct id.
Qed.

(** Parsing recognises exactly the grammar [PREFIX-YYYYMMDD-XXXX] and the
    components it answers are the only decomposition of the string; parsing
    the printed form of a parsed identifier gives it back. *)
Theorem molecule_id_roundtrip s id :
  (parse_inner s = Ok id ↔ mid_raw id = s ∧ id_grammar id) ∧
  (parse_inner s = Ok id → parse_inner (mid_raw id) = Ok id).
Proof.
  split; [apply parse_inner_grammar|]. intros Hid.
  by destruct (proj1 (parse_inner_grammar s id) Hid) as [-> _].
Qed.

Lemma hex4_not_empty x : hex4 x ≠ EmptyString.
Proof. done. Qed.

(** [MoleculeId::generate] refuses exactly the invalid prefixes; on a
    calendar date it answers an identifier with the prefix and date asked
    for, and two draws collide only if the 16-bit suffixes are equal. *)
Theorem generate_spec prefix date x :
  String.length date = 8 → all_chars is_ascii_digit date = true → date_in_range date = true →
  (is_valid_molecule_prefix prefix = false →
     molecule_id_generate prefix date x = Err (bad_prefix prefix)) ∧
  (is_valid_molecule_prefix prefix = true → (x < 65536)%N →
     ∃ id, molecule_id_generate prefix date x = Ok id ∧ mid_prefix id = prefix ∧
       mid_date id = date ∧ mid_suffix id = hex4 x ∧
       ∀ y, (y < 65536)%N → molecule_id_generate prefix date y = Ok id → x = y).
Proof.
  intros Hl Hd Hr. unfold molecule_id_generate. split; intros Hp; rewrite Hp; [done|]. simpl.
  intros Hx. set (id y := {| mid_raw := prefix +:+ "-" +:+ date +:+ "-" +:+ hex4 y;
    mid_prefix := prefix; mid_date := date; mid_suffix := hex4 y |}).
  assert (∀ y, parse_inner (prefix +:+ "-" +:+ date +:+ "-" +:+ hex4 y) = Ok (id y)) as Hok.
  { intros y. apply parse_inner_grammar. split; [done|].
    split; unfold id; cbn [mid_raw mid_prefix mid_date mid_suffix];
      auto using hex4_not_empty, hex4_alphanumeric. }
  exists (id x). split_and!; [apply Hok|done..|].
  intros y Hy. rewrite Hok. intros Heq.
  assert (id y = id x) as Hid by congruence.
  apply hex4_inj; [done..|]. by apply (f_equal mid_suffix) in Hid.
Qed.

Lemma dash_or_alnum_split name :
  all_chars (λ c, is_ascii_alphanumeric c || bool_decide (c = "-"%char)) name = true ∧
  name ≠ EmptyString ∧ starts_with_char "-" name = false ∧ ends_with_char "-" name = false ↔
  is_valid_molecule_prefix name = true.
Proof.
  unfold is_valid_molecule_prefix. rewrite !andb_true_iff, !negb_true_iff, is_empty_false. tauto.
Qed.

(** A worker identifier is accepted, unchanged, exactly when what is left
    after an optional [ep-] is a valid hyphenated name. *)
Theorem worker_id_accepts s :
  (worker_id_new s = Ok s ↔ is_valid_molecule_prefix (worker_name s) = true) ∧
  (∀ t, worker_id_new s = Ok t → t = s).
Proof.
  unfold worker_id_new, worker_name. rewrite <- dash_or_alnum_split.
  destruct (is_empty s) eqn:Hs.
  { apply bool_decide_eq_true in Hs as ->. split; [|done]. split; [done|]. by intros (_ & ? & _). }
  set (name := default s (strip_prefix "ep-" s)).
  destruct (is_empty name) eqn:Hn.
  { apply bool_decide_eq_true in Hn. split; [|done]. split; [done|]. by intros (_ & ? & _). }
  apply is_empty_false in Hn.
  destruct (all_chars _ name); simpl; [|naive_solver].
  destruct (starts_with_char "-" name), (ends_with_char "-" name); naive_solver.
Qed.

(** ** At concrete inputs *)

Lemma molecule_id_roundtrip_witness :
  ∃ id, parse_inner "cs-task-20260418-a1f0" = Ok id ∧ mid_prefix id = "cs-task" ∧
        parse_inner (mid_raw id) = Ok id.
Proof.
  eexists. split_and!; [by vm_compute|done|].
  apply (molecule_id_roundtrip "cs-task-20260418-a1f0"). by vm_compute.
Defined.

Lemma generate_spec_witness :
  ∃ id, molecule_id_generate "task" "20260418" 41456 = Ok id ∧ mid_suffix id = "a1f0".
Proof.
  destruct (proj2 (generate_spec "task" "20260418" 41456 eq_refl eq_refl eq_refl) eq_refl eq_refl)
    as (id & Hid & _ & _ & Hsuf & _).
  exists id. split; [exact Hid|]. rewrite Hsuf. by vm_compute.
Defined.

Lemma worker_id_accepts_witness : worker_id_new "ep-core-1" = Ok "ep-core-1".
Proof. apply (proj1 (worker_id_accepts "ep-core-1")). by vm_compute. Defined.
