(* ===== verification/Molecule.v ===== *)
(** The molecule lifecycle of [crates/cosmon-core/src/molecule.rs]: the
    persisted status and its phase, their textual form, the collapse causes,
    and the typestate machine [Molecule<S>], whose operations read the clock
    through an explicit state. *)
From stdpp Require Import prelude gmap strings list pretty relations sorting.
From S2P Require Import Prelude Text Ids.

(** [ParseEnumError] *)
Record parse_enum_error := ParseEnumError { pe_type_name : string; pe_value : string }.

(** ** Status *)

Module MoleculeStatus.
Inductive molecule_status : Set :=
| Pending | Queued | Running | Frozen | Starved | Completed | Collapsed.
End MoleculeStatus.
Abbreviation molecule_status := MoleculeStatus.molecule_status.

Module Phase.
Inductive phase : Set := Live | Waiting | Blocked | Parked | Failed | Done.
End Phase.

#[export] Instance molecule_status_eq_dec : EqDecision molecule_status.
Proof. solve_decision. Defined.
#[export] Instance phase_eq_dec : EqDecision Phase.phase.
Proof. solve_decision. Defined.

Section Status.
Import MoleculeStatus.

Definition status_all : list molecule_status :=
  [Pending; Queued; Running; Frozen; Starved; Completed; Collapsed].

Definition ordinal (s : molecule_status) : nat :=
  match s with
  | Pending => 0 | Queued => 1 | Running => 2 | Frozen => 3 | Starved => 4
  | Completed => 5 | Collapsed => 6
  end.

Definition is_evolvable (s : molecule_status) : bool :=
  match s with Running => true | _ => false end.

Definition is_terminal (s : molecule_status) : bool :=
  match s with Completed | Collapsed => true | _ => false end.

Definition satisfies_blocked_by (s : molecule_status) : bool :=
  match s with Completed => true | _ => false end.

Definition is_alive (s : molecule_status) : bool := negb (is_terminal s).

Definition can_transition_to (s to : molecule_status) : bool :=
  match s, to with
  | (Frozen | Starved), Running => true
  | (Pending | Running | Starved), Collapsed => true
  | Running, (Completed | Frozen | Starved) => true
  | _, _ => false
  end.

Definition phase_of (s : molecule_status) : Phase.phase :=
  match s with
  | Running => Phase.Live
  | Pending | Queued => Phase.Waiting
  | Starved => Phase.Blocked
  | Frozen => Phase.Parked
  | Collapsed => Phase.Failed
  | Completed => Phase.Done
  end.

(** [stuck_at] is a timestamp. *)
Definition is_stuck (s : molecule_status) (stuck_at : option Z) : bool :=
  match s, stuck_at with Frozen, Some _ => true | _, _ => false end.

Definition status_as_str (s : molecule_status) : string :=
  match s with
  | Pending => "pending" | Queued => "queued" | Running => "running"
  | Frozen => "frozen" | Starved => "starved" | Completed => "completed"
  | Collapsed => "collapsed"
  end.

Definition status_from_str (s : string) : result parse_enum_error molecule_status :=
  if decide (s = "pending") then Ok Pending
  else if decide (s = "queued") then Ok Queued
  else if decide (s = "running" ∨ s = "active") then Ok Running
  else if decide (s = "frozen") then Ok Frozen
  else if decide (s = "starved") then Ok Starved
  else if decide (s = "completed") then Ok Completed
  else if decide (s = "collapsed") then Ok Collapsed
  else Err (ParseEnumError "MoleculeStatus" s).

End Status.

Definition phase_all : list Phase.phase :=
  [Phase.Live; Phase.Waiting; Phase.Blocked; Phase.Parked; Phase.Failed; Phase.Done].

Definition phase_is_terminal (p : Phase.phase) : bool :=
  match p with Phase.Failed | Phase.Done => true | _ => false end.

Definition phase_as_str (p : Phase.phase) : string :=
  match p with
  | Phase.Live => "live" | Phase.Waiting => "waiting" | Phase.Blocked => "blocked"
  | Phase.Parked => "parked" | Phase.Failed => "failed" | Phase.Done => "done"
  end.

(** ** Collapse causes *)

Inductive collapse_cause : Set :=
| RateLimit (account kind_quota : option string)
| InferenceStall
| Manual
| ProcessDeath
| Unknown.

Definition cause_as_str (c : collapse_cause) : string :=
  match c with
  | RateLimit _ _ => "rate_limit"
  | InferenceStall => "inference_stall"
  | Manual => "manual"
  | ProcessDeath => "process_death"
  | Unknown => "unknown"
  end.

Definition is_rate_limit (c : collapse_cause) : bool :=
  match c with RateLimit _ _ => true | _ => false end.

Definition cause_from_str (s : string) : result parse_enum_error collapse_cause :=
  if decide (s = "rate_limit" ∨ s = "ratelimit") then Ok (RateLimit None None)
  else if decide (s = "inference_stall" ∨ s = "inferencestall") then Ok InferenceStall
  else if decide (s = "manual") then Ok Manual
  else if decide (s = "process_death" ∨ s = "processdeath") then Ok ProcessDeath
  else if decide (s = "unknown") then Ok Unknown
  else Err (ParseEnumError "CollapseCause" s).

(** ** The typestate machine *)

Record merge_evidence := MergeEvidence { me_commit : string; me_merged_at : Z }.

(** The state parameters of [Molecule<S>]. *)
Inductive st_pending : Set := StPending.
Inductive st_active : Set := StActive.
Inductive st_frozen : Set := StFrozen.
Inductive st_completed : Set := StCompleted.
Record st_merged := StMerged { evidence : merge_evidence }.
Record st_collapsed := StCollapsed { reason : string; step : nat }.

(** [trait MoleculeState] *)
Class MoleculeState (S : Type) := state_status : molecule_status.
#[export] Instance pending_state : MoleculeState st_pending := MoleculeStatus.Pending.
#[export] Instance active_state : MoleculeState st_active := MoleculeStatus.Running.
#[export] Instance frozen_state : MoleculeState st_frozen := MoleculeStatus.Frozen.
#[export] Instance completed_state : MoleculeState st_completed := MoleculeStatus.Completed.
#[export] Instance merged_state : MoleculeState st_merged := MoleculeStatus.Completed.
#[export] Instance collapsed_state : MoleculeState st_collapsed := MoleculeStatus.Collapsed.

Record log_entry := LogEntry { log_timestamp : Z; log_message : string }.

Record molecule (S : Type) := MkMolecule {
  mol_id : molecule_id;
  formula_id : string;
  variables : gmap string string;
  assigned_worker : option string;
  created_at : Z;
  updated_at : Z;
  mol_log : list log_entry;
  links : list string;
  total_steps : nat;
  current_step : nat;
  completed_steps : list string;
  mol_state : S;
}.
Arguments MkMolecule {S}.
Arguments mol_id {S}.
Arguments formula_id {S}.
Arguments variables {S}.
Arguments assigned_worker {S}.
Arguments created_at {S}.
Arguments updated_at {S}.
Arguments mol_log {S}.
Arguments links {S}.
Arguments total_steps {S}.
Arguments current_step {S}.
Arguments completed_steps {S}.
Arguments mol_state {S}.

(** [Molecule::status] *)
Definition mol_status {S} `{!MoleculeState S} (m : molecule S) : molecule_status :=
  state_status (S := S).

Inductive evolve_outcome :=
| EvolveActive (m : molecule st_active)
| EvolveCompleted (m : molecule st_completed).

Section Ops.
(** [utc i] is the [i]-th reading of [Utc::now()]. *)
Variable utc : nat → Z.

(** Code that reads the clock: the number of readings so far is the state. *)
Definition clocked (A : Type) : Type := nat → A * nat.
#[local] Instance clocked_ret : MRet clocked := λ A a i, (a, i).
#[local] Instance clocked_bind : MBind clocked := λ A B f m i, let '(a, j) := m i in f a j.

Definition utc_now : clocked Z := λ i, (utc i, S i).

Definition push_log {S} (m : molecule S) (message : string) : clocked (molecule S) :=
  now ← utc_now;
  mret {| mol_id := mol_id m; formula_id := formula_id m; variables := variables m;
          assigned_worker := assigned_worker m; created_at := created_at m;
          updated_at := updated_at m; mol_log := mol_log m ++ [LogEntry now message];
          links := links m; total_steps := total_steps m; current_step := current_step m;
          completed_steps := completed_steps m; mol_state := mol_state m |}.

Definition transition_to {S T} (m : molecule S) (new_state : T) : clocked (molecule T) :=
  now ← utc_now;
  mret {| mol_id := mol_id m; formula_id := formula_id m; variables := variables m;
          assigned_worker := assigned_worker m; created_at := created_at m;
          updated_at := now; mol_log := mol_log m; links := links m;
          total_steps := total_steps m; current_step := current_step m;
          completed_steps := completed_steps m; mol_state := new_state |}.

(** [Molecule<Pending>::new]: [None] where the assertion panics. *)
Definition mol_new (id : molecule_id) (f : string) (n : nat) :
    clocked (option (molecule st_pending)) :=
  if decide (0 < n) then
    now ← utc_now;
    m ← push_log
      {| mol_id := id; formula_id := f; variables := ∅; assigned_worker := None;
         created_at := now; updated_at := now; mol_log := []; links := [];
         total_steps := n; current_step := 0; completed_steps := [];
         mol_state := StPending |} "molecule created";
    mret (Some m)
  else mret None.

Definition set_variable (m : molecule st_pending) (k v : string) : molecule st_pending :=
  {| mol_id := mol_id m; formula_id := formula_id m; variables := <[k := v]> (variables m);
     assigned_worker := assigned_worker m; created_at := created_at m;
     updated_at := updated_at m; mol_log := mol_log m; links := links m;
     total_steps := total_steps m; current_step := current_step m;
     completed_steps := completed_steps m; mol_state := mol_state m |}.

Definition entangle (m : molecule st_pending) (link : string) : molecule st_pending :=
  {| mol_id := mol_id m; formula_id := formula_id m; variables := variables m;
     assigned_worker := assigned_worker m; created_at := created_at m;
     updated_at := updated_at m; mol_log := mol_log m; links := links m ++ [link];
     total_steps := total_steps m; current_step := current_step m;
     completed_steps := completed_steps m; mol_state := mol_state m |}.

Definition tackle (m : molecule st_pending) (worker : string) : clocked (molecule st_active) :=
  let m :=
    {| mol_id := mol_id m; formula_id := formula_id m; variables := variables m;
       assigned_worker := Some worker; created_at := created_at m;
       updated_at := updated_at m; mol_log := mol_log m; links := links m;
       total_steps := total_steps m; current_step := current_step m;
       completed_steps := completed_steps m; mol_state := mol_state m |} in
  m ← push_log m "tackled";
  transition_to m StActive.

Definition evolve (m : molecule st_active) (step_id : string) : clocked evolve_outcome :=
  let m :=
    {| mol_id := mol_id m; formula_id := formula_id m; variables := variables m;
       assigned_worker := assigned_worker m; created_at := created_at m;
       updated_at := updated_at m; mol_log := mol_log m; links := links m;
       total_steps := total_steps m; current_step := current_step m;
       completed_steps := completed_steps m ++ [step_id]; mol_state := mol_state m |} in
  m ← push_log m ("completed step " +:+ pretty (current_step m));
  if decide (total_steps m ≤ current_step m + 1) then
    m ← push_log m "all steps completed";
    m ← transition_to m StCompleted;
    mret (EvolveCompleted m)
  else
    now ← utc_now;
    let m :=
      {| mol_id := mol_id m; formula_id := formula_id m; variables := variables m;
         assigned_worker := assigned_worker m; created_at := created_at m;
         updated_at := now; mol_log := mol_log m; links := links m;
         total_steps := total_steps m; current_step := current_step m + 1;
         completed_steps := completed_steps m; mol_state := mol_state m |} in
    m ← push_log m ("evolved to step " +:+ pretty (current_step m));
    mret (EvolveActive m).

Definition collapse (m : molecule st_active) (why : string) : clocked (molecule st_collapsed) :=
  let at_step := current_step m in
  m ← push_log m ("collapsed at step " +:+ pretty at_step +:+ ": " +:+ why);
  transition_to m {| reason := why; step := at_step |}.

Definition freeze (m : molecule st_active) : clocked (molecule st_frozen) :=
  m ← push_log m ("frozen at step " +:+ pretty (current_step m));
  transition_to m StFrozen.

Definition thaw (m : molecule st_frozen) : clocked (molecule st_active) :=
  m ← push_log m ("thawed at step " +:+ pretty (current_step m));
  transition_to m StActive.

Definition mol_done (m : molecule st_completed) (ev : merge_evidence) :
    clocked (molecule st_merged) :=
  m ← push_log m ("merged via " +:+ me_commit ev);
  transition_to m {| evidence := ev |}.
End Ops.

(** ** The machine as a whole *)

Inductive any_molecule :=
| AnyPending (m : molecule st_pending)
| AnyActive (m : molecule st_active)
| AnyFrozen (m : molecule st_frozen)
| AnyCompleted (m : molecule st_completed)
| AnyMerged (m : molecule st_merged)
| AnyCollapsed (m : molecule st_collapsed).

Definition any_status (a : any_molecule) : molecule_status :=
  match a with
  | AnyPending m => mol_status m
  | AnyActive m => mol_status m
  | AnyFrozen m => mol_status m
  | AnyCompleted m => mol_status m
  | AnyMerged m => mol_status m
  | AnyCollapsed m => mol_status m
  end.

Inductive mol_op :=
| OpSetVariable (k v : string)
| OpEntangle (link : string)
| OpTackle (worker : string)
| OpEvolve (step_id : string)
| OpCollapse (why : string)
| OpFreeze
| OpThaw
| OpMerge (ev : merge_evidence).

Section Machine.
Variable utc : nat → Z.

(** One method call: [None] where the call does not type-check. *)
Definition apply_op (a : any_molecule) (op : mol_op) (i : nat) : option (any_molecule * nat) :=
  match a, op with
  | AnyPending m, OpSetVariable k v => Some (AnyPending (set_variable m k v), i)
  | AnyPending m, OpEntangle l => Some (AnyPending (entangle m l), i)
  | AnyPending m, OpTackle w => let '(m, j) := tackle utc m w i in Some (AnyActive m, j)
  | AnyActive m, OpEvolve s =>
      match evolve utc m s i with
      | (EvolveActive m, j) => Some (AnyActive m, j)
      | (EvolveCompleted m, j) => Some (AnyCompleted m, j)
      end
  | AnyActive m, OpCollapse r => let '(m, j) := collapse utc m r i in Some (AnyCollapsed m, j)
  | AnyActive m, OpFreeze => let '(m, j) := freeze utc m i in Some (AnyFrozen m, j)
  | AnyFrozen m, OpThaw => let '(m, j) := thaw utc m i in Some (AnyActive m, j)
  | AnyCompleted m, OpMerge ev => let '(m, j) := mol_done utc m ev i in Some (AnyMerged m, j)
  | _, _ => None
  end.

Fixpoint apply_ops (a : any_molecule) (ops : list mol_op) (i : nat) :
    option (any_molecule * nat) :=
  match ops with
  | [] => Some (a, i)
  | op :: ops =>
      match apply_op a op i with
      | Some (a, j) => apply_ops a ops j
      | None => None
      end
  end.

(** The log is chronological, its entries are stamped by readings before [i]. *)
Definition log_ok (l : list log_entry) (i : nat) : Prop :=
  StronglySorted Z.le (log_timestamp <$> l) ∧
  (∀ e, e ∈ l → ∃ k, k < i ∧ log_timestamp e = utc k) ∧ l ≠ [].

(** Steps are counted by [current_step] until the last one completes. *)
Definition steps_ok (a : any_molecule) : Prop :=
  match a with
  | AnyPending m => current_step m = 0 ∧ completed_steps m = [] ∧ 0 < total_steps m
  | AnyActive m => length (completed_steps m) = current_step m ∧ current_step m < total_steps m
  | AnyFrozen m => length (completed_steps m) = current_step m ∧ current_step m < total_steps m
  | AnyCompleted m => length (completed_steps m) = total_steps m ∧ S (current_step m) = total_steps m
  | AnyMerged m => length (completed_steps m) = total_steps m ∧ S (current_step m) = total_steps m
  | AnyCollapsed m =>
      length (completed_steps m) = current_step m ∧ current_step m < total_steps m ∧
      step (mol_state m) = current_step m
  end.

(** What never changes: identity, formula, number of steps, creation date. *)
Definition identity {S} (m : molecule S) : molecule_id * string * nat * Z :=
  (mol_id m, formula_id m, total_steps m, created_at m).

Definition any_identity (a : any_molecule) : molecule_id * string * nat * Z :=
  match a with
  | AnyPending m => identity m | AnyActive m => identity m | AnyFrozen m => identity m
  | AnyCompleted m => identity m | AnyMerged m => identity m | AnyCollapsed m => identity m
  end.

Definition any_log (a : any_molecule) : list log_entry :=
  match a with
  | AnyPending m => mol_log m | AnyActive m => mol_log m | AnyFrozen m => mol_log m
  | AnyCompleted m => mol_log m | AnyMerged m => mol_log m | AnyCollapsed m => mol_log m
  end.

Hypothesis utc_mono : ∀ i j, i ≤ j → (utc i ≤ utc j)%Z.

Lemma log_ok_snoc l i k j msg :
  log_ok l i → i ≤ k → k < j → log_ok (l ++ [LogEntry (utc k) msg]) j.
Proof.
  intros (Hs & Hlt & Hne) Hik Hkj. unfold log_ok. split_and!; [..|by destruct l].
  - rewrite fmap_app. apply StronglySorted_snoc; [done|]. simpl.
    apply Forall_forall. intros t (e & -> & He)%list_elem_of_fmap.
    destruct (Hlt e He) as (k' & Hk & ->). apply utc_mono. lia.
  - intros e [He| ->%list_elem_of_singleton]%elem_of_app; simpl; [|by exists k].
    destruct (Hlt e He) as (k' & Hk & ?). exists k'. split; [lia|done].
Qed.

Lemma evolve_eq m s i :
  evolve utc m s i =
    let completed := completed_steps m ++ [s] in
    let log := mol_log m ++ [LogEntry (utc i) ("completed step " +:+ pretty (current_step m))] in
    if decide (total_steps m ≤ current_step m + 1) then
      (EvolveCompleted
         (MkMolecule (mol_id m) (formula_id m) (variables m) (assigned_worker m) (created_at m)
            (utc (S (S i))) (log ++ [LogEntry (utc (S i)) "all steps completed"]) (links m)
            (total_steps m) (current_step m) completed StCompleted), S (S (S i)))
    else
      (EvolveActive
         (MkMolecule (mol_id m) (formula_id m) (variables m) (assigned_worker m) (created_at m)
            (utc (S i)) (log ++ [LogEntry (utc (S (S i)))
               ("evolved to step " +:+ pretty (current_step m + 1))]) (links m)
            (total_steps m) (current_step m + 1) completed (mol_state m)), S (S (S i))).
Proof.
  unfold evolve, push_log, transition_to, utc_now, mbind, clocked_bind, mret, clocked_ret.
  cbn [mol_id formula_id variables assigned_worker created_at updated_at mol_log links
    total_steps current_step completed_steps mol_state].
  by case_decide.
Qed.

(** Every operation keeps the steps counted, the log chronological and the
    identity fixed. *)
Lemma apply_op_inv a op i a' j :
  apply_op a op i = Some (a', j) → steps_ok a → log_ok (any_log a) i →
  steps_ok a' ∧ log_ok (any_log a') j ∧ any_identity a' = any_identity a ∧ i ≤ j.
Proof.
  intros Hop Hsteps Hlog. destruct a as [m|m|m|m|m|m], op; simpl in Hop; try done;
    try (rewrite evolve_eq in Hop; simpl in Hop; case_decide);
    simplify_eq; simpl in *; rewrite ?length_app; simpl; destruct_and?; split_and!;
    try first [done|lia|by eauto 10 using log_ok_snoc with lia].
  match goal with H : completed_steps m = [] |- _ => by rewrite H end.
Qed.
End Machine.

Section MoleculeTheorems.
Implicit Types (utc : nat → Z) (a : any_molecule).

Lemma mol_new_eq utc id f n i :
  mol_new utc id f n i =
    if decide (0 < n) then
      (Some (MkMolecule id f ∅ None (utc i) (utc i) [LogEntry (utc (S i)) "molecule created"]
         [] n 0 [] StPending), S (S i))
    else (None, i).
Proof. unfold mol_new. by case_decide. Qed.

Lemma apply_ops_inv utc a ops i a' j :
  (∀ i j, i ≤ j → (utc i ≤ utc j)%Z) →
  apply_ops utc a ops i = Some (a', j) → steps_ok a → log_ok utc (any_log a) i →
  steps_ok a' ∧ log_ok utc (any_log a') j ∧ any_identity a' = any_identity a.
Proof.
  intros Hmono. revert a i. induction ops as [|op ops IH]; intros a i; simpl.
  { by intros [= <- <-]. }
  destruct (apply_op utc a op i) as [[a1 i1]|] eqn:Hop; [|done]. intros Hops Hs Hl.
  destruct (apply_op_inv utc Hmono _ _ _ _ _ Hop Hs Hl) as (Hs1 & Hl1 & Hid & _).
  destruct (IH _ _ Hops Hs1 Hl1) as (? & ? & ->). done.
Qed.

(** C21. Whatever methods are called on a molecule, its step counter stays
    below the number of steps and equals the number of completed steps until
    the last one, a completed molecule has recorded exactly [total_steps]
    steps, its log is never empty and chronological under a monotone clock,
    and its identity, formula and size never change. *)
Theorem molecule_run_inv utc id f n i m0 i0 ops a j :
  (∀ i j, i ≤ j → (utc i ≤ utc j)%Z) →
  mol_new utc id f n i = (Some m0, i0) → apply_ops utc (AnyPending m0) ops i0 = Some (a, j) →
  steps_ok a ∧ log_ok utc (any_log a) j ∧ any_identity a = (id, f, n, utc i).
Proof.
  intros Hmono Hnew Hops.
  rewrite mol_new_eq in Hnew. case_decide as Hn; simplify_eq.
  eapply apply_ops_inv in Hops as (? & ? & ?); [done..|].
  split_and!; [by repeat constructor| |done].
  intros e ->%list_elem_of_singleton. exists (S i). simpl. split; [lia|done].
Qed.

(** A method call changes the status only along [can_transition_to] or
    by tackling a pending molecule; collapsed and merged molecules accept no
    call, and a terminal status is never left. *)
Theorem molecule_transitions utc a op i a' j :
  apply_op utc a op i = Some (a', j) →
  (any_status a' = any_status a ∨ can_transition_to (any_status a) (any_status a') ∨
   (any_status a = MoleculeStatus.Pending ∧ any_status a' = MoleculeStatus.Running ∧
    ∃ w, op = OpTackle w)) ∧
  (is_terminal (any_status a) → any_status a' = any_status a) ∧
  (∀ m, a ≠ AnyCollapsed m) ∧ (∀ m, a ≠ AnyMerged m).
Proof.
  intros Hop. destruct a as [m|m|m|m|m|m], op; simpl in Hop; try done;
    try (destruct (evolve _ _ _ _) as [[]]); simplify_eq; simpl; split_and!; try done;
    try (by left); try (by right; left); right; right; eauto.
Qed.

Lemma evolves_complete utc steps a m i :
  a = AnyActive m → steps_ok a → steps ≠ [] →
  length steps = total_steps m - current_step m →
  ∃ m' j, apply_ops utc a (map OpEvolve steps) i = Some (AnyCompleted m', j) ∧
    completed_steps m' = completed_steps m ++ steps.
Proof.
  intros -> Hs. revert m i Hs. induction steps as [|s steps IH]; intros m i [Hlen Hlt] Hne Hl;
    [done|]. simpl in *. rewrite evolve_eq. simpl. case_decide as Hd.
  - destruct steps; [|simpl in *; lia]. simpl. eauto.
  - match goal with |- context [apply_ops utc (AnyActive ?m1) _ ?i1] =>
      destruct (IH m1 i1) as (m' & j & Hops & Hc) end.
    + simpl. rewrite length_app. simpl. lia.
    + intros ->. simpl in *. lia.
    + simpl. lia.
    + exists m', j. split; [exact Hops|]. rewrite Hc. simpl. by rewrite <- app_assoc.
Qed.

(** A molecule of [n] steps that is tackled and evolved [n] times is
    completed, and remembers the [n] steps in order. *)
Theorem molecule_completes utc id f w steps i :
  steps ≠ [] →
  ∃ m0 i0 m j, mol_new utc id f (length steps) i = (Some m0, i0) ∧
    apply_ops utc (AnyPending m0) (OpTackle w :: map OpEvolve steps) i0 = Some (AnyCompleted m, j) ∧
    completed_steps m = steps ∧ any_status (AnyCompleted m) = MoleculeStatus.Completed.
Proof.
  intros Hne. rewrite mol_new_eq, decide_True by (destruct steps; [done|simpl; lia]).
  eexists _, _. set (m0 := MkMolecule _ _ _ _ _ _ _ _ _ _ _ _).
  destruct (evolves_complete utc steps _ (tackle utc m0 w (S (S i))).1
    (tackle utc m0 w (S (S i))).2 eq_refl) as (m' & j & Hops & Hc).
  - split; [done|]. simpl. destruct steps; [done|simpl; lia].
  - done.
  - simpl. lia.
  - exists m', j. split_and!; [reflexivity|exact Hops|exact Hc|done].
Qed.

(** Status changes of the persisted molecule: the declared transitions and
    the typestate's [tackle]. *)
Definition status_step (s s' : molecule_status) : Prop :=
  can_transition_to s s' ∨ (s = MoleculeStatus.Pending ∧ s' = MoleculeStatus.Running).

(** From [Pending] every status but [Queued] is reachable, [Queued] can
    neither be entered nor left, and the terminal statuses, which are those
    of the terminal phases, are exactly the other ones that cannot be left. *)
Theorem status_reachable s :
  (rtc status_step MoleculeStatus.Pending s ↔ s ≠ MoleculeStatus.Queued) ∧
  ((∀ s', ¬ status_step s s') ↔ is_terminal s ∨ s = MoleculeStatus.Queued) ∧
  is_terminal s = phase_is_terminal (phase_of s).
Proof.
  assert (∀ s1 s2, rtc status_step s1 s2 → s1 ≠ MoleculeStatus.Queued → s2 ≠ MoleculeStatus.Queued)
    as Hq.
  { induction 1 as [|s1 s2 s3 Hs _ IH]; [done|]. intros _. apply IH.
    destruct Hs as [Hs|[_ ->]]; [by destruct s1, s2|done]. }
  assert (status_step MoleculeStatus.Pending MoleculeStatus.Running) as Hrun by by right.
  assert (∀ s', can_transition_to MoleculeStatus.Running s' →
    rtc status_step MoleculeStatus.Pending s') as Hreach.
  { intros s' Hs'. eapply rtc_l; [exact Hrun|]. apply rtc_once. by left. }
  split_and!.
  - split; [intros Hs; by apply (Hq _ _ Hs)|]. intros Hs.
    destruct s; [reflexivity|done|by apply rtc_once|by apply Hreach..].
  - split.
    + intros Hno. destruct s; simpl; auto; exfalso.
      * by apply (Hno MoleculeStatus.Running).
      * apply (Hno MoleculeStatus.Completed). by left.
      * apply (Hno MoleculeStatus.Running). by left.
      * apply (Hno MoleculeStatus.Running). by left.
    + intros Hs s' [Hs'|[-> ->]]; [|by destruct Hs].
      destruct Hs as [Hs| ->]; [by destruct s, s'|by destruct s'].
  - by destruct s.
Qed.

(** The textual form of a status: parsing accepts exactly the printed
    forms and the legacy name [active] of [Running]; collapse causes survive
    printing and parsing up to the payload of [RateLimit]. *)
Theorem status_text_roundtrip s st c :
  (status_from_str s = Ok st ↔
     s = status_as_str st ∨ (s = "active" ∧ st = MoleculeStatus.Running)) ∧
  ((∀ st', status_from_str s ≠ Ok st') → status_from_str s = Err (ParseEnumError "MoleculeStatus" s)) ∧
  cause_from_str (cause_as_str c) =
    Ok (match c with RateLimit _ _ => RateLimit None None | _ => c end).
Proof.
  split_and!.
  - unfold status_from_str. repeat case_decide; subst; destruct st; naive_solver.
  - unfold status_from_str. repeat case_decide; naive_solver.
  - by destruct c.
Qed.
End MoleculeTheorems.

(** ** At concrete molecules *)

Definition sample_id : molecule_id := MoleculeId "task-20260418-a1f0" "task" "20260418" "a1f0".

Definition sample_new : molecule st_pending :=
  MkMolecule sample_id "task-work" ∅ None 5 5 [LogEntry 6 "molecule created"] [] 2 0 [] StPending.

Lemma molecule_run_inv_witness :
  ∃ a j, apply_ops Z.of_nat (AnyPending sample_new)
    [OpEntangle "x"; OpTackle "w"; OpEvolve "s1"; OpFreeze; OpThaw; OpEvolve "s2"] 7 = Some (a, j) ∧
    steps_ok a ∧ any_status a = MoleculeStatus.Completed.
Proof.
  eexists _, _. split; [by vm_compute|]. split; [|done].
  eapply (molecule_run_inv Z.of_nat sample_id "task-work" 2 5 sample_new 7
    [OpEntangle "x"; OpTackle "w"; OpEvolve "s1"; OpFreeze; OpThaw; OpEvolve "s2"]);
    [lia|by vm_compute|by vm_compute].
Defined.

Lemma molecule_transitions_witness :
  ∃ a' j, apply_op Z.of_nat (AnyPending sample_new) (OpTackle "w") 7 = Some (a', j) ∧
    ∀ m, AnyPending sample_new ≠ AnyMerged m.
Proof.
  eexists _, _. split; [by vm_compute|].
  eapply (molecule_transitions Z.of_nat (AnyPending sample_new) (OpTackle "w") 7).
  by vm_compute.
Defined.

Lemma molecule_completes_witness :
  ∃ m0 i0 m j, mol_new Z.of_nat sample_id "task-work" 2 0 = (Some m0, i0) ∧
    apply_ops Z.of_nat (AnyPending m0) [OpTackle "w"; OpEvolve "a"; OpEvolve "b"] i0 =
      Some (AnyCompleted m, j) ∧
    completed_steps m = ["a"; "b"] ∧ any_status (AnyCompleted m) = MoleculeStatus.Completed.
Proof. by apply (molecule_completes Z.of_nat sample_id "task-work" "w" ["a"; "b"] 0). Defined.

Lemma status_text_roundtrip_witness :
  status_from_str "stuck" = Err (ParseEnumError "MoleculeStatus" "stuck").
Proof.
  apply (status_text_roundtrip "stuck" MoleculeStatus.Frozen Manual). by vm_compute.
Defined.
