(* ===== verification/RunState.v ===== *)
(** Workers and run-states: the status vocabularies and [reconcile] of
    [crates/cosmon-core/src/worker.rs], the bounded spawn depth of
    [agent.rs], and the intent/witness pair of [run_state.rs] with its ghost
    detector and its projections from and to the molecule status. *)
From stdpp Require Import prelude strings list pretty.
From S2P Require Import Prelude Text Ids Molecule.

(** ** Agents: [agent.rs] *)

Definition max_agent_depth : Z := 5.

Record agent_depth := AgentDepth { depth_value : Z }.
Record depth_exceeded := DepthExceeded { exceeded_depth : Z }.

Definition depth_root : agent_depth := AgentDepth 0.

Definition depth_new (value : Z) : result depth_exceeded agent_depth :=
  if decide (max_agent_depth < value)%Z then Err (DepthExceeded value) else Ok (AgentDepth value).

Definition can_spawn (d : agent_depth) : bool := bool_decide (depth_value d < max_agent_depth)%Z.

(** [self.0 + 1] is a [u32] addition; [depth_value_bound] keeps it in range. *)
Definition depth_spawn_child (d : agent_depth) : result depth_exceeded agent_depth :=
  depth_new ((depth_value d + 1) mod 2 ^ 32).

Inductive agent_role : Set :=
| Orchestration | Research | Implementation | Infrastructure | Advisory | Validation | Runtime.

#[export] Instance agent_role_eq_dec : EqDecision agent_role.
Proof. solve_decision. Defined.

Definition role_to_string (r : agent_role) : string :=
  match r with
  | Orchestration => "orchestration" | Research => "research"
  | Implementation => "implementation" | Infrastructure => "infrastructure"
  | Advisory => "advisory" | Validation => "validation" | Runtime => "runtime"
  end.

Definition role_from_str (s : string) : result parse_enum_error agent_role :=
  if decide (s = "orchestration") then Ok Orchestration
  else if decide (s = "research") then Ok Research
  else if decide (s = "implementation") then Ok Implementation
  else if decide (s = "infrastructure") then Ok Infrastructure
  else if decide (s = "advisory") then Ok Advisory
  else if decide (s = "validation") then Ok Validation
  else if decide (s = "runtime") then Ok Runtime
  else Err (ParseEnumError "AgentRole" s).

(** ** Workers: [worker.rs] *)

Inductive worker_role : Set := WCognition | WRuntime.

Definition worker_role_to_string (r : worker_role) : string :=
  match r with WCognition => "cognition" | WRuntime => "runtime" end.

Definition worker_role_from_str (s : string) : result parse_enum_error worker_role :=
  if decide (s = "cognition") then Ok WCognition
  else if decide (s = "runtime") then Ok WRuntime
  else Err (ParseEnumError "WorkerRole" s).

Definition derive_worker_role (agent_role : agent_role) (worker_id : string) : worker_role :=
  if decide (agent_role = Runtime ∨ is_Some (strip_prefix "runtime-" worker_id))
  then WRuntime else WCognition.

Module WorkerStatus.
Inductive worker_status : Set :=
| Starting | Active | Paused | Stopping | Stopped | Error (msg : string) | Unresponsive | Stale.
End WorkerStatus.

Definition worker_status_to_string (s : WorkerStatus.worker_status) : string :=
  match s with
  | WorkerStatus.Starting => "starting"
  | WorkerStatus.Active => "active"
  | WorkerStatus.Paused => "paused"
  | WorkerStatus.Stopping => "stopping"
  | WorkerStatus.Stopped => "stopped"
  | WorkerStatus.Error msg => "error:" +:+ msg
  | WorkerStatus.Unresponsive => "unresponsive"
  | WorkerStatus.Stale => "stale"
  end.

Definition worker_status_from_str (s : string) :
    result parse_enum_error WorkerStatus.worker_status :=
  if decide (s = "starting") then Ok WorkerStatus.Starting
  else if decide (s = "active") then Ok WorkerStatus.Active
  else if decide (s = "paused") then Ok WorkerStatus.Paused
  else if decide (s = "stopping") then Ok WorkerStatus.Stopping
  else if decide (s = "stopped") then Ok WorkerStatus.Stopped
  else if decide (s = "unresponsive") then Ok WorkerStatus.Unresponsive
  else if decide (s = "stale") then Ok WorkerStatus.Stale
  else match strip_prefix "error:" s with
       | Some msg => Ok (WorkerStatus.Error msg)
       | None => Err (ParseEnumError "WorkerStatus" s)
       end.

Module Desired.
Inductive desired_state : Set := Running | Paused | Stopped.
End Desired.

Definition desired_to_string (d : Desired.desired_state) : string :=
  match d with
  | Desired.Running => "running" | Desired.Paused => "paused" | Desired.Stopped => "stopped"
  end.

Definition desired_from_str (s : string) : result parse_enum_error Desired.desired_state :=
  if decide (s = "running") then Ok Desired.Running
  else if decide (s = "paused") then Ok Desired.Paused
  else if decide (s = "stopped") then Ok Desired.Stopped
  else Err (ParseEnumError "DesiredState" s).

Module Transport.
Inductive transport_state : Set := Alive | Dead | Unknown.
End Transport.

Module Cognitive.
Inductive cognitive_state : Set := Fresh (s : string) | Stale | None.
End Cognitive.

Record observed_state := ObservedState {
  transport : Transport.transport_state;
  session : option string;
  cognitive : Cognitive.cognitive_state;
}.

Module Effective.
Inductive effective_status : Set :=
| Healthy | Dead | Diverged | Suspect | Blocked | Stopped | Paused | Error (msg : string).
End Effective.

Inductive reconcile_action : Set :=
| Noop | Spawn | Kill | Freeze | Thaw | RecordFailure | Respawn | CircuitBreak.

#[export] Instance reconcile_action_eq_dec : EqDecision reconcile_action.
Proof. solve_decision. Defined.

Definition reconcile_running_alive (observed : observed_state) :
    Effective.effective_status * list reconcile_action :=
  if decide (session observed = Some "blocked" ∨ session observed = Some "trust-prompt")
  then (Effective.Blocked, [Noop])
  else match cognitive observed with
       | Cognitive.Fresh _ | Cognitive.None => (Effective.Healthy, [Noop])
       | Cognitive.Stale => (Effective.Suspect, [RecordFailure])
       end.

Definition reconcile (desired : Desired.desired_state) (observed : observed_state)
    (consecutive_failures max_restarts : nat) :
    Effective.effective_status * list reconcile_action :=
  match desired, transport observed with
  | Desired.Running, Transport.Alive => reconcile_running_alive observed
  | Desired.Running, Transport.Dead =>
      if decide (max_restarts ≤ consecutive_failures)
      then (Effective.Error "restart limit exceeded", [CircuitBreak])
      else (Effective.Dead, [Respawn])
  | Desired.Running, Transport.Unknown => (Effective.Suspect, [Noop])
  | Desired.Paused, Transport.Alive => (Effective.Paused, [Freeze])
  | Desired.Paused, (Transport.Dead | Transport.Unknown) => (Effective.Paused, [Noop])
  | Desired.Stopped, Transport.Alive => (Effective.Diverged, [Kill])
  | Desired.Stopped, (Transport.Dead | Transport.Unknown) => (Effective.Stopped, [Noop])
  end.

(** [Worker::new] and [Worker::spawn_child] *)
Record worker := MkWorker {
  worker_id : string;
  worker_definition : string;
  worker_state : WorkerStatus.worker_status;
  worker_session : option string;
  worker_started_at : Z;
  worker_current_molecule : option molecule_id;
  worker_depth : agent_depth;
}.

Definition worker_new (id definition : string) (started_at : Z) : worker :=
  MkWorker id definition WorkerStatus.Starting None started_at None depth_root.

Definition worker_spawn_child (id definition : string) (started_at : Z)
    (parent_depth : agent_depth) : result depth_exceeded worker :=
  depth ← depth_spawn_child parent_depth;
  mret (MkWorker id definition WorkerStatus.Starting None started_at None depth).

(** ** Run-states: [run_state.rs] *)

Module Terminus.
Inductive terminus : Set := Completed | Collapsed | Merged.
End Terminus.

Module Intent.
Inductive intent : Set := Run | Pause | Stop | Terminal (t : Terminus.terminus).
End Intent.

Definition intent_is_terminal (i : Intent.intent) : bool :=
  match i with Intent.Terminal _ => true | _ => false end.

Module Liveness.
Inductive liveness : Set := Alive | Dead | Unknown.
End Liveness.

Module Branch.
Inductive branch_state : Set := Unmerged | Merged | Absent.
End Branch.

(** Timestamps and durations are nanoseconds. *)
Record witness := MkWitness {
  observed_at : Z;
  w_process : Liveness.liveness;
  w_branch : Branch.branch_state;
}.

(** [Witness::is_stale]: a witness from the future is not stale. *)
Definition is_stale (w : witness) (now ttl : Z) : bool :=
  let age := (now - observed_at w)%Z in
  if decide (0 ≤ age)%Z then bool_decide (ttl < age)%Z else false.

Record run_state := RunState { rs_intent : Intent.intent; rs_witness : option witness }.

Definition rs_new (i : Intent.intent) : run_state := RunState i None.
Definition rs_running : run_state := rs_new Intent.Run.
Definition rs_with_witness (i : Intent.intent) (w : witness) : run_state := RunState i (Some w).
Definition write_intent (rs : run_state) (i : Intent.intent) : run_state :=
  RunState i (rs_witness rs).
Definition record_witness (rs : run_state) (w : witness) : run_state :=
  RunState (rs_intent rs) (Some w).
Definition rs_is_terminal (rs : run_state) : bool := intent_is_terminal (rs_intent rs).
Definition rs_terminus (rs : run_state) : option Terminus.terminus :=
  match rs_intent rs with Intent.Terminal t => Some t | _ => None end.

Inductive ghost_kind : Set :=
| DeadPane | VanishedWorker | UnHarvested | StaleProbe | UnnamedMerge | QuotaExhausted.

Definition ghost_as_str (g : ghost_kind) : string :=
  match g with
  | DeadPane => "dead-pane" | VanishedWorker => "vanished-worker"
  | UnHarvested => "un-harvested" | StaleProbe => "stale-probe"
  | UnnamedMerge => "unnamed-merge" | QuotaExhausted => "quota-exhausted"
  end.

(** The guards of [RunState::ghost], in order. *)
Definition un_harvested (rs : run_state) : bool :=
  match rs_intent rs, rs_witness rs with
  | Intent.Terminal Terminus.Completed, Some w =>
      match w_branch w with Branch.Unmerged => true | _ => false end
  | _, _ => false
  end.

Definition unnamed_merge (rs : run_state) : bool :=
  match rs_witness rs with
  | Some w =>
      match w_branch w with
      | Branch.Merged => negb (intent_is_terminal (rs_intent rs))
      | _ => false
      end
  | None => false
  end.

Definition dead_pane (rs : run_state) : bool :=
  match rs_intent rs, rs_witness rs with
  | Intent.Run, Some w => match w_process w with Liveness.Dead => true | _ => false end
  | _, _ => false
  end.

Definition stale_probe (rs : run_state) (now ttl : Z) : bool :=
  match rs_intent rs, rs_witness rs with
  | Intent.Run, Some w =>
      match w_process w with Liveness.Alive => is_stale w now ttl | _ => false end
  | _, _ => false
  end.

Definition vanished_worker (rs : run_state) : bool :=
  match rs_intent rs, rs_witness rs with Intent.Run, None => true | _, _ => false end.

Definition ghost (rs : run_state) (now probe_ttl : Z) : option ghost_kind :=
  if un_harvested rs then Some UnHarvested
  else if unnamed_merge rs then Some UnnamedMerge
  else if dead_pane rs then Some DeadPane
  else if stale_probe rs now probe_ttl then Some StaleProbe
  else if vanished_worker rs then Some VanishedWorker
  else None.

(** [From<MoleculeStatus> for Intent] *)
Definition intent_of_status (s : molecule_status) : Intent.intent :=
  match s with
  | MoleculeStatus.Pending | MoleculeStatus.Queued | MoleculeStatus.Frozen => Intent.Pause
  | MoleculeStatus.Running | MoleculeStatus.Starved => Intent.Run
  | MoleculeStatus.Completed => Intent.Terminal Terminus.Completed
  | MoleculeStatus.Collapsed => Intent.Terminal Terminus.Collapsed
  end.

(** [From<DesiredState> for Intent] *)
Definition intent_of_desired (d : Desired.desired_state) : Intent.intent :=
  match d with
  | Desired.Running => Intent.Run | Desired.Paused => Intent.Pause | Desired.Stopped => Intent.Stop
  end.

(** [From<TransportState> for Liveness] *)
Definition liveness_of_transport (t : Transport.transport_state) : Liveness.liveness :=
  match t with
  | Transport.Alive => Liveness.Alive
  | Transport.Dead => Liveness.Dead
  | Transport.Unknown => Liveness.Unknown
  end.

Definition liveness_from_worker_status (s : WorkerStatus.worker_status) : Liveness.liveness :=
  match s with
  | WorkerStatus.Active | WorkerStatus.Starting | WorkerStatus.Paused => Liveness.Alive
  | WorkerStatus.Stopped | WorkerStatus.Stopping | WorkerStatus.Stale => Liveness.Dead
  | WorkerStatus.Unresponsive | WorkerStatus.Error _ => Liveness.Unknown
  end.

Definition molecule_status_from_run_state (rs : run_state) : molecule_status :=
  match rs_intent rs with
  | Intent.Run => MoleculeStatus.Running
  | Intent.Pause => MoleculeStatus.Frozen
  | Intent.Stop => MoleculeStatus.Pending
  | Intent.Terminal (Terminus.Completed | Terminus.Merged) => MoleculeStatus.Completed
  | Intent.Terminal Terminus.Collapsed => MoleculeStatus.Collapsed
  end.

Definition project_run_state (s : molecule_status) (t : Transport.transport_state)
    (branch_merged_at : option Z) (at_time : Z) : run_state :=
  let branch :=
    match branch_merged_at with Some _ => Branch.Merged | None => Branch.Unmerged end in
  rs_with_witness (intent_of_status s) (MkWitness at_time (liveness_of_transport t) branch).

(** ** Properties *)

(** Depths stay within [0, 5], so that the [u32] addition never wraps. *)
Definition depth_ok (d : agent_depth) : Prop := (0 ≤ depth_value d ≤ max_agent_depth)%Z.

(** Recursion is bounded: from a valid depth, [spawn_child] succeeds
    exactly when [can_spawn] says so, goes exactly one level down and answers
    a valid depth; a chain of spawns from the root has at most five links. *)
Theorem spawn_depth_bounded d :
  depth_ok d →
  (∀ d', depth_spawn_child d = Ok d' ↔
     can_spawn d ∧ depth_value d' = (depth_value d + 1)%Z) ∧
  (∀ d', depth_spawn_child d = Ok d' → depth_ok d') ∧
  (can_spawn d = false → depth_spawn_child d = Err (DepthExceeded 6)) ∧
  (∀ n d', foldr (λ _ r, r ≫= depth_spawn_child) (Ok depth_root) (replicate n tt) = Ok d' →
     n ≤ 5 ∧ depth_value d' = Z.of_nat n).
Proof.
  unfold depth_ok. intros Hd.
  assert (∀ d, (0 ≤ depth_value d ≤ max_agent_depth)%Z →
    depth_spawn_child d = if decide (max_agent_depth < depth_value d + 1)%Z
      then Err (DepthExceeded (depth_value d + 1)) else Ok (AgentDepth (depth_value d + 1)))
    as Hspawn.
  { unfold max_agent_depth, depth_spawn_child, depth_new. intros [v]; simpl. intros Hv.
    by rewrite Z.mod_small by lia. }
  rewrite (Hspawn d Hd). unfold can_spawn, max_agent_depth in *. split_and!.
  - intros [v]. simpl. case_bool_decide; case_decide; simpl; naive_solver lia.
  - intros [v]. case_decide; [done|]. intros [= <-]. simpl. lia.
  - intros ?%bool_decide_eq_false. rewrite decide_True by lia. do 2 f_equal. lia.
  - induction n as [|n IH]; intros d'; simpl; [intros [= <-]; simpl; lia|].
    destruct (foldr _ _ _) as [d1|]; simpl; [|done].
    destruct (IH d1 eq_refl) as [Hn H1]. rewrite Hspawn by lia.
    case_decide; [done|]. intros [= <-]. simpl. lia.
Qed.

(** What [reconcile] decides: exactly one action for every input; a
    worker is killed only if it should be stopped and is alive, respawned
    only if it should run and is dead, and once the failures reach the limit
    the circuit breaks instead; nothing is ever done about a worker whose
    transport is unknown. *)
Theorem reconcile_actions d o failures max :
  let '(status, actions) := reconcile d o failures max in
  length actions = 1 ∧
  (Kill ∈ actions ↔ d = Desired.Stopped ∧ transport o = Transport.Alive) ∧
  (Respawn ∈ actions ↔
     d = Desired.Running ∧ transport o = Transport.Dead ∧ failures < max) ∧
  (CircuitBreak ∈ actions ↔
     d = Desired.Running ∧ transport o = Transport.Dead ∧ max ≤ failures) ∧
  (Freeze ∈ actions ↔ d = Desired.Paused ∧ transport o = Transport.Alive) ∧
  (status = Effective.Healthy →
     d = Desired.Running ∧ transport o = Transport.Alive ∧ actions = [Noop]) ∧
  (transport o = Transport.Unknown → actions = [Noop]).
Proof.
  destruct o as [t s c]. unfold reconcile, reconcile_running_alive; simpl.
  destruct d, t; simpl; repeat case_decide; try destruct c; simpl;
    split_and!; rewrite ?list_elem_of_singleton; naive_solver lia.
Qed.

(** The ghost detector names each shape of drift exactly when the
    intent/witness pair has it: a completed molecule with an unmerged branch,
    a merged branch under a non-terminal intent, a dead or a stale witness of
    a running one, and a running one with no witness at all. *)
Theorem ghost_shapes i ow now ttl :
  let rs := RunState i ow in
  let seen P := ∃ w, ow = Some w ∧ P w in
  (ghost rs now ttl = Some UnHarvested ↔
     i = Intent.Terminal Terminus.Completed ∧ seen (λ w, w_branch w = Branch.Unmerged)) ∧
  (ghost rs now ttl = Some UnnamedMerge ↔
     intent_is_terminal i = false ∧ seen (λ w, w_branch w = Branch.Merged)) ∧
  (ghost rs now ttl = Some DeadPane ↔
     i = Intent.Run ∧ seen (λ w, w_branch w ≠ Branch.Merged ∧ w_process w = Liveness.Dead)) ∧
  (ghost rs now ttl = Some StaleProbe ↔
     i = Intent.Run ∧ seen (λ w, w_branch w ≠ Branch.Merged ∧ w_process w = Liveness.Alive ∧
       (0 ≤ now - observed_at w ∧ ttl < now - observed_at w)%Z)) ∧
  (ghost rs now ttl = Some VanishedWorker ↔ i = Intent.Run ∧ ow = None) ∧
  ghost rs now ttl ≠ Some QuotaExhausted.
Proof.
  unfold ghost, un_harvested, unnamed_merge, dead_pane, stale_probe, vanished_worker, is_stale.
  destruct ow as [[t p b]|]; [destruct b, p|]; (destruct i as [| | |[]]; simpl;
    repeat (case_decide || case_bool_decide); simpl;
    split_and!; try done; split; naive_solver lia).
Qed.

(** Projecting a molecule onto a run-state and back loses only the
    distinction between the waiting statuses and between running and starved;
    terminality always survives, and a fresh projection is never reported
    vanished or stale. *)
Theorem project_run_state_roundtrip s t b at_time ttl :
  (0 ≤ ttl)%Z →
  let rs := project_run_state s t b at_time in
  molecule_status_from_run_state rs =
    match s with
    | MoleculeStatus.Pending | MoleculeStatus.Queued => MoleculeStatus.Frozen
    | MoleculeStatus.Starved => MoleculeStatus.Running
    | _ => s
    end ∧
  rs_is_terminal rs = is_terminal s ∧
  ghost rs at_time ttl ≠ Some VanishedWorker ∧ ghost rs at_time ttl ≠ Some StaleProbe ∧
  (ghost rs at_time ttl = Some UnHarvested ↔ s = MoleculeStatus.Completed ∧ b = None).
Proof.
  intros Ht. unfold project_run_state, rs_with_witness, ghost, un_harvested, unnamed_merge,
    dead_pane, stale_probe, vanished_worker, is_stale.
  destruct s, t, b; simpl; repeat (case_decide || case_bool_decide); try lia; naive_solver.
Qed.

(** Worker statuses survive printing and parsing, the free text of an
    error included; so do desired states, agent roles and worker roles. *)
Theorem worker_text_roundtrip ws d r wr :
  worker_status_from_str (worker_status_to_string ws) = Ok ws ∧
  desired_from_str (desired_to_string d) = Ok d ∧
  role_from_str (role_to_string r) = Ok r ∧
  worker_role_from_str (worker_role_to_string wr) = Ok wr.
Proof.
  split_and!; [|by destruct d|by destruct r|by destruct wr].
  by destruct ws as [| | | | |msg| |].
Qed.

Lemma spawn_depth_bounded_witness :
  depth_spawn_child (AgentDepth 5) = Err (DepthExceeded 6).
Proof. apply (spawn_depth_bounded (AgentDepth 5)); [by split|done]. Defined.

Lemma project_run_state_roundtrip_witness :
  ghost (project_run_state MoleculeStatus.Completed Transport.Dead None 100) 100 90 =
    Some UnHarvested.
Proof. by apply (project_run_state_roundtrip MoleculeStatus.Completed Transport.Dead None 100 90). Defined.
