(* ===== verification/Links.v ===== *)
(** Molecule kinds ([crates/cosmon-core/src/kind.rs]) and typed links
    ([interaction.rs]): the link variants, the projections of each variant,
    the canonical edges that identify a link with its mirror image, the
    relation kinds and the references across galaxies. *)
From stdpp Require Import prelude gmap strings list.
From Stdlib Require Import Ascii.
From S2P Require Import Prelude Text Ids Molecule.

(** ** Kinds *)

Inductive molecule_kind : Set :=
| Idea | Task | Decision | Issue | Signal | Deliberation | Constellation.

#[export] Instance molecule_kind_eq_dec : EqDecision molecule_kind.
Proof. solve_decision. Defined.

Definition can_decay (k : molecule_kind) : bool :=
  match k with Idea | Issue | Deliberation => true | _ => false end.

Definition can_merge (k : molecule_kind) : bool :=
  match k with Task | Idea | Issue => true | _ => false end.

Definition valid_transforms (k : molecule_kind) : list molecule_kind :=
  match k with
  | Idea => [Task; Decision; Issue]
  | Issue => [Task]
  | Task => [Issue]
  | Deliberation => [Decision]
  | Signal | Decision | Constellation => []
  end.

Definition can_transform_to (k target : molecule_kind) : bool :=
  bool_decide (target ∈ valid_transforms k).

Definition surface_referent (k : molecule_kind) : string :=
  match k with
  | Idea => "project.ideas"
  | Task | Issue => "project.issues"
  | Decision => "project.decisions"
  | Signal => "project.status"
  | Deliberation => "project.deliberations"
  | Constellation => "project.constellations"
  end.

Definition kind_to_string (k : molecule_kind) : string :=
  match k with
  | Idea => "idea" | Task => "task" | Decision => "decision" | Issue => "issue"
  | Signal => "signal" | Deliberation => "deliberation" | Constellation => "constellation"
  end.

Definition kind_from_str (s : string) : result parse_enum_error molecule_kind :=
  if decide (s = "idea") then Ok Idea
  else if decide (s = "task") then Ok Task
  else if decide (s = "decision" ∨ s = "adr") then Ok Decision
  else if decide (s = "issue" ∨ s = "bug") then Ok Issue
  else if decide (s = "signal") then Ok Signal
  else if decide (s = "deliberation" ∨ s = "delib" ∨ s = "think") then Ok Deliberation
  else if decide (s = "constellation" ∨ s = "const" ∨ s = "fil-rouge") then Ok Constellation
  else Err (ParseEnumError "MoleculeKind" s).

(** ** References across galaxies *)

Record cross_galaxy_ref := CrossGalaxyRef { galaxy : string; ref_mol_id : molecule_id }.

Inductive cross_galaxy_ref_error : Type :=
| MissingSeparator (s : string)
| EmptyAlias (s : string)
| EmptyMoleculeId (s : string)
| InvalidAlias (s : string)
| InvalidMoleculeId (id : string) (why : id_error).

Definition is_separator (c : ascii) : bool :=
  bool_decide (c = ":"%char) || bool_decide (c = "@"%char).

Definition to_canonical_string (r : cross_galaxy_ref) : string :=
  galaxy r +:+ ":" +:+ mid_raw (ref_mol_id r).

Definition looks_like_cross_galaxy (s : string) : bool :=
  negb (all_chars (λ c, negb (is_separator c)) s).

Definition is_alias_char (c : ascii) : bool :=
  is_ascii_alphanumeric c || bool_decide (c = "-"%char) || bool_decide (c = "_"%char).

Definition cross_galaxy_from_str (s : string) : result cross_galaxy_ref_error cross_galaxy_ref :=
  match split_find is_separator s with
  | None => Err (MissingSeparator s)
  | Some (alias, mol) =>
      if is_empty alias then Err (EmptyAlias s)
      else if is_empty mol then Err (EmptyMoleculeId s)
      else if negb (all_chars is_alias_char alias) then Err (InvalidAlias alias)
      else match parse_inner mol with
           | Err e => Err (InvalidMoleculeId mol e)
           | Ok mol_id => Ok (CrossGalaxyRef alias mol_id)
           end
  end.

(** ** Links *)

Abbreviation mid := molecule_id.

Inductive molecule_link : Type :=
| DecayedFrom (id : mid)
| DecayProduct (id : mid)
| MergedFrom (ids : list mid)
| MergedInto (id : mid)
| TransformedFrom (kind : molecule_kind)
| Blocks (target : mid)
| BlockedBy (source : mid)
| Refines (target : mid)
| RefinedBy (source : mid)
| Refutes (target : mid)
| RefutedBy (source : mid)
| Entangled (target : string)
| CrossGalaxyBlocks (target : cross_galaxy_ref)
| CrossGalaxyBlockedBy (source : cross_galaxy_ref).

Definition blocks_target (l : molecule_link) : option mid :=
  match l with Blocks t => Some t | _ => None end.
Definition blocked_by_source (l : molecule_link) : option mid :=
  match l with BlockedBy s => Some s | _ => None end.
Definition decay_product_id (l : molecule_link) : option mid :=
  match l with DecayProduct i => Some i | _ => None end.
Definition refines_target (l : molecule_link) : option mid :=
  match l with Refines t => Some t | _ => None end.
Definition refined_by_source (l : molecule_link) : option mid :=
  match l with RefinedBy s => Some s | _ => None end.
Definition refutes_target (l : molecule_link) : option mid :=
  match l with Refutes t => Some t | _ => None end.
Definition refuted_by_source (l : molecule_link) : option mid :=
  match l with RefutedBy s => Some s | _ => None end.
Definition cross_galaxy_blocks_target (l : molecule_link) : option cross_galaxy_ref :=
  match l with CrossGalaxyBlocks t => Some t | _ => None end.
Definition cross_galaxy_blocked_by_source (l : molecule_link) : option cross_galaxy_ref :=
  match l with CrossGalaxyBlockedBy s => Some s | _ => None end.

Inductive relation_kind : Set := RBlocks | RDecayProduct | RMergedFrom | RRefines | RRefutes.

#[export] Instance relation_kind_eq_dec : EqDecision relation_kind.
Proof. solve_decision. Defined.

Definition is_dag_required (k : relation_kind) : bool :=
  match k with RBlocks | RDecayProduct | RMergedFrom => true | RRefines | RRefutes => false end.

Definition relation_as_str (k : relation_kind) : string :=
  match k with
  | RBlocks => "blocks" | RDecayProduct => "decay-product" | RMergedFrom => "merged-from"
  | RRefines => "refines" | RRefutes => "refutes"
  end.

Definition relation_all : list relation_kind :=
  [RBlocks; RDecayProduct; RMergedFrom; RRefines; RRefutes].

(** [None] is [UnknownRelationKind]. *)
Definition relation_from_str (s : string) : option relation_kind :=
  if decide (s = "blocks") then Some RBlocks
  else if decide (s = "decay-product" ∨ s = "decay_product") then Some RDecayProduct
  else if decide (s = "merged-from" ∨ s = "merged_from") then Some RMergedFrom
  else if decide (s = "refines") then Some RRefines
  else if decide (s = "refutes") then Some RRefutes
  else None.

Definition canonical_edges (l : molecule_link) (self_id : mid) :
    list (relation_kind * mid * mid) :=
  match l with
  | Blocks target => [(RBlocks, self_id, target)]
  | BlockedBy source => [(RBlocks, source, self_id)]
  | DecayProduct id => [(RDecayProduct, self_id, id)]
  | DecayedFrom id => [(RDecayProduct, id, self_id)]
  | MergedFrom ids => map (λ src, (RMergedFrom, src, self_id)) ids
  | MergedInto id => [(RMergedFrom, self_id, id)]
  | Refines target => [(RRefines, self_id, target)]
  | RefinedBy source => [(RRefines, source, self_id)]
  | Refutes target => [(RRefutes, self_id, target)]
  | RefutedBy source => [(RRefutes, source, self_id)]
  | TransformedFrom _ | Entangled _ | CrossGalaxyBlocks _ | CrossGalaxyBlockedBy _ => []
  end.

(** ** Properties *)

(** The symmetric counterparts that the documentation of the links pairs up:
    [mirror a la b lb] when the link [la] carried by [a] and [lb] carried by
    [b] describe the same edge. *)
Inductive mirror (a : mid) : molecule_link → mid → molecule_link → Prop :=
| mirror_blocks b : mirror a (Blocks b) b (BlockedBy a)
| mirror_decay b : mirror a (DecayProduct b) b (DecayedFrom a)
| mirror_merge b ids : a ∈ ids → mirror a (MergedInto b) b (MergedFrom ids)
| mirror_refines b : mirror a (Refines b) b (RefinedBy a)
| mirror_refutes b : mirror a (Refutes b) b (RefutedBy a).

(** Canonical edges do not depend on the side that carries the link: a
    link and its mirror image share an edge, every edge of a link has its
    carrier as an end point, and conversely two links, carried by different
    molecules, that share an edge are mirror images. *)
Theorem canonical_edges_mirror a la b lb :
  (mirror a la b lb → ∃ e, e ∈ canonical_edges la a ∧ e ∈ canonical_edges lb b) ∧
  (∀ k x y, (k, x, y) ∈ canonical_edges la a → x = a ∨ y = a) ∧
  (∀ e, a ≠ b → e ∈ canonical_edges la a → e ∈ canonical_edges lb b →
     mirror a la b lb ∨ mirror b lb a la).
Proof.
  split_and!.
  - intros Hm. inv Hm; simpl; eexists; (split; [by constructor|]); try by constructor.
    apply list_elem_of_fmap. eauto.
  - intros k x y. destruct la; simpl; rewrite ?list_elem_of_singleton; try set_solver; try naive_solver.
  - intros [[k x] y] Hab.
    destruct la; simpl; rewrite ?list_elem_of_singleton; try (intros Hin; by apply not_elem_of_nil in Hin);
    intros Ha; try (apply list_elem_of_fmap in Ha as (? & ? & ?));
    simplify_eq; destruct lb; simpl; rewrite ?list_elem_of_singleton;
    try (intros Hin; by apply not_elem_of_nil in Hin);
    intros Hb; try (apply list_elem_of_fmap in Hb as (? & ? & ?));
    simplify_eq; (left; by constructor) || (right; by constructor).
Qed.

(** A reference that parsing can produce. *)
Definition ref_ok (r : cross_galaxy_ref) : Prop :=
  galaxy r ≠ EmptyString ∧ all_chars is_alias_char (galaxy r) = true ∧ id_grammar (ref_mol_id r).

Lemma alias_no_separator s :
  all_chars is_alias_char s = true → all_chars (λ c, negb (is_separator c)) s = true.
Proof.
  apply all_chars_impl. intros c Hc. unfold is_separator.
  apply negb_true_iff, orb_false_iff.
  split; apply bool_decide_eq_false; intros ->; vm_compute in Hc; done.
Qed.

(** Cross-galaxy references: whatever separator was typed, a parsed
    reference is well formed and its canonical form parses back to it; every
    well-formed reference is obtained in this way. *)
Theorem cross_galaxy_roundtrip r :
  (ref_ok r ↔ cross_galaxy_from_str (to_canonical_string r) = Ok r) ∧
  (∀ s, cross_galaxy_from_str s = Ok r → ref_ok r ∧ looks_like_cross_galaxy s = true).
Proof.
  assert (∀ s, cross_galaxy_from_str s = Ok r → ref_ok r ∧ looks_like_cross_galaxy s = true)
    as Hparse.
  { intros s. unfold cross_galaxy_from_str.
    destruct (split_find is_separator s) as [[alias mol]|] eqn:Hs; [|done].
    destruct (is_empty alias) eqn:Ha; [done|]. destruct (is_empty mol) eqn:Hm; [done|].
    destruct (all_chars is_alias_char alias) eqn:Hc; [|done]. simpl.
    destruct (parse_inner mol) as [mol_id|] eqn:Hp; [|done]. intros [= <-].
    apply parse_inner_grammar in Hp as [_ Hg]. apply is_empty_false in Ha.
    split; [by split|]. unfold looks_like_cross_galaxy.
    apply split_find_some in Hs as (c & -> & Hc' & _).
    rewrite all_chars_app. simpl. by rewrite Hc', andb_false_r. }
  split; [|done]. split; [|by intros [? _]%Hparse].
  intros (Hne & Hal & Hg). unfold cross_galaxy_from_str, to_canonical_string.
  change (":" +:+ mid_raw (ref_mol_id r)) with (String ":" (mid_raw (ref_mol_id r))).
  rewrite split_find_app by (by apply alias_no_separator || done).
  rewrite (proj2 (is_empty_false _) Hne).
  assert (parse_inner (mid_raw (ref_mol_id r)) = Ok (ref_mol_id r)) as Hp
    by by apply parse_inner_grammar.
  assert (is_empty (mid_raw (ref_mol_id r)) = false) as ->.
  { apply is_empty_false. intros Hnil. by rewrite Hnil in Hp. }
  rewrite Hal. simpl. rewrite Hp. by destruct r.
Qed.

(** Kinds and relations survive printing and parsing; a transformation
    never leads back to an idea, out of a decision, a signal or a
    constellation, or to itself, and the only transformations that can be
    undone are those between tasks and issues. *)
Theorem kind_transforms k k' r :
  kind_from_str (kind_to_string k) = Ok k ∧ relation_from_str (relation_as_str r) = Some r ∧
  (can_transform_to k k' → k' ≠ Idea ∧ k' ≠ k ∧ k ∉ [Decision; Signal; Constellation]) ∧
  (can_transform_to k k' → can_transform_to k' k → k ∈ [Task; Issue] ∧ k' ∈ [Task; Issue]).
Proof.
  split_and!; [by destruct k|by destruct r|..]; destruct k, k'; try done;
    intros; set_solver.
Qed.

(** A short identifier for the closed examples. *)
Definition short_id (s : string) : mid := MoleculeId s "" "" "".

Lemma canonical_edges_mirror_witness :
  let a := short_id "a" in let b := short_id "b" in
  mirror a (Blocks b) b (BlockedBy a) ∨ mirror b (BlockedBy a) a (Blocks b).
Proof.
  intros a b.
  apply (canonical_edges_mirror a (Blocks b) b (BlockedBy a)) with (RBlocks, a, b);
    [done|by constructor..].
Defined.

Lemma cross_galaxy_roundtrip_witness :
  ref_ok (CrossGalaxyRef "andromeda" sample_id).
Proof.
  apply (cross_galaxy_roundtrip (CrossGalaxyRef "andromeda" sample_id))
    with (s := "andromeda@task-20260418-a1f0").
  by vm_compute.
Defined.
