(* ===== verification/Process.v ===== *)
(** The running process of a molecule: the transport chosen for it
    ([crates/cosmon-core/src/transport_selection.rs]), the actor who claimed it
    ([tackle.rs]), the record itself ([process.rs]) with the identities it
    carries ([terminal.rs], [worker_exit.rs]), and the reason of a collapse
    ([event_v2.rs]). *)
From stdpp Require Import prelude gmap strings list pretty.
From Stdlib Require Import Ascii.
From S2P Require Import Prelude Text Ids Molecule Links RunState.

(** ** Transport *)

Inductive transport_kind : Set := Tmux | Herdr.
Inductive transport_source : Set := TProject | TGlobal | TDefault.

#[export] Instance transport_kind_eq_dec : EqDecision transport_kind.
Proof. solve_decision. Defined.
#[export] Instance transport_source_eq_dec : EqDecision transport_source.
Proof. solve_decision. Defined.

Record transport_selection := TransportSelection {
  backend : transport_kind;
  ts_source : transport_source;
}.

#[export] Instance transport_selection_eq_dec : EqDecision transport_selection.
Proof. solve_decision. Defined.

Inductive transport_error : Type := TransportUnavailable (name : string) | TransportUnknown (name : string).

(** The configured backends of the project and of the operator. *)
Definition resolve_transport (project global : option string) :
    result transport_error transport_selection :=
  let '(name, source) := match project, global with
                         | Some name, _ => (name, TProject)
                         | None, Some name => (name, TGlobal)
                         | None, None => ("tmux", TDefault)
                         end in
  if decide (name = "tmux") then Ok (TransportSelection Tmux source)
  else if decide (name = "herdr") then Ok (TransportSelection Herdr source)
  else if decide (name = "zellij") then Err (TransportUnavailable name)
  else Err (TransportUnknown name).

(** ** The claim *)

Inductive tackled_by : Set := THuman | TRuntime (by_pid : N).

#[export] Instance tackled_by_eq_dec : EqDecision tackled_by.
Proof. solve_decision. Defined.

Inductive tackled_by_error : Type := TackledEmpty | TackledBadPid (s : string) | TackledUnknown (s : string).

Definition is_human (t : tackled_by) : bool := match t with THuman => true | TRuntime _ => false end.

Definition tackled_by_to_string (t : tackled_by) : string :=
  match t with
  | THuman => "human"
  | TRuntime p => "runtime:" +:+ pretty p
  end.

Definition tackled_by_from_str (s : string) : result tackled_by_error tackled_by :=
  let s := trim s in
  if is_empty s then Err TackledEmpty
  else if decide (s = "human") then Ok THuman
  else match strip_prefix "runtime:" s with
       | Some pid_str =>
           match parse_unsigned u32_max (trim pid_str) with
           | Some p => Ok (TRuntime p)
           | None => Err (TackledBadPid s)
           end
       | None => Err (TackledUnknown s)
       end.

(** ** The process record *)

Inductive terminal_identity : Type :=
| TmuxTerminal (socket_path : string)
    (server_pid server_start session_id session_created pane_id pane_pid pane_start : N)
| HerdrTerminal (socket_path : string) (server_pid server_start : N)
    (workspace_id pane_id terminal_id : string).

#[export] Instance terminal_identity_eq_dec : EqDecision terminal_identity.
Proof. solve_decision. Defined.

Record launch_identity := LaunchIdentity {
  l_schema : N;
  l_molecule_id : mid;
  l_launch_id : string;
  l_incarnation : string;
  l_request_hash : string;
}.

#[export] Instance launch_identity_eq_dec : EqDecision launch_identity.
Proof. solve_decision. Defined.

#[export] Instance worker_status_eq_dec' : EqDecision WorkerStatus.worker_status.
Proof. solve_decision. Defined.

Record molecule_process := MoleculeProcess {
  p_transport : option transport_selection;
  p_worker_id : string;
  tmux_session : string;
  p_started_at : Z;
  p_status : WorkerStatus.worker_status;
  pid : option Z;
  p_terminal : option terminal_identity;
  p_worker_launch : option launch_identity;
  pid_start_time : option Z;
  p_adapter_name : option string;
  p_model : option string;
  p_worktree_path : option string;
}.

#[export] Instance molecule_process_eq_dec : EqDecision molecule_process.
Proof. solve_decision. Defined.

Definition process_new (worker_id session : string) (now : Z) : molecule_process :=
  MoleculeProcess None worker_id session now WorkerStatus.Active None None None None None None None.

(** The builders [with_adapter_name], [with_model] and [with_worktree_path]. *)
Definition with_dispatch (p : molecule_process) (adapter : string) (model : option string)
    (worktree : string) : molecule_process :=
  MoleculeProcess (p_transport p) (p_worker_id p) (tmux_session p) (p_started_at p) (p_status p)
    (pid p) (p_terminal p) (p_worker_launch p) (pid_start_time p) (Some adapter) model (Some worktree).

Definition with_transport (p : molecule_process) (t : option transport_selection) :
    molecule_process :=
  MoleculeProcess t (p_worker_id p) (tmux_session p) (p_started_at p) (p_status p) (pid p)
    (p_terminal p) (p_worker_launch p) (pid_start_time p) (p_adapter_name p) (p_model p)
    (p_worktree_path p).

(** [with_pid], then [with_pid_start_time] when the start time is known. *)
Definition with_pid (p : molecule_process) (new_pid : Z) (start : option Z) : molecule_process :=
  MoleculeProcess (p_transport p) (p_worker_id p) (tmux_session p) (p_started_at p) (p_status p)
    (Some new_pid) (p_terminal p) (p_worker_launch p)
    (match start with Some t => Some t | None => pid_start_time p end)
    (p_adapter_name p) (p_model p) (p_worktree_path p).

Definition with_terminal (p : molecule_process) (t : terminal_identity) : molecule_process :=
  MoleculeProcess (p_transport p) (p_worker_id p) (tmux_session p) (p_started_at p) (p_status p)
    (pid p) (Some t) (p_worker_launch p) (pid_start_time p) (p_adapter_name p) (p_model p)
    (p_worktree_path p).

Definition is_active (p : molecule_process) : bool :=
  match p_status p with
  | WorkerStatus.Starting | WorkerStatus.Active | WorkerStatus.Paused => true
  | _ => false
  end.

(** A witness that claims a live process counts for [ttl] only. *)
Definition project_process_status (prev : WorkerStatus.worker_status) (w : witness)
    (now ttl : Z) : WorkerStatus.worker_status :=
  let effective := match w_process w with
                   | Liveness.Alive => if is_stale w now ttl then Liveness.Unknown else Liveness.Alive
                   | other => other
                   end in
  match effective with
  | Liveness.Alive => WorkerStatus.Active
  | Liveness.Dead => WorkerStatus.Stale
  | Liveness.Unknown =>
      match prev with
      | WorkerStatus.Unresponsive | WorkerStatus.Stale => WorkerStatus.Stale
      | _ => WorkerStatus.Unresponsive
      end
  end.

(** ** Why a molecule collapsed *)

Inductive collapse_reason : Type :=
| WorkerCrashed | GateFailed | BlockerStuck | ManualAbort | ResourceExhausted | AgentLoopFailed
| OtherReason (s : string).

Definition reason_as_str (r : collapse_reason) : string :=
  match r with
  | WorkerCrashed => "worker_crashed"
  | GateFailed => "gate_failed"
  | BlockerStuck => "blocker_stuck"
  | ManualAbort => "manual_abort"
  | ResourceExhausted => "resource_exhausted"
  | AgentLoopFailed => "agent_loop_failed"
  | OtherReason s => s
  end.

Definition reason_is_structured (r : collapse_reason) : bool :=
  match r with OtherReason _ => false | _ => true end.

Definition reason_from_string (s : string) : collapse_reason :=
  if decide (s = "worker_crashed") then WorkerCrashed
  else if decide (s = "gate_failed") then GateFailed
  else if decide (s = "blocker_stuck") then BlockerStuck
  else if decide (s = "manual_abort") then ManualAbort
  else if decide (s = "resource_exhausted") then ResourceExhausted
  else if decide (s = "agent_loop_failed") then AgentLoopFailed
  else OtherReason s.
