(* ===== verification/Contract.v ===== *)
(** The conditional, idempotent collapse contract of
    [crates/cosmon-core/src/collapse_contract.rs]: the validated tokens, the
    intent and its digest, receipts and key records, the decision table
    [decide] and the classification of a lookup. Hashes are the interface
    [ContractHash]. *)
From stdpp Require Import prelude gmap strings list.
From Stdlib Require Import Ascii.
From S2P Require Import Prelude Text Ids Molecule Links.

(** ** Tokens *)

Inductive contract_error : Type :=
| InvalidKey (raw : string)
| InvalidRevision (raw : string)
| InvalidDigest (raw : string)
| InvalidExpectedStatus (raw : string)
| RevisionError (why : string).

Definition contract_error_to_string (e : contract_error) : string :=
  match e with
  | InvalidKey raw =>
      "invalid idempotency key `" +:+ raw +:+ "`: expected [A-Za-z0-9_-]{16,128}"
  | InvalidRevision raw => "invalid revision `" +:+ raw +:+ "`: expected b3:<64 hex chars>"
  | InvalidDigest raw => "invalid digest `" +:+ raw +:+ "`: expected b3:<64 hex chars>"
  | InvalidExpectedStatus raw =>
      "invalid expected status `" +:+ raw +:+
      "`: expected one of pending, queued, running, frozen, starved"
  | RevisionError why => "cannot compute revision: " +:+ why
  end.

(** [IdempotencyKey::parse] *)
Definition key_min_len : nat := 16.
Definition key_max_len : nat := 128.

Definition is_key_char (c : ascii) : bool :=
  is_ascii_alphanumeric c || bool_decide (c = "_"%char) || bool_decide (c = "-"%char).

Definition key_parse (raw : string) : result contract_error string :=
  let len_ok := bool_decide (key_min_len ≤ String.length raw ≤ key_max_len) in
  let charset_ok := all_chars is_key_char raw in
  if len_ok && charset_ok then Ok raw else Err (InvalidKey (chars_take 140 raw)).

(** [parse_b3]: a [b3:] token of 64 hexadecimal digits, lower-cased. *)
Definition b3_prefix : string := "b3:".

Definition parse_b3 (raw : string) : option string :=
  hex ← strip_prefix b3_prefix raw;
  if bool_decide (String.length hex = 64) && all_chars is_ascii_hexdigit hex
  then Some (b3_prefix +:+ to_ascii_lowercase hex) else None.

Definition revision_parse (raw : string) : result contract_error string :=
  match parse_b3 raw with
  | Some r => Ok r
  | None => Err (InvalidRevision (chars_take 80 raw))
  end.

Definition digest_parse (raw : string) : result contract_error string :=
  match parse_b3 raw with
  | Some d => Ok d
  | None => Err (InvalidDigest (chars_take 80 raw))
  end.

(** ** Expected statuses and callers *)

Inductive collapsible_status : Set := CPending | CQueued | CRunning | CFrozen | CStarved.

#[export] Instance collapsible_status_eq_dec : EqDecision collapsible_status.
Proof. solve_decision. Defined.

Definition collapsible_to_status (c : collapsible_status) : molecule_status :=
  match c with
  | CPending => MoleculeStatus.Pending
  | CQueued => MoleculeStatus.Queued
  | CRunning => MoleculeStatus.Running
  | CFrozen => MoleculeStatus.Frozen
  | CStarved => MoleculeStatus.Starved
  end.

Definition collapsible_as_str (c : collapsible_status) : string :=
  match c with
  | CPending => "pending" | CQueued => "queued" | CRunning => "running"
  | CFrozen => "frozen" | CStarved => "starved"
  end.

Definition collapsible_from_str (s : string) : result contract_error collapsible_status :=
  if decide (s = "pending") then Ok CPending
  else if decide (s = "queued") then Ok CQueued
  else if decide (s = "running" ∨ s = "active") then Ok CRunning
  else if decide (s = "frozen") then Ok CFrozen
  else if decide (s = "starved") then Ok CStarved
  else Err (InvalidExpectedStatus s).

Inductive caller_context : Type :=
| Local (session : option string)
| Remote (subject : string).

Definition caller_actor (c : caller_context) : option string :=
  match c with
  | Local session => session
  | Remote subject => Some ("jwt:" +:+ subject)
  end.

Record collapse_condition := CollapseCondition {
  c_key : string;
  expect_status : collapsible_status;
  expect_revision : string;
  approval_digest : option string;
  not_after : option Z;
}.

(** ** The intent and its digest *)

Record collapse_intent := CollapseIntentV1 {
  i_target : string;
  i_reason : string;
  i_cause : option string;
  i_account : option string;
  i_kind : option string;
  i_reason_kind : option string;
  i_expected_status : string;
  i_expected_revision : string;
  i_actor : option string;
  i_approval_digest : option string;
  i_not_after : option string;
}.

(** [canonical_serialize] followed by BLAKE3 under the domain tag, in
    hexadecimal, and chrono's RFC 3339 rendering of an instant. *)
Class ContractHash := {
  intent_hex : collapse_intent → result string string;
  rfc3339_nanos : Z → string;
}.

Definition render_not_after `{ContractHash} (at_ : Z) : string := rfc3339_nanos at_.

Definition intent_digest `{ContractHash} (i : collapse_intent) : result contract_error string :=
  match intent_hex i with
  | Ok hex => Ok (b3_prefix +:+ hex)
  | Err e => Err (RevisionError e)
  end.

(** ** Receipts and key records *)

Definition receipt_schema : string := "cosmon.collapse-receipt.v1".

Record collapse_receipt := CollapseReceipt {
  r_schema : string;
  r_key : string;
  r_digest : string;
  r_molecule : mid;
  r_previous_status : molecule_status;
  r_previous_revision : string;
  r_committed_at : Z;
}.

#[export] Instance collapse_receipt_eq_dec : EqDecision collapse_receipt.
Proof. solve_decision. Defined.

Inductive key_phase : Set := Reserved | Committed.

#[export] Instance key_phase_eq_dec : EqDecision key_phase.
Proof. solve_decision. Defined.

Record key_record := CollapseKeyRecord {
  k_schema : string;
  k_key : string;
  k_molecule : mid;
  k_digest : string;
  k_phase : key_phase;
  k_receipt : option collapse_receipt;
}.

Definition key_reserved (key : string) (molecule : mid) (digest : string) : key_record :=
  CollapseKeyRecord receipt_schema key molecule digest Reserved None.

Definition key_committed (r : key_record) (receipt : collapse_receipt) : key_record :=
  CollapseKeyRecord (k_schema r) (k_key r) (k_molecule r) (k_digest r) Committed (Some receipt).

(** ** Outcomes *)

Inductive outcome_kind : Set :=
| KIdempotencyKeyReused | KReplayed | KUnleasedPilotGesture | KAlreadyCompleted
| KAlreadyCollapsed | KApprovalExpired | KUnexpectedStatus | KStaleRevision | KTransitioned.

Definition outcome_as_str (k : outcome_kind) : string :=
  match k with
  | KIdempotencyKeyReused => "idempotency_key_reused"
  | KReplayed => "replayed"
  | KUnleasedPilotGesture => "unleased_pilot_gesture"
  | KAlreadyCompleted => "already_completed"
  | KAlreadyCollapsed => "already_collapsed"
  | KApprovalExpired => "approval_expired"
  | KUnexpectedStatus => "unexpected_status"
  | KStaleRevision => "stale_revision"
  | KTransitioned => "transitioned"
  end.

Definition outcome_http_status (k : outcome_kind) : nat :=
  match k with
  | KIdempotencyKeyReused => 422
  | KReplayed => 200
  | KUnleasedPilotGesture => 403
  | KAlreadyCompleted | KAlreadyCollapsed | KUnexpectedStatus => 409
  | KApprovalExpired | KStaleRevision => 412
  | KTransitioned => 201
  end.

Definition outcome_is_success (k : outcome_kind) : bool :=
  match k with KReplayed | KTransitioned => true | _ => false end.

Inductive collapse_refusal : Type :=
| IdempotencyKeyReused (bound_molecule : mid)
| UnleasedPilotGesture (why : string)
| AlreadyCompleted
| AlreadyCollapsed (by_key : option string)
| ApprovalExpired (deadline : Z)
| UnexpectedStatus (actual : molecule_status)
| StaleRevision (actual : string).

Definition refusal_kind (r : collapse_refusal) : outcome_kind :=
  match r with
  | IdempotencyKeyReused _ => KIdempotencyKeyReused
  | UnleasedPilotGesture _ => KUnleasedPilotGesture
  | AlreadyCompleted => KAlreadyCompleted
  | AlreadyCollapsed _ => KAlreadyCollapsed
  | ApprovalExpired _ => KApprovalExpired
  | UnexpectedStatus _ => KUnexpectedStatus
  | StaleRevision _ => KStaleRevision
  end.

Inductive collapse_decision : Type :=
| Refuse (r : collapse_refusal)
| Replay (receipt : collapse_receipt) (finalize : bool)
| Admit (reserve : bool).

(** ** The decision table *)

Record decision_input := DecisionInput {
  in_target : mid;
  in_condition : collapse_condition;
  in_digest : string;
  in_key_record : option key_record;
  in_status : molecule_status;
  in_revision : string;
  in_state_receipt : option collapse_receipt;
  in_lease_refusal : option string;
  in_now : Z;
}.

(** The receipt in the state, if it is that of the key. *)
Definition receipt_for_key (key : string) (o : option collapse_receipt) :
    option collapse_receipt :=
  r ← o; if decide (r_key r = key) then Some r else None.

(** The two refusals of a key bound to another request. *)
Definition key_conflict (input : decision_input) : option mid :=
  match in_key_record input with
  | Some record =>
      if decide (k_molecule record ≠ in_target input ∨ k_digest record ≠ in_digest input)
      then Some (k_molecule record) else None
  | None => None
  end.

Definition state_conflict (input : decision_input) : option mid :=
  match receipt_for_key (c_key (in_condition input)) (in_state_receipt input) with
  | Some receipt =>
      if decide (r_digest receipt ≠ in_digest input) then Some (r_molecule receipt) else None
  | None => None
  end.

(** Steps 5 to 9 of the table, for a request that is no replay. *)
Definition decide_fresh (input : decision_input) : collapse_decision :=
  match in_lease_refusal input with
  | Some why => Refuse (UnleasedPilotGesture why)
  | None =>
  match in_status input with
  | MoleculeStatus.Completed => Refuse AlreadyCompleted
  | MoleculeStatus.Collapsed => Refuse (AlreadyCollapsed (r_key <$> in_state_receipt input))
  | _ =>
  match (deadline ← not_after (in_condition input);
         if decide (deadline < in_now input)%Z then Some deadline else None) with
  | Some deadline => Refuse (ApprovalExpired deadline)
  | None =>
  if decide (in_status input ≠ collapsible_to_status (expect_status (in_condition input)))
  then Refuse (UnexpectedStatus (in_status input))
  else if decide (in_revision input ≠ expect_revision (in_condition input))
  then Refuse (StaleRevision (in_revision input))
  else Admit (negb (is_some (in_key_record input)))
  end end end.

Definition decide_collapse (input : decision_input) : collapse_decision :=
  match key_conflict input with
  | Some bound => Refuse (IdempotencyKeyReused bound)
  | None =>
  match state_conflict input with
  | Some bound => Refuse (IdempotencyKeyReused bound)
  | None =>
  match receipt_for_key (c_key (in_condition input)) (in_state_receipt input) with
  | Some receipt =>
      Replay receipt
        (match in_key_record input with
         | None => true
         | Some record => bool_decide (k_phase record ≠ Committed)
         end)
  | None =>
  match in_key_record input with
  | Some (CollapseKeyRecord _ _ _ _ Committed (Some receipt)) => Replay receipt false
  | _ => decide_fresh input
  end end end end.

(** ** Lookups *)

Inductive receipt_lookup : Type :=
| LCommitted (r : collapse_receipt)
| LReservedNotApplied (digest : string)
| LInconsistent (detail : string)
| LBoundElsewhere
| LUnknown.

Definition lookup_as_str (l : receipt_lookup) : string :=
  match l with
  | LCommitted _ => "committed"
  | LReservedNotApplied _ => "reserved_not_applied"
  | LInconsistent _ => "inconsistent"
  | LBoundElsewhere => "idempotency_key_reused"
  | LUnknown => "unknown"
  end.

(** The checks of a key record against the receipt in the state. *)
Definition record_mismatch (record : option key_record) (receipt : collapse_receipt) :
    option string :=
  match record with
  | None => None
  | Some record =>
      if decide (k_digest record ≠ r_digest receipt)
      then Some "key record and state receipt name different digests"
      else match k_receipt record with
           | Some stored =>
               if decide (stored ≠ receipt)
               then Some "key record and state carry different receipts" else None
           | None => None
           end
  end.

Definition classify_lookup (target : mid) (key : string) (record : option key_record)
    (status : molecule_status) (state_receipt : option collapse_receipt) : receipt_lookup :=
  if match record with Some r => bool_decide (k_molecule r ≠ target) | None => false end
  then LBoundElsewhere
  else
    match record, receipt_for_key key state_receipt with
    | None, None => LUnknown
    | _, Some receipt =>
        if decide (status ≠ MoleculeStatus.Collapsed)
        then LInconsistent ("state carries the receipt but its status is " +:+ status_as_str status)
        else match record_mismatch record receipt with
             | Some detail => LInconsistent detail
             | None => LCommitted receipt
             end
    | Some record, None =>
        match k_phase record with
        | Reserved => LReservedNotApplied (k_digest record)
        | Committed =>
            LInconsistent ("key record is committed but the state of " +:+ mid_raw target +:+
              " does not carry its receipt (status " +:+ status_as_str status +:+ ")")
        end
    end.

(** ** The table, read from its outcomes *)

(** The key record, if there is one, is bound to this very request. *)
Definition bound_here (input : decision_input) : Prop :=
  ∀ kr, in_key_record input = Some kr →
    k_molecule kr = in_target input ∧ k_digest kr = in_digest input.

Definition own_receipt (input : decision_input) : option collapse_receipt :=
  receipt_for_key (c_key (in_condition input)) (in_state_receipt input).

(** A key record that holds the receipt of a finished collapse. *)
Definition committed_record (input : decision_input) (r : collapse_receipt) : Prop :=
  ∃ kr, in_key_record input = Some kr ∧ k_phase kr = Committed ∧ k_receipt kr = Some r.

Definition not_expired (input : decision_input) : Prop :=
  ∀ deadline, not_after (in_condition input) = Some deadline → (in_now input ≤ deadline)%Z.

(** What an admission requires of the molecule, the lease and the clock. *)
Definition precondition (input : decision_input) : Prop :=
  in_lease_refusal input = None ∧ not_expired input ∧
  in_status input = collapsible_to_status (expect_status (in_condition input)) ∧
  in_revision input = expect_revision (in_condition input).

Lemma receipt_for_key_some key o r :
  receipt_for_key key o = Some r ↔ o = Some r ∧ r_key r = key.
Proof.
  unfold receipt_for_key. destruct o as [r'|]; cbn; [|naive_solver].
  case_decide; naive_solver.
Qed.

Lemma key_conflict_none input : key_conflict input = None ↔ bound_here input.
Proof.
  unfold key_conflict, bound_here. destruct (in_key_record input) as [kr|]; [|done].
  case_decide as Hd; split; try done.
  - intros Hb. destruct (Hb kr eq_refl). tauto.
  - intros _ kr' [= <-]. split; apply dec_stable; tauto.
Qed.

Lemma state_conflict_none input :
  state_conflict input = None ↔ ∀ r, own_receipt input = Some r → r_digest r = in_digest input.
Proof.
  unfold state_conflict, own_receipt. destruct (receipt_for_key _ _) as [r|]; [|done].
  case_decide as Hd; split; try done.
  - intros Hb. by destruct (Hd (Hb r eq_refl)).
  - intros _ r' [= <-]. apply dec_stable. tauto.
Qed.

Lemma collapsible_not_terminal c : is_terminal (collapsible_to_status c) = false.
Proof. by destruct c. Qed.

Lemma decide_fresh_admit input b :
  decide_fresh input = Admit b ↔ precondition input ∧ b = negb (is_some (in_key_record input)).
Proof.
  unfold decide_fresh, precondition, not_expired.
  destruct (in_lease_refusal input) as [why|]; [naive_solver|].
  assert (∀ k, (match in_status input with
                | MoleculeStatus.Completed => Refuse AlreadyCompleted
                | MoleculeStatus.Collapsed => Refuse (AlreadyCollapsed (r_key <$> in_state_receipt input))
                | _ => k end) = Admit b ↔ is_terminal (in_status input) = false ∧ k = Admit b) as ->
    by (intros k; destruct (in_status input); naive_solver).
  destruct (not_after (in_condition input)) as [d|]; cbn.
  - case_decide as Hd; cbn.
    + split; [naive_solver|]. intros [(_ & He & _) _]. specialize (He d eq_refl). lia.
    + case_decide as Hs; [naive_solver|]. case_decide as Hr; [naive_solver|].
      rewrite Hs, collapsible_not_terminal. split.
      * intros [_ [= <-]]. split_and!; [done| |done|done|done]. intros ? [= <-]. lia.
      * by intros [_ ->].
  - case_decide as Hs; [naive_solver|]. case_decide as Hr; [naive_solver|].
    rewrite Hs, collapsible_not_terminal. split.
    + intros [_ [= <-]]. by split_and!.
    + by intros [_ ->].
Qed.

Lemma decide_fresh_replay input r b : decide_fresh input ≠ Replay r b.
Proof.
  unfold decide_fresh. destruct (in_lease_refusal input); [done|].
  destruct (in_status input), (not_after (in_condition input)) as [d|]; cbn; repeat case_decide; done.
Qed.

(** A collapse is admitted exactly if its key is unused or reserved for this
    very request and every precondition holds. *)
Lemma decide_admit_iff input b :
  decide_collapse input = Admit b ↔
  bound_here input ∧ own_receipt input = None ∧ (∀ r, ¬ committed_record input r) ∧
  precondition input ∧ b = negb (is_some (in_key_record input)).
Proof.
  unfold decide_collapse. destruct (key_conflict input) as [m|] eqn:Hk.
  { split; [done|]. intros [Hb _]. apply key_conflict_none in Hb. congruence. }
  apply key_conflict_none in Hk. destruct (state_conflict input) as [m|] eqn:Hs.
  { split; [done|]. intros (_ & Ho & _).
    assert (state_conflict input = None) by (apply state_conflict_none; by rewrite Ho). congruence. }
  fold (own_receipt input). destruct (own_receipt input) as [r|]; [naive_solver|].
  rewrite <- (decide_fresh_admit input b). unfold committed_record.
  destruct (in_key_record input) as [[sc k m d [] [r|]]|]; cbn; naive_solver.
Qed.

(** A request is replayed exactly if the receipt of this very request is in
    the state, or in its key record; the key record remains to be completed if
    only the state has it. *)
Lemma decide_replay_iff input r b :
  decide_collapse input = Replay r b ↔
  bound_here input ∧
  ((own_receipt input = Some r ∧ r_digest r = in_digest input ∧
    b = match in_key_record input with
        | None => true
        | Some kr => bool_decide (k_phase kr ≠ Committed)
        end) ∨
   (own_receipt input = None ∧ committed_record input r ∧ b = false)).
Proof.
  unfold decide_collapse. destruct (key_conflict input) as [m|] eqn:Hk.
  { split; [done|]. intros [Hb _]. apply key_conflict_none in Hb. congruence. }
  apply key_conflict_none in Hk. destruct (state_conflict input) as [m|] eqn:Hs.
  { split; [done|]. intros (_ & [(Ho & Hd & _)|(Ho & _)]);
      assert (state_conflict input = None) by (apply state_conflict_none; rewrite Ho; naive_solver);
      congruence. }
  pose proof (proj1 (state_conflict_none input) Hs) as Hs'.
  fold (own_receipt input). destruct (own_receipt input) as [r'|]; [naive_solver|].
  pose proof (decide_fresh_replay input r b). unfold committed_record.
  destruct (in_key_record input) as [[sc k m d [] [r'|]]|]; cbn; naive_solver.
Qed.
