(* ===== verification/State.v ===== *)
(** The persisted molecule record ([crates/cosmon-state/src/lib.rs]), the
    frontier projection ([crates/cosmon-state/src/frontier.rs]) and the orphan
    scan of [crates/cosmon-runtime/src/lib.rs]. The record keeps the fields
    that the modelled code reads. *)
From stdpp Require Import prelude gmap strings list sorting fin_maps.
From S2P Require Import Prelude Text Ids Molecule Links RunState Process Contract.

(** ** The record *)

(** The fields that no modelled code reads or changes are kept together in
    [d_rest]. *)
Record molecule_data := MoleculeData {
  d_id : mid;
  d_fleet_id : string;
  d_formula_id : string;
  d_status : molecule_status;
  d_assigned_worker : option string;
  d_updated_at : Z;
  d_total_steps : nat;
  d_current_step : nat;
  d_collapse_reason : option string;
  d_collapse_cause : option collapse_cause;
  d_collapse_reason_kind : option collapse_reason;
  d_collapsed_step : option nat;
  d_typed_links : list molecule_link;
  d_assigned_role : option agent_role;
  d_session_name : option string;
  d_tags : gset string;
  d_freeze_on_last_step : bool;
  d_merged_at : option Z;
  d_process : option molecule_process;
  d_stuck_at : option Z;
  d_tackled_by : option tackled_by;
  d_tackled_at : option Z;
  d_collapse_receipt : option collapse_receipt;
  d_rest : string;
}.

Definition blocks (m : molecule_data) : list mid := omap blocks_target (d_typed_links m).
Definition blocked_by (m : molecule_data) : list mid := omap blocked_by_source (d_typed_links m).
Definition decay_products (m : molecule_data) : list mid := omap decay_product_id (d_typed_links m).

(** [molecules.iter().map(|m| (&m.id, m)).collect()]: the last record of an
    identifier wins. *)
Definition by_id (molecules : list molecule_data) : gmap mid molecule_data :=
  foldl (λ acc m, <[d_id m := m]> acc) ∅ molecules.

(** ** The frontier *)

Definition predecessor_cleared (molecules : list molecule_data) (id : mid) : bool :=
  match by_id molecules !! id with
  | None => false
  | Some m => if satisfies_blocked_by (d_status m) then is_some (d_merged_at m) else false
  end.

(** [unreadable] lists the directory names of the molecules that could not be
    read. *)
Definition decayed_parent_cleared (molecules : list molecule_data) (unreadable : list string)
    (id : mid) : bool :=
  if decide (mid_raw id ∈ unreadable) then false
  else match by_id molecules !! id with
       | None => true
       | Some parent =>
           match d_status parent with
           | MoleculeStatus.Collapsed => true
           | MoleculeStatus.Frozen => negb (is_some (d_stuck_at parent))
           | MoleculeStatus.Completed => is_some (d_merged_at parent)
           | _ => false
           end
       end.

Definition dispatchable (molecules : list molecule_data) (unreadable : list string)
    (m : molecule_data) : bool :=
  bool_decide (d_status m = MoleculeStatus.Pending) &&
  negb (is_some (d_assigned_worker m)) &&
  forallb (predecessor_cleared molecules) (blocked_by m) &&
  forallb (λ link, match link with
                   | DecayedFrom id => decayed_parent_cleared molecules unreadable id
                   | _ => true
                   end) (d_typed_links m).

Definition compute_from_molecules_with_unreadable (molecules : list molecule_data)
    (unreadable : list string) : list mid :=
  sort_ids (map d_id (filter (λ m, dispatchable molecules unreadable m) molecules)).

Definition compute_from_molecules (molecules : list molecule_data) : list mid :=
  compute_from_molecules_with_unreadable molecules [].

(** ** Orphans *)

(** The probes of [trait LivenessCheck]. *)
Class LivenessCheck := {
  is_session_alive : string → bool;
  is_worker_alive : Z → option Z → bool;
}.

Record orphan := Orphan { orphan_id : mid; orphan_session : string }.

Definition orphan_of `{LivenessCheck} (m : molecule_data) : option orphan :=
  match d_process m with
  | Some process =>
      match pid process with
      | Some p =>
          if is_worker_alive p (pid_start_time process) then None
          else Some (Orphan (d_id m) (default (tmux_session process) (d_session_name m)))
      | None =>
          session ← d_session_name m;
          if is_session_alive session then None else Some (Orphan (d_id m) session)
      end
  | None =>
      session ← d_session_name m;
      if is_session_alive session then None else Some (Orphan (d_id m) session)
  end.

Definition orphan_scan `{LivenessCheck} (molecules : list molecule_data) : list orphan :=
  omap orphan_of (filter (λ m, d_status m = MoleculeStatus.Running) molecules).

(** ** Properties *)

(** Each identifier has one record, as in a store. *)
Definition unique_ids (molecules : list molecule_data) : Prop := NoDup (map d_id molecules).

Lemma by_id_nil id : by_id [] !! id = None.
Proof. apply lookup_empty. Qed.

Lemma by_id_snoc ms m : by_id (ms ++ [m]) = <[d_id m := m]> (by_id ms).
Proof. unfold by_id. by rewrite foldl_app. Qed.

Lemma by_id_some ms id m : by_id ms !! id = Some m → m ∈ ms ∧ d_id m = id.
Proof.
  induction ms as [|m' ms IH] using rev_ind; [by rewrite by_id_nil|].
  rewrite by_id_snoc, lookup_insert_Some. intros [[<- <-]|[_ ?%IH]]; set_solver.
Qed.

Lemma by_id_none ms id : by_id ms !! id = None ↔ ∀ m, m ∈ ms → d_id m ≠ id.
Proof.
  induction ms as [|m' ms IH] using rev_ind; [rewrite by_id_nil; set_solver|].
  rewrite by_id_snoc, lookup_insert_None, IH. set_solver.
Qed.

Lemma by_id_lookup ms m : unique_ids ms → m ∈ ms → by_id ms !! d_id m = Some m.
Proof.
  unfold unique_ids. intros Hu Hm. destruct (by_id ms !! d_id m) as [m'|] eqn:Hb.
  - apply by_id_some in Hb as [Hm' Hid]. f_equal.
    clear -Hu Hm Hm' Hid. induction ms as [|x ms IH]; [set_solver|].
    simpl in Hu. apply NoDup_cons in Hu as [Hx Hu].
    assert (∀ y, y ∈ ms → d_id y ≠ d_id x) as Hfresh.
    { intros y Hy Heq. apply Hx. rewrite <- Heq. by apply list_elem_of_fmap_2. }
    apply elem_of_cons in Hm as [->|Hm], Hm' as [->|Hm']; [done|..|by apply IH];
      by edestruct Hfresh.
  - by apply by_id_none with (m := m) in Hb.
Qed.

Lemma elem_of_blocked_by m b : b ∈ blocked_by m ↔ BlockedBy b ∈ d_typed_links m.
Proof.
  unfold blocked_by. rewrite list_elem_of_omap. split; [|by exists (BlockedBy b)].
  intros ([] & Hl & Hb); simplify_eq/=. done.
Qed.

Lemma elem_of_frontier ms un id :
  id ∈ compute_from_molecules_with_unreadable ms un ↔
  ∃ m, m ∈ ms ∧ d_id m = id ∧ dispatchable ms un m.
Proof.
  unfold compute_from_molecules_with_unreadable. rewrite elem_of_sort_ids, list_elem_of_fmap.
  setoid_rewrite list_elem_of_filter. naive_solver.
Qed.

Lemma predecessor_cleared_spec ms id :
  predecessor_cleared ms id ↔
  ∃ m, by_id ms !! id = Some m ∧ d_status m = MoleculeStatus.Completed ∧ is_Some (d_merged_at m).
Proof.
  unfold predecessor_cleared. destruct (by_id ms !! id) as [m|]; [|by split; [|intros (? & ? & _)]].
  transitivity (d_status m = MoleculeStatus.Completed ∧ is_Some (d_merged_at m)).
  - destruct (d_status m); simpl; rewrite ?is_some_spec; naive_solver.
  - split; [by exists m|]. by intros (m' & [= <-] & ?).
Qed.

(** A molecule is on the frontier exactly when its record is pending and
    unassigned, each [BlockedBy] source is recorded as completed and merged,
    and each [DecayedFrom] parent is readable and either unknown, collapsed,
    parked by a delivered freeze, or completed and merged; the list is sorted. *)
Theorem frontier_spec ms un id :
  StronglySorted ord_le (compute_from_molecules_with_unreadable ms un) ∧
  (id ∈ compute_from_molecules_with_unreadable ms un ↔
   ∃ m, m ∈ ms ∧ d_id m = id ∧ d_status m = MoleculeStatus.Pending ∧
     d_assigned_worker m = None ∧
     (∀ b, BlockedBy b ∈ d_typed_links m → ∃ mb, by_id ms !! b = Some mb ∧
        d_status mb = MoleculeStatus.Completed ∧ is_Some (d_merged_at mb)) ∧
     (∀ p, DecayedFrom p ∈ d_typed_links m → (mid_raw p ∉ un) ∧ ∀ mp, by_id ms !! p = Some mp →
        d_status mp = MoleculeStatus.Collapsed ∨
        (d_status mp = MoleculeStatus.Frozen ∧ d_stuck_at mp = None) ∨
        (d_status mp = MoleculeStatus.Completed ∧ is_Some (d_merged_at mp)))).
Proof.
  split; [apply sort_ids_sorted|]. rewrite elem_of_frontier.
  apply exist_proper. intros m. do 2 (apply and_iff_compat_l).
  unfold dispatchable. rewrite !andb_True, bool_decide_spec, !Is_true_true.
  rewrite !forallb_forall. setoid_rewrite <- list_elem_of_In.
  setoid_rewrite elem_of_blocked_by. setoid_rewrite <- Is_true_true.
  setoid_rewrite predecessor_cleared_spec.
  assert (negb (is_some (d_assigned_worker m)) ↔ d_assigned_worker m = None) as ->
    by (destruct (d_assigned_worker m); naive_solver).
  rewrite <- !(assoc and). do 3 (apply and_iff_compat_l). split.
  - intros Hall p Hp. specialize (Hall _ Hp). simpl in Hall.
    unfold decayed_parent_cleared in Hall. case_decide; [done|]. split; [done|].
    intros mp Hmp. rewrite Hmp in Hall.
    destruct (d_status mp), (d_stuck_at mp), (d_merged_at mp); naive_solver.
  - intros Hall link Hl. destruct link; try done. destruct (Hall _ Hl) as [Hun Hp].
    unfold decayed_parent_cleared. rewrite decide_False by done.
    destruct (by_id ms !! id0) as [mp|]; [|done]. specialize (Hp mp eq_refl).
    destruct (d_status mp), (d_stuck_at mp), (d_merged_at mp); naive_solver.
Qed.

(** Fail closed: a molecule blocked by a predecessor that is missing from
    the store, or recorded as anything but completed and merged, is never on
    the frontier, and learning that some molecule is unreadable never puts a
    molecule on it. *)
Theorem frontier_fail_closed ms un un' m b :
  unique_ids ms → m ∈ ms → BlockedBy b ∈ d_typed_links m →
  (∀ mb, mb ∈ ms → d_id mb = b →
     d_status mb ≠ MoleculeStatus.Completed ∨ d_merged_at mb = None) →
  (d_id m ∉ compute_from_molecules_with_unreadable ms un) ∧
  (∀ id, id ∈ compute_from_molecules_with_unreadable ms (un ++ un') →
         id ∈ compute_from_molecules_with_unreadable ms un).
Proof.
  intros Hu Hm Hb Hno. split.
  - rewrite elem_of_frontier. intros (m' & Hm' & Hid & Hd).
    assert (m' = m) as ->.
    { apply (by_id_lookup ms) in Hm; [|done]. apply (by_id_lookup ms) in Hm'; [|done].
      rewrite Hid in Hm'. congruence. }
    unfold dispatchable in Hd. rewrite !andb_True, !Is_true_true, !forallb_forall in Hd.
    destruct Hd as [[_ Hd] _]. specialize (Hd b).
    rewrite <- list_elem_of_In, <- Is_true_true, elem_of_blocked_by, predecessor_cleared_spec in Hd.
    destruct (Hd Hb) as (mb & [Hin Hmb]%by_id_some & Hs & [? Hmg]).
    destruct (Hno mb Hin Hmb); congruence.
  - intros id. rewrite !elem_of_frontier. intros (m' & Hm' & Hid & Hd). exists m'.
    split_and!; [done..|]. unfold dispatchable in *.
    rewrite !andb_True, !Is_true_true in *. destruct Hd as [? Hd]. split; [done|].
    rewrite forallb_forall in *. intros link Hl. specialize (Hd link Hl).
    destruct link; try done. unfold decayed_parent_cleared in *.
    case_decide as H1; [done|]. rewrite decide_False by set_solver. done.
Qed.

Lemma orphan_of_spec `{LivenessCheck} m id s :
  orphan_of m = Some (Orphan id s) ↔ d_id m = id ∧
    ((∃ pr p, d_process m = Some pr ∧ pid pr = Some p ∧
        is_worker_alive p (pid_start_time pr) = false ∧
        s = default (tmux_session pr) (d_session_name m)) ∨
     ((d_process m ≫= pid) = None ∧ d_session_name m = Some s ∧ is_session_alive s = false)).
Proof.
  assert ((d_session_name m ≫= λ session,
      if is_session_alive session then None else Some (Orphan (d_id m) session)) =
      Some (Orphan id s) ↔
    d_id m = id ∧ d_session_name m = Some s ∧ is_session_alive s = false) as Hsession.
  { destruct (d_session_name m) as [s'|]; simpl; [|by split; [|intros (? & ? & ?)]].
    destruct (is_session_alive s') eqn:Ha.
    - split; [done|]. intros (_ & [= <-] & ?). congruence.
    - split; [by intros [= <- <-]|]. by intros (<- & [= <-] & _). }
  unfold orphan_of. destruct (d_process m) as [pr|]; [destruct (pid pr) as [p|] eqn:Hpid|];
    rewrite ?Hsession; simpl; rewrite ?Hpid; [|naive_solver|naive_solver].
  destruct (is_worker_alive p (pid_start_time pr)) eqn:Ha.
  - split; [done|]. intros (_ & [(pr' & p' & [= <-] & Hp & Ha' & _)|(? & _)]); congruence.
  - split.
    + intros [= <- <-]. split; [done|]. left. eauto 10.
    + intros (<- & [(pr' & p' & [= <-] & Hp & _ & ->)|(? & _)]); [done|congruence].
Qed.

(** The orphan scan reports a running molecule exactly when the probe of
    its own worker kind says it is dead: the process probe when a PID is
    recorded, whatever its session, and the session probe otherwise. *)
Theorem orphan_scan_axis `{LivenessCheck} ms id s :
  Orphan id s ∈ orphan_scan ms ↔
  ∃ m, m ∈ ms ∧ d_id m = id ∧ d_status m = MoleculeStatus.Running ∧
    ((∃ pr p, d_process m = Some pr ∧ pid pr = Some p ∧
        is_worker_alive p (pid_start_time pr) = false ∧
        s = default (tmux_session pr) (d_session_name m)) ∨
     ((d_process m ≫= pid) = None ∧ d_session_name m = Some s ∧ is_session_alive s = false)).
Proof.
  unfold orphan_scan. rewrite list_elem_of_omap. setoid_rewrite list_elem_of_filter.
  apply exist_proper. intros m. rewrite orphan_of_spec. tauto.
Qed.

(** ** At a concrete store *)

(** [b] is pending and blocked by [a], which collapsed. *)
Definition sample_molecule (id : mid) (s : molecule_status) (ls : list molecule_link)
    (merged : option Z) : molecule_data :=
  {| d_id := id; d_fleet_id := "default"; d_formula_id := "task-work"; d_status := s;
     d_assigned_worker := None; d_updated_at := 0; d_total_steps := 1; d_current_step := 0;
     d_collapse_reason := None; d_collapse_cause := None; d_collapse_reason_kind := None;
     d_collapsed_step := None; d_typed_links := ls; d_assigned_role := None;
     d_session_name := None; d_tags := ∅; d_freeze_on_last_step := false;
     d_merged_at := merged; d_process := None; d_stuck_at := None; d_tackled_by := None;
     d_tackled_at := None; d_collapse_receipt := None; d_rest := "" |}.

Definition collapsed_store : list molecule_data :=
  [sample_molecule (short_id "a") MoleculeStatus.Collapsed [Blocks (short_id "b")] None;
   sample_molecule (short_id "b") MoleculeStatus.Pending [BlockedBy (short_id "a")] None].

Lemma frontier_fail_closed_witness :
  short_id "b" ∉ compute_from_molecules_with_unreadable collapsed_store [].
Proof.
  apply (frontier_fail_closed collapsed_store [] []
    (sample_molecule (short_id "b") MoleculeStatus.Pending [BlockedBy (short_id "a")] None) (short_id "a")).
  - apply (bool_decide_unpack (NoDup (map d_id collapsed_store))). by vm_compute.
  - apply list_elem_of_here || (apply list_elem_of_further; apply list_elem_of_here).
  - apply list_elem_of_here.
  - intros mb Hmb. apply elem_of_cons in Hmb as [->|Hmb]; [by left|].
    apply elem_of_cons in Hmb as [->|Hmb]; [by left|]. by apply not_elem_of_nil in Hmb.
Defined.
