(* ===== verification/DagPolicy.v ===== *)
(** The native DAG scheduler of [crates/cosmon-runtime/src/dag_policy.rs]: the
    policy that turns snapshots of the molecules into dispatches, with its
    concurrency caps, affinity and critical-path order, and the garbage
    collection of completed edges. The compilation of the dependency graph
    from the state store is in [DagCompile]. *)
From stdpp Require Import prelude gmap strings list sorting fin_maps.
From S2P Require Import Prelude Graph Plan Affinity CriticalPath Text Ids Molecule Links State.

(** [RuntimeAction] *)
Inductive runtime_action : Type :=
| Nucleate (formula : string) (variables : list (string * string))
| Evolve (id : mid) (evidence : string)
| Complete (id : mid) (why : string)
| Collapse (id : mid) (why : string)
| NoOp.

(** The key of a concurrency cap: formula and step order. *)
Abbreviation cap_key := (string * nat)%type.

Definition cap_key_of (m : molecule_data) : cap_key := (d_formula_id m, d_current_step m).

Record dag_policy := DagPolicy {
  p_edges : list (mid * mid);
  p_plan : plan mid;
  p_known : gset mid;
  p_completed : gset mid;
  p_evidence : string;
  p_limits : gmap cap_key nat;
  p_needs_recompile : bool;
  p_affinity : option (molecule_data → option string);
  p_resident : option string;
  p_switches_saved : nat;
}.

Section Policy.
Context `{!HashOrder mid}.

Definition dag_new (p : plan mid) (edges : list (mid * mid)) : dag_policy :=
  {| p_edges := edges; p_plan := p; p_known := nodes_of edges ∪ plan_ready p;
     p_completed := ∅; p_evidence := "dag-policy: critical-path dispatch";
     p_limits := ∅; p_needs_recompile := false; p_affinity := None; p_resident := None;
     p_switches_saved := 0 |}.

Definition set_plan (p : dag_policy) (pl : plan mid) : dag_policy :=
  {| p_edges := p_edges p; p_plan := pl; p_known := p_known p; p_completed := p_completed p;
     p_evidence := p_evidence p; p_limits := p_limits p;
     p_needs_recompile := p_needs_recompile p; p_affinity := p_affinity p;
     p_resident := p_resident p; p_switches_saved := p_switches_saved p |}.

Definition set_edges (p : dag_policy) (edges : list (mid * mid)) : dag_policy :=
  {| p_edges := edges; p_plan := p_plan p; p_known := p_known p; p_completed := p_completed p;
     p_evidence := p_evidence p; p_limits := p_limits p;
     p_needs_recompile := p_needs_recompile p; p_affinity := p_affinity p;
     p_resident := p_resident p; p_switches_saved := p_switches_saved p |}.

Definition set_known (p : dag_policy) (known : gset mid) : dag_policy :=
  {| p_edges := p_edges p; p_plan := p_plan p; p_known := known; p_completed := p_completed p;
     p_evidence := p_evidence p; p_limits := p_limits p;
     p_needs_recompile := p_needs_recompile p; p_affinity := p_affinity p;
     p_resident := p_resident p; p_switches_saved := p_switches_saved p |}.

Definition set_completed (p : dag_policy) (completed : gset mid) : dag_policy :=
  {| p_edges := p_edges p; p_plan := p_plan p; p_known := p_known p; p_completed := completed;
     p_evidence := p_evidence p; p_limits := p_limits p;
     p_needs_recompile := p_needs_recompile p; p_affinity := p_affinity p;
     p_resident := p_resident p; p_switches_saved := p_switches_saved p |}.

Definition set_needs_recompile (p : dag_policy) (b : bool) : dag_policy :=
  {| p_edges := p_edges p; p_plan := p_plan p; p_known := p_known p;
     p_completed := p_completed p; p_evidence := p_evidence p; p_limits := p_limits p;
     p_needs_recompile := b; p_affinity := p_affinity p;
     p_resident := p_resident p; p_switches_saved := p_switches_saved p |}.

Definition set_resident (p : dag_policy) (r : option string) (saved : nat) : dag_policy :=
  {| p_edges := p_edges p; p_plan := p_plan p; p_known := p_known p;
     p_completed := p_completed p; p_evidence := p_evidence p; p_limits := p_limits p;
     p_needs_recompile := p_needs_recompile p; p_affinity := p_affinity p;
     p_resident := r; p_switches_saved := saved |}.

Definition with_affinity (p : dag_policy) (resolver : molecule_data → option string) :
    dag_policy :=
  {| p_edges := p_edges p; p_plan := p_plan p; p_known := p_known p;
     p_completed := p_completed p; p_evidence := p_evidence p; p_limits := p_limits p;
     p_needs_recompile := p_needs_recompile p; p_affinity := Some resolver;
     p_resident := p_resident p; p_switches_saved := p_switches_saved p |}.

Definition with_resident_model (p : dag_policy) (model : option string) : dag_policy :=
  set_resident p model (p_switches_saved p).

Definition with_limits (p : dag_policy) (limits : gmap cap_key nat) : dag_policy :=
  {| p_edges := p_edges p; p_plan := p_plan p; p_known := p_known p;
     p_completed := p_completed p; p_evidence := p_evidence p; p_limits := limits;
     p_needs_recompile := p_needs_recompile p; p_affinity := p_affinity p;
     p_resident := p_resident p; p_switches_saved := p_switches_saved p |}.

Definition with_evidence (p : dag_policy) (evidence : string) : dag_policy :=
  {| p_edges := p_edges p; p_plan := p_plan p; p_known := p_known p;
     p_completed := p_completed p; p_evidence := evidence; p_limits := p_limits p;
     p_needs_recompile := p_needs_recompile p; p_affinity := p_affinity p;
     p_resident := p_resident p; p_switches_saved := p_switches_saved p |}.

Definition rebuild_plan (p : dag_policy) : dag_policy :=
  match new_with_roots (p_edges p) (p_completed p) (p_known p) with
  | Ok new_plan => set_plan p new_plan
  | Err _ => p
  end.

(** One identifier of [with_pre_completed]; the flag is [changed]. *)
Definition pre_complete (acc : dag_policy * bool) (id : mid) : dag_policy * bool :=
  let '(p, changed) := acc in
  let p := set_known p ({[id]} ∪ p_known p) in
  if decide (id ∈ p_completed p) then (p, changed)
  else (set_plan (set_completed p ({[id]} ∪ p_completed p)) (mark_done (p_plan p) id).1, true).

Definition with_pre_completed (p : dag_policy) (ids : list mid) : dag_policy :=
  let '(p, changed) := foldl pre_complete (p, false) ids in
  if changed : bool then rebuild_plan p else p.

(** The molecules a terminal molecule points at. *)
Definition products_of (typed_links : list molecule_link) : list mid :=
  omap (λ link, match link with
                | DecayProduct id => Some id
                | Blocks target => Some target
                | _ => None
                end) typed_links.

Definition absorb_terminal (p : dag_policy) (mol_id : mid) (typed_links : list molecule_link) :
    dag_policy * bool :=
  let p := set_completed p ({[mol_id]} ∪ p_completed p) in
  let products := products_of typed_links in
  match products with
  | [] => (set_plan p (mark_done (p_plan p) mol_id).1, false)
  | _ =>
      match insert_subgraph (p_edges p) (map (λ x, (mol_id, x)) products) with
      | Ok merged =>
          (set_known (set_edges p merged) (list_to_set products ∪ p_known p), true)
      | Err _ => (set_plan p (mark_done (p_plan p) mol_id).1, false)
      end
  end.

(** Its first statement computes and drops the pruned edge list. *)
Definition gc (p : dag_policy) : dag_policy :=
  let filtered := filter (λ e, ¬ (e.1 ∈ p_completed p ∧ e.2 ∈ p_completed p)) (p_edges p) in
  rebuild_plan (set_edges p filtered).

(** ** One tick *)

(** Pending molecules leave the running set of the plan. *)
Definition reset_pending (molecules : list molecule_data) (p : dag_policy) : dag_policy :=
  foldl (λ p m, if decide (d_status m = MoleculeStatus.Pending)
                then set_plan p (mark_ready (p_plan p) (d_id m)) else p) p molecules.

(** Finished, or parked by an explicit delivered freeze. *)
Definition finished (m : molecule_data) : bool :=
  match d_status m with
  | MoleculeStatus.Completed | MoleculeStatus.Collapsed => true
  | MoleculeStatus.Frozen => d_freeze_on_last_step m && negb (is_some (d_stuck_at m))
  | _ => false
  end.

Definition newly_terminal (molecules : list molecule_data) (p : dag_policy) :
    list (mid * list molecule_link) :=
  omap (λ id,
    if decide (id ∈ p_completed p) then None
    else match by_id molecules !! id with
         | None => None
         | Some m => if finished m then Some (d_id m, d_typed_links m) else None
         end) (sort_ids (hash_iter (p_known p))).

Definition absorb_all (p : dag_policy) (terminal : list (mid * list molecule_link)) :
    dag_policy * bool :=
  foldl (λ '(p, needs_rebuild) '(id, links),
    let '(p, spliced) := absorb_terminal p id links in (p, needs_rebuild || spliced))
    (p, false) terminal.

Definition critical_set (p : dag_policy) : gset mid :=
  match critical_path_weighted (p_edges p) (λ _, 1%Z) with
  | Ok path => list_to_set path
  | Err _ => ∅
  end.

(** [b_crit.cmp(&a_crit).then_with(|| a.cmp(b))] answers at most [Equal]. *)
Definition crit_le (critical : gset mid) (a b : mid) : Prop :=
  (a ∈ critical ∧ b ∉ critical) ∨ ((a ∈ critical ↔ b ∈ critical) ∧ a ≼ b).

#[export] Instance crit_le_dec critical : RelDecision (crit_le critical).
Proof.
  intros a b. unfold crit_le.
  destruct (decide (a ∈ critical)), (decide (b ∈ critical)), (decide (a ≼ b));
    solve [left; tauto | right; tauto].
Defined.

Definition running_per_key (molecules : list molecule_data) : gmap cap_key nat :=
  foldl (λ acc m,
    if decide (d_status m = MoleculeStatus.Running)
    then <[cap_key_of m := default 0 (acc !! cap_key_of m) + 1]> acc else acc) ∅ molecules.

(** The admission loop under the caps. *)
Definition admit_step (molecules : list molecule_data) (limits : gmap cap_key nat)
    (acc : gmap cap_key nat * list mid) (id : mid) : gmap cap_key nat * list mid :=
  let '(running, admitted) := acc in
  match by_id molecules !! id with
  | None => (running, admitted)
  | Some m =>
      let key := cap_key_of m in
      match limits !! key with
      | None => (running, admitted ++ [id])
      | Some cap =>
          let running_now := default 0 (running !! key) in
          if decide (running_now < cap)
          then (<[key := running_now + 1]> running, admitted ++ [id])
          else (running, admitted)
      end
  end.

Definition admitted (molecules : list molecule_data) (limits : gmap cap_key nat)
    (eligible : list mid) : list mid :=
  if decide (limits = ∅) then eligible
  else (foldl (admit_step molecules limits) (running_per_key molecules, []) eligible).2.

Definition affinity_reorder (molecules : list molecule_data) (p : dag_policy)
    (eligible : list mid) : dag_policy * list mid :=
  match p_affinity p with
  | None => (p, eligible)
  | Some resolver =>
      let resident := p_resident p in
      let model_of id := by_id molecules !! id ≫= resolver in
      let naive := model_switch_count model_of eligible resident in
      let ordered := affinity_order model_of eligible resident in
      let clustered := model_switch_count model_of ordered resident in
      let saved := naive - clustered in
      let resident' :=
        match last ordered ≫= model_of with Some m => Some m | None => resident end in
      (set_resident p resident' (p_switches_saved p + saved), ordered)
  end.

(** The emission loop. *)
Definition emit_step (acc : dag_policy * list runtime_action) (id : mid) :
    dag_policy * list runtime_action :=
  let '(p, actions) := acc in
  (set_plan p (mark_running (p_plan p) id), actions ++ [Evolve id (p_evidence p)]).

(** The eligible molecules of a tick, in priority order. *)
Definition eligible_now (molecules : list molecule_data) (p : dag_policy) : list mid :=
  let frontier_set : gset mid := list_to_set (compute_from_molecules molecules) in
  merge_sort (crit_le (critical_set p))
    (filter (λ id, id ∈ frontier_set) (btree_iter (plan_ready (p_plan p)))).

(** The state of the policy when the frontier is read: pending molecules
    reset, terminal ones absorbed, the plan rebuilt if edges were spliced. *)
Definition observe (molecules : list molecule_data) (p : dag_policy) : dag_policy :=
  let p := reset_pending molecules p in
  let '(p, needs_rebuild) := absorb_all p (newly_terminal molecules p) in
  if needs_rebuild : bool then rebuild_plan (set_needs_recompile p true) else p.

Definition next_actions (molecules : list molecule_data) (p : dag_policy) :
    dag_policy * list runtime_action :=
  let p := observe molecules p in
  let eligible := admitted molecules (p_limits p) (eligible_now molecules p) in
  let '(p, eligible) := affinity_reorder molecules p eligible in
  foldl emit_step (p, []) eligible.

(** [tracks_molecule] *)
Definition tracks_molecule (p : dag_policy) (id : mid) : bool := bool_decide (id ∈ p_known p).
End Policy.

(** ** The invariant of the policy *)

Section Invariant.
Context `{!HashOrder mid}.
Implicit Types (p : dag_policy) (ms : list molecule_data).

Definition finished_set (pl : plan mid) : gset mid := plan_done pl ∪ plan_skipped pl.

(** Edges are acyclic (through [plan_wf]), the plan is about them, a molecule
    is completed when the plan holds it done or skipped, and every molecule
    of the plan is tracked. *)
Record dag_wf p : Prop := {
  dw_plan : ∃ roots, plan_wf roots (p_plan p) ∧ roots ∪ nodes_of (p_edges p) ⊆ p_known p;
  dw_edges : plan_edges (p_plan p) = p_edges p;
  dw_completed : p_completed p = finished_set (p_plan p);
  dw_known : p_completed p ⊆ p_known p;
}.

(** While terminal molecules are absorbed the edges may run ahead of the plan. *)
Record dag_absorbing p : Prop := {
  da_acyclic : acyclic (p_edges p);
  da_nodes : nodes_of (p_edges p) ⊆ p_known p;
  da_known : p_completed p ⊆ p_known p;
}.

Lemma mark_done_finished (pl : plan mid) id :
  finished_set (mark_done pl id).1 = {[id]} ∪ finished_set pl ∧
  plan_edges (mark_done pl id).1 = plan_edges pl.
Proof.
  unfold finished_set. destruct (decide (id ∈ plan_done pl ∪ plan_skipped pl)) as [Hid|Hid].
  - rewrite mark_done_terminal by done. simpl. split; [|done]. apply set_eq. set_solver.
  - destruct (mark_done_fresh pl id Hid) as (-> & -> & -> & _).
    split; [|done]. by rewrite (assoc_L (∪)).
Qed.

Lemma mark_running_finished (pl : plan mid) id :
  finished_set (mark_running pl id) = finished_set pl ∧
  plan_edges (mark_running pl id) = plan_edges pl.
Proof. unfold mark_running. by case_decide. Qed.

Lemma mark_ready_finished (pl : plan mid) id :
  finished_set (mark_ready pl id) = finished_set pl ∧
  plan_edges (mark_ready pl id) = plan_edges pl.
Proof. unfold mark_ready. by case_decide. Qed.

Lemma rebuild_plan_wf p : dag_absorbing p → dag_wf (rebuild_plan p).
Proof.
  intros [Hac Hn Hk]. unfold rebuild_plan.
  destruct (new_with_roots (p_edges p) (p_completed p) (p_known p)) as [pl|e] eqn:Hnew.
  - pose proof (new_with_roots_wf _ _ _ _ Hnew) as Hwf.
    destruct (new_with_roots_fields _ _ _ _ Hnew) as (He & Hs & _ & Hd).
    split; simpl; [|done| |done].
    + exists (p_known p). split; [done|]. set_solver.
    + unfold finished_set. rewrite Hs, Hd. by rewrite (left_id_L ∅ (∪)).
  - unfold new_with_roots in Hnew.
    destruct (toposort_cases (p_edges p)) as [(l & Hl & _)|(n & _ & c & Hc & _)];
      [by rewrite Hl in Hnew|by destruct (Hac c)].
Qed.

Lemma rebuild_plan_fields p :
  p_completed (rebuild_plan p) = p_completed p ∧ p_known (rebuild_plan p) = p_known p ∧
  p_edges (rebuild_plan p) = p_edges p.
Proof. unfold rebuild_plan. by destruct (new_with_roots _ _ _). Qed.

Lemma dag_wf_absorbing p : dag_wf p → dag_absorbing p.
Proof.
  intros [(roots & Hwf & Hr) He Hc Hk]. split; [|set_solver|done].
  rewrite <- He. by apply (pw_acyclic _ _ Hwf).
Qed.

(** Transitions of the plan that keep its edges and finished set. *)
Lemma set_plan_wf p pl :
  dag_wf p → (∀ roots, plan_wf roots (p_plan p) → plan_wf roots pl) →
  finished_set pl = finished_set (p_plan p) → plan_edges pl = plan_edges (p_plan p) →
  dag_wf (set_plan p pl).
Proof.
  intros [(roots & Hwf & Hr) He Hc Hk] Hpl Hf Hpe. split; simpl; [eauto|congruence..|done].
Qed.

Lemma reset_pending_wf ms p :
  dag_wf p → dag_wf (reset_pending ms p) ∧
  p_completed (reset_pending ms p) = p_completed p ∧ p_known (reset_pending ms p) = p_known p.
Proof.
  unfold reset_pending. revert p. induction ms as [|m ms IH]; intros p Hp; simpl; [done|].
  case_decide; [|by apply IH]. destruct (mark_ready_finished (p_plan p) (d_id m)) as [Hf He].
  assert (dag_wf (set_plan p (mark_ready (p_plan p) (d_id m)))) as Hp'
    by (apply set_plan_wf; eauto using mark_ready_wf).
  by destruct (IH _ Hp') as (? & -> & ->).
Qed.

(** Marking done in step with the completed set. *)
Lemma complete_wf p id :
  dag_wf p → id ∈ p_known p →
  dag_wf (set_plan (set_completed p ({[id]} ∪ p_completed p)) (mark_done (p_plan p) id).1).
Proof.
  intros [(roots & Hwf & Hr) He Hc Hk] Hid.
  destruct (mark_done_finished (p_plan p) id) as [Hf Hpe].
  split.
  - exists roots. split; [by apply mark_done_wf|done].
  - etrans; [exact Hpe|exact He].
  - etrans; [|symmetry; exact Hf]. simpl. by rewrite Hc.
  - simpl. set_solver.
Qed.

Lemma absorb_terminal_spec p id links :
  dag_absorbing p → id ∈ p_known p →
  let '(p', spliced) := absorb_terminal p id links in
  dag_absorbing p' ∧ (dag_wf p → spliced = false → dag_wf p') ∧
  p_completed p' = {[id]} ∪ p_completed p ∧ p_known p ⊆ p_known p'.
Proof.
  intros Hab Hid. pose proof Hab as [Hac Hn Hk]. unfold absorb_terminal.
  assert (∀ pl, dag_absorbing (set_plan (set_completed p ({[id]} ∪ p_completed p)) pl)) as Hab'
    by (intros; split; simpl; [done..|set_solver]).
  destruct (products_of links) as [|x xs] eqn:Hprod.
  { split_and!; [done| |done..]. intros ? _. by apply (complete_wf p id). }
  simpl. set (new := (id, x) :: map (λ y, (id, y)) xs).
  destruct (insert_subgraph (p_edges p) new) as [merged|e] eqn:Hins.
  - apply insert_subgraph_ok in Hins as [Hacm Hin]. split_and!; [|done|done|set_solver].
    split; simpl; [done| |set_solver].
    intros n (e & He & Hne)%elem_of_nodes_of. apply Hin in He.
    rewrite elem_of_union, elem_of_union, elem_of_singleton, elem_of_list_to_set.
    destruct He as [He|He].
    + right. apply Hn, elem_of_nodes_of. eauto.
    + assert (e ∈ map (λ y, (id, y)) (x :: xs)) as (y & -> & Hy)%list_elem_of_fmap by done.
      simpl in Hne. destruct Hne as [->| ->]; [by right|]. left.
      apply elem_of_cons in Hy. tauto.
  - split_and!; [done| |done..]. intros ? _. by apply (complete_wf p id).
Qed.

Lemma absorb_all_spec terminal p :
  dag_wf p → (∀ t, t ∈ terminal → t.1 ∈ p_known p) →
  let '(p', needs_rebuild) := absorb_all p terminal in
  dag_absorbing p' ∧ (needs_rebuild = false → dag_wf p') ∧
  p_completed p' = list_to_set terminal.*1 ∪ p_completed p ∧ p_known p ⊆ p_known p'.
Proof.
  intros Hp Hknown. unfold absorb_all. revert Hknown.
  induction terminal as [|[id links] terminal IH] using rev_ind; intros Hknown.
  { simpl. split_and!; [by apply dag_wf_absorbing|done| |done]. by rewrite (left_id_L ∅ (∪)). }
  rewrite foldl_app. simpl.
  assert (∀ t, t ∈ terminal → t.1 ∈ p_known p) as Ht by (intros; apply Hknown; set_solver).
  specialize (IH Ht). destruct (foldl _ _ terminal) as [p1 nr].
  destruct IH as (Hab & Hwf & Hc & Hk).
  assert (id ∈ p_known p1) as Hid by (apply Hk, (Hknown (id, links)); set_solver).
  pose proof (absorb_terminal_spec p1 id links Hab Hid) as Hspec.
  destruct (absorb_terminal p1 id links) as [p2 spliced].
  destruct Hspec as (Hab2 & Hwf2 & Hc2 & Hk2). split_and!; [done| | |set_solver].
  - intros [Hnr Hsp]%orb_false_iff. auto.
  - rewrite Hc2, Hc. apply set_eq. intros x. rewrite fmap_app, list_to_set_app_L. set_solver.
Qed.

Lemma elem_of_newly_terminal ms p t :
  t ∈ newly_terminal ms p ↔
  ∃ m, by_id ms !! t.1 = Some m ∧ t = (d_id m, d_typed_links m) ∧ finished m ∧
    t.1 ∈ p_known p ∧ (t.1 ∉ p_completed p).
Proof.
  unfold newly_terminal. rewrite list_elem_of_omap.
  setoid_rewrite elem_of_sort_ids. setoid_rewrite elem_of_hash_iter. split.
  - intros (id & Hid & Ht). case_decide; [done|].
    destruct (by_id ms !! id) as [m|] eqn:Hm; [|done].
    destruct (finished m) eqn:Hf; [|done]. simplify_eq. simpl.
    apply by_id_some in Hm as Hm'. destruct Hm' as [_ <-]. exists m. by rewrite Hf.
  - intros (m & Hm & -> & Hf & Hk & Hc). exists (d_id m). simpl in *. split; [done|].
    rewrite decide_False by done. rewrite Hm. by destruct (finished m).
Qed.

(** Observing a snapshot keeps the invariant; what becomes completed is what
    the snapshot reports as finished among the tracked molecules. *)
Lemma observe_spec ms p :
  dag_wf p →
  dag_wf (observe ms p) ∧ p_known p ⊆ p_known (observe ms p) ∧
  (∀ id, id ∈ p_completed (observe ms p) ↔
     id ∈ p_completed p ∨
     (id ∈ p_known p ∧ ∃ m, by_id ms !! id = Some m ∧ finished m)).
Proof.
  intros Hp. unfold observe. destruct (reset_pending_wf ms p Hp) as (Hp1 & Hc1 & Hk1).
  set (p1 := reset_pending ms p) in *. clearbody p1.
  assert (∀ t, t ∈ newly_terminal ms p1 → t.1 ∈ p_known p1) as Ht
    by (intros t (m & _ & _ & _ & ? & _)%elem_of_newly_terminal; done).
  pose proof (absorb_all_spec (newly_terminal ms p1) p1 Hp1 Ht) as Hspec.
  destruct (absorb_all p1 _) as [p2 nr]. destruct Hspec as (Hab & Hwf & Hc & Hk).
  assert (∀ id, id ∈ p_completed p2 ↔ id ∈ p_completed p ∨
     (id ∈ p_known p ∧ ∃ m, by_id ms !! id = Some m ∧ finished m)) as Hc2.
  { intros id. rewrite Hc, Hc1, elem_of_union, elem_of_list_to_set, list_elem_of_fmap.
    setoid_rewrite elem_of_newly_terminal. rewrite Hc1, Hk1. split.
    - intros [([id' links] & -> & m & ? & ? & ? & ? & _)|?]; eauto.
    - intros [?|(Hid & m & Hm & Hf)]; [by right|].
      destruct (decide (id ∈ p_completed p)) as [|Hn]; [by right|]. left.
      exists (d_id m, d_typed_links m). apply by_id_some in Hm as Hm'. destruct Hm' as [_ <-].
      split; [done|]. exists m. done. }
  rewrite Hk1 in Hk. destruct nr.
  - destruct (rebuild_plan_fields (set_needs_recompile p2 true)) as (Hc3 & Hk3 & _).
    rewrite Hc3, Hk3. split_and!; [|done|done]. apply rebuild_plan_wf. by destruct Hab.
  - split_and!; [by apply Hwf|done|done].
Qed.

(** The configuration of a policy, which no tick changes. *)
Definition config p := (p_limits p, p_evidence p, p_affinity p).

Lemma rebuild_plan_config p : config (rebuild_plan p) = config p.
Proof. unfold rebuild_plan. by destruct (new_with_roots _ _ _). Qed.

Lemma absorb_terminal_config p id links :
  config (absorb_terminal p id links).1 = config p.
Proof.
  unfold absorb_terminal. destruct (products_of links); [done|].
  by destruct (insert_subgraph _ _).
Qed.

Lemma observe_config ms p : config (observe ms p) = config p.
Proof.
  unfold observe. assert (config (reset_pending ms p) = config p) as Hr.
  { unfold reset_pending. revert p. induction ms as [|m ms IH]; intros p; simpl; [done|].
    rewrite IH. by case_decide. }
  set (p1 := reset_pending ms p) in *. clearbody p1.
  assert (config (absorb_all p1 (newly_terminal ms p1)).1 = config p1) as Ha.
  { unfold absorb_all. generalize (newly_terminal ms p1) as l.
    induction l as [|[id links] l IH] using rev_ind; [done|].
    rewrite foldl_app. simpl. destruct (foldl _ _ l) as [p2 nr]. simpl in IH.
    pose proof (absorb_terminal_config p2 id links) as Hc.
    destruct (absorb_terminal p2 id links) as [p3 sp]. simpl in *. by rewrite Hc. }
  destruct (absorb_all p1 _) as [p2 nr]. simpl in Ha. rewrite <- Hr, <- Ha.
  destruct nr; [|done]. by rewrite rebuild_plan_config.
Qed.

Lemma emit_spec p ids :
  let '(p', actions) := foldl emit_step (p, []) ids in
  actions = map (λ id, Evolve id (p_evidence p)) ids ∧
  (dag_wf p → dag_wf p') ∧ p_completed p' = p_completed p ∧ p_known p' = p_known p ∧
  p_evidence p' = p_evidence p ∧
  plan_running (p_plan p') =
    plan_running (p_plan p) ∪ list_to_set (filter (λ id, id ∈ plan_ready (p_plan p)) ids) ∧
  plan_ready (p_plan p') = plan_ready (p_plan p) ∖ list_to_set ids.
Proof.
  induction ids as [|id ids IH] using rev_ind; simpl.
  { split_and!; [done..| |]; apply set_eq; set_solver. }
  rewrite foldl_app. simpl. destruct (foldl _ _ ids) as [p1 actions].
  destruct IH as (-> & Hwf & Hc & Hk & He & Hrun & Hready).
  destruct (mark_running_finished (p_plan p1) id) as [Hf Hpe].
  split_and!; simpl; [|intros Hp; apply set_plan_wf; eauto using mark_running_wf|done..| |].
  - by rewrite map_app, He.
  - rewrite filter_app, list_to_set_app_L, filter_cons. unfold mark_running. rewrite Hready.
    clear -Hrun. case_decide as H1; case_decide as H2; simpl; rewrite Hrun; apply set_eq;
      intros x; clear Hrun.
    + set_solver.
    + set_solver.
    + assert (id ∈ ids) by (apply dec_stable; set_solver).
      rewrite !elem_of_union, !elem_of_list_to_set, !list_elem_of_filter. set_solver.
    + set_solver.
  - rewrite list_to_set_app_L. unfold mark_running.
    clear -Hready. case_decide as Hd; simpl; rewrite ?Hready in *; apply set_eq;
      clear Hready; set_solver.
Qed.
End Invariant.

(** ** What a tick dispatches *)

Section Tick.
Context `{!HashOrder mid}.
Implicit Types (p : dag_policy) (ms : list molecule_data).

#[local] Instance crit_le_total critical : Total (crit_le critical).
Proof.
  intros a b. unfold crit_le.
  destruct (decide (a ∈ critical)), (decide (b ∈ critical)), (total ord_le a b); tauto.
Qed.

#[local] Instance crit_le_trans critical : Transitive (crit_le critical).
Proof.
  intros a b c. unfold crit_le.
  assert (a ≼ b → b ≼ c → a ≼ c) by (intros; by transitivity b).
  destruct (decide (a ∈ critical)), (decide (b ∈ critical)), (decide (c ∈ critical)); tauto.
Qed.

Lemma eligible_now_sorted ms p :
  StronglySorted (crit_le (critical_set p)) (eligible_now ms p).
Proof. apply StronglySorted_merge_sort; apply _. Qed.

Lemma elem_of_eligible_now ms p id :
  id ∈ eligible_now ms p ↔ id ∈ plan_ready (p_plan p) ∧ id ∈ compute_from_molecules ms.
Proof.
  unfold eligible_now. rewrite merge_sort_Permutation, list_elem_of_filter.
  rewrite elem_of_btree_iter, elem_of_list_to_set. tauto.
Qed.

Lemma eligible_now_NoDup ms p : NoDup (eligible_now ms p).
Proof.
  unfold eligible_now. rewrite merge_sort_Permutation. apply NoDup_filter, btree_iter_NoDup.
Qed.

(** The running molecules of the snapshot that count against a cap. *)
Definition running_count ms (key : cap_key) : nat :=
  length (filter (λ m, d_status m = MoleculeStatus.Running ∧ cap_key_of m = key) ms).

(** The molecules of a list that count against a cap. *)
Definition key_count ms (key : cap_key) (ids : list mid) : nat :=
  length (filter (λ id, cap_key_of <$> by_id ms !! id = Some key) ids).

Lemma running_per_key_lookup ms key :
  default 0 (running_per_key ms !! key) = running_count ms key.
Proof.
  unfold running_per_key, running_count.
  induction ms as [|m ms IH] using rev_ind; [done|].
  rewrite foldl_app, filter_app, length_app, filter_cons; simpl.
  set (acc := foldl _ _ ms) in *.
  destruct (decide (d_status m = MoleculeStatus.Running)) as [Hr|Hr].
  - destruct (decide (cap_key_of m = key)) as [<-|Hk].
    + rewrite lookup_insert_eq, decide_True by done. simpl. lia.
    + rewrite lookup_insert_ne, decide_False by naive_solver. simpl. lia.
  - rewrite decide_False by naive_solver. simpl. lia.
Qed.

Lemma key_count_snoc ms key ids id :
  key_count ms key (ids ++ [id]) =
    key_count ms key ids + (if decide (cap_key_of <$> by_id ms !! id = Some key) then 1 else 0).
Proof.
  unfold key_count. rewrite filter_app, length_app, filter_cons. by case_decide.
Qed.

(** The admission loop keeps a subsequence and never exceeds a cap. *)
Lemma admit_spec ms limits eligible :
  let '(running, adm) := foldl (admit_step ms limits) (running_per_key ms, []) eligible in
  adm `sublist_of` eligible ∧
  (∀ key cap, limits !! key = Some cap →
     default 0 (running !! key) = running_count ms key + key_count ms key adm ∧
     running_count ms key + key_count ms key adm ≤ cap `max` running_count ms key).
Proof.
  induction eligible as [|id eligible IH] using rev_ind; simpl.
  { split; [done|]. intros key cap _. rewrite running_per_key_lookup.
    unfold key_count; simpl. lia. }
  rewrite foldl_app. simpl. destruct (foldl _ _ eligible) as [running adm].
  destruct IH as [Hsub Hcap]. unfold admit_step.
  assert (adm `sublist_of` eligible ++ [id]) as Hskip by (by apply sublist_inserts_r).
  assert (adm ++ [id] `sublist_of` eligible ++ [id]) as Hkeep by (by apply sublist_app).
  destruct (by_id ms !! id) as [m|] eqn:Hm; [|done].
  destruct (limits !! cap_key_of m) as [cap|] eqn:Hl.
  - case_decide as Hlt; [|done]. split; [done|]. intros key cap' Hk.
    rewrite key_count_snoc, Hm. destruct (Hcap key cap' Hk) as [Hrun Hle].
    destruct (decide (cap_key_of m = key)) as [<-|Hne].
    + rewrite lookup_insert_eq. simplify_eq. rewrite Hrun in *.
      rewrite decide_True by done. simpl. lia.
    + rewrite lookup_insert_ne by done.
      rewrite decide_False by (simpl; congruence). lia.
  - split; [done|]. intros key cap' Hk. destruct (Hcap key cap' Hk) as [Hrun Hle].
    rewrite key_count_snoc, Hm, decide_False by (simpl; congruence). lia.
Qed.

Lemma admitted_sublist ms limits eligible : admitted ms limits eligible `sublist_of` eligible.
Proof.
  unfold admitted. case_decide; [done|]. pose proof (admit_spec ms limits eligible) as Hs.
  by destruct (foldl _ _ eligible) as [running adm], Hs.
Qed.

Lemma admitted_cap ms limits eligible key cap :
  limits !! key = Some cap →
  running_count ms key + key_count ms key (admitted ms limits eligible) ≤
    cap `max` running_count ms key.
Proof.
  intros Hk. unfold admitted. case_decide as Hl; [by rewrite Hl in Hk|].
  pose proof (admit_spec ms limits eligible) as Hs.
  destruct (foldl _ _ eligible) as [running adm]. by eapply Hs.
Qed.

Lemma key_count_perm ms key l l' : l ≡ₚ l' → key_count ms key l = key_count ms key l'.
Proof. intros Hl. unfold key_count. by rewrite Hl. Qed.

Lemma affinity_reorder_spec ms p eligible :
  let '(p', ordered) := affinity_reorder ms p eligible in
  ordered ≡ₚ eligible ∧ p_plan p' = p_plan p ∧ p_edges p' = p_edges p ∧
  p_known p' = p_known p ∧ p_completed p' = p_completed p ∧ p_evidence p' = p_evidence p ∧
  p_limits p' = p_limits p ∧ (p_affinity p = None → ordered = eligible).
Proof.
  unfold affinity_reorder. destruct (p_affinity p) as [resolver|]; [|done].
  by split; [apply affinity_order_perm|].
Qed.

(** The decomposition of a tick on which the theorems rest. *)
Lemma next_actions_spec ms p :
  dag_wf p →
  let '(p', actions) := next_actions ms p in
  let q := observe ms p in
  ∃ ids, actions = map (λ id, Evolve id (p_evidence p)) ids ∧
    ids ≡ₚ admitted ms (p_limits p) (eligible_now ms q) ∧
    (p_affinity p = None → ids = admitted ms (p_limits p) (eligible_now ms q)) ∧
    dag_wf p' ∧ p_completed p' = p_completed q ∧ p_known p' = p_known q ∧
    plan_running (p_plan p') = plan_running (p_plan q) ∪ list_to_set ids ∧
    plan_ready (p_plan p') = plan_ready (p_plan q) ∖ list_to_set ids.
Proof.
  intros Hp. destruct (observe_spec ms p Hp) as (Hq & _ & _). unfold next_actions.
  pose proof (observe_config ms p) as Hcfg. unfold config in Hcfg.
  set (q := observe ms p) in *. clearbody q. injection Hcfg as Hl Hevp Haffp.
  rewrite <- Hl, <- Hevp, <- Haffp.
  pose proof (affinity_reorder_spec ms q (admitted ms (p_limits q) (eligible_now ms q))) as Haff.
  destruct (affinity_reorder ms q _) as [q1 ids].
  destruct Haff as (Hperm & Hpl & He & Hk & Hc & Hev & _ & Hnone).
  pose proof (emit_spec q1 ids) as Hemit. destruct (foldl emit_step (q1, []) ids) as [p' actions].
  destruct Hemit as (-> & Hwf & Hc' & Hk' & _ & Hrun & Hready).
  exists ids. rewrite Hev. split_and!; [done..| |congruence|congruence| |by rewrite Hready, Hpl].
  - apply Hwf. destruct Hq. by split; rewrite ?Hpl, ?He, ?Hk, ?Hc.
  - rewrite Hrun, Hpl. do 2 f_equal. apply list_filter_True, Forall_forall.
    intros id Hid. rewrite Hperm in Hid.
    eapply elem_of_sublist in Hid; [|apply admitted_sublist].
    by apply elem_of_eligible_now in Hid as [? _].
Qed.
End Tick.

(** ** Properties of the policy *)

Section PolicyTheorems.
Context `{!HashOrder mid}.
Implicit Types (p : dag_policy) (ms : list molecule_data).

Lemma next_actions_wf ms p :
  dag_wf p →
  dag_wf (next_actions ms p).1 ∧ p_completed p ⊆ p_completed (next_actions ms p).1 ∧
  p_known p ⊆ p_known (next_actions ms p).1.
Proof.
  intros Hp. pose proof (next_actions_spec ms p Hp) as Hspec.
  destruct (observe_spec ms p Hp) as (_ & Hk & Hc).
  destruct (next_actions ms p) as [p' actions]. simpl.
  destruct Hspec as (ids & _ & _ & _ & Hwf & -> & -> & _).
  split_and!; [done| |done]. intros id Hid. apply Hc. by left.
Qed.

(** C4. Safety of dispatch: a tick only evolves, each molecule at most once;
    a dispatched molecule is recorded as pending and unassigned, all its
    [BlockedBy] sources are recorded as completed and merged, its
    dependencies among the policy's edges are completed, and the plan holds it
    running, no longer ready, afterwards. *)
Theorem dispatch_safe ms p :
  dag_wf p →
  let '(p', actions) := next_actions ms p in
  ∃ ids, actions = map (λ id, Evolve id (p_evidence p)) ids ∧ NoDup ids ∧
    ∀ id, id ∈ ids →
      id ∈ plan_running (p_plan p') ∧ (id ∉ plan_ready (p_plan p')) ∧
      (id ∉ p_completed p') ∧
      (∀ d, (d, id) ∈ p_edges (observe ms p) → d ∈ p_completed p') ∧
      ∃ m, m ∈ ms ∧ d_id m = id ∧ d_status m = MoleculeStatus.Pending ∧
        d_assigned_worker m = None ∧
        ∀ b, BlockedBy b ∈ d_typed_links m → ∃ mb, by_id ms !! b = Some mb ∧
          d_status mb = MoleculeStatus.Completed ∧ is_Some (d_merged_at mb).
Proof.
  intros Hp. pose proof (next_actions_spec ms p Hp) as Hspec.
  destruct (observe_spec ms p Hp) as ([(roots & Hwf & _) He Hc _] & _ & _).
  destruct (next_actions ms p) as [p' actions].
  destruct Hspec as (ids & -> & Hperm & _ & _ & Hc' & _ & Hrun & Hready).
  exists ids. split_and!; [done| |].
  { rewrite Hperm. eapply sublist_NoDup; [apply eligible_now_NoDup|apply admitted_sublist]. }
  intros id Hid. assert (id ∈ eligible_now ms (observe ms p)) as Hel.
  { rewrite Hperm in Hid. eapply elem_of_sublist; [exact Hid|apply admitted_sublist]. }
  apply elem_of_eligible_now in Hel as [Hr Hf].
  apply (pw_ready _ _ Hwf) in Hr as (_ & Hnot & Hdeps).
  rewrite Hrun, Hready, Hc', Hc. unfold finished_set. split_and!.
  - rewrite elem_of_union, elem_of_list_to_set. by right.
  - rewrite elem_of_difference, elem_of_list_to_set. tauto.
  - clear -Hnot. set_solver.
  - intros d Hd. apply Hdeps. by rewrite He.
  - apply elem_of_frontier in Hf as (m & Hm & Hmid & Hd). exists m. split_and!; [done..| | |].
    + unfold dispatchable in Hd. rewrite !andb_True, bool_decide_spec in Hd. tauto.
    + unfold dispatchable in Hd. rewrite !andb_True in Hd.
      destruct Hd as [[[_ Ha] _] _]. by destruct (d_assigned_worker m).
    + intros b Hb. apply predecessor_cleared_spec.
      unfold dispatchable in Hd. rewrite !andb_True, !Is_true_true, !forallb_forall in Hd.
      destruct Hd as [[_ Hd] _]. rewrite Is_true_true. apply Hd.
      by rewrite <- list_elem_of_In, elem_of_blocked_by.
Qed.

(** C28. The frontier is the only gate: without caps a tick dispatches exactly
    the ready molecules that the frontier allows. Together with
    [dispatch_safe] this refutes the release of a dependent on a collapsed
    blocker: it is ready in the plan and still not dispatched. *)
Theorem dispatch_complete ms p :
  dag_wf p → p_limits p = ∅ →
  ∃ ids, (next_actions ms p).2 = map (λ id, Evolve id (p_evidence p)) ids ∧
    ∀ id, id ∈ ids ↔
      id ∈ plan_ready (p_plan (observe ms p)) ∧ id ∈ compute_from_molecules ms.
Proof.
  intros Hp Hl. pose proof (next_actions_spec ms p Hp) as Hspec.
  destruct (next_actions ms p) as [p' actions].
  destruct Hspec as (ids & -> & Hperm & _). exists ids. split; [done|]. intros id.
  rewrite Hperm. unfold admitted. rewrite decide_True by done. apply elem_of_eligible_now.
Qed.

(** C29. Concurrency caps: counting the molecules that already run and those a
    tick dispatches, the declared cap of a (formula, step) key is exceeded
    only by what was already running. *)
Theorem caps_respected ms p key cap :
  dag_wf p → p_limits p !! key = Some cap →
  ∃ ids, (next_actions ms p).2 = map (λ id, Evolve id (p_evidence p)) ids ∧
    running_count ms key + key_count ms key ids ≤ cap `max` running_count ms key.
Proof.
  intros Hp Hl. pose proof (next_actions_spec ms p Hp) as Hspec.
  destruct (next_actions ms p) as [p' actions].
  destruct Hspec as (ids & -> & Hperm & _). exists ids. split; [done|].
  rewrite (key_count_perm _ _ _ _ Hperm). by apply admitted_cap.
Qed.

(** Dispatch order: without affinity the molecules of the critical path
    come first and identifiers decide within each group; with affinity the
    same molecules are dispatched, with no more model switches, and the saving
    counter grows by exactly the difference. *)
Theorem dispatch_order ms p eligible :
  (p_affinity p = None → StronglySorted (crit_le (critical_set p))
     (affinity_reorder ms p (admitted ms (p_limits p) (eligible_now ms p))).2) ∧
  (affinity_reorder ms p eligible).2 ≡ₚ eligible ∧
  (∀ resolver, p_affinity p = Some resolver →
     let model_of id := by_id ms !! id ≫= resolver in
     model_switch_count model_of (affinity_reorder ms p eligible).2 (p_resident p) +
       p_switches_saved (affinity_reorder ms p eligible).1 =
     model_switch_count model_of eligible (p_resident p) + p_switches_saved p).
Proof.
  split_and!.
  - intros Hnone. unfold affinity_reorder. rewrite Hnone. simpl.
    eapply StronglySorted_sublist; [apply admitted_sublist|apply eligible_now_sorted].
  - pose proof (affinity_reorder_spec ms p eligible) as Hs.
    destruct (affinity_reorder ms p eligible). by destruct Hs.
  - intros resolver Hr model_of. unfold affinity_reorder. rewrite Hr. simpl.
    pose proof (affinity_order_saves model_of eligible (p_resident p) eligible (reflexivity _)).
    fold model_of. lia.
Qed.

(** A policy over a freshly compiled plan. *)
Lemma dag_new_wf edges roots pl :
  new_with_roots edges ∅ roots = Ok pl → dag_wf (dag_new pl edges).
Proof.
  intros Hnew. pose proof (new_with_roots_wf _ _ _ _ Hnew) as Hwf.
  destruct (new_with_roots_fields _ _ _ _ Hnew) as (He & Hs & Hr & Hd).
  split; simpl; [|done| |set_solver].
  - exists roots. split; [done|]. intros r [Hroot|Hn]%elem_of_union; [|set_solver].
    destruct (decide (r ∈ nodes_of edges)) as [Hin|Hin]; [set_solver|].
    apply elem_of_union_r, (pw_ready _ _ Hwf). split_and!.
    + set_solver.
    + rewrite Hr, Hd, Hs. set_solver.
    + intros d Hdep. rewrite He in Hdep. destruct Hin. eauto with graph.
  - unfold finished_set. rewrite Hs, Hd. set_solver.
Qed.

Lemma with_pre_completed_wf p ids :
  dag_wf p → dag_wf (with_pre_completed p ids) ∧
  p_completed (with_pre_completed p ids) = list_to_set ids ∪ p_completed p.
Proof.
  intros Hp. unfold with_pre_completed.
  assert (let '(p', _) := foldl pre_complete (p, false) ids in
    dag_wf p' ∧ p_completed p' = list_to_set ids ∪ p_completed p) as Hfold.
  { induction ids as [|id ids IH] using rev_ind; simpl; [split; [done|set_solver]|].
    rewrite foldl_app. simpl. destruct (foldl _ _ ids) as [p1 changed].
    destruct IH as [Hwf Hc]. unfold pre_complete.
    assert (dag_wf (set_known p1 ({[id]} ∪ p_known p1))) as Hk.
    { destruct Hwf as [(roots & ? & ?) ? ? ?]. split; simpl; [|done..|set_solver].
      exists roots. split; [done|set_solver]. }
    rewrite list_to_set_app_L. case_decide as Hin; simpl in *.
    - split; [done|]. rewrite Hc in *. apply set_eq. set_solver.
    - split; [apply (complete_wf _ id Hk); simpl; set_solver|].
      rewrite Hc. apply set_eq. set_solver. }
  destruct (foldl _ _ ids) as [p1 changed]. destruct Hfold as [Hwf Hc].
  destruct changed; [|done].
  destruct (rebuild_plan_fields p1) as (-> & _). split; [|done].
  by apply rebuild_plan_wf, dag_wf_absorbing.
Qed.

Lemma gc_wf p : dag_wf p → dag_wf (gc p) ∧ p_completed (gc p) = p_completed p.
Proof.
  intros Hp. unfold gc.
  match goal with |- context [set_edges p ?f] => set (filtered := f) end.
  destruct (rebuild_plan_fields (set_edges p filtered)) as (-> & _). split; [|done].
  destruct (dag_wf_absorbing _ Hp) as [Hac Hn Hk].
  assert (∀ e, e ∈ filtered → e ∈ p_edges p) as Hsub by by intros e [_ ?]%list_elem_of_filter.
  apply rebuild_plan_wf. split; simpl; [| |done].
  - intros n Hc. apply (Hac n). eapply tc_congruence with (f := id); [|exact Hc].
    intros a b. apply Hsub.
  - intros n (e & He & Hne)%elem_of_nodes_of. apply Hn, elem_of_nodes_of. eauto.
Qed.
(** Collecting finished edges never changes what may be dispatched: only
    edges between completed molecules go, every dependency of an unfinished
    molecule stays, and the rebuilt plan holds ready exactly the tracked
    unfinished molecules all of whose recorded dependencies are completed. The
    rebuilt plan holds nothing running. *)
Theorem gc_keeps_readiness p :
  dag_wf p →
  (∀ d n, (d, n) ∈ p_edges (gc p) ↔
     (d, n) ∈ p_edges p ∧ ¬ (d ∈ p_completed p ∧ n ∈ p_completed p)) ∧
  plan_running (p_plan (gc p)) = ∅ ∧
  ∀ n, n ∈ plan_ready (p_plan (gc p)) ↔
    n ∈ p_known p ∧ (n ∉ p_completed p) ∧ ∀ d, (d, n) ∈ p_edges p → d ∈ p_completed p.
Proof.
  intros Hp. destruct (gc_wf p Hp) as [Hwf _]. unfold gc in *.
  match type of Hwf with context [set_edges p ?f] => set (filtered := f) in * end.
  assert (∀ d n, (d, n) ∈ filtered ↔
    (d, n) ∈ p_edges p ∧ ¬ (d ∈ p_completed p ∧ n ∈ p_completed p)) as Hf
    by (intros d n; unfold filtered; rewrite list_elem_of_filter; simpl; tauto).
  destruct (rebuild_plan_fields (set_edges p filtered)) as (_ & _ & ->). split; [exact Hf|].
  apply dag_wf_absorbing in Hwf as [Hac _ _]. unfold rebuild_plan in *. simpl in *.
  destruct (new_with_roots filtered (p_completed p) (p_known p)) as [pl|e] eqn:Hnew.
  - pose proof (new_with_roots_wf _ _ _ _ Hnew) as Hpl.
    destruct (new_with_roots_fields _ _ _ _ Hnew) as (He & Hs & Hr & Hd). simpl.
    split; [done|]. intros n. rewrite (pw_ready _ _ Hpl).
    unfold deps_satisfied. rewrite He, Hs, Hr, Hd.
    assert (n ∈ nodes_of filtered → n ∈ p_known p) as Hk.
    { intros (e & Hin & Hn)%elem_of_nodes_of. apply (da_nodes _ (dag_wf_absorbing _ Hp)).
      apply elem_of_nodes_of. exists e. destruct e. by apply Hf in Hin as [? _]. }
    setoid_rewrite Hf. clear -Hk. rewrite !elem_of_union. set_unfold. split.
    + intros (Hn & Hnot & Hdeps). split_and!; [tauto|tauto|]. intros d Hd.
      destruct (decide (d ∈ p_completed p)) as [|Hx]; [done|].
      destruct (Hdeps d) as [?|?]; [|done..]. tauto.
    + intros (Hn & Hnot & Hdeps). split_and!; [tauto|tauto|]. intros d [Hd _]. right. eauto.
  - destruct (toposort_cases filtered) as [(l & Hl & _)|(n & _ & c & Hc & _)];
      unfold new_with_roots in Hnew; [by rewrite Hl in Hnew|by destruct (Hac c)].
Qed.
End PolicyTheorems.

(** ** At a concrete policy *)

Section Examples.
#[local] Existing Instance plain_order.

(** [b] waits for [a]; [c] stands alone. *)
Definition id_a : mid := short_id "a".
Definition id_b : mid := short_id "b".
Definition id_c : mid := short_id "c".

Definition sample_plan : plan mid :=
  match new_with_roots [(id_a, id_b)] ∅ {[id_c]} with
  | Ok pl => pl
  | Err _ => MkPlan [] ∅ ∅ ∅ ∅
  end.

Definition sample_policy : dag_policy := dag_new sample_plan [(id_a, id_b)].

(** At most one worker on the first step of [task-work]. *)
Definition capped_policy : dag_policy := with_limits sample_policy {[("task-work", 0) := 1]}.

Definition sample_snapshot : list molecule_data :=
  [sample_molecule id_c MoleculeStatus.Pending [] None;
   sample_molecule id_b MoleculeStatus.Pending [BlockedBy id_a] None;
   sample_molecule id_a MoleculeStatus.Completed [Blocks id_b] (Some 9%Z)].

Lemma sample_plan_new : new_with_roots [(id_a, id_b)] ∅ {[id_c]} = Ok sample_plan.
Proof.
  assert (is_ok (new_with_roots [(id_a, id_b)] ∅ {[id_c]}) = true) as Hok by (by vm_compute).
  unfold sample_plan. by destruct (new_with_roots _ _ _).
Qed.

Lemma sample_policy_wf : dag_wf sample_policy.
Proof. apply (dag_new_wf _ {[id_c]}), sample_plan_new. Qed.

Lemma capped_policy_wf : dag_wf capped_policy.
Proof. destruct sample_policy_wf. by split. Qed.

(** Critical path first, then identifiers; the cap holds [c] back. *)
Example sample_tick :
  (next_actions sample_snapshot sample_policy).2 =
    [Evolve id_b "dag-policy: critical-path dispatch";
     Evolve id_c "dag-policy: critical-path dispatch"] ∧
  (next_actions sample_snapshot capped_policy).2 =
    [Evolve id_b "dag-policy: critical-path dispatch"].
Proof. split; by vm_compute. Qed.

Lemma dispatch_safe_witness :
  ∃ ids, (next_actions sample_snapshot sample_policy).2 =
    map (λ id, Evolve id "dag-policy: critical-path dispatch") ids ∧ NoDup ids.
Proof.
  pose proof (dispatch_safe sample_snapshot sample_policy sample_policy_wf) as H.
  destruct (next_actions sample_snapshot sample_policy) as [p' actions].
  destruct H as (ids & -> & Hnd & _). by exists ids.
Defined.

Lemma dispatch_complete_witness :
  ∃ ids, (next_actions sample_snapshot sample_policy).2 =
    map (λ id, Evolve id "dag-policy: critical-path dispatch") ids ∧
    ∀ id, id ∈ ids ↔ id ∈ plan_ready (p_plan (observe sample_snapshot sample_policy)) ∧
      id ∈ compute_from_molecules sample_snapshot.
Proof. exact (dispatch_complete sample_snapshot sample_policy sample_policy_wf eq_refl). Defined.

Lemma caps_respected_witness :
  ∃ ids, (next_actions sample_snapshot capped_policy).2 =
    map (λ id, Evolve id "dag-policy: critical-path dispatch") ids ∧
    running_count sample_snapshot ("task-work", 0) + key_count sample_snapshot ("task-work", 0) ids
      ≤ 1 `max` running_count sample_snapshot ("task-work", 0).
Proof. apply (caps_respected sample_snapshot capped_policy); [exact capped_policy_wf|done]. Defined.

Lemma dispatch_order_witness :
  StronglySorted (crit_le (critical_set sample_policy))
    (affinity_reorder sample_snapshot sample_policy
      (admitted sample_snapshot ∅ (eligible_now sample_snapshot sample_policy))).2.
Proof. by apply (dispatch_order sample_snapshot sample_policy []). Defined.

Lemma gc_keeps_readiness_witness : plan_running (p_plan (gc sample_policy)) = ∅.
Proof. apply (gc_keeps_readiness sample_policy sample_policy_wf). Defined.
End Examples.
