(* ===== verification/DagCompile.v ===== *)
(** Compilation of the dependency graph from the state store, and the
    operations of the policy that reload it ([compile_plan], [recompile] and
    [refresh_scope] of [crates/cosmon-runtime/src/dag_policy.rs]). *)
From stdpp Require Import prelude gmap strings list sorting fin_maps relations.
From S2P Require Import Prelude Graph Plan Affinity CriticalPath Text Ids Molecule Links State DagPolicy.

(** ** The store *)

Inductive load_result :=
| Loaded (m : molecule_data)
| NotFound
| LoadFailed (why : string).

(** What the policy uses of [trait StateStore]: a store holds finitely many
    molecules. *)
Class StateStore := {
  load_molecule : mid → load_result;
  list_molecules : result string (list molecule_data);
  store_ids : gset mid;
  store_ids_spec id : load_molecule id ≠ NotFound → id ∈ store_ids;
}.

Inductive compile_error :=
| StoreError (why : string)
| CycleIn (e : topo_error mid).

Definition neighbors (m : molecule_data) : list mid := blocked_by m ++ blocks m ++ decay_products m.

Record bfs_state := BfsState {
  b_visited : gset mid;
  b_queue : list mid;
  b_loaded : gmap mid (list molecule_link);
  b_error : option string;
}.

(** [if visited.insert(id) { queue.push_back(id) }] *)
Definition visit (acc : gset mid * list mid) (id : mid) : gset mid * list mid :=
  let '(visited, queue) := acc in
  if decide (id ∈ visited) then (visited, queue) else ({[id]} ∪ visited, queue ++ [id]).

Section Compile.
Context `{!StateStore, !HashOrder mid}.

(** One iteration of [while let Some(id) = queue.pop_front()]; the early
    return on a failed load ends the loop. *)
Definition bfs_step (st : bfs_state) : option bfs_state :=
  match b_error st, b_queue st with
  | Some _, _ | None, [] => None
  | None, id :: queue =>
      match load_molecule id with
      | NotFound => Some (BfsState (b_visited st) queue (b_loaded st) None)
      | LoadFailed e => Some (BfsState (b_visited st) queue (b_loaded st) (Some e))
      | Loaded data =>
          let '(visited, queue) := foldl visit (b_visited st, queue) (neighbors data) in
          Some (BfsState visited queue (<[id := d_typed_links data]> (b_loaded st)) None)
      end
  end.

Definition bfs_init (roots : list mid) : bfs_state :=
  let '(visited, queue) := foldl visit (∅, []) roots in BfsState visited queue ∅ None.

(** Everything the traversal can ever visit. *)
Definition bfs_universe (roots : list mid) : gset mid :=
  list_to_set roots ∪
  list_to_set (elements store_ids ≫= λ id,
    match load_molecule id with Loaded m => neighbors m | _ => [] end).

Definition bfs_run (roots : list mid) : bfs_state :=
  loop (size (bfs_universe roots)) bfs_step (bfs_init roots).

Definition edge_of_link (loaded : gmap mid (list molecule_link)) (id : mid)
    (link : molecule_link) : option (mid * mid) :=
  match link with
  | BlockedBy source =>
      match loaded !! source with Some _ => Some (source, id) | None => None end
  | Blocks target =>
      match loaded !! target with
      | Some ls =>
          if existsb (λ l, match l with BlockedBy source => bool_decide (source = id)
                                      | _ => false end) ls
          then None else Some (id, target)
      | None => None
      end
  | DecayProduct child =>
      match loaded !! child with Some _ => Some (id, child) | None => None end
  | _ => None
  end.

Definition compile_edges (loaded : gmap mid (list molecule_link)) : list (mid * mid) :=
  sort_ids (hash_iter (dom loaded)) ≫= λ id,
    omap (edge_of_link loaded id) (default [] (loaded !! id)).

Definition compile_plan (roots : list mid) :
    result compile_error (plan mid * list (mid * mid)) :=
  let st := bfs_run roots in
  match b_error st with
  | Some e => Err (StoreError e)
  | None =>
      let edges := compile_edges (b_loaded st) in
      let standalone_roots := list_to_set (filter (λ r, is_Some (b_loaded st !! r)) roots) in
      match new_with_roots edges ∅ standalone_roots with
      | Ok pl => Ok (pl, edges)
      | Err e => Err (CycleIn e)
      end
  end.

(** [DagPolicy::recompile] *)
Definition recompile (p : dag_policy) : result compile_error dag_policy :=
  match compile_plan (hash_iter (p_known p)) with
  | Err e => Err e
  | Ok (_, edges) =>
      let p := set_known p (nodes_of edges ∪ p_known p) in
      Ok (set_needs_recompile (rebuild_plan (set_edges p edges)) false)
  end.

(** Does a live molecule point at a tracked one? The tracked set grows while
    the listing is scanned. *)
Definition scope_step (known : gset mid) (m : molecule_data) : gset mid :=
  match d_status m with
  | MoleculeStatus.Pending | MoleculeStatus.Running =>
      if existsb (λ link, match link with
                          | BlockedBy source => bool_decide (source ∈ known)
                          | DecayProduct id => bool_decide (id ∈ known)
                          | _ => false
                          end) (d_typed_links m)
      then {[d_id m]} ∪ known else known
  | _ => known
  end.

(** [DagPolicy::refresh_scope]. What the scan found stays known when the
    compilation after it fails. *)
Definition refresh_scope (p : dag_policy) : result compile_error () * dag_policy :=
  match list_molecules with
  | Err e => (Err (StoreError e), p)
  | Ok all =>
      let p := set_known p (foldl scope_step (p_known p) all) in
      match recompile p with
      | Err e => (Err e, p)
      | Ok p => (Ok tt, p)
      end
  end.

(** ** The traversal computes the reachable part of the store *)

Definition points_to (a b : mid) : Prop := ∃ m, load_molecule a = Loaded m ∧ b ∈ neighbors m.

Definition reachable (roots : list mid) (id : mid) : Prop :=
  ∃ r, r ∈ roots ∧ rtc points_to r id.

(** [queue'] is what a visited molecule still has to go through. *)
Record bfs_inv (roots : list mid) (st : bfs_state) : Prop := {
  bi_universe : b_visited st ⊆ bfs_universe roots;
  bi_queue id : id ∈ b_queue st → id ∈ b_visited st;
  bi_reach id : id ∈ b_visited st → reachable roots id;
  bi_roots id : id ∈ roots → id ∈ b_visited st;
  bi_loaded id ls :
    b_loaded st !! id = Some ls →
    id ∈ b_visited st ∧ ∃ m, load_molecule id = Loaded m ∧ ls = d_typed_links m;
  bi_error e : b_error st = Some e → ∃ id, reachable roots id ∧ load_molecule id = LoadFailed e;
  bi_done id :
    b_error st = None → id ∈ b_visited st → id ∉ b_queue st →
    load_molecule id = NotFound ∨
    ∃ m, load_molecule id = Loaded m ∧ b_loaded st !! id = Some (d_typed_links m) ∧
      ∀ n, n ∈ neighbors m → n ∈ b_visited st;
}.

(** The number of pops left: queued plus not yet visited. *)
Definition bfs_measure (roots : list mid) (st : bfs_state) : nat :=
  length (b_queue st) + size (bfs_universe roots ∖ b_visited st).

Lemma visit_spec (U : gset mid) ids visited queue :
  let '(visited', queue') := foldl visit (visited, queue) ids in
  visited' = list_to_set ids ∪ visited ∧
  (∀ x, x ∈ queue' ↔ x ∈ queue ∨ (x ∈ ids ∧ x ∉ visited)) ∧
  (list_to_set ids ⊆ U → length queue' + size (U ∖ visited') = length queue + size (U ∖ visited)).
Proof.
  induction ids as [|id ids IH] using rev_ind; simpl.
  { split_and!; [set_solver..|done]. }
  rewrite foldl_app. simpl. destruct (foldl _ _ ids) as [v q].
  destruct IH as (Hv & Hq & Hm). unfold visit. rewrite list_to_set_app_L.
  case_decide as Hin.
  - split_and!; [set_solver| |].
    + intros x. rewrite Hq, elem_of_app, list_elem_of_singleton.
      split; [tauto|]. intros [?|[[?| ->] ?]]; [tauto..|].
      rewrite Hv, elem_of_union, elem_of_list_to_set in Hin. tauto.
    + intros Hsub. apply Hm. set_solver.
  - split_and!; [set_solver| |].
    + intros x. rewrite !elem_of_app, !list_elem_of_singleton, Hq.
      rewrite Hv, elem_of_union in Hin. naive_solver.
    + intros Hsub. rewrite <- Hm by set_solver. rewrite length_app. simpl.
      assert (id ∈ U) by set_solver.
      assert (U ∖ v = {[id]} ∪ U ∖ ({[id]} ∪ v)) as ->.
      { apply set_eq. intros x. destruct (decide (x = id)) as [->|]; set_solver. }
      rewrite size_insert_new by set_solver. lia.
Qed.

Lemma neighbors_universe roots id m n :
  load_molecule id = Loaded m → n ∈ neighbors m → n ∈ bfs_universe roots.
Proof.
  intros Hl Hn. apply elem_of_union_r, elem_of_list_to_set, list_elem_of_bind.
  exists id. rewrite Hl. split; [done|]. apply elem_of_elements, store_ids_spec. by rewrite Hl.
Qed.

Lemma bfs_init_inv roots :
  bfs_inv roots (bfs_init roots) ∧ bfs_measure roots (bfs_init roots) ≤ size (bfs_universe roots).
Proof.
  unfold bfs_init, bfs_measure. pose proof (visit_spec (bfs_universe roots) roots ∅ []) as Hv.
  destruct (foldl visit (∅, []) roots) as [v q]. destruct Hv as (-> & Hq & Hm). simpl in *.
  split; [split; simpl|].
  - unfold bfs_universe. set_solver.
  - intros id Hid%Hq. set_solver.
  - intros id Hid. exists id. split; [set_solver|reflexivity].
  - set_solver.
  - intros id ls. by rewrite lookup_empty.
  - done.
  - intros id _ Hid Hnq. destruct Hnq. apply Hq. set_solver.
  - rewrite Hm by (unfold bfs_universe; set_solver).
    simpl. apply subseteq_size. set_solver.
Qed.

Lemma bfs_step_inv roots st st' :
  bfs_inv roots st → bfs_step st = Some st' →
  bfs_inv roots st' ∧ bfs_measure roots st' < bfs_measure roots st.
Proof.
  intros [HU Hqv Hreach Hroots Hld Herr Hdone] Hstep. unfold bfs_step in Hstep.
  destruct (b_error st) as [e|] eqn:He; [done|].
  destruct (b_queue st) as [|id q] eqn:Hq; [done|].
  assert (id ∈ b_visited st) as Hid by (apply Hqv; set_solver).
  unfold bfs_measure. rewrite Hq. simpl.
  destruct (load_molecule id) as [m| |e] eqn:Hl.
  - pose proof (visit_spec (bfs_universe roots) (neighbors m) (b_visited st) q) as Hv.
    destruct (foldl visit (b_visited st, q) (neighbors m)) as [v q'].
    destruct Hv as (-> & Hq' & Hm). simplify_eq. simpl.
    assert (list_to_set (neighbors m) ⊆ bfs_universe roots) as Hnu.
    { intros n Hn%elem_of_list_to_set. by eapply neighbors_universe. }
    split; [split; simpl|].
    + set_solver.
    + intros x [Hx|[Hx _]]%Hq'; [|set_solver]. apply elem_of_union_r, Hqv. set_solver.
    + intros x [Hx%elem_of_list_to_set|Hx]%elem_of_union; [|by apply Hreach].
      destruct (Hreach id Hid) as (r & Hr & Hp). exists r. split; [done|].
      eapply rtc_r; [exact Hp|]. by exists m.
    + intros x Hx. apply elem_of_union_r. auto.
    + intros x ls. rewrite lookup_insert_Some. intros [[<- <-]|[_ Hx]].
      * split; [set_solver|]. by exists m.
      * destruct (Hld x ls Hx) as [? ?]. split; [set_solver|done].
    + done.
    + intros x _ Hx Hnq. rewrite Hq' in Hnq.
      destruct (decide (x = id)) as [->|Hne].
      { right. exists m. rewrite lookup_insert_eq. split_and!; [done..|set_solver]. }
      assert (x ∈ b_visited st) as Hxv.
      { apply dec_stable. intros Hnv. apply Hnq. right. set_solver. }
      destruct (Hdone x eq_refl Hxv) as [?|(m' & ? & ? & ?)]; [set_solver|by left|].
      right. exists m'. rewrite lookup_insert_ne by done. split_and!; [done..|set_solver].
    + specialize (Hm Hnu). lia.
  - simplify_eq. simpl. split; [|lia]. split; simpl; [done| |done..|].
    + intros x Hx. apply Hqv. set_solver.
    + intros x _ Hx Hnq. destruct (decide (x = id)) as [->|]; [by left|].
      apply Hdone; [done..|]. set_solver.
  - simplify_eq. simpl. split; [|lia]. split; simpl; [done| |done..| |done].
    + intros x Hx. apply Hqv. set_solver.
    + intros e' [= <-]. eauto.
Qed.

(** The loop ends with an empty queue or an error, and without an error it has
    loaded exactly the reachable molecules of the store. *)
Lemma bfs_run_done roots :
  bfs_inv roots (bfs_run roots) ∧ (b_error (bfs_run roots) = None → b_queue (bfs_run roots) = []).
Proof.
  destruct (bfs_init_inv roots) as [Hinit Hm]. unfold bfs_run.
  assert (bfs_inv roots (loop (size (bfs_universe roots)) bfs_step (bfs_init roots))) as Hinv.
  { apply loop_inv; [|done]. intros st st' Hst Hs. by destruct (bfs_step_inv _ _ _ Hst Hs). }
  split; [done|]. intros Hnone.
  assert (bfs_step (loop (size (bfs_universe roots)) bfs_step (bfs_init roots)) = None) as Hexit.
  { apply (loop_exits bfs_step (bfs_inv roots)) with (μ := bfs_measure roots); [|..|done|done].
    - intros st st' Hst Hs. by destruct (bfs_step_inv _ _ _ Hst Hs).
    - intros st st' Hst Hs. by destruct (bfs_step_inv _ _ _ Hst Hs). }
  unfold bfs_step in Hexit at 1. rewrite Hnone in Hexit.
  destruct (b_queue _) as [|id q]; [done|]. exfalso.
  destruct (load_molecule id); [|done..]. by destruct (foldl visit _ _).
Qed.

Lemma bfs_run_loaded roots id ls :
  b_error (bfs_run roots) = None →
  b_loaded (bfs_run roots) !! id = Some ls ↔
  reachable roots id ∧ ∃ m, load_molecule id = Loaded m ∧ ls = d_typed_links m.
Proof.
  intros Hnone. destruct (bfs_run_done roots) as [Hinv Hempty]. specialize (Hempty Hnone).
  set (st := bfs_run roots) in *. clearbody st.
  assert (∀ x, x ∈ b_visited st → load_molecule x = NotFound ∨
    ∃ m, load_molecule x = Loaded m ∧ b_loaded st !! x = Some (d_typed_links m) ∧
      ∀ n, n ∈ neighbors m → n ∈ b_visited st) as Hdone.
  { intros x Hx. apply (bi_done _ _ Hinv); [done..|]. rewrite Hempty. set_solver. }
  assert (∀ r x, rtc points_to r x → r ∈ b_visited st → x ∈ b_visited st) as Hclosed.
  { induction 1 as [|r y x (m & Hm & Hy) _ IH]; [done|]. intros Hr. apply IH.
    destruct (Hdone r Hr) as [?|(m' & Hm' & _ & Hn)]; [congruence|]. apply Hn. congruence. }
  split.
  - intros Hl. destruct (bi_loaded _ _ Hinv id ls Hl) as [Hv Hm]. split; [|done].
    by apply (bi_reach _ _ Hinv).
  - intros [(r & Hr & Hp) (m & Hm & ->)].
    destruct (Hdone id) as [?|(m' & Hm' & Hl & _)]; [|congruence|congruence].
    eapply Hclosed; [exact Hp|]. by apply (bi_roots _ _ Hinv).
Qed.
End Compile.

(** ** The compiled edges *)

Section CompiledEdges.
Implicit Types (loaded : gmap mid (list molecule_link)).

Lemma has_blocked_by_spec (a : mid) (ls : list molecule_link) :
  existsb (λ l, match l with BlockedBy source => bool_decide (source = a) | _ => false end) ls
    = true ↔ BlockedBy a ∈ ls.
Proof.
  rewrite existsb_exists. setoid_rewrite <- list_elem_of_In. split.
  - intros (l & Hl & Hb). destruct l; try done. by apply bool_decide_eq_true in Hb as ->.
  - intros Hin. exists (BlockedBy a). split; [done|]. by apply bool_decide_eq_true.
Qed.

Lemma elem_of_compile_edges `{!HashOrder mid} loaded a b :
  (a, b) ∈ compile_edges loaded ↔
  ∃ la lb, loaded !! a = Some la ∧ loaded !! b = Some lb ∧
    (BlockedBy a ∈ lb ∨ Blocks b ∈ la ∨ DecayProduct b ∈ la).
Proof.
  assert ((a, b) ∈ compile_edges loaded ↔ ∃ id ls link, loaded !! id = Some ls ∧ link ∈ ls ∧
    edge_of_link loaded id link = Some (a, b)) as ->.
  { unfold compile_edges. rewrite list_elem_of_bind. split.
    - intros (id & Hin & Hid). rewrite elem_of_sort_ids, elem_of_hash_iter, elem_of_dom in Hid.
      destruct Hid as [ls Hls]. rewrite Hls in Hin.
      apply list_elem_of_omap in Hin as (link & Hl & He). eauto 10.
    - intros (id & ls & link & Hls & Hl & He). exists id. rewrite Hls. split.
      + apply list_elem_of_omap. eauto.
      + rewrite elem_of_sort_ids, elem_of_hash_iter, elem_of_dom. eauto. }
  split.
  - intros (id & ls & link & Hls & Hl & He). destruct link; simpl in He; try done.
    + destruct (loaded !! id0) as [l2|] eqn:H2; [|done]. simplify_eq. eauto 10.
    + destruct (loaded !! target) as [l2|] eqn:H2; [|done].
      destruct (existsb _ l2); [done|]. simplify_eq. eauto 10.
    + destruct (loaded !! source) as [l2|] eqn:H2; [|done]. simplify_eq. eauto 10.
  - intros (la & lb & Ha & Hb & [Hl|[Hl|Hl]]).
    + exists b, lb, (BlockedBy a). simpl. by rewrite Ha.
    + destruct (existsb (λ l, match l with BlockedBy source => bool_decide (source = a)
        | _ => false end) lb) eqn:He.
      * exists b, lb, (BlockedBy a). apply has_blocked_by_spec in He. simpl. by rewrite Ha.
      * exists a, la, (Blocks b). simpl. by rewrite Hb, He.
    + exists a, la, (DecayProduct b). simpl. by rewrite Hb.
Qed.
End CompiledEdges.

(** ** Properties *)

Section CompileTheorems.
Context `{!StateStore, !HashOrder mid}.

(** The dependencies recorded in the store between reachable molecules. *)
Definition depends (roots : list mid) (a b : mid) : Prop :=
  reachable roots a ∧ reachable roots b ∧
  ∃ ma mb, load_molecule a = Loaded ma ∧ load_molecule b = Loaded mb ∧
    (BlockedBy a ∈ d_typed_links mb ∨ Blocks b ∈ d_typed_links ma ∨
     DecayProduct b ∈ d_typed_links ma).

Lemma compile_edges_depends roots a b :
  b_error (bfs_run roots) = None →
  (a, b) ∈ compile_edges (b_loaded (bfs_run roots)) ↔ depends roots a b.
Proof.
  intros Hnone. rewrite elem_of_compile_edges. setoid_rewrite (bfs_run_loaded roots); [|done..].
  unfold depends. naive_solver.
Qed.

Lemma compile_plan_ok roots pl edges :
  compile_plan roots = Ok (pl, edges) →
  b_error (bfs_run roots) = None ∧ edges = compile_edges (b_loaded (bfs_run roots)) ∧
  ∃ standalone, new_with_roots edges ∅ standalone = Ok pl ∧
    (∀ r, r ∈ standalone ↔ r ∈ roots ∧ is_Some (b_loaded (bfs_run roots) !! r)).
Proof.
  unfold compile_plan. destruct (b_error (bfs_run roots)); [done|].
  destruct (new_with_roots _ _ _) as [pl'|] eqn:Hnew; [|done]. intros [= <- <-].
  split_and!; [done..|]. eexists. split; [exact Hnew|]. intros r.
  rewrite elem_of_list_to_set, list_elem_of_filter. tauto.
Qed.

Lemma new_with_roots_acyclic (edges : list (mid * mid)) skip roots pl :
  new_with_roots edges skip roots = Ok pl → acyclic edges.
Proof.
  unfold new_with_roots. destruct (toposort edges) eqn:Ht; [|done].
  intros _. by eapply toposort_ok_acyclic.
Qed.

(** C31. [compile_plan] answers exactly the dependencies that the store
    records between the molecules reachable from the roots, whichever end
    carries the link; it fails only if a reachable molecule cannot be loaded
    or the recorded dependencies have a cycle, and it succeeds otherwise. *)
Theorem compile_plan_spec roots :
  match compile_plan roots with
  | Ok (pl, edges) =>
      (∀ a b, (a, b) ∈ edges ↔ depends roots a b) ∧ acyclic edges ∧
      (∀ r, r ∈ roots → (∃ m, load_molecule r = Loaded m) →
         r ∈ plan_ready pl ∨ ∃ d, depends roots d r)
  | Err (StoreError e) => ∃ id, reachable roots id ∧ load_molecule id = LoadFailed e
  | Err (CycleIn e) => ∃ c, tc (depends roots) c c
  end.
Proof.
  destruct (bfs_run_done roots) as [Hinv _].
  destruct (compile_plan roots) as [[pl edges]|[e|e]] eqn:Hc.
  - apply compile_plan_ok in Hc as (Hnone & -> & sr & Hnew & Hsr).
    split_and!; [by intros; apply compile_edges_depends|by eapply new_with_roots_acyclic|].
    intros r Hr (m & Hm).
    assert (is_Some (b_loaded (bfs_run roots) !! r)) as Hl.
    { exists (d_typed_links m). apply bfs_run_loaded; [done|]. split; [|by exists m].
      exists r. split; [done|reflexivity]. }
    pose proof (new_with_roots_wf _ _ _ _ Hnew) as Hwf.
    destruct (new_with_roots_fields _ _ _ _ Hnew) as (He & Hs & Hrun & Hd).
    destruct (decide (Exists (λ e, e.2 = r) (compile_edges (b_loaded (bfs_run roots)))))
      as [Hex|Hno].
    + right. apply Exists_exists in Hex as ([d r'] & Hin & <-). exists d.
      by apply compile_edges_depends.
    + left. apply (pw_ready _ _ Hwf). rewrite Hrun, Hd, Hs, He. split_and!.
      * apply elem_of_union_l, Hsr. done.
      * set_solver.
      * intros d Hdep. rewrite He in Hdep. destruct Hno. apply Exists_exists.
        by exists (d, r).
  - unfold compile_plan in Hc. destruct (b_error (bfs_run roots)) as [e'|] eqn:He.
    + simplify_eq. by apply (bi_error _ _ Hinv).
    + by destruct (new_with_roots _ _ _).
  - unfold compile_plan in Hc. destruct (b_error (bfs_run roots)) as [e'|] eqn:He; [done|].
    unfold new_with_roots in Hc.
    destruct (toposort_cases (compile_edges (b_loaded (bfs_run roots))))
      as [(l & Hl & _)|(n & _ & c & Hcyc & _)]; [by rewrite Hl in Hc|].
    exists c. eapply tc_congruence with (f := id); [|exact Hcyc].
    intros a b Hab. by apply compile_edges_depends.
Qed.

Lemma recompile_wf p p' :
  dag_wf p → recompile p = Ok p' →
  dag_wf p' ∧ p_completed p' = p_completed p ∧ p_known p ⊆ p_known p' ∧
  p_needs_recompile p' = false.
Proof.
  intros Hp. unfold recompile.
  destruct (compile_plan _) as [[pl edges]|e] eqn:Hc; [|done]. intros [= <-].
  apply compile_plan_ok in Hc as (_ & _ & sr & Hnew & _).
  set (q := set_edges (set_known p (nodes_of edges ∪ p_known p)) edges).
  assert (dag_absorbing q) as Hq.
  { destruct Hp. split; simpl; [by eapply new_with_roots_acyclic|set_solver..]. }
  destruct (rebuild_plan_fields q) as (Hcq & Hkq & _).
  apply rebuild_plan_wf in Hq. change (dag_wf (set_needs_recompile (rebuild_plan q) false) ∧
    p_completed (rebuild_plan q) = p_completed p ∧ p_known p ⊆ p_known (rebuild_plan q) ∧
    false = false).
  rewrite Hcq, Hkq. split_and!; [|done|simpl; set_solver|done].
  by destruct Hq; split.
Qed.

Lemma scope_grows known all : known ⊆ foldl scope_step known all.
Proof.
  revert known. induction all as [|m all IH]; intros known; simpl; [done|].
  etrans; [|apply IH]. unfold scope_step. destruct (d_status m); try done;
    destruct (existsb _ _); set_solver.
Qed.

Lemma set_known_wf p known : dag_wf p → p_known p ⊆ known → dag_wf (set_known p known).
Proof. intros [(roots & ? & ?) ? ? ?] Hk. split; simpl; [|done..|set_solver]. exists roots. split; [done|set_solver]. Qed.

Lemma refresh_scope_wf p :
  dag_wf p → let p' := (refresh_scope p).2 in dag_wf p' ∧ p_completed p' = p_completed p ∧ p_known p ⊆ p_known p'.
Proof.
  intros Hp. unfold refresh_scope. destruct list_molecules as [all|e]; [|done].
  pose proof (scope_grows (p_known p) all) as Hg. pose proof (set_known_wf p _ Hp Hg) as Hq.
  destruct (recompile _) as [p'|e] eqn:Hr; [|done].
  apply recompile_wf in Hr as (? & ? & ? & _); [|done]. split_and!; [done..|]. by etrans.
Qed.

(** Everything that happens to a policy after it has been built. *)
Inductive dag_op :=
| DoTick (snapshot : list molecule_data)
| DoPreCompleted (ids : list mid)
| DoGc
| DoRecompile
| DoRefreshScope.

(** A failed compilation leaves the policy as it is; a failed refresh keeps what
    its scan found. *)
Definition dag_exec (p : dag_policy) (op : dag_op) : dag_policy :=
  match op with
  | DoTick ms => (next_actions ms p).1
  | DoPreCompleted ids => with_pre_completed p ids
  | DoGc => gc p
  | DoRecompile => match recompile p with Ok p' => p' | Err _ => p end
  | DoRefreshScope => (refresh_scope p).2
  end.

Lemma dag_exec_wf p op :
  dag_wf p → dag_wf (dag_exec p op) ∧ p_completed p ⊆ p_completed (dag_exec p op).
Proof.
  intros Hp. destruct op as [ms|ids| | |]; simpl.
  - by destruct (next_actions_wf ms p Hp) as (? & ? & _).
  - destruct (with_pre_completed_wf p ids Hp) as [? ->]. split; [done|set_solver].
  - by destruct (gc_wf p Hp) as [? ->].
  - destruct (recompile p) as [p'|] eqn:Hr; [|done].
    by destruct (recompile_wf p p' Hp Hr) as (? & -> & _).
  - by destruct (refresh_scope_wf p Hp) as (? & -> & _).
Qed.

(** C30. After every sequence of ticks, pre-completions, collections, reloads and
    refreshes, on whatever snapshots and store, failed ones included: the edges
    are acyclic, the plan is a well-formed reducer over them, the tracked
    molecules contain every node, a molecule is completed exactly when the plan
    holds it done or skipped, and the completed set only grows. (The comment on
    the policy says that the skip set of the plan equals the completed set; a
    molecule that completes in a tick is done, not skipped.) *)
Theorem dag_policy_invariant edges roots pl ops :
  new_with_roots edges ∅ roots = Ok pl →
  let p := foldl dag_exec (dag_new pl edges) ops in
  dag_wf p ∧ acyclic (p_edges p) ∧
  ∀ ops', p_completed p ⊆ p_completed (foldl dag_exec p ops').
Proof.
  intros Hnew p.
  assert (∀ q ops', dag_wf q → dag_wf (foldl dag_exec q ops') ∧
    p_completed q ⊆ p_completed (foldl dag_exec q ops')) as Hrun.
  { intros q ops' Hq. induction ops' as [|op ops' IH] using rev_ind; [done|].
    rewrite foldl_app. simpl. destruct IH as [Hwf Hc].
    destruct (dag_exec_wf _ op Hwf) as [? ?]. split; [done|by etrans]. }
  destruct (Hrun (dag_new pl edges) ops (dag_new_wf _ _ _ Hnew)) as [Hwf _].
  split_and!; [done|by apply dag_wf_absorbing in Hwf as []|].
  intros ops'. by apply Hrun.
Qed.
End CompileTheorems.

(** ** At a concrete store *)

Section Examples.
#[local] Existing Instance plain_order.

Definition sample_load (id : mid) : load_result :=
  match by_id sample_snapshot !! id with Some m => Loaded m | None => NotFound end.

#[local, refine] Instance sample_store : StateStore :=
  {| load_molecule := sample_load; list_molecules := Ok sample_snapshot;
     store_ids := {[id_a; id_b; id_c]} |}.
Proof.
  intros id. unfold sample_load. destruct (by_id sample_snapshot !! id) as [m|] eqn:Hm; [|done].
  intros _. apply by_id_some in Hm as [Hm <-].
  repeat (apply elem_of_cons in Hm as [->|Hm]; [simpl; set_solver|]).
  by apply not_elem_of_nil in Hm.
Defined.

(** The closure of [b] alone finds [a] and the edge between them. *)
Example sample_compile : snd <$> compile_plan [id_b; id_c] = Ok [(id_a, id_b)].
Proof. by vm_compute. Qed.

Lemma dag_policy_invariant_witness :
  dag_wf (foldl dag_exec sample_policy
    [DoTick sample_snapshot; DoRefreshScope; DoGc; DoPreCompleted [id_b]; DoTick sample_snapshot]).
Proof.
  apply (dag_policy_invariant [(id_a, id_b)] {[id_c]} sample_plan
    [DoTick sample_snapshot; DoRefreshScope; DoGc; DoPreCompleted [id_b]; DoTick sample_snapshot]).
  exact sample_plan_new.
Defined.
End Examples.
