(* ===== verification/Lease.v ===== *)
(** The PRIMARY lease of a mission: the challenge an operator signs
    ([crates/cosmon-core/src/operator_attestation.rs]), the lease, its epochs
    and the decision procedure ([crates/cosmon-core/src/pilot_lease.rs]), and
    the two append-only ledgers of
    [crates/cosmon-filestore/src/pilot_lease_store.rs]. Signatures are checked
    by an [OperatorGestureVerifier], lines are written and read by a
    [LeaseSerde]; instants are nanoseconds. *)
From stdpp Require Import prelude gmap strings list pretty.
From Stdlib Require Import Ascii.
From S2P Require Import Prelude Text Ids Links.

(** ** Epochs *)

(** [LeaseEpoch(u64)] *)
Record lease_epoch := LeaseEpoch { epoch_get : N }.

#[export] Instance lease_epoch_eq_dec : EqDecision lease_epoch.
Proof. solve_decision. Defined.

Definition epoch_first : lease_epoch := LeaseEpoch 1.

Definition epoch_new (raw : N) : result id_error lease_epoch :=
  if decide (raw = 0)%N then
    Err (IdInvalid "LeaseEpoch" "epoch 0 is the uninitialised value, not an authority")
  else Ok (LeaseEpoch raw).

(** [saturating_add(1)] *)
Definition epoch_next (e : lease_epoch) : lease_epoch := LeaseEpoch (u64_max `min` (epoch_get e + 1)).

Definition epoch_to_string (e : lease_epoch) : string := pretty (epoch_get e).

(** ** The challenge *)

Definition challenge_v1_tag : string := "cosmon-takeover-grant-v1".

Inductive challenge_error : Type :=
| OperatorNameEmpty
| OperatorNameNotOneLine (found : string)
| TtlNegative (seconds : Z).

Record grant_challenge := GrantChallenge {
  c_mission_id : mid;
  c_holder_session_id : string;
  c_epoch : lease_epoch;
  c_granted_by : string;
  c_ttl_seconds : option Z;
}.

Definition challenge_new (mission_id : mid) (holder : string) (epoch : lease_epoch)
    (granted_by : string) (ttl_seconds : option Z) : result challenge_error grant_challenge :=
  if is_empty (trim granted_by) then Err OperatorNameEmpty
  else if any_control granted_by then Err (OperatorNameNotOneLine granted_by)
  else match ttl_seconds with
       | Some secs =>
           if decide (secs < 0)%Z then Err (TtlNegative secs)
           else Ok (GrantChallenge mission_id holder epoch granted_by ttl_seconds)
       | None => Ok (GrantChallenge mission_id holder epoch granted_by ttl_seconds)
       end.

(** [fmt::Display for GrantChallenge] *)
Definition challenge_to_string (c : grant_challenge) : string :=
  challenge_v1_tag +:+ nl +:+
  "mission=" +:+ mid_raw (c_mission_id c) +:+ nl +:+
  "holder=" +:+ c_holder_session_id c +:+ nl +:+
  "epoch=" +:+ epoch_to_string (c_epoch c) +:+ nl +:+
  "granted_by=" +:+ c_granted_by c +:+ nl +:+
  match c_ttl_seconds c with
  | Some secs => "ttl=" +:+ pretty secs +:+ nl
  | None => "ttl=none" +:+ nl
  end.

(** [canonical_bytes]: strings are already their UTF-8 bytes. *)
Definition canonical_bytes (c : grant_challenge) : string := challenge_to_string c.

(** ** Attestations *)

(** [OperatorKeyId([u8; 8])] *)
Record operator_key_id := OperatorKeyId { key_bytes : list N }.

Definition hex_upper (n : N) : ascii :=
  if decide (n < 10)%N then ascii_of_N (48 + n) else ascii_of_N (55 + n).

(** [{byte:02X}] of the bytes in reverse order. *)
Definition key_id_to_string (k : operator_key_id) : string :=
  foldr (λ b s, String (hex_upper (b / 16)) (String (hex_upper (b mod 16)) s)) EmptyString
    (rev (key_bytes k)).

Definition hex_value (c : ascii) : N :=
  N.of_nat (if is_ascii_digit c then code c - 48
            else if bool_decide (code "a" ≤ code c) then code c - 87 else code c - 55).

(** [u8::from_str_radix(text, 16)] of two hexadecimal digits. *)
Definition hex_byte (s : string) : N :=
  match s with
  | String a (String b EmptyString) => hex_value a * 16 + hex_value b
  | _ => 0
  end.

(** The error is the rejected text; the digits were checked, so that
    [from_str_radix] does not fail. *)
Definition key_id_parse (text : string) : result string operator_key_id :=
  let text := trim text in
  if negb (bool_decide (String.length text = 16)) || negb (all_chars is_ascii_hexdigit text)
  then Err text
  else Ok (OperatorKeyId (map (λ i, hex_byte (str_take 2 (str_drop (14 - i * 2) text))) (seq 0 8))).

Record operator_attestation := OperatorAttestation {
  at_key_id : operator_key_id;
  at_signature : string;
  at_global_signature : string;
  at_trusted_comment : string;
  at_untrusted_comment : string;
}.

(** [Malformed] also carries what [attested] makes of a refused challenge;
    the source stores its text. *)
Inductive attestation_error : Type :=
| NoTrustRoot
| Missing
| UnknownKey (presented trusted : operator_key_id)
| Malformed (reason : string + challenge_error)
| DoesNotCoverTransfer
| TrustedCommentUnsigned.

(** [OperatorGestureVerifier]: it sees the canonical bytes of the challenge
    and nothing else of the grant. *)
Class OperatorGestureVerifier (V : Type) := {
  verify : V → grant_challenge → operator_attestation → result attestation_error unit;
  trusted_key_id : V → operator_key_id;
}.

(** ** Leases and requests *)

(** [RequestId(String)] *)
Definition request_id_new (raw : string) : result id_error string :=
  if is_empty raw then Err (IdEmpty "RequestId")
  else if any_whitespace raw then Err (IdInvalid "RequestId" "contains whitespace")
  else Ok raw.

Definition hex2 (b : N) : string :=
  String (hex_digit (b / 16 mod 16)) (String (hex_digit (b mod 16)) EmptyString).

(** [to_be_bytes] of a [u64]. *)
Definition be_bytes (x : N) : string :=
  foldr (λ i s, String (ascii_of_N (x / 2 ^ (8 * i) mod 256)) s) EmptyString [7; 6; 5; 4; 3; 2; 1; 0]%N.

Definition nul : string := String (ascii_of_nat 0) EmptyString.

(** [RequestId::derive]; the hash and the printed instant are arguments. *)
Definition request_id_derive (sha256 : string → list N) (to_rfc3339 : Z → string)
    (mission : mid) (candidate : string) (observed_epoch : option lease_epoch)
    (requested_at : Z) : string :=
  let digest := sha256 (mid_raw mission +:+ nul +:+ candidate +:+ nul +:+
    be_bytes (match observed_epoch with Some e => epoch_get e | None => 0 end) +:+ nul +:+
    to_rfc3339 requested_at) in
  "req-" +:+ foldr (λ b s, hex2 b +:+ s) EmptyString (take 6 digest).

Record lease_request := LeaseRequest {
  r_id : string;
  r_mission_id : mid;
  r_candidate_session_id : string;
  r_observed_holder : option string;
  r_observed_epoch : option lease_epoch;
  r_requested_by : string;
  r_requested_at : Z;
  r_reason : string;
}.

Record pilot_lease := PilotLease {
  l_mission_id : mid;
  l_holder_session_id : string;
  l_epoch : lease_epoch;
  l_granted_by : string;
  l_granted_at : Z;
  l_expires_at : option Z;
  l_request_id : option string;
  l_attestation : option operator_attestation;
}.

Definition lease_request_new sha256 to_rfc3339 (mission_id : mid) (candidate requested_by : string)
    (observed : option pilot_lease) (requested_at : Z) (reason : string) : lease_request :=
  let observed_epoch := l_epoch <$> observed in
  {| r_id := request_id_derive sha256 to_rfc3339 mission_id candidate observed_epoch requested_at;
     r_mission_id := mission_id; r_candidate_session_id := candidate;
     r_observed_holder := l_holder_session_id <$> observed; r_observed_epoch := observed_epoch;
     r_requested_by := requested_by; r_requested_at := requested_at; r_reason := reason |}.

Definition lease_new (mission_id : mid) (holder : string) (epoch : lease_epoch)
    (granted_by : string) (granted_at : Z) (expires_at : option Z) : pilot_lease :=
  {| l_mission_id := mission_id; l_holder_session_id := holder; l_epoch := epoch;
     l_granted_by := granted_by; l_granted_at := granted_at; l_expires_at := expires_at;
     l_request_id := None; l_attestation := None |}.

Definition answering (l : pilot_lease) (request : lease_request) : pilot_lease :=
  {| l_mission_id := l_mission_id l; l_holder_session_id := l_holder_session_id l;
     l_epoch := l_epoch l; l_granted_by := l_granted_by l; l_granted_at := l_granted_at l;
     l_expires_at := l_expires_at l; l_request_id := Some (r_id request);
     l_attestation := l_attestation l |}.

Definition attested_by (l : pilot_lease) (attestation : operator_attestation) : pilot_lease :=
  {| l_mission_id := l_mission_id l; l_holder_session_id := l_holder_session_id l;
     l_epoch := l_epoch l; l_granted_by := l_granted_by l; l_granted_at := l_granted_at l;
     l_expires_at := l_expires_at l; l_request_id := l_request_id l;
     l_attestation := Some attestation |}.

Definition challenge (l : pilot_lease) : result challenge_error grant_challenge :=
  challenge_new (l_mission_id l) (l_holder_session_id l) (l_epoch l) (l_granted_by l)
    ((λ deadline, num_seconds (deadline - l_granted_at l)) <$> l_expires_at l).

Definition is_valid_at (l : pilot_lease) (now : Z) : bool :=
  match l_expires_at l with
  | Some deadline => bool_decide (now < deadline)%Z
  | None => true
  end.

(** ** The decision *)

Inductive refusal_reason : Type :=
| NoLease
| UnverifiableGrantLedger
| EpochNotPresented
| NotHolder (holder : string)
| EpochMismatch (presented current : lease_epoch)
| Expired (expired_at : Z).

Inductive lease_decision : Type :=
| Granted (epoch : lease_epoch)
| Refused (r : refusal_reason).

Definition is_granted (d : lease_decision) : bool :=
  match d with Granted _ => true | Refused _ => false end.

Definition refusal (d : lease_decision) : option refusal_reason :=
  match d with Refused r => Some r | Granted _ => None end.

Definition epoch_presented_for (mission : mid) (claim : option (mid * lease_epoch)) :
    option lease_epoch :=
  match claim with
  | Some (claimed, epoch) => if decide (claimed = mission) then Some epoch else None
  | None => None
  end.

Definition authorize (lease : option pilot_lease) (now : Z) (session : string)
    (presented_epoch : option lease_epoch) : lease_decision :=
  match lease with
  | None => Refused NoLease
  | Some l =>
      if negb (is_valid_at l now) then Refused (Expired (default now (l_expires_at l)))
      else if negb (bool_decide (l_holder_session_id l = session)) then
        Refused (NotHolder (l_holder_session_id l))
      else match presented_epoch with
           | None => Refused EpochNotPresented
           | Some presented =>
               if decide (presented ≠ l_epoch l) then Refused (EpochMismatch presented (l_epoch l))
               else Granted (l_epoch l)
           end
  end.

#[global] Arguments authorize : simpl never.

(** ** The store *)

(** What the store's [serde_json] calls do with a lease and a request. *)
Class LeaseSerde := {
  lease_to_string : pilot_lease → result string string;
  lease_from_str : string → option pilot_lease;
  request_to_string : lease_request → result string string;
  request_from_str : string → option lease_request;
}.

(** A file, with the failures the operating system may answer. *)
Record file := File {
  f_content : option string;
  f_read_error : option string;
  f_append_error : option string;
}.

Definition absent : file := File None None None.

Inductive store_error : Type :=
| ListFailed (e : string)
| ReadFailed (e : string)
| AppendFailed (e : string)
| SerialiseFailed (e : string)
| EpochUsed (epoch : lease_epoch) (mission : mid) (highest : lease_epoch).

(** [read_lines] *)
Definition read_lines (f : file) : result store_error (list string) :=
  match f_read_error f with
  | Some e => Err (ReadFailed e)
  | None => match f_content f with Some s => Ok (lines s) | None => Ok [] end
  end.

(** [append_line] *)
Definition append_line (f : file) (line : string) : result store_error file :=
  match f_append_error f with
  | Some e => Err (AppendFailed e)
  | None => Ok (File (Some (default EmptyString (f_content f) +:+ line +:+ nl))
      (f_read_error f) (f_append_error f))
  end.

(** [<root>/pilot-lease/]: the ledgers by mission, and the listing of the
    directory, with [None] for a name that is not UTF-8. *)
Record lease_dir := LeaseDir {
  grants_file : mid → file;
  requests_file : mid → file;
  listing : result string (list (option string));
}.

Definition write_grants (d : lease_dir) (m : mid) (f : file) : lease_dir :=
  LeaseDir (λ m', if decide (m' = m) then f else grants_file d m') (requests_file d) (listing d).

Definition write_requests (d : lease_dir) (m : mid) (f : file) : lease_dir :=
  LeaseDir (grants_file d) (λ m', if decide (m' = m) then f else requests_file d m') (listing d).

Record audited_grant := AuditedGrant {
  g_lease : pilot_lease;
  g_verdict : result attestation_error unit;
}.

(** [Iterator::max_by_key]: the last of the greatest. *)
Definition max_by_epoch (l : list pilot_lease) : option pilot_lease :=
  foldl (λ best x,
    match best with
    | Some b => if decide (epoch_get (l_epoch x) < epoch_get (l_epoch b))%N then best else Some x
    | None => Some x
    end) None l.

(** [grants.iter().map(|l| l.epoch).max()] *)
Definition highest_epoch (l : list pilot_lease) : option lease_epoch :=
  foldl (λ best x,
    match best with
    | Some b => if decide (epoch_get (l_epoch x) < epoch_get b)%N then best else Some (l_epoch x)
    | None => Some (l_epoch x)
    end) None l.

Section Store.
Context {V : Type} `{OperatorGestureVerifier V, LeaseSerde}.
Context (verifier : option V).

(** [attested] *)
Definition attested (lease : pilot_lease) : result attestation_error unit :=
  match verifier with
  | None => Err NoTrustRoot
  | Some v =>
      match l_attestation lease with
      | None => Err Missing
      | Some attestation =>
          match challenge lease with
          | Err e => Err (Malformed (inr e))
          | Ok c => verify v c attestation
          end
      end
  end.

Definition audit_lines (ls : list string) : list audited_grant :=
  map (λ lease, AuditedGrant lease (attested lease)) (omap (M:=list) lease_from_str ls).

Definition audit (d : lease_dir) (mission : mid) : result store_error (list audited_grant) :=
  audit_lines <$> read_lines (grants_file d mission).

Definition honoured (g : audited_grant) : bool := is_ok (g_verdict g).

Definition grants (d : lease_dir) (mission : mid) : result store_error (list pilot_lease) :=
  gs ← audit d mission; Ok (map g_lease (filter (λ g, honoured g = true) gs)).

Definition requests (d : lease_dir) (mission : mid) : result store_error (list lease_request) :=
  ls ← read_lines (requests_file d mission); Ok (omap (M:=list) request_from_str ls).

Definition current (d : lease_dir) (mission : mid) : result store_error (option pilot_lease) :=
  max_by_epoch <$> grants d mission.

Definition has_unverifiable_grant_ledger (d : lease_dir) (mission : mid) :
    result store_error bool :=
  ls ← read_lines (grants_file d mission);
  if existsb (λ line, negb (is_empty (trim line))) ls
  then c ← current d mission; Ok (negb (is_some c)) else Ok false.

Definition next_epoch (d : lease_dir) (mission : mid) : result store_error lease_epoch :=
  ls ← grants d mission;
  Ok match highest_epoch ls with Some e => epoch_next e | None => epoch_first end.

Definition request (d : lease_dir) (r : lease_request) : result store_error (lease_dir * bool) :=
  rs ← requests d (r_mission_id r);
  if existsb (λ r', bool_decide (r_id r' = r_id r)) rs then Ok (d, false)
  else
    line ← map_err SerialiseFailed (request_to_string r);
    f ← append_line (requests_file d (r_mission_id r)) line;
    Ok (write_requests d (r_mission_id r) f, true).

Definition find_request (d : lease_dir) (mission : mid) (id : string) :
    result store_error (option lease_request) :=
  rs ← requests d mission; Ok (List.find (λ r, bool_decide (r_id r = id)) rs).

Definition unanswered_requests (d : lease_dir) (mission : mid) :
    result store_error (list lease_request) :=
  ls ← grants d mission;
  let answered := omap (M:=list) l_request_id ls in
  rs ← requests d mission; Ok (filter (λ r, r_id r ∉ answered) rs).

(** The first half of [grant]: the ledger is read and the epoch compared. *)
Definition grant_check (d : lease_dir) (lease : pilot_lease) : result store_error unit :=
  ls ← grants d (l_mission_id lease);
  match highest_epoch ls with
  | Some highest =>
      if decide (epoch_get (l_epoch lease) ≤ epoch_get highest)%N then
        Err (EpochUsed (l_epoch lease) (l_mission_id lease) highest)
      else Ok tt
  | None => Ok tt
  end.

(** The second half: the line is serialised and appended. *)
Definition grant_append (d : lease_dir) (lease : pilot_lease) : result store_error lease_dir :=
  line ← map_err SerialiseFailed (lease_to_string lease);
  f ← append_line (grants_file d (l_mission_id lease)) line;
  Ok (write_grants d (l_mission_id lease) f).

Definition grant (d : lease_dir) (lease : pilot_lease) : result store_error lease_dir :=
  _ ← grant_check d lease; grant_append d lease.

Definition store_authorize (d : lease_dir) (mission : mid) (now : Z) (session : string)
    (presented_epoch : option lease_epoch) : result store_error lease_decision :=
  cur ← current d mission;
  unverifiable ← (if is_some cur then Ok false else has_unverifiable_grant_ledger d mission);
  if unverifiable : bool then Ok (Refused UnverifiableGrantLedger)
  else Ok (authorize cur now session presented_epoch).

(** The stem of a ledger's file name. *)
Definition ledger_stem (name : string) : option string :=
  match strip_suffix ".grants.jsonl" name with
  | Some stem => Some stem
  | None => strip_suffix ".requests.jsonl" name
  end.

Definition missions (d : lease_dir) : result store_error (gset mid) :=
  match listing d with
  | Err e => Err (ListFailed e)
  | Ok entries =>
      Ok (foldl (λ out entry,
        match entry ≫= ledger_stem with
        | Some stem => match parse_inner stem with Ok id => {[id]} ∪ out | Err _ => out end
        | None => out
        end) ∅ entries)
  end.
End Store.

#[local] Arguments current : simpl never.
#[local] Arguments grants : simpl never.
#[local] Arguments max_by_epoch : simpl never.

(** ** What the signature covers *)

Lemma control_no_newline s : any_control s = false → contains_char nl_char s = false.
Proof.
  induction s as [|a s IH]; [done|]. cbn [any_control contains_char].
  rewrite !orb_false_iff, !bool_decide_eq_false. intros [[[Ha _] _] Hs].
  split; [|by apply IH]. intros ->. apply Ha. vm_compute. lia.
Qed.

Lemma digits_no_newline s : all_chars is_ascii_digit s = true → contains_char nl_char s = false.
Proof. by apply all_chars_not_contains. Qed.

Lemma mid_no_newline m : id_grammar m → contains_char nl_char (mid_raw m) = false.
Proof.
  intros [-> Hp Hl Hd _ _ Hs]. unfold is_valid_molecule_prefix in Hp.
  rewrite !andb_true_iff in Hp. destruct Hp as [_ Hp].
  rewrite !contains_char_app, !orb_false_iff. split_and!; [|done| |done|].
  - by eapply all_chars_not_contains; [|exact Hp].
  - by apply digits_no_newline.
  - by eapply all_chars_not_contains; [|exact Hs].
Qed.

Lemma mid_raw_inj m1 m2 : id_grammar m1 → id_grammar m2 → mid_raw m1 = mid_raw m2 → m1 = m2.
Proof.
  intros H1 H2 He.
  assert (parse_inner (mid_raw m1) = Ok m1) as E1 by (by apply parse_inner_grammar).
  assert (parse_inner (mid_raw m2) = Ok m2) as E2 by (by apply parse_inner_grammar).
  rewrite He in E1. congruence.
Qed.

Definition ttl_to_string (ttl : option Z) : string :=
  match ttl with Some secs => pretty secs | None => "none" end.

Lemma ttl_to_string_inj t1 t2 :
  (∀ s, t1 = Some s → 0 ≤ s)%Z → (∀ s, t2 = Some s → 0 ≤ s)%Z →
  ttl_to_string t1 = ttl_to_string t2 → t1 = t2.
Proof.
  intros H1 H2. destruct t1 as [s1|], t2 as [s2|]; simpl; [|..|done].
  - by intros ->%(inj pretty).
  - intros He. pose proof (pretty_Z_digits s1 (H1 _ eq_refl)) as Hd. by rewrite He in Hd.
  - intros He. pose proof (pretty_Z_digits s2 (H2 _ eq_refl)) as Hd. by rewrite <- He in Hd.
Qed.

Lemma ttl_no_newline t :
  (∀ s, t = Some s → 0 ≤ s)%Z → contains_char nl_char (ttl_to_string t) = false.
Proof.
  intros Ht. destruct t as [s|]; [|done]. by apply digits_no_newline, pretty_Z_digits, Ht.
Qed.

Lemma challenge_new_ok m h e g t c :
  challenge_new m h e g t = Ok c →
  c = GrantChallenge m h e g t ∧ is_empty (trim g) = false ∧ any_control g = false ∧
  (∀ s, t = Some s → 0 ≤ s)%Z.
Proof.
  unfold challenge_new. destruct (is_empty (trim g)); [done|].
  destruct (any_control g); [done|]. destruct t as [s|].
  - case_decide; [done|]. intros [= <-]. split_and!; [done..|]. intros ? [= <-]. lia.
  - by intros [= <-].
Qed.

(** The text of a challenge with the line ends apart. *)
Lemma challenge_text c :
  challenge_to_string c =
    (challenge_v1_tag +:+ nl +:+ "mission=") +:+ mid_raw (c_mission_id c) +:+
    String nl_char (((("holder=" +:+ c_holder_session_id c) +:+
    String nl_char ("epoch=" +:+ epoch_to_string (c_epoch c))) +:+
    String nl_char ("granted_by=" +:+ c_granted_by c)) +:+
    String nl_char ("ttl=" +:+ ttl_to_string (c_ttl_seconds c))) +:+ nl.
Proof.
  unfold challenge_to_string, ttl_to_string, nl.
  destruct (c_ttl_seconds c); by repeat (rewrite string_app_cons || rewrite <- string_app_assoc).
Qed.

(** A challenge that [GrantChallenge::new] composed, for a mission whose
    identifier was parsed. *)
Definition composed (c : grant_challenge) : Prop :=
  id_grammar (c_mission_id c) ∧
  challenge_new (c_mission_id c) (c_holder_session_id c) (c_epoch c) (c_granted_by c)
    (c_ttl_seconds c) = Ok c.

(** The line-oriented encoding is unambiguous: two composed challenges
    with the same bytes are the same transfer, although the name of the holder
    may itself contain line ends. A signature therefore covers one mission,
    holder, epoch, operator and time to live. *)
Theorem canonical_bytes_injective c1 c2 :
  composed c1 → composed c2 → canonical_bytes c1 = canonical_bytes c2 → c1 = c2.
Proof.
  intros [Hm1 Hc1] [Hm2 Hc2].
  apply challenge_new_ok in Hc1 as (_ & _ & Hg1 & Ht1), Hc2 as (_ & _ & Hg2 & Ht2).
  unfold canonical_bytes. rewrite !challenge_text. intros He.
  assert (∀ x y y', x +:+ y = x +:+ y' → y = y') as Hcancel by (intros x ? ?; apply (inj _)).
  apply Hcancel, cut_first in He as [Hm He]; [|by apply mid_no_newline..].
  apply cut_last in He as [He _]; [|done..].
  assert (∀ t, (∀ s, t = Some s → 0 ≤ s)%Z →
    contains_char nl_char ("ttl=" +:+ ttl_to_string t) = false) as Hnt
    by (intros t Ht; rewrite contains_char_app; by apply ttl_no_newline).
  apply cut_last in He as [He Ht]; [|by apply Hnt..].
  assert (∀ c, any_control (c_granted_by c) = false →
    contains_char nl_char ("granted_by=" +:+ c_granted_by c) = false) as Hng
    by (intros c Hc; rewrite contains_char_app; by apply control_no_newline).
  apply cut_last in He as [He Hg]; [|by apply Hng..].
  assert (∀ c, contains_char nl_char ("epoch=" +:+ epoch_to_string (c_epoch c)) = false) as Hne
    by (intros c; rewrite contains_char_app; apply digits_no_newline, pretty_N_digits).
  apply cut_last in He as [Hh Hep]; [|by apply Hne..].
  apply Hcancel in Hh, Hep, Hg, Ht. unfold epoch_to_string in Hep. apply (inj pretty) in Hep.
  apply mid_raw_inj in Hm; [|done..]. apply ttl_to_string_inj in Ht; [|done..].
  destruct c1 as [? ? [] ? ?], c2 as [? ? [] ? ?]. simpl in *. by subst.
Qed.

(** ** The head of a ledger *)

Lemma max_by_epoch_snoc ls x :
  max_by_epoch (ls ++ [x]) =
    match max_by_epoch ls with
    | Some b => if decide (epoch_get (l_epoch x) < epoch_get (l_epoch b))%N then Some b else Some x
    | None => Some x
    end.
Proof.
  unfold max_by_epoch. rewrite foldl_app. simpl. by destruct (foldl _ None ls).
Qed.

Lemma max_by_epoch_spec ls :
  match max_by_epoch ls with
  | Some b => b ∈ ls ∧ ∀ x, x ∈ ls → (epoch_get (l_epoch x) ≤ epoch_get (l_epoch b))%N
  | None => ls = []
  end.
Proof.
  induction ls as [|x ls IH] using rev_ind; [done|]. rewrite max_by_epoch_snoc.
  destruct (max_by_epoch ls) as [b|].
  - destruct IH as [Hb Hle]. case_decide as Hd; split; try set_solver.
    + intros y [Hy| ->%list_elem_of_singleton]%elem_of_app; [by apply Hle|lia].
    + intros y [Hy| ->%list_elem_of_singleton]%elem_of_app; [apply Hle in Hy; lia|done].
  - subst ls. split; [set_solver|]. intros y [Hy| ->%list_elem_of_singleton]%elem_of_app; [|done].
    by apply elem_of_nil in Hy.
Qed.

Lemma highest_epoch_eq ls : highest_epoch ls = l_epoch <$> max_by_epoch ls.
Proof.
  induction ls as [|x ls IH] using rev_ind; [done|]. rewrite max_by_epoch_snoc.
  unfold highest_epoch in *. rewrite foldl_app. simpl. rewrite IH.
  destruct (max_by_epoch ls) as [b|]; simpl; [|done]. by case_decide.
Qed.

(** Growing a ledger never lowers its head. *)
Lemma max_by_epoch_app ls ls' b :
  max_by_epoch ls = Some b →
  ∃ b', max_by_epoch (ls ++ ls') = Some b' ∧ (epoch_get (l_epoch b) ≤ epoch_get (l_epoch b'))%N.
Proof.
  intros Hb. pose proof (max_by_epoch_spec (ls ++ ls')) as H'.
  pose proof (max_by_epoch_spec ls) as H. rewrite Hb in H. destruct H as [Hin _].
  destruct (max_by_epoch (ls ++ ls')) as [b'|].
  - exists b'. split; [done|]. apply H'. set_solver.
  - apply app_eq_nil in H' as [-> _]. by apply elem_of_nil in Hin.
Qed.

(** ** Ledgers *)

Section Ledger.
Context {V : Type} `{OperatorGestureVerifier V, LeaseSerde}.
Context (verifier : option V).
Implicit Types (d : lease_dir) (m : mid) (s t : string).

Definition readable_text (f : file) s : Prop :=
  f_read_error f = None ∧ default EmptyString (f_content f) = s.

(** The leases that the lines of a ledger confer. *)
Definition honoured_leases (ls : list string) : list pilot_lease :=
  map g_lease (filter (λ g, honoured g = true) (audit_lines verifier ls)).

Lemma honoured_leases_app ls ls' :
  honoured_leases (ls ++ ls') = honoured_leases ls ++ honoured_leases ls'.
Proof.
  unfold honoured_leases, audit_lines. by rewrite omap_app, map_app, filter_app, map_app.
Qed.

(** What one line confers. *)
Lemma honoured_leases_line line l :
  lease_from_str line = Some l →
  honoured_leases [line] = if is_ok (attested verifier l) then [l] else [].
Proof.
  intros Hl. unfold honoured_leases, audit_lines. simpl. rewrite Hl. simpl.
  unfold honoured. rewrite filter_cons. simpl. by destruct (attested verifier l).
Qed.

(** Lines without a valid attestation confer nothing. *)
Lemma unattested_lines ls :
  (∀ line lease, line ∈ ls → lease_from_str line = Some lease → attested verifier lease ≠ Ok tt) →
  honoured_leases ls = [].
Proof.
  induction ls as [|line ls IH]; [done|]. intros Hno. change (line :: ls) with ([line] ++ ls).
  rewrite honoured_leases_app, IH by (intros ? ? ?; apply Hno; by right). rewrite app_nil_r.
  destruct (lease_from_str line) as [l|] eqn:Hl.
  - rewrite (honoured_leases_line _ _ Hl).
    destruct (attested verifier l) as [[]|] eqn:Ha; [|done].
    by destruct (Hno line l (list_elem_of_here _ _) Hl).
  - unfold honoured_leases, audit_lines. simpl. by rewrite Hl.
Qed.

Lemma honoured_attested ls l : l ∈ honoured_leases ls → attested verifier l = Ok tt.
Proof.
  unfold honoured_leases, audit_lines. intros (g & -> & Hg)%list_elem_of_fmap.
  apply list_elem_of_filter in Hg as [Hh (l & -> & _)%list_elem_of_fmap].
  unfold honoured in Hh. simpl in *. by destruct (attested verifier l) as [[]|].
Qed.

Lemma read_lines_text f s : readable_text f s → read_lines f = Ok (lines s).
Proof. intros [Hr Hc]. unfold read_lines. rewrite Hr, <- Hc. by destruct (f_content f). Qed.

Lemma grants_text d m s :
  readable_text (grants_file d m) s → grants verifier d m = Ok (honoured_leases (lines s)).
Proof. intros Hs. unfold grants, audit. by rewrite (read_lines_text _ s). Qed.

Lemma current_text d m s :
  readable_text (grants_file d m) s →
  current verifier d m = Ok (max_by_epoch (honoured_leases (lines s))).
Proof. intros Hs. unfold current. by rewrite (grants_text _ _ s). Qed.

Lemma authorize_granted lease now session p e :
  authorize lease now session p = Granted e ↔
  ∃ l, lease = Some l ∧ l_holder_session_id l = session ∧ p = Some e ∧ l_epoch l = e ∧
    is_valid_at l now = true.
Proof.
  split.
  - unfold authorize. destruct lease as [l|]; [|done].
    destruct (is_valid_at l now) eqn:Hv; [|done]. cbn [negb].
    destruct (decide (l_holder_session_id l = session)) as [Hh|Hh];
      [rewrite bool_decide_true by done|by rewrite bool_decide_false].
    cbn [negb]. destruct p as [p|]; [|done]. case_decide as Hp; [done|].
    subst p. intros [= <-]. eauto 10.
  - intros (l & -> & Hh & -> & <- & Hv). unfold authorize. rewrite Hv. cbn [negb].
    rewrite bool_decide_true by done. cbn [negb]. rewrite decide_False; [done|]. tauto.
Qed.

Lemma store_authorize_granted d m now session p e :
  store_authorize verifier d m now session p = Ok (Granted e) ↔
  ∃ l, current verifier d m = Ok (Some l) ∧ l_holder_session_id l = session ∧ p = Some e ∧
    l_epoch l = e ∧ is_valid_at l now = true.
Proof.
  unfold store_authorize. destruct (current verifier d m) as [cur|]; simpl; [|naive_solver].
  destruct cur as [l|]; simpl.
  - split.
    + intros [= (l' & [= <-] & Hl)%authorize_granted]. eauto.
    + intros (l' & [= <-] & Hl). f_equal. apply authorize_granted. eauto.
  - destruct (has_unverifiable_grant_ledger verifier d m) as [[]|]; simpl; naive_solver.
Qed.

(** A readable ledger always yields a decision. *)
Lemma store_authorize_total d m s now session p :
  readable_text (grants_file d m) s → is_ok (store_authorize verifier d m now session p) = true.
Proof.
  intros Hs. unfold store_authorize, has_unverifiable_grant_ledger.
  rewrite (read_lines_text _ s) by done. rewrite (current_text _ _ s) by done. simpl.
  destruct (max_by_epoch _); simpl; [done|]. by destruct (existsb _ _).
Qed.

(** C3. Fencing and exclusion. Let a ledger end in a newline, and let anybody
    append anything to it. A session that presents an epoch below the one that
    was in force is refused. The ledger that is reached never lets two sessions
    act: whatever the clocks, all gestures that it grants come from one session,
    which presented the epoch in force there; an attested line may have moved
    the authority to it, and the session before is then one of those refused.
    Lines without a valid attestation change no decision. *)
Theorem lease_fenced d d' m s t l :
  readable_text (grants_file d m) s → complete_text s →
  readable_text (grants_file d' m) (s +:+ t) →
  current verifier d m = Ok (Some l) →
  (∀ now session e, (epoch_get e < epoch_get (l_epoch l))%N →
     ∃ r, store_authorize verifier d' m now session (Some e) = Ok (Refused r)) ∧
  (∀ now1 now2 session1 session2 p1 p2 e1 e2,
     store_authorize verifier d' m now1 session1 p1 = Ok (Granted e1) →
     store_authorize verifier d' m now2 session2 p2 = Ok (Granted e2) →
     session1 = session2 ∧ e1 = e2 ∧ p1 = Some e1 ∧ p2 = Some e2 ∧
     (epoch_get (l_epoch l) ≤ epoch_get e1)%N) ∧
  ((∀ line lease, line ∈ lines t → lease_from_str line = Some lease →
      attested verifier lease ≠ Ok tt) →
   ∀ now session p,
     store_authorize verifier d' m now session p = store_authorize verifier d m now session p).
Proof.
  intros Hs Hcs Hst. rewrite (current_text _ _ s) by done. intros [= Hl].
  destruct (max_by_epoch_app _ (honoured_leases (lines t)) l Hl) as (l' & Hl' & Hle).
  assert (current verifier d' m = Ok (Some l')) as Hcur.
  { by rewrite (current_text _ _ (s +:+ t)), lines_app, honoured_leases_app, Hl'. }
  split_and!.
  - intros now session e He.
    pose proof (store_authorize_total d' m _ now session (Some e) Hst) as Hok.
    destruct (store_authorize _ _ _ _ _ _) as [[e'|r]|] eqn:Ha; [|by eauto|done].
    apply store_authorize_granted in Ha as (x & Hx & _ & [= <-] & <- & _).
    rewrite Hcur in Hx. simplify_eq. lia.
  - intros now1 now2 s1 s2 p1 p2 e1 e2 H1 H2.
    apply store_authorize_granted in H1 as (x & H1 & <- & -> & <- & _).
    apply store_authorize_granted in H2 as (y & H2 & <- & -> & <- & _).
    rewrite Hcur in H1, H2. by simplify_eq.
  - intros Hno now session p. rewrite (unattested_lines _ Hno), app_nil_r in Hl'.
    unfold store_authorize. rewrite Hcur, (current_text _ _ s), Hl by done. by simplify_eq.
Qed.

(** ** Granting *)

(** The line of a lease on the wire, which [serde_json] writes on one line and
    reads back. *)
Definition writes_line (lease : pilot_lease) (line : string) : Prop :=
  lease_to_string lease = Ok line ∧ lease_from_str line = Some lease ∧
  contains_char nl_char line = false ∧ ends_with_char cr_char line = false.

Definition writable (f : file) : Prop := f_append_error f = None.

Lemma append_line_text f s line :
  readable_text f s → writable f →
  ∃ f', append_line f line = Ok f' ∧ readable_text f' (s +:+ line +:+ nl) ∧ writable f'.
Proof.
  intros [Hr Hs] Hw. unfold append_line. rewrite Hw. eexists. split; [done|].
  by rewrite <- Hs.
Qed.

(** What one appended grant does to the directory. *)
Definition only_grants (d d' : lease_dir) m : Prop :=
  (∀ m', m' ≠ m → grants_file d' m' = grants_file d m') ∧
  requests_file d' = requests_file d ∧ listing d' = listing d.

Lemma grant_append_spec d lease s line :
  let m := l_mission_id lease in
  readable_text (grants_file d m) s → complete_text s → writable (grants_file d m) →
  writes_line lease line →
  ∃ d', grant_append d lease = Ok d' ∧ only_grants d d' m ∧
    readable_text (grants_file d' m) (s +:+ line +:+ nl) ∧ complete_text (s +:+ line +:+ nl) ∧
    writable (grants_file d' m) ∧
    honoured_leases (lines (s +:+ line +:+ nl)) =
      honoured_leases (lines s) ++ (if is_ok (attested verifier lease) then [lease] else []).
Proof.
  intros m Hr Hc Hw (Hser & Hde & Hnl & Hcr).
  destruct (append_line_text _ _ line Hr Hw) as (f' & Happ & Hr' & Hw').
  exists (write_grants d m f'). unfold grant_append. rewrite Hser. simpl.
  fold m. rewrite Happ. simpl. rewrite decide_True by done.
  split_and!; [done| |done| |done|].
  - split_and!; [|done..]. intros m' Hm. simpl. by rewrite decide_False.
  - rewrite string_app_assoc. apply complete_text_nl.
  - by rewrite lines_app, lines_line, honoured_leases_app, (honoured_leases_line _ lease).
Qed.

Lemma grant_check_text d lease s :
  readable_text (grants_file d (l_mission_id lease)) s →
  grant_check verifier d lease =
    match max_by_epoch (honoured_leases (lines s)) with
    | Some h => if decide (epoch_get (l_epoch lease) ≤ epoch_get (l_epoch h))%N
                then Err (EpochUsed (l_epoch lease) (l_mission_id lease) (l_epoch h)) else Ok tt
    | None => Ok tt
    end.
Proof.
  intros Hr. unfold grant_check. rewrite (grants_text _ _ s) by done. simpl.
  rewrite highest_epoch_eq. by destruct (max_by_epoch _).
Qed.

(** Granting. On an intact ledger a grant is refused exactly when its
    epoch does not exceed the epoch in force, and then nothing is written;
    otherwise it is appended, it is in force at once if an operator signed it,
    an unsigned one changes nothing, and no other mission and no request is
    touched. *)
Theorem grant_seats d lease s line head :
  let m := l_mission_id lease in
  readable_text (grants_file d m) s → complete_text s → writable (grants_file d m) →
  writes_line lease line → current verifier d m = Ok head →
  match head with
  | Some h => (epoch_get (l_epoch lease) ≤ epoch_get (l_epoch h))%N
  | None => False
  end ∧ (∃ h, head = Some h ∧
          grant verifier d lease = Err (EpochUsed (l_epoch lease) m (l_epoch h))) ∨
  match head with
  | Some h => (epoch_get (l_epoch h) < epoch_get (l_epoch lease))%N
  | None => True
  end ∧ ∃ d', grant verifier d lease = Ok d' ∧ only_grants d d' m ∧
    current verifier d' m = Ok (if is_ok (attested verifier lease) then Some lease else head).
Proof.
  intros m Hr Hc Hw Hl. rewrite (current_text _ _ s) by done. intros [= Hh].
  destruct (grant_append_spec d lease s line Hr Hc Hw Hl) as (d' & Happ & Ho & Hr' & _ & _ & Hnew).
  fold m in Ho, Hr'.
  assert (current verifier d' m = Ok (max_by_epoch (honoured_leases (lines s) ++
    (if is_ok (attested verifier lease) then [lease] else [])))) as Hcur
    by (by rewrite (current_text _ _ _ Hr'), Hnew).
  unfold grant. rewrite (grant_check_text _ _ s) by done. rewrite Hh.
  destruct head as [h|].
  - case_decide as Hd; [by left; eauto|]. right. split; [lia|]. exists d'. simpl.
    rewrite Happ, Hcur. split_and!; [done..|].
    destruct (is_ok (attested verifier lease)); [|by rewrite app_nil_r, Hh].
    rewrite max_by_epoch_snoc, Hh, decide_False by lia. done.
  - right. split; [done|]. exists d'. simpl. rewrite Happ, Hcur. split_and!; [done..|].
    destruct (is_ok (attested verifier lease)); [|by rewrite app_nil_r, Hh].
    by rewrite max_by_epoch_snoc, Hh.
Qed.

(** [next_epoch] proposes an epoch that a grant accepts, up to the last
    value of the counter; once that one is used, the saturated proposal and
    every other epoch are refused. *)
Theorem next_epoch_fresh d m s e :
  readable_text (grants_file d m) s → next_epoch verifier d m = Ok e →
  match max_by_epoch (honoured_leases (lines s)) with
  | None => e = epoch_first
  | Some h =>
      ((epoch_get (l_epoch h) < u64_max)%N → (epoch_get e = epoch_get (l_epoch h) + 1)%N) ∧
      (epoch_get (l_epoch h) = u64_max → e = l_epoch h ∧
        ∀ lease, l_mission_id lease = m → (epoch_get (l_epoch lease) ≤ u64_max)%N →
          is_ok (grant verifier d lease) = false)
  end ∧
  ∀ lease, l_mission_id lease = m → l_epoch lease = e →
    (∀ h, max_by_epoch (honoured_leases (lines s)) = Some h →
      (epoch_get (l_epoch h) < u64_max)%N) →
    grant_check verifier d lease = Ok tt.
Proof.
  intros Hr. unfold next_epoch. rewrite (grants_text _ _ s) by done. simpl.
  rewrite highest_epoch_eq. destruct (max_by_epoch (honoured_leases (lines s))) as [h|] eqn:Hh;
    simpl; intros [= <-].
  - split; [split|].
    + intros Hlt. unfold epoch_next. simpl. lia.
    + intros Hmax. split.
      { unfold epoch_next. rewrite Hmax. simpl. by destruct (l_epoch h); simpl in *; subst. }
      intros lease Hm Hle. unfold grant.
      rewrite (grant_check_text _ _ s), Hh by (by rewrite Hm). by rewrite decide_True by lia.
    + intros lease Hm He Hlt. specialize (Hlt h eq_refl).
      rewrite (grant_check_text _ _ s), Hh by (by rewrite Hm). rewrite decide_False; [done|].
      rewrite He. unfold epoch_next. simpl. lia.
  - split; [done|]. intros lease Hm _ _. by rewrite (grant_check_text _ _ s), Hh by (by rewrite Hm).
Qed.

(** Racing operators. The check of [grant] and its append are separate: if
    two signed grants of one epoch are both checked before either is written,
    both are written and neither operator is refused. There is still one head,
    the line written last, and the other holder cannot act. *)
Theorem racing_grants_one_head d a b s la lb :
  let m := l_mission_id a in
  l_mission_id b = m → l_epoch a = l_epoch b →
  readable_text (grants_file d m) s → complete_text s → writable (grants_file d m) →
  writes_line a la → writes_line b lb →
  attested verifier a = Ok tt → attested verifier b = Ok tt →
  grant_check verifier d a = Ok tt → grant_check verifier d b = Ok tt →
  ∃ d1 d2, grant_append d a = Ok d1 ∧ grant_append d1 b = Ok d2 ∧
    current verifier d2 m = Ok (Some b) ∧
    (l_holder_session_id a ≠ l_holder_session_id b →
     ∀ now p e, store_authorize verifier d2 m now (l_holder_session_id a) p ≠ Ok (Granted e)) ∧
    ∃ gs, grants verifier d2 m = Ok gs ∧ a ∈ gs ∧ b ∈ gs.
Proof.
  intros m Hmb He Hr Hc Hw Hla Hlb Ha Hb Hca _.
  destruct (grant_append_spec d a s la Hr Hc Hw Hla) as (d1 & Hd1 & _ & Hr1 & Hc1 & Hw1 & H1).
  fold m in Hr1, Hw1. rewrite <- Hmb in Hr1, Hw1.
  destruct (grant_append_spec d1 b _ lb Hr1 Hc1 Hw1 Hlb) as (d2 & Hd2 & _ & Hr2 & _ & _ & H2).
  rewrite Hmb in Hr2. rewrite H1, Ha, Hb in H2. simpl in H2.
  exists d1, d2. assert (current verifier d2 m = Ok (Some b)) as Hcur.
  { rewrite (current_text _ _ _ Hr2), H2, !max_by_epoch_snoc.
    rewrite (grant_check_text _ _ s) in Hca by done.
    destruct (max_by_epoch (honoured_leases (lines s))) as [h|].
    - case_decide; [done|]. rewrite (decide_False (P := (_ < epoch_get (l_epoch h))%N)) by lia.
      by rewrite He, decide_False by lia.
    - by rewrite He, decide_False by lia. }
  split_and!; [done..| |].
  - intros Hne now p e (l & Hl & Hh & _)%store_authorize_granted. rewrite Hcur in Hl. congruence.
  - rewrite (grants_text _ _ _ Hr2), H2. eexists. split; [done|]. set_solver.
Qed.

(** The same grant as if it had been given [delta] later. *)
Definition redated (l : pilot_lease) (delta : Z) : pilot_lease :=
  {| l_mission_id := l_mission_id l; l_holder_session_id := l_holder_session_id l;
     l_epoch := l_epoch l; l_granted_by := l_granted_by l;
     l_granted_at := l_granted_at l + delta; l_expires_at := (λ x, x + delta)%Z <$> l_expires_at l;
     l_request_id := l_request_id l; l_attestation := l_attestation l |}.

Lemma redated_attested l delta : attested verifier (redated l delta) = attested verifier l.
Proof.
  unfold attested, challenge. simpl. destruct verifier; [|done].
  destruct (l_attestation l); [|done]. destruct (l_expires_at l) as [x|]; [|done]. simpl.
  by replace (x + delta - (l_granted_at l + delta))%Z with (x - l_granted_at l)%Z by lia.
Qed.

(** What the signature does not cover: the date of the grant. A copy of the
    grant in force with a later date carries the same valid attestation and
    the same epoch, so that a line appended to the ledger without any new
    signature becomes the grant in force and authorizes the holder until the
    later deadline. *)
Theorem redated_grant_extends d d' m s l deadline delta line now :
  readable_text (grants_file d m) s → complete_text s →
  current verifier d m = Ok (Some l) → l_expires_at l = Some deadline →
  writes_line (redated l delta) line →
  readable_text (grants_file d' m) (s +:+ line +:+ nl) →
  (deadline ≤ now < deadline + delta)%Z →
  store_authorize verifier d m now (l_holder_session_id l) (Some (l_epoch l)) =
    Ok (Refused (Expired deadline)) ∧
  store_authorize verifier d' m now (l_holder_session_id l) (Some (l_epoch l)) =
    Ok (Granted (l_epoch l)).
Proof.
  intros Hr Hc Hcur Hexp (Hser & Hde & Hnl & Hcr) Hr' Hnow.
  pose proof Hcur as Hmax. rewrite (current_text _ _ _ Hr) in Hmax. injection Hmax as Hmax.
  pose proof (max_by_epoch_spec (honoured_leases (lines s))) as Hspec. rewrite Hmax in Hspec.
  destruct Hspec as [Hin%honoured_attested _]. split.
  - unfold store_authorize. rewrite Hcur. simpl. unfold authorize, is_valid_at.
    by rewrite Hexp, bool_decide_false by lia.
  - apply store_authorize_granted. exists (redated l delta).
    rewrite (current_text _ _ _ Hr'), lines_app, lines_line, honoured_leases_app by done.
    rewrite (honoured_leases_line _ _ Hde), redated_attested, Hin. simpl.
    rewrite max_by_epoch_snoc, Hmax. simpl. rewrite decide_False by lia.
    split_and!; [done..|]. unfold is_valid_at. simpl. rewrite Hexp. simpl.
    apply bool_decide_eq_true. lia.
Qed.
End Ledger.

(** ** Requests and missions *)

Section Requests.
Context `{LeaseSerde}.
Implicit Types (d : lease_dir) (m : mid) (s : string).

Lemma requests_text d m s :
  readable_text (requests_file d m) s →
  requests d m = Ok (omap request_from_str (lines s)).
Proof. intros Hs. unfold requests. by rewrite (read_lines_text _ s). Qed.

Lemma request_repeated d r rs r' :
  requests d (r_mission_id r) = Ok rs → r' ∈ rs → r_id r' = r_id r → request d r = Ok (d, false).
Proof.
  intros Hrs Hin He. unfold request. rewrite Hrs. simpl.
  replace (existsb _ rs) with true; [done|]. symmetry. apply existsb_exists.
  exists r'. split; [by apply list_elem_of_In|]. by apply bool_decide_eq_true.
Qed.

Lemma find_by_id (rs : list lease_request) r :
  r ∈ rs → ∃ r', List.find (λ x, bool_decide (r_id x = r_id r)) rs = Some r' ∧ r_id r' = r_id r.
Proof.
  intros Hin. destruct (List.find _ rs) as [r'|] eqn:Hf.
  - exists r'. split; [done|]. apply find_some in Hf as [_ Hf]. by apply bool_decide_eq_true in Hf.
  - apply list_elem_of_In in Hin. pose proof (find_none _ _ Hf r Hin) as Hn.
    by apply bool_decide_eq_false in Hn.
Qed.

(** Asking is idempotent and confers nothing: a request is written once
    per identifier, the second call writes nothing and says so, the identifier
    is found from then on, and the authority ledgers are untouched. *)
Theorem request_once d r s line :
  let m := r_mission_id r in
  readable_text (requests_file d m) s → complete_text s → writable (requests_file d m) →
  request_to_string r = Ok line → request_from_str line = Some r →
  contains_char nl_char line = false → ends_with_char cr_char line = false →
  ∃ d' b, request d r = Ok (d', b) ∧ grants_file d' = grants_file d ∧
    request d' r = Ok (d', false) ∧
    ∃ r', find_request d' m (r_id r) = Ok (Some r') ∧ r_id r' = r_id r.
Proof.
  intros m Hr Hc Hw Hser Hde Hnl Hcr. pose proof (requests_text d m s Hr) as Hrs.
  destruct (existsb (λ r', bool_decide (r_id r' = r_id r)) (omap request_from_str (lines s)))
    eqn:Hex.
  - apply existsb_exists in Hex as (r' & Hin%list_elem_of_In & He%bool_decide_eq_true).
    pose proof (request_repeated d r _ r' Hrs Hin He) as Hrep. exists d, false.
    split_and!; [done..|]. unfold find_request. rewrite Hrs, <- He. simpl.
    destruct (find_by_id _ r' Hin) as (r2 & -> & ?). eauto.
  - destruct (append_line_text _ s line Hr Hw) as (f' & Happ & Hr' & _).
    set (d' := write_requests d m f').
    assert (requests d' m = Ok (omap request_from_str (lines s) ++ [r])) as Hrs'.
    { rewrite (requests_text d' m (s +:+ line +:+ nl)).
      - rewrite lines_app, lines_line, omap_app by done. simpl. by rewrite Hde.
      - simpl. by rewrite decide_True. }
    assert (r ∈ omap request_from_str (lines s) ++ [r]) as Hin by set_solver.
    exists d', true. split_and!; [|done|by eapply request_repeated|].
    + unfold request. fold m. rewrite Hrs. simpl. rewrite Hex, Hser. simpl. by rewrite Happ.
    + unfold find_request. rewrite Hrs'. simpl.
      destruct (find_by_id _ r Hin) as (r2 & -> & ?). eauto.
Qed.

Lemma string_app_cancel_r x y t : x +:+ t = y +:+ t → x = y.
Proof.
  intros He. pose proof (strip_suffix_app x t) as Hx. rewrite He, strip_suffix_app in Hx.
  by simplify_eq.
Qed.

Lemma grants_suffix_requests s : strip_suffix ".grants.jsonl" (s +:+ ".requests.jsonl") = None.
Proof.
  destruct (strip_suffix _ _) as [q|] eqn:He; [|done]. exfalso.
  apply strip_suffix_Some in He.
  change ".requests.jsonl" with (".reques" +:+ "ts.jsonl") in He.
  change ".grants.jsonl" with (".gran" +:+ "ts.jsonl") in He.
  rewrite !string_app_assoc in He. apply string_app_cancel_r in He.
  assert (ends_with_char "s" (s +:+ ".reques") = ends_with_char "s" (q +:+ ".gran")) as Hend
    by (by rewrite He).
  by rewrite !ends_with_char_app in Hend.
Qed.

Lemma ledger_stem_spec name q :
  ledger_stem name = Some q ↔ name = q +:+ ".grants.jsonl" ∨ name = q +:+ ".requests.jsonl".
Proof.
  unfold ledger_stem. destruct (strip_suffix ".grants.jsonl" name) as [q'|] eqn:Hg.
  - apply strip_suffix_Some in Hg as ->. split; [intros [= ->]; by left|].
    intros [He|He]; [by apply string_app_cancel_r in He as ->|].
    pose proof (grants_suffix_requests q) as Hn. by rewrite <- He, strip_suffix_app in Hn.
  - split; [intros Hr; right; by apply strip_suffix_Some|].
    intros [->| ->]; [by rewrite strip_suffix_app in Hg|apply strip_suffix_app].
Qed.

(** [missions] answers exactly the missions one of whose ledgers is listed
    in the directory; other names are skipped. *)
Theorem missions_spec d entries :
  listing d = Ok entries →
  ∃ ms, missions d = Ok ms ∧ ∀ id, id ∈ ms ↔ id_grammar id ∧
    (Some (mid_raw id +:+ ".grants.jsonl") ∈ entries ∨
     Some (mid_raw id +:+ ".requests.jsonl") ∈ entries).
Proof.
  intros Hl. unfold missions. rewrite Hl. eexists. split; [done|]. intros id.
  transitivity (∃ name q, Some name ∈ entries ∧ ledger_stem name = Some q ∧ parse_inner q = Ok id).
  - clear Hl. induction entries as [|entry entries IH] using rev_ind; [set_solver|].
    rewrite foldl_app. simpl. setoid_rewrite elem_of_app.
    setoid_rewrite list_elem_of_singleton. set (out := foldl _ ∅ entries) in *. clearbody out.
    assert ((∃ name q, (Some name ∈ entries ∨ Some name = entry) ∧ ledger_stem name = Some q ∧
      parse_inner q = Ok id) ↔ id ∈ out ∨ ∃ q, entry ≫= ledger_stem = Some q ∧ parse_inner q = Ok id)
      as ->.
    { rewrite IH. split.
      - intros (name & q & [Hin|<-] & Hq & Hp); eauto 10.
      - intros [(name & q & Hin & Hq & Hp)|(q & Hq & Hp)]; [by eauto 10|].
        destruct entry as [name|]; [|done]. exists name, q. auto. }
    destruct (entry ≫= ledger_stem) as [q|].
    + destruct (parse_inner q) as [id'|] eqn:Hp.
      * rewrite elem_of_union, elem_of_singleton. split.
        -- intros [->|?]; [right; by exists q|by left].
        -- intros [?|(q' & [= <-] & Hq')]; [by right|left; congruence].
      * split; [by left|]. intros [?|(q' & [= <-] & Hq')]; [done|congruence].
    + split; [by left|]. intros [?|(q' & ? & ?)]; done.
  - setoid_rewrite ledger_stem_spec. setoid_rewrite parse_inner_grammar. split.
    + intros (name & q & Hin & [->| ->] & <- & Hid); auto.
    + intros [Hid [Hin|Hin]]; eauto 10.
Qed.
End Requests.

(** ** At a concrete ledger *)

Section Examples.

Definition sample_mission : mid := MoleculeId "task-20260731-9cf4" "task" "20260731" "9cf4".

Lemma sample_mission_grammar : id_grammar sample_mission.
Proof. by apply (parse_inner_grammar "task-20260731-9cf4"). Qed.

(** A toy verifier: the signature of a challenge is its text. *)
#[local] Instance echo_verifier : OperatorGestureVerifier () :=
  {| verify _ c a := if decide (at_signature a = canonical_bytes c) then Ok tt
                     else Err DoesNotCoverTransfer;
     trusted_key_id _ := OperatorKeyId [] |}.

Definition echo_sign (l : pilot_lease) : pilot_lease :=
  match challenge l with
  | Ok c => attested_by l (OperatorAttestation (OperatorKeyId []) (canonical_bytes c) "" "" "")
  | Err _ => l
  end.

(** [alice] flies for ten seconds at epoch 1; [bob] and [carol] follow. *)
Definition alice_lease : pilot_lease :=
  echo_sign (lease_new sample_mission "alice" epoch_first "op" 0 (Some 10000000000%Z)).
Definition bob_lease : pilot_lease :=
  echo_sign (lease_new sample_mission "bob" (LeaseEpoch 2) "op" 5 None).
Definition carol_lease : pilot_lease :=
  echo_sign (lease_new sample_mission "carol" (LeaseEpoch 2) "op" 6 None).
Definition late_lease : pilot_lease := redated alice_lease 7000000000.
Definition sample_request : lease_request :=
  LeaseRequest "req-1" sample_mission "bob" None None "bob" 3 "".

(** A wire format for these leases. *)
#[local] Instance sample_serde : LeaseSerde :=
  {| lease_to_string l :=
       Ok (if decide (l_holder_session_id l = "bob") then "B"
           else if decide (l_holder_session_id l = "carol") then "C"
           else if decide (l_granted_at l = 0%Z) then "A" else "L");
     lease_from_str s :=
       if decide (s = "A") then Some alice_lease else if decide (s = "B") then Some bob_lease
       else if decide (s = "C") then Some carol_lease else if decide (s = "L") then Some late_lease
       else None;
     request_to_string _ := Ok "R";
     request_from_str s := if decide (s = "R") then Some sample_request else None |}.

Definition sample_dir (content : string) : lease_dir :=
  LeaseDir (λ _, File (Some content) None None) (λ _, absent)
    (Ok [Some "task-20260731-9cf4.grants.jsonl"; None; Some "notes.txt"]).

Definition text_A : string := "A" +:+ nl.

Lemma complete_A : complete_text text_A.
Proof. apply complete_text_nl. Qed.

Lemma current_A : current (Some ()) (sample_dir text_A) sample_mission = Ok (Some alice_lease).
Proof. by vm_compute. Qed.

Lemma canonical_bytes_injective_witness :
  canonical_bytes (GrantChallenge sample_mission "alice" epoch_first "op" (Some 10%Z)) ≠
  canonical_bytes (GrantChallenge sample_mission "alice" (LeaseEpoch 2) "op" (Some 10%Z)).
Proof.
  intros He. enough (epoch_first = LeaseEpoch 2) by done.
  assert (∀ e, composed (GrantChallenge sample_mission "alice" e "op" (Some 10%Z))) as Hc
    by (intros e; split; [exact sample_mission_grammar|reflexivity]).
  pose proof (canonical_bytes_injective _ _ (Hc epoch_first) (Hc (LeaseEpoch 2)) He) as H.
  exact (f_equal c_epoch H).
Defined.

(** A garbage line after [bob]'s grant: [alice] stays fenced. *)
Lemma lease_fenced_witness :
  ∃ r, store_authorize (Some ()) (sample_dir (("B" +:+ nl) +:+ "A" +:+ nl +:+ "tor")) sample_mission
    7 "alice" (Some epoch_first) = Ok (Refused r).
Proof.
  assert (current (Some ()) (sample_dir ("B" +:+ nl)) sample_mission = Ok (Some bob_lease)) as Hc
    by (by vm_compute).
  destruct (lease_fenced (Some ()) (sample_dir ("B" +:+ nl))
    (sample_dir (("B" +:+ nl) +:+ "A" +:+ nl +:+ "tor")) sample_mission ("B" +:+ nl)
    ("A" +:+ nl +:+ "tor") bob_lease) as (Hf & _);
    [by split|apply complete_text_nl|by split|exact Hc|].
  apply Hf. by vm_compute.
Defined.

Lemma grant_seats_witness :
  ∃ d', grant (Some ()) (sample_dir text_A) bob_lease = Ok d' ∧
    current (Some ()) d' sample_mission = Ok (Some bob_lease).
Proof.
  destruct (grant_seats (Some ()) (sample_dir text_A) bob_lease text_A "B" (Some alice_lease))
    as [[Hle _]|(_ & d' & Hd & _ & Hc)].
  - by split.
  - exact complete_A.
  - done.
  - by split_and!.
  - exact current_A.
  - by vm_compute in Hle.
  - exists d'. split; [exact Hd|]. exact Hc.
Defined.

Lemma next_epoch_fresh_witness :
  grant_check (Some ()) (sample_dir text_A) bob_lease = Ok tt.
Proof.
  assert (next_epoch (Some ()) (sample_dir text_A) sample_mission = Ok (LeaseEpoch 2)) as He
    by (by vm_compute).
  destruct (next_epoch_fresh (Some ()) (sample_dir text_A) sample_mission text_A (LeaseEpoch 2))
    as [_ Hf]; [by split|exact He|].
  apply Hf; [done|done|]. intros h Hh. vm_compute in Hh. simplify_eq. by vm_compute.
Defined.

Lemma racing_grants_one_head_witness :
  ∃ d1 d2, grant_append (sample_dir text_A) bob_lease = Ok d1 ∧ grant_append d1 carol_lease = Ok d2 ∧
    current (Some ()) d2 sample_mission = Ok (Some carol_lease).
Proof.
  destruct (racing_grants_one_head (Some ()) (sample_dir text_A) bob_lease carol_lease text_A "B" "C")
    as (d1 & d2 & H1 & H2 & Hc & _);
    [done|done|by split|exact complete_A|done|by split_and!|by split_and!|by vm_compute..|].
  by exists d1, d2.
Defined.

Lemma redated_grant_extends_witness :
  store_authorize (Some ()) (sample_dir text_A) sample_mission 12000000000 "alice"
    (Some epoch_first) = Ok (Refused (Expired 10000000000)) ∧
  store_authorize (Some ()) (sample_dir (text_A +:+ "L" +:+ nl)) sample_mission 12000000000 "alice"
    (Some epoch_first) = Ok (Granted epoch_first).
Proof.
  apply (redated_grant_extends (Some ()) (sample_dir text_A) (sample_dir (text_A +:+ "L" +:+ nl))
    sample_mission text_A alice_lease 10000000000 7000000000 "L" 12000000000);
    [by split|exact complete_A|exact current_A|done|by split_and!|by split|lia].
Defined.

Lemma request_once_witness :
  ∃ d' b, request (sample_dir text_A) sample_request = Ok (d', b) ∧
    request d' sample_request = Ok (d', false).
Proof.
  destruct (request_once (sample_dir text_A) sample_request EmptyString "R")
    as (d' & b & H1 & _ & H2 & _); [by split|by left|done..|].
  by exists d', b.
Defined.

Lemma missions_spec_witness :
  ∃ ms, missions (sample_dir text_A) = Ok ms ∧ sample_mission ∈ ms.
Proof.
  destruct (missions_spec (sample_dir text_A) _ eq_refl) as (ms & Hms & Hin).
  exists ms. split; [exact Hms|]. apply Hin. split; [exact sample_mission_grammar|].
  left. left.
Defined.
End Examples.
