(* ===== verification/Verify.v ===== *)
(** The trace validator of [crates/cosmon-verify]: the scheduler model
    ([model.rs]), the baseline invariants ([invariants.rs]) and the replay
    ([validator.rs]). Events are the variants that the validator looks at,
    with the fields it reads; all others are [OtherEvent]. *)
From stdpp Require Import prelude gmap strings list.
From S2P Require Import Prelude Text Ids Molecule Links.

(** ** Events *)

Inductive event : Type :=
| MoleculeNucleated (molecule_id : mid) (formula_id : string)
| MoleculeStatusChanged (molecule_id : mid) (from to : string)
| MoleculeStepCompleted (molecule_id : mid) (step total : N)
| MoleculeCompleted (molecule_id : mid)
| MoleculeCollapsed (molecule_id : mid)
| MoleculeStuck (molecule_id : mid)
| ExpiredEvent (molecule_id : mid)
| GateStarted (molecule_id : mid)
| GateCompleted (molecule_id : mid)
| GateFailed (molecule_id : mid)
| NativeStarted (molecule_id : mid)
| NativeCompleted (molecule_id : mid)
| NativeFailed (molecule_id : mid)
| Resurrected (molecule_id : mid)
| MergeDispatched (molecule : mid) (branch : string)
| MergeCompleted (molecule : mid) (branch merge_result : string)
| DecaySpliced (parent : mid) (children : list mid)
| WorkerSpawned (worker_id : string)
| WorkerKilled (worker_id : string)
| OtherEvent (kind : string).

Record envelope := Envelope { e_seq : N; e_event : event }.

(** ** The scheduler model *)

Record molecule_trace_state := MoleculeTraceState {
  t_status : MoleculeStatus.molecule_status;
  t_last_step : option N;
  t_total_steps : option N;
  t_formula_id : string;
}.

Record scheduler_state := SchedulerState {
  s_molecules : gmap mid molecule_trace_state;
  s_workers : gmap string bool;
  s_pending_merges : gmap mid string;
  s_completed_merges : gmap mid string;
  s_events_seen : N;
}.

Definition scheduler_new : scheduler_state := SchedulerState ∅ ∅ ∅ ∅ 0.

Definition status_of (s : scheduler_state) (m : mid) : option MoleculeStatus.molecule_status :=
  t_status <$> s_molecules s !! m.

Definition molecule_count (s : scheduler_state) : nat := size (s_molecules s).

Definition set_molecules (s : scheduler_state) (ms : gmap mid molecule_trace_state) :
    scheduler_state :=
  SchedulerState ms (s_workers s) (s_pending_merges s) (s_completed_merges s) (s_events_seen s).

(** [entry(k).or_insert(v)] *)
Definition or_insert `{Countable K} {A} (k : K) (v : A) (m : gmap K A) : gmap K A :=
  match m !! k with Some _ => m | None => <[k := v]> m end.

Definition fresh_molecule (formula_id : string) : molecule_trace_state :=
  MoleculeTraceState MoleculeStatus.Pending None None formula_id.

Definition with_status (st : MoleculeStatus.molecule_status) (t : molecule_trace_state) :
    molecule_trace_state :=
  MoleculeTraceState st (t_last_step t) (t_total_steps t) (t_formula_id t).

(** [get_mut(k)] followed by an update of the entry. *)
Definition update_molecule (s : scheduler_state) (m : mid)
    (f : molecule_trace_state → molecule_trace_state) : scheduler_state :=
  set_molecules s (alter f m (s_molecules s)).

Definition apply_event (s : scheduler_state) (e : event) : scheduler_state :=
  let s := SchedulerState (s_molecules s) (s_workers s) (s_pending_merges s)
    (s_completed_merges s) (s_events_seen s + 1) in
  match e with
  | MoleculeNucleated m formula_id =>
      set_molecules s (or_insert m (fresh_molecule formula_id) (s_molecules s))
  | MoleculeStatusChanged m _ to =>
      update_molecule s m (λ t,
        match status_from_str to with Ok st => with_status st t | Err _ => t end)
  | MoleculeStepCompleted m step total =>
      update_molecule s m (λ t,
        MoleculeTraceState (t_status t) (Some step) (Some total) (t_formula_id t))
  | MoleculeCompleted m => update_molecule s m (with_status MoleculeStatus.Completed)
  | MoleculeCollapsed m => update_molecule s m (with_status MoleculeStatus.Collapsed)
  | WorkerSpawned w =>
      SchedulerState (s_molecules s) (or_insert w true (s_workers s)) (s_pending_merges s)
        (s_completed_merges s) (s_events_seen s)
  | WorkerKilled w =>
      SchedulerState (s_molecules s) (alter (λ _, false) w (s_workers s)) (s_pending_merges s)
        (s_completed_merges s) (s_events_seen s)
  | MergeDispatched m branch =>
      SchedulerState (s_molecules s) (s_workers s) (<[m := branch]> (s_pending_merges s))
        (s_completed_merges s) (s_events_seen s)
  | MergeCompleted m _ merge_result =>
      SchedulerState (s_molecules s) (s_workers s) (delete m (s_pending_merges s))
        (<[m := merge_result]> (s_completed_merges s)) (s_events_seen s)
  | DecaySpliced _ children =>
      set_molecules s (foldl (λ ms c, or_insert c (fresh_molecule "") ms) (s_molecules s) children)
  | _ => s
  end.

(** ** Invariants *)

(** [Violation], with its message as data. *)
Inductive violation_reason : Type :=
| UnknownMolecule (m : mid)
| UnparseableStatus (m : mid) (text : string)
| WrongFrom (m : mid) (from recorded : MoleculeStatus.molecule_status)
| IllegalTransition (m : mid) (from to : MoleculeStatus.molecule_status)
| AfterTerminal (m : mid) (recorded : MoleculeStatus.molecule_status)
| StepBelow (m : mid) (step prev : N)
| StepNotBelowTotal (m : mid) (step total : N)
| TotalChanged (m : mid) (prev total : N)
| UnknownWorker (w : string)
| BranchMismatch (m : mid) (branch pending : string)
| NoDispatch (m : mid).

Record violation := Violation {
  v_invariant : string;
  v_seq : N;
  v_line : nat;
  v_reason : violation_reason;
}.

(** [Box<dyn Invariant>]: the name and the check before it stamps the
    envelope's sequence number and the line. *)
Record invariant := Invariant {
  inv_id : string;
  inv_check : scheduler_state → event → result violation_reason ();
}.

(** The molecule that an event mentions, in the sense of
    [MoleculeExistsBeforeUse]. *)
Definition referenced (e : event) : option mid :=
  match e with
  | MoleculeStatusChanged m _ _ | MoleculeStepCompleted m _ _ | MoleculeCompleted m
  | MoleculeCollapsed m | MoleculeStuck m | ExpiredEvent m | GateStarted m | GateCompleted m
  | GateFailed m | NativeStarted m | NativeCompleted m | NativeFailed m | Resurrected m => Some m
  | MergeDispatched m _ | MergeCompleted m _ _ => Some m
  | DecaySpliced parent _ => Some parent
  | _ => None
  end.

Definition molecule_exists_before_use (s : scheduler_state) (e : event) :
    result violation_reason () :=
  match referenced e with
  | Some m =>
      match s_molecules s !! m with Some _ => Ok () | None => Err (UnknownMolecule m) end
  | None => Ok ()
  end.

Definition transition_allowed (from to : MoleculeStatus.molecule_status) : bool :=
  can_transition_to from to ||
  match from, to with
  | MoleculeStatus.Pending, (MoleculeStatus.Queued | MoleculeStatus.Pending | MoleculeStatus.Running)
  | MoleculeStatus.Queued, (MoleculeStatus.Running | MoleculeStatus.Pending) => true
  | _, _ => false
  end.

Definition status_transition_legal (s : scheduler_state) (e : event) :
    result violation_reason () :=
  match e with
  | MoleculeStatusChanged m from to =>
      match status_of s m with
      | None => Ok ()
      | Some current =>
          match status_from_str from with
          | Err _ => Err (UnparseableStatus m from)
          | Ok parsed_from =>
              match status_from_str to with
              | Err _ => Err (UnparseableStatus m to)
              | Ok parsed_to =>
                  if decide (parsed_from ≠ current) then Err (WrongFrom m parsed_from current)
                  else if transition_allowed parsed_from parsed_to then Ok ()
                  else Err (IllegalTransition m parsed_from parsed_to)
              end
          end
      end
  | _ => Ok ()
  end.

(** The molecule whose lifecycle an event records. *)
Definition lifecycle (e : event) : option mid :=
  match e with
  | MoleculeStepCompleted m _ _ | MoleculeCompleted m | MoleculeCollapsed m
  | MoleculeStatusChanged m _ _ => Some m
  | _ => None
  end.

Definition no_events_after_terminal (s : scheduler_state) (e : event) :
    result violation_reason () :=
  match lifecycle e with
  | None => Ok ()
  | Some m =>
      match status_of s m with
      | Some status => if is_terminal status then Err (AfterTerminal m status) else Ok ()
      | None => Ok ()
      end
  end.

Definition step_monotone (s : scheduler_state) (e : event) : result violation_reason () :=
  match e with
  | MoleculeStepCompleted m step _ =>
      match s_molecules s !! m with
      | None => Ok ()
      | Some t =>
          match t_last_step t with
          | Some prev => if decide (step < prev)%N then Err (StepBelow m step prev) else Ok ()
          | None => Ok ()
          end
      end
  | _ => Ok ()
  end.

Definition step_within_total (s : scheduler_state) (e : event) : result violation_reason () :=
  match e with
  | MoleculeStepCompleted m step total =>
      if decide (total ≤ step)%N then Err (StepNotBelowTotal m step total)
      else match s_molecules s !! m with
           | Some t =>
               match t_total_steps t with
               | Some prev_total =>
                   if decide (prev_total ≠ total) then Err (TotalChanged m prev_total total)
                   else Ok ()
               | None => Ok ()
               end
           | None => Ok ()
           end
  | _ => Ok ()
  end.

Definition worker_spawned_before_killed (s : scheduler_state) (e : event) :
    result violation_reason () :=
  match e with
  | WorkerKilled w =>
      match s_workers s !! w with Some _ => Ok () | None => Err (UnknownWorker w) end
  | _ => Ok ()
  end.

Definition merge_completion_pairs_dispatch (s : scheduler_state) (e : event) :
    result violation_reason () :=
  match e with
  | MergeCompleted m branch _ =>
      match s_pending_merges s !! m with
      | Some pending => if decide (pending = branch) then Ok () else Err (BranchMismatch m branch pending)
      | None => Err (NoDispatch m)
      end
  | _ => Ok ()
  end.

Definition baseline_invariants : list invariant :=
  [Invariant "molecule_exists_before_use" molecule_exists_before_use;
   Invariant "status_transition_legal" status_transition_legal;
   Invariant "no_events_after_terminal" no_events_after_terminal;
   Invariant "step_monotone" step_monotone;
   Invariant "step_within_total" step_within_total;
   Invariant "worker_spawned_before_killed" worker_spawned_before_killed;
   Invariant "merge_completion_pairs_dispatch" merge_completion_pairs_dispatch].

(** ** The validator *)

(** [Envelope::from_line]: an external parser of JSON. *)
Class EnvelopeParser := { from_line : string → option envelope }.

Inductive validation_outcome : Type :=
| TraceOk (events_replayed molecules_seen skipped_unknown : nat)
| TraceViolation (events_replayed_before : nat) (v : violation).

(** The line of a line that does not parse. *)
Inductive validation_error : Type := ParseError (line : nat).

Record trace_validator := TraceValidator {
  tv_invariants : list invariant;
  tv_skip_unknown : bool;
}.

Definition validator_new (invariants : list invariant) : trace_validator :=
  TraceValidator invariants false.

Definition with_skip_unknown (v : trace_validator) (skip : bool) : trace_validator :=
  TraceValidator (tv_invariants v) skip.

Fixpoint check_all (invariants : list invariant) (s : scheduler_state) (env : envelope)
    (line : nat) : result violation () :=
  match invariants with
  | [] => Ok ()
  | inv :: rest =>
      match inv_check inv s (e_event env) with
      | Err r => Err (Violation (inv_id inv) (e_seq env) line r)
      | Ok _ => check_all rest s env line
      end
  end.

Section Validate.
Context `{EnvelopeParser}.

Fixpoint validate_lines (v : trace_validator) (s : scheduler_state)
    (line_no replayed skipped : nat) (ls : list string) :
    result validation_error validation_outcome :=
  match ls with
  | [] => Ok (TraceOk replayed (molecule_count s) skipped)
  | raw :: ls =>
      let trimmed := trim raw in
      if is_empty trimmed then validate_lines v s (S line_no) replayed skipped ls
      else match from_line trimmed with
           | None =>
               if tv_skip_unknown v then validate_lines v s (S line_no) replayed (S skipped) ls
               else Err (ParseError line_no)
           | Some env =>
               match check_all (tv_invariants v) s env line_no with
               | Err viol => Ok (TraceViolation replayed viol)
               | Ok _ =>
                   validate_lines v (apply_event s (e_event env)) (S line_no) (S replayed) skipped ls
               end
           end
  end.

Definition validate_str (v : trace_validator) (trace : string) :
    result validation_error validation_outcome :=
  validate_lines v scheduler_new 1 0 0 (lines trace).
End Validate.

(** ** Legal histories, without a state *)

(** A history is the list of the events so far, oldest first. *)
Definition creates (m : mid) (e : event) : bool :=
  match e with
  | MoleculeNucleated m' _ => bool_decide (m' = m)
  | DecaySpliced _ children => bool_decide (m ∈ children)
  | _ => false
  end.

Definition assigns (m : mid) (e : event) : option MoleculeStatus.molecule_status :=
  match e with
  | MoleculeStatusChanged m' _ to =>
      if decide (m' = m) then match status_from_str to with Ok st => Some st | Err _ => None end
      else None
  | MoleculeCompleted m' => if decide (m' = m) then Some MoleculeStatus.Completed else None
  | MoleculeCollapsed m' => if decide (m' = m) then Some MoleculeStatus.Collapsed else None
  | _ => None
  end.

Definition step_of (m : mid) (e : event) : option (N * N) :=
  match e with
  | MoleculeStepCompleted m' step total => if decide (m' = m) then Some (step, total) else None
  | _ => None
  end.

(** A dispatch opens a merge on its branch, a completion closes it. *)
Definition merge_of (m : mid) (e : event) : option (option string) :=
  match e with
  | MergeDispatched m' branch => if decide (m' = m) then Some (Some branch) else None
  | MergeCompleted m' _ _ => if decide (m' = m) then Some None else None
  | _ => None
  end.

(** The last value that a history gives to an observation. *)
Definition last_of {A} (f : event → option A) (h : list event) : option A :=
  foldl (λ acc e, match f e with Some a => Some a | None => acc end) None h.

Definition created (h : list event) (m : mid) : Prop := ∃ e, e ∈ h ∧ creates m e = true.

(** The status that a history records for a molecule it created. *)
Definition recorded_status (h : list event) (m : mid) : MoleculeStatus.molecule_status :=
  default MoleculeStatus.Pending (last_of (assigns m) h).

(** What makes an event legal after a history. *)
Record event_legal (h : list event) (e : event) : Prop := {
  el_known m : referenced e = Some m → created h m;
  el_status m from to :
    e = MoleculeStatusChanged m from to →
    ∃ s t, status_from_str from = Ok s ∧ status_from_str to = Ok t ∧
      s = recorded_status h m ∧ transition_allowed s t = true;
  el_open m : lifecycle e = Some m → is_terminal (recorded_status h m) = false;
  el_step m step total :
    e = MoleculeStepCompleted m step total →
    (step < total)%N ∧
    ∀ p t, last_of (step_of m) h = Some (p, t) → (p ≤ step)%N ∧ t = total;
  el_worker w : e = WorkerKilled w → WorkerSpawned w ∈ h;
  el_merge m branch r :
    e = MergeCompleted m branch r → last_of (merge_of m) h = Some (Some branch);
}.

Inductive legal : list event → Prop :=
| legal_nil : legal []
| legal_snoc h e : legal h → event_legal h e → legal (h ++ [e]).

Lemma last_of_snoc {A} (f : event → option A) h e :
  last_of f (h ++ [e]) = match f e with Some a => Some a | None => last_of f h end.
Proof. unfold last_of. by rewrite foldl_app. Qed.

Lemma last_of_some {A} (f : event → option A) h a :
  last_of f h = Some a →
  ∃ h1 e h2, h = h1 ++ e :: h2 ∧ f e = Some a ∧ ∀ e', e' ∈ h2 → f e' = None.
Proof.
  revert a. induction h as [|e h IH] using rev_ind; [done|]. intros a. rewrite last_of_snoc.
  destruct (f e) as [b|] eqn:Hf.
  - intros [= <-]. exists h, e, []. split_and!; [done|done|set_solver].
  - intros (h1 & e1 & h2 & -> & H1 & H2)%IH. exists h1, e1, (h2 ++ [e]).
    split_and!; [by rewrite <- app_assoc|done|set_solver].
Qed.

Lemma created_snoc h e m : created (h ++ [e]) m ↔ created h m ∨ creates m e = true.
Proof.
  unfold created. setoid_rewrite elem_of_app. setoid_rewrite list_elem_of_singleton. split.
  - intros (e' & [?| ->] & ?); eauto.
  - intros [(e' & ? & ?)|?]; eauto.
Qed.

(** ** The replayed state *)

Lemma or_insert_lookup `{Countable K} {A} (k k' : K) (v : A) m :
  or_insert k v m !! k' =
    if decide (k = k') then Some (default v (m !! k')) else m !! k'.
Proof.
  unfold or_insert. destruct (decide (k = k')) as [->|Hne].
  - destruct (m !! k') as [x|] eqn:Hm; simpl; [done|apply lookup_insert_eq].
  - destruct (m !! k); [done|]. by apply lookup_insert_ne.
Qed.

Lemma or_inserts_lookup `{Countable K} {A} (ks : list K) k' (v : A) m :
  foldl (λ ms c, or_insert c v ms) m ks !! k' =
    if decide (k' ∈ ks) then Some (default v (m !! k')) else m !! k'.
Proof.
  revert m. induction ks as [|k ks IH]; intros m; [done|]. simpl. rewrite IH, or_insert_lookup.
  destruct (decide (k = k')) as [->|Hne].
  - rewrite (decide_True (P := k' ∈ k' :: ks)) by left. by case_decide.
  - destruct (decide (k' ∈ ks)) as [Hin|Hin].
    + by rewrite decide_True by (by right).
    + rewrite decide_False; [done|]. by intros [->|?]%elem_of_cons.
Qed.

(** The effect of an event on the record of one molecule. *)
Lemma apply_molecule s e m :
  ∃ f, s_molecules (apply_event s e) !! m =
    (λ t, MoleculeTraceState (default (t_status t) (assigns m e))
       (match step_of m e with Some p => Some p.1 | None => t_last_step t end)
       (match step_of m e with Some p => Some p.2 | None => t_total_steps t end)
       (t_formula_id t)) <$>
    (if creates m e then Some (default (fresh_molecule f) (s_molecules s !! m))
     else s_molecules s !! m).
Proof.
  assert (∀ o : option molecule_trace_state, (λ t, MoleculeTraceState (t_status t)
    (t_last_step t) (t_total_steps t) (t_formula_id t)) <$> o = o) as Hid by (by intros [[]|]).
  destruct e; simpl; try (exists ""; symmetry; apply Hid).
  - exists formula_id. rewrite Hid, or_insert_lookup. by case_decide; case_bool_decide.
  - exists "". destruct (decide (molecule_id = m)) as [->|Hne].
    + rewrite lookup_alter_eq. destruct (s_molecules s !! m) as [t|]; [|done]. simpl.
      by destruct (status_from_str to), t.
    + rewrite lookup_alter_ne, Hid by done. done.
  - exists "". destruct (decide (molecule_id = m)) as [->|Hne].
    + by rewrite lookup_alter_eq.
    + by rewrite lookup_alter_ne, Hid by done.
  - exists "". destruct (decide (molecule_id = m)) as [->|Hne].
    + by rewrite lookup_alter_eq.
    + by rewrite lookup_alter_ne, Hid by done.
  - exists "". destruct (decide (molecule_id = m)) as [->|Hne].
    + by rewrite lookup_alter_eq.
    + by rewrite lookup_alter_ne, Hid by done.
  - exists "". rewrite Hid, or_inserts_lookup. by case_decide; case_bool_decide.
Qed.

(** The state that the validator has reached, read off the history. *)
Record state_matches (h : list event) (s : scheduler_state) : Prop := {
  sm_molecule m :
    match s_molecules s !! m with
    | Some t => created h m ∧ t_status t = recorded_status h m ∧
        t_last_step t = fst <$> last_of (step_of m) h ∧
        t_total_steps t = snd <$> last_of (step_of m) h
    | None => ¬ created h m ∧ last_of (assigns m) h = None ∧ last_of (step_of m) h = None
    end;
  sm_worker w : is_Some (s_workers s !! w) ↔ WorkerSpawned w ∈ h;
  sm_merge m : s_pending_merges s !! m = mjoin (last_of (merge_of m) h);
}.

Lemma matches_new : state_matches [] scheduler_new.
Proof.
  split; simpl.
  - intros m. rewrite lookup_empty. split_and!; [|done..]. intros (e & He & _). set_solver.
  - intros w. rewrite lookup_empty. split; [by intros []|set_solver].
  - done.
Qed.

(** Only events that mention a molecule change what is recorded of it. *)
Lemma assigns_referenced m e st : assigns m e = Some st → referenced e = Some m.
Proof. destruct e; simpl; try done; by case_decide as Hd; [rewrite Hd|]. Qed.

Lemma step_of_referenced m e p : step_of m e = Some p → referenced e = Some m.
Proof. destruct e; simpl; try done; by case_decide as Hd; [rewrite Hd|]. Qed.

Lemma matches_molecule h s e m :
  state_matches h s → (∀ m, referenced e = Some m → created h m) →
  match s_molecules (apply_event s e) !! m with
  | Some t => created (h ++ [e]) m ∧ t_status t = recorded_status (h ++ [e]) m ∧
      t_last_step t = fst <$> last_of (step_of m) (h ++ [e]) ∧
      t_total_steps t = snd <$> last_of (step_of m) (h ++ [e])
  | None => ¬ created (h ++ [e]) m ∧ last_of (assigns m) (h ++ [e]) = None ∧
      last_of (step_of m) (h ++ [e]) = None
  end.
Proof.
  intros Hs Hknown. destruct (apply_molecule s e m) as [f ->].
  pose proof (sm_molecule _ _ Hs m) as Hm. unfold recorded_status in *.
  destruct (s_molecules s !! m) as [t|].
  - destruct Hm as (Hc & Hst & Hl & Ht).
    replace (if creates m e then Some (default (fresh_molecule f) (Some t)) else Some t)
      with (Some t) by (by destruct (creates m e)). simpl.
    rewrite !last_of_snoc, created_snoc. split_and!; [by left| | |].
    + by destruct (assigns m e).
    + by destruct (step_of m e).
    + by destruct (step_of m e).
  - destruct Hm as (Hc & Ha & Hl).
    assert (assigns m e = None) as Hae
      by (destruct (assigns m e) eqn:He; [|done]; by apply assigns_referenced, Hknown in He).
    assert (step_of m e = None) as Hse
      by (destruct (step_of m e) eqn:He; [|done]; by apply step_of_referenced, Hknown in He).
    destruct (creates m e) eqn:Hcr; simpl;
      rewrite !last_of_snoc, created_snoc, ?Hae, ?Hse, ?Ha, ?Hl.
    { by split_and!; [right| | |]. }
    split_and!; [|done..]. intros [?|?]; [done|congruence].
Qed.

Lemma matches_apply h s e :
  state_matches h s → (∀ m, referenced e = Some m → created h m) →
  state_matches (h ++ [e]) (apply_event s e).
Proof.
  intros Hs Hknown. split.
  - intros m. by apply matches_molecule.
  - intros w. rewrite elem_of_app, list_elem_of_singleton, <- (sm_worker _ _ Hs).
    assert (is_Some (s_workers s !! w) ↔ is_Some (s_workers s !! w) ∨ False) as Hor by tauto.
    destruct e; simpl; try (rewrite Hor at 1; intuition congruence).
    + rewrite or_insert_lookup. case_decide as Hw.
      * subst. split; [by right|]. intros _. by destruct (s_workers s !! w).
      * rewrite Hor at 1. intuition congruence.
    + destruct (decide (worker_id = w)) as [->|Hne].
      * rewrite lookup_alter_eq, fmap_is_Some. rewrite Hor at 1. intuition congruence.
      * rewrite lookup_alter_ne by done. rewrite Hor at 1. intuition congruence.
  - intros m. rewrite last_of_snoc. pose proof (sm_merge _ _ Hs m) as Hm.
    destruct e; simpl; try done.
    + case_decide as Hd; [subst; by rewrite lookup_insert_eq|by rewrite lookup_insert_ne].
    + case_decide as Hd; [subst; by rewrite lookup_delete_eq|by rewrite lookup_delete_ne].
Qed.

(** ** The baseline checks *)

Definition baseline_ok (s : scheduler_state) (e : event) : Prop :=
  molecule_exists_before_use s e = Ok () ∧ status_transition_legal s e = Ok () ∧
  no_events_after_terminal s e = Ok () ∧ step_monotone s e = Ok () ∧
  step_within_total s e = Ok () ∧ worker_spawned_before_killed s e = Ok () ∧
  merge_completion_pairs_dispatch s e = Ok ().

Lemma check_all_baseline s env line :
  check_all baseline_invariants s env line = Ok () ↔ baseline_ok s (e_event env).
Proof.
  unfold baseline_ok. simpl.
  repeat match goal with
  | |- context [match ?r with Ok _ => _ | Err _ => _ end] =>
      destruct r as [[]|] eqn:?; simpl; [|split; [done|]; intros; naive_solver]
  end. tauto.
Qed.

Lemma check_all_error invariants s env line viol :
  check_all invariants s env line = Err viol →
  v_seq viol = e_seq env ∧ v_line viol = line ∧
  ∃ inv, inv ∈ invariants ∧ v_invariant viol = inv_id inv ∧
    inv_check inv s (e_event env) = Err (v_reason viol).
Proof.
  induction invariants as [|inv rest IH]; [done|]. simpl.
  destruct (inv_check inv s (e_event env)) as [[]|r] eqn:Hc.
  - intros (H1 & H2 & i & Hi & H3)%IH. split_and!; [done..|]. exists i.
    split; [by right|done].
  - intros [= <-]. simpl. split_and!; [done..|]. exists inv. split_and!; [by left|done..].
Qed.

Section Baseline.
Context (h : list event) (s : scheduler_state) (Hs : state_matches h s).
#[local] Set Default Proof Using "All".

Lemma exists_legal e :
  molecule_exists_before_use s e = Ok () ↔ ∀ m, referenced e = Some m → created h m.
Proof.
  unfold molecule_exists_before_use. destruct (referenced e) as [m|]; [|by split].
  pose proof (sm_molecule _ _ Hs m) as Hm. destruct (s_molecules s !! m).
  - split; [|done]. intros _ ? [= <-]. tauto.
  - split; [done|]. intros Hk. by destruct Hm as [[] _]; apply Hk.
Qed.

(** On a molecule that exists the recorded status is the state's. *)
Lemma status_of_recorded m : created h m → status_of s m = Some (recorded_status h m).
Proof.
  intros Hc. unfold status_of. pose proof (sm_molecule _ _ Hs m) as Hm.
  destruct (s_molecules s !! m); simpl; [f_equal; tauto|tauto].
Qed.

Lemma status_legal e :
  (∀ m, referenced e = Some m → created h m) →
  status_transition_legal s e = Ok () ↔
  ∀ m from to, e = MoleculeStatusChanged m from to →
    ∃ st t, status_from_str from = Ok st ∧ status_from_str to = Ok t ∧
      st = recorded_status h m ∧ transition_allowed st t = true.
Proof.
  intros Hk. destruct e as [|m from to| | | | | | | | | | | | | | | | | |]; simpl; try done.
  rewrite status_of_recorded by (by apply Hk).
  destruct (status_from_str from) as [st|] eqn:Hf;
    [|split; [done|intros Hx; destruct (Hx _ _ _ eq_refl) as (? & ? & ? & _); congruence]].
  destruct (status_from_str to) as [t|] eqn:Ht;
    [|split; [done|intros Hx; destruct (Hx _ _ _ eq_refl) as (? & ? & _ & ? & _); congruence]].
  destruct (decide (st ≠ recorded_status h m)) as [Hne|Heq].
  - split; [done|]. intros Hx. destruct (Hx _ _ _ eq_refl) as (? & ? & ? & ? & ? & _). congruence.
  - apply dec_stable in Heq. destruct (transition_allowed st t) eqn:Ha.
    + split; [|done]. intros _ ? ? ? [= <- <- <-]. eauto 10.
    + split; [done|]. intros Hx. destruct (Hx _ _ _ eq_refl) as (? & ? & ? & ? & ? & ?).
      congruence.
Qed.

Lemma open_legal e :
  (∀ m, referenced e = Some m → created h m) →
  no_events_after_terminal s e = Ok () ↔
  ∀ m, lifecycle e = Some m → is_terminal (recorded_status h m) = false.
Proof.
  intros Hk. unfold no_events_after_terminal.
  destruct (lifecycle e) as [m|] eqn:Hl; [|by split].
  rewrite status_of_recorded by (apply Hk; by destruct e).
  destruct (is_terminal (recorded_status h m)) eqn:Ht.
  - split; [done|]. intros Hx. specialize (Hx m eq_refl). congruence.
  - split; [|done]. by intros _ ? [= <-].
Qed.

Lemma steps_legal e :
  (∀ m, referenced e = Some m → created h m) →
  step_monotone s e = Ok () ∧ step_within_total s e = Ok () ↔
  ∀ m step total, e = MoleculeStepCompleted m step total →
    (step < total)%N ∧ ∀ p t, last_of (step_of m) h = Some (p, t) → (p ≤ step)%N ∧ t = total.
Proof.
  intros Hk. destruct e as [| |m step total| | | | | | | | | | | | | | | | |]; simpl; try done.
  pose proof (sm_molecule _ _ Hs m) as Hm.
  destruct (s_molecules s !! m) as [t|]; [|destruct Hm as [[] _]; by apply Hk].
  destruct Hm as (_ & _ & -> & ->).
  transitivity ((step < total)%N ∧
    ∀ p t, last_of (step_of m) h = Some (p, t) → (p ≤ step)%N ∧ t = total);
    [|split; [by intros ? ? ? ? [= <- <- <-]|by eauto]].
  destruct (last_of (step_of m) h) as [[p t']|]; simpl.
  - destruct (decide (step < p)%N), (decide (total ≤ step)%N), (decide (t' ≠ total)) as [|Ht'];
      (split; [intros [? ?]; try done|intros [? Hx]; destruct (Hx _ _ eq_refl); try lia; done]).
    apply dec_stable in Ht'. split; [lia|]. intros ? ? [= <- <-]. split; [lia|done].
  - destruct (decide (total ≤ step)%N);
      (split; [intros [? ?]; try done|intros [? _]; try lia; done]).
    split; [lia|done].
Qed.

Lemma worker_legal e :
  worker_spawned_before_killed s e = Ok () ↔ ∀ w, e = WorkerKilled w → WorkerSpawned w ∈ h.
Proof.
  destruct e; simpl; try done. pose proof (sm_worker _ _ Hs worker_id) as Hw.
  destruct (s_workers s !! worker_id).
  - split; [|done]. intros _ ? [= <-]. by apply Hw.
  - split; [done|]. intros Hx. destruct (proj2 Hw) as [? ?]; [by apply Hx|done].
Qed.

Lemma merge_legal e :
  merge_completion_pairs_dispatch s e = Ok () ↔
  ∀ m branch r, e = MergeCompleted m branch r → last_of (merge_of m) h = Some (Some branch).
Proof.
  destruct e as [| | | | | | | | | | | | | | |m branch r| | | |]; simpl; try done.
  rewrite (sm_merge _ _ Hs).
  transitivity (last_of (merge_of m) h = Some (Some branch));
    [|split; [by intros ? ? ? ? [= <- <- _]|by eauto]].
  destruct (last_of (merge_of m) h) as [[b|]|]; simpl; [|done..].
  case_decide as Hb; [by subst|]. split; [done|congruence].
Qed.

Lemma baseline_legal e : baseline_ok s e ↔ event_legal h e.
Proof.
  unfold baseline_ok. split.
  - intros (Hk & H1 & H2 & H3 & H4 & H5 & H6). pose proof (proj1 (exists_legal e) Hk) as Hk'.
    split; [exact Hk'|exact (proj1 (status_legal e Hk') H1)|exact (proj1 (open_legal e Hk') H2)|
      exact (proj1 (steps_legal e Hk') (conj H3 H4))|exact (proj1 (worker_legal e) H5)|
      exact (proj1 (merge_legal e) H6)].
  - intros [Hk H1 H2 H3 H4 H5].
    destruct (proj2 (steps_legal e Hk) H3) as [H31 H32].
    split_and!; [exact (proj2 (exists_legal e) Hk)|exact (proj2 (status_legal e Hk) H1)|
      exact (proj2 (open_legal e Hk) H2)|done|done|exact (proj2 (worker_legal e) H4)|
      exact (proj2 (merge_legal e) H5)].
Qed.
End Baseline.

Lemma legal_prefix h1 e h2 : legal (h1 ++ e :: h2) → legal h1 ∧ event_legal h1 e.
Proof.
  induction h2 as [|e' h2 IH] using rev_ind; intros Hl.
  - inversion Hl as [Hnil|h' e' Hh He Heq]; [by destruct h1|].
    apply app_inj_tail in Heq as [-> ->]. done.
  - apply IH. rewrite app_comm_cons, app_assoc in Hl.
    inversion Hl as [Hnil|h' e'' Hh He Heq]; [by destruct h1|].
    by apply app_inj_tail in Heq as [-> _].
Qed.

(** ** What the validator answers *)

Section Validator.
Context `{EnvelopeParser}.

(** The lines of a trace that are not blank, and what they parse to. *)
Definition parsed (ls : list string) : list (option envelope) :=
  map from_line (filter (λ l, is_empty l = false) (map trim ls)).

Definition envelopes (ls : list string) : list envelope := omap (M:=list) id (parsed ls).
Definition unreadable (ls : list string) : nat := length (filter (λ o, o = None) (parsed ls)).
Definition events (envs : list envelope) : list event := map e_event envs.

Lemma parsed_cons raw ls :
  parsed (raw :: ls) =
    if is_empty (trim raw) then parsed ls else from_line (trim raw) :: parsed ls.
Proof.
  unfold parsed. simpl. rewrite filter_cons. by destruct (is_empty (trim raw)).
Qed.

Definition outcome_ok (skip : bool) (h : list event) (line_no replayed skipped : nat)
    (ls : list string) (r : result validation_error validation_outcome) : Prop :=
  match r with
  | Ok (TraceOk n seen k) =>
      legal (h ++ events (envelopes ls)) ∧ n = replayed + length (envelopes ls) ∧
      k = skipped + unreadable ls ∧ (skip = false → unreadable ls = 0) ∧
      ∃ ms : gset mid, seen = size ms ∧ ∀ m, m ∈ ms ↔ created (h ++ events (envelopes ls)) m
  | Ok (TraceViolation n viol) =>
      ∃ e1 env e2, envelopes ls = e1 ++ env :: e2 ∧ n = replayed + length e1 ∧
        legal (h ++ events e1) ∧ ¬ event_legal (h ++ events e1) (e_event env) ∧
        v_seq viol = e_seq env
  | Err (ParseError l) =>
      skip = false ∧ line_no ≤ l ∧ ∃ raw, ls !! (l - line_no) = Some raw ∧
        is_empty (trim raw) = false ∧ from_line (trim raw) = None
  end.

(** One consumed line, which contributes [envs] to the envelopes. *)
Lemma outcome_ok_step skip h line_no replayed skipped raw ls envs lost r :
  envelopes (raw :: ls) = envs ++ envelopes ls →
  unreadable (raw :: ls) = lost + unreadable ls → (skip = false → lost = 0) →
  outcome_ok skip (h ++ events envs) (S line_no) (replayed + length envs) (skipped + lost) ls r →
  outcome_ok skip h line_no replayed skipped (raw :: ls) r.
Proof.
  intros He Hu Hlost. unfold outcome_ok, events.
  destruct r as [[n seen k|n viol]|[l]].
  - rewrite He, Hu, map_app, !length_app, <- !app_assoc. intros (? & -> & -> & Hs & Hms).
    split_and!; [done|lia|lia| |done]. intros Hsk. rewrite Hlost, Hs by done. done.
  - intros (e1 & env & e2 & He' & -> & Hl & Hv & Hq). exists (envs ++ e1), env, e2.
    rewrite He, He', !map_app, <- !app_assoc, !length_app in *. split_and!; [done|lia|done..].
  - intros (? & ? & raw' & Hraw & ?). split_and!; [done|lia|]. exists raw'.
    replace (l - line_no) with (S (l - S line_no)) by lia. done.
Qed.

Lemma validate_lines_spec skip ls : ∀ h s line_no replayed skipped,
  legal h → state_matches h s →
  outcome_ok skip h line_no replayed skipped ls
    (validate_lines (with_skip_unknown (validator_new baseline_invariants) skip) s line_no
       replayed skipped ls).
Proof.
  induction ls as [|raw ls IH]; intros h s line_no replayed skipped Hl Hs.
  { simpl. unfold events. simpl. rewrite app_nil_r. split_and!; [done|lia|done..|].
    exists (dom (s_molecules s)). split; [by rewrite size_dom|]. intros m.
    rewrite elem_of_dom. pose proof (sm_molecule _ _ Hs m) as Hm.
    destruct (s_molecules s !! m); [|split; [by intros []|tauto]].
    split; [tauto|eauto]. }
  cbn [validate_lines].
  assert (∀ A (x : list A), x = [] ++ x) as Hnil by done.
  assert (∀ x, x + 0 = x) as Hz by lia.
  destruct (is_empty (trim raw)) eqn:Hblank.
  { eapply (outcome_ok_step _ _ _ _ _ _ _ [] 0);
      [unfold envelopes|unfold unreadable|done|]; rewrite ?parsed_cons, ?Hblank; [done..|].
    unfold events. simpl. rewrite app_nil_r, !Hz. by apply IH. }
  destruct (from_line (trim raw)) as [env|] eqn:Hp.
  - destruct (check_all _ s env line_no) as [[]|viol] eqn:Hc;
      cbn [tv_invariants with_skip_unknown validator_new] in Hc.
    + apply check_all_baseline, (baseline_legal _ _ Hs) in Hc.
      eapply (outcome_ok_step _ _ _ _ _ _ _ [env] 0);
        [unfold envelopes|unfold unreadable|done|]; rewrite ?parsed_cons, ?Hblank, ?Hp; [done..|].
      rewrite Hz. replace (replayed + length [env]) with (S replayed) by (simpl; lia).
      apply IH; [by constructor|]. apply matches_apply; [done|]. by destruct Hc.
    + exists [], env, (envelopes ls). unfold envelopes, events. simpl.
      rewrite parsed_cons, Hblank, Hp, app_nil_r. split_and!; [done|lia|done| |].
      * intros Hleg. apply (baseline_legal _ _ Hs), (check_all_baseline _ _ line_no) in Hleg.
        congruence.
      * by apply check_all_error in Hc as [? _].
  - simpl. destruct skip eqn:Hskip.
    + eapply (outcome_ok_step _ _ _ _ _ _ _ [] 1);
        [unfold envelopes|unfold unreadable|done|]; rewrite ?parsed_cons, ?Hblank, ?Hp; [done..|].
      unfold events. simpl. rewrite app_nil_r, Hz.
      replace (skipped + 1) with (S skipped) by lia. by apply IH.
    + split_and!; [done|lia|]. exists raw. by rewrite Nat.sub_diag.
Qed.

(** The validator is sound and complete for the legal histories. It accepts
    a readable trace exactly when its events form a legal history, it then
    counts its events, its molecules and its skipped lines exactly; a violation
    names the first event that is not legal after those before it; and a parse
    error points at a line that does not parse, never when such lines are
    skipped. *)
Theorem validator_exact skip trace :
  let r := validate_str (with_skip_unknown (validator_new baseline_invariants) skip) trace in
  outcome_ok skip [] 1 0 0 (lines trace) r ∧
  (skip = true ∨ unreadable (lines trace) = 0 →
   (∃ n seen k, r = Ok (TraceOk n seen k)) ↔ legal (events (envelopes (lines trace)))).
Proof.
  intros r.
  pose proof (validate_lines_spec skip (lines trace) [] scheduler_new 1 0 0 legal_nil matches_new)
    as Hr. fold (validate_str (with_skip_unknown (validator_new baseline_invariants) skip) trace) in Hr.
  fold r in Hr. split; [exact Hr|]. intros Hread. split.
  - intros (n & seen & k & He). rewrite He in Hr. apply Hr.
  - intros Hl. destruct r as [[n seen k|n viol]|[l]]; [by eauto| |].
    + destruct Hr as (e1 & env & e2 & He & _ & _ & Hno & _). rewrite He in Hl.
      unfold events in Hl. rewrite map_app in Hl. by apply legal_prefix in Hl as [_ ?].
    + destruct Hr as (-> & _ & raw & Hraw & Hb & Hp). destruct Hread as [?|Hz]; [done|].
      unfold unreadable in Hz. exfalso. apply nil_length_inv in Hz.
      assert (@None envelope ∈ filter (λ o, o = None) (parsed (lines trace))) as Hin.
      { apply list_elem_of_filter. split; [done|]. unfold parsed. rewrite <- Hp.
        apply list_elem_of_fmap_2, list_elem_of_filter. split; [done|].
        apply list_elem_of_fmap_2. by eapply list_elem_of_lookup_2. }
      rewrite Hz in Hin. by apply elem_of_nil in Hin.
Qed.
End Validator.

(** ** What a legal history promises *)

Lemma assigns_lifecycle m e st : assigns m e = Some st → lifecycle e = Some m.
Proof. destruct e; simpl; try done; by case_decide as Hd; [rewrite Hd|]. Qed.

(** A terminal status is never left. *)
Lemma terminal_stays m h1 e h2 st :
  assigns m e = Some st → is_terminal st = true → legal (h1 ++ e :: h2) →
  recorded_status (h1 ++ e :: h2) m = st ∧ ∀ e', e' ∈ h2 → lifecycle e' ≠ Some m.
Proof.
  intros He Hst. unfold recorded_status. induction h2 as [|e' h2 IH] using rev_ind; intros Hl.
  - rewrite last_of_snoc, He. split; [done|]. set_solver.
  - rewrite app_comm_cons, app_assoc in *. apply legal_prefix in Hl as [Hl Hleg].
    destruct (IH Hl) as [Hrec Hno].
    assert (lifecycle e' ≠ Some m) as He'.
    { intros Hm. apply (el_open _ _ Hleg) in Hm. unfold recorded_status in Hm.
      rewrite Hrec in Hm. congruence. }
    rewrite last_of_snoc. split.
    + destruct (assigns m e') eqn:Ha; [by apply assigns_lifecycle in Ha|done].
    + set_solver.
Qed.

(** The last recorded step of a molecule only grows, within one total. *)
Lemma steps_stay m h1 step total h2 :
  legal (h1 ++ MoleculeStepCompleted m step total :: h2) →
  ∃ p, last_of (step_of m) (h1 ++ MoleculeStepCompleted m step total :: h2) = Some (p, total) ∧
    (step ≤ p)%N.
Proof.
  induction h2 as [|e' h2 IH] using rev_ind; intros Hl.
  - exists step. rewrite last_of_snoc. simpl. by rewrite decide_True.
  - rewrite app_comm_cons, app_assoc in *. apply legal_prefix in Hl as [Hl Hleg].
    destruct (IH Hl) as (p & Hp & Hle). rewrite last_of_snoc.
    destruct (step_of m e') as [[p' t']|] eqn:Hs; [|by eauto].
    destruct e' as [| |m' ? ?| | | | | | | | | | | | | | | | |]; try done.
    simpl in Hs. case_decide; [|done]. simplify_eq.
    destruct (el_step _ _ Hleg _ _ _ eq_refl) as [_ Hx]. destruct (Hx _ _ Hp) as [? ->].
    exists p'. split; [done|lia].
Qed.

(** What an accepted trace tells: once a molecule is recorded completed or
    collapsed, no later event touches its lifecycle; its completed steps never
    go back, stay below their total and keep the total they started with; and
    every completed merge answers the latest dispatch of that molecule, on the
    same branch, with nothing of that molecule's merges in between. *)
Theorem legal_history h m :
  legal h →
  (∀ h1 e h2 st, h = h1 ++ e :: h2 → assigns m e = Some st → is_terminal st = true →
     ∀ e', e' ∈ h2 → lifecycle e' ≠ Some m) ∧
  (∀ h1 h2 h3 step1 total1 step2 total2,
     h = h1 ++ MoleculeStepCompleted m step1 total1 :: h2 ++
           MoleculeStepCompleted m step2 total2 :: h3 →
     (step1 ≤ step2 < total1)%N ∧ total2 = total1) ∧
  (∀ h1 branch r h2, h = h1 ++ MergeCompleted m branch r :: h2 →
     ∃ x y, h1 = x ++ MergeDispatched m branch :: y ∧ ∀ e, e ∈ y → merge_of m e = None).
Proof.
  intros Hl. split_and!.
  - intros h1 e h2 st -> He Hst. by apply (terminal_stays m h1 e h2 st He Hst Hl).
  - intros h1 h2 h3 s1 t1 s2 t2 ->. rewrite app_comm_cons, app_assoc in Hl.
    apply legal_prefix in Hl as [Hl Hleg]. destruct (steps_stay _ _ _ _ _ Hl) as (p & Hp & Hle).
    destruct (el_step _ _ Hleg _ _ _ eq_refl) as [Hlt Hx]. destruct (Hx _ _ Hp) as [? ->].
    split; [lia|done].
  - intros h1 branch r h2 ->. apply legal_prefix in Hl as [_ Hleg].
    destruct (last_of_some _ _ _ (el_merge _ _ Hleg _ _ _ eq_refl)) as (x & e & y & -> & He & Hy).
    exists x, y. split; [|done]. destruct e; try done; simpl in He; case_decide; simplify_eq; done.
Qed.

(** ** A concrete trace *)

Section Examples.

Definition id_m : mid := short_id "m".

(** One event per line, named by a letter. *)
#[local] Instance letter_parser : EnvelopeParser :=
  {| from_line s :=
       if decide (s = "n") then Some (Envelope 0 (MoleculeNucleated id_m "task-work"))
       else if decide (s = "r") then Some (Envelope 1 (MoleculeStatusChanged id_m "pending" "running"))
       else if decide (s = "s") then Some (Envelope 2 (MoleculeStepCompleted id_m 0 1))
       else if decide (s = "c") then Some (Envelope 3 (MoleculeCompleted id_m))
       else None |}.

Definition sample_trace : string := "n" +:+ nl +:+ "r" +:+ nl +:+ nl +:+ "s" +:+ nl +:+ "c" +:+ nl.

(** The step after the completion is the violation. *)
Example late_step :
  validate_str (validator_new baseline_invariants) (sample_trace +:+ "s") =
    Ok (TraceViolation 4 (Violation "no_events_after_terminal" 2 6
      (AfterTerminal id_m MoleculeStatus.Completed))).
Proof. by vm_compute. Qed.

Lemma validator_exact_witness : legal (events (envelopes (lines sample_trace))).
Proof.
  apply (validator_exact false sample_trace); [right; by vm_compute|].
  exists 4, 1, 0. by vm_compute.
Defined.

Definition sample_history : list event :=
  [MoleculeNucleated id_m "task-work"; MoleculeStepCompleted id_m 0 2;
   MoleculeStepCompleted id_m 1 2].

Lemma sample_legal : legal sample_history.
Proof.
  assert (∀ h, created (MoleculeNucleated id_m "task-work" :: h) id_m) as Hc
    by (intros h; eexists; split; [apply list_elem_of_here|by vm_compute]).
  apply (legal_snoc [_; _]); [apply (legal_snoc [_]); [apply (legal_snoc []); [constructor|]|]|].
  - by split.
  - split; try done; [by intros ? [= <-]|]. intros ? ? ? [= <- <- <-]. by split.
  - split; try done; [by intros ? [= <-]|]. intros ? ? ? [= <- <- <-]. split; [done|].
    intros p t [= <- <-]. by split.
Qed.

Lemma legal_history_witness :
  legal sample_history ∧ (0 ≤ 1 < 2)%N ∧ 2%N = 2%N.
Proof.
  split; [exact sample_legal|].
  exact (proj1 (proj2 (legal_history _ id_m sample_legal)) [_] [] [] 0%N 2%N 1%N 2%N eq_refl).
Defined.
End Examples.
