(* ===== verification/Scc.v ===== *)
(** Strongly connected components by Tarjan's algorithm, as
    [crates/cosmon-graph/src/scc.rs] runs it: vertices are interned as indices,
    an explicit stack of frames replaces the recursion. Vectors used as stacks
    are lists with the top first. [None] is a panic of the source. *)
From S2P Require Import Prelude Graph.
From stdpp Require Import prelude gmap list sorting fin_maps relations.

(** ** Depth-first search over indices *)

(** [Frame]: a vertex and the index of its next edge. *)
Record frame := Frame { fv : nat; fnext : nat }.

(** The local variables of [find_sccs]. *)
Record scc_state := SccState {
  ix : nat;
  indices : list (option nat);
  lowlinks : list nat;
  on_stack : list bool;
  stk : list nat;
  sccs : list (list nat);
  work : list frame;
}.

Definition scc_init (n : nat) : scc_state :=
  SccState 0 (replicate n None) (replicate n 0) (replicate n false) [] [] [].

(** A vertex is visited for the first time; its index was read just before, so
    that the writes are in range. *)
Definition discover (w : nat) (st : scc_state) : scc_state :=
  SccState (S (ix st)) (<[w := Some (ix st)]> (indices st)) (<[w := ix st]> (lowlinks st))
    (<[w := true]> (on_stack st)) (w :: stk st) (sccs st) (Frame w 0 :: work st).

Definition set_low (v : nat) (l : nat) (st : scc_state) : scc_state :=
  SccState (ix st) (indices st) (<[v := l]> (lowlinks st)) (on_stack st) (stk st) (sccs st)
    (work st).

Definition set_work (fs : list frame) (st : scc_state) : scc_state :=
  SccState (ix st) (indices st) (lowlinks st) (on_stack st) (stk st) (sccs st) fs.

(** [while let Some(w) = stack.pop()], down to [v]. *)
Fixpoint pop_until (v : nat) (os : list bool) (s component : list nat) :
    list bool * list nat * list nat :=
  match s with
  | [] => (os, [], component)
  | w :: rest =>
      if decide (w = v) then (<[w := false]> os, rest, component ++ [w])
      else pop_until v (<[w := false]> os) rest (component ++ [w])
  end.

(** The component of [v] is complete. *)
Definition emit (v : nat) (st : scc_state) : scc_state :=
  let '(os, s, component) := pop_until v (on_stack st) (stk st) [] in
  SccState (ix st) (indices st) (lowlinks st) os s (sccs st ++ [component]) (work st).

(** The lowlink of [v] is folded into its parent. *)
Definition fold_low (v : nat) (st : scc_state) : option scc_state :=
  match work st with
  | [] => Some st
  | parent :: _ =>
      lv ← lowlinks st !! v;
      lp ← lowlinks st !! fv parent;
      Some (if decide (lv < lp) then set_low (fv parent) lv st else st)
  end.

(** One iteration of the inner loop on the top frame [f]. *)
Definition frame_step (adj : list (list nat)) (f : frame) (rest : list frame) (st : scc_state) :
    option scc_state :=
  let v := fv f in
  edges ← adj !! v;
  match edges !! fnext f with
  | Some w =>
      let st := set_work (Frame v (S (fnext f)) :: rest) st in
      iw ← indices st !! w;
      match iw with
      | None => Some (discover w st)
      | Some wi =>
          ow ← on_stack st !! w;
          lv ← lowlinks st !! v;
          Some (if (ow : bool) && bool_decide (wi < lv) then set_low v wi st else st)
      end
  | None =>
      v_low ← lowlinks st !! v;
      iv ← indices st !! v;
      v_idx ← iv;
      let st := if decide (v_low = v_idx) then emit v st else st in
      fold_low v (set_work rest st)
  end.

Definition scc_step (adj : list (list nat)) (r : option scc_state) : option (option scc_state) :=
  match r with
  | None => None
  | Some st =>
      match work st with
      | [] => None
      | f :: rest => Some (frame_step adj f rest st)
      end
  end.

(** One frame per vertex, one iteration per edge and one to leave it. *)
Definition scc_fuel (adj : list (list nat)) : nat := length adj * S (length (concat adj)).

Definition visit_from (adj : list (list nat)) (r : option scc_state) (start : nat) :
    option scc_state :=
  st ← r;
  i ← indices st !! start;
  match i with
  | Some _ => Some st
  | None => loop (scc_fuel adj) (scc_step adj) (Some (discover start st))
  end.

Definition find_sccs (adj : list (list nat)) : option (list (list nat)) :=
  sccs <$> foldl (visit_from adj) (Some (scc_init (length adj))) (seq 0 (length adj)).

(** ** Vertices *)

Section Tarjan.
Context {N : Type} `{OrdId N}.

(** The vertices in order of first appearance. *)
Definition intern (nodes : list N) (n : N) : list N :=
  if decide (n ∈ nodes) then nodes else nodes ++ [n].

Definition interned (vertices : list N) (edges : list (N * N)) : list N :=
  foldl (λ nodes e, intern (intern nodes e.1) e.2) (foldl intern [] vertices) edges.

(** [idx_of[n]] *)
Definition index_of (nodes : list N) (n : N) : nat :=
  match list_find (λ m, m = n) nodes with Some (i, _) => i | None => 0 end.

(** [list.sort_unstable(); list.dedup()] *)
Fixpoint dedup_sorted (l : list nat) : list nat :=
  match l with
  | a :: (b :: _) as l' => if decide (a = b) then dedup_sorted l' else a :: dedup_sorted l'
  | _ => l
  end.

Definition build_adjacency (vertices : list N) (edges : list (N * N)) :
    list N * list (list nat) :=
  let nodes := interned vertices edges in
  let adj := foldl (λ adj e, alter (λ l, l ++ [index_of nodes e.2]) (index_of nodes e.1) adj)
    (replicate (length nodes) []) edges in
  (nodes, map (λ l, dedup_sorted (merge_sort le l)) adj).

(** [out.sort_by(|a, b| a[0].cmp(&b[0]))]; comparing an empty component would panic. *)
Definition head_le (a b : list N) : Prop :=
  match a, b with x :: _, y :: _ => x ≼ y | [], _ => True | _, [] => False end.

#[export] Instance head_le_dec : RelDecision head_le.
Proof. intros [|x a] [|y b]; simpl; try apply _; right; tauto. Defined.

Definition materialise (nodes : list N) (sccs : list (list nat)) : option (list (list N)) :=
  out ← mapM (λ ixs, sort_ids <$> mapM (λ i, nodes !! i) ixs) sccs;
  if decide (2 ≤ length out ∧ [] ∈ out) then None else Some (merge_sort head_le out).

Definition tarjan_scc (vertices : list N) (edges : list (N * N)) : option (list (list N)) :=
  let '(nodes, adj) := build_adjacency vertices edges in
  sccs_by_index ← find_sccs adj;
  materialise nodes sccs_by_index.

Definition non_trivial (self_loops : gset N) (comp : list N) : bool :=
  bool_decide (2 ≤ length comp) ||
  match comp with [x] => bool_decide (x ∈ self_loops) | _ => false end.

Definition non_trivial_sccs (vertices : list N) (edges : list (N * N)) :
    option (list (list N)) :=
  let self_loops : gset N :=
    list_to_set (omap (λ e, if decide (e.1 = e.2) then Some e.1 else None) edges) in
  filter (λ comp, non_trivial self_loops comp = true) <$> tarjan_scc vertices edges.
End Tarjan.

(** ** The search invariant *)

(** The index and the lowlink of a vertex, as total functions. *)
Definition idx (st : scc_state) (x : nat) : option nat := mjoin (indices st !! x).
Definition nm (st : scc_state) (x : nat) : nat := default 0 (idx st x).
Definition low (st : scc_state) (x : nat) : nat := default 0 (lowlinks st !! x).
Definition seen (st : scc_state) (x : nat) : Prop := is_Some (idx st x).

(** The vertices on the path of frames. *)
Definition gray (st : scc_state) (x : nat) : Prop := x ∈ fv <$> work st.

Section Search.
Context (adj : list (list nat)).
Hypothesis adj_ok : ∀ x l y, adj !! x = Some l → y ∈ l → y < length adj.

Definition edge (x y : nat) : Prop := ∃ l, adj !! x = Some l ∧ y ∈ l.
Definition reach : nat → nat → Prop := rtc edge.

(** The edges that the search has followed. *)
Definition explored (st : scc_state) (x y : nat) : Prop :=
  ∃ l i, adj !! x = Some l ∧ l !! i = Some y ∧ seen st x ∧
    ∀ f, f ∈ work st → fv f = x → i < fnext f.

(** The youngest vertex of the path that is not younger than [x]. *)
Definition owner (st : scc_state) (g x : nat) : Prop :=
  gray st g ∧ nm st g ≤ nm st x ∧ ∀ g', gray st g' → nm st g' ≤ nm st x → nm st g' ≤ nm st g.

Record scc_inv (st : scc_state) : Prop := {
  si_indices : length (indices st) = length adj;
  si_lowlinks : length (lowlinks st) = length adj;
  si_flags : length (on_stack st) = length adj;
  si_on_stack x : on_stack st !! x = Some true ↔ x ∈ stk st;
  si_stack : StronglySorted (λ a b, nm st b < nm st a) (stk st);
  si_num x i : idx st x = Some i → i < ix st;
  si_inj x y : seen st x → seen st y → nm st x = nm st y → x = y;
  si_seen x : seen st x ↔ x ∈ stk st ∨ x ∈ concat (sccs st);
  si_disjoint x : x ∈ stk st → x ∉ concat (sccs st);
  si_nodup : NoDup (concat (sccs st));
  si_nonempty : [] ∉ sccs st;
  si_work : StronglySorted (λ a b, nm st b < nm st a) (fv <$> work st);
  si_gray x : gray st x → x ∈ stk st;
  si_closed x y : x ∈ concat (sccs st) → edge x y → y ∈ concat (sccs st);
  si_comp c x y : c ∈ sccs st → x ∈ c → y ∈ c ↔ reach x y ∧ reach y x;
  si_explored x y : explored st x y → seen st y;
  si_up x y : x ∈ stk st → y ∈ stk st → nm st x ≤ nm st y → reach x y;
  si_down x : x ∈ stk st → ∃ g, gray st g ∧ nm st g ≤ nm st x ∧ reach x g;
  si_low g : gray st g → ∃ z, z ∈ stk st ∧ nm st z = low st g ∧ reach g z;
  si_low_le g : gray st g → low st g ≤ nm st g;
  si_owner x y g :
    x ∈ stk st → y ∈ stk st → explored st x y → owner st g x → low st g ≤ nm st y;
}.

Lemma StronglySorted_on {A} (R R' : relation A) l :
  (∀ a b, a ∈ l → b ∈ l → R a b → R' a b) → StronglySorted R l → StronglySorted R' l.
Proof.
  intros HR Hl. induction Hl as [|a l Hl IH Ha]; [constructor|].
  constructor; [apply IH; set_solver|]. rewrite Forall_forall in *. intros b Hb.
  apply HR; [by left|by right|by apply Ha].
Qed.

Lemma idx_discover w st x :
  w < length (indices st) →
  idx (discover w st) x = if decide (x = w) then Some (ix st) else idx st x.
Proof.
  intros Hw. unfold idx, discover. simpl. case_decide as Hx.
  - subst. by rewrite list_lookup_insert_eq.
  - by rewrite list_lookup_insert_ne.
Qed.

Lemma low_discover w st x :
  w < length (lowlinks st) →
  low (discover w st) x = if decide (x = w) then ix st else low st x.
Proof.
  intros Hw. unfold low, discover. simpl. case_decide as Hx.
  - subst. by rewrite list_lookup_insert_eq.
  - by rewrite list_lookup_insert_ne.
Qed.

Lemma low_set_low v l st x :
  v < length (lowlinks st) → low (set_low v l st) x = if decide (x = v) then l else low st x.
Proof.
  intros Hw. unfold low, set_low. simpl. case_decide as Hx.
  - subst. by rewrite list_lookup_insert_eq.
  - by rewrite list_lookup_insert_ne.
Qed.

Lemma seen_range st x : scc_inv st → seen st x → x < length adj.
Proof.
  intros Hst [i Hi]. unfold idx in Hi. rewrite <- (si_indices _ Hst).
  apply lookup_lt_is_Some. by destruct (indices st !! x).
Qed.

Lemma stk_seen st x : scc_inv st → x ∈ stk st → seen st x.
Proof. intros Hst Hx. apply (si_seen _ Hst). by left. Qed.

Lemma reach_edge x y z : reach x y → edge y z → reach x z.
Proof. intros Hxy Hyz. by eapply rtc_r. Qed.

Lemma init_inv : scc_inv (scc_init (length adj)).
Proof.
  assert (∀ x, idx (scc_init (length adj)) x = None) as Hidx.
  { intros x. unfold idx. simpl. destruct (replicate _ _ !! x) as [o|] eqn:Hx; [|done].
    by apply lookup_replicate in Hx as [-> _]. }
  assert (∀ x, ¬ seen (scc_init (length adj)) x) as Hno
    by (intros x [i Hi]; by rewrite Hidx in Hi).
  split; simpl; try by rewrite length_replicate.
  - intros x. split; [|set_solver]. by intros [? _]%lookup_replicate.
  - constructor.
  - intros x i. by rewrite Hidx.
  - intros x y Hx. by destruct (Hno x).
  - intros x. split; [by intros ?%Hno|set_solver].
  - set_solver.
  - constructor.
  - set_solver.
  - constructor.
  - intros x Hx. unfold gray in Hx. simpl in Hx. set_solver.
  - set_solver.
  - set_solver.
  - intros x y (l & i & _ & _ & Hx & _). by destruct (Hno x).
  - set_solver.
  - set_solver.
  - intros g Hg. unfold gray in Hg. simpl in Hg. set_solver.
  - intros g Hg. unfold gray in Hg. simpl in Hg. set_solver.
  - set_solver.
Qed.

(** The frames may be any that have the vertices of the path. *)
Lemma discover_inv st fs w :
  scc_inv st → w < length adj → idx st w = None → fv <$> fs = fv <$> work st →
  (∀ x y, explored (set_work fs st) x y → explored st x y ∨ y = w) →
  (∀ x, x ∈ stk st → reach x w) →
  scc_inv (discover w (set_work fs st)).
Proof.
  intros Hst Hw Hnew Hfs Hexp Hreach. set (st0 := set_work fs st). set (st' := discover w st0).
  assert (w < length (indices st0)) as Hwi by (simpl; by rewrite (si_indices _ Hst)).
  assert (w < length (lowlinks st0)) as Hwl by (simpl; by rewrite (si_lowlinks _ Hst)).
  assert (w < length (on_stack st0)) as Hwo by (simpl; by rewrite (si_flags _ Hst)).
  assert (¬ seen st w) as Hnseen by (intros [? ?]; congruence).
  assert (∀ x, idx st' x = if decide (x = w) then Some (ix st) else idx st x) as Hidx
    by (intros x; etrans; [by apply idx_discover|done]).
  assert (∀ x, low st' x = if decide (x = w) then ix st else low st x) as Hlow
    by (intros x; etrans; [by apply low_discover|done]).
  assert (∀ x, nm st' x = if decide (x = w) then ix st else nm st x) as Hnm
    by (intros x; unfold nm; rewrite Hidx; by case_decide).
  assert (∀ x, seen st' x ↔ x = w ∨ seen st x) as Hseen.
  { intros x. unfold seen. rewrite Hidx. case_decide as Hx.
    - split; [by left|eauto].
    - split; [by right|]. by intros [?|?]. }
  assert (∀ x, x ∈ stk st → x ≠ w) as Hstkw
    by (intros x Hx ->; by apply Hnseen, (stk_seen st)).
  assert (∀ x, x ∈ stk st → nm st x < ix st) as Hlt.
  { intros x Hx. destruct (stk_seen st x Hst Hx) as [i Hi]. unfold nm. rewrite Hi.
    by apply (si_num _ Hst x). }
  assert (∀ x, x ∈ stk st → nm st' x = nm st x) as Hnm'
    by (intros x Hx; rewrite Hnm; by rewrite decide_False by auto).
  assert (∀ x, gray st' x ↔ x = w ∨ gray st x) as Hgray.
  { intros x. unfold gray. change (fv <$> work st') with (w :: (fv <$> fs)).
    by rewrite Hfs, elem_of_cons. }
  assert (∀ x y, explored st' x y → x ≠ w ∧ (explored st x y ∨ y = w)) as Hexp'.
  { intros x y (l & i & Hl & Hi & Hx & Hf).
    assert (x ≠ w) as Hxw.
    { intros ->. specialize (Hf (Frame w 0) (list_elem_of_here _ _) eq_refl). simpl in Hf. lia. }
    split; [done|]. apply Hexp. exists l, i. split_and!; [done..| |].
    - apply Hseen in Hx as [?|?]; done.
    - intros f Hin. apply Hf. by right. }
  split.
  - simpl. rewrite length_insert. apply Hst.
  - simpl. rewrite length_insert. apply Hst.
  - simpl. rewrite length_insert. apply Hst.
  - intros x. simpl. rewrite elem_of_cons, <- (si_on_stack _ Hst). destruct (decide (x = w)) as [->|Hx].
    + rewrite list_lookup_insert_eq by done. split; [by left|done].
    + rewrite list_lookup_insert_ne by done. split; [by right|]. by intros [?|?].
  - simpl. constructor.
    + eapply StronglySorted_on; [|apply (si_stack _ Hst)].
      intros a b Ha Hb. by rewrite !Hnm' by done.
    + apply Forall_forall. intros x Hx. rewrite Hnm' by done. rewrite Hnm, decide_True by done.
      by apply Hlt.
  - intros x i. simpl. rewrite Hidx. case_decide; [intros [= <-]; lia|].
    intros Hi%(si_num _ Hst). lia.
  - intros x y. rewrite !Hseen, !Hnm. intros Hx Hy.
    assert (∀ z, seen st z → nm st z < ix st) as Hb.
    { intros z [i Hi]. unfold nm. rewrite Hi. by apply (si_num _ Hst z). }
    repeat case_decide; subst; intros He; try done.
    + destruct Hy as [|Hy]; [done|]. apply Hb in Hy. lia.
    + destruct Hx as [|Hx]; [done|]. apply Hb in Hx. lia.
    + apply (si_inj _ Hst); tauto.
  - intros x. rewrite Hseen, (si_seen _ Hst). simpl. rewrite elem_of_cons. tauto.
  - intros x. simpl. intros [->|Hx]%elem_of_cons; [|by apply (si_disjoint _ Hst)].
    intros Hc. apply Hnseen, (si_seen _ Hst). by right.
  - apply Hst.
  - apply Hst.
  - change (fv <$> work st') with (w :: (fv <$> fs)). rewrite Hfs. constructor.
    + eapply StronglySorted_on; [|apply (si_work _ Hst)].
      intros a b Ha%(si_gray _ Hst) Hb%(si_gray _ Hst). by rewrite !Hnm' by done.
    + apply Forall_forall. intros x Hx%(si_gray _ Hst). rewrite Hnm' by done.
      rewrite Hnm, decide_True by done. by apply Hlt.
  - intros x. rewrite Hgray. simpl. rewrite elem_of_cons. intros [?|?%(si_gray _ Hst)]; auto.
  - apply Hst.
  - apply Hst.
  - intros x y [_ [Hx| ->]]%Hexp'; rewrite Hseen; [right; by eapply (si_explored _ Hst)|by left].
  - intros x y. simpl. rewrite !elem_of_cons. intros Hx [->|Hy].
    + intros _. destruct Hx as [->|Hx]; [reflexivity|by apply Hreach].
    + rewrite (Hnm' y) by done. destruct Hx as [->|Hx].
      * rewrite Hnm, decide_True by done. apply Hlt in Hy. lia.
      * rewrite Hnm' by done. by apply (si_up _ Hst).
  - intros x. simpl. rewrite elem_of_cons. intros [->|Hx].
    + exists w. rewrite Hgray. split_and!; [by left|done|reflexivity].
    + destruct (si_down _ Hst x Hx) as (g & Hg & Hle & Hr). exists g.
      rewrite Hgray, !Hnm' by (done || by apply (si_gray _ Hst)). auto.
  - intros g [->|Hg]%Hgray.
    + exists w. simpl. rewrite elem_of_cons, Hnm, Hlow, !decide_True by done.
      split_and!; [by left|done|reflexivity].
    + destruct (si_low _ Hst g Hg) as (z & Hz & Hnz & Hr). exists z.
      simpl. rewrite elem_of_cons, Hnm', Hlow by done.
      rewrite decide_False by (by apply Hstkw, (si_gray _ Hst)). auto.
  - intros g [->|Hg]%Hgray.
    + by rewrite Hnm, Hlow, !decide_True by done.
    + rewrite Hnm', Hlow by (by apply (si_gray _ Hst)).
      rewrite decide_False by (by apply Hstkw, (si_gray _ Hst)). by apply (si_low_le _ Hst).
  - intros x y g Hx Hy [Hxw Hxy]%Hexp' (Hg & Hle & Hmax). simpl in Hx, Hy.
    rewrite elem_of_cons in Hx, Hy. destruct Hx as [|Hx]; [congruence|]. rewrite (Hnm' x) in Hle by done.
    assert (g ≠ w) as Hgw.
    { intros ->. rewrite Hnm, decide_True in Hle by done. apply Hlt in Hx. lia. }
    apply Hgray in Hg as [|Hg]; [done|]. pose proof (si_gray _ Hst g Hg) as Hgs.
    rewrite Hlow, decide_False by done. rewrite Hnm' in Hle by done.
    destruct (decide (y = w)) as [->|Hyw].
    + rewrite Hnm, decide_True by done. apply Hlt in Hgs. pose proof (si_low_le _ Hst g Hg). lia.
    + destruct Hy as [|Hy]; [done|]. destruct Hxy as [Hxy|]; [|done].
      rewrite Hnm' by done. apply (si_owner _ Hst x y g); [done..|].
      split_and!; [done..|]. intros g' Hg' Hle'. pose proof (si_gray _ Hst g' Hg') as Hgs'.
      specialize (Hmax g'). rewrite Hgray, !Hnm' in Hmax by done. auto.
Qed.

(** Fields of the invariant that a transition does not touch. *)
Ltac keep Hst :=
  first [exact (si_indices _ Hst) | exact (si_lowlinks _ Hst) | exact (si_flags _ Hst)
        | exact (si_on_stack _ Hst) | exact (si_stack _ Hst) | exact (si_num _ Hst)
        | exact (si_inj _ Hst) | exact (si_seen _ Hst) | exact (si_disjoint _ Hst)
        | exact (si_nodup _ Hst) | exact (si_nonempty _ Hst) | exact (si_closed _ Hst)
        | exact (si_comp _ Hst) | exact (si_up _ Hst)].

(** What the order of the path says. *)
Lemma top_gray st f rest g :
  scc_inv st → work st = f :: rest → gray st g ↔ g = fv f ∨ g ∈ fv <$> rest.
Proof. intros _ Hw. unfold gray. by rewrite Hw, fmap_cons, elem_of_cons. Qed.

Lemma rest_below st f rest g :
  scc_inv st → work st = f :: rest → g ∈ fv <$> rest → nm st g < nm st (fv f).
Proof.
  intros Hst Hw Hg. pose proof (si_work _ Hst) as Hs. rewrite Hw, fmap_cons in Hs.
  inversion Hs as [|? ? _ Hall]. subst. by eapply Forall_forall in Hall.
Qed.

Lemma top_max st f rest g :
  scc_inv st → work st = f :: rest → gray st g → nm st g ≤ nm st (fv f).
Proof.
  intros Hst Hw [->|Hg]%(top_gray _ _ _ _ Hst Hw); [done|].
  by apply (rest_below _ _ _ _ Hst Hw) in Hg; lia.
Qed.

Lemma top_is_gray st f rest : work st = f :: rest → gray st (fv f).
Proof. intros Hw. unfold gray. rewrite Hw, fmap_cons. left. Qed.

(** The next edge leads to a vertex already seen. *)
Lemma advance_inv st f rest l w lv :
  scc_inv st → work st = f :: rest → adj !! fv f = Some l → l !! fnext f = Some w → seen st w →
  lv ≤ low st (fv f) → (w ∈ stk st → lv ≤ nm st w) →
  (lv = low st (fv f) ∨ w ∈ stk st ∧ lv = nm st w) →
  scc_inv (set_low (fv f) lv (set_work (Frame (fv f) (S (fnext f)) :: rest) st)).
Proof.
  intros Hst Hw Hl Hnext Hseen Hle Hlew Hcase. set (v := fv f) in *.
  set (st0 := set_work (Frame v (S (fnext f)) :: rest) st). set (st' := set_low v lv st0).
  pose proof (top_is_gray _ _ _ Hw) as Hgv. fold v in Hgv.
  assert (v < length adj) as Hv by (by apply lookup_lt_is_Some; eexists).
  assert (∀ x, low st' x = if decide (x = v) then lv else low st x) as Hlow.
  { intros x. etrans; [apply low_set_low; simpl; by rewrite (si_lowlinks _ Hst)|done]. }
  assert (∀ x, low st' x ≤ low st x) as Hlow_le by (intros x; rewrite Hlow; by case_decide; subst).
  assert (fv <$> work st' = fv <$> work st) as Hfs by (by rewrite Hw).
  assert (∀ x, gray st' x ↔ gray st x) as Hgray by (intros x; unfold gray; by rewrite Hfs).
  assert (edge v w) as Hedge by (exists l; split; [done|by eapply list_elem_of_lookup_2]).
  assert (∀ x y, explored st' x y → explored st x y ∨ (x = v ∧ y = w)) as Hexp.
  { intros x y (l' & i & Hl' & Hi & Hx & Hf).
    destruct (decide (x = v ∧ i = fnext f)) as [[-> ->]|Hne]; [right; split; congruence|].
    left. exists l', i. split_and!; [done..|]. intros f' Hf'. rewrite Hw in Hf'.
    apply elem_of_cons in Hf' as [->|Hf'].
    - intros <-. specialize (Hf (Frame v (S (fnext f))) (list_elem_of_here _ _) eq_refl).
      simpl in Hf. destruct (decide (i = fnext f)); [by destruct Hne|lia].
    - apply Hf. by right. }
  split; try keep Hst.
  - simpl. rewrite length_insert. exact (si_lowlinks _ Hst).
  - rewrite Hfs. exact (si_work _ Hst).
  - intros x. rewrite Hgray. exact (si_gray _ Hst x).
  - intros x y [Hxy|[-> ->]]%Hexp; [by eapply (si_explored _ Hst)|done].
  - intros x Hx. destruct (si_down _ Hst x Hx) as (g & ? & ? & ?). exists g. by rewrite Hgray.
  - intros g Hg%Hgray. rewrite Hlow. case_decide as Hgv'; [|by apply (si_low _ Hst)].
    subst g. destruct Hcase as [->|[Hws ->]]; [by apply (si_low _ Hst)|].
    exists w. split_and!; [done..|]. by apply rtc_once.
  - intros g Hg%Hgray. etrans; [apply Hlow_le|]. by apply (si_low_le _ Hst).
  - intros x y g Hx Hy Hxy (Hg & Hge & Hmax). setoid_rewrite Hgray in Hmax.
    apply Hgray in Hg. destruct (Hexp _ _ Hxy) as [Hxy'|[-> ->]].
    + etrans; [apply Hlow_le|]. apply (si_owner _ Hst x y g); by try split.
    + assert (g = v) as ->.
      { apply (si_inj _ Hst); [by apply stk_seen, (si_gray _ Hst)..|].
        specialize (Hmax v Hgv (Nat.le_refl _)). change (nm st v ≤ nm st g) in Hmax.
        change (nm st g ≤ nm st v) in Hge. lia. }
      rewrite Hlow, decide_True by done. by apply Hlew.
Qed.

(** All edges of the top vertex are followed: the search goes back. *)
Lemma leave_explored st f rest l fs' x y :
  scc_inv st → work st = f :: rest → adj !! fv f = Some l → l !! fnext f = None → fs' = rest →
  explored (set_work fs' st) x y → explored st x y.
Proof.
  intros Hst Hw Hl Hend -> (l' & i & Hl' & Hi & Hx & Hf). exists l', i. split_and!; [done..|].
  intros f' Hf' <-. rewrite Hw in Hf'. apply elem_of_cons in Hf' as [->|Hf']; [|by apply Hf].
  simplify_eq. apply lookup_ge_None in Hend. apply lookup_lt_Some in Hi. lia.
Qed.

Lemma retreat_inv st f pf rest l lp :
  scc_inv st → work st = f :: pf :: rest → adj !! fv f = Some l → l !! fnext f = None →
  low st (fv f) ≠ nm st (fv f) →
  lp ≤ low st (fv f) → lp ≤ low st (fv pf) → (lp = low st (fv f) ∨ lp = low st (fv pf)) →
  scc_inv (set_low (fv pf) lp (set_work (pf :: rest) st)).
Proof.
  intros Hst Hw Hl Hend Hroot Hlv Hlp Hcase. set (v := fv f) in *. set (p := fv pf) in *.
  set (st' := set_low p lp (set_work (pf :: rest) st)).
  pose proof (top_is_gray _ _ _ Hw) as Hgv. fold v in Hgv.
  assert (p ∈ fv <$> pf :: rest) as Hpin by (rewrite fmap_cons; left).
  assert (gray st p) as Hgp by (apply (top_gray _ _ _ _ Hst Hw); by right).
  pose proof (rest_below _ _ _ p Hst Hw Hpin) as Hpv. fold v in Hpv.
  pose proof (si_gray _ Hst v Hgv) as Hvs. pose proof (si_gray _ Hst p Hgp) as Hps.
  pose proof (seen_range _ _ Hst (stk_seen _ _ Hst Hps)) as Hplt.
  pose proof (si_low_le _ Hst v Hgv) as Hlvle.
  assert (∀ x, low st' x = if decide (x = p) then lp else low st x) as Hlow.
  { intros x. etrans; [apply low_set_low; simpl; by rewrite (si_lowlinks _ Hst)|done]. }
  assert (∀ x, low st' x ≤ low st x) as Hlow_le by (intros x; rewrite Hlow; by case_decide; subst).
  assert (∀ g, gray st g ↔ g = v ∨ gray st' g) as Hgray
    by (intros g; by rewrite (top_gray _ _ _ _ Hst Hw)).
  assert (∀ g, gray st' g → nm st g < nm st v) as Hbelow
    by (intros g Hg; by apply (rest_below _ _ _ _ Hst Hw)).
  assert (∀ x y, explored st' x y → explored st x y) as Hexp.
  { intros x y Hxy. by eapply (leave_explored st f (pf :: rest) l). }
  destruct (si_low _ Hst v Hgv) as (z & Hz & Hnz & Hvz).
  assert (∀ x, x ∈ stk st → ∃ g, gray st' g ∧ nm st g ≤ nm st x ∧ reach x g) as Hdown.
  { intros x Hx. destruct (si_down _ Hst x Hx) as (g & [->|Hg]%Hgray & Hle & Hr); [|by eauto].
    destruct (si_down _ Hst z Hz) as (g & [->|Hg]%Hgray & Hle' & Hr'); [lia|].
    exists g. split_and!; [done|lia|]. etrans; [exact Hr|]. by etrans. }
  split; try keep Hst.
  - simpl. rewrite length_insert. exact (si_lowlinks _ Hst).
  - pose proof (si_work _ Hst) as Hs. rewrite Hw, fmap_cons in Hs. by inversion Hs.
  - intros g Hg. apply (si_gray _ Hst), Hgray. by right.
  - intros x y Hxy%Hexp. by eapply (si_explored _ Hst).
  - exact Hdown.
  - intros g Hg. rewrite Hlow. case_decide as Hgp'; [|by apply (si_low _ Hst), Hgray; right].
    subst g. destruct Hcase as [->| ->]; [|by apply (si_low _ Hst)].
    exists z. split_and!; [done..|]. etrans; [|exact Hvz]. apply (si_up _ Hst); [done..|]. lia.
  - intros g Hg. etrans; [apply Hlow_le|]. apply (si_low_le _ Hst), Hgray. by right.
  - intros x y g Hx Hy Hxy%Hexp (Hg & Hge & Hmax).
    change (nm st g ≤ nm st x) in Hge.
    assert (∀ g', gray st' g' → nm st g' ≤ nm st x → nm st g' ≤ nm st g) as Hmax' by exact Hmax.
    destruct (decide (nm st v ≤ nm st x)) as [Hvx|Hvx].
    + assert (g = p) as ->.
      { apply (si_inj _ Hst); [by apply stk_seen, (si_gray _ Hst), Hgray; [|right]|
          by apply stk_seen|].
        assert (nm st p ≤ nm st g) by (apply Hmax'; [done|lia]).
        enough (nm st g ≤ nm st p) by lia. unfold gray in Hg. simpl in Hg.
        apply elem_of_cons in Hg as [->|Hg]; [done|].
        pose proof (si_work _ Hst) as Hs. rewrite Hw, !fmap_cons in Hs.
        inversion Hs as [|? ? Hs' _]. inversion Hs' as [|? ? _ Hall]. subst.
        eapply Forall_forall in Hall; [|exact Hg]. fold p in Hall. lia. }
      rewrite Hlow, decide_True by done. etrans; [exact Hlv|].
      apply (si_owner _ Hst x y v); [done..|]. split_and!; [done..|]. intros g' Hg' _.
      by apply (top_max _ _ _ _ Hst Hw).
    + etrans; [apply Hlow_le|]. apply (si_owner _ Hst x y g); [done..|].
      split_and!; [apply Hgray; by right|done|]. intros g' [->|Hg']%Hgray Hle; [lia|].
      by apply Hmax'.
Qed.

(** Popping down to [v]. *)
Lemma pop_until_spec v os pre s component :
  v ∉ pre → length os = length adj →
  ∃ os', pop_until v os (pre ++ v :: s) component = (os', s, component ++ pre ++ [v]) ∧
    length os' = length adj ∧
    ∀ x, os' !! x = Some true ↔ os !! x = Some true ∧ (x ∉ (pre ++ [v])).
Proof.
  revert os component. induction pre as [|a pre IH]; intros os component Hv Hlen; simpl.
  - rewrite decide_True by done. eexists. split; [done|]. rewrite length_insert. split; [done|].
    intros x. rewrite list_elem_of_singleton. destruct (decide (x = v)) as [->|Hx].
    + destruct (decide (v < length os)) as [Hlt|Hge].
      * rewrite list_lookup_insert_eq by done. naive_solver.
      * rewrite (proj2 (lookup_ge_None _ _)) by (rewrite length_insert; lia). naive_solver.
    + rewrite list_lookup_insert_ne by done. naive_solver.
  - rewrite decide_False by set_solver.
    destruct (IH (<[a:=false]> os) (component ++ [a])) as (os' & -> & Hlen' & Hos');
      [set_solver|by rewrite length_insert|].
    exists os'. split; [by rewrite <- app_assoc|]. split; [done|]. intros x.
    rewrite Hos', elem_of_cons. destruct (decide (x = a)) as [->|Hx].
    + split; [|naive_solver]. intros [Ha _]. exfalso.
      destruct (decide (a < length os)) as [Hlt|Hge].
      * by rewrite list_lookup_insert_eq in Ha.
      * by rewrite (proj2 (lookup_ge_None _ _)) in Ha by (rewrite length_insert; lia).
    + rewrite list_lookup_insert_ne by done. naive_solver.
Qed.

(** The stack above and below a vertex. *)
Lemma stack_split st v :
  scc_inv st → v ∈ stk st →
  ∃ pre s, stk st = pre ++ v :: s ∧ (v ∉ pre) ∧
    (∀ x, x ∈ pre ++ [v] ↔ x ∈ stk st ∧ nm st v ≤ nm st x) ∧
    (∀ x, x ∈ s ↔ x ∈ stk st ∧ nm st x < nm st v) ∧ NoDup (pre ++ [v]) ∧
    StronglySorted (λ a b, nm st b < nm st a) s.
Proof.
  intros Hst (pre & s & Heq)%list_elem_of_split. exists pre, s. split; [done|].
  pose proof (si_stack _ Hst) as Hs. rewrite Heq in Hs.
  apply StronglySorted_app in Hs as (Hrel & Hpre & Hvs).
  inversion Hvs as [|? ? Hs Hall]. subst. rewrite Forall_forall in Hall.
  assert (v ∉ pre) as Hv by (intros Hv; specialize (Hrel v v Hv); enough (nm st v < nm st v) by lia;
    apply Hrel; left).
  assert (∀ x, x ∈ pre → nm st v < nm st x) as Hup by (intros x Hx; apply Hrel; [done|left]).
  split_and!; [done| | | |done].
  - intros x. rewrite Heq, !elem_of_app, list_elem_of_singleton, elem_of_cons. split.
    + intros [Hx| ->]; [specialize (Hup x Hx); split; [by left|lia]|auto].
    + intros [[Hx|[->|Hx]] Hle]; [by left|by right|]. specialize (Hall x Hx). lia.
  - intros x. rewrite Heq, elem_of_app, elem_of_cons. split.
    + intros Hx. specialize (Hall x Hx). auto.
    + intros [[Hx|[->|Hx]] Hlt]; [specialize (Hup x Hx); lia|lia|done].
  - apply NoDup_app. split_and!; [|by intros x Hx ->%list_elem_of_singleton|apply NoDup_singleton].
    clear -Hpre. induction Hpre as [|a pre Hs IH Ha]; constructor; [|done].
    rewrite Forall_forall in Ha. intros Hin%Ha. lia.
Qed.

(** The stack from a root up is closed under edges, up to what was emitted. *)
Lemma root_closed st f rest l x y :
  scc_inv st → work st = f :: rest → adj !! fv f = Some l → l !! fnext f = None →
  low st (fv f) = nm st (fv f) →
  x ∈ stk st → nm st (fv f) ≤ nm st x → edge x y →
  (y ∈ stk st ∧ nm st (fv f) ≤ nm st y) ∨ y ∈ concat (sccs st).
Proof.
  intros Hst Hw Hl Hend Hroot Hx Hle (lx & Hlx & Hy).
  apply list_elem_of_lookup in Hy as [i Hi].
  assert (explored st x y) as Hxy.
  { exists lx, i. split_and!; [done..|by apply stk_seen|]. intros f' Hf' <-. rewrite Hw in Hf'.
    apply elem_of_cons in Hf' as [->|Hf'].
    - simplify_eq. apply lookup_ge_None in Hend. apply lookup_lt_Some in Hi. lia.
    - assert (fv f' ∈ fv <$> rest) as Hg by (by apply list_elem_of_fmap_2).
      apply (rest_below _ _ _ _ Hst Hw) in Hg. lia. }
  pose proof (si_explored _ Hst x y Hxy) as Hseen.
  apply (si_seen _ Hst) in Hseen as [Hys|Hyc]; [|by right]. left. split; [done|].
  rewrite <- Hroot. apply (si_owner _ Hst x y); [done..|]. split_and!; [|done|].
  - by eapply top_is_gray.
  - intros g' Hg' _. by apply (top_max _ _ _ _ Hst Hw).
Qed.

Lemma root_reach st f rest l x y :
  scc_inv st → work st = f :: rest → adj !! fv f = Some l → l !! fnext f = None →
  low st (fv f) = nm st (fv f) →
  x ∈ stk st → nm st (fv f) ≤ nm st x → reach x y →
  (y ∈ stk st ∧ nm st (fv f) ≤ nm st y) ∨ y ∈ concat (sccs st).
Proof.
  intros Hst Hw Hl Hend Hroot Hx Hle. revert y. unfold reach. apply rtc_ind_r; [by left|].
  intros y z _ Hyz [[Hy Hley]|Hy].
  - by eapply root_closed.
  - right. by eapply (si_closed _ Hst).
Qed.

(** The vertices from a root up are a strongly connected component. *)
Lemma root_component st f rest l x y :
  scc_inv st → work st = f :: rest → adj !! fv f = Some l → l !! fnext f = None →
  low st (fv f) = nm st (fv f) → x ∈ stk st → nm st (fv f) ≤ nm st x →
  (y ∈ stk st ∧ nm st (fv f) ≤ nm st y) ↔ reach x y ∧ reach y x.
Proof.
  intros Hst Hw Hl Hend Hroot Hx Hle. set (v := fv f) in *.
  assert (v ∈ stk st) as Hv by (by eapply (si_gray _ Hst), top_is_gray).
  assert (∀ a b, a ∈ stk st → b ∈ stk st → nm st v ≤ nm st b → reach a b) as Hall.
  { intros a b Ha Hb Hvb. destruct (si_down _ Hst a Ha) as (g & Hg & _ & Hag).
    etrans; [exact Hag|]. apply (si_up _ Hst); [by apply (si_gray _ Hst)|done|].
    apply (top_max _ _ _ _ Hst Hw) in Hg. fold v in Hg. lia. }
  split.
  - intros [Hy Hley]. by split; apply Hall.
  - intros [Hxy Hyx]. destruct (root_reach st f rest l x y) as [?|Hyc]; try done.
    exfalso. apply (si_disjoint _ Hst x Hx). clear -Hst Hyx Hyc.
    induction Hyx as [|a b c Hab _ IH]; [done|]. apply IH. by eapply (si_closed _ Hst).
Qed.

Lemma emit_inv st f rest l :
  scc_inv st → work st = f :: rest → adj !! fv f = Some l → l !! fnext f = None →
  low st (fv f) = nm st (fv f) →
  scc_inv (set_work rest (emit (fv f) st)).
Proof.
  intros Hst Hw Hl Hend Hroot. set (v := fv f) in *.
  pose proof (top_is_gray _ _ _ Hw) as Hgv. fold v in Hgv.
  pose proof (si_gray _ Hst v Hgv) as Hvs.
  destruct (stack_split st v Hst Hvs) as (pre & s & Hstk & Hvpre & Hin & Hs & Hnd & Hsort).
  destruct (pop_until_spec v (on_stack st) pre s [] Hvpre (si_flags _ Hst))
    as (os' & Hpop & Hlen & Hos).
  set (C := pre ++ [v]) in *.
  set (st' := SccState (ix st) (indices st) (lowlinks st) os' s (sccs st ++ [C]) rest).
  assert (set_work rest (emit v st) = st') as -> by (unfold emit; by rewrite Hstk, Hpop).
  assert (∀ x, x ∈ concat (sccs st') ↔ x ∈ concat (sccs st) ∨ x ∈ C) as Hcc
    by (intros x; simpl; by rewrite concat_app, elem_of_app; simpl; rewrite app_nil_r).
  assert (∀ g, gray st g ↔ g = v ∨ gray st' g) as Hgray
    by (intros g; by rewrite (top_gray _ _ _ _ Hst Hw)).
  assert (∀ g, gray st' g → nm st g < nm st v) as Hbelow
    by (intros g Hg; by apply (rest_below _ _ _ _ Hst Hw)).
  assert (∀ x y, explored st' x y → explored st x y) as Hexp.
  { intros x y (lx & i & Hlx & Hi & Hx & Hf). eapply (leave_explored st f rest l rest x y); try done.
    by exists lx, i. }
  assert (∀ x y, x ∈ C → (y ∈ C ↔ reach x y ∧ reach y x)) as Hcomp.
  { intros x y [Hx Hle]%Hin. rewrite Hin. by eapply root_component. }
  split; try keep Hst.
  - done.
  - intros x. simpl. rewrite Hos, (si_on_stack _ Hst), Hin, Hs. split; [|intros [? ?]; split; [done|]; lia].
    intros [Hx Hno]. split; [done|]. destruct (decide (nm st x < nm st v)); [done|].
    destruct Hno. split; [done|lia].
  - exact Hsort.
  - intros x. change (seen st x ↔ x ∈ s ∨ x ∈ concat (sccs st')).
    rewrite Hcc, Hin, Hs, (si_seen _ Hst). destruct (decide (nm st x < nm st v)); [tauto|].
    assert (nm st v ≤ nm st x) by lia. tauto.
  - intros x. change (x ∈ s → x ∉ concat (sccs st')). rewrite Hcc, Hin, Hs.
    intros [Hx Hlt] [Hc|[_ Hle]]; [by apply (si_disjoint _ Hst x)|lia].
  - simpl. rewrite concat_app. simpl. rewrite app_nil_r. apply NoDup_app.
    split_and!; [exact (si_nodup _ Hst)| |done]. intros x Hc [Hx _]%Hin.
    by apply (si_disjoint _ Hst x).
  - simpl. rewrite elem_of_app, list_elem_of_singleton. intros [Hn|Hn].
    + by apply (si_nonempty _ Hst).
    + unfold C in Hn. by destruct pre.
  - pose proof (si_work _ Hst) as Hsw. rewrite Hw, fmap_cons in Hsw. by inversion Hsw.
  - intros g Hg. change (g ∈ s). apply Hs. split; [apply (si_gray _ Hst), Hgray; by right|].
    by apply Hbelow.
  - intros x y. rewrite !Hcc. intros [Hx|[Hx Hle]%Hin] Hxy.
    + left. by eapply (si_closed _ Hst).
    + destruct (root_closed st f rest l x y) as [?|?]; try done; [right; by apply Hin|by left].
  - intros c x y. simpl. rewrite elem_of_app, list_elem_of_singleton.
    intros [Hc| ->]; [by apply (si_comp _ Hst)|by apply Hcomp].
  - intros x y Hxy%Hexp. by eapply (si_explored _ Hst).
  - intros x y [Hx _]%Hs [Hy _]%Hs. by apply (si_up _ Hst).
  - intros x [Hx Hlt]%Hs. destruct (si_down _ Hst x Hx) as (g & [->|Hg]%Hgray & Hle & Hr); [lia|].
    by exists g.
  - intros g Hg. destruct (si_low _ Hst g) as (z & Hz & Hnz & Hr); [apply Hgray; by right|].
    exists z. split_and!; [|done..]. apply Hs. split; [done|].
    pose proof (si_low_le _ Hst g (proj2 (Hgray g) (or_intror Hg))). apply Hbelow in Hg. lia.
  - intros g Hg. apply (si_low_le _ Hst), Hgray. by right.
  - intros x y g [Hx Hlt]%Hs [Hy _]%Hs Hxy%Hexp (Hg & Hge & Hmax).
    apply (si_owner _ Hst x y g); [done..|]. split_and!; [apply Hgray; by right|done|].
    intros g' [->|Hg']%Hgray Hle; [lia|by apply Hmax].
Qed.

(** ** One iteration *)

Lemma set_low_id v l st : lowlinks st !! v = Some l → set_low v l st = st.
Proof. intros Hl. unfold set_low. rewrite list_insert_id by done. by destruct st. Qed.

Lemma low_lookup st x : scc_inv st → x < length adj → lowlinks st !! x = Some (low st x).
Proof.
  intros Hst Hx. rewrite <- (si_lowlinks _ Hst) in Hx. unfold low.
  destruct (lookup_lt_is_Some_2 _ _ Hx) as [l Hl]. by rewrite Hl.
Qed.

Lemma index_lookup st x : scc_inv st → x < length adj → indices st !! x = Some (idx st x).
Proof.
  intros Hst Hx. rewrite <- (si_indices _ Hst) in Hx. unfold idx.
  destruct (lookup_lt_is_Some_2 _ _ Hx) as [l Hl]. by rewrite Hl.
Qed.

(** Every iteration lowers this potential: the vertices not yet seen, and the
    edges left on the path. *)
Definition unseen (st : scc_state) : nat := length (filter (λ o, o = None) (indices st)).
Definition frame_cost (f : frame) : nat := S (length (default [] (adj !! fv f)) - fnext f).
#[local] Arguments frame_cost : simpl never.
Definition edge_bound : nat := S (length (concat adj)).
#[local] Arguments edge_bound : simpl never.
Definition potential (st : scc_state) : nat :=
  unseen st * edge_bound + sum_list_with frame_cost (work st).

Lemma degree_bound x l : adj !! x = Some l → length l ≤ length (concat adj).
Proof.
  intros Hl. apply list_elem_of_split_length in Hl as (l1 & l2 & -> & _).
  rewrite concat_app, length_app. simpl. rewrite length_app. lia.
Qed.

Lemma frame_cost_bound w : frame_cost (Frame w 0) ≤ edge_bound.
Proof.
  unfold frame_cost, edge_bound. simpl. destruct (adj !! w) as [l|] eqn:Hl; simpl; [|lia].
  apply degree_bound in Hl. lia.
Qed.

Lemma unseen_discover st w :
  indices st !! w = Some None → unseen st = S (unseen (discover w st)).
Proof.
  intros Hw. unfold unseen, discover. simpl.
  rewrite insert_take_drop by (by apply lookup_lt_Some in Hw).
  rewrite <- (take_drop_middle (indices st) w None) at 1 by done.
  rewrite !filter_app, !length_app, !filter_cons.
  destruct (decide (@None nat = None)) as [_|]; [|done].
  destruct (decide (Some (ix st) = None)) as [|_]; [done|]. simpl. lia.
Qed.

Lemma advance_explored st f rest l w x y :
  scc_inv st → work st = f :: rest → adj !! fv f = Some l → l !! fnext f = Some w →
  explored (set_work (Frame (fv f) (S (fnext f)) :: rest) st) x y → explored st x y ∨ y = w.
Proof.
  intros Hst Hw Hl Hnext (l' & i & Hl' & Hi & Hx & Hf).
  destruct (decide (x = fv f ∧ i = fnext f)) as [[-> ->]|Hne]; [right; congruence|].
  left. exists l', i. split_and!; [done..|]. intros f' Hf'. rewrite Hw in Hf'.
  apply elem_of_cons in Hf' as [->|Hf'].
  - intros <-. specialize (Hf _ (list_elem_of_here _ _) eq_refl). simpl in Hf.
    destruct (decide (i = fnext f)); [by destruct Hne|lia].
  - apply Hf. by right.
Qed.

(** Progress of the search. *)
Definition progress (st st' : scc_state) : Prop :=
  scc_inv st' ∧ potential st' < potential st ∧ ∀ x, seen st x → seen st' x.

Lemma potential_cons st f rest :
  work st = f :: rest →
  potential st = unseen st * edge_bound + (frame_cost f + sum_list_with frame_cost rest).
Proof. intros Hw. unfold potential. by rewrite Hw. Qed.

(** The path after the top vertex has followed one more edge. *)
Definition next_frames (f : frame) (rest : list frame) : list frame :=
  Frame (fv f) (S (fnext f)) :: rest.

Section Step.
Context (st : scc_state) (f : frame) (rest : list frame) (l : list nat).
Hypothesis Hst : scc_inv st.
Hypothesis Hw : work st = f :: rest.
Hypothesis Hl : adj !! fv f = Some l.
#[local] Set Default Proof Using "All".

Lemma top_stk : fv f ∈ stk st.
Proof. by eapply (si_gray _ Hst), top_is_gray. Qed.

Lemma top_range : fv f < length adj.
Proof. apply (seen_range st _ Hst), (stk_seen _ _ Hst), top_stk. Qed.

Lemma next_cost w :
  l !! fnext f = Some w → frame_cost f = S (frame_cost (Frame (fv f) (S (fnext f)))).
Proof.
  intros Hnext. unfold frame_cost. simpl. rewrite Hl. simpl. apply lookup_lt_Some in Hnext. lia.
Qed.

(** The next edge leads to a vertex seen before. *)
Lemma follow_seen w wi :
  l !! fnext f = Some w → idx st w = Some wi →
  ∃ st', frame_step adj f rest st = Some st' ∧ progress st st'.
Proof.
  intros Hnext Hwi. pose proof top_range as Hv.
  assert (w < length adj) as Hwlt by (eapply adj_ok; [exact Hl|by eapply list_elem_of_lookup_2]).
  unfold frame_step. rewrite Hl. simpl. rewrite Hnext, index_lookup by done. rewrite Hwi. simpl.
  destruct (lookup_lt_is_Some_2 (on_stack st) w) as [ow How]; [by rewrite (si_flags _ Hst)|].
  rewrite How, low_lookup by done. simpl. eexists. split; [done|].
  assert (nm st w = wi) as Hnm by (unfold nm; by rewrite Hwi).
  set (lv := if ow && bool_decide (wi < low st (fv f)) then wi else low st (fv f)).
  fold (next_frames f rest). set (st0 := set_work (next_frames f rest) st).
  assert ((if ow && bool_decide (wi < low st (fv f)) then set_low (fv f) wi st0 else st0)
    = set_low (fv f) lv st0) as ->.
  { unfold lv. destruct (ow && _); [done|]. symmetry. by apply set_low_id, (low_lookup st). }
  split_and!; [|rewrite (potential_cons _ _ _ Hw), (potential_cons _ (Frame (fv f) (S (fnext f))) rest)
    by done; change (unseen (set_low _ _ st0)) with (unseen st);
    rewrite (next_cost w) by done; lia|done].
  apply (advance_inv st f rest l w); [done..| | | |].
  - by eexists.
  - unfold lv. destruct ow; simpl; [|done]. case_bool_decide; simpl; lia.
  - intros Hin%(si_on_stack _ Hst). assert (ow = true) as -> by congruence.
    unfold lv. simpl. case_bool_decide; simpl; lia.
  - unfold lv. destruct ow; simpl; [|by left]. case_bool_decide; [right|by left].
    split; [by apply (si_on_stack _ Hst)|done].
Qed.

(** The next edge leads to a new vertex. *)
Lemma follow_new w :
  l !! fnext f = Some w → idx st w = None →
  ∃ st', frame_step adj f rest st = Some st' ∧ progress st st'.
Proof.
  intros Hnext Hwi.
  assert (w < length adj) as Hwlt by (eapply adj_ok; [exact Hl|by eapply list_elem_of_lookup_2]).
  unfold frame_step. rewrite Hl. simpl. rewrite Hnext, index_lookup by done. rewrite Hwi. simpl.
  fold (next_frames f rest). eexists. split; [done|]. split_and!.
  - apply discover_inv; [done..|by rewrite Hw|by intros x y; apply advance_explored with l|].
    intros x Hx. destruct (si_down _ Hst x Hx) as (g & Hg & _ & Hr).
    apply reach_edge with (fv f).
    + etrans; [exact Hr|]. apply (si_up _ Hst); [by apply (si_gray _ Hst)|apply top_stk|].
      by apply (top_max _ _ _ _ Hst Hw).
    + exists l. split; [done|by eapply list_elem_of_lookup_2].
  - pose proof (unseen_discover (set_work (next_frames f rest) st) w) as Hun. simpl in Hun.
    rewrite index_lookup, Hwi in Hun by done. specialize (Hun eq_refl).
    change (unseen (set_work _ st)) with (unseen st) in Hun.
    pose proof (frame_cost_bound w).
    rewrite (potential_cons _ _ _ Hw), (potential_cons _ (Frame w 0) (next_frames f rest)) by done.
    rewrite Hun, Nat.mul_succ_l, (next_cost w) by done.
    change (sum_list_with frame_cost (next_frames f rest)) with
      (frame_cost (Frame (fv f) (S (fnext f))) + sum_list_with frame_cost rest). lia.
  - intros x [i Hi]. unfold seen. rewrite idx_discover
      by (simpl; by rewrite (si_indices _ Hst)). case_decide; [by eexists|by exists i].
Qed.

Lemma leave_potential st' :
  work st' = rest → indices st' = indices st → potential st' < potential st.
Proof.
  intros Hw' Hi. rewrite (potential_cons _ _ _ Hw). unfold potential, unseen. rewrite Hw', Hi.
  unfold frame_cost at 2. lia.
Qed.

(** The top vertex is left. *)
Lemma leave_root :
  l !! fnext f = None → low st (fv f) = nm st (fv f) →
  ∃ st', frame_step adj f rest st = Some st' ∧ progress st st'.
Proof.
  intros Hend Hroot. pose proof top_range as Hv.
  destruct (stk_seen _ _ Hst top_stk) as [vi Hvi].
  assert (nm st (fv f) = vi) as Hnm by (unfold nm; by rewrite Hvi).
  unfold frame_step. rewrite Hl. simpl. rewrite Hend, low_lookup, index_lookup by done.
  rewrite Hvi. simpl. rewrite decide_True by congruence.
  assert (lowlinks (emit (fv f) st) = lowlinks st ∧ indices (emit (fv f) st) = indices st)
    as [Hel Hei] by (unfold emit; by destruct (pop_until _ _ _ _) as [[]]).
  exists (set_work rest (emit (fv f) st)). split; [|split_and!].
  - unfold fold_low. simpl. destruct rest as [|pf rest']; [done|]. rewrite Hel.
    assert (fv pf ∈ fv <$> pf :: rest') as Hpin by (rewrite fmap_cons; left).
    assert (gray st (fv pf)) as Hgp by (apply (top_gray _ _ _ _ Hst Hw); by right).
    pose proof (rest_below _ _ _ _ Hst Hw Hpin) as Hlt.
    rewrite !low_lookup by (done || by apply (seen_range _ _ Hst), (stk_seen _ _ Hst),
      (si_gray _ Hst)).
    simpl. rewrite decide_False; [done|]. pose proof (si_low_le _ Hst _ Hgp). lia.
  - by apply (emit_inv st f rest l).
  - by apply leave_potential.
  - intros x. unfold seen, idx. simpl. by rewrite Hei.
Qed.

Lemma leave_inner :
  l !! fnext f = None → low st (fv f) ≠ nm st (fv f) →
  ∃ st', frame_step adj f rest st = Some st' ∧ progress st st'.
Proof.
  intros Hend Hroot. pose proof top_range as Hv. pose proof (top_is_gray _ _ _ Hw) as Hgv.
  destruct (stk_seen _ _ Hst top_stk) as [vi Hvi].
  assert (nm st (fv f) = vi) as Hnm by (unfold nm; by rewrite Hvi).
  unfold frame_step. rewrite Hl. simpl. rewrite Hend, low_lookup, index_lookup by done.
  rewrite Hvi. simpl. rewrite decide_False by congruence.
  assert (∃ pf rest', rest = pf :: rest') as (pf & rest' & Hrest).
  { destruct (si_low _ Hst _ Hgv) as (z & Hz & Hnz & _). pose proof (si_low_le _ Hst _ Hgv).
    destruct (si_down _ Hst z Hz) as (g & Hg & Hle & _).
    apply (top_gray _ _ _ _ Hst Hw) in Hg as [->|Hg]; [lia|].
    destruct rest as [|pf rest']; [by apply elem_of_nil in Hg|eauto]. }
  assert (gray st (fv pf)) as Hgp
    by (apply (top_gray _ _ _ _ Hst Hw); right; rewrite Hrest, fmap_cons; left).
  assert (fv pf < length adj) as Hp
    by (by apply (seen_range _ _ Hst), (stk_seen _ _ Hst), (si_gray _ Hst)).
  unfold fold_low. simpl. rewrite Hrest, !low_lookup by done. simpl.
  set (lp := if decide (low st (fv f) < low st (fv pf)) then low st (fv f)
             else low st (fv pf)).
  exists (set_low (fv pf) lp (set_work (pf :: rest') st)).
  split; [|split_and!; [|by apply leave_potential|done]].
  - f_equal. unfold lp. case_decide; [done|]. symmetry. by apply set_low_id, (low_lookup st).
  - apply (retreat_inv st f pf rest' l); [done|congruence|done..| | |];
      unfold lp; case_decide; try lia; auto.
Qed.
End Step.

Lemma frame_step_spec st f rest :
  scc_inv st → work st = f :: rest →
  ∃ st', frame_step adj f rest st = Some st' ∧ progress st st'.
Proof.
  intros Hst Hw.
  assert (fv f < length adj) as Hv
    by (by eapply (seen_range _ _ Hst), (stk_seen _ _ Hst), (si_gray _ Hst), top_is_gray).
  destruct (lookup_lt_is_Some_2 _ _ Hv) as [l Hl].
  destruct (l !! fnext f) as [w|] eqn:Hnext.
  - destruct (idx st w) eqn:Hw'; [by eapply follow_seen|by eapply follow_new].
  - destruct (decide (low st (fv f) = nm st (fv f))); [by eapply leave_root|by eapply leave_inner].
Qed.

(** ** The whole search *)

Lemma idle_stack st : scc_inv st → work st = [] → stk st = [].
Proof.
  intros Hst Hw. destruct (stk st) as [|x s] eqn:Hs; [done|].
  destruct (si_down _ Hst x) as (g & Hg & _); [rewrite Hs; left|].
  unfold gray in Hg. rewrite Hw in Hg. by apply elem_of_nil in Hg.
Qed.

(** The states of one run, from a state [st0]. *)
Definition run_inv (st0 : scc_state) (r : option scc_state) : Prop :=
  ∃ st, r = Some st ∧ scc_inv st ∧ ∀ x, seen st0 x → seen st x.

Lemma scc_step_run st0 r r' :
  run_inv st0 r → scc_step adj r = Some r' →
  run_inv st0 r' ∧ default 0 (potential <$> r') < default 0 (potential <$> r).
Proof.
  intros (st & -> & Hst & Hs). simpl. destruct (work st) as [|f rest] eqn:Hw; [done|].
  intros [= <-]. destruct (frame_step_spec st f rest Hst Hw) as (st' & -> & Hst' & Hlt & Hs').
  split; [|done]. exists st'. auto.
Qed.

Lemma unseen_bound st : scc_inv st → unseen st ≤ length adj.
Proof. intros Hst. rewrite <- (si_indices _ Hst). apply length_filter. Qed.

(** A run from a new vertex ends with an empty path and without a panic. *)
Lemma run_from st start :
  scc_inv st → work st = [] → start < length adj → idx st start = None →
  ∃ st', loop (scc_fuel adj) (scc_step adj) (Some (discover start st)) = Some st' ∧
    scc_inv st' ∧ work st' = [] ∧ ∀ x, seen (discover start st) x → seen st' x.
Proof.
  intros Hst Hw Hlt Hnew. set (st0 := discover start st).
  pose proof (idle_stack _ Hst Hw) as Hstk.
  assert (scc_inv st0) as Hst0.
  { unfold st0. replace st with (set_work [] st) by (by rewrite <- Hw; destruct st).
    apply discover_inv; [done..|by rewrite Hw| |by rewrite Hstk; intros ? ?%elem_of_nil].
    intros x y (l & i & ? & ? & ? & ?). left. exists l, i. split_and!; [done..|].
    rewrite Hw. by intros ? ?%elem_of_nil. }
  assert (run_inv st0 (Some st0)) as Hrun by (by exists st0).
  set (r := loop (scc_fuel adj) (scc_step adj) (Some st0)).
  assert (run_inv st0 r) as Hr.
  { apply (loop_inv _ (run_inv st0)); [|done]. intros r1 r2 H1 H2. by eapply scc_step_run. }
  assert (scc_step adj r = None) as Hexit.
  { apply (loop_exits _ (run_inv st0)) with (μ := λ r, default 0 (potential <$> r)); [..|done|].
    - intros r1 r2 H1 H2. by eapply scc_step_run.
    - intros r1 r2 H1 H2. by eapply scc_step_run.
    - simpl. rewrite (potential_cons st0 (Frame start 0) []) by (simpl; by rewrite Hw).
      pose proof (unseen_discover st start) as Hun. rewrite index_lookup, Hnew in Hun by done.
      specialize (Hun eq_refl). fold st0 in Hun. pose proof (unseen_bound _ Hst).
      pose proof (frame_cost_bound start). change (sum_list_with frame_cost []) with 0.
      change (scc_fuel adj) with (length adj * edge_bound).
      assert (S (unseen st0) * edge_bound ≤ length adj * edge_bound)
        by (apply Nat.mul_le_mono_r; lia).
      rewrite Nat.mul_succ_l in *. lia. }
  destruct Hr as (st' & Heq & Hst' & Hseen). exists st'. split_and!; [done..| |done].
  rewrite Heq in Hexit. simpl in Hexit. by destruct (work st').
Qed.

Lemma visit_from_spec st start :
  scc_inv st → work st = [] → start < length adj →
  ∃ st', visit_from adj (Some st) start = Some st' ∧ scc_inv st' ∧ work st' = [] ∧
    seen st' start ∧ ∀ x, seen st x → seen st' x.
Proof.
  intros Hst Hw Hlt. unfold visit_from. simpl. rewrite index_lookup by done. simpl.
  destruct (idx st start) as [i|] eqn:Hidx.
  - exists st. split_and!; [done..|by exists i|done].
  - destruct (run_from st start Hst Hw Hlt Hidx) as (st' & -> & Hst' & Hw' & Hseen).
    assert (∀ x, seen (discover start st) x ↔ x = start ∨ seen st x) as Hd.
    { intros x. unfold seen. rewrite idx_discover by (by rewrite (si_indices _ Hst)).
      case_decide as Hx; [split; [by left|eauto]|]. split; [by right|by intros [?|?]]. }
    exists st'. split_and!; [done..| |]; [apply Hseen, Hd; by left|].
    intros x Hx. apply Hseen, Hd. by right.
Qed.

(** What [find_sccs] answers: all vertices, each in one component. *)
Lemma find_sccs_spec :
  ∃ comps, find_sccs adj = Some comps ∧ NoDup (concat comps) ∧
    (∀ x, x ∈ concat comps ↔ x < length adj) ∧ ([] ∉ comps) ∧
    ∀ c x y, c ∈ comps → x ∈ c → y ∈ c ↔ reach x y ∧ reach y x.
Proof.
  assert (∀ k, k ≤ length adj → ∃ st,
    foldl (visit_from adj) (Some (scc_init (length adj))) (seq 0 k) = Some st ∧
    scc_inv st ∧ work st = [] ∧ ∀ x, x < k → seen st x) as Hk.
  { induction k as [|k IH]; intros Hle.
    - exists (scc_init (length adj)). split_and!; [done|apply init_inv|done|lia].
    - destruct IH as (st & Heq & Hst & Hw & Hs); [lia|].
      rewrite seq_S, foldl_app, Heq. simpl.
      destruct (visit_from_spec st k Hst Hw) as (st' & Heq' & Hst' & Hw' & Hs' & Hmono); [lia|].
      exists st'. split_and!; [done..|]. intros x Hx. destruct (decide (x = k)) as [->|]; [done|].
      apply Hmono, Hs. lia. }
  destruct (Hk (length adj)) as (st & Heq & Hst & Hw & Hs); [done|].
  exists (sccs st). unfold find_sccs. rewrite Heq. split_and!.
  - done.
  - exact (si_nodup _ Hst).
  - intros x. split.
    + intros Hx. apply (seen_range _ _ Hst), (si_seen _ Hst). by right.
    + intros Hx%Hs. apply (si_seen _ Hst) in Hx as [Hx|Hx]; [|done].
      rewrite (idle_stack _ Hst Hw) in Hx. by apply elem_of_nil in Hx.
  - exact (si_nonempty _ Hst).
  - exact (si_comp _ Hst).
Qed.
End Search.

(** ** Vertices and indices *)

Section Vertices.
Context {N : Type} `{OrdId N}.
Implicit Types (vertices nodes : list N) (edges : list (N * N)).

Lemma intern_spec nodes n :
  NoDup nodes → NoDup (intern nodes n) ∧ ∀ x, x ∈ intern nodes n ↔ x ∈ nodes ∨ x = n.
Proof.
  intros Hnd. unfold intern. case_decide as Hn; [split; [done|]; naive_solver|].
  split; [apply NoDup_app; split_and!; [done|set_solver|apply NoDup_singleton]|].
  intros x. by rewrite elem_of_app, list_elem_of_singleton.
Qed.

Lemma interned_spec vertices edges :
  NoDup (interned vertices edges) ∧
  ∀ x, x ∈ interned vertices edges ↔ x ∈ vertices ∨ x ∈ nodes_of edges.
Proof.
  unfold interned.
  assert (NoDup (foldl intern [] vertices) ∧
    ∀ x, x ∈ foldl intern [] vertices ↔ x ∈ vertices) as [Hnd Hin].
  { induction vertices as [|v vertices [Hnd IH]] using rev_ind; [split; [constructor|done]|].
    rewrite foldl_app. simpl. destruct (intern_spec _ v Hnd) as [Hnd' Hin]. split; [done|].
    intros x. by rewrite Hin, IH, elem_of_app, list_elem_of_singleton. }
  induction edges as [|[u v] edges [Hnd' IH]] using rev_ind.
  - split; [done|]. intros x. rewrite Hin. set_solver.
  - rewrite foldl_app. simpl. destruct (intern_spec _ u Hnd') as [Hu Hinu].
    destruct (intern_spec _ v Hu) as [Hv Hinv]. split; [done|].
    intros x. rewrite Hinv, Hinu, IH, nodes_of_snoc. set_solver.
Qed.

Lemma index_of_lookup nodes n : n ∈ nodes → nodes !! index_of nodes n = Some n.
Proof.
  intros Hn. unfold index_of. destruct (list_find _ nodes) as [[i m]|] eqn:Hf.
  - apply list_find_Some in Hf as (Hi & -> & _). done.
  - rewrite list_find_None, Forall_forall in Hf. by destruct (Hf n Hn).
Qed.

Lemma elem_of_dedup_sorted (l : list nat) x : x ∈ dedup_sorted l ↔ x ∈ l.
Proof.
  induction l as [|a l IH]; [done|]. destruct l as [|b l]; [done|].
  cbn [dedup_sorted]. case_decide as Hab; [subst; rewrite IH; set_solver|].
  rewrite elem_of_cons, IH. by rewrite (elem_of_cons (b :: l)).
Qed.

(** The adjacency list is the relation of the edges, by index. *)
Lemma build_adjacency_spec vertices edges :
  let '(nodes, adj) := build_adjacency vertices edges in
  length adj = length nodes ∧
  ∀ i j, edge adj i j ↔
    ∃ u v, (u, v) ∈ edges ∧ i = index_of nodes u ∧ j = index_of nodes v ∧ i < length nodes.
Proof.
  unfold build_adjacency. generalize (interned vertices edges) as nodes. intros nodes.
  set (push := λ (adj : list (list nat)) (e : N * N),
    alter (λ l, l ++ [index_of nodes e.2]) (index_of nodes e.1) adj).
  set (adj0 := foldl push (replicate (length nodes) []) edges).
  assert (length adj0 = length nodes ∧ ∀ i l, adj0 !! i = Some l →
    ∀ j, j ∈ l ↔ ∃ u v, (u, v) ∈ edges ∧ i = index_of nodes u ∧ j = index_of nodes v)
    as [Hlen Hadj].
  { unfold adj0. induction edges as [|[u v] edges' [Hlen IH]] using rev_ind.
    - simpl. rewrite length_replicate. split; [done|]. intros i l [-> _]%lookup_replicate j. set_solver.
    - rewrite foldl_app. cbn [foldl]. set (adj' := foldl push _ edges') in *. clearbody adj'.
      unfold push. cbn [fst snd]. rewrite length_alter. split; [done|].
      intros i l Hl j. destruct (decide (index_of nodes u = i)) as [<-|Hne].
      + rewrite list_lookup_alter_eq in Hl. apply fmap_Some in Hl as (l' & Hl' & ->).
        rewrite elem_of_app, list_elem_of_singleton, (IH _ _ Hl'). set_solver.
      + rewrite list_lookup_alter_ne in Hl by done. rewrite (IH _ _ Hl). set_solver. }
  rewrite length_map. split; [done|]. intros i j. unfold edge. split.
  - intros (l & Hl & Hj). apply list_lookup_fmap_Some in Hl as (l' & -> & Hl').
    rewrite elem_of_dedup_sorted, merge_sort_Permutation in Hj.
    apply (Hadj _ _ Hl') in Hj as (u & v & ? & ? & ?). exists u, v. split_and!; [done..|].
    rewrite <- Hlen. by eapply lookup_lt_Some.
  - intros (u & v & Huv & Hi & Hj & Hlt). rewrite <- Hlen in Hlt.
    destruct (lookup_lt_is_Some_2 _ _ Hlt) as [l Hl]. exists (dedup_sorted (merge_sort le l)).
    split; [by rewrite list_lookup_fmap, Hl|].
    rewrite elem_of_dedup_sorted, merge_sort_Permutation. apply (Hadj _ _ Hl). eauto.
Qed.

(** The components by name. *)
Definition names (nodes : list N) (ixs : list nat) : list N := omap (λ i, nodes !! i) ixs.

Lemma mapM_names nodes ixs :
  (∀ i, i ∈ ixs → i < length nodes) → mapM (λ i, nodes !! i) ixs = Some (names nodes ixs).
Proof.
  induction ixs as [|i ixs IH]; intros Hlt; [done|]. simpl.
  destruct (lookup_lt_is_Some_2 nodes i) as [n Hn]; [apply Hlt; left|]. rewrite Hn. simpl.
  rewrite IH by (intros; apply Hlt; by right). simpl. unfold names. simpl. by rewrite ?Hn.
Qed.

Lemma elem_of_names nodes ixs x : x ∈ names nodes ixs ↔ ∃ i, i ∈ ixs ∧ nodes !! i = Some x.
Proof. unfold names. by rewrite list_elem_of_omap. Qed.

Lemma NoDup_names nodes ixs : NoDup nodes → NoDup ixs → NoDup (names nodes ixs).
Proof.
  intros Hnd. induction 1 as [|i ixs Hi _ IH]; [constructor|]. unfold names. simpl.
  destruct (nodes !! i) as [n|] eqn:Hn; [|done]. constructor; [|done].
  intros (j & Hj & Hnj)%elem_of_names. by rewrite (NoDup_lookup _ _ _ _ Hnd Hn Hnj) in Hi.
Qed.

Lemma names_nil nodes ixs :
  (∀ i, i ∈ ixs → i < length nodes) → names nodes ixs = [] → ixs = [].
Proof.
  destruct ixs as [|i ixs]; [done|]. intros Hlt. unfold names. simpl.
  destruct (lookup_lt_is_Some_2 nodes i) as [n Hn]; [apply Hlt; left|]. by rewrite Hn.
Qed.

#[local] Instance head_le_total : Total head_le.
Proof. intros [|x a] [|y b]; simpl; auto. apply (total ord_le). Qed.

#[local] Instance head_le_trans : Transitive head_le.
Proof. intros [|x a] [|y b] [|z c]; simpl; try done. apply transitivity. Qed.

(** Materialising components whose indices are in range. *)
Lemma materialise_spec nodes comps :
  NoDup nodes → NoDup (concat comps) → ([] ∉ comps) →
  (∀ i, i ∈ concat comps → i < length nodes) →
  ∃ out, materialise nodes comps = Some out ∧
    out ≡ₚ map (λ c, sort_ids (names nodes c)) comps ∧ StronglySorted head_le out.
Proof.
  intros Hnd Hndc Hne Hlt. set (out0 := map (λ c, sort_ids (names nodes c)) comps).
  assert (mapM (λ ixs, sort_ids <$> mapM (λ i, nodes !! i) ixs) comps = Some out0) as Hm.
  { unfold out0. clear Hndc Hne. induction comps as [|c comps IH]; [done|]. simpl.
    rewrite mapM_names by (intros; apply Hlt; simpl; set_solver). simpl.
    rewrite IH; [done|]. intros; apply Hlt; simpl; set_solver. }
  exists (merge_sort head_le out0). unfold materialise. rewrite Hm. simpl.
  rewrite decide_False.
  - split_and!; [done|apply merge_sort_Permutation|apply (StronglySorted_merge_sort head_le)].
  - intros [_ (c & Hc & Hin)%list_elem_of_fmap]. apply Hne.
    assert (names nodes c = []) as Hn.
    { apply Permutation_nil_r. by rewrite <- (sort_ids_perm (names nodes c)), <- Hc. }
    apply names_nil in Hn; [by rewrite <- Hn|]. intros i Hi. apply Hlt.
    apply list_elem_of_In, in_concat. exists c. by rewrite <- !list_elem_of_In.
Qed.
End Vertices.

(** ** Properties *)

Section SccTheorems.
Context {N : Type} `{OrdId N}.
Implicit Types (vertices nodes : list N) (edges : list (N * N)).

(** Reachability by index is reachability by name. *)
Lemma reach_names edges nodes adj :
  NoDup nodes → (∀ n, n ∈ nodes_of edges → n ∈ nodes) →
  (∀ i j, edge adj i j ↔
    ∃ u v, (u, v) ∈ edges ∧ i = index_of nodes u ∧ j = index_of nodes v ∧ i < length nodes) →
  ∀ i j x y, nodes !! i = Some x → nodes !! j = Some y →
    reach adj i j ↔ rtc (edge_rel edges) x y.
Proof.
  intros Hnd Hnodes Hedge.
  assert (∀ u v, (u, v) ∈ edges → nodes !! index_of nodes u = Some u ∧
    nodes !! index_of nodes v = Some v) as Hidx.
  { intros u v Huv. split; apply index_of_lookup, Hnodes, elem_of_nodes_of; eauto. }
  intros i j x y Hx Hy. split.
  - intros Hr. revert x Hx. induction Hr as [i|i k j Hik _ IH]; intros x Hx; [by simplify_eq|].
    apply Hedge in Hik as (u & v & Huv & -> & -> & _). destruct (Hidx _ _ Huv) as [Hu Hv].
    simplify_eq. eapply rtc_l; [exact Huv|]. by apply IH.
  - intros Hr. revert i Hx. induction Hr as [x|x z y Hxz _ IH]; intros i Hx.
    + rewrite (NoDup_lookup _ _ _ _ Hnd Hx Hy). reflexivity.
    + destruct (Hidx _ _ Hxz) as [Hix Hiz]. eapply rtc_l; [|by apply (IH Hy _ Hiz)].
      apply Hedge. exists x, z. rewrite (NoDup_lookup _ _ _ _ Hnd Hx Hix).
      split_and!; [done..|]. by eapply lookup_lt_Some.
Qed.

(** The contract of [tarjan_scc]. *)
Definition is_scc_partition vertices edges (out : list (list N)) : Prop :=
  NoDup (concat out) ∧ (∀ n, n ∈ concat out ↔ n ∈ vertices ∨ n ∈ nodes_of edges) ∧
  (∀ c, c ∈ out → c ≠ [] ∧ StronglySorted ord_le c) ∧ StronglySorted head_le out ∧
  ∀ c x y, c ∈ out → x ∈ c →
    y ∈ c ↔ rtc (edge_rel edges) x y ∧ rtc (edge_rel edges) y x.

Lemma concat_names nodes (comps : list (list nat)) :
  concat (map (λ c, sort_ids (names nodes c)) comps) ≡ₚ names nodes (concat comps).
Proof.
  induction comps as [|c comps IH]; [done|]. simpl. unfold names in *. rewrite omap_app.
  by rewrite IH, sort_ids_perm.
Qed.

Lemma tarjan_scc_partition vertices edges :
  ∃ out, tarjan_scc vertices edges = Some out ∧ is_scc_partition vertices edges out.
Proof.
  destruct (interned_spec vertices edges) as [Hnd Hin].
  pose proof (build_adjacency_spec vertices edges) as Hb.
  unfold tarjan_scc. destruct (build_adjacency vertices edges) as [nodes adj] eqn:Hadj.
  assert (nodes = interned vertices edges) as Hnodes by (unfold build_adjacency in Hadj; congruence).
  rewrite <- Hnodes in Hnd, Hin. clear Hnodes Hadj. destruct Hb as [Hlen Hedge].
  assert (∀ n, n ∈ nodes_of edges → n ∈ nodes) as Hsub by (intros n Hn; apply Hin; by right).
  assert (∀ x l y, adj !! x = Some l → y ∈ l → y < length adj) as Hok.
  { intros x l y Hl Hy. assert (edge adj x y) as Hxy by (by exists l).
    apply Hedge in Hxy as (u & v & Huv & _ & -> & _). rewrite Hlen.
    eapply lookup_lt_Some, index_of_lookup, Hsub, elem_of_nodes_of. eauto. }
  destruct (find_sccs_spec adj Hok) as (comps & -> & Hndc & Hall & Hne & Hcomp). simpl.
  destruct (materialise_spec nodes comps Hnd Hndc Hne) as (out & -> & Hperm & Hsort);
    [intros i Hi; rewrite <- Hlen; by apply Hall|].
  exists out. split; [done|].
  assert (concat out ≡ₚ names nodes (concat comps)) as Hcon
    by (rewrite <- concat_names; by rewrite Hperm).
  assert (∀ c, c ∈ out → ∃ cc, cc ∈ comps ∧ c = sort_ids (names nodes cc)) as Hout.
  { intros c Hc. rewrite Hperm in Hc. apply list_elem_of_fmap in Hc as (cc & -> & Hcc). eauto. }
  split_and!; [|  | |done|].
  - rewrite Hcon. by apply NoDup_names.
  - intros n. rewrite Hcon, elem_of_names, <- Hin. split.
    + intros (i & _ & Hi). by eapply list_elem_of_lookup_2.
    + intros [i Hi]%list_elem_of_lookup. exists i. split; [|done]. apply Hall.
      rewrite Hlen. by eapply lookup_lt_Some.
  - intros c Hc. destruct (Hout c Hc) as (cc & Hcc & ->). split; [|apply sort_ids_sorted].
    intros Hnil. apply Hne. rewrite <- (names_nil nodes cc); [done| |].
    + intros i Hi. rewrite <- Hlen. apply Hall, list_elem_of_In, in_concat.
      exists cc. by rewrite <- !list_elem_of_In.
    + apply Permutation_nil_r. by rewrite <- (sort_ids_perm (names nodes cc)), Hnil.
  - intros c x y Hc Hx. destruct (Hout c Hc) as (cc & Hcc & ->).
    rewrite elem_of_sort_ids in *. apply elem_of_names in Hx as (i & Hi & Hix).
    rewrite elem_of_names. split.
    + intros (j & Hj & Hjy). destruct (proj1 (Hcomp cc i j Hcc Hi) Hj) as [Hij Hji].
      split; by eapply (reach_names edges nodes adj).
    + intros [Hxy Hyx]. assert (y ∈ nodes) as [j Hjy]%list_elem_of_lookup.
      { apply rtc_inv in Hyx as [->|(z & Hyz & _)]; [by eapply list_elem_of_lookup_2|].
        apply Hsub, elem_of_nodes_of. exists (y, z). auto. }
      exists j. split; [|done]. apply (Hcomp cc i j Hcc Hi).
      split; by eapply (reach_names edges nodes adj Hnd Hsub Hedge).
Qed.

(** C20. Tarjan's algorithm terminates within its fuel, does not panic and
    answers the strongly connected components: every vertex once, in a
    non-empty sorted component of exactly the vertices that it reaches and
    that reach it, the components in the order of their least vertices. *)
Theorem tarjan_scc_correct vertices edges :
  ∃ out, tarjan_scc vertices edges = Some out ∧ is_scc_partition vertices edges out.
Proof. apply tarjan_scc_partition. Qed.

Lemma tc_cases {A} (R : relation A) x y : tc R x y → R x y ∨ ∃ z, R x z ∧ tc R z y.
Proof. intros [? ? Hxy|? z ? Hxz Hzy]; eauto. Qed.

(** A component is non-trivial exactly if its vertices lie on cycles. *)
Lemma non_trivial_cycle vertices edges out c x :
  is_scc_partition vertices edges out → c ∈ out → x ∈ c →
  non_trivial (list_to_set (omap (λ e, if decide (e.1 = e.2) then Some e.1 else None) edges)) c
    = true ↔ tc (edge_rel edges) x x.
Proof.
  intros (Hnd & _ & Hne & _ & Hcomp) Hc Hx. unfold non_trivial.
  rewrite orb_true_iff, bool_decide_eq_true. split.
  - intros [Hlen|Hself].
    + assert (∃ y, y ∈ c ∧ x ≠ y) as (y & Hy & Hxy).
      { assert (NoDup c) as Hndc.
        { apply list_elem_of_split in Hc as (l1 & l2 & ->). rewrite concat_app in Hnd. simpl in Hnd.
          apply NoDup_app in Hnd as (_ & _ & Hnd). by apply NoDup_app in Hnd as (? & _). }
        destruct c as [|a [|b c]]; [simpl in Hlen; lia..|].
        apply NoDup_cons in Hndc as [Ha _]. destruct (decide (x = a)) as [->|Hxa].
        - exists b. split; [set_solver|]. intros ->. set_solver.
        - exists a. split; [set_solver|done]. }
      apply (Hcomp c x y Hc Hx) in Hy as [H1 H2].
      apply rtc_tc in H1 as [?|H1]; [done|]. by eapply tc_rtc_r.
    + destruct c as [|z [|? ?]]; [done| |done]. apply bool_decide_eq_true in Hself.
      apply list_elem_of_singleton in Hx as ->. rewrite elem_of_list_to_set in Hself.
      apply list_elem_of_omap in Hself as ([a b] & He & Hab). simpl in Hab.
      case_decide; [|done]. simplify_eq. by apply tc_once.
  - intros Hcyc. destruct c as [|a [|b c]]; [by apply elem_of_nil in Hx| |left; simpl; lia].
    right. apply list_elem_of_singleton in Hx as ->. apply bool_decide_eq_true.
    rewrite elem_of_list_to_set. apply list_elem_of_omap.
    assert (∀ y, rtc (edge_rel edges) a y → rtc (edge_rel edges) y a → y = a) as Honly.
    { intros y H1 H2. assert (y ∈ [a]) as Hy by (apply (Hcomp [a] a y Hc); [left|done]).
      by apply list_elem_of_singleton in Hy. }
    exists (a, a). simpl. rewrite decide_True by done. split; [|done].
    apply tc_cases in Hcyc as [?|(z & Haz & Hza)]; [done|].
    assert (z = a) as -> by (apply Honly; [by apply rtc_once|by apply tc_rtc]). done.
Qed.

(** The livelock filter answers exactly the components whose vertices lie
    on cycles, so that it answers nothing exactly if the topological sort of
    the same edges succeeds. *)
Theorem non_trivial_sccs_correct `{!HashOrder N} vertices edges :
  ∃ out, non_trivial_sccs vertices edges = Some out ∧
    (∀ c x, c ∈ out → x ∈ c → tc (edge_rel edges) x x) ∧
    (∀ x, tc (edge_rel edges) x x → ∃ c, c ∈ out ∧ x ∈ c) ∧
    (out = [] ↔ is_ok (toposort edges) = true).
Proof.
  destruct (tarjan_scc_partition vertices edges) as (out & Hout & Hpart).
  pose proof Hpart as (_ & Hall & _). unfold non_trivial_sccs. rewrite Hout. simpl.
  eexists. split; [done|].
  match goal with |- context [non_trivial ?s] => set (self := s) end.
  assert (∀ c x, c ∈ filter (λ comp, non_trivial self comp = true) out → x ∈ c →
    tc (edge_rel edges) x x) as Hsound.
  { intros c x [Hnt Hc]%list_elem_of_filter Hx. by eapply non_trivial_cycle. }
  assert (∀ x, tc (edge_rel edges) x x →
    ∃ c, c ∈ filter (λ comp, non_trivial self comp = true) out ∧ x ∈ c) as Hcompl.
  { intros x Hx. assert (x ∈ concat out) as Hin.
    { apply Hall. right. apply tc_cases in Hx as [Hx|(z & Hx & _)];
        apply elem_of_nodes_of; eauto. }
    apply list_elem_of_In, in_concat in Hin as (c & Hc & Hxc). rewrite <- !list_elem_of_In in *.
    exists c. split; [|done]. apply list_elem_of_filter. split; [|done].
    by eapply non_trivial_cycle. }
  split_and!; [done..|]. destruct (toposort_cases edges) as [(l & Hl & _)|(n & Hn & c & Hc & _)].
  - pose proof (toposort_ok_acyclic _ _ Hl) as Hac. rewrite Hl. split; [done|]. intros _.
    destruct (filter _ out) as [|c rest] eqn:Hf; [done|].
    assert (c ∈ out) as Hco by (eapply (list_elem_of_filter (λ comp, non_trivial self comp = true));
      rewrite Hf; left).
    destruct Hpart as (_ & _ & Hne & _). destruct (Hne c Hco) as [Hnil _].
    destruct c as [|x c]; [done|]. exfalso. apply (Hac x), (Hsound (x :: c)); left.
  - rewrite Hn. split; [|done]. intros Hnil. destruct (Hcompl c Hc) as (c' & Hc' & _).
    rewrite Hnil in Hc'. by apply elem_of_nil in Hc'.
Qed.
End SccTheorems.

(** ** A concrete graph *)

Section Examples.

(** A cycle of three, a tail, and a vertex that waits on itself. *)
Definition sample_waits : list (nat * nat) := [(1, 2); (2, 3); (3, 1); (3, 4); (5, 5)].

Example sample_components :
  tarjan_scc [7] sample_waits = Some [[1; 2; 3]; [4]; [5]; [7]] ∧
  non_trivial_sccs [7] sample_waits = Some [[1; 2; 3]; [5]].
Proof. by split; vm_compute. Qed.
End Examples.
