(* ===== verification/Cron.v ===== *)
(** Five-field cron expressions: [crates/cosmon-scheduler/src/cron.rs].
    A field is a bit set of at most 64 values; the operator's time zone is the
    class [LocalClock]. *)
From S2P Require Import Prelude Text.
From Stdlib Require Import Ascii.
From stdpp Require Import prelude strings list pretty.

(** ** Field sets *)

(** [FieldSet]: bit [v] says that the value [v] is present. *)
Record field_set := FieldSet { bits : N }.

Definition fs_empty : field_set := FieldSet 0.

Definition fs_insert (value : N) (s : field_set) : field_set :=
  if decide (value < 64)%N then FieldSet (N.lor (bits s) (N.shiftl 1 value)) else s.

Definition fs_contains (s : field_set) (value : N) : bool :=
  bool_decide (value < 64)%N && (N.land (N.shiftr (bits s) value) 1 =? 1)%N.

(** [CronError] *)
Inductive cron_error :=
| WrongArity (n : nat)
| BadField (field_index : nat) (raw reason : string).

(** ** Parsing *)

Definition parse_u32 (s : string) : option N := parse_unsigned u32_max s.

Definition ok_or {A} (o : option A) (e : string) : result string A :=
  match o with Some a => Ok a | None => Err e end.

Definition parse_range (part : string) (lo hi : N) : result string (N * N) :=
  if decide (part = "*") then Ok (lo, hi) else
  match split_once "-"%char part with
  | Some (a, b) =>
      start ← ok_or (parse_u32 a) ("bad range start '" +:+ a +:+ "'");
      end_ ← ok_or (parse_u32 b) ("bad range end '" +:+ b +:+ "'");
      if decide (start < lo ∨ hi < end_ ∨ end_ < start)%N then
        Err ("range " +:+ pretty start +:+ "-" +:+ pretty end_ +:+ " not within " +:+
             pretty lo +:+ "..=" +:+ pretty hi)
      else Ok (start, end_)
  | None =>
      v ← ok_or (parse_u32 part) ("bad value '" +:+ part +:+ "'");
      if decide (v < lo ∨ hi < v)%N then
        Err ("value " +:+ pretty v +:+ " out of range " +:+ pretty lo +:+ "..=" +:+ pretty hi)
      else Ok (v, v)
  end.

(** One turn of [while v <= end]; the step is not zero. *)
Definition fill_step (end_ step : N) (s : N * field_set) : option (N * field_set) :=
  let '(v, into) := s in
  if decide (v ≤ end_)%N then Some (u32_max `min` (v + step), fs_insert v into)%N else None.

Definition fill_fuel (start end_ : N) : nat := N.to_nat (end_ + 1) - N.to_nat start.

Definition fill (start end_ step : N) (into : field_set) : field_set :=
  (loop (fill_fuel start end_) (fill_step end_ step) (start, into)).2.

Definition parse_token (token : string) (lo hi : N) (into : field_set) :
    result string field_set :=
  '(range_part, step) ←
    match split_once "/"%char token with
    | Some (r, s) =>
        step ← ok_or (parse_u32 s) ("bad step '" +:+ s +:+ "'");
        if decide (step = 0)%N then Err ("step must be >= 1, got '" +:+ s +:+ "'")
        else Ok (r, step)
    | None => Ok (token, 1%N)
    end;
  '(start, end_) ← parse_range range_part lo hi;
  Ok (fill start end_ step into).

Definition parse_field (raw : string) (index : nat) (lo hi : N) : result cron_error field_set :=
  foldl (λ r token, set ← r; map_err (BadField index raw) (parse_token token lo hi set))
    (Ok fs_empty) (split_on ","%char raw).

(** [CronExpr] *)
Record cron_expr := CronExpr {
  minute : field_set;
  hour : field_set;
  day_of_month : field_set;
  month : field_set;
  day_of_week : field_set;
}.

Definition cron_parse (expr : string) : result cron_error cron_expr :=
  let fields := split_whitespace expr in
  match fields with
  | [f0; f1; f2; f3; f4] =>
      m ← parse_field f0 0 0 59;
      h ← parse_field f1 1 0 23;
      d ← parse_field f2 2 1 31;
      mo ← parse_field f3 3 1 12;
      w ← parse_field f4 4 0 7;
      Ok (CronExpr m h d mo w)
  | _ => Err (WrongArity (length fields))
  end.

(** ** Matching *)

(** The local wall clock at an instant, as chrono answers it. *)
Record local_time := LocalTime {
  lt_minute : N;
  lt_hour : N;
  lt_day : N;
  lt_month : N;
  num_days_from_sunday : N;
}.

(** [now.with_timezone(&Local)], for instants in nanoseconds. *)
Class LocalClock := with_timezone_local : Z → local_time.

Definition cron_matches `{LocalClock} (c : cron_expr) (now : Z) : bool :=
  let local := with_timezone_local now in
  let dow_sun0 := num_days_from_sunday local in
  let dow_matches := fs_contains (day_of_week c) dow_sun0 ||
    (bool_decide (dow_sun0 = 0)%N && fs_contains (day_of_week c) 7) in
  fs_contains (minute c) (lt_minute local) && fs_contains (hour c) (lt_hour local) &&
  fs_contains (day_of_month c) (lt_day local) && fs_contains (month c) (lt_month local) &&
  dow_matches.

(** ** Field sets as sets *)

Lemma fs_contains_testbit s v :
  fs_contains s v = bool_decide (v < 64)%N && N.testbit (bits s) v.
Proof.
  unfold fs_contains. f_equal. change 1%N with (N.ones 1) at 1.
  rewrite N.land_ones, N.shiftr_div_pow2. change (2 ^ 1)%N with 2%N.
  rewrite <- N.testbit_spec'. by destruct (N.testbit (bits s) v).
Qed.

Lemma fs_contains_empty v : fs_contains fs_empty v = false.
Proof. rewrite fs_contains_testbit. apply andb_false_r. Qed.

Lemma fs_contains_insert v s x :
  fs_contains (fs_insert v s) x = true ↔ fs_contains s x = true ∨ (x = v ∧ v < 64)%N.
Proof.
  unfold fs_insert. case_decide as Hv; [|split; [by left|intros [?|[-> ?]]; [done|lia]]].
  rewrite !fs_contains_testbit, !andb_true_iff, !bool_decide_eq_true. simpl.
  change (N.lor (bits s) (N.shiftl 1 v)) with (N.setbit (bits s) v).
  rewrite N.setbit_iff. split; [intros [? [->|?]]; auto|]. intros [[? ?]|[-> ?]]; auto.
Qed.

(** The values of [start], [start + step], ... up to [end_]. *)
Definition stepped (start end_ step v : N) : Prop :=
  (start ≤ v ≤ end_ ∧ (v - start) mod step = 0)%N.

Lemma stepped_next start end_ step v :
  (0 < step)%N → (start ≤ end_)%N → (end_ < 64)%N →
  stepped start end_ step v ↔
    v = start ∨ stepped (u32_max `min` (start + step)) end_ step v.
Proof.
  intros Hs Hle He. unfold stepped. split.
  - intros [[H1 H2] Hm]. destruct (decide (v = start)) as [->|Hne]; [by left|]. right.
    apply N.Lcm0.mod_divide in Hm as [k Hk].
    assert (k ≠ 0)%N by (intros ->; lia). assert (step ≤ v - start)%N by nia.
    rewrite N.min_r by (unfold u32_max; lia). split; [lia|].
    apply N.Lcm0.mod_divide. exists (k - 1)%N. nia.
  - intros [->|[[H1 H2] Hm]]; [split; [lia|]; by rewrite N.sub_diag, N.Div0.mod_0_l|].
    assert (start + step ≤ u32_max)%N by (unfold u32_max in *; lia).
    rewrite N.min_r in * by done. split; [lia|].
    apply N.Lcm0.mod_divide in Hm as [k Hk]. apply N.Lcm0.mod_divide. exists (k + 1)%N. nia.
Qed.

(** The loop ends within its fuel and inserts exactly the stepped values. *)
Lemma fill_loop end_ step fuel v into :
  (0 < step)%N → (end_ < 64)%N → fill_fuel v end_ ≤ fuel →
  let r := loop fuel (fill_step end_ step) (v, into) in
  fill_step end_ step r = None ∧
  ∀ x, fs_contains r.2 x = true ↔ fs_contains into x = true ∨ stepped v end_ step x.
Proof.
  intros Hs He. revert v into. induction fuel as [|fuel IH]; intros v into Hf; simpl.
  - unfold fill_fuel in Hf. rewrite decide_False by lia. split; [done|].
    intros x. split; [by left|]. intros [?|[? _]]; [done|lia].
  - destruct (decide (v ≤ end_)%N) as [Hv|Hv].
    + destruct (IH (u32_max `min` (v + step))%N (fs_insert v into)) as [Hx Hi].
      { unfold fill_fuel in *. destruct (N.min_spec u32_max (v + step)) as [[? ->]|[? ->]];
          unfold u32_max in *; lia. }
      split; [done|]. intros x. rewrite (Hi x), fs_contains_insert, (stepped_next v) by done.
      split; [intros [[?|[-> ?]]|?]; auto|]. intros [?|[->|?]]; auto.
      left. right. split; [done|lia].
    + simpl. rewrite decide_False by done. split; [done|]. intros x. split; [by left|].
      intros [?|[? _]]; [done|lia].
Qed.

Lemma fs_contains_fill start end_ step into x :
  (0 < step)%N → (end_ < 64)%N →
  fs_contains (fill start end_ step into) x = true ↔
    fs_contains into x = true ∨ stepped start end_ step x.
Proof. intros Hs He. by apply (fill_loop end_ step). Qed.

(** ** The grammar of a field *)

Section Grammar.
Context (lo hi : N).

(** A range and the values it spells: the whole field, one value, or an
    interval. *)
Inductive spelled_range : string → N → N → Prop :=
| spelled_star : spelled_range "*" lo hi
| spelled_value s v : parse_u32 s = Some v → (lo ≤ v ≤ hi)%N → spelled_range s v v
| spelled_interval a b v w :
    parse_u32 a = Some v → parse_u32 b = Some w → (lo ≤ v)%N → (v ≤ w)%N → (w ≤ hi)%N →
    spelled_range (a +:+ String "-" b) v w.

(** A token with its step. *)
Inductive spelled_token : string → N → N → N → Prop :=
| spelled_plain r v w : spelled_range r v w → spelled_token r v w 1
| spelled_step r k v w step :
    spelled_range r v w → parse_u32 k = Some step → (0 < step)%N →
    spelled_token (r +:+ String "/" k) v w step.

Definition field_ok (raw : string) : Prop :=
  ∀ token, token ∈ split_on "," raw → ∃ v w step, spelled_token token v w step.

(** The values that a field denotes. *)
Definition field_denotes (raw : string) (x : N) : Prop :=
  ∃ token v w step, token ∈ split_on "," raw ∧ spelled_token token v w step ∧ stepped v w step x.

Lemma ok_or_Ok {A} (o : option A) e a : ok_or o e = Ok a ↔ o = Some a.
Proof. destruct o; simpl; split; congruence. Qed.

Lemma parse_u32_no s n c :
  parse_u32 s = Some n → is_ascii_digit c = false → c ≠ "+"%char → contains_char c s = false.
Proof. apply parse_unsigned_no. Qed.

Lemma parse_range_exact part v w :
  parse_range part lo hi = Ok (v, w) ↔ spelled_range part v w.
Proof.
  unfold parse_range. split.
  - case_decide as Hstar; [intros [= -> ->]; subst; constructor|].
    destruct (split_once _ part) as [[a b]|] eqn:Hs.
    + apply split_once_some in Hs as [-> _].
      intros (v' & Hv%ok_or_Ok & (w' & Hw%ok_or_Ok & Hr)%result_bind_ok)%result_bind_ok.
      case_decide; [done|]. simplify_eq. constructor; [done..|lia|lia|lia].
    + intros (v' & Hv%ok_or_Ok & Hr)%result_bind_ok. case_decide; [done|]. simplify_eq.
      constructor; [done|lia].
  - intros [|s v' Hv Hr|a b v' w' Hv Hw H1 H2 H3]; [done| |].
    + rewrite decide_False by (by intros ->).
      rewrite (proj2 (split_once_none _ _)) by by eapply parse_u32_no.
      rewrite Hv. simpl. by rewrite decide_False by lia.
    + rewrite decide_False.
      * rewrite (proj2 (split_once_some "-" _ a b)) by (split; [done|by eapply parse_u32_no]).
        rewrite Hv, Hw. simpl. by rewrite decide_False by lia.
      * destruct a as [|c a]; [done|]. by destruct a.
Qed.

Lemma spelled_range_no_slash r v w : spelled_range r v w → contains_char "/" r = false.
Proof.
  intros [|s v' Hv Hr|a b v' w' Hv Hw H1 H2 H3]; [done|by eapply parse_u32_no|].
  rewrite contains_char_app. simpl.
  by rewrite (parse_u32_no a v' "/" Hv eq_refl), (parse_u32_no b w' "/" Hw eq_refl).
Qed.

Lemma parse_token_exact token into set :
  parse_token token lo hi into = Ok set ↔
  ∃ v w step, spelled_token token v w step ∧ set = fill v w step into.
Proof.
  unfold parse_token. split.
  - destruct (split_once _ token) as [[r k]|] eqn:Hs.
    + apply split_once_some in Hs as [-> _].
      intros ([r' step] & (k' & Hk%ok_or_Ok & Hst)%result_bind_ok &
        ([v w] & Hr%parse_range_exact & Hf)%result_bind_ok)%result_bind_ok.
      case_decide; [done|]. simplify_eq. exists v, w, step. split; [|done].
      constructor; [done..|lia].
    + intros ([r' step] & [= <- <-] & ([v w] & Hr%parse_range_exact & Hf)%result_bind_ok)%result_bind_ok.
      simplify_eq. exists v, w, 1%N. split; [by constructor|done].
  - intros (v & w & step & [r v' w' Hr|r k v' w' step' Hr Hk Hst] & ->).
    + pose proof (spelled_range_no_slash _ _ _ Hr) as Hno.
      rewrite (proj2 (split_once_none _ _)) by done. simpl.
      by rewrite (proj2 (parse_range_exact _ _ _) Hr).
    + pose proof (spelled_range_no_slash _ _ _ Hr) as Hno.
      rewrite (proj2 (split_once_some "/" _ r k)) by done. rewrite Hk. simpl.
      rewrite decide_False by lia. simpl. by rewrite (proj2 (parse_range_exact _ _ _) Hr).
Qed.

Lemma spelled_token_bounds token v w step :
  (lo ≤ hi)%N → spelled_token token v w step → (lo ≤ v ≤ w ∧ w ≤ hi ∧ 0 < step)%N.
Proof. intros Hle [r ? ? []|r k ? ? ? [] Hk Hst]; lia. Qed.

(** Parsing a field, over the tokens read so far. *)
Lemma parse_field_fold index raw tokens set0 :
  (lo ≤ hi)%N → (hi < 64)%N →
  match foldl (λ r token, set ← r; map_err (BadField index raw) (parse_token token lo hi set))
    (Ok set0) tokens with
  | Ok set =>
      (∀ token, token ∈ tokens → ∃ v w step, spelled_token token v w step) ∧
      ∀ x, fs_contains set x = true ↔ fs_contains set0 x = true ∨
        ∃ token v w step, token ∈ tokens ∧ spelled_token token v w step ∧ stepped v w step x
  | Err e => (∃ reason, e = BadField index raw reason) ∧
      ∃ token, token ∈ tokens ∧ ∀ v w step, ¬ spelled_token token v w step
  end.
Proof.
  intros Hle Hhi. induction tokens as [|token tokens IH] using rev_ind; simpl.
  - split; [set_solver|]. intros x. split; [by left|]. intros [?|(? & ? & ? & ? & ? & _)]; set_solver.
  - rewrite foldl_app. simpl. destruct (foldl _ _ tokens) as [set|e] eqn:Hf; simpl.
    + destruct IH as [Hok Hset]. destruct (parse_token token lo hi set) as [set'|e] eqn:Ht; simpl.
      * apply parse_token_exact in Ht as (v & w & step & Ht & ->).
        destruct (spelled_token_bounds _ _ _ _ Hle Ht) as (H1 & H2 & H3). split.
        -- intros t [?| ->%list_elem_of_singleton]%elem_of_app; eauto.
        -- intros x. rewrite fs_contains_fill by lia. rewrite Hset. split.
           ++ intros [[?|(t & ? & ? & ? & ? & ? & ?)]|?]; [by left| |]; right.
              ** exists t. do 3 eexists. split_and!; [|done..]. apply elem_of_app. by left.
              ** exists token, v, w, step. split_and!; [|done..]. apply elem_of_app. right. by left.
           ++ intros [?|(t & v' & w' & step' & [Hin| ->%list_elem_of_singleton]%elem_of_app & Ht' & Hx)];
                [by left; left|left; right; by exists t, v', w', step'|right].
              assert (parse_token token lo hi fs_empty = Ok (fill v w step fs_empty)) as E1
                by (apply parse_token_exact; eauto).
              assert (parse_token token lo hi fs_empty = Ok (fill v' w' step' fs_empty)) as E2
                by (apply parse_token_exact; eauto).
              destruct (spelled_token_bounds _ _ _ _ Hle Ht') as (H1' & H2' & H3').
              assert (fs_contains (fill v w step fs_empty) x = true) as Hc.
              { assert (fill v w step fs_empty = fill v' w' step' fs_empty) as -> by congruence.
                apply fs_contains_fill; [lia..|by right]. }
              apply fs_contains_fill in Hc; [|lia..].
              rewrite fs_contains_empty in Hc. by destruct Hc.
      * split; [eauto|]. exists token. split; [apply elem_of_app; right; by left|].
        intros v w step Hs. assert (parse_token token lo hi set = Ok (fill v w step set)) as E
          by (apply parse_token_exact; eauto). congruence.
    + destruct IH as (He & t & Hin & Hno). split; [done|]. exists t. split; [|done].
      apply elem_of_app. by left.
Qed.

Lemma parse_field_exact index raw :
  (lo ≤ hi)%N → (hi < 64)%N →
  match parse_field raw index lo hi with
  | Ok set => field_ok raw ∧ ∀ x, fs_contains set x = true ↔ field_denotes raw x
  | Err e => (∃ reason, e = BadField index raw reason) ∧ ¬ field_ok raw
  end.
Proof.
  intros Hle Hhi. pose proof (parse_field_fold index raw (split_on "," raw) fs_empty Hle Hhi) as H.
  unfold parse_field. destruct (foldl _ _ _) as [set|e].
  - destruct H as [Hok Hset]. split; [done|]. intros x. rewrite Hset, fs_contains_empty.
    split; [by intros [?|?]|by right].
  - destruct H as (He & t & Hin & Hno). split; [done|]. intros Hok.
    destruct (Hok t Hin) as (v & w & step & Hs). by apply Hno in Hs.
Qed.

Lemma field_denotes_range raw x : (lo ≤ hi)%N → field_denotes raw x → (lo ≤ x ≤ hi)%N.
Proof.
  intros Hle (t & v & w & step & _ & Hs & [? _]).
  destruct (spelled_token_bounds _ _ _ _ Hle Hs). lia.
Qed.
End Grammar.

(** ** Expressions *)

(** The ranges of the five fields. *)
Definition field_ranges : list (N * N) := [(0, 59); (0, 23); (1, 31); (1, 12); (0, 7)]%N.

Definition expr_ok (fields : list string) : Prop :=
  Forall2 (λ f r, field_ok r.1 r.2 f) fields field_ranges.

(** The instants that an expression denotes; the last field is cyclic. *)
Definition expr_denotes `{LocalClock} (fields : list string) (now : Z) : Prop :=
  let local := with_timezone_local now in
  match fields with
  | [f0; f1; f2; f3; f4] =>
      field_denotes 0 59 f0 (lt_minute local) ∧ field_denotes 0 23 f1 (lt_hour local) ∧
      field_denotes 1 31 f2 (lt_day local) ∧ field_denotes 1 12 f3 (lt_month local) ∧
      (field_denotes 0 7 f4 (num_days_from_sunday local) ∨
       num_days_from_sunday local = 0%N ∧ field_denotes 0 7 f4 7)
  | _ => False
  end.

(** The field [f] at hand is the first that is refused. *)
Ltac refused_field H :=
  destruct H as [[? ->] ?]; simpl; eexists _, (_, _);
  refine (conj eq_refl (conj eq_refl (conj eq_refl (conj _ _))));
  [done|intros [|[|[|[|[|?]]]]] ? ? ? ? ?; simplify_eq/=; done || lia].

(** A cron expression is accepted exactly if it has five fields of the
    grammar in range; the set bits then match the local wall clock exactly at
    the instants that the fields denote, and a refusal names the first field
    that is not of the grammar. *)
Theorem cron_exact `{LocalClock} expr now :
  let fields := split_whitespace expr in
  match cron_parse expr with
  | Ok c => expr_ok fields ∧ (cron_matches c now = true ↔ expr_denotes fields now)
  | Err (WrongArity n) => n = length fields ∧ n ≠ 5
  | Err (BadField i raw _) =>
      ∃ f r, fields !! i = Some f ∧ raw = f ∧ field_ranges !! i = Some r ∧
        ¬ field_ok r.1 r.2 f ∧
        ∀ j f' r', j < i → fields !! j = Some f' → field_ranges !! j = Some r' →
          field_ok r'.1 r'.2 f'
  end.
Proof.
  unfold cron_parse, expr_ok, expr_denotes. simpl.
  destruct (split_whitespace expr) as [|f0 [|f1 [|f2 [|f3 [|f4 [|? ?]]]]]];
    try (split; simpl; lia).
  pose proof (parse_field_exact 0 59 0 f0 ltac:(done) ltac:(done)) as H0.
  pose proof (parse_field_exact 0 23 1 f1 ltac:(done) ltac:(done)) as H1.
  pose proof (parse_field_exact 1 31 2 f2 ltac:(done) ltac:(done)) as H2.
  pose proof (parse_field_exact 1 12 3 f3 ltac:(done) ltac:(done)) as H3.
  pose proof (parse_field_exact 0 7 4 f4 ltac:(done) ltac:(done)) as H4.
  destruct (parse_field f0 0 0 59) as [s0|e0]; [destruct H0 as [? H0]|refused_field H0].
  destruct (parse_field f1 1 0 23) as [s1|e1]; [destruct H1 as [? H1]|refused_field H1].
  destruct (parse_field f2 2 1 31) as [s2|e2]; [destruct H2 as [? H2]|refused_field H2].
  destruct (parse_field f3 3 1 12) as [s3|e3]; [destruct H3 as [? H3]|refused_field H3].
  destruct (parse_field f4 4 0 7) as [s4|e4]; [destruct H4 as [? H4]|refused_field H4].
  simpl. split; [by repeat constructor|]. unfold cron_matches. simpl.
  rewrite !andb_true_iff, orb_true_iff, andb_true_iff, bool_decide_eq_true.
  rewrite H0, H1, H2, H3, !H4. tauto.
Qed.

(** ** A concrete expression *)

Section Examples.

(** Every quarter of an hour from nine to five, on working days. *)
Definition working_hours : string := "*/15  9-17 * * 1-5".

(** Wall clocks written as numbers: month, day, day of week, hour, minute. *)
#[local] Instance digits_clock : LocalClock := λ t,
  LocalTime (Z.to_N (t mod 100)) (Z.to_N (t / 100 mod 100)) (Z.to_N (t / 100000 mod 100))
    (Z.to_N (t / 10000000 mod 100)) (Z.to_N (t / 10000 mod 10)).

Definition cron_at (expr : string) (now : Z) : option bool :=
  match cron_parse expr with Ok c => Some (cron_matches c now) | Err _ => None end.

Example working_hours_ok :
  cron_at working_hours 041530945 = Some true ∧ cron_at working_hours 041530946 = Some false ∧
  cron_at working_hours 041830945 = Some true ∧ cron_at working_hours 041900945 = Some false ∧
  cron_at "0 9 * * 7" 041900900 = Some true ∧
  cron_parse "0 24 * * *" = Err (BadField 1 "24" "value 24 out of range 0..=23") ∧
  cron_parse "*/0 * * * *" = Err (BadField 0 "*/0" "step must be >= 1, got '0'") ∧
  cron_parse "* * * *" = Err (WrongArity 4).
Proof. split_and!; by vm_compute. Qed.
End Examples.
