(* ===== verification/Scheduler.v ===== *)
(** The patrol scheduler: [crates/cosmon-scheduler/src]. One run of
    [cosmon-scheduler tick] loads the configuration and the persisted state,
    decides for every patrol ([tick.rs]), acts on the decisions ([main.rs],
    [dispatch.rs]) and saves the state ([state.rs]). Reads of the outside world
    and the outcomes of processes are the record [world]. *)
From Stdlib Require Import Ascii SpecFloat.
From S2P Require Import Prelude Text Cron.
From stdpp Require Import prelude strings list pretty gmap sorting.

(** ** Configuration ([config.rs]) *)

(** [f64], as IEEE 754 binary64. *)
Definition f64 : Type := spec_float.
Definition f64_of_usize (n : nat) : f64 := binary_normalize 53 1024 (Z.of_nat n) 0 false.
Definition f64_add (x y : f64) : f64 := SFadd 53 1024 x y.
Definition f64_sub (x y : f64) : f64 := SFsub 53 1024 x y.
Definition f64_mul (x y : f64) : f64 := SFmul 53 1024 x y.
Definition f64_div (x y : f64) : f64 := SFdiv 53 1024 x y.
Definition f64_sqrt (x : f64) : f64 := SFsqrt 53 1024 x.
Definition f64_lt (x y : f64) : bool := SFltb x y.

Inductive sunset_strategy := VarianceThreshold | SampleCount | OperatorTriggerOnly.

Record sunset := Sunset {
  strategy : sunset_strategy;
  sample_file : option string;
  min_samples : option N;
  variance_threshold : option f64;
  window : option N;
  trigger_file : option string;
  launchctl_plist : option string;
  on_sunset : list string;
}.

(** [Patrol]; the working directory, the environment and the timeout are read
    by the spawned process only. *)
Record patrol := Patrol {
  name : string;
  interval_seconds : option N;
  cron : option string;
  command : list string;
  kill_switch : option string;
  log_file : option string;
  dispatch : string;
  require_env : list string;
  enabled : bool;
  p_sunset : option sunset;
}.

Record scheduler_config := SchedulerConfig {
  state_file : string;
  sc_log_file : string;
  sc_kill_switch : string;
  tick_interval_seconds : N;
}.

Record config := Config { scheduler : scheduler_config; patrols : list patrol }.

Definition validate_cadence (p : patrol) : result string () :=
  match interval_seconds p, cron p with
  | Some _, Some _ => Err "both `interval_seconds` and `cron` set (XOR)"
  | None, None => Err "neither `interval_seconds` nor `cron` set"
  | _, _ => Ok ()
  end.

Definition sunset_validate (s : sunset) : list string :=
  match min_samples s with
  | Some n =>
      if decide (n < 1)%N then ["min_samples must be >= 1 (got " +:+ pretty n +:+ ")"] else []
  | None => []
  end ++
  match strategy s with
  | VarianceThreshold =>
      if decide (sample_file s = None)
      then ["strategy 'variance-threshold' requires `sample_file`"] else []
  | SampleCount =>
      (if decide (sample_file s = None)
       then ["strategy 'sample-count' requires `sample_file`"] else []) ++
      (if decide (min_samples s = None)
       then ["strategy 'sample-count' requires `min_samples`"] else [])
  | OperatorTriggerOnly => []
  end.

Definition at_patrol (idx : nat) (p : patrol) (e : string) : string :=
  "patrol[" +:+ pretty (N.of_nat idx) +:+ "] '" +:+ name p +:+ "': " +:+ e.

(** The errors of one patrol, and the names seen so far. *)
Definition patrol_errors (seen : gset string) (idx : nat) (p : patrol) : list string :=
  (if decide (name p ∈ seen) then [at_patrol idx p "duplicate name"] else []) ++
  (match validate_cadence p with Err e => [at_patrol idx p e] | Ok _ => [] end) ++
  (if decide (command p = []) then [at_patrol idx p "command must have at least one element"]
   else []) ++
  (match p_sunset p with
   | Some s => map (λ e, at_patrol idx p ("sunset: " +:+ e)) (sunset_validate s)
   | None => []
   end).

Fixpoint config_errors (seen : gset string) (idx : nat) (ps : list patrol) : list string :=
  match ps with
  | [] => []
  | p :: rest => patrol_errors seen idx p ++ config_errors ({[name p]} ∪ seen) (S idx) rest
  end.

(** [Config::validate]; the source joins the errors with newlines. *)
Definition config_validate (cfg : config) : result (list string) () :=
  match config_errors ∅ 0 (patrols cfg) with [] => Ok () | errors => Err errors end.

(** ** State ([state.rs]) *)

Record patrol_state := PatrolState {
  last_fired_at : option Z;
  last_exit_code : option Z;
  last_pid : option N;
  fire_count : N;
  sunset_decided_at : option Z;
}.

Definition patrol_state_default : patrol_state := PatrolState None None None 0 None.

Record scheduler_state := SchedulerState {
  version : N;
  state_patrols : gmap string patrol_state;
}.

(** The derived default: the version is that of [u32]. *)
Definition state_default : scheduler_state := SchedulerState 0 ∅.

(** The state file: absent, unreadable or malformed, or a state. *)
Inductive state_on_disk := Missing | Malformed | Stored (s : scheduler_state).

Definition load_or_default (file : state_on_disk) : option scheduler_state :=
  match file with Missing => Some state_default | Malformed => None | Stored s => Some s end.

(** [state.patrol_mut(name)], modified by [f]. *)
Definition patrol_mut (f : patrol_state → patrol_state) (n : string) (s : scheduler_state) :
    scheduler_state :=
  SchedulerState (version s)
    (<[n := f (default patrol_state_default (state_patrols s !! n))]> (state_patrols s)).

(** ** Decisions ([decision.rs]) *)

(** The parts of the text that announces a sunset. *)
Inductive sunset_reason :=
| VarianceConverged (threshold : f64) (window samples : nat)
| SampleCountReached (have target : N)
| TriggerFilePresent (path : option string).

Inductive decision :=
| WouldFire
| WouldSkip (reason : string)
| WouldSunset (reason : sunset_reason)
| Invalid (reason : string).

(** What a tick reads of its environment. [read_samples] is the list of the
    parsed rows of a sample file, empty if it cannot be read. *)
Class Environment := {
  path_exists : string → bool;
  env_var_set : string → bool;
  read_samples : string → list f64;
}.

(** ** Convergence ([convergence.rs]) *)

Definition f64_sum (l : list f64) : f64 := foldl f64_add (S754_zero false) l.

Definition rolling_stdev (window : nat) (values : list f64) : option f64 :=
  if decide (window < 2 ∨ length values < window) then None else
  let tail := drop (length values - window) values in
  let n := f64_of_usize window in
  let mean := f64_div (f64_sum tail) n in
  let sum_sq := f64_sum (map (λ v, f64_mul (f64_sub v mean) (f64_sub v mean)) tail) in
  let variance := f64_div sum_sq (f64_sub n (f64_of_usize 1)) in
  Some (f64_sqrt variance).

Definition sample_count_predicate (samples target : N) : bool := bool_decide (target ≤ samples)%N.

Definition operator_trigger_predicate `{Environment} (trigger_path : option string) : bool :=
  match trigger_path with Some path => path_exists path | None => false end.

Definition variance_threshold_predicate (window : nat) (min_samples : N) (threshold : f64)
    (values : list f64) : bool :=
  sample_count_predicate (N.of_nat (length values)) min_samples &&
  match rolling_stdev window values with
  | Some sigma => f64_lt (f64_mul sigma sigma) threshold
  | None => false
  end.

(** ** Tick ([tick.rs]) *)

Section Tick.
Context `{LocalClock, Environment}.

Definition sunset_gate (s : sunset) : option decision :=
  match strategy s with
  | VarianceThreshold =>
      file ← sample_file s;
      let values := read_samples file in
      threshold ← variance_threshold s;
      window ← N.to_nat <$> window s;
      if variance_threshold_predicate window (default 0%N (min_samples s)) threshold values
      then Some (WouldSunset (VarianceConverged threshold window (length values))) else None
  | SampleCount =>
      file ← sample_file s;
      let values := read_samples file in
      target ← min_samples s;
      let have := N.of_nat (length values) in
      if sample_count_predicate have target
      then Some (WouldSunset (SampleCountReached have target)) else None
  | OperatorTriggerOnly =>
      if operator_trigger_predicate (trigger_file s)
      then Some (WouldSunset (TriggerFilePresent (trigger_file s))) else None
  end.

Definition last_fire (prior : option patrol_state) : option Z := prior ≫= last_fired_at.

Definition interval_gate (interval_seconds : N) (now : Z) (prior : option patrol_state) :
    decision :=
  match last_fire prior with
  | None => WouldFire
  | Some last =>
      let elapsed_i64 := num_seconds (now - last) in
      if decide (elapsed_i64 < 0)%Z then WouldFire else
      let elapsed := Z.to_N elapsed_i64 in
      if decide (interval_seconds ≤ elapsed)%N then WouldFire
      else WouldSkip ("not due yet; " +:+ pretty (interval_seconds - elapsed)%N +:+
             "s until next fire")
  end.

(** Seconds and nanoseconds are cleared. *)
Definition floor_minute (t : Z) : Z := t - t mod 60000000000.

Definition cron_error_text (e : cron_error) : string :=
  match e with
  | WrongArity n => "cron expression must have 5 fields, got " +:+ pretty (N.of_nat n)
  | BadField i raw reason =>
      "cron field #" +:+ pretty (N.of_nat i) +:+ " '" +:+ raw +:+ "' invalid: " +:+ reason
  end.

Definition cron_gate (expr : string) (now : Z) (prior : option patrol_state) : decision :=
  match cron_parse expr with
  | Err e => Invalid ("cron parse error: " +:+ cron_error_text e)
  | Ok parsed =>
      if negb (cron_matches parsed now) then
        WouldSkip "not due yet (cron does not match this minute)"
      else match last_fire prior with
           | Some last =>
               if decide (floor_minute now ≤ floor_minute last)%Z
               then WouldSkip "already fired this minute" else WouldFire
           | None => WouldFire
           end
  end.

Definition cadence_gate (p : patrol) (now : Z) (prior : option patrol_state) : decision :=
  match interval_seconds p, cron p with
  | Some secs, _ => interval_gate secs now prior
  | None, Some expr => cron_gate expr now prior
  | None, None => Invalid "no cadence after validation"
  end.

(** The first required variable that is not set. *)
Definition missing_env (p : patrol) : option string :=
  snd <$> list_find (λ var, env_var_set var = false) (require_env p).

Definition evaluate_one (p : patrol) (global_kill : bool) (now : Z)
    (prior : option patrol_state) : decision :=
  match validate_cadence p with
  | Err reason => Invalid reason
  | Ok _ =>
      if negb (enabled p) then WouldSkip "disabled" else
      if is_some (prior ≫= sunset_decided_at) then WouldSkip "already sunsetted" else
      if global_kill then WouldSkip "global kill-switch present" else
      if match kill_switch p with Some ks => path_exists ks | None => false end
      then WouldSkip "kill-switch present" else
      match missing_env p with
      | Some var => WouldSkip ("required env var " +:+ var +:+ " unset")
      | None =>
          match p_sunset p ≫= sunset_gate with
          | Some d => d
          | None => cadence_gate p now prior
          end
      end
  end.

Definition tick (cfg : config) (now : Z) (state : scheduler_state) : list (string * decision) :=
  let global_kill := path_exists (sc_kill_switch (scheduler cfg)) in
  map (λ p, (name p, evaluate_one p global_kill now (state_patrols state !! name p)))
    (patrols cfg).
End Tick.

(** ** Dispatch and sunset actions ([dispatch.rs], [hooks.rs]) *)

Record dispatch_outcome := DispatchOutcome { pid : option N; exit_code : option Z }.

Inductive dispatch_error :=
| EmptyCommand (name : string)
| Spawn (name : string)
| LogOpen (name path : string)
| Wait (name : string)
| UnknownMode (name mode : string).

Inductive hook_status := Ran | Failed | Skipped | Unknown.
Record hook_outcome := HookOutcome {
  hook_name : string;
  hook_error : option string;
  status : hook_status;
}.

Record sunset_outcome := SunsetOutcome {
  plist : option string;
  unload_error : option string;
}.

(** The outside of one run: the two readings of the clock, and whether files
    and processes answer. *)
Record world := World {
  env : Environment;
  tick_now : Z;
  run_now : Z;
  log_opens : string → bool;
  spawns : patrol → option N;
  waits : N → option (option Z);
  launchctl_unload : string → option string;
  notify_telegram : string → hook_outcome;
  write_chronicle_stub : string → hook_outcome;
  save_succeeds : bool;
}.

Section Run.
Context `{LocalClock} (w : world).

Definition spawn_detached (p : patrol) : result dispatch_error dispatch_outcome :=
  match spawns w p with
  | Some pid => Ok (DispatchOutcome (Some pid) None)
  | None => Err (Spawn (name p))
  end.

Definition spawn_and_wait (p : patrol) : result dispatch_error dispatch_outcome :=
  match spawns w p with
  | Some pid =>
      match waits w pid with
      | Some code => Ok (DispatchOutcome (Some pid) code)
      | None => Err (Wait (name p))
      end
  | None => Err (Spawn (name p))
  end.

(** [ProcessDispatcher::dispatch] *)
Definition process_dispatch (p : patrol) (sched : scheduler_config) :
    result dispatch_error dispatch_outcome :=
  if decide (command p = []) then Err (EmptyCommand (name p)) else
  let log_path := default (sc_log_file sched) (log_file p) in
  if negb (log_opens w log_path) then Err (LogOpen (name p) log_path) else
  if decide (dispatch p = "detached") then spawn_detached p else
  if decide (dispatch p = "wait") then spawn_and_wait p else
  Err (UnknownMode (name p) (dispatch p)).

Definition run_sunset_action (p : patrol) : sunset_outcome :=
  match p_sunset p ≫= launchctl_plist with
  | Some plist => SunsetOutcome (Some plist) (launchctl_unload w plist)
  | None => SunsetOutcome None None
  end.

Definition run_one_hook (hook patrol_name : string) : hook_outcome :=
  if decide (hook = "notify_telegram") then notify_telegram w patrol_name else
  if decide (hook = "write_chronicle_stub") then write_chronicle_stub w patrol_name else
  if decide (hook = "unload_launchd") then HookOutcome hook None Skipped else
  HookOutcome hook (Some ("unknown hook '" +:+ hook +:+ "'")) Unknown.

Definition run_sunset_hooks (p : patrol) : list hook_outcome :=
  match p_sunset p with
  | Some s => map (λ hook, run_one_hook hook (name p)) (on_sunset s)
  | None => []
  end.

(** ** One run ([main.rs]) *)

(** What a run does outside of its own memory, in order. *)
Inductive effect :=
| Dispatched (name : string) (r : result dispatch_error dispatch_outcome)
| Unloaded (name : string) (o : sunset_outcome)
| HookRan (name : string) (h : hook_outcome)
| SunsetUnloadFailed (name plist error : string)
| Sunsetted (name : string) (reason : sunset_reason)
| SunsetHookFailed (name hook error : string)
| Ticked (fired skipped : N).

(** The local variables of [run_tick], with the effects so far. *)
Record run_vars := RunVars {
  rs_state : scheduler_state;
  had_invalid : bool;
  patrols_fired : N;
  patrols_skipped : N;
  effects : list effect;
}.

Definition find_patrol (cfg : config) (n : string) : option patrol :=
  snd <$> list_find (λ p, name p = n) (patrols cfg).

Definition record_fire (n : string) (now : Z) (o : dispatch_outcome) :
    scheduler_state → scheduler_state :=
  patrol_mut (λ entry, PatrolState (Some now) (exit_code o) (pid o)
    (u64_max `min` (fire_count entry + 1)) (sunset_decided_at entry)) n.

Definition record_sunset (n : string) (now : Z) : scheduler_state → scheduler_state :=
  patrol_mut (λ entry,
    if decide (sunset_decided_at entry = None) then
      PatrolState (last_fired_at entry) (last_exit_code entry) (last_pid entry)
        (fire_count entry) (Some now)
    else entry) n.

Definition hook_failures (n : string) (h : hook_outcome) : list effect :=
  match status h with
  | Failed | Unknown =>
      [SunsetHookFailed n (hook_name h) (default "hook failed with no detail" (hook_error h))]
  | Ran | Skipped => []
  end.

Definition handle_sunset (cfg : config) (n : string) (reason : sunset_reason) (r : run_vars) :
    run_vars :=
  match find_patrol cfg n with
  | None => r
  | Some p =>
      let outcome := run_sunset_action p in
      let state := record_sunset n (run_now w) (rs_state r) in
      let hooks := run_sunset_hooks p in
      let failed :=
        match unload_error outcome with
        | Some err => [SunsetUnloadFailed n (default "" (plist outcome)) err]
        | None => []
        end in
      RunVars state (had_invalid r) (patrols_fired r) (patrols_skipped r)
        (effects r ++ Unloaded n outcome :: failed ++ Sunsetted n reason ::
          map (HookRan n) hooks ++ concat (map (hook_failures n) hooks))
  end.

(** One turn of the loop over the decisions. *)
Definition act (cfg : config) (r : run_vars) (nd : string * decision) : run_vars :=
  let '(n, d) := nd in
  match d with
  | WouldFire =>
      match find_patrol cfg n with
      | None => r
      | Some p =>
          match process_dispatch p (scheduler cfg) with
          | Ok outcome =>
              RunVars (record_fire n (run_now w) outcome (rs_state r)) (had_invalid r)
                (u32_max `min` (patrols_fired r + 1)) (patrols_skipped r)
                (effects r ++ [Dispatched n (Ok outcome)])
          | Err e =>
              RunVars (rs_state r) (had_invalid r) (patrols_fired r) (patrols_skipped r)
                (effects r ++ [Dispatched n (Err e)])
          end
      end
  | WouldSunset reason => handle_sunset cfg n reason r
  | WouldSkip _ =>
      RunVars (rs_state r) (had_invalid r) (patrols_fired r)
        (u32_max `min` (patrols_skipped r + 1)) (effects r)
  | Invalid _ =>
      RunVars (rs_state r) true (patrols_fired r)
        (u32_max `min` (patrols_skipped r + 1)) (effects r)
  end.

(** A run of [cosmon-scheduler tick] on a configuration that loads: its exit
    code, the state file it leaves and its effects. Saving writes a sibling
    and renames it, so that a failed save leaves the old file. *)
Definition run_tick (cfg : config) (dry_run : bool) (file : state_on_disk) :
    N * state_on_disk * list effect :=
  match load_or_default file with
  | None => (2%N, file, [])
  | Some state =>
      let decisions := @tick _ (env w) cfg (tick_now w) state in
      if dry_run then
        (if existsb (λ nd, match nd.2 with Invalid _ => true | _ => false end) decisions
         then 3%N else 0%N, file, [])
      else
        let r := foldl (act cfg) (RunVars state false 0 0 []) decisions in
        if negb (save_succeeds w) then (5%N, file, effects r)
        else (if had_invalid r then 3%N else 0%N, Stored (rs_state r),
              effects r ++ [Ticked (patrols_fired r) (patrols_skipped r)])
  end.
End Run.

(** ** Validation *)

Definition cadence_ok (p : patrol) : Prop :=
  (is_Some (interval_seconds p) ∧ cron p = None) ∨
  (interval_seconds p = None ∧ is_Some (cron p)).

Definition sunset_ok (s : sunset) : Prop :=
  (∀ n, min_samples s = Some n → (1 ≤ n)%N) ∧
  (strategy s ≠ OperatorTriggerOnly → is_Some (sample_file s)) ∧
  (strategy s = SampleCount → is_Some (min_samples s)).

Definition patrol_ok (p : patrol) : Prop :=
  cadence_ok p ∧ command p ≠ [] ∧ ∀ s, p_sunset p = Some s → sunset_ok s.

Lemma app_nil_iff {A} (l l' : list A) : l ++ l' = [] ↔ l = [] ∧ l' = [].
Proof. destruct l, l'; simpl; naive_solver. Qed.

Lemma validate_cadence_ok p : validate_cadence p = Ok () ↔ cadence_ok p.
Proof.
  unfold validate_cadence, cadence_ok.
  destruct (interval_seconds p) as [i|], (cron p) as [c|];
    (split; [intros Hv|intros [[[? ?] ?]|[? [? ?]]]]); try done; [left|right]; split; eauto.
Qed.

Lemma decide_nil {A} P `{Decision P} (x : A) : (if decide P then [x] else []) = [] ↔ ¬ P.
Proof. by case_decide; split. Qed.

Lemma sunset_validate_ok s : sunset_validate s = [] ↔ sunset_ok s.
Proof.
  unfold sunset_validate, sunset_ok. rewrite app_nil_iff.
  assert (match min_samples s with
    | Some n => if decide (n < 1)%N then ["min_samples must be >= 1 (got " +:+ pretty n +:+ ")"] else []
    | None => [] end = [] ↔ ∀ n, min_samples s = Some n → (1 ≤ n)%N) as ->.
  { destruct (min_samples s) as [n|]; [|split; done]. rewrite decide_nil. split.
    - intros Hn ? [= <-]. lia.
    - intros Hn. specialize (Hn n eq_refl). lia. }
  destruct (strategy s); rewrite ?app_nil_iff, ?decide_nil, <- ?not_eq_None_Some; intuition done.
Qed.

Lemma patrol_errors_ok seen idx p :
  patrol_errors seen idx p = [] ↔ (name p ∉ seen) ∧ patrol_ok p.
Proof.
  unfold patrol_errors, patrol_ok. rewrite !app_nil_iff, !decide_nil, <- validate_cadence_ok.
  destruct (validate_cadence p) as [[]|e]; [|intuition congruence].
  destruct (p_sunset p) as [s|].
  - split.
    + intros (? & _ & ? & Hs). split_and!; [done..|]. intros ? [= <-].
      apply sunset_validate_ok. by destruct (sunset_validate s).
    + intros (? & _ & ? & Hs). split_and!; [done..|].
      rewrite (proj2 (sunset_validate_ok s)); [done|by apply Hs].
  - intuition done.
Qed.

Lemma config_errors_ok seen idx ps :
  config_errors seen idx ps = [] ↔
    NoDup (map name ps) ∧ (∀ p, p ∈ ps → (name p ∉ seen) ∧ patrol_ok p).
Proof.
  revert seen idx. induction ps as [|p ps IH]; intros seen idx; simpl.
  - split; [|done]. intros _. split; [constructor|set_solver].
  - rewrite app_nil_iff, patrol_errors_ok, IH, NoDup_cons. split.
    + intros [[Hp Hok] [Hnd Hps]]. split_and!; [|done|].
      * intros (q & Hq & Hin)%list_elem_of_fmap. destruct (Hps q Hin) as [Hns _]. set_solver.
      * intros q [->|Hq]%elem_of_cons; [done|]. destruct (Hps q Hq). set_solver.
    + intros [[Hno Hnd] Hps]. split_and!; [apply Hps; by left|apply Hps; by left|done|].
      intros q Hq. destruct (Hps q ltac:(by right)) as [Hns Hok]. split; [|done].
      intros [Heq%elem_of_singleton|?]%elem_of_union; [|done].
      apply Hno, list_elem_of_fmap. eauto.
Qed.

(** ** Decisions *)

Section Decisions.
Context `{LocalClock}.
Implicit Types (prior : option patrol_state).

(** When the cadence of a patrol asks for a fire. A clock that moved back by a
    second or more counts as due. *)
Definition interval_due (secs : N) (now : Z) prior : Prop :=
  ∀ last, last_fire prior = Some last →
    (now - last ≤ - 1000000000)%Z ∨ secs = 0%N ∨ (Z.of_N secs * 1000000000 ≤ now - last)%Z.

Definition cron_due (expr : string) (now : Z) prior : Prop :=
  ∃ c, cron_parse expr = Ok c ∧ cron_matches c now = true ∧
    ∀ last, last_fire prior = Some last → (floor_minute last < floor_minute now)%Z.

Definition cadence_due (p : patrol) (now : Z) prior : Prop :=
  (∀ secs, interval_seconds p = Some secs → interval_due secs now prior) ∧
  (∀ expr, interval_seconds p = None → cron p = Some expr → cron_due expr now prior).

(** Nothing stands in the way of a patrol. *)
Definition unmuted (E : Environment) (p : patrol) (global_kill : bool) prior : Prop :=
  cadence_ok p ∧ enabled p = true ∧ prior ≫= sunset_decided_at = None ∧ global_kill = false ∧
  (∀ ks, kill_switch p = Some ks → path_exists ks = false) ∧
  (∀ var, var ∈ require_env p → env_var_set var = true).

Lemma interval_gate_fires secs now prior :
  interval_gate secs now prior = WouldFire ↔ interval_due secs now prior.
Proof.
  unfold interval_gate, interval_due. destruct (last_fire prior) as [last|]; [|by split].
  pose proof (num_seconds_neg (now - last)) as Hneg. case_decide as Hn.
  - split; [|done]. intros _ ? [= <-]. left. lia.
  - destruct (decide (secs = 0)%N) as [->|Hs].
    + rewrite decide_True by lia. split; [|done]. intros _ ? [= <-]. auto.
    + pose proof (num_seconds_ge (now - last) (Z.of_N secs) ltac:(lia)) as Hge.
      case_decide as Hd; (split; [|try done]).
      * intros _ ? [= <-]. right; right. lia.
      * done.
      * intros Hdue. destruct (Hdue last eq_refl) as [?|[?|?]]; lia.
Qed.

Lemma cron_gate_fires expr now prior : cron_gate expr now prior = WouldFire ↔ cron_due expr now prior.
Proof.
  unfold cron_gate, cron_due. destruct (cron_parse expr) as [c|e];
    [|split; [done|by intros (? & ? & _)]].
  destruct (cron_matches c now) eqn:Hm; simpl;
    [|split; [done|intros (? & [= <-] & ? & _); congruence]].
  destruct (last_fire prior) as [last|].
  - case_decide as Hl; (split; [|try done]).
    + done.
    + intros (? & _ & _ & Hlt). specialize (Hlt last eq_refl). lia.
    + intros _. exists c. split_and!; [done..|]. intros ? [= <-]. lia.
  - split; [|done]. intros _. by exists c.
Qed.

Lemma cadence_gate_fires p now prior :
  cadence_ok p → cadence_gate p now prior = WouldFire ↔ cadence_due p now prior.
Proof.
  unfold cadence_gate, cadence_due.
  intros [[[secs ->] ->]|[-> [expr ->]]].
  - rewrite interval_gate_fires. split; [|intros [Hi _]; by apply Hi].
    intros Hi. split; [by intros ? [= <-]|done].
  - rewrite cron_gate_fires. split; [|intros [_ Hc]; by apply Hc].
    intros Hc. split; [done|by intros ? _ [= <-]].
Qed.

Lemma cadence_gate_no_sunset p now prior r : cadence_gate p now prior ≠ WouldSunset r.
Proof.
  unfold cadence_gate, interval_gate, cron_gate. by repeat case_match.
Qed.

Lemma sunset_gate_sunsets (E : Environment) s d : sunset_gate s = Some d → ∃ r, d = WouldSunset r.
Proof.
  unfold sunset_gate. destruct (strategy s).
  - destruct (sample_file s); [|done]. simpl. destruct (variance_threshold s); [|done]. simpl.
    destruct (window s); [|done]. simpl. case_match; [|done]. intros [= <-]. eauto.
  - destruct (sample_file s); [|done]. simpl. destruct (min_samples s); [|done]. simpl.
    case_match; [|done]. intros [= <-]. eauto.
  - case_match; [|done]. intros [= <-]. eauto.
Qed.

Lemma missing_env_none (E : Environment) p :
  missing_env p = None ↔ ∀ var, var ∈ require_env p → env_var_set var = true.
Proof.
  unfold missing_env. rewrite fmap_None, list_find_None, Forall_forall.
  split; intros Hv var Hin; specialize (Hv var Hin); by destruct (env_var_set var).
Qed.

(** The gates before the sunset rule: past them, the rule and then the cadence
    decide. *)
Lemma evaluate_one_cases (E : Environment) p gk now prior :
  (unmuted E p gk prior ∧
     evaluate_one p gk now prior =
       match p_sunset p ≫= sunset_gate with Some d => d | None => cadence_gate p now prior end) ∨
  (¬ unmuted E p gk prior ∧
     ((∃ r, evaluate_one p gk now prior = WouldSkip r) ∨
      (∃ r, evaluate_one p gk now prior = Invalid r))).
Proof.
  unfold evaluate_one, unmuted. rewrite <- (validate_cadence_ok p).
  destruct (validate_cadence p) as [[]|e]; [|right; split; [by intros [? _]|eauto]].
  destruct (enabled p); simpl; [|right; split; [by intros (_ & ? & _)|eauto]].
  destruct (prior ≫= sunset_decided_at); simpl;
    [right; split; [by intros (_ & _ & ? & _)|eauto]|].
  destruct gk; [right; split; [by intros (_ & _ & _ & ? & _)|eauto]|].
  destruct (match kill_switch p with Some ks => path_exists ks | None => false end) eqn:Hk.
  - right. split; [|eauto]. intros (_ & _ & _ & _ & Hks & _).
    destruct (kill_switch p) as [ks|]; [|done]. by rewrite (Hks ks eq_refl) in Hk.
  - pose proof (missing_env_none E p) as Hm. destruct (missing_env p).
    + right. split; [|eauto]. intros (_ & _ & _ & _ & _ & Hv). by apply Hm in Hv.
    + left. split; [|done]. split_and!; [done..| |by apply Hm].
      intros ks Hks. by rewrite Hks in Hk.
Qed.

Lemma evaluate_one_fires (E : Environment) p gk now prior :
  evaluate_one p gk now prior = WouldFire ↔
    unmuted E p gk prior ∧ p_sunset p ≫= sunset_gate = None ∧ cadence_due p now prior.
Proof.
  destruct (evaluate_one_cases E p gk now prior) as [[Hu ->]|[Hu [[r ->]|[r ->]]]];
    [|by split; [|intros [? _]]..].
  rewrite <- cadence_gate_fires by apply Hu.
  destruct (p_sunset p ≫= sunset_gate) as [d|] eqn:Hs; [|tauto].
  apply bind_Some in Hs as (s & _ & [r ->]%sunset_gate_sunsets).
  split; [done|by intros (_ & ? & _)].
Qed.

Lemma evaluate_one_sunsets (E : Environment) p gk now prior r :
  evaluate_one p gk now prior = WouldSunset r ↔
    unmuted E p gk prior ∧ p_sunset p ≫= sunset_gate = Some (WouldSunset r).
Proof.
  destruct (evaluate_one_cases E p gk now prior) as [[Hu ->]|[Hu [[r' ->]|[r' ->]]]];
    [|by split; [|intros [? _]]..].
  destruct (p_sunset p ≫= sunset_gate) as [d|]; [split; [by intros ->|by intros [_ [= ->]]]|].
  split; [|by intros [_ ?]]. by intros ?%cadence_gate_no_sunset.
Qed.

(** A tick answers the patrols in order, and a patrol fires exactly if its
    cadence is well formed, nothing mutes it, no sunset rule has converged,
    and its interval or cron expression is due; it sunsets exactly if nothing
    mutes it and its rule has converged. *)
Theorem tick_exact (E : Environment) cfg now st :
  let gk := path_exists (sc_kill_switch (scheduler cfg)) in
  map fst (tick cfg now st) = map name (patrols cfg) ∧
  (∀ n, (n, WouldFire) ∈ tick cfg now st ↔
     ∃ p, p ∈ patrols cfg ∧ name p = n ∧ unmuted E p gk (state_patrols st !! n) ∧
       p_sunset p ≫= sunset_gate = None ∧ cadence_due p now (state_patrols st !! n)) ∧
  (∀ n r, (n, WouldSunset r) ∈ tick cfg now st ↔
     ∃ p, p ∈ patrols cfg ∧ name p = n ∧ unmuted E p gk (state_patrols st !! n) ∧
       p_sunset p ≫= sunset_gate = Some (WouldSunset r)).
Proof.
  simpl. unfold tick. split_and!.
  - rewrite <- list_fmap_compose. done.
  - intros n. rewrite list_elem_of_fmap. split.
    + intros (p & [= -> Hd] & Hp). symmetry in Hd. apply evaluate_one_fires in Hd. eauto.
    + intros (p & Hp & <- & Hd). exists p. split; [|done].
      by rewrite (proj2 (evaluate_one_fires _ _ _ _ _) Hd).
  - intros n r. rewrite list_elem_of_fmap. split.
    + intros (p & [= -> Hd] & Hp). symmetry in Hd. apply evaluate_one_sunsets in Hd. eauto.
    + intros (p & Hp & <- & Hd). exists p. split; [|done].
      by rewrite (proj2 (evaluate_one_sunsets _ _ _ _ _ _) Hd).
Qed.
End Decisions.

(** ** Runs *)

Section Runs.
Context `{LocalClock} (cfg : config).
Implicit Types (w : world) (file : state_on_disk).

(** The configuration passes [config_validate]. *)
Definition config_ok : Prop := NoDup (map name (patrols cfg)) ∧ ∀ p, p ∈ patrols cfg → patrol_ok p.

Lemma config_validate_ok : config_validate cfg = Ok () ↔ config_ok.
Proof.
  unfold config_validate, config_ok. pose proof (config_errors_ok ∅ 0 (patrols cfg)) as Hc.
  destruct (config_errors ∅ 0 (patrols cfg)) as [|e es].
  - split; [|done]. intros _. destruct (proj1 Hc eq_refl) as [? Hp]. split; [done|].
    intros p Hin. by apply Hp.
  - split; [done|]. intros [Hnd Hp]. exfalso. discriminate (proj2 Hc). split; [done|].
    intros p Hin. split; [set_solver|by apply Hp].
Qed.

(** The stored entry of a patrol. *)
Definition entry (n : string) file : option patrol_state :=
  match file with Stored s => state_patrols s !! n | _ => None end.

Definition run_effects w file : list effect := (run_tick w cfg false file).2.
Definition run_file w file : state_on_disk := (run_tick w cfg false file).1.2.

Lemma find_patrol_in p : config_ok → p ∈ patrols cfg → find_patrol cfg (name p) = Some p.
Proof.
  intros [Hnd _] Hp. unfold find_patrol.
  destruct (list_find_elem_of (λ q, name q = name p) (patrols cfg) p Hp eq_refl) as [[i q] Hq].
  rewrite Hq. simpl. f_equal. apply list_find_Some in Hq as (Hi & Hn & _).
  apply list_elem_of_lookup in Hp as [j Hj].
  assert (i = j) as ->; [|congruence].
  eapply (NoDup_lookup (map name (patrols cfg))); [done| |].
  - rewrite list_lookup_fmap, Hi. simpl. by rewrite Hn.
  - by rewrite list_lookup_fmap, Hj.
Qed.

Lemma lookup_patrol_mut f n m st :
  state_patrols (patrol_mut f n st) !! m =
    if decide (m = n) then Some (f (default patrol_state_default (state_patrols st !! n)))
    else state_patrols st !! m.
Proof.
  unfold patrol_mut. simpl. case_decide as Hm.
  - subst. by rewrite lookup_insert_eq.
  - by rewrite lookup_insert_ne.
Qed.

(** What a decision does to the entry of its patrol. *)
Definition entry_after w (p : patrol) (d : decision) (e : option patrol_state) :
    option patrol_state :=
  match d with
  | WouldFire =>
      match process_dispatch w p (scheduler cfg) with
      | Ok o => let s := default patrol_state_default e in
          Some (PatrolState (Some (run_now w)) (exit_code o) (pid o)
            (u64_max `min` (fire_count s + 1)) (sunset_decided_at s))
      | Err _ => e
      end
  | WouldSunset _ => let s := default patrol_state_default e in
      Some (if decide (sunset_decided_at s = None) then
        PatrolState (last_fired_at s) (last_exit_code s) (last_pid s) (fire_count s)
          (Some (run_now w)) else s)
  | WouldSkip _ | Invalid _ => e
  end.

Lemma act_entry w r p d m :
  config_ok → p ∈ patrols cfg →
  state_patrols (rs_state (act w cfg r (name p, d))) !! m =
    if decide (m = name p) then entry_after w p d (state_patrols (rs_state r) !! m)
    else state_patrols (rs_state r) !! m.
Proof.
  intros Hok Hp. unfold act, handle_sunset, entry_after.
  destruct d; rewrite ?(find_patrol_in _ Hok Hp); cbn [rs_state].
  - destruct (process_dispatch _ _ _); cbn [rs_state]; [|by case_decide].
    unfold record_fire. rewrite lookup_patrol_mut. case_decide; [by subst|done].
  - by case_decide.
  - unfold record_sunset. rewrite lookup_patrol_mut. case_decide; [by subst|done].
  - by case_decide.
Qed.

Lemma acts_entry w (decide_for : patrol → decision) ps r p :
  config_ok → (∀ q, q ∈ ps → q ∈ patrols cfg) → NoDup (map name ps) → p ∈ ps →
  state_patrols (rs_state (foldl (act w cfg) r (map (λ q, (name q, decide_for q)) ps))) !! name p
    = entry_after w p (decide_for p) (state_patrols (rs_state r) !! name p).
Proof.
  intros Hok. revert r. induction ps as [|q ps IH]; intros r Hin Hnd Hp; [by apply elem_of_nil in Hp|].
  cbn [map foldl] in *. apply NoDup_cons in Hnd as [Hno Hnd].
  assert (∀ q', q' ∈ ps → q' ∈ patrols cfg) as Hin' by (intros; apply Hin; by right).
  apply elem_of_cons in Hp as [->|Hp].
  - assert (∀ r, state_patrols (rs_state (foldl (act w cfg) r
      (map (λ q, (name q, decide_for q)) ps))) !! name q = state_patrols (rs_state r) !! name q)
      as Hrest.
    { clear IH r Hnd. induction ps as [|q' ps IHp]; intros r; [done|]. cbn [map foldl].
      rewrite IHp; [|set_solver..].
      rewrite act_entry; [|done|apply Hin'; by left].
      rewrite decide_False; [done|]. intros Heq. apply Hno. simpl. rewrite Heq. by left. }
    rewrite Hrest, act_entry by (done || (apply Hin; by left)). by rewrite decide_True.
  - rewrite IH by done. rewrite act_entry by (done || (apply Hin; by left)).
    rewrite decide_False; [done|]. intros Heq. apply Hno. rewrite <- Heq.
    apply list_elem_of_fmap. eauto.
Qed.

Lemma act_effects w r p d :
  config_ok → p ∈ patrols cfg → ∃ fx, effects (act w cfg r (name p, d)) = effects r ++ fx ∧
    (∀ n x, Dispatched n x ∈ fx ↔
      n = name p ∧ d = WouldFire ∧ process_dispatch w p (scheduler cfg) = x) ∧
    (∀ n o, Unloaded n o ∈ fx ↔
      n = name p ∧ (∃ why, d = WouldSunset why) ∧ o = run_sunset_action w p).
Proof.
  intros Hok Hp. unfold act, handle_sunset.
  destruct d as [|? |why|?]; rewrite ?(find_patrol_in _ Hok Hp); simpl.
  - destruct (process_dispatch _ _ _) as [o|e]; simpl; eexists; (split; [done|]);
      split; intros n o'; rewrite list_elem_of_singleton; split; naive_solver.
  - exists []. rewrite app_nil_r. split; [done|]. split; intros n o; rewrite elem_of_nil; naive_solver.
  - eexists. split; [done|].
    assert (∀ e hooks, e ∈ map (HookRan (name p)) hooks ++ concat (map (hook_failures (name p)) hooks) →
      (∀ n o, e ≠ Dispatched n o) ∧ ∀ n o, e ≠ Unloaded n o) as Hhooks.
    { intros e hooks [(h & -> & _)%list_elem_of_fmap|He]%elem_of_app; [done|].
      apply list_elem_of_In, in_concat in He as (fx & (h & <- & _)%in_map_iff & He).
      apply list_elem_of_In in He. unfold hook_failures in He.
      destruct (status h); try by apply elem_of_nil in He.
      all: by apply list_elem_of_singleton in He as ->. }
    split; intros n o; rewrite elem_of_cons, elem_of_app, elem_of_cons; split.
    + intros [?|[He|[?|He]]]; try done.
      * destruct (unload_error _); [|by apply elem_of_nil in He].
        by apply list_elem_of_singleton in He.
      * by destruct (proj1 (Hhooks _ _ He) n o eq_refl).
    + naive_solver.
    + intros [[= -> ->]|[He|[?|He]]]; [split_and!; eauto| |done|].
      * destruct (unload_error _); [|by apply elem_of_nil in He].
        by apply list_elem_of_singleton in He.
      * by destruct (proj2 (Hhooks _ _ He) n o eq_refl).
    + intros (-> & _ & ->). by left.
  - exists []. rewrite app_nil_r. split; [done|]. split; intros n o; rewrite elem_of_nil; naive_solver.
Qed.

Lemma acts_effects w (decide_for : patrol → decision) ps r :
  config_ok → (∀ q, q ∈ ps → q ∈ patrols cfg) →
  ∃ fx, effects (foldl (act w cfg) r (map (λ q, (name q, decide_for q)) ps)) = effects r ++ fx ∧
    (∀ n x, Dispatched n x ∈ fx ↔ ∃ p, p ∈ ps ∧ n = name p ∧ decide_for p = WouldFire ∧
      process_dispatch w p (scheduler cfg) = x) ∧
    (∀ n o, Unloaded n o ∈ fx ↔ ∃ p, p ∈ ps ∧ n = name p ∧
      (∃ why, decide_for p = WouldSunset why) ∧ o = run_sunset_action w p).
Proof.
  intros Hok. revert r. induction ps as [|q ps IH]; intros r Hin.
  - exists []. rewrite app_nil_r. split; [done|].
    split; intros; (split; [by intros ?%elem_of_nil|by intros (? & ?%elem_of_nil & _)]).
  - cbn [map foldl].
    destruct (act_effects w r q (decide_for q) Hok (Hin q ltac:(by left))) as (fx1 & E1 & D1 & U1).
    destruct (IH (act w cfg r (name q, decide_for q)) ltac:(intros; apply Hin; by right))
      as (fx2 & E2 & D2 & U2).
    exists (fx1 ++ fx2). rewrite E2, E1, <- app_assoc. split; [done|].
    split; intros n x; rewrite elem_of_app, ?D1, ?D2, ?U1, ?U2.
    + split.
      * intros [(? & ? & ?)|(p & ? & ?)]; [exists q|exists p]; (split; [by constructor|done]).
      * intros (p & [->|Hp]%elem_of_cons & ?); [by left|right; by exists p].
    + split.
      * intros [(? & ? & ?)|(p & ? & ?)]; [exists q|exists p]; (split; [by constructor|done]).
      * intros (p & [->|Hp]%elem_of_cons & ?); [by left|right; by exists p].
Qed.

(** What a run decides for a patrol. *)
Definition decision_of w (p : patrol) file : decision :=
  @evaluate_one _ (env w) p (@path_exists (env w) (sc_kill_switch (scheduler cfg))) (tick_now w)
    (entry (name p) file).

Lemma load_entry file st n : load_or_default file = Some st → state_patrols st !! n = entry n file.
Proof. destruct file; intros [= <-]; [apply lookup_empty|done]. Qed.

Lemma tick_decisions w file st :
  load_or_default file = Some st →
  @tick _ (env w) cfg (tick_now w) st = map (λ q, (name q, decision_of w q file)) (patrols cfg).
Proof.
  intros Hl. unfold tick, decision_of. apply map_ext. intros q. by rewrite (load_entry _ _ _ Hl).
Qed.

Lemma run_entry w file p :
  config_ok → p ∈ patrols cfg → file ≠ Malformed →
  entry (name p) (run_file w file) =
    if save_succeeds w then entry_after w p (decision_of w p file) (entry (name p) file)
    else entry (name p) file.
Proof.
  intros Hok Hp Hf. unfold run_file, run_tick.
  destruct (load_or_default file) as [st|] eqn:Hl; [|by destruct file].
  rewrite (tick_decisions _ _ _ Hl). destruct (save_succeeds w); [|done].
  cbn [negb fst snd entry]. rewrite (acts_entry w (λ q, decision_of w q file));
    [|done|done|apply Hok|done]. simpl. by rewrite (load_entry _ _ _ Hl).
Qed.

Lemma run_malformed w : run_file w Malformed = Malformed ∧ run_effects w Malformed = [].
Proof. done. Qed.

Lemma run_not_malformed w file : file ≠ Malformed → run_file w file ≠ Malformed.
Proof.
  intros Hf. unfold run_file, run_tick. destruct (load_or_default file); [|by destruct file].
  by destruct (save_succeeds w).
Qed.

Lemma run_effects_spec w file p :
  config_ok → p ∈ patrols cfg →
  (∀ x, Dispatched (name p) x ∈ run_effects w file →
     file ≠ Malformed ∧ decision_of w p file = WouldFire ∧
     process_dispatch w p (scheduler cfg) = x) ∧
  (∀ o, Unloaded (name p) o ∈ run_effects w file →
     file ≠ Malformed ∧ ∃ why, decision_of w p file = WouldSunset why).
Proof.
  intros Hok Hp. unfold run_effects, run_tick.
  destruct (load_or_default file) as [st|] eqn:Hl;
    [|cbn [snd]; split; intros ? Hin; by apply elem_of_nil in Hin].
  assert (file ≠ Malformed) as Hf by (by destruct file). rewrite (tick_decisions _ _ _ Hl).
  destruct (acts_effects w (λ q, decision_of w q file) (patrols cfg) (RunVars st false 0 0 []))
    as (fx & Hfx & Hd & Hu); [done..|].
  assert (∀ q, q ∈ patrols cfg → name p = name q → q = p) as Hinj.
  { intros q Hq Hn. pose proof (find_patrol_in p Hok Hp) as E1.
    rewrite Hn, (find_patrol_in q Hok Hq) in E1. congruence. }
  assert (∀ e, (∀ f s, e ≠ Ticked f s) →
    e ∈ (if negb (save_succeeds w) then effects (foldl (act w cfg) (RunVars st false 0 0 [])
           (map (λ q, (name q, decision_of w q file)) (patrols cfg)))
         else effects (foldl (act w cfg) (RunVars st false 0 0 [])
           (map (λ q, (name q, decision_of w q file)) (patrols cfg))) ++
           [Ticked (patrols_fired (foldl (act w cfg) (RunVars st false 0 0 [])
              (map (λ q, (name q, decision_of w q file)) (patrols cfg))))
              (patrols_skipped (foldl (act w cfg) (RunVars st false 0 0 [])
              (map (λ q, (name q, decision_of w q file)) (patrols cfg))))]) → e ∈ fx) as Hfx'.
  { intros e Hne. rewrite Hfx. simpl. destruct (negb _); [done|].
    intros [?|He%list_elem_of_singleton]%elem_of_app; [done|]. by destruct (Hne _ _ He). }
  split.
  - intros x Hin. assert (Dispatched (name p) x ∈ fx) as (q & Hq & Hn & Hx)%Hd.
    { apply Hfx'; [done|]. by destruct (save_succeeds w). }
    by rewrite (Hinj q Hq Hn) in Hx.
  - intros o Hin. assert (Unloaded (name p) o ∈ fx) as (q & Hq & Hn & Hx & _)%Hu.
    { apply Hfx'; [done|]. by destruct (save_succeeds w). }
    by rewrite (Hinj q Hq Hn) in Hx.
Qed.

(** The state file after a sequence of runs. *)
Definition runs (ws : list world) file : state_on_disk := foldl (λ f w, run_file w f) file ws.

(** The clock of the runs does not move back. *)
Definition chronological (ws : list world) : Prop :=
  StronglySorted (λ a b, run_now a ≤ tick_now b)%Z ws ∧
  Forall (λ a, tick_now a ≤ run_now a)%Z ws.

Definition fired_between (lo hi : Z) (e : option patrol_state) : Prop :=
  ∃ last, last_fire e = Some last ∧ (lo ≤ last ≤ hi)%Z.

Definition sunsetted (e : option patrol_state) : Prop := is_Some (e ≫= sunset_decided_at).

Lemma entry_after_keeps w p d e lo hi :
  (lo ≤ run_now w ≤ hi)%Z → fired_between lo hi e → fired_between lo hi (entry_after w p d e).
Proof.
  intros Hw He. unfold entry_after. destruct d; [|done| |done].
  - destruct (process_dispatch _ _ _); [|done]. by eexists.
  - destruct He as (last & Hl & ?). exists last. split; [|done].
    destruct e as [s|]; [|done]. simpl. by case_decide.
Qed.

Lemma entry_after_sunsetted w p d e : sunsetted e → sunsetted (entry_after w p d e).
Proof.
  unfold sunsetted, entry_after. intros He. destruct d; [|done| |done].
  - destruct (process_dispatch _ _ _); [|done]. by destruct e.
  - destruct e as [s|]; [|by destruct He]. simpl. case_decide; [by eexists|done].
Qed.

Lemma runs_keep (P : option patrol_state → Prop) p ws file :
  config_ok → p ∈ patrols cfg →
  (∀ w d e, w ∈ ws → P e → P (entry_after w p d e)) →
  file ≠ Malformed → P (entry (name p) file) →
  runs ws file ≠ Malformed ∧ P (entry (name p) (runs ws file)).
Proof.
  intros Hok Hp. revert file. induction ws as [|w ws IH]; intros file Hstep Hf HP; [done|].
  apply IH; [intros; apply Hstep; [by right|done]|by apply run_not_malformed|].
  rewrite run_entry by done. destruct (save_succeeds w); [|done]. apply Hstep; [by left|done].
Qed.

(** Between two fires of a patrol, in whatever runs, at least its interval
    passes, and fires of a cron patrol are in distinct minutes, if the clock
    does not move back and the state was saved after the first. *)
Theorem fires_spaced p w1 ws w2 file o1 o2 :
  config_validate cfg = Ok () → p ∈ patrols cfg → chronological (w1 :: ws ++ [w2]) →
  save_succeeds w1 = true →
  Dispatched (name p) (Ok o1) ∈ run_effects w1 file →
  Dispatched (name p) o2 ∈ run_effects w2 (runs ws (run_file w1 file)) →
  (∀ secs, interval_seconds p = Some secs →
     (run_now w1 + Z.of_N secs * 1000000000 ≤ tick_now w2)%Z) ∧
  (∀ expr, cron p = Some expr → (floor_minute (run_now w1) < floor_minute (tick_now w2))%Z).
Proof.
  intros Hok%config_validate_ok Hp [Hsort Hclock] Hsave H1 H2.
  apply (run_effects_spec _ _ _ Hok Hp) in H1 as (Hf & Hd1 & Ho1).
  apply (run_effects_spec _ _ _ Hok Hp) in H2 as (_ & Hd2 & _).
  apply StronglySorted_inv in Hsort as [Hsort Hfirst].
  rewrite Forall_forall in Hfirst. rewrite Forall_forall in Hclock.
  assert (fired_between (run_now w1) (tick_now w2) (entry (name p) (runs ws (run_file w1 file))))
    as (last & Hlast & Hlo & Hhi).
  { apply runs_keep; [done|done| |by apply run_not_malformed|].
    - intros w d e Hw He. apply entry_after_keeps; [|done]. split.
      + pose proof (Hfirst w ltac:(apply elem_of_app; by left)).
        pose proof (Hclock w ltac:(right; apply elem_of_app; by left)). lia.
      + by apply (StronglySorted_app_1_elem_of _ _ _ w w2 Hsort); [|left].
    - rewrite run_entry, Hsave, Hd1 by done. simpl. rewrite Ho1. eexists. split; [done|].
      split; [lia|]. apply Hfirst, elem_of_app. right. by left. }
  apply evaluate_one_fires in Hd2 as (Hun & _ & Hint & Hcron). split.
  - intros secs Hs. destruct (Hint secs Hs last Hlast) as [?|[->|?]]; lia.
  - intros expr Hc. destruct Hun as ([[[? ?] Hc']|[Hi _]] & _); [congruence|].
    destruct (Hcron expr Hi Hc) as (c & _ & _ & Hlt). specialize (Hlt last Hlast).
    eapply Z.le_lt_trans; [|exact Hlt]. unfold floor_minute.
    pose proof (Z.div_le_mono (run_now w1) last 60000000000 ltac:(lia) Hlo).
    rewrite !Z.mod_eq by done. lia.
Qed.

(** Once a run has executed the sunset action of a patrol and saved the
    state, no later run fires the patrol or executes the action again. *)
Theorem sunset_once p w1 ws w2 file o :
  config_validate cfg = Ok () → p ∈ patrols cfg → save_succeeds w1 = true →
  Unloaded (name p) o ∈ run_effects w1 file →
  ∀ e, e ∈ run_effects w2 (runs ws (run_file w1 file)) →
    (∀ x, e ≠ Dispatched (name p) x) ∧ ∀ x, e ≠ Unloaded (name p) x.
Proof.
  intros Hok%config_validate_ok Hp Hsave H1.
  apply (run_effects_spec _ _ _ Hok Hp) in H1 as (Hf & why & Hd1).
  assert (sunsetted (entry (name p) (runs ws (run_file w1 file)))) as Hsun.
  { apply runs_keep; [done|done| |by apply run_not_malformed|].
    - intros w d e _. apply entry_after_sunsetted.
    - rewrite run_entry, Hsave, Hd1 by done. unfold sunsetted. simpl.
      case_decide as Hn; simpl; [by eexists|]. by apply not_eq_None_Some in Hn. }
  intros e He. split; intros x ->.
  - apply (run_effects_spec _ _ _ Hok Hp) in He as (_ & Hd & _).
    apply evaluate_one_fires in Hd as ((_ & _ & Hn & _) & _). destruct Hsun as [? Hs]. congruence.
  - apply (run_effects_spec _ _ _ Hok Hp) in He as (_ & why' & Hd).
    apply evaluate_one_sunsets in Hd as ((_ & _ & Hn & _) & _). destruct Hsun as [? Hs]. congruence.
Qed.

(** A configuration is accepted exactly if names are distinct, every
    patrol has one cadence, a command, and a sunset rule with the settings
    that its strategy needs. *)
Theorem config_validate_exact :
  config_validate cfg = Ok () ↔
  NoDup (map name (patrols cfg)) ∧
  ∀ p, p ∈ patrols cfg →
    (is_Some (interval_seconds p) ↔ cron p = None) ∧ command p ≠ [] ∧
    ∀ s, p_sunset p = Some s →
      (∀ n, min_samples s = Some n → (1 ≤ n)%N) ∧
      (strategy s ≠ OperatorTriggerOnly → is_Some (sample_file s)) ∧
      (strategy s = SampleCount → is_Some (min_samples s)).
Proof.
  rewrite config_validate_ok. unfold config_ok, patrol_ok, sunset_ok.
  split; intros [Hnd Hp]; (split; [done|]); intros p Hin; destruct (Hp p Hin) as (Hc & ? & ?);
    split_and!; try done.
  - destruct Hc as [[? ->]|[-> [? ->]]]; (split; [done|]); [done|]. by intros ?.
  - unfold cadence_ok. destruct (interval_seconds p), (cron p); [| | |]; simpl in *.
    + destruct Hc as [Hc _]. discriminate Hc. by eexists.
    + left. eauto.
    + right. eauto.
    + destruct Hc as [_ Hc]. by destruct (Hc eq_refl).
Qed.
End Runs.

(** ** Concrete runs *)

Section Examples.

Definition minute_ns : Z := 60000000000.

(** Every minute matches. *)
#[local] Instance any_clock : LocalClock := λ _, LocalTime 0 0 1 1 0.

Definition plain_patrol (n : string) (i : option N) (c : option string) (s : option sunset) :=
  Patrol n i c ["true"] None None "detached" [] true s.

Definition on_trigger : sunset :=
  Sunset OperatorTriggerOnly None None None None (Some "done") (Some "job.plist") ["page"].

Definition sample_config : config :=
  Config (SchedulerConfig "state" "log" "mute" 60)
    [plain_patrol "poll" (Some 90%N) None None;
     plain_patrol "each" None (Some "* * * * *") None;
     plain_patrol "watch" (Some 60%N) None (Some on_trigger)].

(** Processes start, commands succeed, and the only file is [done]. *)
Definition sample_world (t t' : Z) (save : bool) : world :=
  World {| path_exists f := bool_decide (f = "done"); env_var_set _ := false;
           read_samples _ := [] |}
    t t' (λ _, true) (λ _, Some 7%N) (λ _, Some (Some 0%Z)) (λ _, None)
    (λ n, HookOutcome n None Ran) (λ n, HookOutcome n None Ran) save.

(** The first run fires and sunsets; two minutes later the interval has passed
    and the third patrol is at rest. *)
Example first_two_runs :
  let fired := Ok (DispatchOutcome (Some 7%N) None) in
  run_effects sample_config (sample_world 0 5 true) Missing =
    [Dispatched "poll" fired; Dispatched "each" fired;
     Unloaded "watch" (SunsetOutcome (Some "job.plist") None);
     Sunsetted "watch" (TriggerFilePresent (Some "done"));
     HookRan "watch" (HookOutcome "page" (Some "unknown hook 'page'") Unknown);
     SunsetHookFailed "watch" "page" "unknown hook 'page'"; Ticked 2 0] ∧
  run_effects sample_config (sample_world (2 * minute_ns) (2 * minute_ns) true)
    (run_file sample_config (sample_world 0 5 true) Missing) =
    [Dispatched "poll" fired; Dispatched "each" fired; Ticked 2 1].
Proof. split; by vm_compute. Qed.

(** A run that starts at the end of a minute and records its fires in the next
    one takes the fire of the next minute away. *)
Example straddling_run_skips_minute :
  let w1 := sample_world (minute_ns - 1) minute_ns true in
  let w2 := sample_world (minute_ns + 30000000000) (minute_ns + 30000000000) true in
  Dispatched "each" (Ok (DispatchOutcome (Some 7%N) None)) ∈ run_effects sample_config w1 Missing ∧
  ∀ x, Dispatched "each" x ∉ run_effects sample_config w2 (run_file sample_config w1 Missing).
Proof.
  split; [vm_compute; right; left|].
  intros x Hx. vm_compute in Hx. repeat (apply elem_of_cons in Hx as [Hx|Hx]; [discriminate|]).
  by apply elem_of_nil in Hx.
Qed.

(** The mark of a sunset is only on disk after the save at the end of the run:
    if that fails, the next run executes the action again. *)
Example unsaved_sunset_repeats :
  let w1 := sample_world 0 0 false in
  let again := Unloaded "watch" (SunsetOutcome (Some "job.plist") None) in
  again ∈ run_effects sample_config w1 Missing ∧
  (run_tick w1 sample_config false Missing).1.1 = 5%N ∧
  again ∈ run_effects sample_config w1 (run_file sample_config w1 Missing).
Proof.
  split_and!; [|by vm_compute|]; vm_compute.
  - right. right. by left.
  - right. right. by left.
Qed.

Lemma sample_chronological :
  chronological [sample_world 0 5 true; sample_world 60 60 true; sample_world (2 * minute_ns) (2 * minute_ns) true].
Proof. split; repeat constructor; vm_compute; discriminate. Qed.

Lemma fires_spaced_witness :
  config_validate sample_config = Ok () ∧ (5 + 90 * 1000000000 ≤ 2 * minute_ns)%Z.
Proof.
  split; [by vm_compute|].
  refine (proj1 (fires_spaced sample_config (plain_patrol "poll" (Some 90%N) None None)
    (sample_world 0 5 true) [sample_world 60 60 true]
    (sample_world (2 * minute_ns) (2 * minute_ns) true) Missing
    (DispatchOutcome (Some 7%N) None) (Ok (DispatchOutcome (Some 7%N) None)) _ _ _ _ _ _) 90%N _).
  - by vm_compute.
  - left.
  - apply sample_chronological.
  - done.
  - vm_compute. left.
  - vm_compute. left.
  - done.
Defined.

Lemma sunset_once_witness :
  Ticked 0 3 ∈ run_effects sample_config (sample_world 60 60 true)
    (run_file sample_config (sample_world 0 5 true) Missing) ∧
  Ticked 0 3 ≠ Unloaded "watch" (SunsetOutcome (Some "job.plist") None).
Proof.
  assert (Ticked 0 3 ∈ run_effects sample_config (sample_world 60 60 true)
    (run_file sample_config (sample_world 0 5 true) Missing)) as Hin
    by (vm_compute; left).
  split; [exact Hin|].
  refine (proj2 (sunset_once sample_config
    (plain_patrol "watch" (Some 60%N) None (Some on_trigger))
    (sample_world 0 5 true) [] (sample_world 60 60 true) Missing
    (SunsetOutcome (Some "job.plist") None) _ _ _ _ _ Hin) _).
  - by vm_compute.
  - right. right. left.
  - done.
  - vm_compute. right. right. left.
Defined.
End Examples.
