(* ===== verification/Journal.v ===== *)
(** The JSON-lines event log: [crates/cosmon-filestore/src/event.rs]. A file is
    absent or the text of its bytes; reads and writes of the file system
    succeed. The JSON of an envelope and the canonical hash are the interface
    [EventCodec]. *)
From Stdlib Require Import Ascii.
From S2P Require Import Prelude Text.
From stdpp Require Import prelude pretty countable strings list.

(** ** Envelopes *)

(** [Envelope]; the timestamp, the schema version and the event are the body. *)
Record envelope (B : Type) := Envelope {
  prev_hash : option string;
  hash : option string;
  body : B;
}.
Arguments Envelope {B} _ _ _.
Arguments prev_hash {B} _.
Arguments hash {B} _.
Arguments body {B} _.

(** What the log relies on: a printed envelope is one line that is not blank
    and reads back. [digest] is [hash_value] of the payload, which has no
    [hash]; [v2_seq] and [v2_line] read a line of the newer schema. *)
Class EventCodec (B : Type) := {
  from_str : string → option (envelope B);
  to_line : envelope B → string;
  digest : option string * B → option string;
  v2_seq : string → option N;
  v2_line : string → bool;
  from_str_to_line e : from_str (to_line e) = Some e;
  to_line_single e : contains_char nl_char (to_line e) = false;
  to_line_end e : ends_with_char cr_char (to_line e) = false;
  to_line_trim e : trim (to_line e) ≠ EmptyString;
}.

(** [CosmonError], as far as the log raises it. *)
Inductive cosmon_error := CanonicalHash | Json.

Inductive divergence_reason :=
| PrevHashMismatch (expected actual : option string)
| HashMismatch (stored recomputed : string)
| MissingHash
| SeqRegression (expected_gt found : N)
| SeqGap (expected found : N).

Record chain_divergence := ChainDivergence { index : nat; reason : divergence_reason }.

Inductive verify_outcome :=
| Verified (count : nat)
| UnsignedLegacy (count : nat)
| Diverged (d : chain_divergence).

Section Log.
Context {B : Type} `{EventCodec B}.
Implicit Types (file : option string).

(** [Envelope::hash_payload] *)
Definition hash_payload (e : envelope B) : option string * B := (prev_hash e, body e).

Definition tail_hash (file : option string) : option string :=
  content ← file;
  last ← head (filter (λ l, l ≠ EmptyString) (reverse (lines content)));
  e ← from_str last;
  hash e.

Definition append (file : option string) (e : envelope B) : result cosmon_error string :=
  let sealed := Envelope (tail_hash file) None (body e) in
  match digest (hash_payload sealed) with
  | None => Err CanonicalHash
  | Some h =>
      let sealed := Envelope (prev_hash sealed) (Some h) (body sealed) in
      Ok (default EmptyString file +:+ (to_line sealed +:+ nl))
  end.

(** The walk of [verify_legacy_hash_chain]: the first divergence. *)
Fixpoint hash_walk (idx : nat) (prev : option string) (entries : list (envelope B)) :
    result cosmon_error (option chain_divergence) :=
  match entries with
  | [] => Ok None
  | env :: rest =>
      match hash env with
      | None => Ok (Some (ChainDivergence idx MissingHash))
      | Some stored =>
          if decide (prev_hash env ≠ prev) then
            Ok (Some (ChainDivergence idx (PrevHashMismatch (prev_hash env) prev)))
          else match digest (hash_payload env) with
               | None => Err CanonicalHash
               | Some recomputed =>
                   if decide (recomputed ≠ stored) then
                     Ok (Some (ChainDivergence idx (HashMismatch stored recomputed)))
                   else hash_walk (S idx) (Some stored) rest
               end
      end
  end.

Definition verify_legacy_hash_chain (entries : list (envelope B)) :
    result cosmon_error verify_outcome :=
  if decide (filter (λ e, is_some (hash e)) entries = []) then
    Ok (UnsignedLegacy (length entries))
  else
    d ← hash_walk 0 None entries;
    match d with
    | None => Ok (Verified (length entries))
    | Some d => Ok (Diverged d)
    end.

(** The walk of [verify_eventv2_seq_chain]. *)
Fixpoint seq_walk (idx : nat) (prev_seq : option N) (ls : list string) :
    result cosmon_error (option chain_divergence) :=
  match ls with
  | [] => Ok None
  | line :: rest =>
      match v2_seq line with
      | Some seq =>
          let expected := match prev_seq with Some prev => (prev + 1)%N | None => 0%N end in
          if match prev_seq with Some prev => bool_decide (seq ≤ prev)%N | None => false end then
            Ok (Some (ChainDivergence idx (SeqRegression (default 0%N prev_seq) seq)))
          else if decide (seq ≠ expected) then
            Ok (Some (ChainDivergence idx (SeqGap expected seq)))
          else seq_walk (S idx) (Some seq) rest
      | None => if v2_line line then seq_walk (S idx) prev_seq rest else Err Json
      end
  end.

Definition verify_eventv2_seq_chain (ls : list string) : result cosmon_error verify_outcome :=
  d ← seq_walk 0 None ls;
  match d with
  | None => Ok (Verified (length ls))
  | Some d => Ok (Diverged d)
  end.

Definition verify_chain (file : option string) : result cosmon_error verify_outcome :=
  match file with
  | None => Ok (Verified 0)
  | Some content =>
      let ls := filter (λ l, trim l ≠ EmptyString) (lines content) in
      if decide (ls = []) then Ok (Verified 0)
      else match mapM from_str ls with
           | Some entries => verify_legacy_hash_chain entries
           | None => verify_eventv2_seq_chain ls
           end
  end.

Definition json {A} (o : option A) : result cosmon_error A :=
  match o with Some a => Ok a | None => Err Json end.

Definition read_all (file : option string) : result cosmon_error (list (envelope B)) :=
  match file with
  | None => Ok []
  | Some content => json (mapM from_str (filter (λ l, l ≠ EmptyString) (lines content)))
  end.

(** The loop of [poll_events] over the buffer: its complete lines, and the
    position after the last of them. *)
Fixpoint poll_lines (segs : list (string * bool)) (pos : nat) (events : list (envelope B)) :
    result cosmon_error (list (envelope B) * nat) :=
  match segs with
  | (line, true) :: rest =>
      let pos := pos + String.length line + 1 in
      if is_empty line then poll_lines rest pos events
      else match from_str line with
           | Some e => poll_lines rest pos (events ++ [e])
           | None => Err Json
           end
  | _ => Ok (events, pos)
  end.

Definition poll_events (file : option string) (offset : nat) :
    result cosmon_error (list (envelope B) * nat) :=
  match file with
  | None => Ok ([], 0)
  | Some content =>
      let start := if decide (String.length content < offset) then 0 else offset in
      '(events, pos) ← poll_lines (segments (str_drop start content)) 0 [];
      Ok (events, start + pos)
  end.
End Log.

(** ** Hash chains *)

Section Chain.
Context {B : Type} `{EventCodec B}.
Implicit Types (es : list (envelope B)) (p q : option string).

(** Entries that link from the hash [p] to the hash [q]. *)
Inductive chained : option string → list (envelope B) → option string → Prop :=
| chained_nil p : chained p [] p
| chained_cons e es h q :
    hash e = Some h → digest (hash_payload e) = Some h → chained (Some h) es q →
    chained (prev_hash e) (e :: es) q.

Lemma hash_walk_chained idx p es :
  hash_walk idx p es = Ok None ↔ ∃ q, chained p es q.
Proof.
  revert idx p. induction es as [|e es IH]; intros idx p; simpl.
  - split; [|done]. intros _. exists p. constructor.
  - destruct (hash e) as [h|] eqn:Hh.
    2: { split; [done|]. intros [q Hq]. inversion Hq; subst. congruence. }
    case_decide as Hp.
    { split; [done|]. intros [q Hq]. by inversion Hq; subst. }
    assert (prev_hash e = p) as <- by (destruct (decide (prev_hash e = p)); [done|by destruct Hp]).
    destruct (digest _) as [r|] eqn:Hd.
    2: { split; [done|]. intros [q Hq]. inversion Hq; subst. congruence. }
    case_decide as Hr.
    { split; [done|]. intros [q Hq]. inversion Hq; subst. congruence. }
    assert (r = h) as -> by (destruct (decide (r = h)); [done|by destruct Hr]).
    rewrite IH. split; intros [q Hq].
    + exists q. by econstructor.
    + exists q. inversion Hq; subst. congruence.
Qed.

Lemma chained_snoc p es q e h :
  chained p es q → prev_hash e = q → hash e = Some h → digest (hash_payload e) = Some h →
  chained p (es ++ [e]) (Some h).
Proof.
  intros Hc <- Hh Hd. remember (prev_hash e) as q eqn:Hq. induction Hc; simpl.
  - subst. econstructor; [done..|constructor].
  - econstructor; [done..|]. by apply IHHc.
Qed.

Lemma chained_snoc_inv p es e q :
  chained p (es ++ [e]) q →
  chained p es (prev_hash e) ∧ hash e = q ∧ digest (hash_payload e) = q ∧ is_Some q.
Proof.
  revert p. induction es as [|a es IH]; intros p Hc; simpl in Hc; inversion Hc; subst.
  - match goal with Hn : chained _ [] _ |- _ => inversion Hn; subst end.
    split_and!; [constructor|congruence..|by eexists].
  - match goal with Hn : chained _ (es ++ _) _ |- _ => apply IH in Hn as (? & ? & ? & ?) end.
    split_and!; [by econstructor|done..].
Qed.

Lemma chained_hashes p es q : chained p es q → ∀ e, e ∈ es → is_Some (hash e).
Proof. intros Hc. induction Hc; intros e'; [by intros ?%elem_of_nil|]. intros [->|?]%elem_of_cons; eauto. Qed.

(** Two payloads of one hash. *)
Definition collision : Prop :=
  ∃ x y : option string * B, x ≠ y ∧ is_Some (digest x) ∧ digest x = digest y.

(** A chain is determined by its last hash. *)
Lemma chained_unique `{EqDecision B} es1 es2 q :
  chained None es1 q → chained None es2 q → es1 = es2 ∨ collision.
Proof.
  revert es2 q. induction es1 as [|e1 es1 IH] using rev_ind; intros es2 q H1 H2.
  - inversion H1; subst. destruct es2 as [|e2 es2 _] using rev_ind; [by left|].
    by apply chained_snoc_inv in H2 as (_ & _ & _ & [? ?]).
  - destruct es2 as [|e2 es2 _] using rev_ind.
    { inversion H2; subst. by apply chained_snoc_inv in H1 as (_ & _ & _ & [? ?]). }
    apply chained_snoc_inv in H1 as (H1 & Hh1 & Hd1 & Hs).
    apply chained_snoc_inv in H2 as (H2 & Hh2 & Hd2 & _).
    destruct (decide (hash_payload e1 = hash_payload e2)) as [Hp|Hp].
    + destruct e1 as [p1 h1 b1], e2 as [p2 h2 b2]. unfold hash_payload in Hp. simpl in *.
      simplify_eq. destruct (IH es2 p2 H1 H2) as [->|?]; [by left|by right].
    + right. exists (hash_payload e1), (hash_payload e2). split_and!; [done| |congruence].
      by rewrite Hd1.
Qed.

(** ** Appending *)

Definition text_of es : string := foldr (λ e s, (to_line e +:+ nl) +:+ s) EmptyString es.

Lemma text_of_app es1 es2 : text_of (es1 ++ es2) = text_of es1 +:+ text_of es2.
Proof. induction es1 as [|e es1 IH]; [done|]. simpl. by rewrite IH, string_app_assoc. Qed.

Lemma lines_text_of es : lines (text_of es) = map to_line es.
Proof.
  induction es as [|e es IH]; [done|]. simpl. rewrite lines_app by apply complete_text_nl.
  rewrite lines_line by (apply to_line_single || apply to_line_end). by rewrite IH.
Qed.

Lemma to_line_nonempty e : to_line e ≠ EmptyString.
Proof. intros He. apply (to_line_trim e). by rewrite He. Qed.

Lemma filter_lines (P : string → Prop) `{∀ l, Decision (P l)} es :
  (∀ e, P (to_line e)) → filter P (lines (text_of es)) = map to_line es.
Proof.
  intros HP. rewrite lines_text_of. apply list_filter_True, Forall_forall. intros l (e & -> & _)%list_elem_of_fmap.
  apply HP.
Qed.

Lemma mapM_from_str es : mapM from_str (map to_line es) = Some es.
Proof. induction es as [|e es IH]; [done|]. simpl. rewrite from_str_to_line. simpl. by rewrite IH. Qed.

Lemma read_all_text_of es : read_all (Some (text_of es)) = Ok es.
Proof. unfold read_all. rewrite filter_lines by apply to_line_nonempty. by rewrite mapM_from_str. Qed.

Lemma tail_hash_text_of es e : tail_hash (Some (text_of (es ++ [e]))) = hash e.
Proof.
  unfold tail_hash. simpl. rewrite lines_text_of, map_app, reverse_app. simpl.
  rewrite filter_cons_True by apply to_line_nonempty. simpl. by rewrite from_str_to_line.
Qed.

Lemma verify_text_of es q : chained None es q → verify_chain (Some (text_of es)) = Ok (Verified (length es)).
Proof.
  intros Hc. unfold verify_chain. rewrite filter_lines by apply to_line_trim.
  destruct es as [|e es]; [done|]. rewrite decide_False by done. rewrite mapM_from_str.
  unfold verify_legacy_hash_chain. rewrite decide_False.
  - by rewrite (proj2 (hash_walk_chained 0 None (e :: es))) by eauto.
  - rewrite filter_cons_True; [done|]. apply is_some_spec.
    eapply chained_hashes; [done|by left].
Qed.

(** Appending one event after another, to a file that does not exist. *)
Definition append_all es : result cosmon_error (option string) :=
  foldl (λ r e, file ← r; Some <$> append file e) (Ok None) es.

(** A log that is only appended to verifies, reads back as exactly the
    events appended, in order, and links from the first to the last; an append
    fails only if the canonical hash does. *)
Theorem appended_log_verifies es :
  match append_all es with
  | Ok file =>
      verify_chain file = Ok (Verified (length es)) ∧
      ∃ entries q, read_all file = Ok entries ∧ map body entries = map body es ∧
        chained None entries q
  | Err err => err = CanonicalHash ∧ ∃ e p, e ∈ es ∧ digest (p, body e) = None
  end.
Proof.
  assert (match append_all es with
    | Ok file => ∃ entries q, map body entries = map body es ∧ chained None entries q ∧
        (file = Some (text_of entries) ∨ file = None ∧ entries = [])
    | Err err => err = CanonicalHash ∧ ∃ e p, e ∈ es ∧ digest (p, body e) = None
    end) as Hall.
  { induction es as [|e es IH] using rev_ind.
    - exists [], None. split_and!; [done|constructor|by right].
    - unfold append_all in *. rewrite foldl_app. simpl. destruct (foldl _ _ es) as [file|err]; simpl.
      + destruct IH as (entries & q & Hb & Hc & Hf).
        assert (tail_hash file = q ∧ default EmptyString file = text_of entries) as [Ht Hd].
        { destruct Hf as [->|[-> ->]]; [|by inversion Hc]. split; [|done].
          destruct entries as [|e' entries _] using rev_ind; [by inversion Hc|].
          rewrite tail_hash_text_of. by apply chained_snoc_inv in Hc as (_ & ? & _). }
        unfold append. rewrite Ht, Hd. unfold hash_payload. simpl.
        destruct (digest (q, body e)) as [h|] eqn:Hh; simpl.
        * exists (entries ++ [Envelope q (Some h) (body e)]), (Some h). split_and!.
          -- by rewrite !map_app, Hb.
          -- by eapply chained_snoc.
          -- left. rewrite text_of_app. simpl. by rewrite string_app_nil_r.
        * split; [done|]. exists e, q. split; [apply elem_of_app; right; by left|done].
      + destruct IH as [? (e' & p & ? & ?)]. split; [done|]. exists e', p. split; [|done].
        apply elem_of_app. by left. }
  destruct (append_all es) as [file|err]; [|done].
  destruct Hall as (entries & q & Hb & Hc & [->|[-> ->]]).
  - assert (length es = length entries) as ->.
    { rewrite <- (length_map body es), <- Hb. by rewrite length_map. }
    split; [by eapply verify_text_of|]. exists entries, q. by rewrite read_all_text_of.
  - destruct es; [|done]. split; [done|]. exists [], None. split_and!; [done|done|constructor].
Qed.

(** The hash chain commits to the log: two logs that verify with hashes
    and end in the same hash have the same entries, or exhibit two payloads of
    one hash. *)
Theorem verified_log_committed `{EqDecision B} s1 s2 es1 es2 n1 n2 :
  mapM from_str (filter (λ l, trim l ≠ EmptyString) (lines s1)) = Some es1 →
  mapM from_str (filter (λ l, trim l ≠ EmptyString) (lines s2)) = Some es2 →
  verify_chain (Some s1) = Ok (Verified n1) → verify_chain (Some s2) = Ok (Verified n2) →
  last es1 ≫= hash = last es2 ≫= hash →
  (n1 = length es1 ∧ n2 = length es2) ∧ (es1 = es2 ∨ collision).
Proof.
  assert (∀ s es n, mapM from_str (filter (λ l, trim l ≠ EmptyString) (lines s)) = Some es →
    verify_chain (Some s) = Ok (Verified n) → n = length es ∧ ∃ q, chained None es q) as Hv.
  { intros s es n Hes Hn. unfold verify_chain in Hn.
    destruct (filter (λ l, trim l ≠ EmptyString) (lines s)) as [|l ls].
    - simpl in Hes, Hn. injection Hes as <-. injection Hn as <-. split; [done|].
      exists None. constructor.
    - rewrite decide_False in Hn by done. rewrite Hes in Hn.
      unfold verify_legacy_hash_chain in Hn. case_decide; [done|].
      apply result_bind_ok in Hn as ([d|] & Hw & Hn); [done|]. simplify_eq. split; [done|].
      by apply hash_walk_chained in Hw. }
  assert (∀ es q, chained None es q → q = last es ≫= hash) as Hlast.
  { intros es q Hc. destruct es as [|e es _] using rev_ind; [by inversion Hc|].
    rewrite last_snoc. simpl. by apply chained_snoc_inv in Hc as (_ & ? & _). }
  intros H1 H2 Hv1 Hv2 Hq.
  destruct (Hv _ _ _ H1 Hv1) as [-> [q1 Hc1]], (Hv _ _ _ H2 Hv2) as [-> [q2 Hc2]].
  split; [done|]. apply (chained_unique _ _ q1); [done|].
  by rewrite (Hlast _ _ Hc1), Hq, <- (Hlast _ _ Hc2).
Qed.
End Chain.

(** ** Sequence numbers *)

Section Sequence.
Context {B : Type} `{EventCodec B}.

(** The lines of a contiguous log. *)
Definition contiguous (start : nat) (ls : list string) : Prop :=
  omap v2_seq ls = map N.of_nat (seq start (length (omap v2_seq ls))) ∧
  ∀ l, l ∈ ls → v2_seq l = None → v2_line l = true.

Definition next_seq (prev : option N) : nat :=
  match prev with Some p => S (N.to_nat p) | None => 0 end.

Lemma contiguous_cons start l ls :
  contiguous start (l :: ls) ↔
    match v2_seq l with
    | Some q => q = N.of_nat start ∧ contiguous (S start) ls
    | None => v2_line l = true ∧ contiguous start ls
    end.
Proof.
  unfold contiguous. simpl. destruct (v2_seq l) as [q|] eqn:Hq; simpl.
  - split.
    + intros [[= -> Hs] Hl]. split_and!; [done|done|]. intros l' ?. apply Hl. by right.
    + intros (-> & Hs & Hl). split; [by rewrite Hs at 1|].
      intros l' [->|?]%elem_of_cons; [congruence|by apply Hl].
  - split.
    + intros [Hs Hl]. split_and!; [apply Hl; [by left|done]|done|]. intros l' ?. apply Hl. by right.
    + intros (Hv & Hs & Hl). split; [done|]. intros l' [->|?]%elem_of_cons; [done|by apply Hl].
Qed.

Lemma seq_walk_contiguous idx prev ls :
  seq_walk idx prev ls = Ok None ↔ contiguous (next_seq prev) ls.
Proof.
  revert idx prev. induction ls as [|l ls IH]; intros idx prev; simpl.
  - split; [|done]. intros _. split; [done|]. by intros l ?%elem_of_nil.
  - rewrite contiguous_cons. destruct (v2_seq l) as [q|].
    + destruct prev as [p|]; simpl.
      * case_bool_decide; [split; [done|intros [-> _]; lia]|].
        case_decide as Hd; [split; [done|intros [-> _]; lia]|].
        rewrite IH. simpl. assert (q = (p + 1)%N) as -> by lia.
        replace (N.to_nat (p + 1)) with (S (N.to_nat p)) by lia.
        split; [intros ?; split; [lia|done]|by intros [_ ?]].
      * case_decide as Hd; [split; [done|by intros [-> _]]|].
        rewrite IH. assert (q = 0%N) as -> by lia. simpl.
        split; [by intros ?|by intros [_ ?]].
    + destruct (v2_line l); [rewrite IH; split; [done|by intros [_ ?]]|].
      split; [done|by intros [? _]].
Qed.

Lemma contiguous_app start l1 l2 :
  contiguous start (l1 ++ l2) ↔
    contiguous start l1 ∧ contiguous (start + length (omap v2_seq l1)) l2.
Proof.
  revert start. induction l1 as [|l l1 IH]; intros start; simpl.
  - rewrite Nat.add_0_r. split; [|by intros [_ ?]]. intros ?. split; [|done].
    split; [done|]. by intros ? ?%elem_of_nil.
  - rewrite !contiguous_cons. destruct (v2_seq l) as [q|]; simpl; rewrite IH; [|tauto].
    rewrite Nat.add_succ_r. simpl. tauto.
Qed.

(** The start is that of the first native line. *)
Lemma contiguous_start a b ls :
  contiguous a ls → contiguous b ls → omap v2_seq ls ≠ [] → a = b.
Proof.
  intros [Ha _] [Hb _] Hne. destruct (omap v2_seq ls) as [|q qs]; [done|].
  simpl in Ha, Hb. simplify_eq. lia.
Qed.

(** A log of the newer schema verifies exactly if its native sequence
    numbers are 0, 1, 2, ... and every other line is of the older schema; so a
    native line cannot be removed unnoticed before the last of them. *)
Theorem seq_chain_exact ls n :
  (verify_eventv2_seq_chain ls = Ok (Verified n) ↔ n = length ls ∧ contiguous 0 ls) ∧
  (∀ l1 x l2 m, ls = l1 ++ x :: l2 → is_Some (v2_seq x) → omap v2_seq l2 ≠ [] →
     verify_eventv2_seq_chain ls = Ok (Verified n) →
     verify_eventv2_seq_chain (l1 ++ l2) ≠ Ok (Verified m)).
Proof.
  assert (∀ ls n, verify_eventv2_seq_chain ls = Ok (Verified n) ↔ n = length ls ∧ contiguous 0 ls)
    as Hv.
  { clear ls n. intros ls n. unfold verify_eventv2_seq_chain.
    pose proof (seq_walk_contiguous 0 None ls) as Hw. simpl in Hw. rewrite <- Hw. destruct (seq_walk 0 None ls) as [[d|]|e]; simpl;
      (split; [intros [= ->]|intros [-> [=]]]); done. }
  split; [apply Hv|]. intros l1 x l2 m -> [q Hq] Hne. rewrite !Hv. intros [_ H1] [_ H2].
  apply contiguous_app in H1 as [_ H1]. apply contiguous_app in H2 as [_ H2].
  rewrite contiguous_cons, Hq in H1. destruct H1 as [_ H1].
  pose proof (contiguous_start _ _ _ H1 H2 Hne). lia.
Qed.
End Sequence.

(** ** Polling *)

Section Poll.
Context {B : Type} `{EventCodec B}.

(** A text is its complete lines and a rest without a newline. *)
Lemma split_rest s :
  ∃ c t, s = c +:+ t ∧ complete_text c ∧ contains_char nl_char t = false.
Proof.
  destruct (rsplit_once nl_char s) as [[p q]|] eqn:Hs.
  - apply rsplit_once_some in Hs as [-> Hq]. exists (p +:+ nl), q. split_and!; [|apply complete_text_nl|done].
    by rewrite <- string_app_assoc.
  - exists EmptyString, s. split_and!; [done|by left|by apply rsplit_once_none].
Qed.

Lemma segments_rest t : contains_char nl_char t = false → t ≠ EmptyString → segments t = [(t, false)].
Proof.
  induction t as [|a t IH]; [done|]. simpl. intros [Ha Ht]%orb_false_iff _.
  apply bool_decide_eq_false in Ha. rewrite decide_False by done.
  destruct t as [|b t]; [done|]. by rewrite IH.
Qed.

Lemma segments_complete c l b : complete_text c → (l, b) ∈ segments c → b = true.
Proof.
  intros [->|[s ->]]; [by intros ?%elem_of_nil|]. revert l.
  induction s as [|a s IH]; intros l; [by intros [[=]|?%elem_of_nil]%elem_of_cons|].
  rewrite string_app_cons. simpl. case_decide.
  - intros [[=]|?]%elem_of_cons; eauto.
  - destruct (segments (s +:+ nl)) as [|[l' b'] rest] eqn:Hs.
    + intros [[= -> ->]|?%elem_of_nil]%elem_of_cons; [|done]. exfalso.
      destruct s as [|b s]; [done|]. rewrite string_app_cons in Hs. simpl in Hs. case_decide; [done|].
      by destruct (segments (s +:+ nl)) as [|[] ?].
    + intros [[= -> ->]|?]%elem_of_cons; [apply (IH l'); by left|apply (IH l); by right].
Qed.

(** Polling complete lines consumes them all, and goes on with the rest. *)
Lemma poll_lines_app segs segs' pos events :
  (∀ l b, (l, b) ∈ segs → b = true) →
  poll_lines (segs ++ segs') pos events =
    '(events', pos') ← poll_lines segs pos events; poll_lines segs' pos' events'.
Proof.
  revert pos events. induction segs as [|[l b] segs IH]; intros pos events Hc; [done|].
  assert (b = true) as -> by (apply (Hc l b); by left). simpl.
  assert (∀ l b, (l, b) ∈ segs → b = true) as Hc' by (intros ? ? ?; eapply Hc; by right).
  destruct (is_empty l); [by apply IH|]. destruct (from_str l); [by apply IH|done].
Qed.

Lemma poll_lines_shift segs pos k events evs :
  poll_lines segs (k + pos) (evs ++ events) =
    '(events', pos') ← poll_lines segs pos events; Ok (evs ++ events', k + pos').
Proof.
  revert pos events. induction segs as [|[l [|]] segs IH]; intros pos events; simpl; [done| |done].
  replace (k + pos + String.length l + 1) with (k + (pos + String.length l + 1)) by lia.
  destruct (is_empty l); [by apply IH|]. destruct (from_str l); [|done].
  rewrite <- app_assoc. apply IH.
Qed.

(** The length of complete lines. *)
Fixpoint segs_length (segs : list (string * bool)) : nat :=
  match segs with [] => 0 | (l, _) :: rest => String.length l + 1 + segs_length rest end.

Lemma poll_lines_pos segs pos events events' pos' :
  (∀ l b, (l, b) ∈ segs → b = true) →
  poll_lines segs pos events = Ok (events', pos') → pos' = pos + segs_length segs.
Proof.
  revert pos events. induction segs as [|[l b] segs IH]; intros pos events Hc; simpl.
  - intros [= _ ->]. lia.
  - assert (b = true) as -> by (apply (Hc l b); by left).
    assert (∀ l b, (l, b) ∈ segs → b = true) as Hc' by (intros ? ? ?; eapply Hc; by right).
    destruct (is_empty l); [intros Hp%IH; [lia|done]|].
    destruct (from_str l); [intros Hp%IH; [lia|done]|done].
Qed.

Lemma segs_length_complete c : complete_text c → segs_length (segments c) = String.length c.
Proof.
  intros [->|[s ->]]; [done|]. induction s as [|a s IH]; [done|].
  rewrite string_app_cons. simpl. case_decide; simpl; [by rewrite IH|].
  assert (String.length (s +:+ nl) = S (String.length s)) as Hl
    by (rewrite string_length_app; simpl; lia).
  destruct (segments (s +:+ nl)) as [|[l b] rest]; simpl in *; lia.
Qed.

Lemma str_drop_app c t : str_drop (String.length c) (c +:+ t) = t.
Proof. induction c as [|a c IH]; [done|]. apply IH. Qed.

Lemma str_drop_0 s : str_drop 0 s = s.
Proof. by destruct s. Qed.

(** A poll from the start of complete lines and more. *)
Lemma poll_start c t :
  complete_text c →
  poll_events (Some (c +:+ t)) 0 =
    '(ev1, pos) ← poll_lines (segments c) 0 [];
    '(ev2, pos2) ← poll_lines (segments t) 0 [];
    Ok (ev1 ++ ev2, String.length c + pos2).
Proof.
  intros Hc. unfold poll_events. rewrite decide_False by lia. rewrite str_drop_0, segments_app by done.
  rewrite poll_lines_app by (intros l b; by apply segments_complete).
  destruct (poll_lines (segments c) 0 []) as [[ev1 pos]|] eqn:Hp; [|done]. simpl.
  apply poll_lines_pos in Hp; [|intros l b; by apply segments_complete].
  rewrite segs_length_complete in Hp by done. simpl in Hp. subst pos.
  rewrite <- (Nat.add_0_r (String.length c)) at 1. rewrite <- (app_nil_r ev1) at 1.
  rewrite poll_lines_shift. by destruct (poll_lines (segments t) 0 []) as [[ev2 pos2]|].
Qed.

Lemma poll_rest t events :
  contains_char nl_char t = false → poll_lines (segments t) 0 events = Ok (events, 0).
Proof.
  intros Ht. destruct (decide (t = EmptyString)) as [->|Hne]; [done|].
  by rewrite segments_rest.
Qed.

(** Polling from the offset of the last poll loses and repeats nothing:
    however the file grows, even if the first poll met a line that was still
    being written, both polls together answer what one poll from the start
    would. *)
Theorem poll_incremental a b :
  match poll_events (Some a) 0 with
  | Ok (ev1, offset) =>
      offset ≤ String.length a ∧
      poll_events (Some (a +:+ b)) 0 =
        '(ev2, offset2) ← poll_events (Some (a +:+ b)) offset; Ok (ev1 ++ ev2, offset2)
  | Err e => poll_events (Some (a +:+ b)) 0 = Err e
  end.
Proof.
  destruct (split_rest a) as (c & t & -> & Hc & Ht). rewrite <- string_app_assoc.
  rewrite (poll_start c t), (poll_start c (t +:+ b)), (poll_rest t []) by done.
  destruct (poll_lines (segments c) 0 []) as [[ev1 pos]|e]; simpl; [|done].
  rewrite Nat.add_0_r, app_nil_r. split; [rewrite string_length_app; lia|].
  rewrite decide_False by (rewrite string_length_app; lia). rewrite str_drop_app.
  by destruct (poll_lines (segments (t +:+ b)) 0 []) as [[ev2 pos2]|].
Qed.

(** On complete lines without carriage returns a poll reads what [read_all]
    reads. *)
Lemma poll_read_all s :
  complete_text s → (∀ l b, (l, b) ∈ segments s → ends_with_char cr_char l = false) →
  fst <$> poll_events (Some s) 0 = read_all (Some s).
Proof.
  intros Hc Hcr. unfold poll_events, read_all. rewrite decide_False by lia. rewrite str_drop_0.
  unfold lines. assert (∀ segs pos (events : list (envelope B)),
    (∀ l b, (l, b) ∈ segs → b = true ∧ ends_with_char cr_char l = false) →
    fst <$> poll_lines segs pos events = (λ es, events ++ es) <$>
      json (mapM from_str (filter (λ l, l ≠ EmptyString)
        (map (λ '(l, t), if t : bool then drop_last_if cr_char l else l) segs)))) as Hgo.
  { induction segs as [|[l b] segs IH]; intros pos events Hs; simpl; [by rewrite app_nil_r|].
    destruct (Hs l b ltac:(by left)) as [-> Hl].
    assert (∀ l b, (l, b) ∈ segs → b = true ∧ ends_with_char cr_char l = false) as Hs'
      by (intros; apply Hs; by right).
    rewrite drop_last_if_id by done. unfold is_empty. case_bool_decide as He.
    - rewrite filter_cons_False by auto. by apply IH.
    - rewrite filter_cons_True by done. simpl. destruct (from_str l) as [e|]; [|done]. simpl.
      rewrite IH by done. destruct (mapM from_str _); [|done]. simpl. by rewrite <- app_assoc. }
  specialize (Hgo (segments s) 0 []). simpl in Hgo.
  assert (∀ r : result cosmon_error (list (envelope B)), (λ es, es) <$> r = r) as Hid by (by intros []).
  rewrite Hid in Hgo. rewrite <- Hgo.
  - by destruct (poll_lines (segments s) 0 []) as [[ev pos]|].
  - intros l b Hl. split; [by eapply segments_complete|by eapply Hcr].
Qed.
End Poll.

(** ** Concrete logs *)

Section Examples.

(** Envelopes with a boolean as their event, printed as numbers in braces. *)
Definition number_of (e : envelope bool) : N := Npos (encode (prev_hash e, hash e, body e)).

Definition of_number (n : N) : option (envelope bool) :=
  match n with
  | Npos p => '(p, h, b) ← decode p; Some (Envelope p h b)
  | N0 => None
  end.

Definition braces (s : string) : string := String "{" (s +:+ "}").

Definition number_line (e : envelope bool) : string := braces (pretty (number_of e)).

Definition read_number (s : string) : option (envelope bool) :=
  match s with
  | String "{" r => d ← Text.strip_suffix "}" r; of_number (digits_N 0 d)
  | _ => None
  end.

Lemma read_number_line e : read_number (number_line e) = Some e.
Proof.
  unfold number_line, braces. unfold read_number. rewrite strip_suffix_app. simpl.
  rewrite digits_N_pretty. unfold number_of, of_number. rewrite decode_encode. by destruct e.
Qed.

Lemma number_line_single e : contains_char nl_char (number_line e) = false.
Proof.
  unfold number_line, braces. simpl. rewrite contains_char_app. simpl. rewrite orb_false_r.
  by apply (all_chars_not_contains is_ascii_digit); [|apply pretty_N_digits].
Qed.

Lemma number_line_end e : ends_with_char cr_char (number_line e) = false.
Proof.
  unfold number_line, braces. generalize (pretty (number_of e)). intros s.
  assert (∀ a, ends_with_char cr_char (String a (s +:+ "}")) = false) as Hs; [|apply Hs].
  induction s as [|b s IH]; intros a; [done|]. rewrite string_app_cons. simpl. apply (IH b).
Qed.

Lemma number_line_trim e : trim (number_line e) ≠ EmptyString.
Proof.
  unfold number_line, braces, trim. generalize (pretty (number_of e) +:+ "}"). intros s.
  assert (trim_start (String "{" s) = String "{" s) as Ht by (by destruct s as [|? [|? ?]]).
  rewrite Ht. cbn [trim_end]. by rewrite Ht.
Qed.

#[local] Instance number_codec : EventCodec bool := {|
  to_line := number_line;
  from_str := read_number;
  digest := λ '(p, b), Some (default EmptyString p +:+ (if b : bool then "1" else "0"));
  v2_seq s := parse_unsigned u64_max s;
  v2_line s := bool_decide (s = "old");
  from_str_to_line := read_number_line;
  to_line_single := number_line_single;
  to_line_end := number_line_end;
  to_line_trim := number_line_trim;
|}.

Definition sample_log : string :=
  match append_all [Envelope None None true; Envelope None None false] with
  | Ok (Some s) => s
  | _ => EmptyString
  end.

(** Two appends; a torn third line is left alone by a poll and an error for
    [read_all]; a line taken from the middle of a sequence is a gap. *)
Example sample_log_reads :
  read_all (Some sample_log) =
    Ok [Envelope None (Some "1") true; Envelope (Some "1") (Some "10") false] ∧
  poll_events (Some (sample_log +:+ "{7")) 0 =
    Ok ([Envelope None (Some "1") true; Envelope (Some "1") (Some "10") false],
        String.length sample_log) ∧
  read_all (Some (sample_log +:+ "{7")) = Err Json ∧
  verify_chain (Some ("0" +:+ nl +:+ "old" +:+ nl +:+ "1" +:+ nl)) = Ok (Verified 3) ∧
  verify_chain (Some ("0" +:+ nl +:+ "2" +:+ nl)) =
    Ok (Diverged (ChainDivergence 1 (SeqGap 1 2))).
Proof. split_and!; by vm_compute. Qed.

Definition sample_entries : list (envelope bool) :=
  [Envelope None (Some "1") true; Envelope (Some "1") (Some "10") false].

Lemma verified_log_committed_witness :
  (2 = length sample_entries ∧ 2 = length sample_entries) ∧
  (sample_entries = sample_entries ∨ collision).
Proof.
  apply (verified_log_committed sample_log (sample_log +:+ nl)); by vm_compute.
Defined.
End Examples.
