(* ===== verification/Supervisor.v ===== *)
(** The daemon supervisor: [crates/cosmon-daemon-supervisor/src]. The table of
    children ([event_loop.rs]), the pure policy ([policy.rs]), the diff of a
    hot reload ([reload.rs]) and the configuration ([config.rs]). Processes,
    files and the clock of one step are the record [outside]; instants are in
    nanoseconds. *)
From Stdlib Require Import Ascii.
From S2P Require Import Prelude Text.
From stdpp Require Import prelude strings list pretty gmap sorting fin_maps.

(** ** Configuration ([config.rs]) *)

Record daemon_spec := DaemonSpec {
  d_name : string;
  binary : string;
  args : list string;
  throttle_seconds : N;
  d_env : list (string * string);
  log_stdout : option string;
  log_stderr : option string;
  kill_switch : option string;
  enabled : bool;
}.

#[export] Instance daemon_spec_eq_dec : EqDecision daemon_spec.
Proof. solve_decision. Defined.

Definition at_daemon (idx : nat) (d : daemon_spec) (e : string) : string :=
  "daemon[" +:+ pretty (N.of_nat idx) +:+ "] '" +:+ d_name d +:+ "': " +:+ e.

(** The errors of one daemon; an empty name is not entered in [seen]. *)
Definition daemon_errors (seen : gset string) (idx : nat) (d : daemon_spec) : list string :=
  (if decide (d_name d = EmptyString) then ["daemon[" +:+ pretty (N.of_nat idx) +:+ "]: name is empty"]
   else if decide (d_name d ∈ seen) then [at_daemon idx d "duplicate name"] else []) ++
  (if decide (trim (binary d) = EmptyString) then [at_daemon idx d "binary is empty"] else []).

Fixpoint daemons_errors (seen : gset string) (idx : nat) (ds : list daemon_spec) : list string :=
  match ds with
  | [] => []
  | d :: rest =>
      daemon_errors seen idx d ++
      daemons_errors (if decide (d_name d = EmptyString) then seen else {[d_name d]} ∪ seen)
        (S idx) rest
  end.

(** [Config::validate] *)
Definition daemons_validate (ds : list daemon_spec) : result (list string) () :=
  match daemons_errors ∅ 0 ds with [] => Ok () | errors => Err errors end.

(** [Config::by_name]: a later entry replaces an earlier one of its name. *)
Definition by_name (ds : list daemon_spec) : gmap string daemon_spec :=
  foldl (λ m d, <[d_name d := d]> m) ∅ ds.

(** ** Policy ([policy.rs]) *)

Inductive kill_switch_decision := Run | GlobalMute | DaemonMute | DisabledMute.

#[export] Instance kill_switch_decision_eq_dec : EqDecision kill_switch_decision.
Proof. solve_decision. Defined.

Definition is_muted (d : kill_switch_decision) : bool :=
  match d with Run => false | _ => true end.

(** The function [kill_switch_decision]. *)
Definition decide_kill_switch (spec : daemon_spec) (global_lock daemon_lock : bool) :
    kill_switch_decision :=
  if global_lock then GlobalMute
  else if is_some (kill_switch spec) && daemon_lock then DaemonMute
  else if negb (enabled spec) then DisabledMute
  else Run.

Inductive respawn := SpawnNow | ThrottleUntil (until : Z) | Quiesce.

(** The limits of chrono: the largest instant, and the largest number of
    seconds of a [TimeDelta]. *)
Class Chrono := { max_utc : Z }.
Definition max_delta_seconds : Z := 9223372036854775.
Definition i64_max : Z := 9223372036854775807.

(** [Duration::try_seconds(i64::try_from(secs).unwrap_or(i64::MAX))] *)
Definition try_seconds (secs : N) : option Z :=
  let s := if decide (Z.of_N secs ≤ i64_max)%Z then Z.of_N secs else i64_max in
  if decide (s ≤ max_delta_seconds)%Z then Some (s * 1000000000)%Z else None.

Definition throttle_deadline `{Chrono} (spec : daemon_spec) (exited_at : Z) : Z :=
  match try_seconds (throttle_seconds spec) with
  | None => max_utc
  | Some delta =>
      if decide (exited_at + delta ≤ max_utc)%Z then (exited_at + delta)%Z else max_utc
  end.

Definition respawn_decision `{Chrono} (spec : daemon_spec) (exited_at now : Z)
    (kill_switch : kill_switch_decision) : respawn :=
  if is_muted kill_switch then Quiesce
  else if decide (throttle_seconds spec = 0)%N then SpawnNow
  else
    let until := throttle_deadline spec exited_at in
    if decide (until ≤ now)%Z then SpawnNow else ThrottleUntil until.

(** The instant [now - window] is representable. *)
Definition crash_loop_alert (crash_times : list Z) (now : Z) (threshold : N) (window : Z) : bool :=
  if decide (threshold = 0)%N then false
  else
    let cutoff := (now - window)%Z in
    bool_decide (threshold ≤ N.of_nat (length (filter (λ t, cutoff ≤ t)%Z crash_times)))%N.

Definition prune_crash_times (crash_times : list Z) (now window : Z) : list Z :=
  filter (λ t, now - window ≤ t)%Z crash_times.

(** ** Reload ([reload.rs]) *)

(** [spec_content_hash] is BLAKE3 of the JSON of all fields. *)
Class SpecHash := spec_content_hash : daemon_spec → string.

Record diff_result := DiffResult {
  to_spawn : list string;
  to_kill : list string;
  to_keep : list string;
  changed : list string;
}.

Section Diff.
Context `{SpecHash, !HashOrder string}.
Implicit Types (old new : gmap string daemon_spec).

Definition same_hash (old new : gmap string daemon_spec) (n : string) : bool :=
  match old !! n, new !! n with
  | Some a, Some b => bool_decide (spec_content_hash a = spec_content_hash b)
  | _, _ => false
  end.

Definition diff (old new : gmap string daemon_spec) : diff_result :=
  let both := hash_iter (dom old ∩ dom new) in
  DiffResult (sort_ids (hash_iter (dom new ∖ dom old))) (sort_ids (hash_iter (dom old ∖ dom new)))
    (sort_ids (filter (λ n, same_hash old new n = true) both))
    (sort_ids (filter (λ n, same_hash old new n = false) both)).
End Diff.

(** ** The child table ([event_loop.rs]) *)

Inductive child_status := Spawning | Running | Exited | Throttling | Respawning.

#[export] Instance child_status_eq_dec : EqDecision child_status.
Proof. solve_decision. Defined.

Record child_record := ChildRecord {
  name : string;
  spec : daemon_spec;
  status : child_status;
  pid : option N;
  last_exit_code : option Z;
  last_spawn_at : option Z;
  last_exit_at : option Z;
  throttle_until : option Z;
  respawn_count : N;
  crash_times : list Z;
  propulsion_alerted : bool;
}.

Definition child_fresh (s : daemon_spec) : child_record :=
  ChildRecord (d_name s) s Exited None None None None None 0 [] false.

(** [PersistedChild]: what survives a restart. *)
Record persisted_child := PersistedChild {
  pc_name : string;
  pc_status : child_status;
  pc_pid : option N;
  pc_last_exit_code : option Z;
  pc_last_spawn_at : option Z;
  pc_last_exit_at : option Z;
  pc_respawn_count : N;
}.

Definition to_persisted (r : child_record) : persisted_child :=
  PersistedChild (name r) (status r) (pid r) (last_exit_code r) (last_spawn_at r)
    (last_exit_at r) (respawn_count r).

Inductive reap_outcome := RAlive | RExited (code : Z) | RSignaled.
Inductive signal_kind := SigTerm | SigKill.

(** What a supervisor does outside of its table, in order. *)
Inductive effect :=
| Signalled (pid : N) (s : signal_kind)
| Spawned (name : string) (pid : N)
| SpawnFailed (name : string)
| PropulsionDown (name : string) (recent : nat).

(** One step's view of the outside. [reap] answers [None] for an error. *)
Record outside := Outside {
  now : Z;
  path_exists : string → bool;
  has_child : N → bool;
  reap : N → option reap_outcome;
  pid_is_alive : N → bool;
  spawns : daemon_spec → option N;
}.

Record supervisor := Supervisor {
  children : gmap string child_record;
  kill_switch_path : string;
  crash_loop_threshold : N;
  crash_loop_window : Z;
  effects : list effect;
}.

Definition set_child (n : string) (r : child_record) (fx : list effect) (s : supervisor) :
    supervisor :=
  Supervisor (<[n := r]> (children s)) (kill_switch_path s) (crash_loop_threshold s)
    (crash_loop_window s) (effects s ++ fx).

(** The record of a child that is seen to have ended. *)
Definition ended (code : option Z) (at_ : Z) (r : child_record) : child_record :=
  ChildRecord (name r) (spec r) Exited None code (last_spawn_at r) (Some at_)
    (throttle_until r) (respawn_count r) (crash_times r) (propulsion_alerted r).

(** [record_crash] on the record of the child: its new record, and the number
    of recent crashes if the alert fires. *)
Definition crash_record (threshold : N) (window : Z) (at_ : Z) (r : child_record) :
    child_record * option nat :=
  let times := prune_crash_times (crash_times r) at_ window ++ [at_] in
  let alert := crash_loop_alert times at_ threshold window in
  let fire := alert && negb (propulsion_alerted r) in
  let alerted := if fire then true else if negb alert then false else propulsion_alerted r in
  (ChildRecord (name r) (spec r) (status r) (pid r) (last_exit_code r) (last_spawn_at r)
     (last_exit_at r) (throttle_until r) (respawn_count r) times alerted,
   if fire then Some (length times) else None).

#[global] Arguments crash_record : simpl never.

Definition record_crash (n : string) (at_ : Z) (s : supervisor) : supervisor :=
  match children s !! n with
  | None => s
  | Some r =>
      let '(r', alert) := crash_record (crash_loop_threshold s) (crash_loop_window s) at_ r in
      set_child n r' (match alert with Some recent => [PropulsionDown n recent] | None => [] end) s
  end.

Section Loop.
Context `{Chrono, SpecHash, !HashOrder string} (w : outside).
Implicit Types (s : supervisor).

(** What the probe of a pid says of its record: an error, no change, or the
    record of an ended child. *)
Definition probe (p : N) : option (option (child_record → child_record)) :=
  if has_child w p then
    match reap w p with
    | None => None
    | Some RAlive => Some None
    | Some (RExited code) => Some (Some (ended (Some code) (now w)))
    | Some RSignaled => Some (Some (ended None (now w)))
    end
  else if negb (pid_is_alive w p) then
    Some (Some (λ r, ended (last_exit_code r) (now w) r))
  else Some None.

(** One turn of the first loop of [step_once]; an error ends the step. *)
Definition reap_one (r : result supervisor supervisor) (np : string * N) :
    result supervisor supervisor :=
  s ← r;
  match probe np.2 with
  | None => Err s
  | Some None => Ok s
  | Some (Some f) =>
      match children s !! np.1 with
      | None => Ok s
      | Some rec => Ok (record_crash np.1 (now w) (set_child np.1 (f rec) [] s))
      end
  end.

Definition with_pids s : list (string * N) :=
  omap (λ n, (λ p, (n, p)) <$> (children s !! n ≫= pid)) (hash_iter (dom (children s))).

Definition reap_all s : result supervisor supervisor := foldl reap_one (Ok s) (with_pids s).

Definition spawn_child (n : string) s : supervisor :=
  match children s !! n with
  | None => s
  | Some r =>
      match spawns w (spec r) with
      | Some p =>
          set_child n (ChildRecord (name r) (spec r) Running (Some p) (last_exit_code r)
            (Some (now w)) (last_exit_at r) None (u32_max `min` (respawn_count r + 1))%N
            (crash_times r) (propulsion_alerted r)) [Spawned n p] s
      | None =>
          record_crash n (now w)
            (set_child n (ChildRecord (name r) (spec r) Exited None (Some 127%Z) (last_spawn_at r)
              (Some (now w)) (throttle_until r) (u32_max `min` (respawn_count r + 1))%N
              (crash_times r) (propulsion_alerted r)) [SpawnFailed n] s)
      end
  end.

Definition mute_of s (r : child_record) : kill_switch_decision :=
  let global_mute := path_exists w (kill_switch_path s) in
  let daemon_mute := match kill_switch (spec r) with Some p => path_exists w p | None => false end in
  decide_kill_switch (spec r) global_mute daemon_mute.

(** One turn of the second loop of [step_once]. *)
Definition decide_one s (n : string) : supervisor :=
  match children s !! n with
  | None => s
  | Some r =>
      let decision := mute_of s r in
      if is_muted decision then
        set_child n r (match pid r with Some p => [Signalled p SigTerm] | None => [] end) s
      else
        match status r with
        | Running | Spawning => s
        | Exited =>
            let exited_at := default (now w) (last_exit_at r) in
            match respawn_decision (spec r) exited_at (now w) decision with
            | SpawnNow => spawn_child n s
            | ThrottleUntil until =>
                set_child n (ChildRecord (name r) (spec r) Throttling (pid r) (last_exit_code r)
                  (last_spawn_at r) (last_exit_at r) (Some until) (respawn_count r)
                  (crash_times r) (propulsion_alerted r)) [] s
            | Quiesce => s
            end
        | Throttling =>
            let until :=
              match throttle_until r with
              | Some u => u
              | None => match last_exit_at r with
                        | Some t => throttle_deadline (spec r) t
                        | None => now w
                        end
              end in
            if decide (until ≤ now w)%Z then spawn_child n s else s
        | Respawning => spawn_child n s
        end
  end.

(** [Supervisor::step_once], without the save at its end; [Err] is the table
    that an error of [reap] leaves. *)
Definition step_once s : result supervisor supervisor :=
  s ← reap_all s;
  Ok (foldl decide_one s (hash_iter (dom (children s)))).

(** The record of a configured daemon at the start of a supervisor. *)
Definition boot_child (persisted : gmap string persisted_child) (d : daemon_spec) :
    child_record :=
  let rec := child_fresh d in
  match persisted !! d_name d with
  | None => rec
  | Some p =>
      let pid := match pc_pid p with
                 | Some pid => if pid_is_alive w pid then Some pid else None
                 | None => None
                 end in
      let known := is_some pid || (match pc_status p with Running | Spawning => false | _ => true end) in
      ChildRecord (name rec) d
        (if is_some pid then Running
         else match pc_status p with Running | Spawning => Exited | st => st end)
        pid (pc_last_exit_code p) (pc_last_spawn_at p)
        (if known then pc_last_exit_at p else Some (now w))
        None (pc_respawn_count p) [] false
  end.

(** [Supervisor::new]; the window of the alert panics where chrono does. *)
Definition boot (ds : list daemon_spec) (persisted : gmap string persisted_child)
    (kill_path : string) (threshold window_seconds : N) : option supervisor :=
  window ← try_seconds window_seconds;
  Some (Supervisor (foldl (λ m d, <[d_name d := boot_child persisted d]> m) ∅ ds) kill_path
    threshold window []).

(** [persist]: the table as it is written. *)
Definition persist s : gmap string persisted_child := to_persisted <$> children s.

Definition term_of (r : option child_record) : list effect :=
  match r ≫= pid with Some p => [Signalled p SigTerm] | None => [] end.

Definition kill_one s (n : string) : supervisor :=
  Supervisor (delete n (children s)) (kill_switch_path s) (crash_loop_threshold s)
    (crash_loop_window s) (effects s ++ term_of (children s !! n)).

Definition spawn_new (new_map : gmap string daemon_spec) s (n : string) : supervisor :=
  match new_map !! n with
  | Some d => set_child n (child_fresh d) [] s
  | None => s
  end.

Definition change_one (new_map : gmap string daemon_spec) s (n : string) : supervisor :=
  match children s !! n with
  | None => s
  | Some r =>
      set_child n (ChildRecord (name r) (default (spec r) (new_map !! n)) Exited None
        (last_exit_code r) (last_spawn_at r) (Some (now w)) (throttle_until r) (respawn_count r)
        (crash_times r) (propulsion_alerted r)) (term_of (Some r)) s
  end.

(** [Supervisor::reload] on a configuration that loads. *)
Definition reload (ds : list daemon_spec) s : diff_result * supervisor :=
  let new_map := by_name ds in
  let d := diff (spec <$> children s) new_map in
  let s := foldl kill_one s (to_kill d) in
  let s := foldl (spawn_new new_map) s (to_spawn d) in
  let s := foldl (change_one new_map) s (changed d) in
  (d, s).
End Loop.

(** ** Children one by one *)

Section Children.
Context `{Chrono, SpecHash, !HashOrder string} (w : outside).
Implicit Types (s : supervisor) (r : child_record).

(** What no operation on children changes. *)
Definition same_settings s s' : Prop :=
  kill_switch_path s' = kill_switch_path s ∧
  crash_loop_threshold s' = crash_loop_threshold s ∧
  crash_loop_window s' = crash_loop_window s.

Lemma same_settings_trans s1 s2 s3 : same_settings s1 s2 → same_settings s2 s3 → same_settings s1 s3.
Proof. intros (? & ? & ?) (? & ? & ?). split_and!; congruence. Qed.

(** An operation that touches the child [n] only. *)
Definition touches (n : string) s s' : Prop :=
  same_settings s s' ∧ (∀ m, m ≠ n → children s' !! m = children s !! m) ∧
  (is_Some (children s' !! n) ↔ is_Some (children s !! n)).

Lemma touches_refl n s : touches n s s.
Proof. by split_and!. Qed.

Lemma touches_trans n s1 s2 s3 : touches n s1 s2 → touches n s2 s3 → touches n s1 s3.
Proof.
  intros (H1 & H2 & H3) (H4 & H5 & H6). split_and!; [by eapply same_settings_trans| |by rewrite H6].
  intros m Hm. by rewrite H5, H2.
Qed.

Lemma touches_set_child n r fx s : is_Some (children s !! n) → touches n s (set_child n r fx s).
Proof.
  intros Hn. split_and!; try done; simpl.
  - intros m Hm. by rewrite lookup_insert_ne.
  - rewrite lookup_insert_eq. split; [done|by eexists].
Qed.

Lemma touches_record_crash n t s : touches n s (record_crash n t s).
Proof.
  unfold record_crash. destruct (children s !! n) as [r|] eqn:Hn; [|apply touches_refl].
  destruct (crash_record _ _ _ _) as [r' a]. apply touches_set_child. by rewrite Hn.
Qed.

Lemma touches_spawn_child n s : touches n s (spawn_child w n s).
Proof.
  unfold spawn_child. destruct (children s !! n) as [r|] eqn:Hn; [|apply touches_refl].
  destruct (spawns w (spec r)); [apply touches_set_child; by rewrite Hn|].
  eapply touches_trans; [apply touches_set_child; by rewrite Hn|apply touches_record_crash].
Qed.

Lemma touches_decide_one n s : touches n s (decide_one w s n).
Proof.
  unfold decide_one. destruct (children s !! n) as [r|] eqn:Hn; [|apply touches_refl].
  destruct (is_muted _); [apply touches_set_child; by rewrite Hn|].
  destruct (status r); try apply touches_refl; try apply touches_spawn_child.
  - destruct (respawn_decision _ _ _ _); [apply touches_spawn_child| |apply touches_refl].
    apply touches_set_child. by rewrite Hn.
  - case_decide; [apply touches_spawn_child|apply touches_refl].
Qed.

(** ** Reaping *)

(** The pid was seen dead in this step. *)
Definition seen_dead (p : N) : Prop := ∃ f, probe w p = Some (Some f).

(** The record after the reaping pass. *)
Definition reaped s r : child_record :=
  match pid r ≫= λ p, mjoin (probe w p) with
  | Some f => (crash_record (crash_loop_threshold s) (crash_loop_window s) (now w) (f r)).1
  | None => r
  end.

Lemma reaped_settings s s' r : same_settings s s' → reaped s' r = reaped s r.
Proof. intros (_ & Ht & Hw). unfold reaped. by rewrite Ht, Hw. Qed.

Lemma lookup_record_crash n m t s :
  children (record_crash n t s) !! m =
    if decide (m = n)
    then (λ r, (crash_record (crash_loop_threshold s) (crash_loop_window s) t r).1) <$> children s !! n
    else children s !! m.
Proof.
  unfold record_crash. destruct (children s !! n) as [r|] eqn:Hn.
  - destruct (crash_record _ _ _ _) as [r' a] eqn:Hc. cbn [set_child children]. case_decide as Hm.
    + subst. rewrite lookup_insert_eq. cbn [fmap option_fmap option_map]. by rewrite Hc.
    + by rewrite lookup_insert_ne.
  - case_decide as Hm; [subst|]; by rewrite ?Hn.
Qed.

Definition no_spawn (fx : list effect) : Prop := ∀ n p, Spawned n p ∉ fx.

Lemma no_spawn_app fx1 fx2 : no_spawn fx1 → no_spawn fx2 → no_spawn (fx1 ++ fx2).
Proof. intros H1 H2 n p [?|?]%elem_of_app; [by eapply H1|by eapply H2]. Qed.

Lemma record_crash_effects n t s :
  ∃ fx, effects (record_crash n t s) = effects s ++ fx ∧ no_spawn fx.
Proof.
  unfold record_crash. destruct (children s !! n).
  - destruct (crash_record _ _ _ _) as [r' [k|]]; simpl; eexists; (split; [done|]).
    + by intros m p [?|?%elem_of_nil]%elem_of_cons.
    + by intros m p ?%elem_of_nil.
  - exists []. rewrite app_nil_r. split; [done|]. by intros m p ?%elem_of_nil.
Qed.

Lemma reap_one_ok s s' n p r :
  children s !! n = Some r → pid r = Some p → reap_one w (Ok s) (n, p) = Ok s' →
  touches n s s' ∧ children s' !! n = Some (reaped s r) ∧
  ∃ fx, effects s' = effects s ++ fx ∧ no_spawn fx.
Proof.
  intros Hn Hp. unfold reap_one, reaped. rewrite Hp. cbn [mbind option_bind result_bind fst snd].
  destruct (probe w p) as [[f|]|]; [rewrite Hn|..]; intros Heq; [| |done]; injection Heq as <-.
  - split_and!.
    + eapply touches_trans; [apply touches_set_child; by rewrite Hn|apply touches_record_crash].
    + rewrite lookup_record_crash, decide_True by done. cbn [set_child children].
      by rewrite lookup_insert_eq.
    + destruct (record_crash_effects n (now w) (set_child n (f r) [] s)) as (fx & Hfx & ?).
      exists fx. rewrite Hfx. simpl. by rewrite app_nil_r.
  - split_and!; [apply touches_refl|done|]. exists []. rewrite app_nil_r. split; [done|].
    by intros m q ?%elem_of_nil.
Qed.

Lemma foldl_err {A} (l : list A) (f : result supervisor supervisor → A → result supervisor supervisor) s :
  (∀ s a, f (Err s) a = Err s) → foldl f (Err s) l = Err s.
Proof. intros Hf. induction l as [|a l IH]; [done|]. simpl. by rewrite Hf. Qed.

Lemma reap_fold s0 ns s s' :
  NoDup ns → (∀ n, n ∈ ns → children s !! n = children s0 !! n) →
  foldl (reap_one w) (Ok s) (omap (λ n, (λ p, (n, p)) <$> (children s0 !! n ≫= pid)) ns) = Ok s' →
  same_settings s s' ∧
  (∀ n, children s' !! n = if decide (n ∈ ns) then reaped s <$> children s !! n else children s !! n) ∧
  ∃ fx, effects s' = effects s ++ fx ∧ no_spawn fx.
Proof.
  revert s. induction ns as [|n ns IH]; intros s Hnd Hsame; simpl.
  - intros [= <-]. split_and!; [done|done|]. exists []. rewrite app_nil_r. split; [done|].
    by intros m q ?%elem_of_nil.
  - apply NoDup_cons in Hnd as [Hno Hnd].
    assert (children s !! n = children s0 !! n) as Hn by (apply Hsame; by left).
    assert (∀ m, m ∈ ns → children s !! m = children s0 !! m) as Hsame'
      by (intros; apply Hsame; by right).
    rewrite <- Hn. destruct (children s !! n ≫= pid) as [p|] eqn:Hp; simpl.
    + apply bind_Some in Hp as (r & Hr & Hp).
      change (match probe w p with
        | Some (Some f) => _ | Some None => _ | None => _ end) with (reap_one w (Ok s) (n, p)).
      destruct (reap_one w (Ok s) (n, p)) as [s1|s1] eqn:H1.
      2: { by rewrite foldl_err. }
      destruct (reap_one_ok _ _ _ _ _ Hr Hp H1) as ((Hset & Hoth & _) & Hn1 & fx1 & Hfx1 & Hns1).
      intros Hf. apply IH in Hf as (Hset' & Hch & fx2 & Hfx2 & Hns2); [|done|].
      2: { intros m Hm. rewrite Hoth; [by apply Hsame'|]. by intros ->. }
      split_and!.
      * by eapply same_settings_trans.
      * intros m. rewrite Hch. destruct (decide (m = n)) as [->|Hm].
        -- rewrite decide_False by done. rewrite decide_True by by left. by rewrite Hn1, Hr.
        -- rewrite Hoth by done. destruct (decide (m ∈ ns)).
           ++ rewrite decide_True by by right. destruct (children s !! m); [|done]. simpl.
              f_equal. by apply reaped_settings.
           ++ rewrite decide_False; [done|]. by intros [?|?]%elem_of_cons.
      * exists (fx1 ++ fx2). rewrite Hfx2, Hfx1, app_assoc. split; [done|]. by apply no_spawn_app.
    + intros Hf. apply IH in Hf as (Hset & Hch & Hfx); [|done..]. split_and!; [done| |done].
      intros m. rewrite Hch. destruct (decide (m = n)) as [->|Hm].
      * rewrite decide_False by done. rewrite decide_True by by left.
        destruct (children s !! n) as [r|]; [|done]. simpl in *. unfold reaped. by rewrite Hp.
      * destruct (decide (m ∈ ns)); [by rewrite decide_True by by right|].
        rewrite decide_False; [done|]. by intros [?|?]%elem_of_cons.
Qed.

(** ** Deciding *)

(** The second pass spawns a child with the record [r]. *)
Definition due s r : Prop :=
  is_muted (mute_of w s r) = false ∧
  match status r with
  | Exited =>
      respawn_decision (spec r) (default (now w) (last_exit_at r)) (now w) (mute_of w s r) = SpawnNow
  | Throttling =>
      (match throttle_until r with
       | Some u => u
       | None => match last_exit_at r with
                 | Some t => throttle_deadline (spec r) t
                 | None => now w
                 end
       end ≤ now w)%Z
  | Respawning => True
  | Running | Spawning => False
  end.

Lemma mute_of_settings s s' r : same_settings s s' → mute_of w s' r = mute_of w s r.
Proof. intros (Hk & _). unfold mute_of. by rewrite Hk. Qed.

Lemma due_settings s s' r : same_settings s s' → due s' r ↔ due s r.
Proof. intros Hs. unfold due. by rewrite (mute_of_settings _ _ _ Hs). Qed.

Lemma spawn_child_effects n s :
  ∃ fx, effects (spawn_child w n s) = effects s ++ fx ∧
    ∀ m p, Spawned m p ∈ fx ↔ m = n ∧ ∃ r, children s !! n = Some r ∧ spawns w (spec r) = Some p.
Proof.
  unfold spawn_child. destruct (children s !! n) as [r|] eqn:Hn.
  - destruct (spawns w (spec r)) as [q|] eqn:Hq.
    + exists [Spawned n q]. split; [done|]. intros m p. rewrite list_elem_of_singleton. split.
      * intros [= -> ->]. eauto.
      * intros (-> & r' & [= <-] & Hp). congruence.
    + destruct (record_crash_effects n (now w) (set_child n (ChildRecord (name r) (spec r) Exited None
        (Some 127%Z) (last_spawn_at r) (Some (now w)) (throttle_until r)
        (u32_max `min` (respawn_count r + 1))%N (crash_times r) (propulsion_alerted r))
        [SpawnFailed n] s)) as (fx & Hfx & Hns).
      exists (SpawnFailed n :: fx). rewrite Hfx. simpl. rewrite <- app_assoc. split; [done|].
      intros m p. split.
      * intros [?|Hin]%elem_of_cons; [done|]. by destruct (Hns m p).
      * intros (_ & r' & [= <-] & Hp). congruence.
  - exists []. rewrite app_nil_r. split; [done|]. intros m p. split.
    + by intros ?%elem_of_nil.
    + by intros (_ & ? & ? & _).
Qed.

Lemma decide_one_effects n s :
  ∃ fx, effects (decide_one w s n) = effects s ++ fx ∧
    ∀ m p, Spawned m p ∈ fx ↔ m = n ∧ ∃ r, children s !! n = Some r ∧ due s r ∧
      spawns w (spec r) = Some p.
Proof.
  unfold decide_one. destruct (children s !! n) as [r|] eqn:Hn.
  2: { exists []. rewrite app_nil_r. split; [done|]. intros m p. split.
       - by intros ?%elem_of_nil.
       - by intros (_ & ? & ? & _). }
  assert (∀ s', effects s' = effects s → ¬ due s r → ∃ fx, effects s' = effects s ++ fx ∧
    ∀ m p, Spawned m p ∈ fx ↔ m = n ∧ ∃ r', Some r = Some r' ∧ due s r' ∧
      spawns w (spec r') = Some p) as Hnone.
  { intros s' -> Hd. exists []. rewrite app_nil_r. split; [done|]. intros m p. split.
    - by intros ?%elem_of_nil.
    - by intros (_ & ? & [= <-] & ? & _). }
  assert (due s r → ∃ fx, effects (spawn_child w n s) = effects s ++ fx ∧
    ∀ m p, Spawned m p ∈ fx ↔ m = n ∧ ∃ r', Some r = Some r' ∧ due s r' ∧
      spawns w (spec r') = Some p) as Hsome.
  { intros Hd. destruct (spawn_child_effects n s) as (fx & Hfx & Hin). exists fx. split; [done|].
    intros m p. rewrite Hin, Hn. split; intros (-> & r' & [= <-] & Hp); eauto.
    split; [done|]. destruct Hp. eauto. }
  destruct (is_muted (mute_of w s r)) eqn:Hm.
  { destruct (pid r) as [p|].
    - exists [Signalled p SigTerm]. split; [done|]. intros m q. rewrite list_elem_of_singleton.
      split; [done|]. intros (_ & ? & [= <-] & [Hd _] & _). congruence.
    - apply Hnone; [apply app_nil_r|]. intros [Hd _]. congruence. }
  destruct (status r) eqn:Hst.
  - apply Hnone; [done|]. intros [_ Hd]. by rewrite Hst in Hd.
  - apply Hnone; [done|]. intros [_ Hd]. by rewrite Hst in Hd.
  - destruct (respawn_decision _ _ _ _) eqn:Hr.
    + apply Hsome. split; [done|]. by rewrite Hst.
    + apply Hnone; [apply app_nil_r|]. intros [_ Hd]. rewrite Hst in Hd. congruence.
    + apply Hnone; [done|]. intros [_ Hd]. rewrite Hst in Hd. congruence.
  - case_decide as Hu.
    + apply Hsome. split; [done|]. by rewrite Hst.
    + apply Hnone; [done|]. intros [_ Hd]. by rewrite Hst in Hd.
  - apply Hsome. split; [done|]. by rewrite Hst.
Qed.

Lemma decide_fold ns s :
  NoDup ns →
  same_settings s (foldl (decide_one w) s ns) ∧
  ∃ fx, effects (foldl (decide_one w) s ns) = effects s ++ fx ∧
    ∀ m p, Spawned m p ∈ fx ↔ m ∈ ns ∧ ∃ r, children s !! m = Some r ∧ due s r ∧
      spawns w (spec r) = Some p.
Proof.
  revert s. induction ns as [|n ns IH]; intros s Hnd; simpl.
  - split; [done|]. exists []. rewrite app_nil_r. split; [done|]. intros m p. split.
    + by intros ?%elem_of_nil.
    + by intros [?%elem_of_nil _].
  - apply NoDup_cons in Hnd as [Hno Hnd].
    destruct (touches_decide_one n s) as (Hset & Hoth & _).
    destruct (IH (decide_one w s n) Hnd) as (Hset' & fx2 & Hfx2 & Hin2).
    destruct (decide_one_effects n s) as (fx1 & Hfx1 & Hin1).
    split; [by eapply same_settings_trans|]. exists (fx1 ++ fx2).
    rewrite Hfx2, Hfx1, app_assoc. split; [done|]. intros m p.
    rewrite elem_of_app, elem_of_cons, Hin1, Hin2. split.
    + intros [[-> ?]|(Hm & r & Hr & Hd & ?)]; [by split; [left|]|]. split; [by right|].
      exists r. rewrite Hoth in Hr by (by intros ->). by rewrite (due_settings _ _ _ Hset) in Hd.
    + intros ([->|Hm] & r & Hr & Hd & ?); [left; eauto|]. right. split; [done|]. exists r.
      rewrite Hoth by (by intros ->). by rewrite (due_settings _ _ _ Hset).
Qed.

(** ** Well-formed tables *)

(** A pid is known exactly while the child is taken to run, and a throttled
    child waits for the deadline of its last exit. *)
Record wf_child (n : string) r : Prop := {
  wf_name : name r = n ∧ d_name (spec r) = n;
  wf_running : status r = Running ↔ is_Some (pid r);
  wf_not_spawning : status r ≠ Spawning;
  wf_throttle u t : status r = Throttling → throttle_until r = Some u → last_exit_at r = Some t →
    u = throttle_deadline (spec r) t;
}.

Definition wf s : Prop := ∀ n r, children s !! n = Some r → wf_child n r.

Lemma wf_set_child n r fx s : wf s → wf_child n r → wf (set_child n r fx s).
Proof.
  intros Hs Hr m r' Hm. simpl in Hm. destruct (decide (m = n)) as [->|Hne].
  - rewrite lookup_insert_eq in Hm. by simplify_eq.
  - rewrite lookup_insert_ne in Hm by done. by apply Hs.
Qed.

Lemma wf_crash_record n th win t r : wf_child n r → wf_child n (crash_record th win t r).1.
Proof. intros [H1 H2 H3 H4]. by split. Qed.

Lemma wf_record_crash n t s : wf s → wf (record_crash n t s).
Proof.
  intros Hs m r Hm. rewrite lookup_record_crash in Hm. case_decide as Hd; [|by apply Hs].
  subst. apply fmap_Some in Hm as (r0 & Hr0 & ->). apply wf_crash_record. by apply Hs.
Qed.

Lemma wf_ended n code t r : wf_child n r → wf_child n (ended code t r).
Proof. intros [H1 H2 H3 H4]. split; try done. simpl. split; [done|]. by intros [? ?]. Qed.

Lemma probe_ended p f : probe w p = Some (Some f) → ∀ r, ∃ code, f r = ended code (now w) r.
Proof.
  unfold probe. destruct (has_child w p).
  - destruct (reap w p) as [[|c|]|]; intros [= <-] r; eauto.
  - destruct (negb _); intros [= <-] r; eauto.
Qed.

Lemma wf_reap_one n p s s' : wf s → reap_one w (Ok s) (n, p) = Ok s' ∨ reap_one w (Ok s) (n, p) = Err s' → wf s'.
Proof.
  intros Hs. unfold reap_one. cbn [mbind result_bind fst snd].
  destruct (probe w p) as [[f|]|] eqn:Hp; [|intros [[= <-]|[=]]; done|intros [[=]|[= <-]]; done].
  destruct (children s !! n) as [r|] eqn:Hn; [|intros [[= <-]|[=]]; done].
  intros [Heq|[=]]. injection Heq as <-. apply wf_record_crash, wf_set_child; [done|].
  destruct (probe_ended _ _ Hp r) as [code ->]. apply wf_ended. by apply Hs.
Qed.

Lemma wf_reap_all s s' : wf s → reap_all w s = Ok s' ∨ reap_all w s = Err s' → wf s'.
Proof.
  unfold reap_all. generalize (with_pids s). intros l Hs. revert s Hs.
  induction l as [|[n p] l IH]; intros s Hs; simpl; [by intros [[= <-]|[=]]|].
  change (match probe w p with
    | Some (Some f) => _ | Some None => _ | None => _ end) with (reap_one w (Ok s) (n, p)).
  destruct (reap_one w (Ok s) (n, p)) as [s1|s1] eqn:H1.
  - apply IH. eapply wf_reap_one; [done|by left].
  - rewrite foldl_err by done. intros [[=]|[= <-]]. eapply wf_reap_one; [done|by right].
Qed.

Lemma wf_spawn_child n s : wf s → wf (spawn_child w n s).
Proof.
  intros Hs. unfold spawn_child. destruct (children s !! n) as [r|] eqn:Hn; [|done].
  destruct (Hs _ _ Hn) as [H1 H2 H3 H4]. destruct (spawns w (spec r)) as [p|].
  - apply wf_set_child; [done|]. split; simpl; try done; by eexists || done.
  - apply wf_record_crash, wf_set_child; [done|]. split; simpl; done.
Qed.

Lemma wf_decide_one n s : wf s → wf (decide_one w s n).
Proof.
  intros Hs. unfold decide_one. destruct (children s !! n) as [r|] eqn:Hn; [|done].
  pose proof (Hs _ _ Hn) as Hr. destruct (is_muted (mute_of w s r)) eqn:Hm; [by apply wf_set_child|].
  destruct (status r) eqn:Hst; [done|done| | |by apply wf_spawn_child].
  - unfold respawn_decision. rewrite Hm. case_decide; [by apply wf_spawn_child|].
    case_decide; [by apply wf_spawn_child|]. apply wf_set_child; [done|].
    destruct Hr as [Hr1 Hr2 Hr3 Hr4]. split; simpl; try done.
    + rewrite <- Hr2, Hst. by split.
    + intros u t _ [= <-] ->. done.
  - case_decide; [by apply wf_spawn_child|done].
Qed.

Lemma wf_decide_all ns s : wf s → wf (foldl (decide_one w) s ns).
Proof. revert s. induction ns as [|n ns IH]; intros s Hs; [done|]. by apply IH, wf_decide_one. Qed.

Lemma spec_reaped s r : spec (reaped s r) = spec r.
Proof.
  unfold reaped. destruct (pid r) as [p|]; [|done]. simpl.
  destruct (probe w p) as [[f|]|] eqn:Hp; [|done..]. simpl.
  by destruct (probe_ended _ _ Hp r) as [code ->].
Qed.

Lemma NoDup_table_names s : NoDup (hash_iter (dom (children s) : gset string)).
Proof. rewrite hash_iter_perm. apply NoDup_elements. Qed.

Lemma elem_of_table_names n s : n ∈ hash_iter (dom (children s) : gset string) ↔ is_Some (children s !! n).
Proof. rewrite elem_of_hash_iter. apply elem_of_dom. Qed.

Lemma reap_all_spec s s' :
  reap_all w s = Ok s' →
  same_settings s s' ∧ (∀ n, children s' !! n = reaped s <$> children s !! n) ∧
  ∃ fx, effects s' = effects s ++ fx ∧ no_spawn fx.
Proof.
  intros Hr. apply (reap_fold s) in Hr as (Hset & Hch & Hfx); [|apply NoDup_table_names|done].
  split_and!; [done| |done]. intros n. rewrite Hch. case_decide as Hn; [done|].
  destruct (children s !! n) as [r|] eqn:E; [|done]. exfalso. apply Hn. by apply elem_of_table_names.
Qed.

(** A step spawns a child exactly if it is due after the reaping pass; in a
    well-formed table it then has no process, or one that was just seen dead,
    nothing mutes it, and its throttle has passed since its last exit. *)
Theorem step_spawns_exact s :
  wf s →
  match step_once w s with
  | Err s' => wf s'
  | Ok s' =>
      wf s' ∧ ∃ fx, effects s' = effects s ++ fx ∧
      (∀ n p, Spawned n p ∈ fx ↔
         ∃ r, children s !! n = Some r ∧ due s (reaped s r) ∧ spawns w (spec r) = Some p) ∧
      (∀ n p, Spawned n p ∈ fx → ∃ r, children s !! n = Some r ∧
         (∀ q, pid r = Some q → seen_dead q) ∧ is_muted (mute_of w s (reaped s r)) = false ∧
         (status (reaped s r) = Respawning ∨ throttle_seconds (spec r) = 0%N ∨
          ∀ t, last_exit_at (reaped s r) = Some t → (throttle_deadline (spec r) t ≤ now w)%Z))
  end.
Proof.
  intros Hs. unfold step_once. destruct (reap_all w s) as [s1|s1] eqn:Hr; simpl;
    [|by apply (wf_reap_all s); [|right]].
  assert (wf s1) as Hs1 by (by apply (wf_reap_all s); [|left]).
  apply reap_all_spec in Hr as (Hset & Hch & fx1 & Hfx1 & Hns1).
  destruct (decide_fold (hash_iter (dom (children s1))) s1 (NoDup_table_names s1))
    as (_ & fx2 & Hfx2 & Hin2).
  split; [by apply wf_decide_all|]. exists (fx1 ++ fx2).
  assert (∀ n p, Spawned n p ∈ fx1 ++ fx2 ↔
    ∃ r, children s !! n = Some r ∧ due s (reaped s r) ∧ spawns w (spec r) = Some p) as Hexact.
  { intros n p. rewrite elem_of_app, Hin2, elem_of_table_names, Hch. split.
    - intros [Hin|(_ & r1 & Hr1 & Hd & Hp)]; [by destruct (Hns1 n p)|].
      apply fmap_Some in Hr1 as (r & Hr & ->). exists r. rewrite spec_reaped in Hp.
      by rewrite <- (due_settings _ _ _ Hset).
    - intros (r & Hr & Hd & Hp). right. rewrite Hr. simpl. split; [by eexists|].
      exists (reaped s r). by rewrite spec_reaped, (due_settings _ _ _ Hset). }
  split_and!; [by rewrite Hfx2, Hfx1, app_assoc|done|].
  intros n p (r & Hr & Hd & Hp)%Hexact. exists r. split; [done|].
  assert (wf_child n (reaped s r)) as [_ Hrun _ Hthr] by (apply Hs1; by rewrite Hch, Hr).
  destruct Hd as [Hmute Hd]. split_and!; [|done|].
  - intros q Hq. unfold seen_dead. destruct (probe w q) as [[f|]|] eqn:Hprobe; [by exists f|..].
    all: exfalso; assert (reaped s r = r) as Hsame by (unfold reaped; by rewrite Hq; simpl; rewrite Hprobe).
    all: rewrite Hsame in *; assert (status r = Running) as Hst by (apply Hrun; by eexists).
    all: by rewrite Hst in Hd.
  - destruct (status (reaped s r)) eqn:Hst; [done|done| | |by left].
    + right. unfold respawn_decision in Hd. rewrite Hmute, spec_reaped in Hd.
      case_decide; [by left|]. right. intros t Ht. rewrite Ht in Hd. simpl in Hd. by case_decide.
    + right. right. intros t Ht. destruct (throttle_until (reaped s r)) as [u|] eqn:Hu.
      * pose proof (Hthr u t eq_refl eq_refl Ht) as Hut. rewrite spec_reaped in Hut. by subst.
      * by rewrite Ht, spec_reaped in Hd.
Qed.
End Children.

(** ** Hot reload *)

Section Reload.
Context `{Chrono, SpecHash, !HashOrder string}.
Implicit Types (s : supervisor) (old new : gmap string daemon_spec).

Lemma elem_of_diff old new n :
  (n ∈ to_spawn (diff old new) ↔ old !! n = None ∧ is_Some (new !! n)) ∧
  (n ∈ to_kill (diff old new) ↔ is_Some (old !! n) ∧ new !! n = None) ∧
  (n ∈ to_keep (diff old new) ↔ ∃ a b, old !! n = Some a ∧ new !! n = Some b ∧
     spec_content_hash a = spec_content_hash b) ∧
  (n ∈ changed (diff old new) ↔ ∃ a b, old !! n = Some a ∧ new !! n = Some b ∧
     spec_content_hash a ≠ spec_content_hash b).
Proof.
  unfold diff; simpl. rewrite !elem_of_sort_ids, !list_elem_of_filter, !elem_of_hash_iter.
  rewrite !elem_of_difference, elem_of_intersection, !elem_of_dom. unfold same_hash.
  rewrite <- !eq_None_not_Some.
  split_and!; [tauto|tauto| |]; (split; [intros [Hh [[a Ha] [b Hb]]]|intros (a & b & Ha & Hb & Hh)]);
    rewrite Ha, Hb in *.
  - apply bool_decide_eq_true in Hh. eauto.
  - split; [by apply bool_decide_eq_true|]. split; by eexists.
  - apply bool_decide_eq_false in Hh. eauto.
  - split; [by apply bool_decide_eq_false|]. split; by eexists.
Qed.

Lemma NoDup_diff old new :
  NoDup (to_spawn (diff old new)) ∧ NoDup (to_kill (diff old new)) ∧ NoDup (changed (diff old new)).
Proof.
  unfold diff; simpl. rewrite !sort_ids_NoDup.
  split_and!; [| |apply NoDup_filter]; rewrite hash_iter_perm; apply NoDup_elements.
Qed.

(** A fold of operations that each touch one child. *)
Lemma touch_fold (f : supervisor → string → supervisor)
    (g : string → option child_record → option child_record) (e : option child_record → list effect) ns s :
  (∀ s n m, children (f s n) !! m = if decide (m = n) then g n (children s !! n) else children s !! m) →
  (∀ s n, effects (f s n) = effects s ++ e (children s !! n)) →
  NoDup ns →
  (∀ m, children (foldl f s ns) !! m = if decide (m ∈ ns) then g m (children s !! m) else children s !! m) ∧
  effects (foldl f s ns) = effects s ++ concat (map (λ n, e (children s !! n)) ns).
Proof.
  intros Hf He. revert s. induction ns as [|n ns IH]; intros s Hnd; simpl.
  - by rewrite app_nil_r.
  - apply NoDup_cons in Hnd as [Hno Hnd]. destruct (IH (f s n) Hnd) as [Hc Hx]. split.
    + intros m. rewrite Hc, Hf. destruct (decide (m = n)) as [->|Hm].
      * rewrite decide_False by done. by rewrite decide_True by by left.
      * destruct (decide (m ∈ ns)); [by rewrite decide_True by by right|].
        rewrite decide_False; [done|]. by intros [?|?]%elem_of_cons.
    + rewrite Hx, He, <- app_assoc. do 2 f_equal. f_equal. apply map_ext_in.
      intros m Hm%list_elem_of_In. rewrite Hf, decide_False; [done|]. by intros ->.
Qed.

(** The record of a child whose spec has changed. *)
Definition restarted (w : outside) (d : daemon_spec) (r : child_record) : child_record :=
  ChildRecord (name r) d Exited None (last_exit_code r) (last_spawn_at r) (Some (now w))
    (throttle_until r) (respawn_count r) (crash_times r) (propulsion_alerted r).

(** The table and the signals after a reload. *)
Lemma touch_reload w ds s :
  let new := by_name ds in
  let s' := (reload w ds s).2 in
  (∀ n, children s' !! n =
    match children s !! n, new !! n with
    | _, None => None
    | None, Some d => Some (child_fresh d)
    | Some r, Some d =>
        if decide (spec_content_hash (spec r) = spec_content_hash d) then Some r
        else Some (restarted w d r)
    end) ∧
  ∃ fx, effects s' = effects s ++ fx ∧
    ∀ e, e ∈ fx ↔ ∃ n r p, e = Signalled p SigTerm ∧ children s !! n = Some r ∧ pid r = Some p ∧
      ∀ d, new !! n = Some d → spec_content_hash (spec r) ≠ spec_content_hash d.
Proof.
  cbv zeta. set (new := by_name ds). set (d := diff (spec <$> children s) new).
  destruct (NoDup_diff (spec <$> children s) new) as (N1 & N2 & N3). fold d in N1, N2, N3.
  pose proof (elem_of_diff (spec <$> children s) new) as Hd. fold d in Hd.
  set (s1 := foldl kill_one s (to_kill d)).
  set (s2 := foldl (spawn_new new) s1 (to_spawn d)).
  change (reload w ds s).2 with (foldl (change_one w new) s2 (changed d)).
  destruct (touch_fold kill_one (λ _ _, None) term_of (to_kill d) s) as [C1 E1]; [|done|done|].
  { intros s0 n m. unfold kill_one. simpl. case_decide; [subst; apply lookup_delete_eq|].
    by rewrite lookup_delete_ne. }
  fold s1 in C1, E1.
  destruct (touch_fold (spawn_new new)
    (λ n o, match new !! n with Some d => Some (child_fresh d) | None => o end) (λ _, [])
    (to_spawn d) s1) as [C2 E2]; [| |done|].
  { intros s0 n m. unfold spawn_new. destruct (new !! n); simpl; [|by case_decide; [subst|]].
    case_decide; [subst; apply lookup_insert_eq|by rewrite lookup_insert_ne]. }
  { intros s0 n. unfold spawn_new. destruct (new !! n); simpl; by rewrite ?app_nil_r. }
  fold s2 in C2, E2.
  destruct (touch_fold (change_one w new)
    (λ n o, (λ r, restarted w (default (spec r) (new !! n)) r) <$> o) term_of (changed d) s2)
    as [C3 E3]; [| |done|].
  { intros s0 n m. unfold change_one. destruct (children s0 !! n) eqn:E; simpl.
    - case_decide; [subst; apply lookup_insert_eq|by rewrite lookup_insert_ne].
    - by case_decide; [subst|]. }
  { intros s0 n. unfold change_one. destruct (children s0 !! n); simpl; by rewrite ?app_nil_r. }
  assert (∀ n, n ∈ changed d → children s2 !! n = children s !! n) as Hchg.
  { intros n (a & b & Ha & Hb & _)%Hd. rewrite C2, C1. destruct (Hd n) as (D1 & D2 & _ & _).
    rewrite decide_False by (intros [? _]%D1; congruence).
    rewrite decide_False by (intros [_ ?]%D2; congruence). done. }
  split.
  - intros n. rewrite C3, C2, C1. destruct (Hd n) as (D1 & D2 & _ & D4).
    rewrite lookup_fmap in D1, D2, D4.
    destruct (children s !! n) as [r|], (new !! n) as [d0|] eqn:En; simpl in *.
    + rewrite (decide_False (P := n ∈ to_spawn d)) by (intros [? _]%D1; done).
      rewrite (decide_False (P := n ∈ to_kill d)) by (intros [_ ?]%D2; done).
      destruct (decide (spec_content_hash (spec r) = spec_content_hash d0)) as [He|He].
      * rewrite decide_False; [done|]. intros (a & b & [= <-] & [= <-] & ?)%D4. done.
      * rewrite decide_True; [done|]. apply D4. eauto.
    + rewrite decide_False by (intros (? & ? & _ & ? & _)%D4; done).
      rewrite decide_False by (intros [? _]%D1; done).
      rewrite decide_True; [done|]. apply D2. split; [by eexists|done].
    + rewrite decide_False by (intros (? & ? & ? & _)%D4; done).
      rewrite decide_True; [done|]. apply D1. split; [done|by eexists].
    + rewrite decide_False by (intros (? & ? & ? & _)%D4; done).
      rewrite decide_False by (intros [_ [? ?]]%D1; done).
      by case_decide.
  - eexists. rewrite E3, E2, E1, <- !app_assoc. split; [reflexivity|]. intros e.
    assert (concat (map (λ _ : string, @nil effect) (to_spawn d)) = []) as Hnil
      by (clear; induction (to_spawn d) as [|? ? IH]; [done|exact IH]).
    rewrite Hnil, app_nil_l.
    assert (∀ l (t : supervisor), e ∈ concat (map (λ n, term_of (children t !! n)) l) ↔
      ∃ n r p, n ∈ l ∧ e = Signalled p SigTerm ∧ children t !! n = Some r ∧ pid r = Some p) as Hin.
    { intros l t. rewrite list_elem_of_In, in_concat. split.
      - intros (fx & (n & <- & Hn%list_elem_of_In)%in_map_iff & He%list_elem_of_In).
        unfold term_of in He. destruct (children t !! n) as [r|] eqn:Er; [|by apply elem_of_nil in He].
        simpl in He. destruct (pid r) as [p|] eqn:Ep; [|by apply elem_of_nil in He].
        apply list_elem_of_singleton in He. exists n, r, p. by rewrite Er.
      - intros (n & r & p & Hn & -> & Er & Ep). exists (term_of (children t !! n)). split.
        + apply in_map_iff. exists n. by rewrite <- list_elem_of_In.
        + unfold term_of. rewrite Er. simpl. rewrite Ep. by left. }
    rewrite elem_of_app, !Hin. split.
    + intros [(n & r & p & Hn & -> & Er & Ep)|(n & r & p & Hn & -> & Er & Ep)];
        exists n, r, p; (split; [done|]).
      * split_and!; [done..|]. intros d0 Hd0. apply Hd in Hn as [_ ?]. congruence.
      * rewrite Hchg in Er by done. split_and!; [done..|]. intros d0 Hd0.
        apply Hd in Hn as (a & b & Ha & Hb & ?). rewrite lookup_fmap, Er in Ha. simpl in Ha.
        congruence.
    + intros (n & r & p & -> & Er & Ep & Hh). destruct (new !! n) as [d0|] eqn:En.
      * right. assert (n ∈ changed d) as Hn.
        { apply Hd. exists (spec r), d0. rewrite lookup_fmap, Er. simpl. eauto. }
        exists n, r, p. rewrite Hchg by done. done.
      * left. exists n, r, p. split_and!; try done. apply Hd. rewrite lookup_fmap, Er.
        split; [by eexists|done].
Qed.
(** A reload leaves exactly the configured children: new ones fresh, those
    with an equal hash untouched, changed ones with their new specification
    and without a process; exactly the processes of dropped and changed
    children get a signal. *)
Theorem reload_exact w ds s :
  let new := by_name ds in
  let s' := (reload w ds s).2 in
  (∀ n, children s' !! n =
    match children s !! n, new !! n with
    | _, None => None
    | None, Some d => Some (child_fresh d)
    | Some r, Some d =>
        if decide (spec_content_hash (spec r) = spec_content_hash d) then Some r
        else Some (restarted w d r)
    end) ∧
  ∃ fx, effects s' = effects s ++ fx ∧
    ∀ e, e ∈ fx ↔ ∃ n r p, e = Signalled p SigTerm ∧ children s !! n = Some r ∧ pid r = Some p ∧
      ∀ d, new !! n = Some d → spec_content_hash (spec r) ≠ spec_content_hash d.
Proof. apply touch_reload. Qed.
End Reload.

(** ** Reachable tables *)

Section Reachable.
Context `{Chrono, SpecHash, !HashOrder string}.
Implicit Types (s : supervisor).

Lemma by_name_name ds n d : by_name ds !! n = Some d → d_name d = n.
Proof.
  unfold by_name. induction ds as [|d' ds IH] using rev_ind;
    [cbn [foldl]; by rewrite lookup_empty|].
  rewrite foldl_app. simpl. intros [[<- <-]|[_ Hl]]%lookup_insert_Some; [done|by apply IH].
Qed.

(** A supervisor starts on any configuration and any persisted table, and then
    steps and reloads in any order; an error of a step ends it. *)
Inductive reachable : supervisor → Prop :=
| reach_boot w ds persisted kill_path threshold window s :
    boot w ds persisted kill_path threshold window = Some s → reachable s
| reach_step w s s' : reachable s → step_once w s = Ok s' ∨ step_once w s = Err s' → reachable s'
| reach_reload w ds s : reachable s → reachable (reload w ds s).2.

Lemma wf_fresh d : wf_child (d_name d) (child_fresh d).
Proof. split; simpl; done. Qed.

Lemma wf_boot_child w persisted d : wf_child (d_name d) (boot_child w persisted d).
Proof.
  unfold boot_child. destruct (persisted !! d_name d) as [p|]; [|apply wf_fresh].
  destruct (match pc_pid p with Some pid => _ | None => None end) as [q|]; simpl;
    split; simpl; try done; by destruct (pc_status p).
Qed.

Lemma wf_boot_table w persisted ds n r :
  foldl (λ m d, <[d_name d := boot_child w persisted d]> m) (∅ : gmap string child_record) ds !! n
    = Some r → wf_child n r.
Proof.
  induction ds as [|d ds IH] using rev_ind;
    [cbn [foldl]; by rewrite lookup_empty|].
  rewrite foldl_app. simpl. intros [[<- <-]|[_ Hl]]%lookup_insert_Some;
    [apply wf_boot_child|by apply IH].
Qed.

(** In every table that a supervisor can reach, records carry the names
    they are stored under, a pid is recorded exactly while a child is taken to
    run, and a throttled child waits for the deadline of its last exit. *)
Theorem supervisor_invariant s n r :
  reachable s → children s !! n = Some r →
  name r = n ∧ d_name (spec r) = n ∧ (status r = Running ↔ is_Some (pid r)) ∧
  status r ≠ Spawning ∧
  ∀ u t, status r = Throttling → throttle_until r = Some u → last_exit_at r = Some t →
    u = throttle_deadline (spec r) t.
Proof.
  intros Hr Hn. assert (wf s) as Hwf.
  { clear n r Hn. induction Hr as [w ds persisted kp th win s Hb|w s s' _ IH Hs|w ds s _ IH].
    - unfold boot in Hb. destruct (try_seconds win); [|done]. simpl in Hb. simplify_eq.
      intros n r. apply wf_boot_table.
    - unfold step_once in Hs. destruct (reap_all w s) as [s1|s1] eqn:Hre; simpl in Hs.
      + destruct Hs as [[= <-]|[=]]. apply wf_decide_all. by apply (wf_reap_all w s); [|left].
      + destruct Hs as [[=]|[= <-]]. by apply (wf_reap_all w s); [|right].
    - intros n r Hn. pose proof (proj1 (touch_reload w ds s) n) as Hl. rewrite Hn in Hl.
      destruct (children s !! n) as [r0|] eqn:E0, (by_name ds !! n) as [d|] eqn:Ed; try done.
      + pose proof (by_name_name _ _ _ Ed) as Hd. destruct (IH _ _ E0) as [W1 W2 W3 W4].
        case_decide; simplify_eq; [by split|]. split; simpl; try done. by split; [apply W1|].
      + simplify_eq. pose proof (by_name_name _ _ _ Ed) as <-. apply wf_fresh. }
  destruct (Hwf _ _ Hn) as [[? ?] ? ? ?]. by split_and!.
Qed.
End Reachable.

(** ** Crash alerts *)

Section Crashes.
Context (threshold : N) (window : Z).
Hypothesis window_pos : (0 ≤ window)%Z.

(** The crashes of a history in the window before its last. *)
Definition recent (h : list Z) : list Z :=
  match last h with Some t => prune_crash_times h t window | None => [] end.

(** The window holds as many crashes as the threshold asks for. *)
Definition crash_looping (h : list Z) : Prop :=
  threshold ≠ 0%N ∧ h ≠ [] ∧ (threshold ≤ N.of_nat (length (recent h)))%N.

(** A child after the crashes of a history. *)
Definition after_crashes (r : child_record) (h : list Z) : child_record :=
  foldl (λ r t, (crash_record threshold window t r).1) r h.

Lemma prune_prune h a b : (a ≤ b)%Z →
  prune_crash_times (prune_crash_times h a window) b window = prune_crash_times h b window.
Proof.
  intros Hab. unfold prune_crash_times. rewrite list_filter_filter. apply list_filter_iff.
  intros t. lia.
Qed.

(** The crash times that are kept, and the latch. *)
Lemma after_crashes_spec d h :
  StronglySorted Z.le h →
  crash_times (after_crashes (child_fresh d) h) = recent h ∧
  (propulsion_alerted (after_crashes (child_fresh d) h) = true ↔ crash_looping h) ∧
  ∀ h' t, h = h' ++ [t] →
    (is_Some (crash_record threshold window t (after_crashes (child_fresh d) h')).2 ↔
      crash_looping h ∧ ¬ crash_looping h').
Proof.
  induction h as [|t h IH] using rev_ind; intros Hs.
  - split_and!; [done| |intros [|? ?] ? ?; done]. split; [done|]. by intros (_ & ? & _).
  - assert (StronglySorted Z.le h) as Hs' by (by eapply StronglySorted_app_1_l).
    destruct (IH Hs') as (Ht & Ha & _).
    set (r := after_crashes (child_fresh d) h) in *.
    assert (prune_crash_times (crash_times r) t window ++ [t] = recent (h ++ [t])) as Hrec.
    { rewrite Ht. unfold recent at 2. rewrite last_snoc. unfold prune_crash_times at 2.
      rewrite filter_app, filter_cons_True by lia. simpl. f_equal. unfold recent.
      destruct h as [|u h _] using rev_ind; [done|]. rewrite last_snoc. apply prune_prune.
      apply (StronglySorted_app_1_elem_of Z.le (h ++ [u]) [t]); [done| |by left].
      apply elem_of_app. right. by left. }
    assert (crash_loop_alert (recent (h ++ [t])) t threshold window = true ↔ crash_looping (h ++ [t]))
      as Hal.
    { unfold crash_loop_alert, crash_looping. case_decide as H0.
      - split; [done|]. by intros [? _].
      - rewrite bool_decide_eq_true. unfold recent at 1. rewrite last_snoc.
        change (filter (λ t0, t - window ≤ t0)%Z) with (λ l, prune_crash_times l t window). simpl.
        rewrite prune_prune by lia. unfold recent. rewrite last_snoc. split; [|by intros (_ & _ & ?)].
        intros ?. split_and!; [done| |done]. by destruct h. }
    assert (after_crashes (child_fresh d) (h ++ [t]) = (crash_record threshold window t r).1) as Hr'
      by (unfold after_crashes; by rewrite foldl_app).
    rewrite Hr'. unfold crash_record. rewrite Hrec. cbn [fst snd crash_times propulsion_alerted].
    destruct (crash_loop_alert (recent (h ++ [t])) t threshold window) eqn:Ea.
    + assert (crash_looping (h ++ [t])) as Hc by (by apply Hal). split_and!; [done| |].
      * destruct (propulsion_alerted r); simpl; by split.
      * intros h' t' [<- [= <-]]%app_inj_tail. fold r. rewrite Hrec, Ea.
        destruct (propulsion_alerted r) eqn:Ep; simpl.
        -- split; [by intros [? ?]|]. intros [_ Hn]. destruct Hn. by apply Ha.
        -- split; [|by eexists]. intros _. split; [done|]. intros Hh. apply Ha in Hh. congruence.
    + assert (¬ crash_looping (h ++ [t])) as Hc by (intros Hh; apply Hal in Hh; congruence).
      split_and!; [done| |].
      * simpl. by split.
      * intros h' t' [<- [= <-]]%app_inj_tail. fold r. rewrite Hrec, Ea. simpl.
        split; [by intros [? ?]|]. by intros [? _].
Qed.
End Crashes.

(** In a sequence of crashes of a child the alert fires exactly at those
    crashes that bring the number in the window up to the threshold when the
    crash before had not; with a threshold of one it fires at the first crash
    and never again. *)
Theorem crash_alert_exact threshold window_seconds window d h t :
  try_seconds window_seconds = Some window → StronglySorted Z.le (h ++ [t]) →
  let r := after_crashes threshold window (child_fresh d) h in
  (is_Some (crash_record threshold window t r).2 ↔
    crash_looping threshold window (h ++ [t]) ∧ ¬ crash_looping threshold window h) ∧
  (threshold = 1%N → is_Some (crash_record threshold window t r).2 ↔ h = []).
Proof.
  intros Hw Hs. assert (0 ≤ window)%Z as Hpos.
  { unfold try_seconds in Hw. destruct (decide (Z.of_N window_seconds ≤ i64_max)%Z).
    - case_decide; [|done]. injection Hw as <-. lia.
    - by vm_compute in Hw. }
  cbv zeta. destruct (after_crashes_spec threshold window Hpos d _ Hs) as (_ & _ & Hx).
  specialize (Hx h t eq_refl). split; [done|]. intros ->. rewrite Hx.
  assert (∀ l u, crash_looping 1 window (l ++ [u])) as Hall.
  { intros l u. split_and!; [done|by destruct l|]. unfold recent, prune_crash_times.
    rewrite last_snoc, filter_app, filter_cons_True, length_app by lia. simpl. lia. }
  split.
  - intros [_ Hn]. destruct h as [|u h _] using rev_ind; [done|]. by destruct Hn.
  - intros ->. split; [apply (Hall [])|]. by intros (_ & ? & _).
Qed.

(** ** Configurations *)

Lemma daemons_errors_nil seen idx ds :
  daemons_errors seen idx ds = [] ↔
    NoDup (map d_name ds) ∧
    ∀ d, d ∈ ds → d_name d ≠ EmptyString ∧ (d_name d ∉ seen) ∧ trim (binary d) ≠ EmptyString.
Proof.
  revert seen idx. induction ds as [|d ds IH]; intros seen idx; simpl.
  - split; [|done]. intros _. split; [constructor|]. by intros d ?%elem_of_nil.
  - rewrite NoDup_cons. unfold daemon_errors. case_decide as Hn; [split; [done|]|].
    { intros [_ Hd]. by destruct (Hd d ltac:(by left)). }
    case_decide as Hs; [split; [done|]|].
    { intros [_ Hd]. by destruct (Hd d ltac:(by left)) as (_ & ? & _). }
    case_decide as Hb; [split; [done|]|].
    { intros [_ Hd]. by destruct (Hd d ltac:(by left)) as (_ & _ & ?). }
    simpl. rewrite IH. split.
    + intros [Hnd Hds]. split_and!; [|done|].
      * intros (d' & Hd' & Hin)%list_elem_of_fmap. destruct (Hds d' Hin) as (_ & Hno & _). set_solver.
      * intros d' [->|Hin]%elem_of_cons; [done|]. destruct (Hds d' Hin) as (? & Hno & ?). set_solver.
    + intros [[Hno Hnd] Hds]. split; [done|]. intros d' Hin.
      destruct (Hds d' ltac:(by right)) as (? & Hns & ?). split_and!; [done| |done].
      intros [Heq%elem_of_singleton|?]%elem_of_union; [|done].
      apply Hno, list_elem_of_fmap. eauto.
Qed.

(** A configuration of daemons is accepted exactly if the names are
    distinct and not empty and no binary is blank; the table of specifications
    then has one entry per daemon. *)
Theorem daemons_validate_exact ds :
  (daemons_validate ds = Ok () ↔
    NoDup (map d_name ds) ∧
    ∀ d, d ∈ ds → d_name d ≠ EmptyString ∧ trim (binary d) ≠ EmptyString) ∧
  (daemons_validate ds = Ok () → ∀ n d, by_name ds !! n = Some d ↔ d ∈ ds ∧ d_name d = n).
Proof.
  assert (daemons_validate ds = Ok () ↔
    NoDup (map d_name ds) ∧
    ∀ d, d ∈ ds → d_name d ≠ EmptyString ∧ trim (binary d) ≠ EmptyString) as Hv.
  { unfold daemons_validate. pose proof (daemons_errors_nil ∅ 0 ds) as He.
    destruct (daemons_errors ∅ 0 ds) as [|e es].
    - split; [|done]. intros _. destruct (proj1 He eq_refl) as [? Hd]. split; [done|].
      intros d Hin. by destruct (Hd d Hin) as (? & _ & ?).
    - split; [done|]. intros [Hnd Hd]. exfalso. discriminate (proj2 He). split; [done|].
      intros d Hin. destruct (Hd d Hin). split_and!; [done|set_solver|done]. }
  split; [done|]. intros [Hnd _]%Hv n d. unfold by_name. clear Hv. revert Hnd.
  induction ds as [|d' ds IH] using rev_ind; intros Hnd.
  - cbn [foldl]. rewrite lookup_empty. split; [done|]. by intros [?%elem_of_nil _].
  - rewrite foldl_app. simpl. rewrite map_app in Hnd. simpl in Hnd.
    apply NoDup_app in Hnd as (Hnd & Hdis & _). rewrite lookup_insert_Some, IH by done.
    rewrite elem_of_app, list_elem_of_singleton. split.
    + intros [[<- <-]|(Hn & Hin & <-)]; [by split; [right|]|by split; [left|]].
    + intros [[Hin| ->] <-]; [right|by left]. split_and!; [|done..]. intros Heq.
      apply (Hdis (d_name d)); [apply list_elem_of_fmap; eauto|]. rewrite <- Heq. by left.
Qed.

(** ** Concrete tables *)

Section Examples.
#[local] Instance late : Chrono := {| max_utc := 9223372036854775807000000000 |}.
#[local] Instance binary_hash : SpecHash := binary.
#[local] Instance some_order : HashOrder string := plain_order.

Definition daemon (n bin : string) (throttle : N) : daemon_spec :=
  DaemonSpec n bin [] throttle [] None None None true.

(** No locks; every spawn answers [next]; [alive] pids are owned and alive,
    the others have been ended by a signal. *)
Definition outside_at (t : Z) (locked : bool) (alive : list N) (next : N) : outside :=
  Outside t (λ _, locked) (λ _, true)
    (λ p, Some (if decide (p ∈ alive) then RAlive else RSignaled)) (λ p, bool_decide (p ∈ alive))
    (λ _, Some next).

Definition step_or (w : outside) (s : supervisor) : supervisor :=
  match step_once w s with Ok s' => s' | Err s' => s' end.

Definition boot_or (ds : list daemon_spec) (threshold : N) : supervisor :=
  default (Supervisor ∅ "" 0 0 []) (boot (outside_at 0 false [] 0) ds ∅ "mute" threshold 300).

(** A changed daemon is started while its old process, whose pid is no longer
    recorded, is still alive. *)
Example reload_overlap :
  let s1 := step_or (outside_at 0 false [] 1) (boot_or [daemon "d" "old" 0] 5) in
  let s2 := (reload (outside_at 1 false [1%N] 2) [daemon "d" "new" 0] s1).2 in
  let s3 := step_or (outside_at 2 false [1%N] 2) s2 in
  effects s3 = [Spawned "d" 1; Signalled 1 SigTerm; Spawned "d" 2] ∧
  pid <$> children s2 !! "d" = Some None ∧ pid <$> children s3 !! "d" = Some (Some 2%N).
Proof. split_and!; by vm_compute. Qed.

(** The end of a child that the supervisor itself has muted counts as a crash. *)
Example muting_counts_as_crash :
  let s1 := step_or (outside_at 0 false [] 1) (boot_or [daemon "d" "bin" 0] 1) in
  let s2 := step_or (outside_at 1 true [1%N] 2) s1 in
  let s3 := step_or (outside_at 2 true [] 2) s2 in
  effects s3 = [Spawned "d" 1; Signalled 1 SigTerm; PropulsionDown "d" 1].
Proof. by vm_compute. Qed.

(** A window that chrono cannot represent ends the supervisor at its start. *)
Example huge_window_panics :
  boot (outside_at 0 false [] 0) [] ∅ "mute" 5 9223372036854776 = None.
Proof. by vm_compute. Qed.

Lemma sample_wf : wf (boot_or [daemon "d" "bin" 0] 5).
Proof. intros n r. apply (wf_boot_table (outside_at 0 false [] 0) ∅ [daemon "d" "bin" 0]). Qed.

Lemma step_spawns_exact_witness :
  match step_once (outside_at 0 false [] 1) (boot_or [daemon "d" "bin" 0] 5) with
  | Ok s' => wf s'
  | Err s' => wf s'
  end.
Proof.
  pose proof (step_spawns_exact (outside_at 0 false [] 1) (boot_or [daemon "d" "bin" 0] 5) sample_wf)
    as Hs.
  destruct (step_once _ _); [exact (proj1 Hs)|exact Hs].
Defined.

Lemma sample_reachable : reachable (boot_or [daemon "d" "bin" 0] 5).
Proof. by eapply (reach_boot (outside_at 0 false [] 0) [daemon "d" "bin" 0] ∅ "mute" 5 300). Qed.

Lemma supervisor_invariant_witness :
  children (boot_or [daemon "d" "bin" 0] 5) !! "d" = Some (child_fresh (daemon "d" "bin" 0)) ∧
  name (child_fresh (daemon "d" "bin" 0)) = "d".
Proof.
  split; [by vm_compute|].
  exact (proj1 (supervisor_invariant _ "d" (child_fresh (daemon "d" "bin" 0)) sample_reachable
    ltac:(by vm_compute))).
Defined.

Lemma crash_alert_exact_witness :
  is_Some (crash_record 2 300000000000 5
    (after_crashes 2 300000000000 (child_fresh (daemon "d" "bin" 0)) [3%Z])).2 ↔
  crash_looping 2 300000000000 [3; 5]%Z ∧ ¬ crash_looping 2 300000000000 [3]%Z.
Proof.
  apply (crash_alert_exact 2 300 300000000000 (daemon "d" "bin" 0) [3%Z] 5).
  - by vm_compute.
  - repeat constructor; lia.
Defined.

Lemma daemons_validate_exact_witness :
  daemons_validate [daemon "d" "bin" 0] = Ok () ∧
  (by_name [daemon "d" "bin" 0] !! "d" = Some (daemon "d" "bin" 0) ↔
    daemon "d" "bin" 0 ∈ [daemon "d" "bin" 0] ∧ d_name (daemon "d" "bin" 0) = "d").
Proof.
  split; [by vm_compute|].
  apply (proj2 (daemons_validate_exact [daemon "d" "bin" 0])). by vm_compute.
Defined.
End Examples.
