(* ===== verification/Concurrent.v ===== *)
(** Processes that share a store. A call is a [prog]: a tree of atomic
    operations on the store, written in monadic style as the code reads. A
    [system] interleaves any number of calls, which may fail at any operation
    or be killed at any point, with the steps of other writers. The
    rely/guarantee rules at the end prove properties of all interleavings from
    one pass over each call. *)
From S2P Require Import Prelude.
From stdpp Require Import prelude relations list.

(** ** Programs *)

Inductive prog (op : Type → Type) (A : Type) : Type :=
| Ret (a : A)
| Vis {R : Type} (o : op R) (k : R → prog op A).
Arguments Ret {op A} a.
Arguments Vis {op A R} o k.

Fixpoint prog_bind {op A B} (f : A → prog op B) (p : prog op A) : prog op B :=
  match p with
  | Ret a => f a
  | Vis o k => Vis o (λ r, prog_bind f (k r))
  end.

#[export] Instance prog_ret {op} : MRet (prog op) := λ A a, Ret a.
#[export] Instance prog_mbind {op} : MBind (prog op) := λ A B f p, prog_bind f p.

Definition prog_map {op A B} (f : A → B) (p : prog op A) : prog op B := a ← p; mret (f a).

Definition call {op R} (o : op R) : prog op R := Vis o Ret.

(** [e?] on a [Result]: an error ends the call with [Err (f e)]. *)
Definition try {op E F A B} (p : prog op (result E A)) (f : E → F)
    (k : A → prog op (result F B)) : prog op (result F B) :=
  r ← p; match r with Ok a => k a | Err e => mret (Err (f e)) end.

Notation "'try!' x ← p 'catch' f ; k" := (try p f (λ x, k))
  (at level 10, x name, p at level 100, f at level 10, k at level 200).

(** ** Systems *)

(** [exec c t o s] performs the operation [o] of the process [t]; the choice
    [c] says how the operation fares. [None]: it blocks. [release] is what the
    operating system does when a process ends. [others] are the atomic steps
    of writers that are not modelled as programs. *)
Class Machine (op : Type → Type) (St A : Type) := {
  choice : Type;
  exec : choice → nat → ∀ R, op R → St → option (R * St);
  release : nat → St → St;
  others : St → St → Prop;
  client : prog op A → Prop;
}.

Inductive process (op : Type → Type) (A : Type) : Type :=
| Running (p : prog op A)
| Returned (a : A)
| Dead.
Arguments Running {op A} p.
Arguments Returned {op A} a.
Arguments Dead {op A}.

Record system (op : Type → Type) (St A : Type) := System {
  shared : St;
  processes : list (process op A);
}.
Arguments System {op St A} shared processes.
Arguments shared {op St A} s.
Arguments processes {op St A} s.

Section System.
Context {op : Type → Type} {St A : Type} `{M : !Machine op St A}.
Implicit Types (t : nat) (s : St) (p : prog op A) (ts : list (process op A)).

Inductive step : system op St A → system op St A → Prop :=
| step_start s ts p :
    client p → step (System s ts) (System s (ts ++ [Running p]))
| step_call s ts t R (o : op R) (k : R → prog op A) c r s' :
    ts !! t = Some (Running (Vis o k)) → exec c t R o s = Some (r, s') →
    step (System s ts) (System s' (<[t := Running (k r)]> ts))
| step_return s ts t a :
    ts !! t = Some (Running (Ret a)) →
    step (System s ts) (System (release t s) (<[t := Returned a]> ts))
| step_kill s ts t p :
    ts !! t = Some (Running p) →
    step (System s ts) (System (release t s) (<[t := Dead]> ts))
| step_others s ts s' :
    others s s' → step (System s ts) (System s' ts).

Definition reachable (s0 : St) (y : system op St A) : Prop := rtc step (System s0 []) y.

(** What has returned stays so. *)
Lemma steps_returned y y' t a :
  processes y !! t = Some (Returned a) → rtc step y y' → processes y' !! t = Some (Returned a).
Proof.
  intros Ht Hr. induction Hr as [|y1 y2 y3 Hs Hr IH]; [done|]. apply IH. clear Hr IH.
  destruct Hs as [s ts p Hp|s ts t' R o k c r s' Ht' He|s ts t' a' Ht'|s ts t' p Ht'|s ts s' Ho];
    cbn in *; [by apply lookup_app_l_Some|..|done];
    (rewrite list_lookup_insert_ne; [done|]; intros ->; congruence).
Qed.

(** One process that runs with nobody else, all its operations faring as
    [c]. *)
Fixpoint run {B} (c : choice) t (p : prog op B) s : option (B * St) :=
  match p with
  | Ret b => Some (b, s)
  | Vis o k => '(r, s') ← exec c t _ o s; run c t (k r) s'
  end.

Definition run_alone (c : choice) t p s : option (A * St) :=
  '(a, s') ← run c t p s; Some (a, release t s').

(** A process that runs with nobody else, its operations faring as listed. *)
Fixpoint runs {B} (cs : list choice) t (p : prog op B) s : option (B * St) :=
  match p, cs with
  | Ret b, [] => Some (b, s)
  | Vis o k, c :: cs => '(r, s') ← exec c t _ o s; runs cs t (k r) s'
  | _, _ => None
  end.

Lemma runs_bind {B C} cs t (p : prog op B) (f : B → prog op C) s x :
  runs cs t (p ≫= f) s = Some x →
  ∃ cs1 cs2 b s1, cs = cs1 ++ cs2 ∧ runs cs1 t p s = Some (b, s1) ∧ runs cs2 t (f b) s1 = Some x.
Proof.
  revert cs s. induction p as [b|R o k IH]; intros cs s; [by exists [], cs, b, s|].
  destruct cs as [|c cs]; [done|].
  change (runs (c :: cs) t (Vis o k ≫= f) s)
    with ('(r, s') ← exec c t _ o s; runs cs t (k r ≫= f) s').
  destruct (exec c t R o s) as [[r s1]|] eqn:He; cbn; [|done].
  intros (cs1 & cs2 & b & s2 & -> & Hr & Hx)%IH. exists (c :: cs1), cs2, b, s2. cbn. by rewrite He.
Qed.

Lemma runs_call {B R} cs t (o : op R) (k : R → prog op B) s x :
  runs cs t (r ← call o; k r) s = Some x →
  ∃ c cs' r s1, cs = c :: cs' ∧ exec c t _ o s = Some (r, s1) ∧ runs cs' t (k r) s1 = Some x.
Proof.
  destruct cs as [|c cs]; [done|]. unfold call. cbn.
  destruct (exec c t R o s) as [[r s1]|] eqn:He; cbn; [|done]. eauto 8.
Qed.

Lemma runs_ret {B} cs t (b : B) s x : runs cs t (mret b) s = Some x → cs = [] ∧ x = (b, s).
Proof. destruct cs; [|done]. by intros [= <-]. Qed.

Lemma run_bind {B C} c t (p : prog op B) (f : B → prog op C) s :
  run c t (p ≫= f) s = '(b, s') ← run c t p s; run c t (f b) s'.
Proof.
  revert s. induction p as [b|R o k IH]; intros s; [done|].
  change (run c t (Vis o k ≫= f) s) with ('(r, s') ← exec c t _ o s; run c t (k r ≫= f) s').
  cbn [run]. destruct (exec c t R o s) as [[r s']|]; [|done]. apply IH.
Qed.

Lemma run_call {B R} c t (o : op R) (k : R → prog op B) s :
  run c t (r ← call o; k r) s = '(r, s') ← exec c t _ o s; run c t (k r) s'.
Proof. done. Qed.

Lemma run_try {E F B C} c t (o : op (result E B)) (f : E → F) (k : B → prog op (result F C)) s b s' :
  exec c t _ o s = Some (Ok b, s') → run c t (try (call o) f k) s = run c t (k b) s'.
Proof. unfold try. rewrite run_call. by intros ->. Qed.

Lemma run_steps c t p s a s' ts :
  ts !! t = Some (Running p) → run c t p s = Some (a, s') →
  rtc step (System s ts) (System s' (<[t := Running (Ret a)]> ts)).
Proof.
  revert s ts. induction p as [b|R o k IH]; intros s ts Ht; cbn [run].
  - intros [= <- <-]. by rewrite list_insert_id.
  - destruct (exec c t R o s) as [[r s1]|] eqn:He; cbn; [|done]. intros Hr.
    eapply rtc_l; [by eapply step_call|].
    rewrite <- (list_insert_insert_eq ts t (Running (Ret a)) (Running (k r))).
    eapply IH; [|done]. apply list_lookup_insert_eq. by eapply lookup_lt_Some.
Qed.

Lemma run_alone_steps c t p s a s' ts :
  ts !! t = Some (Running p) → run_alone c t p s = Some (a, s') →
  rtc step (System s ts) (System s' (<[t := Returned a]> ts)).
Proof.
  intros Ht. unfold run_alone. destruct (run c t p s) as [[a1 s1]|] eqn:Hr; cbn; [|done].
  intros [= <- <-]. eapply rtc_r; [by eapply run_steps|].
  rewrite <- (list_insert_insert_eq ts t (Returned a1) (Running (Ret a1))).
  apply step_return, list_lookup_insert_eq. by eapply lookup_lt_Some.
Qed.

(** A call that starts and runs to its end. *)
Lemma start_and_run c p s a s' ts :
  client p → run_alone c (length ts) p s = Some (a, s') →
  rtc step (System s ts) (System s' (ts ++ [Returned a])).
Proof.
  intros Hp Hr. eapply rtc_l; [by apply step_start|].
  assert (ts ++ [Returned a] = <[length ts := Returned a]> (ts ++ [Running p])) as ->
    by (symmetry; by rewrite insert_app_r_alt, Nat.sub_diag by lia).
  eapply run_alone_steps; [|done]. by rewrite lookup_app_r, Nat.sub_diag by lia.
Qed.

(** Calls one after the other, each with its choice. *)
Fixpoint play (l : list (choice * prog op A)) (y : system op St A) : option (system op St A) :=
  match l with
  | [] => Some y
  | (c, p) :: l =>
      '(a, s) ← run_alone c (length (processes y)) p (shared y);
      play l (System s (processes y ++ [Returned a]))
  end.

Lemma play_steps l y y' : Forall (λ x, client x.2) l → play l y = Some y' → rtc step y y'.
Proof.
  revert y. induction l as [|[c p] l IH]; intros y Hl; [by intros [= ->]|]. apply Forall_cons in Hl as [Hp Hl].
  destruct y as [s0 ts]. cbn [play processes shared]. destruct (run_alone c (length ts) p s0) as [[a s]|] eqn:Hr; cbn; [|done].
  intros Hy. etrans; [by eapply start_and_run|by apply IH].
Qed.

(** The first [n] operations of a call. *)
Fixpoint run_for {B} (n : nat) (c : choice) t (p : prog op B) s : option (prog op B * St) :=
  match n, p with
  | S n, Vis o k => '(r, s') ← exec c t _ o s; run_for n c t (k r) s'
  | _, _ => Some (p, s)
  end.

Lemma run_for_steps n c t p s p' s' ts :
  ts !! t = Some (Running p) → run_for n c t p s = Some (p', s') →
  rtc step (System s ts) (System s' (<[t := Running p']> ts)).
Proof.
  revert p s ts. induction n as [|n IH]; intros p s ts Ht.
  { intros [= <- <-]. by rewrite list_insert_id. }
  destruct p as [a|R o k]; cbn [run_for].
  { intros [= <- <-]. by rewrite list_insert_id. }
  destruct (exec c t R o s) as [[r s1]|] eqn:He; cbn; [|done]. intros Hr.
  eapply rtc_l; [by eapply step_call|].
  rewrite <- (list_insert_insert_eq ts t (Running p') (Running (k r))).
  eapply IH; [|done]. apply list_lookup_insert_eq. by eapply lookup_lt_Some.
Qed.

(** A call that starts, performs [n] operations and is killed. *)
Lemma start_and_kill n c p s p' s' ts :
  client p → run_for n c (length ts) p s = Some (p', s') →
  rtc step (System s ts) (System (release (length ts) s') (ts ++ [Dead])).
Proof.
  intros Hp Hr. eapply rtc_l; [by apply step_start|].
  assert ((ts ++ [Running p]) !! length ts = Some (Running p)) as Ht
    by (by rewrite lookup_app_r, Nat.sub_diag by lia).
  eapply rtc_r; [by eapply run_for_steps|].
  assert (∀ x y, <[length ts := y]> (ts ++ [x]) = ts ++ [y]) as Hi
    by (intros x y; by rewrite insert_app_r_alt, Nat.sub_diag by lia).
  rewrite Hi, <- (Hi (Running p') Dead). eapply step_kill.
  by rewrite lookup_app_r, Nat.sub_diag by lia.
Qed.

(** ** Rely and guarantee *)

(** The store invariant [Inv], what a process may do to the store [G], and
    what is true of a process that has not started [fresh]. *)
Context (Inv : St → Prop) (G : nat → St → St → Prop) (fresh : nat → St → Prop).

Definition rely t s s' : Prop :=
  Inv s ∧ Inv s' ∧ (others s s' ∨ ∃ t', t' ≠ t ∧ G t' s s').

Definition stable t (P : St → Prop) : Prop := ∀ s s', P s → rely t s s' → P s'.

Fixpoint wp {B} t (p : prog op B) (Q : B → St → Prop) (s : St) : Prop :=
  match p with
  | Ret b => Q b s
  | Vis o k => ∀ s1, rtc (rely t) s s1 → ∀ c r s2, Inv s1 → exec c t _ o s1 = Some (r, s2) →
      Inv s2 ∧ G t s1 s2 ∧ wp t (k r) Q s2
  end.

Lemma wp_bind {B C} t (p : prog op B) (f : B → prog op C) Q s :
  wp t p (λ b, wp t (f b) Q) s → wp t (p ≫= f) Q s.
Proof.
  revert s. induction p as [b|R o k IH]; intros s; [done|]. intros Hw.
  change (wp t (Vis o (λ r, k r ≫= f)) Q s).
  intros s1 Hs1 c r s2 HI He. destruct (Hw s1 Hs1 c r s2 HI He) as (? & ? & ?). eauto.
Qed.

Lemma wp_mono {B} t (p : prog op B) (Q Q' : B → St → Prop) s :
  (∀ b s, Q b s → Q' b s) → wp t p Q s → wp t p Q' s.
Proof.
  intros HQ. revert s. induction p as [b|R o k IH]; intros s; cbn; [eauto|]. intros Hw.
  intros s1 Hs1 c r s2 HI He. destruct (Hw s1 Hs1 c r s2 HI He) as (? & ? & ?). eauto.
Qed.

Lemma stable_rtc t P s s' : stable t P → P s → rtc (rely t) s s' → P s'.
Proof. intros Hst HP Hs. induction Hs; eauto. Qed.

Lemma wp_vis {B R} t (o : op R) (k : R → prog op B) Q (P : St → Prop) s :
  stable t P → P s →
  (∀ s1 c r s2, P s1 → Inv s1 → exec c t R o s1 = Some (r, s2) →
     Inv s2 ∧ G t s1 s2 ∧ wp t (k r) Q s2) →
  wp t (Vis o k) Q s.
Proof. intros Hst HP Hk s1 Hs1 c r s2 HI He. eapply Hk; eauto. by eapply stable_rtc. Qed.

Lemma wp_try {E F B C} t (p : prog op (result E B)) (f : E → F)
    (k : B → prog op (result F C)) Q s :
  wp t p (λ r s, match r with Ok b => wp t (k b) Q s | Err e => Q (Err (f e)) s end) s →
  wp t (try p f k) Q s.
Proof.
  intros Hw. unfold try. apply wp_bind. eapply wp_mono; [|exact Hw]. by intros [b|e].
Qed.

Lemma wp_call {B R} t (o : op R) (k : R → prog op B) Q (P : St → Prop) s :
  stable t P → P s →
  (∀ s1 c r s2, P s1 → Inv s1 → exec c t R o s1 = Some (r, s2) →
     Inv s2 ∧ G t s1 s2 ∧ wp t (k r) Q s2) →
  wp t (r ← call o; k r) Q s.
Proof. apply wp_vis. Qed.

Lemma wp_try_call {E F B C} t (o : op (result E B)) (f : E → F)
    (k : B → prog op (result F C)) Q (P : St → Prop) s :
  stable t P → P s →
  (∀ s1 c r s2, P s1 → Inv s1 → exec c t _ o s1 = Some (r, s2) →
     Inv s2 ∧ G t s1 s2 ∧ match r with Ok b => wp t (k b) Q s2 | Err e => Q (Err (f e)) s2 end) →
  wp t (try (call o) f k) Q s.
Proof.
  intros Hst HP Hk. apply wp_vis with P; [done..|]. intros s1 c r s2 HP1 HI He.
  destruct (Hk s1 c r s2 HP1 HI He) as (? & ? & Hr). split_and!; [done..|].
  by destruct r.
Qed.

Lemma wp_map {B C} t (f : B → C) (p : prog op B) Q s :
  wp t p (λ b, Q (f b)) s → wp t (prog_map f p) Q s.
Proof. exact (wp_bind t p (λ b, mret (f b)) Q s). Qed.

Lemma wp_rely {B} t (p : prog op B) Q s s' :
  (∀ b, stable t (Q b)) → wp t p Q s → rely t s s' → wp t p Q s'.
Proof.
  intros HQ. destruct p as [b|R o k]; [by intros; eapply HQ|].
  intros Hw Hr s1 Hs1. apply Hw. by eapply rtc_l.
Qed.

(** A run with nobody else is one of the interleavings. *)
Lemma wp_run {B} c t (p : prog op B) Q s b s' :
  Inv s → wp t p Q s → run c t p s = Some (b, s') → Inv s' ∧ Q b s'.
Proof.
  revert s. induction p as [a|R o k IH]; intros s HI; cbn [wp run]; [intros HQ [= <- <-]; done|]. intros Hw.
  destruct (exec c t R o s) as [[r s1]|] eqn:He; cbn; [|done].
  destruct (Hw s ltac:(done) c r s1 HI He) as (HI1 & _ & Hk). by apply IH.
Qed.

(** A call carries along what nobody undoes, itself included. *)
Lemma wp_frame {B} t (p : prog op B) Q (P : St → Prop) s :
  stable t P → (∀ s s', P s → G t s s' → P s') → P s → wp t p Q s → wp t p (λ b s, Q b s ∧ P s) s.
Proof.
  intros Hst HG. revert s. induction p as [b|R o k IH]; intros s Hs Hw; [done|]. intros s1 Hs1 c r s2 HI He.
  destruct (Hw s1 Hs1 c r s2 HI He) as (HI2 & Hd & Hk). split_and!; [done..|]. apply IH; [|done].
  eapply HG; [|done]. by eapply stable_rtc.
Qed.

(** The system invariant: the store is well formed, each running process meets
    its postcondition and each returned one has. *)
Context (Q : nat → A → St → Prop).

Definition process_ok (s : St) t (x : process op A) : Prop :=
  match x with
  | Running p => wp t p (Q t) s
  | Returned a => Q t a s
  | Dead => True
  end.

Definition system_ok (y : system op St A) : Prop :=
  Inv (shared y) ∧
  (∀ t x, processes y !! t = Some x → process_ok (shared y) t x) ∧
  (∀ t, length (processes y) ≤ t → fresh t (shared y)).

Record sound := {
  sound_client t p s : client p → Inv s → fresh t s → wp t p (Q t) s;
  sound_stable t a : stable t (Q t a);
  sound_fresh t : stable t (fresh t);
  sound_release t s : Inv s → Inv (release t s) ∧ G t s (release t s);
  sound_returned t a s : Inv s → Q t a s → Q t a (release t s);
  sound_others s s' : Inv s → others s s' → Inv s';
}.

Hypothesis Hsound : sound.

Lemma process_ok_rely s s' t x : process_ok s t x → rely t s s' → process_ok s' t x.
Proof.
  destruct x as [p|a|]; cbn; [|by intros; eapply (sound_stable Hsound)|done].
  intros. eapply wp_rely; eauto. apply (sound_stable Hsound).
Qed.

(** A step of the process [t] keeps what is true of the others. *)
Lemma system_ok_update s s' ts t x :
  Inv s → Inv s' → G t s s' → t < length ts → process_ok s' t x →
  system_ok (System s ts) → system_ok (System s' (<[t := x]> ts)).
Proof.
  intros HI HI' HG Hlt Hx (_ & Hts & Hfr). split; [done|]. cbn in *. split.
  - intros t' x' Ht'. destruct (decide (t = t')) as [<-|Hne].
    + rewrite list_lookup_insert_eq in Ht' by done. by simplify_eq.
    + rewrite list_lookup_insert_ne in Ht' by done.
      eapply process_ok_rely; [by apply Hts|]. split_and!; [done..|]. right. by exists t.
  - intros t' Ht'. rewrite length_insert in Ht'.
    eapply (sound_fresh Hsound); [by apply Hfr|]. split_and!; [done..|]. right.
    exists t. split; [lia|done].
Qed.

Lemma step_ok y y' : system_ok y → step y y' → system_ok y'.
Proof.
  intros Hok Hs. pose proof Hok as (HI & Hts & Hfr).
  destruct Hs as [s ts p Hp|s ts t R o k c r s' Ht He|s ts t a Ht|s ts t p Ht|s ts s' Ho];
    cbn in HI, Hts, Hfr.
  - split; [done|]. cbn. split.
    + intros t x [Ht|[Hlen Ht]]%lookup_app_Some; [by apply Hts|].
      apply list_lookup_singleton_Some in Ht as [Hz <-]. cbn.
      apply (sound_client Hsound); [done..|]. apply Hfr. done.
    + intros t Ht. rewrite length_app in Ht. apply Hfr. cbn in Ht. lia.
  - pose proof (Hts _ _ Ht) as Hw. cbn in Hw.
    destruct (Hw s ltac:(done) c r s' HI He) as (HI' & HG & Hk).
    apply (system_ok_update s); [done..|by eapply lookup_lt_Some|done|done].
  - destruct (sound_release Hsound t s HI) as [HI' HG].
    apply (system_ok_update s); [done..|by eapply lookup_lt_Some| |done]. cbn.
    apply (sound_returned Hsound); [done|]. by apply (Hts _ _ Ht).
  - destruct (sound_release Hsound t s HI) as [HI' HG].
    apply (system_ok_update s); [done..|by eapply lookup_lt_Some|done|done].
  - pose proof (sound_others Hsound _ _ HI Ho) as HI'.
    assert (∀ t, rely t s s') as Hr by (intros t; split_and!; auto).
    split; [done|]. cbn. split.
    + intros t x Ht. eapply process_ok_rely; [by apply Hts|done].
    + intros t Ht. eapply (sound_fresh Hsound); [by apply Hfr|done].
Qed.

Lemma steps_ok y y' : system_ok y → rtc step y y' → system_ok y'.
Proof. intros Hok Hr. induction Hr as [|y1 y2 y3 Hs Hr IH]; [done|]. apply IH. by eapply step_ok. Qed.

(** What no step of anybody can change stays true. *)
Lemma steps_stable (P : St → Prop) y y' :
  (∀ t, stable t P) → system_ok y → rtc step y y' → P (shared y) → P (shared y').
Proof.
  intros Hst Hok Hr. induction Hr as [|y1 y2 y3 Hs Hr IH]; [done|]. intros HP.
  pose proof (step_ok _ _ Hok Hs) as Hok2. apply IH; [done|]. clear IH Hr.
  pose proof (proj1 Hok2) as HI2. pose proof Hok as (HI & Hts & _).
  destruct Hs as [s ts p Hp|s ts t R o k c r s' Ht He|s ts t a Ht|s ts t p Ht|s ts s' Ho];
    cbn in *; [done|..].
  - apply (Hst (S t) s); [done|]. split_and!; [done..|]. right. exists t. split; [lia|].
    pose proof (Hts _ _ Ht) as Hw. cbn in Hw. by destruct (Hw s ltac:(done) c r s' HI He) as (_ & ? & _).
  - apply (Hst (S t) s); [done|]. split_and!; [done..|]. right. exists t. split; [lia|].
    by apply (sound_release Hsound).
  - apply (Hst (S t) s); [done|]. split_and!; [done..|]. right. exists t. split; [lia|].
    by apply (sound_release Hsound).
  - apply (Hst 0 s); [done|]. split_and!; auto.
Qed.

Lemma reachable_ok s0 y :
  Inv s0 → (∀ t, fresh t s0) → reachable s0 y → system_ok y.
Proof. intros HI Hfr. apply steps_ok. by split_and!; [|intros|auto]. Qed.

End System.
