(* ===== verification/Store.v ===== *)
(** The file store ([crates/cosmon-filestore/src/lib.rs], the port [StateStore]
    of [crates/cosmon-state/src/lib.rs]) as the shared state of concurrent
    processes: molecule files, collapse key records, dispatch locks and the
    trace of what the processes did. Each operation is one atomic step, because
    the source reads and replaces whole files under its locks. *)
From stdpp Require Import prelude gmap strings list.
From S2P Require Import Prelude Text Ids Molecule Links RunState Process Contract State Concurrent.

(** ** Files *)

(** A [state.json]: the fields of [MoleculeData] and the keys that this binary
    does not know. *)
Record molecule_file := MoleculeFile { file_data : molecule_data; file_unknown : string }.

(** BLAKE3 of the canonical JSON of a state file, and of a key, in
    hexadecimal. *)
Class StoreHash := {
  state_hex : molecule_file → string;
  key_hex : string → string;
}.

Definition of_state_bytes `{StoreHash} (f : molecule_file) : string := b3_prefix +:+ state_hex f.
Definition file_stem `{StoreHash} (key : string) : string := key_hex key.

Inductive cosmon_error : Type :=
| ENotFound (id : mid)
| EStateStore (reason : string).

Definition cosmon_to_string (e : cosmon_error) : string :=
  match e with
  | ENotFound id => "molecule not found: " +:+ mid_raw id
  | EStateStore reason => reason
  end.

(** ** The fleet file *)

Inductive clearance : Set := ClRead | ClWrite | ClExecute.

Record worker_data := WorkerData {
  w_id : string;
  w_agent_id : string;
  w_role : agent_role;
  w_clearance : clearance;
  w_status : WorkerStatus.worker_status;
  w_worker_role : worker_role;
  w_desired : Desired.desired_state;
  w_repo : option string;
  w_current_molecule : option mid;
  w_updated_at : Z;
  w_preempted_by : option string;
  w_frozen_molecule : option mid;
  w_frozen_at : option Z;
  w_restart_count : N;
}.

(** [WorkerData::new] *)
Definition worker_data_new (id agent_id : string) (role : agent_role) (c : clearance)
    (status : WorkerStatus.worker_status) (now : Z) : worker_data :=
  WorkerData id agent_id role c status (derive_worker_role role id) Desired.Running None None now
    None None None 0.

(** The repositories of the fleet are not looked at. *)
Record fleet := Fleet {
  workers : gmap string worker_data;
  repos : gmap string string;
  attention_budget : option N;
}.

Definition fleet_default : fleet := Fleet ∅ ∅ None.

(** [reconcile_worker_roles] promotes what is derived to be a runtime. *)
Definition reconcile_role (w : worker_data) : worker_data :=
  match w_worker_role w with
  | WCognition =>
      WorkerData (w_id w) (w_agent_id w) (w_role w) (w_clearance w) (w_status w)
        (derive_worker_role (w_role w) (w_id w)) (w_desired w) (w_repo w) (w_current_molecule w)
        (w_updated_at w) (w_preempted_by w) (w_frozen_molecule w) (w_frozen_at w) (w_restart_count w)
  | WRuntime => w
  end.

Definition reconcile_worker_roles (f : fleet) : fleet :=
  Fleet (reconcile_role <$> workers f) (repos f) (attention_budget f).

Inductive fleet_file : Type := FleetAbsent | FleetFile (f : fleet) | FleetUnreadable.

(** What the processes did, for stating properties: a key record was created,
    a receipt entered a state, a key record was marked committed, a collapse
    was written to the log and to the events, a [WorkerSpawned] event was
    appended. *)
Inductive effect : Type :=
| DidReserve (t : nat) (key : string)
| DidSave (t : nat) (receipt : collapse_receipt)
| DidCommit (t : nat) (key : string)
| DidAnnounce (t : nat) (id : mid) (key : option string) (from reason : string)
    (kind : option collapse_reason)
| DidSpawn (t : nat) (id : mid) (worker : string).

Definition effect_by (e : effect) : nat :=
  match e with
  | DidReserve t _ | DidSave t _ | DidCommit t _ | DidAnnounce t _ _ _ _ _ | DidSpawn t _ _ => t
  end.

(** [st_binder] is not in the source: it says which process bound the process
    record that a molecule has. *)
Record store := Store {
  st_molecules : gmap mid molecule_file;
  st_keys : gmap string key_record;
  st_locks : gmap mid nat;
  st_fleet : fleet_file;
  st_fleet_lock : option nat;
  st_binder : gmap mid nat;
  st_trace : list effect;
}.

Definition set_molecules (s : store) (ms : gmap mid molecule_file) (binder : gmap mid nat) : store :=
  Store ms (st_keys s) (st_locks s) (st_fleet s) (st_fleet_lock s) binder (st_trace s).
Definition set_keys (s : store) (ks : gmap string key_record) : store :=
  Store (st_molecules s) ks (st_locks s) (st_fleet s) (st_fleet_lock s) (st_binder s) (st_trace s).
Definition set_locks (s : store) (ls : gmap mid nat) : store :=
  Store (st_molecules s) (st_keys s) ls (st_fleet s) (st_fleet_lock s) (st_binder s) (st_trace s).
Definition set_fleet (s : store) (f : fleet_file) : store :=
  Store (st_molecules s) (st_keys s) (st_locks s) f (st_fleet_lock s) (st_binder s) (st_trace s).
Definition set_fleet_lock (s : store) (l : option nat) : store :=
  Store (st_molecules s) (st_keys s) (st_locks s) (st_fleet s) l (st_binder s) (st_trace s).
Definition push_effect (s : store) (e : effect) : store :=
  Store (st_molecules s) (st_keys s) (st_locks s) (st_fleet s) (st_fleet_lock s) (st_binder s)
    (st_trace s ++ [e]).

(** ** Writing a molecule *)

(** [write_molecule_checked]: a collapsed molecule stays collapsed and keeps
    its receipt; [expected] is the revision of a conditional save. *)
Definition write_refusal `{StoreHash} (s : store) (id : mid) (data : molecule_data)
    (expected : option string) : option cosmon_error :=
  match st_molecules s !! id with
  | Some f =>
      let current := file_data f in
      if decide (d_status current = MoleculeStatus.Collapsed ∧
                 (d_status data ≠ MoleculeStatus.Collapsed ∨
                  d_collapse_receipt data ≠ d_collapse_receipt current))
      then Some (EStateStore ("molecule " +:+ mid_raw id +:+
                   " is collapsed; cannot leave Collapsed or replace its receipt"))
      else match expected with
           | Some rev =>
               if decide (of_state_bytes f ≠ rev)
               then Some (EStateStore ("molecule " +:+ mid_raw id +:+
                            " changed before conditional save"))
               else None
           | None => None
           end
  | None => match expected with
            | Some _ => Some (EStateStore "No such file or directory")
            | None => None
            end
  end.

Definition receipt_in (s : store) (id : mid) : option collapse_receipt :=
  st_molecules s !! id ≫= λ f, d_collapse_receipt (file_data f).

Definition process_in (s : store) (id : mid) : option molecule_process :=
  st_molecules s !! id ≫= λ f, d_process (file_data f).

(** Who has bound the process record after the process [t] has saved [data]. *)
Definition binder_after (t : nat) (s : store) (id : mid) (data : molecule_data) : gmap mid nat :=
  match process_in s id, d_process data with
  | None, Some _ => <[id := t]> (st_binder s)
  | Some _, None => delete id (st_binder s)
  | _, _ => st_binder s
  end.

Definition put_molecule (t : nat) (s : store) (id : mid) (data : molecule_data) : store :=
  set_molecules s (<[id := MoleculeFile data ""]> (st_molecules s)) (binder_after t s id data).

(** The save of the process [t]; a receipt that enters the state is traced. *)
Definition save_molecule `{StoreHash} (t : nat) (s : store) (id : mid) (data : molecule_data)
    (expected : option string) : result cosmon_error store :=
  match write_refusal s id data expected with
  | Some e => Err e
  | None =>
      let s' := put_molecule t s id data in
      match receipt_in s id, d_collapse_receipt data with
      | None, Some r => Ok (push_effect s' (DidSave t r))
      | _, _ => Ok s'
      end
  end.

(** ** Operations *)

Inductive collapse_stage : Set := Decided | StageReserved | StateSaved.

Record announcement := Announcement {
  an_molecule : molecule_data;
  an_from : string;
  an_reason : string;
  an_kind : option collapse_reason;
}.

(** [EventV2::WorkerSpawned] *)
Record worker_spawned := WorkerSpawned {
  ws_transport : option transport_selection;
  ws_worker_id : string;
  ws_molecule : mid;
  ws_session_name : string;
  ws_role : string;
  ws_adapter_name : string;
  ws_loop_ownership : string;
}.

Inductive store_op : Type → Type :=
| LockMolecule (id : mid) : store_op (result cosmon_error ())
| UnlockMolecule (id : mid) : store_op ()
| LoadMolecule (id : mid) : store_op (result cosmon_error molecule_data)
| LoadRevisioned (id : mid) : store_op (result cosmon_error (molecule_data * string))
| SaveMolecule (durable : bool) (id : mid) (data : molecule_data) : store_op (result cosmon_error ())
| SaveIfRevision (id : mid) (data : molecule_data) (expected : string) :
    store_op (result cosmon_error ())
| ReadKey (key : string) : store_op (result cosmon_error (option key_record))
| ReserveKey (record : key_record) : store_op (result cosmon_error bool)
| CommitKey (record : key_record) : store_op (result cosmon_error ())
| CheckAuthority (id : mid) (caller : caller_context) : store_op (result cosmon_error (option string))
| Hook (stage : collapse_stage) : store_op (result cosmon_error ())
| Now : store_op Z
| Announce (a : announcement) : store_op ()
| LockFleet : store_op (result cosmon_error ())
| UnlockFleet : store_op ()
| LoadFleet : store_op (result cosmon_error fleet)
| SaveFleet (f : fleet) : store_op (result cosmon_error ())
| EmitWorkerSpawned (e : worker_spawned) : store_op (result cosmon_error ())
| SaveLocator (id : mid) (worktree adapter : string) : store_op (result cosmon_error ()).

(** How an operation fares: it works, or it fails without effect, or it fails
    after its effect (a rename that is done but not synced). The clock and the
    verdict of the lease ledger are read here. *)
Inductive fate := Works | Fails (why : string) | FailsLate (why : string).

Record circumstances := Circumstances {
  fares : fate;
  clock_now : Z;
  lease_refusal : option string;
}.

(** A step that changes the store as [f] does when it works. *)
Definition writing A (c : circumstances) (s : store) (f : result cosmon_error (A * store)) :
    option (result cosmon_error A * store) :=
  match fares c, f with
  | Fails why, _ => Some (Err (EStateStore why), s)
  | FailsLate why, Ok (_, s') => Some (Err (EStateStore why), s')
  | Works, Ok (a, s') => Some (Ok a, s')
  | _, Err e => Some (Err e, s)
  end.

(** The rename is the last step of a write that is not durable, so that it
    does not fail after its effect. *)
Definition writing_early A (c : circumstances) (s : store) (f : result cosmon_error (A * store)) :
    option (result cosmon_error A * store) :=
  match fares c, f with
  | Works, Ok (a, s') => Some (Ok a, s')
  | Works, Err e => Some (Err e, s)
  | Fails why, _ | FailsLate why, _ => Some (Err (EStateStore why), s)
  end.

Definition reading {A} (c : circumstances) (s : store) (r : result cosmon_error A) :
    option (result cosmon_error A * store) :=
  match fares c with
  | Works => Some (r, s)
  | Fails why | FailsLate why => Some (Err (EStateStore why), s)
  end.

Section Exec.
Context `{StoreHash}.

Definition load_file (s : store) (id : mid) : result cosmon_error molecule_file :=
  match st_molecules s !! id with Some f => Ok f | None => Err (ENotFound id) end.

(** [load_fleet], the overlay of the host being part of the file. *)
Definition load_fleet (s : store) : result cosmon_error fleet :=
  match st_fleet s with
  | FleetAbsent => Ok fleet_default
  | FleetFile f => Ok (reconcile_worker_roles f)
  | FleetUnreadable => Err (EStateStore "fleet.json does not parse")
  end.

(** A record under the file of [key] that names another key is an error. *)
Definition read_key (s : store) (key : string) : result cosmon_error (option key_record) :=
  match st_keys s !! file_stem key with
  | Some record =>
      if decide (k_key record = key) then Ok (Some record)
      else Err (EStateStore "collapse key record names another key")
  | None => Ok None
  end.

(** [write_create_only] *)
Definition reserve_key (t : nat) (s : store) (record : key_record) : bool * store :=
  match st_keys s !! file_stem (k_key record) with
  | Some _ => (false, s)
  | None =>
      (true, push_effect (set_keys s (<[file_stem (k_key record) := record]> (st_keys s)))
               (DidReserve t (k_key record)))
  end.

Definition commit_key (t : nat) (s : store) (record : key_record) : store :=
  push_effect (set_keys s (<[file_stem (k_key record) := record]> (st_keys s)))
    (DidCommit t (k_key record)).

Definition release_locks (t : nat) (s : store) : store :=
  set_fleet_lock (set_locks s (filter (λ kv, kv.2 ≠ t) (st_locks s)))
    (if decide (st_fleet_lock s = Some t) then None else st_fleet_lock s).

Definition exec_op (c : circumstances) (t : nat) (R : Type) (o : store_op R) (s : store) :
    option (R * store) :=
  match o in store_op R return option (R * store) with
  | LockMolecule id =>
      match st_molecules s !! id, st_locks s !! id with
      | None, _ => Some (Err (ENotFound id), s)
      | Some _, Some _ => None
      | Some _, None => writing _ c s (Ok ((), set_locks s (<[id := t]> (st_locks s))))
      end
  | UnlockMolecule id =>
      Some ((), if decide (st_locks s !! id = Some t) then set_locks s (delete id (st_locks s)) else s)
  | LoadMolecule id => reading c s (f ← load_file s id; Ok (file_data f))
  | LoadRevisioned id => reading c s (f ← load_file s id; Ok (file_data f, of_state_bytes f))
  | SaveMolecule durable id data =>
      (if durable : bool then writing else writing_early) _ c s (s' ← save_molecule t s id data None; Ok ((), s'))
  | SaveIfRevision id data rev => writing_early () c s (s' ← save_molecule t s id data (Some rev); Ok ((), s'))
  | ReadKey key => reading c s (read_key s key)
  | ReserveKey record => writing _ c s (Ok (reserve_key t s record))
  | CommitKey record => writing _ c s (Ok ((), commit_key t s record))
  | CheckAuthority _ _ => reading c s (Ok (lease_refusal c))
  | Hook _ => reading c s (Ok ())
  | Now => Some (clock_now c, s)
  | Announce a =>
      Some ((), push_effect s (DidAnnounce t (d_id (an_molecule a))
                  (r_key <$> d_collapse_receipt (an_molecule a)) (an_from a) (an_reason a) (an_kind a)))
  | LockFleet =>
      match st_fleet_lock s with
      | Some _ => None
      | None => writing _ c s (Ok ((), set_fleet_lock s (Some t)))
      end
  | UnlockFleet =>
      Some ((), if decide (st_fleet_lock s = Some t) then set_fleet_lock s None else s)
  | LoadFleet => reading c s (load_fleet s)
  | SaveFleet f => writing _ c s (Ok ((), set_fleet s (FleetFile f)))
  | EmitWorkerSpawned e =>
      writing _ c s (Ok ((), push_effect s (DidSpawn t (ws_molecule e) (ws_worker_id e))))
  | SaveLocator _ _ _ => reading c s (Ok ())
  end.

(** What the other writers of a store do: they save molecules through
    [write_molecule_checked], and the receipt of what they save is absent or
    the one in the state. *)
Inductive other_save : store → store → Prop :=
| other_saves s id data expected t s' :
    save_molecule t s id data expected = Ok s' →
    d_id data = id →
    (d_collapse_receipt data = None ∨ d_collapse_receipt data = receipt_in s id) →
    other_save s s'.

End Exec.

(** ** How an operation may end *)

Lemma writing_inv {A} c s (f : result cosmon_error (A * store)) r s' :
  writing A c s f = Some (r, s') →
  (s' = s ∧ ∃ e, r = Err e) ∨ (∃ a, f = Ok (a, s') ∧ (r = Ok a ∨ ∃ e, r = Err e)).
Proof.
  unfold writing. destruct (fares c), f as [[a s1]|e]; intros [= <- <-]; eauto 6.
Qed.

Lemma writing_early_inv {A} c s (f : result cosmon_error (A * store)) r s' :
  writing_early A c s f = Some (r, s') →
  (s' = s ∧ (∃ e, r = Err e) ∧ (fares c ≠ Works ∨ ∃ e, f = Err e)) ∨
  (∃ a, f = Ok (a, s') ∧ r = Ok a ∧ fares c = Works).
Proof.
  unfold writing_early. destruct (fares c), f as [[a s1]|e]; intros [= <- <-]; eauto 8.
Qed.

Lemma reading_inv {A} c s (x r : result cosmon_error A) s' :
  reading c s x = Some (r, s') → s' = s ∧ (r = x ∨ ∃ e, r = Err e).
Proof. unfold reading. destruct (fares c); intros [= <- <-]; eauto. Qed.

Lemma receipt_in_put t s id data id' :
  receipt_in (put_molecule t s id data) id' =
  if decide (id' = id) then d_collapse_receipt data else receipt_in s id'.
Proof.
  unfold receipt_in, put_molecule, set_molecules. cbn [st_molecules]. case_decide; subst.
  - by rewrite lookup_insert_eq.
  - by rewrite lookup_insert_ne.
Qed.

(** A save that succeeds writes the file; if the molecule was collapsed it
    stays so and keeps its receipt. *)
Lemma save_molecule_inv `{StoreHash} t s id data expected s' :
  save_molecule t s id data expected = Ok s' →
  (∀ f, st_molecules s !! id = Some f → d_status (file_data f) = MoleculeStatus.Collapsed →
     d_status data = MoleculeStatus.Collapsed ∧
     d_collapse_receipt data = d_collapse_receipt (file_data f)) ∧
  ((∃ r, receipt_in s id = None ∧ d_collapse_receipt data = Some r ∧
      s' = push_effect (put_molecule t s id data) (DidSave t r)) ∨
   (is_Some (receipt_in s id) ∨ d_collapse_receipt data = None) ∧ s' = put_molecule t s id data).
Proof.
  unfold save_molecule. destruct (write_refusal s id data expected) as [e|] eqn:Hw; [done|].
  intros Hs. split.
  - intros f Hf Hc. unfold write_refusal in Hw. rewrite Hf in Hw. case_decide as Hd; [done|].
    split; apply dec_stable; tauto.
  - destruct (receipt_in s id) as [r0|], (d_collapse_receipt data) as [r|]; simplify_eq; eauto 6.
Qed.
