(* ===== verification/Collapse.v ===== *)
(** The collapse operation of [crates/cosmon-state/src/ops/collapse.rs] over
    the file store: unconditional, or keyed by an idempotency key, under the
    dispatch lock of the molecule. The theorems hold for every interleaving of
    any number of collapses, lookups and other writers, with operations that
    fail and processes that are killed at any point. *)
From stdpp Require Import prelude gmap strings list pretty.
From S2P Require Import Prelude Text Ids Molecule Links RunState Process Contract State Concurrent Store.

(** ** Requests and answers *)

Inductive collapse_error : Type :=
| MoleculeNotFound (id : mid)
| InvalidCause (raw : string)
| MismatchedAccountKind (cause : string)
| ErrAlreadyCompleted (id : mid)
| StoreUnavailable (why : string).

Definition error_tag (e : collapse_error) : string :=
  match e with
  | MoleculeNotFound _ => "molecule-not-found"
  | InvalidCause _ => "invalid-cause"
  | MismatchedAccountKind _ => "mismatched-account-kind"
  | ErrAlreadyCompleted _ => "already-completed"
  | StoreUnavailable _ => "store-unavailable"
  end.

Definition error_http_status (e : collapse_error) : nat :=
  match e with
  | MoleculeNotFound _ => 404
  | InvalidCause _ | MismatchedAccountKind _ => 400
  | ErrAlreadyCompleted _ => 409
  | StoreUnavailable _ => 503
  end.

Definition from_cosmon (id : mid) (e : cosmon_error) : collapse_error :=
  match e with
  | ENotFound _ => MoleculeNotFound id
  | other => StoreUnavailable (cosmon_to_string other)
  end.

Inductive execute_error : Type :=
| CollapseFailed (e : collapse_error)
| ErrUnleasedPilotGesture (why : string).

Record collapse_request := CollapseRequest {
  q_reason : string;
  q_cause : option string;
  q_account : option string;
  q_kind : option string;
  q_reason_kind : option collapse_reason;
}.

Definition request_for_reason (reason : string) : collapse_request :=
  CollapseRequest reason None None None None.

Record collapse_view := CollapseView {
  v_id : mid;
  v_previous_status : molecule_status;
  v_reason : string;
  v_cause : option collapse_cause;
  v_already_collapsed : bool;
  v_previous_was_stuck : bool;
}.

Record keyed_collapse := KeyedCollapse {
  kc_outcome : outcome_kind;
  kc_digest : string;
  kc_receipt : option collapse_receipt;
  kc_refusal : option collapse_refusal;
  kc_announced : bool;
  kc_molecule : option molecule_data;
  kc_previous_was_stuck : bool;
}.

Inductive collapse_outcome : Type :=
| Unconditional (view : collapse_view) (molecule : option molecule_data)
| Keyed (k : keyed_collapse).

Definition parse_cause (q : collapse_request) : result collapse_error (option collapse_cause) :=
  match q_cause q with
  | None =>
      if is_some (q_account q) || is_some (q_kind q)
      then Err (MismatchedAccountKind "<absent>") else Ok None
  | Some raw =>
      match cause_from_str raw with
      | Err _ => Err (InvalidCause raw)
      | Ok (RateLimit _ _) => Ok (Some (RateLimit (q_account q) (q_kind q)))
      | Ok cause =>
          if is_some (q_account q) || is_some (q_kind q)
          then Err (MismatchedAccountKind raw) else Ok (Some cause)
      end
  end.

Section Collapse.
Context `{StoreHash, ContractHash}.

(** [CollapseRequest::intent] *)
Definition request_intent (q : collapse_request) (target : mid) (c : collapse_condition)
    (actor : option string) : collapse_intent :=
  CollapseIntentV1 (mid_raw target) (q_reason q) (q_cause q) (q_account q) (q_kind q)
    (reason_as_str <$> q_reason_kind q) (collapsible_as_str (expect_status c)) (expect_revision c)
    actor (approval_digest c) (render_not_after <$> not_after c).

(** ** The collapsed record *)

(** [release_process] keeps the assigned worker. *)
Definition collapsed_record (m : molecule_data) (q : collapse_request)
    (cause : option collapse_cause) (receipt : option collapse_receipt) (now : Z) : molecule_data :=
  {| d_id := d_id m; d_fleet_id := d_fleet_id m; d_formula_id := d_formula_id m;
     d_status := MoleculeStatus.Collapsed; d_assigned_worker := d_assigned_worker m;
     d_updated_at := now; d_total_steps := d_total_steps m; d_current_step := d_current_step m;
     d_collapse_reason := Some (q_reason q); d_collapse_cause := cause;
     d_collapse_reason_kind := q_reason_kind q; d_collapsed_step := Some (d_current_step m);
     d_typed_links := d_typed_links m; d_assigned_role := d_assigned_role m;
     d_session_name := if d_process m is Some _ then None else d_session_name m;
     d_tags := d_tags m; d_freeze_on_last_step := d_freeze_on_last_step m;
     d_merged_at := d_merged_at m; d_process := None; d_stuck_at := d_stuck_at m;
     d_tackled_by := d_tackled_by m; d_tackled_at := d_tackled_at m;
     d_collapse_receipt := receipt; d_rest := d_rest m |}.

(** The arguments of [announce]: the log and the two events. *)
Definition announce (m : molecule_data) (prev : molecule_status) (was_stuck : bool)
    (q : collapse_request) : prog store_op () :=
  call (Announce (Announcement m (if was_stuck then "stuck" else status_as_str prev)
                    (q_reason q) (q_reason_kind q))).

Definition frozen_and_stuck (prev : molecule_status) (m : molecule_data) : bool :=
  bool_decide (prev = MoleculeStatus.Frozen) && is_some (d_stuck_at m).

(** ** Unconditional *)

Definition unconditional (caller : caller_context) (id : mid) (q : collapse_request)
    (cause : option collapse_cause) (now : Z) : prog store_op (result execute_error collapse_outcome) :=
  try! refusal ← call (CheckAuthority id caller)
    catch (λ e, CollapseFailed (StoreUnavailable (cosmon_to_string e)));
  match refusal with
  | Some why => mret (Err (ErrUnleasedPilotGesture why))
  | None =>
      try! mol ← call (LoadMolecule id) catch (λ e, CollapseFailed (from_cosmon id e));
      let prev := d_status mol in
      let was_stuck := frozen_and_stuck prev mol in
      match prev with
      | MoleculeStatus.Collapsed =>
          mret (Ok (Unconditional (CollapseView id prev (q_reason q) cause true was_stuck) None))
      | MoleculeStatus.Completed => mret (Err (CollapseFailed (ErrAlreadyCompleted id)))
      | _ =>
          let updated := collapsed_record mol q cause None now in
          try! _ ← call (SaveMolecule false (d_id updated) updated)
            catch (λ e, CollapseFailed (from_cosmon id e));
          _ ← announce updated prev was_stuck q;
          mret (Ok (Unconditional (CollapseView id prev (q_reason q) cause false was_stuck) (Some updated)))
      end
  end.

(** ** Keyed *)

Section Keyed.
Context (caller : caller_context) (id : mid) (q : collapse_request) (cause : option collapse_cause)
  (condition : collapse_condition) (digest : string).
Context (mol : molecule_data) (revision : string) (lease : option string).

Definition refused (refusal : collapse_refusal) (was_stuck : bool) : keyed_collapse :=
  KeyedCollapse (refusal_kind refusal) digest None (Some refusal) false None was_stuck.

Definition replayed (receipt : collapse_receipt) (announced was_stuck : bool) : keyed_collapse :=
  KeyedCollapse KReplayed digest (Some receipt) None announced None was_stuck.

Definition reservation : key_record := key_reserved (c_key condition) id digest.

(** The receipt of a collapse decided at [now]. *)
Definition new_receipt (now : Z) : collapse_receipt :=
  CollapseReceipt receipt_schema (c_key condition) digest id (d_status mol) revision now.

Definition round_input (record : option key_record) (now : Z) : decision_input :=
  DecisionInput id condition digest record (d_status mol) revision (d_collapse_receipt mol) lease now.

(** Reservation, state save and key commit of an admitted request, after its
    key is bound to it. *)
Definition perform (now : Z) : prog store_op (result collapse_error keyed_collapse) :=
  let was_stuck := frozen_and_stuck (d_status mol) mol in
  try! _ ← call (Hook StageReserved) catch (from_cosmon id);
  let receipt := new_receipt now in
  let updated := collapsed_record mol q cause (Some receipt) now in
  try! _ ← call (SaveMolecule true (d_id updated) updated) catch (from_cosmon id);
  try! _ ← call (Hook StateSaved) catch (from_cosmon id);
  try! _ ← call (CommitKey (key_committed reservation receipt)) catch (from_cosmon id);
  _ ← call (UnlockMolecule id);
  _ ← announce updated (d_status mol) was_stuck q;
  mret (Ok (KeyedCollapse KTransitioned digest (Some receipt) None true (Some updated) was_stuck)).

(** The loop of at most [n] rounds. *)
Fixpoint rounds (n : nat) (record : option key_record) :
    prog store_op (result collapse_error keyed_collapse) :=
  match n with
  | O => mret (Err (StoreUnavailable ("collapse key record for " +:+ mid_raw id +:+
                      " changed twice during one decision")))
  | S n =>
      now ← call Now;
      match decide_collapse (round_input record now) with
      | Refuse refusal => mret (Ok (refused refusal (frozen_and_stuck (d_status mol) mol)))
      | Replay receipt true =>
          try! _ ← call (CommitKey (key_committed (default reservation record) receipt))
            catch (from_cosmon id);
          _ ← call (UnlockMolecule id);
          let was_stuck := frozen_and_stuck (r_previous_status receipt) mol in
          _ ← announce mol (r_previous_status receipt) was_stuck q;
          mret (Ok (replayed receipt true was_stuck))
      | Replay receipt false => mret (Ok (replayed receipt false false))
      | Admit reserve =>
          try! _ ← call (Hook Decided) catch (from_cosmon id);
          if reserve : bool then
            try! created ← call (ReserveKey reservation) catch (from_cosmon id);
            if created : bool then perform now
            else try! record ← call (ReadKey (c_key condition)) catch (from_cosmon id);
                 rounds n record
          else perform now
      end
  end.

End Keyed.

Definition keyed (caller : caller_context) (id : mid) (q : collapse_request)
    (cause : option collapse_cause) (condition : collapse_condition) :
    prog store_op (result collapse_error keyed_collapse) :=
  match intent_digest (request_intent q id condition (caller_actor caller)) with
  | Err e => mret (Err (StoreUnavailable (contract_error_to_string e)))
  | Ok digest =>
      try! _ ← call (LockMolecule id) catch (from_cosmon id);
      try! record ← call (ReadKey (c_key condition)) catch (from_cosmon id);
      try! loaded ← call (LoadRevisioned id) catch (from_cosmon id);
      try! lease ← call (CheckAuthority id caller)
        catch (λ e, StoreUnavailable (cosmon_to_string e));
      rounds id q cause condition digest loaded.1 loaded.2 lease 2 record
  end.

(** ** The operation *)

(** [execute_using_clock] *)
Definition execute (caller : caller_context) (id : mid) (q : collapse_request)
    (condition : option collapse_condition) : prog store_op (result execute_error collapse_outcome) :=
  match parse_cause q with
  | Err e => mret (Err (CollapseFailed e))
  | Ok cause =>
      match condition with
      | None => now ← call Now; unconditional caller id q cause now
      | Some condition =>
          r ← keyed caller id q cause condition;
          mret (match r with Ok k => Ok (Keyed k) | Err e => Err (CollapseFailed e) end)
      end
  end.

Definition lookup_receipt (id : mid) (key : string) : prog store_op (result collapse_error receipt_lookup) :=
  try! record ← call (ReadKey key) catch (from_cosmon id);
  try! mol ← call (LoadMolecule id) catch (from_cosmon id);
  mret (Ok (classify_lookup id key record (d_status mol) (d_collapse_receipt mol))).

(** ** The system *)

Inductive answer : Type :=
| AnsCollapse (r : result execute_error collapse_outcome)
| AnsLookup (r : result collapse_error receipt_lookup).

Inductive collapse_client : prog store_op answer → Prop :=
| client_execute caller id q condition :
    collapse_client (prog_map AnsCollapse (execute caller id q condition))
| client_lookup id key : collapse_client (prog_map AnsLookup (lookup_receipt id key)).

#[export] Instance collapse_machine : Machine store_op store answer := {|
  choice := circumstances;
  exec := exec_op;
  release := release_locks;
  others := other_save;
  client := collapse_client;
|}.

(** ** The invariant *)

Definition is_save (key : string) (e : effect) : Prop :=
  match e with DidSave _ r => r_key r = key | _ => False end.
Definition is_commit (key : string) (e : effect) : Prop :=
  match e with DidCommit _ k => k = key | _ => False end.
Definition is_announce_of (key : string) (e : effect) : Prop :=
  match e with DidAnnounce _ _ (Some k) _ _ _ => k = key | _ => False end.
Definition is_announce_by (t : nat) (e : effect) : Prop :=
  match e with DidAnnounce t' _ (Some _) _ _ _ => t' = t | _ => False end.

#[export] Instance is_save_dec key e : base.Decision (is_save key e).
Proof. destruct e; cbn; apply _. Defined.
#[export] Instance is_commit_dec key e : base.Decision (is_commit key e).
Proof. destruct e; cbn; apply _. Defined.
#[export] Instance is_announce_of_dec key e : base.Decision (is_announce_of key e).
Proof. destruct e as [| | |? ? [] ? ? ?|]; cbn; apply _. Defined.
#[export] Instance is_announce_by_dec t e : base.Decision (is_announce_by t e).
Proof. destruct e as [| | |? ? [] ? ? ?|]; cbn; apply _. Defined.

(** How many entries of the trace satisfy [P]. *)
Definition times (P : effect → Prop) `{∀ e, base.Decision (P e)} (s : store) : nat :=
  length (filter P (st_trace s)).

Definition own (t : nat) (s : store) : list effect := filter (λ e, effect_by e = t) (st_trace s).

Record store_inv (s : store) : Prop := {
  inv_ids id f : st_molecules s !! id = Some f → d_id (file_data f) = id;
  inv_collapsed id f : st_molecules s !! id = Some f → is_Some (d_collapse_receipt (file_data f)) →
    d_status (file_data f) = MoleculeStatus.Collapsed;
  inv_bound id r : receipt_in s id = Some r → r_molecule r = id ∧
    ∃ kr, st_keys s !! file_stem (r_key r) = Some kr ∧ k_key kr = r_key r ∧
          k_molecule kr = id ∧ k_digest kr = r_digest r;
  inv_key stem kr : st_keys s !! stem = Some kr → stem = file_stem (k_key kr) ∧
    match k_phase kr with
    | Reserved => k_receipt kr = None
    | Committed => ∃ r, k_receipt kr = Some r ∧ r_key r = k_key kr ∧
                        receipt_in s (k_molecule kr) = Some r
    end;
  inv_saved t r : DidSave t r ∈ st_trace s → receipt_in s (r_molecule r) = Some r;
  inv_saves key : times (is_save key) s ≤ 1;
  inv_committed t key : DidCommit t key ∈ st_trace s →
    ∃ kr, st_keys s !! file_stem key = Some kr ∧ k_key kr = key ∧ k_phase kr = Committed;
  inv_commits key : times (is_commit key) s ≤ 1;
  inv_announced t id key from why kind : DidAnnounce t id (Some key) from why kind ∈ st_trace s →
    DidCommit t key ∈ st_trace s;
  inv_announces t : times (is_announce_by t) s ≤ 1;
}.

(** What the process [t] may do to the store. *)
Record does (t : nat) (s s' : store) : Prop := {
  does_keep id r : receipt_in s id = Some r → receipt_in s' id = Some r;
  does_new id r : receipt_in s id = None → receipt_in s' id = Some r → st_locks s !! id = Some t;
  does_keys stem kr : st_keys s !! stem = Some kr →
    st_keys s' !! stem = Some kr ∨
    (k_phase kr = Reserved ∧ st_locks s !! k_molecule kr = Some t ∧
     ∃ kr', st_keys s' !! stem = Some kr' ∧ k_key kr' = k_key kr ∧
            k_molecule kr' = k_molecule kr ∧ k_digest kr' = k_digest kr);
  does_new_keys stem kr : st_keys s !! stem = None → st_keys s' !! stem = Some kr →
    st_locks s !! k_molecule kr = Some t;
  does_locks id t' : t' ≠ t → st_locks s !! id = Some t' → st_locks s' !! id = Some t';
  does_trace : ∃ h, st_trace s' = st_trace s ++ h ∧ Forall (λ e, effect_by e = t) h;
}.

Definition started (t : nat) (s : store) : Prop := own t s = [].

(** What is true when a call has answered. *)
Definition keyed_post (t : nat) (k : keyed_collapse) (s : store) : Prop :=
  match kc_refusal k, kc_receipt k with
  | Some r, None => kc_outcome k = refusal_kind r ∧ own t s = []
  | None, Some r =>
      outcome_is_success (kc_outcome k) = true ∧ r_digest r = kc_digest k ∧
      receipt_in s (r_molecule r) = Some r ∧
      (kc_outcome k = KTransitioned → DidSave t r ∈ st_trace s)
  | _, _ => False
  end.

Definition answer_post (t : nat) (a : answer) (s : store) : Prop :=
  match a with
  | AnsCollapse (Ok (Keyed k)) => keyed_post t k s
  | AnsLookup (Ok l) => ∀ detail, l ≠ LInconsistent detail
  | _ => True
  end.

(** ** Effects on the invariant *)

Implicit Types (t : nat) (id : mid) (s : store) (r : collapse_receipt).

Lemma times_push P `{∀ e, base.Decision (P e)} s e :
  times P (push_effect s e) = times P s + if decide (P e) then 1 else 0.
Proof.
  unfold times, push_effect. cbn [st_trace]. rewrite filter_app, length_app.
  rewrite filter_cons. by case_decide.
Qed.

Lemma times_zero P `{∀ e, base.Decision (P e)} s :
  (∀ e, e ∈ st_trace s → ¬ P e) → times P s = 0.
Proof.
  intros Hn. unfold times. destruct (filter P (st_trace s)) as [|e l] eqn:Hf; [done|].
  assert (e ∈ filter P (st_trace s)) as [HP He]%list_elem_of_filter by (rewrite Hf; left).
  by edestruct Hn.
Qed.

Lemma elem_of_push s e e' : e' ∈ st_trace (push_effect s e) ↔ e' ∈ st_trace s ∨ e' = e.
Proof. cbn. by rewrite elem_of_app, list_elem_of_singleton. Qed.

Lemma own_push t s e :
  own t (push_effect s e) = own t s ++ if decide (effect_by e = t) then [e] else [].
Proof. unfold own. cbn. rewrite filter_app, filter_cons. by case_decide. Qed.

(** A store that differs in its files and locks only. *)
Lemma inv_frame s s' :
  store_inv s → (∀ id, receipt_in s' id = receipt_in s id) → st_keys s' = st_keys s →
  st_trace s' = st_trace s →
  (∀ id f, st_molecules s' !! id = Some f → d_id (file_data f) = id ∧
     (is_Some (d_collapse_receipt (file_data f)) →
      d_status (file_data f) = MoleculeStatus.Collapsed)) →
  store_inv s'.
Proof.
  intros [] Hr Hk Ht Hf. split; unfold times in *; rewrite ?Hk, ?Ht; try done.
  - intros id f Hl. apply (Hf _ _ Hl).
  - intros id f Hl. apply (Hf _ _ Hl).
  - intros id r. rewrite Hr. auto.
  - intros stem kr Hl. specialize (inv_key0 _ _ Hl) as [? Hph]. split; [done|].
    destruct (k_phase kr); [done|]. destruct Hph as (r & ? & ? & ?). exists r. by rewrite Hr.
  - intros t r Hin. rewrite Hr. eauto.
Qed.

Lemma inv_same s s' :
  store_inv s → st_molecules s' = st_molecules s → st_keys s' = st_keys s →
  st_trace s' = st_trace s → store_inv s'.
Proof.
  intros HI Hm Hk Ht. apply (inv_frame s); try done.
  - intros id. unfold receipt_in. by rewrite Hm.
  - intros id f. rewrite Hm. intros Hl.
    split; [by eapply (inv_ids s)|by eapply (inv_collapsed s)].
Qed.

Lemma inv_locks s ls : store_inv s → store_inv (set_locks s ls).
Proof. intros HI. by apply (inv_same s). Qed.

(** The files after a write that the guard let pass. *)
Lemma put_files t s id data :
  store_inv s → d_id data = id →
  (is_Some (d_collapse_receipt data) → d_status data = MoleculeStatus.Collapsed) →
  ∀ id' f, st_molecules (put_molecule t s id data) !! id' = Some f → d_id (file_data f) = id' ∧
     (is_Some (d_collapse_receipt (file_data f)) →
      d_status (file_data f) = MoleculeStatus.Collapsed).
Proof.
  intros HI Hid Hc id' f. cbn. rewrite lookup_insert_Some. intros [[<- <-]|[_ Hl]]; [done|].
  split; [by eapply (inv_ids s)|by eapply (inv_collapsed s)].
Qed.

(** A save that brings in no receipt keeps all of them. *)
Lemma plain_save s id data expected t s' :
  store_inv s → d_id data = id →
  (d_collapse_receipt data = None ∨ d_collapse_receipt data = receipt_in s id) →
  save_molecule t s id data expected = Ok s' →
  (∀ id', receipt_in s' id' = receipt_in s id') ∧ s' = put_molecule t s id data ∧ store_inv s'.
Proof.
  intros HI Hid Hrc (Hg & Hs)%save_molecule_inv.
  assert (d_collapse_receipt data = receipt_in s id ∧
          (is_Some (d_collapse_receipt data) → d_status data = MoleculeStatus.Collapsed))
    as [Heq Hst].
  { unfold receipt_in in *. destruct (st_molecules s !! id) as [f|] eqn:Hf; cbn in *.
    - destruct (d_collapse_receipt (file_data f)) as [r|] eqn:Hr.
      + assert (d_status (file_data f) = MoleculeStatus.Collapsed) as Hc
          by (eapply inv_collapsed; eauto; by rewrite Hr).
        destruct (Hg f eq_refl Hc) as [? Hd]. by rewrite Hd, Hr.
      + destruct Hrc as [->| ->]; split; try done; by intros [].
    - destruct Hrc as [->| ->]; split; try done; by intros []. }
  destruct Hs as [(r & Hn & Hd & _)|[_ ->]]; [by rewrite Heq, Hn in Hd|].
  assert (∀ id', receipt_in (put_molecule t s id data) id' = receipt_in s id') as Hr.
  { intros id'. rewrite receipt_in_put. by case_decide; subst. }
  split_and!; [done|done|]. apply (inv_frame s); [done..|]. by apply put_files.
Qed.

Lemma does_refl t s : does t s s.
Proof.
  split; try done; [by intros; simplify_eq|by left|by intros; simplify_eq|].
  exists []. by rewrite app_nil_r.
Qed.

(** A step that changes neither keys nor receipts nor the locks of others. *)
Lemma does_plain t s s' h :
  (∀ id, receipt_in s' id = receipt_in s id) → st_keys s' = st_keys s →
  (∀ id t', t' ≠ t → st_locks s !! id = Some t' → st_locks s' !! id = Some t') →
  st_trace s' = st_trace s ++ h → Forall (λ e, effect_by e = t) h → does t s s'.
Proof.
  intros Hr Hk Hl Ht Hh. split; rewrite ?Hk; try done.
  - intros id r. by rewrite Hr.
  - intros id r. rewrite Hr. by intros -> ?.
  - by left.
  - by intros; simplify_eq.
  - eauto.
Qed.

Lemma other_save_ok t s s' : store_inv s → other_save s s' → store_inv s' ∧ does t s s'.
Proof.
  intros HI Ho. destruct Ho as [s id data expected t1 s' Hs Hid Hrc].
  destruct (plain_save _ _ _ _ _ _ HI Hid Hrc Hs) as (Hr & -> & HI'). split; [done|].
  apply (does_plain _ _ _ []); try done. cbn. by rewrite app_nil_r.
Qed.

(** The four effects of an admitted collapse. *)
Lemma reserve_ok t s record b s' :
  store_inv s → k_phase record = Reserved → k_receipt record = None →
  st_locks s !! k_molecule record = Some t →
  reserve_key t s record = (b, s') →
  store_inv s' ∧ does t s s' ∧
  if b then st_keys s' !! file_stem (k_key record) = Some record ∧
            own t s' = own t s ++ [DidReserve t (k_key record)] ∧
            (∀ id, receipt_in s' id = receipt_in s id) ∧ st_locks s' = st_locks s
  else s' = s.
Proof.
  intros HI Hph Hrc Hl. unfold reserve_key.
  destruct (st_keys s !! file_stem (k_key record)) eqn:Hk; intros [= <- <-].
  { split_and!; [done|apply does_refl|done]. }
  assert (∀ stem kr, st_keys s !! stem = Some kr → stem ≠ file_stem (k_key record)) as Hne
    by (intros stem kr Hs ->; by rewrite Hk in Hs).
  split_and!.
  - split; try apply HI.
    + intros id r Hr. destruct (inv_bound s HI id r Hr) as (? & kr & Hkr & ?).
      split; [done|]. exists kr. cbn. rewrite lookup_insert_ne; [done|]. symmetry. by eapply Hne.
    + intros stem kr. cbn. rewrite lookup_insert_Some. intros [[<- <-]|[_ Hs]].
      * by rewrite Hph.
      * by apply (inv_key s).
    + intros t' r. rewrite elem_of_push. intros [Hin|?]; [|done]. by apply (inv_saved s HI t').
    + intros key. rewrite times_push. cbn. rewrite Nat.add_0_r. by apply inv_saves.
    + intros t' key. rewrite elem_of_push. intros [Hin|?]; [|done].
      destruct (inv_committed s HI t' key Hin) as (kr & Hkr & ?). exists kr. cbn.
      rewrite lookup_insert_ne; [done|]. symmetry. by eapply Hne.
    + intros key. rewrite times_push. cbn. rewrite Nat.add_0_r. by apply inv_commits.
    + intros t' id key from why kind. rewrite !elem_of_push. intros [Hin|?]; [|done].
      left. by eapply (inv_announced s).
    + intros t'. rewrite times_push. cbn. rewrite Nat.add_0_r. by apply inv_announces.
  - split; try done.
    + intros id r Hn Hs. unfold receipt_in in *. cbn in *. by rewrite Hn in Hs.
    + intros stem kr Hs. left. cbn. rewrite lookup_insert_ne; [done|]. symmetry. by eapply Hne.
    + intros stem kr Hn. cbn. rewrite lookup_insert_Some. intros [[_ <-]|[_ Hs]]; [done|].
      by rewrite Hn in Hs.
    + eexists. split; [done|]. by constructor.
  - cbn. by rewrite lookup_insert_eq.
  - rewrite own_push. by rewrite decide_True.
  - done.
  - done.
Qed.

Lemma save_receipt_ok t s id data r kr s' :
  store_inv s → d_id data = id → d_collapse_receipt data = Some r →
  d_status data = MoleculeStatus.Collapsed → r_molecule r = id →
  receipt_in s id = None → st_locks s !! id = Some t →
  st_keys s !! file_stem (r_key r) = Some kr → k_key kr = r_key r → k_molecule kr = id →
  k_digest kr = r_digest r →
  save_molecule t s id data None = Ok s' →
  store_inv s' ∧ does t s s' ∧ receipt_in s' id = Some r ∧
  own t s' = own t s ++ [DidSave t r] ∧ st_keys s' = st_keys s ∧ st_locks s' = st_locks s.
Proof.
  intros HI Hid Hrc Hst Hm Hn Hl Hk Hkk Hkm Hkd (_ & Hs)%save_molecule_inv.
  destruct Hs as [(r' & _ & Hr' & ->)|[[Hsome|?] _]];
    [|rewrite Hn in Hsome; by destruct Hsome|by rewrite Hrc in *].
  rewrite Hrc in Hr'. simplify_eq Hr'. intros <-.
  set (s' := push_effect (put_molecule t s id data) (DidSave t r)).
  assert (∀ id', receipt_in s' id' = if decide (id' = id) then Some r else receipt_in s id') as Hin.
  { intros id'. subst s'. rewrite <- Hrc, <- (receipt_in_put t s id data id'). done. }
  assert (∀ id' r', receipt_in s id' = Some r' → receipt_in s' id' = Some r') as Hkeep.
  { intros id' r' Hr. rewrite Hin. case_decide; subst; [by rewrite Hn in Hr|done]. }
  assert (∀ t' r', DidSave t' r' ∈ st_trace s → r_key r' ≠ r_key r) as Hfresh.
  { intros t' r' Hd Heq. apply (inv_saved s HI) in Hd.
    destruct (inv_bound s HI _ _ Hd) as (_ & kr' & Hk' & _ & Hm' & _).
    rewrite Heq, Hk in Hk'. injection Hk' as <-. by rewrite <- Hm', Hkm, Hn in Hd. }
  subst s'.
  split_and!; [| |by rewrite Hin, decide_True|by rewrite own_push, decide_True|done|done].
  - split; try apply HI.
    + intros id' f Hf. apply (put_files t s id data HI Hid (λ _, Hst) id' f Hf).
    + intros id' f Hf. apply (put_files t s id data HI Hid (λ _, Hst) id' f Hf).
    + intros id' r'. rewrite Hin. case_decide; subst.
      * intros [= <-]. split; [done|]. by exists kr.
      * apply (inv_bound s HI).
    + intros stem kr' Hs. destruct (inv_key s HI stem kr' Hs) as [? Hph]. split; [done|].
      destruct (k_phase kr'); [done|]. destruct Hph as (r' & ? & ? & ?). exists r'. eauto.
    + intros t' r'. rewrite elem_of_push. intros [Hd|[= -> ->]].
      * apply Hkeep. by eapply (inv_saved s).
      * by rewrite Hm, Hin, decide_True.
    + intros key. rewrite times_push. case_decide as Hd; cbn in Hd.
      * subst key. rewrite times_zero; [done|]. intros [| | | |] He; cbn; try tauto. eapply Hfresh, He.
      * rewrite Nat.add_0_r. apply (inv_saves s HI).
    + intros t' key. rewrite elem_of_push. intros [Hd|?]; [|done]. by apply (inv_committed s HI t').
    + intros key. rewrite times_push. cbn. rewrite Nat.add_0_r. by apply inv_commits.
    + intros t' id' key from why kind. rewrite !elem_of_push. intros [Hd|?]; [|done].
      left. by eapply (inv_announced s).
    + intros t'. rewrite times_push. cbn. rewrite Nat.add_0_r. by apply inv_announces.
  - split; try done.
    + intros id' r' Hn'. rewrite Hin. case_decide; subst; [done|]. by rewrite Hn'.
    + by left.
    + intros stem kr' Hn' Hs. cbn in Hs. by rewrite Hn' in Hs.
    + eexists. split; [done|]. by constructor.
Qed.

Lemma commit_ok t s kr record r :
  store_inv s → st_keys s !! file_stem (k_key kr) = Some kr → k_phase kr = Reserved →
  st_locks s !! k_molecule kr = Some t →
  receipt_in s (k_molecule kr) = Some r → r_key r = k_key kr →
  k_key record = k_key kr → k_molecule record = k_molecule kr → k_digest record = k_digest kr →
  k_phase record = Committed → k_receipt record = Some r →
  let s' := commit_key t s record in
  store_inv s' ∧ does t s s' ∧ own t s' = own t s ++ [DidCommit t (k_key kr)].
Proof.
  intros HI Hk Hph Hl Hr Hrk Hkk Hkm Hkd Hcp Hcr. unfold commit_key. rewrite Hkk. cbv zeta.
  assert (∀ t', DidCommit t' (k_key kr) ∉ st_trace s) as Hfresh.
  { intros t' (kr' & Hk' & _ & Hc)%(inv_committed s HI). rewrite Hk in Hk'.
    injection Hk' as <-. by rewrite Hph in Hc. }
  split_and!; [| |by rewrite own_push, decide_True].
  - split; try apply HI.
    + intros id r' Hr'. destruct (inv_bound s HI id r' Hr') as (? & kr' & Hk' & Hkk' & Hkm' & Hkd').
      split; [done|]. cbn. destruct (decide (file_stem (r_key r') = file_stem (k_key kr))) as [He|He].
      * rewrite He, Hk in Hk'. injection Hk' as <-. rewrite He, lookup_insert_eq.
        exists record. split_and!; congruence.
      * rewrite lookup_insert_ne by done. by exists kr'.
    + intros stem kr'. cbn. rewrite lookup_insert_Some. intros [[<- <-]|[_ Hs]].
      * split; [by rewrite Hkk|]. rewrite Hcp. exists r. by rewrite Hkm, Hkk.
      * apply (inv_key s HI _ _ Hs).
    + intros t' r'. rewrite elem_of_push. intros [Hd|?]; [|done]. by apply (inv_saved s HI t').
    + intros key. rewrite times_push. cbn. rewrite Nat.add_0_r. apply (inv_saves s HI).
    + intros t' key. rewrite elem_of_push. intros [Hd|[= -> ->]].
      * destruct (inv_committed s HI t' key Hd) as (kr' & Hk' & Hkk' & Hc). cbn.
        destruct (decide (file_stem key = file_stem (k_key kr))) as [He|He].
        -- rewrite He, Hk in Hk'. injection Hk' as <-. by rewrite Hph in Hc.
        -- rewrite lookup_insert_ne by done. by exists kr'.
      * cbn. rewrite lookup_insert_eq. by exists record.
    + intros key. rewrite times_push. case_decide as Hd; cbn in Hd.
      * subst key. rewrite times_zero; [done|]. intros [| |t' k| |] He; cbn; try tauto.
        intros ->. by eapply Hfresh.
      * rewrite Nat.add_0_r. apply (inv_commits s HI).
    + intros t' id' key from why kind. rewrite !elem_of_push. intros [Hd|?]; [|done].
      left. by eapply (inv_announced s).
    + intros t'. rewrite times_push. cbn. rewrite Nat.add_0_r. apply (inv_announces s HI).
  - split; try done.
    + intros id r' Hn Hs. unfold receipt_in in *. cbn in *. by rewrite Hn in Hs.
    + intros stem kr' Hs. cbn. destruct (decide (stem = file_stem (k_key kr))) as [->|He].
      * rewrite Hk in Hs. injection Hs as <-. right. split_and!; [done..|].
        exists record. by rewrite lookup_insert_eq.
      * left. by rewrite lookup_insert_ne.
    + intros stem kr' Hn. cbn. rewrite lookup_insert_Some. intros [[<- _]|[_ Hs]].
      * by rewrite Hk in Hn.
      * by rewrite Hn in Hs.
    + eexists. split; [done|]. by constructor.
Qed.

Lemma announce_ok t s id key from why kind :
  store_inv s →
  (∀ k, key = Some k → DidCommit t k ∈ st_trace s) →
  (∀ e, e ∈ own t s → ¬ is_announce_by t e) ∨ key = None →
  let s' := push_effect s (DidAnnounce t id key from why kind) in
  store_inv s' ∧ does t s s'.
Proof.
  intros HI Hc Ha. cbv zeta. split.
  - split; try apply HI.
    + intros t' r'. rewrite elem_of_push. intros [Hd|?]; [|done]. by apply (inv_saved s HI t').
    + intros k. rewrite times_push. cbn. rewrite Nat.add_0_r. apply (inv_saves s HI).
    + intros t' k. rewrite elem_of_push. intros [Hd|?]; [|done]. by apply (inv_committed s HI t').
    + intros k. rewrite times_push. cbn. rewrite Nat.add_0_r. apply (inv_commits s HI).
    + intros t' id' k from' why' kind'. rewrite !elem_of_push.
      intros [Hd|[= -> -> <- -> -> ->]]; left; [by eapply (inv_announced s)|by apply Hc].
    + intros t'. rewrite times_push. case_decide as Hd.
      * rewrite times_zero; [done|]. destruct key as [k|]; [|done]. cbn in Hd. subst t'.
        destruct Ha as [Ha|?]; [|done]. intros e He Hby. apply (Ha e); [|done].
        apply list_elem_of_filter. split; [|done]. by destruct e as [| | |? ? [] ? ? ?|].
      * rewrite Nat.add_0_r. apply (inv_announces s HI).
  - apply (does_plain _ _ _ [DidAnnounce t id key from why kind]); try done. by constructor.
Qed.

(** ** What others cannot change *)

Abbreviation Rely := (rely store_inv does).

Lemma rely_does t s s' : Rely t s s' → ∃ t', t' ≠ t ∧ does t' s s'.
Proof.
  intros (HI & _ & [Ho|?]); [|done]. exists (S t). split; [lia|]. by apply other_save_ok.
Qed.

Lemma rely_keep t s s' id r : Rely t s s' → receipt_in s id = Some r → receipt_in s' id = Some r.
Proof. intros (t' & _ & Hd)%rely_does. apply (does_keep _ _ _ Hd). Qed.

Lemma rely_own t s s' : Rely t s s' → own t s' = own t s.
Proof.
  intros (t' & Hne & Hd)%rely_does. destruct (does_trace _ _ _ Hd) as (h & Ht & Hh).
  unfold own. rewrite Ht, filter_app.
  assert (filter (λ e, effect_by e = t) h = []) as ->; [|by rewrite app_nil_r].
  clear Ht. induction Hh as [|e h He Hh IH]; [done|]. rewrite filter_cons.
  rewrite decide_False by congruence. done.
Qed.

Lemma rely_trace t s s' e : Rely t s s' → e ∈ st_trace s → e ∈ st_trace s'.
Proof.
  intros (t' & _ & Hd)%rely_does. destruct (does_trace _ _ _ Hd) as (h & -> & _).
  rewrite elem_of_app. by left.
Qed.

Lemma rely_locked t s s' id : Rely t s s' → st_locks s !! id = Some t →
  st_locks s' !! id = Some t ∧ receipt_in s' id = receipt_in s id ∧
  ∀ stem kr, k_molecule kr = id → st_keys s' !! stem = Some kr ↔ st_keys s !! stem = Some kr.
Proof.
  intros (t' & Hne & Hd)%rely_does Hl. split_and!.
  - eapply does_locks; eauto.
  - destruct (receipt_in s id) as [r|] eqn:Hr; [by eapply does_keep|].
    destruct (receipt_in s' id) as [r|] eqn:Hr'; [|done]. exfalso.
    pose proof (does_new _ _ _ Hd id r Hr Hr'). congruence.
  - intros stem kr Hm. split.
    + intros Hs'. destruct (st_keys s !! stem) as [kr0|] eqn:Hs.
      * destruct (does_keys _ _ _ Hd stem kr0 Hs) as [?|(_ & Hl0 & kr' & ? & _ & Hm' & _)];
          [congruence|]. exfalso. rewrite Hs' in *. simplify_eq. congruence.
      * pose proof (does_new_keys _ _ _ Hd stem kr Hs Hs'). congruence.
    + intros Hs. destruct (does_keys _ _ _ Hd stem kr Hs) as [?|(_ & Hl0 & _)]; [done|].
      congruence.
Qed.

(** ** What a keyed call knows *)

(** About the record that it has read under [key]; a record of another
    molecule may change under its feet. *)
Definition key_fact id (key : string) (record : option key_record) s : Prop :=
  match record with
  | Some kr => k_key kr = key ∧ (k_molecule kr = id → st_keys s !! file_stem key = Some kr)
  | None => ∀ kr, st_keys s !! file_stem key = Some kr → k_molecule kr ≠ id
  end.

(** While it holds the lock of [id]. *)
Record holding t id (rc : option collapse_receipt) (key : string) (record : option key_record)
    (l : list effect) s : Prop := {
  h_lock : st_locks s !! id = Some t;
  h_receipt : receipt_in s id = rc;
  h_key : key_fact id key record s;
  h_own : own t s = l;
}.

(** After it has released the lock. *)
Definition finished_with t id r (l : list effect) s : Prop :=
  receipt_in s id = Some r ∧ own t s = l.

Abbreviation Stable t P := (stable store_inv does t P).
Abbreviation Wp := (wp store_inv does).

Lemma holding_stable t id rc key record l : Stable t (holding t id rc key record l).
Proof.
  intros s s' [Hl Hr Hk Ho] Hrely. destruct (rely_locked _ _ _ _ Hrely Hl) as (Hl' & Hr' & Hk').
  split; [done|congruence| |by erewrite rely_own].
  destruct record as [kr|]; cbn in *.
  - destruct Hk as [? Hk]. split; [done|]. intros Hm. rewrite Hk' by done. auto.
  - intros kr Hs' Hm. by apply (Hk kr); [apply Hk'|].
Qed.

Lemma finished_stable t id r l : Stable t (finished_with t id r l).
Proof. intros s s' [Hr Ho] Hrely. split; [by eapply rely_keep|by erewrite rely_own]. Qed.

Lemma started_stable t : Stable t (started t).
Proof. intros s s' Ho Hrely. unfold started. by erewrite rely_own. Qed.

Lemma elem_of_own t s e : e ∈ own t s → e ∈ st_trace s.
Proof. unfold own. rewrite list_elem_of_filter. tauto. Qed.

Definition keyed_answer_post t (r : result collapse_error keyed_collapse) s : Prop :=
  match r with Ok k => keyed_post t k s | Err _ => True end.

Definition quiet t (l : list effect) : Prop := ∀ e, e ∈ l → ¬ is_announce_by t e.

Lemma quiet_nil t : quiet t [].
Proof. by intros e ?%not_elem_of_nil. Qed.

Lemma quiet_one t e : ¬ is_announce_by t e → quiet t [e].
Proof. by intros ? e' ->%list_elem_of_singleton. Qed.

Lemma unlock_ok t s id s' :
  store_inv s → s' = (if decide (st_locks s !! id = Some t) then set_locks s (delete id (st_locks s)) else s) →
  store_inv s' ∧ does t s s' ∧ (∀ id, receipt_in s' id = receipt_in s id) ∧ st_trace s' = st_trace s.
Proof.
  intros HI ->. case_decide as Hl; [|by split_and!; [|apply does_refl|..]].
  split_and!; [by apply inv_locks| |done|done].
  apply (does_plain _ _ _ []); try done; [|cbn; by rewrite app_nil_r].
  intros id' t' Hne Hl'. cbn. rewrite lookup_delete_ne; [done|]. intros ->. congruence.
Qed.

(** Release of the lock and announcement, after the key is committed. *)
Lemma finish_wp t id r key l mol prev (was_stuck : bool) q (k : keyed_collapse) s :
  finished_with t id r l s → quiet t l → DidCommit t key ∈ l →
  d_collapse_receipt mol = Some r → r_key r = key →
  (∀ s', finished_with t id r (l ++ [DidAnnounce t (d_id mol) (Some key)
           (if was_stuck then "stuck" else status_as_str prev) (q_reason q) (q_reason_kind q)]) s' →
     keyed_post t k s') →
  Wp t (_ ← call (UnlockMolecule id); _ ← announce mol prev was_stuck q;
        mret (Ok k : result collapse_error keyed_collapse)) (keyed_answer_post t) s.
Proof.
  intros Hf Hq Hc Hm Hk Hpost. eapply wp_call; [apply finished_stable|exact Hf|].
  intros s1 c [] s2 [Hr Ho] HI [= Hs2]. symmetry in Hs2.
  destruct (unlock_ok t s1 id s2 HI Hs2) as (HI2 & Hd & Hr2 & Ht2). split_and!; [done|done|].
  assert (finished_with t id r l s2) as Hf2.
  { split; [by rewrite Hr2|]. unfold own. by rewrite Ht2. }
  eapply wp_call; [apply finished_stable|exact Hf2|].
  intros s3 c' [] s4 [Hr3 Ho3] HI3 [= Hs4]. cbn in Hs4. rewrite Hm in Hs4. cbn in Hs4.
  rewrite Hk in Hs4. subst s4.
  destruct (announce_ok t s3 (d_id mol) (Some key) (if was_stuck then "stuck" else status_as_str prev)
              (q_reason q) (q_reason_kind q)) as [HI4 Hd4]; [done| | |].
  - intros k' [= <-]. apply (elem_of_own t). by rewrite Ho3.
  - left. by rewrite Ho3.
  - split_and!; [done|done|]. apply Hpost. split; [done|].
    rewrite own_push, Ho3. by rewrite decide_True.
Qed.

Section KeyedProof.
Context (t : nat) (id : mid) (q : collapse_request) (cause : option collapse_cause)
  (condition : collapse_condition) (digest : string) (mol : molecule_data) (revision : string)
  (lease : option string).
Hypothesis mol_id : d_id mol = id.
Hypothesis mol_collapsed :
  is_Some (d_collapse_receipt mol) → d_status mol = MoleculeStatus.Collapsed.

Let key := c_key condition.

Lemma perform_wp now kr l s :
  holding t id None key (Some kr) l s → quiet t l →
  k_molecule kr = id → k_digest kr = digest → k_phase kr = Reserved →
  Wp t (perform id q cause condition digest mol revision now) (keyed_answer_post t) s.
Proof.
  intros Hh Hq Hkm Hkd Hph. unfold perform. cbv zeta.
  eapply wp_try_call; [apply holding_stable|exact Hh|].
  clear s Hh. intros s c e s' Hh HI (-> & He)%reading_inv. split_and!; [done|apply does_refl|].
  destruct He as [->|[e' ->]]; [|done].
  set (r := new_receipt id condition digest mol revision now).
  eapply wp_try_call; [apply holding_stable|exact Hh|].
  clear s Hh HI. intros s c1 e s' Hh HI Hs. cbn [exec collapse_machine exec_op] in Hs.
  apply writing_inv in Hs as [(-> & e' & ->)|([] & Hs & He)];
    [by split_and!; [|apply does_refl|]|].
  apply result_bind_ok in Hs as (s1 & Hs & [= <-]).
  change (d_id (collapsed_record _ _ _ _ _)) with (d_id mol) in Hs. rewrite mol_id in Hs.
  destruct Hh as [Hl Hr [Hkk Hk] Ho]. specialize (Hk Hkm).
  destruct (save_receipt_ok t s id (collapsed_record mol q cause (Some r) now) r kr s1
              HI mol_id eq_refl eq_refl eq_refl Hr Hl Hk Hkk Hkm Hkd Hs)
    as (HI1 & Hd & Hr1 & Ho1 & Hk1 & Hl1).
  split_and!; [done|done|]. destruct He as [->|[e' ->]]; [|done].
  assert (holding t id (Some r) key (Some kr) (l ++ [DidSave t r]) s1) as Hh1.
  { split; [by rewrite Hl1|done|split; [done|by rewrite Hk1]|by rewrite Ho1, Ho]. }
  clear s HI Hl Hr Hk Ho Hs Hd Hr1 Ho1 Hk1 Hl1 c c1.
  eapply wp_try_call; [apply holding_stable|exact Hh1|].
  clear s1 Hh1 HI1. intros s c e s' Hh HI (-> & He)%reading_inv. split_and!; [done|apply does_refl|].
  destruct He as [->|[e' ->]]; [|done].
  eapply wp_try_call; [apply holding_stable|exact Hh|].
  clear s Hh HI c. intros s c e s' Hh HI Hs. cbn [exec collapse_machine exec_op] in Hs.
  apply writing_inv in Hs as [(-> & e' & ->)|([] & [= <-] & He)];
    [by split_and!; [|apply does_refl|]|].
  destruct Hh as [Hl Hr [_ Hk] Ho]. specialize (Hk Hkm).
  destruct (commit_ok t s kr (key_committed (reservation id condition digest) r) r)
    as (HI1 & Hd & Ho1); [done|by rewrite Hkk|done|by rewrite Hkm|by rewrite Hkm|done..|].
  split_and!; [done|done|]. destruct He as [->|[e' ->]]; [|done].
  rewrite Hkk in Ho1.
  apply (finish_wp t id r key (l ++ [DidSave t r] ++ [DidCommit t key])); [|..].
  - split; [|by rewrite Ho1, Ho, <- app_assoc]. by eapply does_keep.
  - intros e. rewrite !elem_of_app, !list_elem_of_singleton. intros [?|[->| ->]]; [by apply Hq|tauto..].
  - rewrite !elem_of_app, !list_elem_of_singleton. auto.
  - done.
  - done.
  - intros s2 [Hr2 Ho2]. cbn. split_and!; [done|done|done|]. intros _.
    apply (elem_of_own t). rewrite Ho2, !elem_of_app, !list_elem_of_singleton. auto.
Qed.

(** The facts that a decision rests on, while the lock is held. *)
Lemma held_receipt s record l r :
  store_inv s → holding t id (d_collapse_receipt mol) key record l s →
  receipt_for_key key (d_collapse_receipt mol) = Some r →
  r_molecule r = id ∧ r_key r = key ∧ receipt_in s id = Some r ∧
  (∀ kr, record = Some kr → k_molecule kr = id → k_digest kr = r_digest r) ∧ record ≠ None.
Proof.
  intros HI [Hl Hr Hk Ho] (Hm & Hrk)%receipt_for_key_some. rewrite Hm in Hr.
  destruct (inv_bound s HI id r Hr) as (? & kr0 & Hk0 & Hkk0 & Hkm0 & Hkd0).
  rewrite Hrk in Hk0. split_and!; [done..| |].
  - intros kr -> Hkm. destruct Hk as [_ Hk]. rewrite Hk in Hk0 by done. by injection Hk0 as <-.
  - intros ->. by apply (Hk kr0).
Qed.

Lemma held_committed s kr l r :
  store_inv s → holding t id (d_collapse_receipt mol) key (Some kr) l s →
  k_molecule kr = id → k_phase kr = Committed → k_receipt kr = Some r →
  r_molecule r = id ∧ r_digest r = k_digest kr ∧ receipt_in s id = Some r.
Proof.
  intros HI [Hl Hr [Hkk Hk] Ho] Hkm Hph Hrc. specialize (Hk Hkm).
  destruct (inv_key s HI _ _ Hk) as [_ Hc]. rewrite Hph in Hc. destruct Hc as (r' & Hr' & Hrk & Hin).
  rewrite Hrc in Hr'. injection Hr' as <-. rewrite Hkm in Hin.
  destruct (inv_bound s HI id r Hin) as (? & kr0 & Hk0 & _ & _ & Hkd0). split_and!; [done| |done].
  rewrite Hrk, Hkk, Hk in Hk0. by injection Hk0 as <-.
Qed.

(** Completion of a commit that a killed process left undone. *)
Lemma finalize_wp s record r was_stuck :
  store_inv s → holding t id (d_collapse_receipt mol) key record [] s →
  bound_here (DecisionInput id condition digest record (d_status mol) revision
    (d_collapse_receipt mol) lease 0) →
  receipt_for_key key (d_collapse_receipt mol) = Some r → r_digest r = digest →
  (∀ kr, record = Some kr → k_phase kr ≠ Committed) →
  Wp t (try! _ ← call (CommitKey (key_committed (default (reservation id condition digest) record) r))
          catch (from_cosmon id);
        _ ← call (UnlockMolecule id);
        _ ← announce mol (r_previous_status r) was_stuck q;
        mret (Ok (replayed digest r true was_stuck))) (keyed_answer_post t) s.
Proof.
  intros HI Hh Hb Hr Hdg Hph.
  eapply wp_try_call; [apply holding_stable|exact Hh|].
  clear s HI Hh. intros s c e s' Hh HI Hs. cbn [exec collapse_machine exec_op] in Hs.
  apply writing_inv in Hs as [(-> & e' & ->)|([] & [= <-] & He)];
    [by split_and!; [|apply does_refl|]|].
  destruct (held_receipt s record [] r HI Hh Hr) as (Hrm & Hrk & Hin & Hkd & Hne).
  destruct record as [kr|]; [|done]. destruct (Hb kr eq_refl) as [Hkm Hkdg]; cbn in Hkm, Hkdg.
  specialize (Hph kr eq_refl). destruct Hh as [Hl _ [Hkk Hk] Ho]. specialize (Hk Hkm).
  destruct (commit_ok t s kr (key_committed kr r) r) as (HI1 & Hd & Ho1);
    [done|by rewrite Hkk|by destruct (k_phase kr)|by rewrite Hkm|by rewrite Hkm|congruence|done..|].
  split_and!; [done|done|]. destruct He as [->|[e' ->]]; [|done].
  rewrite Ho, Hkk in Ho1. apply receipt_for_key_some in Hr as [Hm _].
  apply (finish_wp t id r key [DidCommit t key]); [|..]; [|apply quiet_one; tauto|by left|done|done|].
  - split; [by eapply does_keep|done].
  - intros s2 [Hr2 Ho2]. cbn. by rewrite Hrm.
Qed.

Lemma rounds_wp n record s :
  holding t id (d_collapse_receipt mol) key record [] s →
  Wp t (rounds id q cause condition digest mol revision lease n record) (keyed_answer_post t) s.
Proof.
  revert record s. induction n as [|n IH]; intros record s Hh; [done|]. cbn [rounds].
  eapply wp_call; [apply holding_stable|exact Hh|].
  clear s Hh. intros s c now s' Hh HI [= <- <-]. split_and!; [done|apply does_refl|].
  set (input := round_input id condition digest mol revision lease record (clock_now c)).
  destruct (decide_collapse input) as [refusal|r [|]|reserve] eqn:Hd.
  - cbn. split; [done|]. by destruct Hh.
  - apply decide_replay_iff in Hd as (Hb & [(Hr & Hdg & Hf)|(_ & _ & ?)]); [|done].
    eapply finalize_wp; try done. intros kr Hkr. cbn in Hf. rewrite Hkr in Hf.
    symmetry in Hf. by apply bool_decide_eq_true in Hf.
  - apply decide_replay_iff in Hd as (Hb & [(Hr & Hdg & Hf)|(_ & (kr & Hkr & Hph & Hrc) & _)]).
    + destruct (held_receipt s record [] r HI Hh Hr) as (Hrm & _ & Hin & _). cbn. by rewrite Hrm.
    + cbn in Hkr. subst record. destruct (Hb kr eq_refl) as [Hkm Hkdg]; cbn in Hkm, Hkdg.
      destruct (held_committed s kr [] r HI Hh Hkm Hph Hrc) as (Hrm & Hrd & Hin). cbn.
      split_and!; [done|by rewrite Hrd|by rewrite Hrm|done].
  - apply decide_admit_iff in Hd as (Hb & Hr & Hc & (_ & _ & Hst & _) & ->).
    assert (d_collapse_receipt mol = None) as Hnone.
    { destruct (d_collapse_receipt mol) as [r|]; [|done]. exfalso.
      cbn in Hst. rewrite mol_collapsed in Hst by done. by destruct (expect_status condition). }
    subst input. cbn [in_key_record round_input].
    eapply wp_try_call; [apply holding_stable|exact Hh|].
    clear s Hh HI Hr Hst. intros s c1 e s' Hh HI (-> & He)%reading_inv.
    split_and!; [done|apply does_refl|]. destruct He as [->|[e' ->]]; [|done].
    cbn in Hb, Hc. rewrite Hnone in Hh. cbn [is_some negb].
    destruct record as [kr|]; cbn [in_key_record round_input is_some negb].
    + destruct (Hb kr eq_refl) as [Hkm Hkd]; cbn in Hkm, Hkd.
      eapply perform_wp with (kr := kr) (l := []); [exact Hh|apply quiet_nil|done|done|].
      destruct (k_phase kr) eqn:Hph; [done|]. exfalso.
      destruct Hh as [_ _ [_ Hk] _]. destruct (inv_key s HI _ _ (Hk Hkm)) as [_ Hc'].
      rewrite Hph in Hc'. destruct Hc' as (r & Hr & _). apply (Hc r). by exists kr.
    + eapply wp_try_call; [apply holding_stable|exact Hh|].
      clear s Hh HI. intros s c2 e s' Hh HI Hs. cbn [exec collapse_machine exec_op] in Hs.
      apply writing_inv in Hs as [(-> & e' & ->)|(b & Hs & He)];
        [by split_and!; [|apply does_refl|]|].
      injection Hs as Hs. destruct Hh as [Hl Hr Hk Ho].
      destruct (reserve_ok t s (reservation id condition digest) b s' HI eq_refl eq_refl Hl Hs)
        as (HI1 & Hdo & Hb1). split_and!; [done|done|]. destruct He as [->|[e' ->]]; [|done].
      destruct b.
      * destruct Hb1 as (Hk1 & Ho1 & Hr1 & Hl1). rewrite Ho in Ho1.
        eapply perform_wp with (kr := reservation id condition digest); [|..|done|done|done].
        -- split; [by rewrite Hl1|by rewrite Hr1|done|exact Ho1].
        -- apply quiet_one. tauto.
      * subst s'. assert (holding t id None key None [] s) as Hh by done.
        eapply wp_try_call; [apply holding_stable|exact Hh|].
        clear s Hl Hr Hk Ho Hh Hs HI HI1 Hdo. intros s c3 e s' Hh HI (-> & He)%reading_inv.
        split_and!; [done|apply does_refl|]. destruct He as [->|[e' ->]]; [|done].
        unfold read_key. destruct (st_keys s !! file_stem (c_key condition)) as [kr|] eqn:Hs.
        -- case_decide as Hkk; [|done]. apply IH. rewrite Hnone.
           destruct Hh as [? ? ? ?]. by split.
        -- apply IH. by rewrite Hnone.
Qed.

End KeyedProof.

Lemma loaded_file s id f :
  store_inv s → load_file s id = Ok f →
  d_id (file_data f) = id ∧ receipt_in s id = d_collapse_receipt (file_data f) ∧
  (is_Some (d_collapse_receipt (file_data f)) → d_status (file_data f) = MoleculeStatus.Collapsed).
Proof.
  intros HI. unfold load_file. destruct (st_molecules s !! id) as [f'|] eqn:Hf; [|done].
  intros [= ->]. split_and!; [by eapply inv_ids| |by eapply inv_collapsed].
  unfold receipt_in. by rewrite Hf.
Qed.

Lemma lock_ok t s id :
  store_inv s → st_locks s !! id = None →
  store_inv (set_locks s (<[id := t]> (st_locks s))) ∧
  does t s (set_locks s (<[id := t]> (st_locks s))).
Proof.
  intros HI Hn. split; [by apply inv_locks|].
  apply (does_plain _ _ _ []); try done; [|cbn; by rewrite app_nil_r].
  intros id' t' Hne Hl. cbn. rewrite lookup_insert_ne; [done|]. intros ->. congruence.
Qed.

Lemma keyed_wp t caller id q cause condition s :
  started t s → Wp t (keyed caller id q cause condition) (keyed_answer_post t) s.
Proof.
  intros Hst. unfold keyed. destruct (intent_digest _) as [digest|e]; [|done].
  eapply wp_try_call; [apply started_stable|exact Hst|].
  clear s Hst. intros s c e s' Hst HI Hs. cbn [exec collapse_machine exec_op] in Hs.
  destruct (st_molecules s !! id) as [f|], (st_locks s !! id) as [t'|] eqn:Hl;
    try (by injection Hs as <- <-; split_and!; [|apply does_refl|]); [done|].
  apply writing_inv in Hs as [(-> & e' & ->)|([] & [= <-] & He)];
    [by split_and!; [|apply does_refl|]|].
  destruct (lock_ok t s id HI Hl) as [HI1 Hd]. split_and!; [done|done|].
  destruct He as [->|[e' ->]]; [|done].
  set (s1 := set_locks s (<[id := t]> (st_locks s))) in *.
  assert (st_locks s1 !! id = Some t) as Hl1 by apply lookup_insert_eq.
  assert (own t s1 = []) as Ho1 by exact Hst. clearbody s1. clear s f c Hst HI Hl Hd.
  eapply wp_try_call with (P := λ s, st_locks s !! id = Some t ∧ own t s = []);
    [intros s s' [Hl Ho] Hr; split; [by eapply rely_locked|by erewrite rely_own]|done|].
  clear s1 HI1 Hl1 Ho1. intros s c record s' [Hl Ho] HI (-> & He)%reading_inv.
  split_and!; [done|apply does_refl|]. destruct He as [->|[e' ->]]; [|done].
  destruct (read_key s (c_key condition)) as [record|e'] eqn:Hk; [|done].
  eapply wp_try_call with (P := λ s, ∃ rc, holding t id rc (c_key condition) record [] s).
  { intros s1 s2 [rc Hh] Hr. exists rc. by eapply holding_stable. }
  { exists (receipt_in s id). split; [done|done| |done]. unfold read_key in Hk.
    destruct (st_keys s !! file_stem (c_key condition)) as [kr|] eqn:Hkr.
    - case_decide as Hkk; [|done]. injection Hk as <-. by split.
    - injection Hk as <-. cbn. intros kr. by rewrite Hkr. }
  clear s c Hl Ho HI Hk. intros s c e s' [rc Hh] HI (-> & He)%reading_inv.
  split_and!; [done|apply does_refl|]. destruct He as [->|[e' ->]]; [|done].
  destruct (load_file s id) as [f|e'] eqn:Hf; [|done]. cbn [mbind result_bind].
  destruct (loaded_file s id f HI Hf) as (Hid & Hr & Hcol).
  eapply wp_try_call with
    (P := holding t id (d_collapse_receipt (file_data f)) (c_key condition) record []);
    [apply holding_stable|destruct Hh; by split|].
  clear s c HI Hh Hf Hr. intros s c lease s' Hh HI (-> & He)%reading_inv.
  split_and!; [done|apply does_refl|]. destruct He as [->|[e' ->]]; [|done].
  by apply rounds_wp.
Qed.

Lemma true_stable t : Stable t (λ _, True).
Proof. by intros s s'. Qed.

Lemma unconditional_wp t caller id q cause now s :
  Wp t (unconditional caller id q cause now) (λ a s, answer_post t (AnsCollapse a) s) s.
Proof.
  unfold unconditional. eapply wp_try_call; [apply true_stable|done|].
  intros s1 c e s' _ HI (-> & He)%reading_inv. split_and!; [done|apply does_refl|].
  destruct He as [->|[e' ->]]; [|done]. destruct (lease_refusal c); [done|].
  eapply wp_try_call; [apply true_stable|done|].
  clear s s1 c HI. intros s c e s' _ HI (-> & He)%reading_inv. split_and!; [done|apply does_refl|].
  destruct He as [->|[e' ->]]; [|done].
  destruct (load_file s id) as [f|e'] eqn:Hf; [|done]. cbn [mbind result_bind].
  destruct (loaded_file s id f HI Hf) as (Hid & _ & _). cbv zeta.
  set (mol := file_data f) in *. clearbody mol.
  assert (∀ prev, Wp t (try! _ ← call (SaveMolecule false (d_id (collapsed_record mol q cause None now))
                                         (collapsed_record mol q cause None now))
                          catch (λ e, CollapseFailed (from_cosmon id e));
                        _ ← announce (collapsed_record mol q cause None now) prev (frozen_and_stuck prev mol) q;
                        mret (Ok (Unconditional (CollapseView id prev (q_reason q) cause false
                                    (frozen_and_stuck prev mol)) (Some (collapsed_record mol q cause None now)))))
                  (λ a s, answer_post t (AnsCollapse a) s) s) as Hsave.
  { clear f c HI Hf. intros prev. eapply wp_try_call; [apply true_stable|done|].
    clear s. intros s c e s' _ HI Hs. cbn [exec collapse_machine exec_op] in Hs.
    apply writing_early_inv in Hs as [(-> & (e' & ->) & _)|([] & Hs & -> & _)];
      [by split_and!; [|apply does_refl|]|].
    apply result_bind_ok in Hs as (s1 & Hs & [= <-]).
    destruct (plain_save s _ (collapsed_record mol q cause None now) None t s1 HI eq_refl
                (or_introl eq_refl) Hs) as (Hr & -> & HI1).
    split_and!; [done| |].
    - apply (does_plain _ _ _ []); try done. cbn. by rewrite app_nil_r.
    - eapply wp_call; [apply true_stable|done|].
      clear s c Hr Hs HI HI1. intros s c [] s' _ HI [= <-]. cbn [an_molecule an_from an_reason an_kind].
      destruct (announce_ok t s (d_id (collapsed_record mol q cause None now)) None
                  (if frozen_and_stuck prev mol then "stuck" else status_as_str prev)
                  (q_reason q) (q_reason_kind q)) as [HI1 Hd]; [done|done|by right|].
      by split_and!. }
  destruct (d_status mol); done || apply Hsave.
Qed.

Lemma execute_wp t caller id q condition s :
  started t s →
  Wp t (execute caller id q condition) (λ a s, answer_post t (AnsCollapse a) s) s.
Proof.
  intros Hst. unfold execute. destruct (parse_cause q) as [cause|e]; [|done].
  destruct condition as [condition|].
  - apply wp_bind. eapply wp_mono; [|by apply keyed_wp]. by intros [k|e].
  - eapply wp_call; [apply true_stable|done|].
    intros s1 c now s2 _ HI [= <- <-]. split_and!; [done|apply does_refl|].
    apply unconditional_wp.
Qed.

(** ** Lookups *)

(** What remains true of a key record that was read without a lock. *)
Definition lookup_fact (key : string) (record : option key_record) s : Prop :=
  match record with
  | None => True
  | Some kr =>
      (k_phase kr = Reserved → k_receipt kr = None) ∧
      ∃ kr', st_keys s !! file_stem key = Some kr' ∧ k_key kr' = key ∧ k_molecule kr' = k_molecule kr ∧
             k_digest kr' = k_digest kr ∧ (k_phase kr = Committed → kr' = kr)
  end.

Lemma lookup_stable t key record : Stable t (lookup_fact key record).
Proof.
  intros s s' Hf (t' & _ & Hd)%rely_does. destruct record as [kr|]; [|done].
  destruct Hf as (Hn & kr' & Hk & Hkk & Hkm & Hkd & Hc). split; [done|].
  destruct (does_keys _ _ _ Hd _ _ Hk) as [?|(Hph & _ & kr2 & ? & ? & ? & ?)]; [by exists kr'|].
  exists kr2. split_and!; [done|congruence..|]. intros Hph'. rewrite <- (Hc Hph') in Hph'. congruence.
Qed.

Lemma lookup_consistent_now s id key record f :
  store_inv s → lookup_fact key record s → load_file s id = Ok f →
  ∀ detail, classify_lookup id key record (d_status (file_data f)) (d_collapse_receipt (file_data f)) ≠
            LInconsistent detail.
Proof.
  intros HI Hf (_ & Hr & Hcol)%loaded_file detail; [|done]. unfold classify_lookup.
  destruct (receipt_for_key key (d_collapse_receipt (file_data f))) as [r|] eqn:Hrk.
  - apply receipt_for_key_some in Hrk as [Hm Hk]. rewrite Hm in Hr.
    destruct (inv_bound s HI id r Hr) as (_ & kr0 & Hk0 & _ & Hkm0 & Hkd0). rewrite Hk in Hk0.
    rewrite Hcol by (by rewrite Hm). rewrite decide_False by (intros Hc; by apply Hc).
    destruct record as [kr|]; [|done]. destruct Hf as (Hn & kr' & Hk' & _ & Hkm & Hkd & Hc).
    rewrite Hk0 in Hk'. injection Hk' as <-. case_bool_decide; [done|].
    assert (record_mismatch (Some kr) r = None) as ->; [|done]. unfold record_mismatch.
    rewrite decide_False by (rewrite <- Hkd, Hkd0; intros Hx; by apply Hx).
    destruct (k_phase kr) eqn:Hph; [by rewrite Hn|].
    rewrite <- (Hc eq_refl). destruct (inv_key s HI _ _ Hk0) as [_ Hc0].
    rewrite (Hc eq_refl), Hph in Hc0. destruct Hc0 as (r0 & Hr0 & _ & Hin).
    rewrite (Hc eq_refl), Hr0. rewrite <- (Hc eq_refl), Hkm0, Hr in Hin. injection Hin as <-.
    by rewrite decide_False by (intros Hx; by apply Hx).
  - destruct record as [kr|]; [|done]. case_bool_decide as Hb; [done|].
    destruct Hf as (Hn & kr' & Hk' & Hkk & Hkm & Hkd & Hc).
    destruct (k_phase kr) eqn:Hph; [done|]. exfalso. specialize (Hc eq_refl). subst kr'.
    destruct (inv_key s HI _ _ Hk') as [_ Hc0]. rewrite Hph in Hc0. destruct Hc0 as (r0 & Hr0 & Hrk0 & Hin).
    rewrite Hb, Hr in Hin.
    assert (receipt_for_key key (d_collapse_receipt (file_data f)) = Some r0); [|congruence].
    apply receipt_for_key_some. split; congruence.
Qed.

Lemma lookup_wp t id key s :
  Wp t (lookup_receipt id key) (λ a s, answer_post t (AnsLookup a) s) s.
Proof.
  unfold lookup_receipt. eapply wp_try_call; [apply true_stable|done|].
  intros s1 c e s' _ HI (-> & He)%reading_inv. split_and!; [done|apply does_refl|].
  destruct He as [->|[e' ->]]; [|done].
  destruct (read_key s1 key) as [record|e'] eqn:Hk; [|done].
  eapply wp_try_call; [apply lookup_stable with (key := key) (record := record)| |].
  - unfold read_key in Hk. destruct (st_keys s1 !! file_stem key) as [kr|] eqn:Hs.
    + case_decide as Hkk; [|done]. injection Hk as <-.
      destruct (inv_key s1 HI _ _ Hs) as [_ Hph]. split; [by intros Hp; rewrite Hp in Hph|].
      by exists kr.
    + by injection Hk as <-.
  - clear s s1 c HI Hk. intros s c e s' Hf HI (-> & He)%reading_inv.
    split_and!; [done|apply does_refl|]. destruct He as [->|[e' ->]]; [|done].
    destruct (load_file s id) as [f|e'] eqn:Hl; [|done]. cbn.
    by apply (lookup_consistent_now s).
Qed.

(** ** The system is sound *)

Lemma release_ok t s :
  store_inv s → store_inv (release_locks t s) ∧ does t s (release_locks t s).
Proof.
  intros HI. split; [by apply (inv_same s)|].
  apply (does_plain _ _ _ []); try done; [|cbn; by rewrite app_nil_r].
  intros id t' Hne Hl. cbn. by apply map_lookup_filter_Some_2.
Qed.

Lemma keyed_post_stable t k : Stable t (keyed_post t k).
Proof.
  intros s s' Hp Hr. unfold keyed_post in *.
  destruct (kc_refusal k), (kc_receipt k); try done.
  - destruct Hp. split; [done|]. by erewrite rely_own.
  - destruct Hp as (? & ? & ? & Hsave). split_and!; [done|done|by eapply rely_keep|].
    intros ?. eapply rely_trace; eauto.
Qed.

Lemma collapse_sound : sound store_inv does started answer_post.
Proof.
  split.
  - intros t p s Hp _ Hst. destruct Hp as [caller id q condition|id key].
    + apply wp_map. by apply execute_wp.
    + apply wp_map. apply lookup_wp.
  - intros t [[[v m|k]|e]|[l|e]]; cbn; try apply true_stable; [apply keyed_post_stable|].
    by intros s s'.
  - apply started_stable.
  - apply release_ok.
  - by intros t [[[v m|k]|e]|[l|e]] s HI Hp.
  - intros s s' HI Ho. by apply (other_save_ok 0 s s').
Qed.

(** A store that nobody is using. *)
Definition at_rest s : Prop := store_inv s ∧ st_trace s = [] ∧ st_locks s = ∅.

Lemma at_rest_ok s0 y :
  at_rest s0 → reachable s0 y → system_ok store_inv does started answer_post y.
Proof.
  intros (HI & Ht & _). apply (reachable_ok _ _ _ _ collapse_sound); [done|].
  intros t. unfold started, own. by rewrite Ht.
Qed.

Lemma announced_once s key : store_inv s → times (is_announce_of key) s ≤ 1.
Proof.
  intros HI. unfold times. destruct (filter (is_announce_of key) (st_trace s)) as [|e l] eqn:Hf;
    [cbn; lia|]. rewrite <- Hf.
  assert (e ∈ filter (is_announce_of key) (st_trace s)) as [He Hin]%list_elem_of_filter
    by (rewrite Hf; left).
  destruct e as [| | |t id [k|] from why kind|]; cbn in He; try done. subst k.
  transitivity (times (is_announce_by t) s); [|apply (inv_announces s HI)].
  apply length_filter_mono. intros e' He'. destruct e' as [| | |t' id' [k'|] from' why' kind'|]; try done.
  cbn. intros ->.
  assert (DidCommit t' key = DidCommit t key) as [= ->]; [|done].
  apply (length_le_1_eq _ _ _ (inv_commits s HI key)); apply list_elem_of_filter;
    (split; [done|by eapply (inv_announced s)]).
Qed.

(** The process [t] has answered a keyed collapse with [k]. *)
Definition answered (y : system store_op store answer) t (k : keyed_collapse) : Prop :=
  processes y !! t = Some (Returned (AnsCollapse (Ok (Keyed k)))).

(** C1. However the calls interleave, fail and are killed, a key collapses at
    most one molecule, once, and at most one process announces it. All answers
    with a receipt for the key carry the same receipt, that receipt is in the
    state of the molecule and stays there, and at most one answer says that it
    made the transition; a refused call has written nothing. *)
Theorem collapse_exactly_once s0 y key :
  at_rest s0 → reachable s0 y →
  times (is_save key) (shared y) ≤ 1 ∧
  times (is_announce_of key) (shared y) ≤ 1 ∧
  (∀ t k refusal, answered y t k → kc_refusal k = Some refusal → own t (shared y) = []) ∧
  (∀ t k r, answered y t k → kc_receipt k = Some r →
     outcome_is_success (kc_outcome k) = true ∧
     ∀ y', rtc step y y' → receipt_in (shared y') (r_molecule r) = Some r) ∧
  (∀ t1 t2 k1 k2 r1 r2, answered y t1 k1 → answered y t2 k2 →
     kc_receipt k1 = Some r1 → kc_receipt k2 = Some r2 → r_key r1 = key → r_key r2 = key →
     r1 = r2 ∧ (kc_outcome k1 = KTransitioned → kc_outcome k2 = KTransitioned → t1 = t2)).
Proof.
  intros Hrest Hr. pose proof (at_rest_ok s0 y Hrest Hr) as Hok. pose proof Hok as (HI & Hts & _).
  assert (∀ t k, answered y t k → keyed_post t k (shared y)) as Hpost
    by (intros t k Ha; apply (Hts t _ Ha)).
  assert (∀ t k r, answered y t k → kc_receipt k = Some r →
    outcome_is_success (kc_outcome k) = true ∧ receipt_in (shared y) (r_molecule r) = Some r ∧
    (kc_outcome k = KTransitioned → DidSave t r ∈ st_trace (shared y))) as Hrec.
  { intros t k r Ha Hk. specialize (Hpost t k Ha). unfold keyed_post in Hpost.
    rewrite Hk in Hpost. destruct (kc_refusal k); [done|]. tauto. }
  split_and!.
  - apply (inv_saves _ HI).
  - by apply announced_once.
  - intros t k refusal Ha Hk. specialize (Hpost t k Ha). unfold keyed_post in Hpost.
    rewrite Hk in Hpost. by destruct (kc_receipt k), Hpost.
  - intros t k r Ha Hk. destruct (Hrec t k r Ha Hk) as (? & Hin & _). split; [done|].
    intros y' Hy. apply (steps_stable _ _ _ _ collapse_sound
      (λ s, receipt_in s (r_molecule r) = Some r) y y'); [|done..].
    intros t' s s' Hs Hrely. by eapply rely_keep.
  - intros t1 t2 k1 k2 r1 r2 Ha1 Ha2 Hk1 Hk2 Hr1 Hr2.
    destruct (Hrec t1 k1 r1 Ha1 Hk1) as (_ & Hin1 & Ht1), (Hrec t2 k2 r2 Ha2 Hk2) as (_ & Hin2 & Ht2).
    destruct (inv_bound _ HI _ _ Hin1) as (_ & kr1 & Hs1 & _ & Hm1 & _).
    destruct (inv_bound _ HI _ _ Hin2) as (_ & kr2 & Hs2 & _ & Hm2 & _).
    rewrite Hr1 in Hs1. rewrite Hr2 in Hs2. assert (r1 = r2) as -> by congruence. split; [done|].
    intros Hx1 Hx2. assert (DidSave t1 r2 = DidSave t2 r2) as [= ->]; [|done].
    apply (length_le_1_eq _ _ _ (inv_saves _ HI key)); apply list_elem_of_filter; split; auto.
Qed.

(** A lookup never reports an inconsistent store, whatever collapses,
    crashes and other writers run between its two reads. *)
Theorem lookup_never_inconsistent s0 y t l :
  at_rest s0 → reachable s0 y →
  processes y !! t = Some (Returned (AnsLookup (Ok l))) →
  ∀ detail, l ≠ LInconsistent detail.
Proof. intros Hrest Hr Ht. by apply (proj1 (proj2 (at_rest_ok s0 y Hrest Hr)) t _ Ht). Qed.

(** ** One call alone *)

Lemma fares_ok {A} c s (f : result cosmon_error (A * store)) a s' :
  fares c = Works → f = Ok (a, s') → writing A c s f = Some (Ok a, s').
Proof. unfold writing. by intros -> ->. Qed.

Lemma reads_ok {A} c s (r : result cosmon_error A) : fares c = Works → reading c s r = Some (r, s).
Proof. unfold reading. by intros ->. Qed.

Lemma save_receipt_alone t s id data r :
  store_inv s → receipt_in s id = None → d_collapse_receipt data = Some r →
  (∀ f, st_molecules s !! id = Some f → d_status (file_data f) ≠ MoleculeStatus.Collapsed) →
  save_molecule t s id data None = Ok (push_effect (put_molecule t s id data) (DidSave t r)).
Proof.
  intros HI Hn Hd Hf. unfold save_molecule, write_refusal. rewrite Hn, Hd.
  destruct (st_molecules s !! id) as [f|] eqn:Hs; [|done].
  rewrite decide_False; [done|]. intros [Hc _]. by apply (Hf f).
Qed.

(** The announcement of a collapse, as the trace has it. *)
Definition announced t (m : molecule_data) (prev : molecule_status) (was_stuck : bool)
    (q : collapse_request) : effect :=
  DidAnnounce t (d_id m) (r_key <$> d_collapse_receipt m)
    (if was_stuck then "stuck" else status_as_str prev) (q_reason q) (q_reason_kind q).

Section Alone.
Context (c : circumstances) (t : nat) (caller : caller_context) (id : mid) (q : collapse_request)
  (condition : collapse_condition) (cause : option collapse_cause) (digest : string).
Hypothesis Hcalm : fares c = Works.
Hypothesis Hcause : parse_cause q = Ok cause.
Hypothesis Hdigest :
  intent_digest (request_intent q id condition (caller_actor caller)) = Ok digest.

(** What the call decides on. *)
Definition alone_input (f : molecule_file) (record : option key_record) : decision_input :=
  round_input id condition digest (file_data f) (of_state_bytes f) (lease_refusal c) record (clock_now c).

(** What it answers and leaves, by the decision. *)
Definition alone_result (f : molecule_file) (record : option key_record) s
    (k : keyed_collapse) s' : Prop :=
  let mol := file_data f in
  let was_stuck := frozen_and_stuck (d_status mol) mol in
  match decide_collapse (alone_input f record) with
  | Refuse refusal =>
      k = refused digest refusal was_stuck ∧
      st_molecules s' = st_molecules s ∧ st_keys s' = st_keys s ∧ st_trace s' = st_trace s
  | Replay r false =>
      k = replayed digest r false false ∧
      st_molecules s' = st_molecules s ∧ st_keys s' = st_keys s ∧ st_trace s' = st_trace s
  | Replay r true =>
      let stuck := frozen_and_stuck (r_previous_status r) mol in
      let kr := key_committed (default (reservation id condition digest) record) r in
      k = replayed digest r true stuck ∧
      st_molecules s' = st_molecules s ∧
      st_keys s' = <[file_stem (k_key kr) := kr]> (st_keys s) ∧
      st_trace s' = st_trace s ++ [DidCommit t (k_key kr); announced t mol (r_previous_status r) stuck q]
  | Admit reserve =>
      let r := new_receipt id condition digest mol (of_state_bytes f) (clock_now c) in
      let updated := collapsed_record mol q cause (Some r) (clock_now c) in
      let kr := key_committed (reservation id condition digest) r in
      k = KeyedCollapse KTransitioned digest (Some r) None true (Some updated) was_stuck ∧
      st_molecules s' = <[id := MoleculeFile updated ""]> (st_molecules s) ∧
      st_keys s' !! file_stem (c_key condition) = Some kr ∧
      st_trace s' = st_trace s ++ (if reserve then [DidReserve t (c_key condition)] else []) ++
        [DidSave t r; DidCommit t (c_key condition); announced t updated (d_status mol) was_stuck q]
  end.

Lemma perform_alone s f :
  store_inv s → st_molecules s !! id = Some f →
  receipt_in s id = None → d_status (file_data f) ≠ MoleculeStatus.Collapsed →
  let mol := file_data f in
  let was_stuck := frozen_and_stuck (d_status mol) mol in
  let r := new_receipt id condition digest mol (of_state_bytes f) (clock_now c) in
  let updated := collapsed_record mol q cause (Some r) (clock_now c) in
  let kr := key_committed (reservation id condition digest) r in
  ∃ s', run c t (perform id q cause condition digest mol (of_state_bytes f) (clock_now c)) s =
    Some (Ok (KeyedCollapse KTransitioned digest (Some r) None true (Some updated) was_stuck), s') ∧
    st_molecules s' = <[id := MoleculeFile updated ""]> (st_molecules s) ∧
    st_keys s' = <[file_stem (c_key condition) := kr]> (st_keys s) ∧
    st_trace s' = st_trace s ++
      [DidSave t r; DidCommit t (c_key condition); announced t updated (d_status mol) was_stuck q].
Proof.
  intros HI Hf Hn Hs. cbv zeta. unfold perform.
  assert (d_id (file_data f) = id) as Hid by (by eapply inv_ids). cbv zeta.
  erewrite run_try by (apply reads_ok; done).
  set (r := new_receipt id condition digest (file_data f) (of_state_bytes f) (clock_now c)).
  set (updated := collapsed_record (file_data f) q cause (Some r) (clock_now c)).
  assert (save_molecule t s (d_id updated) updated None =
    Ok (push_effect (put_molecule t s id updated) (DidSave t r))) as Hsave.
  { change (d_id updated) with (d_id (file_data f)). rewrite Hid.
    apply save_receipt_alone; [done..|]. intros f' Hf'. congruence. }
  erewrite run_try; [|eapply fares_ok; [done|]; by rewrite Hsave].
  erewrite run_try by (apply reads_ok; done).
  erewrite run_try by (apply fares_ok; done).
  eexists. split; [by rewrite run_call|]. cbn.
  case_decide; cbn; by rewrite <- !app_assoc.
Qed.

Lemma keyed_run s f record :
  store_inv s → st_molecules s !! id = Some f → st_locks s !! id = None →
  read_key s (c_key condition) = Ok record →
  ∃ k s', run c t (execute caller id q (Some condition)) s = Some (Ok (Keyed k), s') ∧
          alone_result f record s k s'.
Proof.
  intros HI Hf Hl Hk. unfold execute, keyed. rewrite Hcause, Hdigest.
  set (s1 := set_locks s (<[id := t]> (st_locks s))).
  assert (store_inv s1) as HI1 by by apply inv_locks.
  assert (∀ k s', run c t (rounds id q cause condition digest (file_data f) (of_state_bytes f)
                    (lease_refusal c) 2 record) s1 = Some (Ok k, s') →
          run c t (r ← (try! _ ← call (LockMolecule id) catch (from_cosmon id);
                        try! record ← call (ReadKey (c_key condition)) catch (from_cosmon id);
                        try! loaded ← call (LoadRevisioned id) catch (from_cosmon id);
                        try! lease ← call (CheckAuthority id caller)
                          catch (λ e, StoreUnavailable (cosmon_to_string e));
                        rounds id q cause condition digest loaded.1 loaded.2 lease 2 record);
                   mret match r with Ok k => Ok (Keyed k) | Err e => Err (CollapseFailed e) end) s =
          Some (Ok (Keyed k), s')) as Hrun.
  { intros k s' Hr. rewrite run_bind.
    erewrite run_try; [|cbn; rewrite Hf, Hl; by apply fares_ok].
    erewrite run_try; [|cbn; change (read_key (set_locks _ _) _) with (read_key s (c_key condition));
      rewrite Hk; by apply reads_ok].
    erewrite run_try; [|cbn; unfold load_file; cbn; rewrite Hf; by apply reads_ok].
    erewrite run_try by by apply reads_ok. cbn [fst snd]. fold s1. by rewrite Hr. }
  destruct (loaded_file s id f HI) as (Hid & Hr & Hcol); [unfold load_file; by rewrite Hf|].
  unfold alone_result, alone_input. cbv zeta.
  set (input := round_input _ _ _ _ _ _ _ _).
  destruct (decide_collapse input) as [refusal|r [|]|reserve] eqn:Hd.
  - do 2 eexists. split; [apply Hrun; cbn [rounds]; rewrite run_call; cbn [exec collapse_machine exec_op mbind option_bind];
      fold input; by rewrite Hd|]. by split_and!.
  - do 2 eexists. split; [apply Hrun; cbn [rounds]; rewrite run_call; cbn [exec collapse_machine exec_op mbind option_bind];
      fold input; rewrite Hd; erewrite run_try by (by apply fares_ok); by rewrite run_call|].
    split; [done|]. cbn. case_decide; cbn; by rewrite <- !app_assoc.
  - do 2 eexists. split; [apply Hrun; cbn [rounds]; rewrite run_call; cbn [exec collapse_machine exec_op mbind option_bind];
      fold input; by rewrite Hd|]. by split_and!.
  - pose proof Hd as (Hb & _ & _ & (_ & _ & Hst & _) & ->)%decide_admit_iff.
    assert (d_status (file_data f) ≠ MoleculeStatus.Collapsed) as Hnc.
    { cbn in Hst. rewrite Hst. by destruct (expect_status condition). }
    assert (receipt_in s id = None) as Hn.
    { rewrite Hr. destruct (d_collapse_receipt (file_data f)); [|done]. by destruct Hnc; apply Hcol. }
    destruct record as [kr|]; cbn [in_key_record input round_input is_some negb] in *.
    + destruct (perform_alone s1 f HI1 Hf Hn Hnc) as (s' & Hp & Hm & Hks & Ht).
      do 2 eexists. split; [apply Hrun; cbn [rounds]; rewrite run_call; cbn [exec collapse_machine exec_op mbind option_bind];
        fold input; rewrite Hd; erewrite run_try by (by apply reads_ok); exact Hp|].
      split_and!; [done|exact Hm|by rewrite Hks, lookup_insert_eq|exact Ht].
    + assert (st_keys s !! file_stem (c_key condition) = None) as Hkn.
      { unfold read_key in Hk. destruct (st_keys s !! _); [by case_decide|done]. }
      destruct (reserve_key t s1 (reservation id condition digest)) as [b s2] eqn:Hres.
      destruct (reserve_ok t s1 (reservation id condition digest) b s2 HI1 eq_refl eq_refl) as (HI2 & _ & _);
        [apply lookup_insert_eq|done|].
      unfold reserve_key in Hres. cbn [k_key reservation key_reserved] in Hres.
      change (st_keys s1) with (st_keys s) in Hres. rewrite Hkn in Hres. injection Hres as <- <-.
      edestruct (perform_alone _ f HI2 Hf Hn Hnc) as (s' & Hp & Hm & Hks & Ht).
      do 2 eexists. split; [apply Hrun; cbn [rounds]; rewrite run_call; cbn [exec collapse_machine exec_op mbind option_bind];
        fold input; rewrite Hd; erewrite run_try by (by apply reads_ok);
        erewrite run_try; [|apply fares_ok; [done|]; unfold reserve_key; cbn [k_key reservation key_reserved];
          change (st_keys s1) with (st_keys s); rewrite Hkn; reflexivity]; exact Hp|].
      split_and!; [done|exact Hm|by rewrite Hks, lookup_insert_eq|].
      rewrite Ht. cbn. by rewrite <- app_assoc.
Qed.

(** C24. A keyed collapse that runs alone answers what the decision table says
    of the key record, the state and its revision: a refusal or a replay of a
    finished collapse changes nothing; a replay of a collapse that a crash
    interrupted completes its key record and announces it; an admission
    reserves the key, writes the collapsed state with the receipt, commits the
    key and announces the collapse. *)
Theorem keyed_alone_exact s f record :
  store_inv s → st_molecules s !! id = Some f → st_locks s !! id = None →
  read_key s (c_key condition) = Ok record →
  ∃ k s', run c t (execute caller id q (Some condition)) s = Some (Ok (Keyed k), s') ∧
          alone_result f record s k s'.
Proof. apply keyed_run. Qed.

(** What the invariant says of a record that is bound to this request. *)
Lemma bound_record s f record :
  store_inv s → st_molecules s !! id = Some f → read_key s (c_key condition) = Ok record →
  bound_here (alone_input f record) →
  (∀ r, own_receipt (alone_input f record) = Some r → r_digest r = digest ∧ receipt_in s id = Some r ∧
     r_key r = c_key condition ∧ ∃ kr, record = Some kr ∧ st_keys s !! file_stem (c_key condition) = Some kr) ∧
  (own_receipt (alone_input f record) = None → ∀ r, ¬ committed_record (alone_input f record) r).
Proof.
  intros HI Hf Hk Hb. destruct (loaded_file s id f HI) as (_ & Hr & _);
    [unfold load_file; by rewrite Hf|].
  assert (∀ kr, record = Some kr → st_keys s !! file_stem (c_key condition) = Some kr ∧ k_key kr = c_key condition)
    as Hrec.
  { intros kr ->. unfold read_key in Hk. destruct (st_keys s !! _) as [kr'|]; [|done].
    case_decide; [|done]. by injection Hk as ->. }
  split.
  - intros r (Hm & Hrk)%receipt_for_key_some. cbn in Hm, Hrk. rewrite Hm in Hr.
    destruct (inv_bound s HI id r Hr) as (_ & kr & Hs & Hkk & Hkm & Hkd). rewrite Hrk in Hs.
    assert (record = Some kr) as ->.
    { unfold read_key in Hk. rewrite Hs in Hk. rewrite decide_True in Hk by congruence. by injection Hk. }
    destruct (Hb kr eq_refl) as [_ Hd]; cbn in Hd. split_and!; [congruence|done|done|by exists kr].
  - intros Hn r (kr & Hkr & Hph & Hrc). cbn in Hkr. destruct (Hrec kr Hkr) as [Hs Hkk].
    destruct (Hb kr Hkr) as [Hkm _]; cbn in Hkm.
    destruct (inv_key s HI _ _ Hs) as [_ Hc]. rewrite Hph in Hc. destruct Hc as (r' & Hr' & Hrk & Hin).
    rewrite Hkm, Hr in Hin. cut (own_receipt (alone_input f record) = Some r'); [by rewrite Hn|].
    apply receipt_for_key_some. cbn. split; congruence.
Qed.

(** C25. Whatever crashed before, a retry converges: if nobody holds the lock,
    the key is not bound to another request, and the molecule either carries
    the receipt of the key or still meets the preconditions, then the call, run
    alone and without a failing operation, succeeds, and afterwards the state
    and the committed key record carry the receipt that it answers. *)
Theorem retry_converges s0 y f record :
  at_rest s0 → reachable s0 y →
  st_molecules (shared y) !! id = Some f → st_locks (shared y) !! id = None →
  read_key (shared y) (c_key condition) = Ok record →
  bound_here (alone_input f record) →
  is_Some (own_receipt (alone_input f record)) ∨ precondition (alone_input f record) →
  ∃ k s' r kr, run c t (execute caller id q (Some condition)) (shared y) = Some (Ok (Keyed k), s') ∧
    kc_receipt k = Some r ∧ r_key r = c_key condition ∧ outcome_is_success (kc_outcome k) = true ∧
    receipt_in s' id = Some r ∧
    st_keys s' !! file_stem (c_key condition) = Some kr ∧ k_phase kr = Committed ∧ k_receipt kr = Some r.
Proof.
  intros Hrest Hr Hf Hl Hk Hb Hok. pose proof (proj1 (at_rest_ok s0 y Hrest Hr)) as HI.
  destruct (keyed_run (shared y) f record HI Hf Hl Hk) as (k & s' & Hrun & Hres).
  destruct (bound_record (shared y) f record HI Hf Hk Hb) as [Hown Hfresh].
  exists k, s'. unfold alone_result in Hres.
  destruct (own_receipt (alone_input f record)) as [r|] eqn:Ho.
  - destruct (Hown r eq_refl) as (Hd & Hin & Hrk & kr & -> & Hs).
    assert (decide_collapse (alone_input f (Some kr)) = Replay r (bool_decide (k_phase kr ≠ Committed)))
      as Hdec by (apply decide_replay_iff; split; [done|]; left; by rewrite Ho).
    rewrite Hdec in Hres.
    assert (k_key kr = c_key condition) as Hkk.
    { unfold read_key in Hk. rewrite Hs in Hk. by case_decide. }
    destruct (k_phase kr) eqn:Hph; cbn in Hres; destruct Hres as (-> & Hm & Hks & _).
    + exists r, (key_committed kr r). split_and!; try done; [unfold receipt_in; by rewrite Hm|].
      rewrite Hks. cbn. by rewrite Hkk, lookup_insert_eq.
    + exists r, kr. split_and!; try done; [unfold receipt_in; by rewrite Hm|by rewrite Hks|].
      destruct (inv_key _ HI _ _ Hs) as [_ Hc]. rewrite Hph in Hc. destruct Hc as (r' & -> & _ & Hin').
      destruct (Hb kr eq_refl) as [Hkm _]; cbn in Hkm. by rewrite <- Hin', <- Hin, Hkm.
  - destruct Hok as [[? ?]|Hpre]; [done|].
    assert (decide_collapse (alone_input f record) = Admit (negb (is_some record))) as Hdec
      by (apply decide_admit_iff; repeat (split; [by auto|]); done).
    rewrite Hdec in Hres. destruct Hres as (-> & Hm & Hks & _).
    eexists _, _. split_and!; try done. unfold receipt_in. by rewrite Hm, lookup_insert_eq.
Qed.

End Alone.

End Collapse.

(** ** At a concrete store *)

Definition sample_store_hash : StoreHash :=
  {| state_hex f := mid_raw (d_id (file_data f)) +:+ "@" +:+ status_as_str (d_status (file_data f));
     key_hex key := key |}.

Definition sample_contract_hash : ContractHash :=
  {| intent_hex i := Ok (i_target i +:+ "/" +:+ i_reason i +:+ "/" +:+ i_expected_revision i);
     rfc3339_nanos at_ := pretty at_ |}.

Section Sample.
#[local] Existing Instance sample_store_hash.
#[local] Existing Instance sample_contract_hash.

Lemma blank_store_inv ms :
  (∀ id f, ms !! id = Some f → d_id (file_data f) = id ∧ d_collapse_receipt (file_data f) = None) →
  at_rest (Store ms ∅ ∅ FleetAbsent None ∅ []).
Proof.
  intros Hms. assert (∀ id, receipt_in (Store ms ∅ ∅ FleetAbsent None ∅ []) id = None) as Hn.
  { intros id. unfold receipt_in. cbn. destruct (ms !! id) as [f|] eqn:Hf; [|done].
    by destruct (Hms id f Hf). }
  split; [|done]. split; try (intros *; rewrite ?elem_of_nil, ?Hn; done).
  - intros id f Hf. by apply (Hms id f Hf).
  - intros id f Hf. destruct (Hms id f Hf) as [_ ->]. by intros [].
  - intros key. unfold times. cbn. lia.
  - intros key. unfold times. cbn. lia.
  - intros t. unfold times. cbn. lia.
Qed.

Definition sample_a : mid := short_id "a".
Definition sample_file : molecule_file :=
  MoleculeFile (sample_molecule sample_a MoleculeStatus.Running [] None) "".
Definition sample_store : store := Store {[ sample_a := sample_file ]} ∅ ∅ FleetAbsent None ∅ [].

Definition sample_key : string := "k0123456789abcdef".
Definition sample_request : collapse_request := request_for_reason "abandoned".
Definition sample_condition : collapse_condition :=
  CollapseCondition sample_key CRunning (of_state_bytes sample_file) None (Some 100%Z).
Definition sample_call : prog store_op answer :=
  prog_map AnsCollapse (execute (Remote "broker") sample_a sample_request (Some sample_condition)).
Definition calm (now : Z) : circumstances := Circumstances Works now None.

Lemma sample_at_rest : at_rest sample_store.
Proof.
  apply blank_store_inv. intros id f. rewrite lookup_singleton_Some. by intros [<- <-].
Qed.

Lemma sample_client : collapse_client sample_call.
Proof. apply client_execute. Qed.

(** The first process is killed once it has written the state; the second
    finds the receipt there, and so does a third after the deadline. *)
Definition sample_crash : option (prog store_op answer * store) :=
  run_for 10 (calm 50) 0 sample_call sample_store.
Definition crashed_store : store :=
  match sample_crash with Some (_, s) => release_locks 0 s | None => sample_store end.
Definition sample_retry : option (answer * store) := run_alone (calm 60) 1 sample_call crashed_store.
Definition retried_store : store := match sample_retry with Some (_, s) => s | None => crashed_store end.
Definition sample_late : option (answer * store) := run_alone (calm 500) 2 sample_call retried_store.

Definition sample_crashed : system store_op store answer := System crashed_store [Dead].

Definition sample_end : system store_op store answer :=
  match sample_retry, sample_late with
  | Some (a1, _), Some (a2, s) => System s [Dead; Returned a1; Returned a2]
  | _, _ => sample_crashed
  end.

Lemma sample_crashed_reachable : reachable sample_store sample_crashed.
Proof.
  destruct sample_crash as [[p s]|] eqn:Hc; [|by vm_compute in Hc].
  unfold sample_crashed, crashed_store. rewrite Hc.
  exact (start_and_kill 10 (calm 50) sample_call sample_store p s [] sample_client Hc).
Qed.

Lemma sample_end_reachable : reachable sample_store sample_end.
Proof.
  unfold reachable. etransitivity; [apply sample_crashed_reachable|]. unfold sample_end.
  destruct sample_retry as [[a1 s1]|] eqn:H1; [|by vm_compute in H1].
  destruct sample_late as [[a2 s2]|] eqn:H2; [|by vm_compute in H2].
  etransitivity; [exact (start_and_run (calm 60) sample_call crashed_store a1 s1 [Dead] sample_client H1)|].
  unfold sample_late, retried_store in H2. rewrite H1 in H2.
  exact (start_and_run (calm 500) sample_call s1 a2 s2 [Dead; Returned a1] sample_client H2).
Qed.

Definition sample_receipt : collapse_receipt :=
  CollapseReceipt receipt_schema sample_key "b3:a/abandoned/b3:a@running" sample_a
    MoleculeStatus.Running "b3:a@running" 50.

Example sample_history :
  st_keys crashed_store !! sample_key =
    Some (key_reserved sample_key sample_a "b3:a/abandoned/b3:a@running") ∧
  receipt_in crashed_store sample_a = Some sample_receipt ∧
  processes sample_end =
    [Dead; Returned (AnsCollapse (Ok (Keyed (replayed (r_digest sample_receipt) sample_receipt true false))));
     Returned (AnsCollapse (Ok (Keyed (replayed (r_digest sample_receipt) sample_receipt false false))))] ∧
  st_trace (shared sample_end) =
    [DidReserve 0 sample_key; DidSave 0 sample_receipt; DidCommit 1 sample_key;
     DidAnnounce 1 sample_a (Some sample_key) "running" "abandoned" None].
Proof. by vm_compute. Qed.

Lemma collapse_exactly_once_witness :
  times (is_save sample_key) (shared sample_end) ≤ 1 ∧
  times (is_announce_of sample_key) (shared sample_end) ≤ 1 ∧
  receipt_in (shared sample_end) sample_a = Some sample_receipt.
Proof.
  destruct (collapse_exactly_once sample_store sample_end sample_key sample_at_rest
              sample_end_reachable) as (H1 & H2 & _ & H4 & _).
  split; [exact H1|split; [exact H2|]].
  apply (H4 1 (replayed (r_digest sample_receipt) sample_receipt true false) sample_receipt);
    [by vm_compute|done|apply rtc_refl].
Defined.

Definition sample_digest : string := r_digest sample_receipt.

Lemma keyed_alone_exact_witness :
  ∃ k s', run (calm 50) 0 (execute (Remote "broker") sample_a sample_request (Some sample_condition))
            sample_store = Some (Ok (Keyed k), s') ∧
    alone_result (calm 50) 0 sample_a sample_request sample_condition None sample_digest sample_file None
      sample_store k s'.
Proof.
  apply (keyed_alone_exact (calm 50) 0 (Remote "broker") sample_a sample_request sample_condition None
           sample_digest); [done|done|done|apply sample_at_rest|by vm_compute|done|done].
Defined.

(** The retry after the crash, at the store that the killed process left. *)
Definition crashed_file : molecule_file :=
  default sample_file (st_molecules crashed_store !! sample_a).
Definition crashed_record : key_record := key_reserved sample_key sample_a sample_digest.

Lemma retry_converges_witness :
  ∃ k s' r kr,
    run (calm 60) 1 (execute (Remote "broker") sample_a sample_request (Some sample_condition))
      crashed_store = Some (Ok (Keyed k), s') ∧
    kc_receipt k = Some r ∧ r_key r = sample_key ∧ outcome_is_success (kc_outcome k) = true ∧
    receipt_in s' sample_a = Some r ∧
    st_keys s' !! sample_key = Some kr ∧ k_phase kr = Committed ∧ k_receipt kr = Some r.
Proof.
  apply (retry_converges (calm 60) 1 (Remote "broker") sample_a sample_request sample_condition None
           sample_digest eq_refl eq_refl ltac:(by vm_compute) sample_store sample_crashed crashed_file
           (Some crashed_record) sample_at_rest sample_crashed_reachable).
  - by vm_compute.
  - by vm_compute.
  - by vm_compute.
  - intros kr [= <-]. by vm_compute.
  - left. exists sample_receipt. by vm_compute.
Defined.

(** A lookup of the key after the crash and after the retry. *)
Definition sample_lookup : prog store_op answer :=
  prog_map AnsLookup (lookup_receipt sample_a sample_key).
Definition looked_up (s : store) : option answer := fst <$> run_alone (calm 70) 3 sample_lookup s.

Example sample_lookups :
  looked_up sample_store = Some (AnsLookup (Ok LUnknown)) ∧
  looked_up crashed_store = Some (AnsLookup (Ok (LCommitted sample_receipt))) ∧
  looked_up (shared sample_end) = Some (AnsLookup (Ok (LCommitted sample_receipt))).
Proof. by vm_compute. Qed.

Lemma lookup_never_inconsistent_witness : ∀ detail, LUnknown ≠ LInconsistent detail.
Proof.
  apply (lookup_never_inconsistent sample_store
           (System sample_store [Returned (AnsLookup (Ok LUnknown))]) 0 LUnknown sample_at_rest);
    [|done].
  exact (start_and_run (calm 70) sample_lookup sample_store (AnsLookup (Ok LUnknown)) sample_store []
           (client_lookup sample_a sample_key) eq_refl).
Defined.

(** A writer that does not take the dispatch lock completes the molecule after
    the collapse has read it; the collapse then writes over the completion, and
    its receipt names a revision that the molecule no longer had. *)
Definition completed_file : molecule_file :=
  MoleculeFile (sample_molecule sample_a MoleculeStatus.Completed [] None) "".

Definition paused : option (prog store_op answer * store) :=
  run_for 8 (calm 50) 0 sample_call sample_store.
Definition paused_call : prog store_op answer :=
  match paused with Some (p, _) => p | None => sample_call end.
Definition paused_store : store := match paused with Some (_, s) => s | None => sample_store end.

Definition completed_store : store := put_molecule 9 paused_store sample_a (file_data completed_file).

Definition resumed : option (answer * store) := run_alone (calm 50) 0 paused_call completed_store.
Definition resumed_answer : option answer := fst <$> resumed.
Definition resumed_store : store := match resumed with Some (_, s) => s | None => completed_store end.

Lemma completed_reachable : reachable sample_store (System completed_store [Running paused_call]).
Proof.
  assert (paused = Some (paused_call, paused_store)) as Hp by done.
  unfold reachable. eapply rtc_l; [exact (step_start sample_store [] _ sample_client)|].
  eapply rtc_r; [exact (run_for_steps 8 (calm 50) 0 sample_call sample_store paused_call paused_store
                          [Running sample_call] eq_refl Hp)|].
  apply step_others, (other_saves paused_store sample_a (file_data completed_file) None 9);
    [by vm_compute|done|by left].
Qed.

Example completion_overwritten :
  ∃ k, reachable sample_store (System completed_store [Running paused_call]) ∧
    reachable sample_store (System resumed_store [Returned (AnsCollapse (Ok (Keyed k)))]) ∧
    st_molecules completed_store !! sample_a = Some completed_file ∧
    (d_status ∘ file_data <$> st_molecules resumed_store !! sample_a) = Some MoleculeStatus.Collapsed ∧
    kc_outcome k = KTransitioned ∧ kc_receipt k = Some sample_receipt ∧
    r_previous_status sample_receipt = MoleculeStatus.Running ∧
    r_previous_revision sample_receipt ≠ of_state_bytes completed_file.
Proof.
  destruct resumed_answer as [[[[|k]|]|]|] eqn:Ha; try by vm_compute in Ha.
  exists k. split; [apply completed_reachable|]. split.
  { unfold reachable. etransitivity; [apply completed_reachable|].
    unfold resumed_answer in Ha. unfold resumed_store. destruct resumed as [[a s]|] eqn:Hr; [|done].
    injection Ha as ->.
    exact (run_alone_steps (calm 50) 0 paused_call completed_store _ s [Running paused_call] eq_refl Hr). }
  split; [by vm_compute|]. split; [by vm_compute|].
  assert (match resumed_answer with
          | Some (AnsCollapse (Ok (Keyed k))) => kc_outcome k = KTransitioned ∧ kc_receipt k = Some sample_receipt
          | _ => False
          end) as Hk by by vm_compute.
  rewrite Ha in Hk. destruct Hk. by split_and!.
Qed.

End Sample.
