(* ===== verification/DispatchLedger.v ===== *)
(** The dispatch ledger, [crates/cosmon-runtime/src/dispatch_ledger.rs]: a
    dispatch is recorded under the fleet lock before its worker is spawned,
    and undone if the record cannot be completed. The calls are programs over
    the file store of [Store]. *)
From stdpp Require Import prelude gmap strings list.
From Stdlib Require Import Ascii.
From S2P Require Import Prelude Text Ids Molecule Links RunState Process Contract State Concurrent Store.

(** ** Records *)

Inductive loop_ownership : Set := External | CosmonLoop.

Definition loop_ownership_tag (l : loop_ownership) : string :=
  match l with External => "external" | CosmonLoop => "cosmon" end.

(** [DispatchRecord]; paths are texts, the adapter name is validated. *)
Record dispatch_record := DispatchRecord {
  dr_transport : option transport_selection;
  dr_worker : string;
  dr_session_name : string;
  dr_adapter : string;
  dr_loop_ownership : loop_ownership;
  dr_model : option string;
  dr_tackled_by : tackled_by;
  dr_worktree_path : string;
  dr_repo_root : string;
}.

Record dispatch_recorded := DispatchRecorded { tok_molecule : mid; tok_worker : string }.

Inductive ledger_error : Type :=
| LState (e : cosmon_error)
| LId (e : id_error)
| LClaimLost (worker adapter model : string)
| LClaimChanged (status : molecule_status)
| LSpawnedEmit (worker : string) (source : cosmon_error).

(** ** Paths *)

(** The components of a path; a repeated separator and [.] are none. *)
Definition is_component (c : string) : bool := negb (is_empty c) && bool_decide (c ≠ ".").

Definition components (path : string) : bool * list string :=
  (starts_with_char "/"%char path, filter (λ c, is_component c) (split_on "/"%char path)).

Fixpoint strip_components (base path : list string) : option (list string) :=
  match base, path with
  | [], rest => Some rest
  | b :: base, p :: path => if decide (b = p) then strip_components base path else None
  | _ :: _, [] => None
  end.

Fixpoint join_components (l : list string) : string :=
  match l with
  | [] => EmptyString
  | [c] => c
  | c :: l => c +:+ "/" +:+ join_components l
  end.

(** [make_relative] *)
Definition make_relative (path base : string) : string :=
  match (if decide ((components path).1 = (components base).1)
         then strip_components (components base).2 (components path).2 else None) with
  | Some rest => join_components rest
  | None => path
  end.

(** ** The molecule records *)

(** What a claim must still find as its snapshot has it. *)
Definition claim_check (current mol : molecule_data) : option ledger_error :=
  if decide (d_process current ≠ d_process mol) then
    match d_process current with
    | Some p =>
        Some (LClaimLost (p_worker_id p) (default "unknown" (p_adapter_name p))
                (default "adapter default (unrecorded)" (p_model p)))
    | None => Some (LClaimChanged (d_status current))
    end
  else if decide (d_status current ≠ d_status mol ∨ d_tags current ≠ d_tags mol ∨
                  d_assigned_worker current ≠ d_assigned_worker mol ∨
                  d_session_name current ≠ d_session_name mol ∨
                  d_tackled_by current ≠ d_tackled_by mol ∨ d_tackled_at current ≠ d_tackled_at mol)
  then Some (LClaimChanged (d_status current)) else None.

Definition promoted (s : molecule_status) : molecule_status :=
  match s with
  | MoleculeStatus.Pending | MoleculeStatus.Queued | MoleculeStatus.Frozen => MoleculeStatus.Running
  | other => other
  end.

Definition dispatch_process (r : dispatch_record) (started : Z) : molecule_process :=
  with_transport (with_dispatch (process_new (dr_worker r) (dr_session_name r) started)
                    (dr_adapter r) (dr_model r) (dr_worktree_path r)) (dr_transport r).

(** The fields that a dispatch and its undo write; [bind_process] and
    [mark_tackled]. *)
Definition with_claim (m : molecule_data) (status : molecule_status) (worker session : option string)
    (process : option molecule_process) (by_ : option tackled_by) (at_ : option Z) (now : Z) :
    molecule_data :=
  {| d_id := d_id m; d_fleet_id := d_fleet_id m; d_formula_id := d_formula_id m;
     d_status := status; d_assigned_worker := worker; d_updated_at := now;
     d_total_steps := d_total_steps m; d_current_step := d_current_step m;
     d_collapse_reason := d_collapse_reason m; d_collapse_cause := d_collapse_cause m;
     d_collapse_reason_kind := d_collapse_reason_kind m; d_collapsed_step := d_collapsed_step m;
     d_typed_links := d_typed_links m; d_assigned_role := d_assigned_role m;
     d_session_name := session; d_tags := d_tags m;
     d_freeze_on_last_step := d_freeze_on_last_step m; d_merged_at := d_merged_at m;
     d_process := process; d_stuck_at := d_stuck_at m; d_tackled_by := by_; d_tackled_at := at_;
     d_collapse_receipt := d_collapse_receipt m; d_rest := d_rest m |}.

Definition dispatched (m : molecule_data) (r : dispatch_record) (started tackled : Z) : molecule_data :=
  with_claim m (promoted (d_status m)) (Some (dr_worker r)) (Some (dr_session_name r))
    (Some (dispatch_process r started)) (Some (dr_tackled_by r)) (Some tackled) tackled.

(** Only the claim is taken from [prior]. *)
Definition restored (current prior : molecule_data) (now : Z) : molecule_data :=
  with_claim current
    (if decide (d_status current = MoleculeStatus.Running) then d_status prior else d_status current)
    (d_assigned_worker prior) (d_session_name prior) (d_process prior) (d_tackled_by prior)
    (d_tackled_at prior) now.

(** ** The worker record *)

Definition tackle_worker (r : dispatch_record) (agent : string) (m : molecule_data) (now : Z) :
    worker_data :=
  let role := default Implementation (d_assigned_role m) in
  let w := worker_data_new (dr_worker r) agent role ClWrite WorkerStatus.Active now in
  WorkerData (w_id w) (w_agent_id w) (w_role w) (w_clearance w) (w_status w) (w_worker_role w)
    Desired.Running (Some (make_relative (dr_worktree_path r) (dr_repo_root r))) (Some (d_id m))
    (w_updated_at w) (w_preempted_by w) (w_frozen_molecule w) (w_frozen_at w) (w_restart_count w).

Definition add_worker (f : fleet) (id : string) (w : worker_data) : fleet :=
  Fleet (<[id := w]> (workers f)) (repos f) (attention_budget f).
Definition remove_worker (f : fleet) (id : string) : fleet :=
  Fleet (delete id (workers f)) (repos f) (attention_budget f).

(** [load_fleet().unwrap_or_default()] *)
Definition load_fleet_or_default : prog store_op fleet :=
  r ← call LoadFleet; mret (match r with Ok f => f | Err _ => fleet_default end).

Definition spawned_event (r : dispatch_record) (m : molecule_data) : worker_spawned :=
  WorkerSpawned (d_process m ≫= p_transport) (dr_worker r) (d_id m) (dr_worker r)
    (role_to_string (default Implementation (d_assigned_role m))) (dr_adapter r)
    (loop_ownership_tag (dr_loop_ownership r)).

Definition register_tackle_worker (r : dispatch_record) (m : molecule_data) :
    prog store_op (result ledger_error ()) :=
  f ← load_fleet_or_default;
  match simple_id_new "AgentId" "tackle" with
  | Err e => mret (Err (LId e))
  | Ok agent =>
      now ← call Now;
      try! _ ← call (SaveFleet (add_worker f (dr_worker r) (tackle_worker r agent m now))) catch LState;
      try! _ ← call (EmitWorkerSpawned (spawned_event r m)) catch (LSpawnedEmit (dr_worker r));
      mret (Ok ())
  end.

(** ** Undo *)

Definition bound_to_worker (m : molecule_data) (worker : string) : bool :=
  match d_process m with Some p => bool_decide (p_worker_id p = worker) | None => false end.

Definition undo_committed_writes (prior : molecule_data) (worker : string) : prog store_op () :=
  f ← load_fleet_or_default;
  _ ← call (SaveFleet (remove_worker f worker));
  r ← call (LoadMolecule (d_id prior));
  match r with
  | Ok current =>
      if bound_to_worker current worker then
        now ← call Now;
        _ ← call (SaveMolecule false (d_id prior) (restored current prior now));
        mret ()
      else mret ()
  | Err _ => mret ()
  end.

(** ** Commit *)

Definition commit_dispatch (mol : molecule_data) (r : dispatch_record) :
    prog store_op (result ledger_error (molecule_data * dispatch_recorded)) :=
  let id := d_id mol in
  try! _ ← call LockFleet catch LState;
  try! current ← call (LoadMolecule id) catch LState;
  match claim_check current mol with
  | Some e => mret (Err e)
  | None =>
      started ← call Now;
      tackled ← call Now;
      let updated := dispatched current r started tackled in
      try! _ ← call (SaveMolecule false id updated) catch LState;
      registered ← register_tackle_worker r updated;
      match registered with
      | Err e => _ ← undo_committed_writes current (dr_worker r); mret (Err e)
      | Ok _ =>
          _ ← call (SaveLocator id (dr_worktree_path r) (dr_adapter r));
          mret (Ok (updated, DispatchRecorded id (dr_worker r)))
      end
  end.

(** ** Later witnesses and rollbacks *)

Definition with_process (m : molecule_data) (p : molecule_process) (now : Z) : molecule_data :=
  with_claim m (d_status m) (Some (p_worker_id p)) (Some (tmux_session p)) (Some p)
    (d_tackled_by m) (d_tackled_at m) now.

Definition stamp_pid_witness (id : mid) (new_pid : Z) (start : option Z) : prog store_op bool :=
  g ← call LockFleet;
  match g with
  | Err _ => mret false
  | Ok _ =>
      r ← call (LoadMolecule id);
      match r with
      | Err _ => mret false
      | Ok mol =>
          match d_process mol with
          | None => mret false
          | Some p =>
              now ← call Now;
              s ← call (SaveMolecule false id (with_process mol (with_pid p new_pid start) now));
              mret (is_ok s)
          end
      end
  end.

(** The record is written back with the terminal only, if the molecule still
    has the process and the revision that it had. *)
Definition with_terminal_of (m : molecule_data) (p : molecule_process) (t : terminal_identity) :
    molecule_data :=
  with_claim m (d_status m) (d_assigned_worker m) (d_session_name m) (Some (with_terminal p t))
    (d_tackled_by m) (d_tackled_at m) (d_updated_at m).

Definition stamp_terminal_witness (id : mid) (expected : option molecule_process)
    (t : terminal_identity) : prog store_op bool :=
  g ← call LockFleet;
  match g with
  | Err _ => mret false
  | Ok _ =>
      rev ← call (LoadRevisioned id);
      match rev with
      | Err _ => mret false
      | Ok (_, revision) =>
          r ← call (LoadMolecule id);
          match r with
          | Err _ => mret false
          | Ok mol =>
              match expected, d_process mol with
              | Some e, Some p =>
                  if decide (p = e) then
                    s ← call (SaveIfRevision id (with_terminal_of mol p t) revision);
                    mret (is_ok s)
                  else mret false
              | _, _ => mret false
              end
          end
      end
  end.

Definition rollback_dispatch (prior : molecule_data) (worker : string) : prog store_op () :=
  g ← call LockFleet;
  match g with
  | Ok _ => undo_committed_writes prior worker
  | Err _ => mret ()
  end.

Inductive rollback_result : Type :=
| NotUndone
| Undone
| MoleculeRestoredFleetCleanupFailed (e : cosmon_error).

Definition same_incarnation (p expected : molecule_process) : bool :=
  bool_decide (p_worker_id p = p_worker_id expected ∧ p_started_at p = p_started_at expected ∧
               p_transport p = p_transport expected).

Definition rollback_dispatch_incarnation (prior : molecule_data) (expected : molecule_process) :
    prog store_op rollback_result :=
  g ← call LockFleet;
  match g with
  | Err _ => mret NotUndone
  | Ok _ =>
      rev ← call (LoadRevisioned (d_id prior));
      match rev with
      | Err _ => mret NotUndone
      | Ok (_, revision) =>
          r ← call (LoadMolecule (d_id prior));
          match r with
          | Err _ => mret NotUndone
          | Ok current =>
              if (match d_process current with Some p => same_incarnation p expected | None => false end)
              then
                now ← call Now;
                s ← call (SaveIfRevision (d_id prior) (restored current prior now) revision);
                match s with
                | Err _ => mret NotUndone
                | Ok _ =>
                    f ← call LoadFleet;
                    match f with
                    | Err e => mret (MoleculeRestoredFleetCleanupFailed e)
                    | Ok f =>
                        c ← call (SaveFleet (remove_worker f (p_worker_id expected)));
                        mret (match c with
                              | Ok _ => Undone
                              | Err e => MoleculeRestoredFleetCleanupFailed e
                              end)
                    end
                end
              else mret NotUndone
          end
      end
  end.

(** ** Live sessions that nothing recorded *)

Record unrecorded_dispatch := UnrecordedDispatch {
  ud_molecule : mid;
  ud_session_name : string;
  ud_status : molecule_status;
}.

Definition is_unrecorded_candidate (s : molecule_status) : bool :=
  match s with MoleculeStatus.Running | MoleculeStatus.Frozen => false | _ => true end.

Definition scan_unrecorded_dispatches (molecules : list molecule_data)
    (expected_session : molecule_data → string) (is_alive : string → bool) : list unrecorded_dispatch :=
  omap (λ m, let session := expected_session m in
             if is_alive session then Some (UnrecordedDispatch (d_id m) session (d_status m)) else None)
    (filter (λ m, is_unrecorded_candidate (d_status m)) molecules).

(** ** The system *)

Inductive dispatch_answer : Type :=
| AnsDispatch (seen : option molecule_process) (r : result ledger_error (molecule_data * dispatch_recorded))
| AnsStamp (done : bool).

(** Dispatchers, each with the process that it saw on its molecule, and the
    witnesses that are stamped later. [cs tackle] and the runtime dispatch a
    molecule without a process; [cs resurrect] dispatches over the process that
    a [revived] molecule still has. *)
Inductive dispatch_client (revived : mid → Prop) : prog store_op dispatch_answer → Prop :=
| client_commit mol r :
    (d_process mol ≠ None → revived (d_id mol)) →
    dispatch_client revived (prog_map (AnsDispatch (d_process mol)) (commit_dispatch mol r))
| client_pid id new_pid start :
    dispatch_client revived (prog_map AnsStamp (stamp_pid_witness id new_pid start))
| client_terminal id expected t :
    dispatch_client revived (prog_map AnsStamp (stamp_terminal_witness id expected t)).

(** Other writers change anything but the process of a molecule; they may
    rewrite the fleet file without its lock. *)
Inductive dispatch_others `{StoreHash} : store → store → Prop :=
| others_save s id data expected t s' :
    save_molecule t s id data expected = Ok s' →
    d_id data = id → d_process data = process_in s id →
    dispatch_others s s'
| others_fleet s f : dispatch_others s (set_fleet s f).

Definition dispatch_machine `{StoreHash} (revived : mid → Prop) : Machine store_op store dispatch_answer := {|
  choice := circumstances;
  exec := exec_op;
  release := release_locks;
  others := dispatch_others;
  client := dispatch_client revived;
|}.

Section Dispatch.
Context `{StoreHash} (revived : mid → Prop).
#[local] Instance ledger_machine : Machine store_op store dispatch_answer := dispatch_machine revived.
Implicit Types (t : nat) (id : mid) (s : store).

Record ledger_inv (s : store) : Prop := {
  li_ids id f : st_molecules s !! id = Some f → d_id (file_data f) = id;
  li_binder id t : st_binder s !! id = Some t → is_Some (process_in s id);
}.

Record dispatch_does t s s' : Prop := {
  dd_process id : process_in s' id = process_in s id ∨ st_fleet_lock s = Some t;
  dd_binder id t' p : t' ≠ t → st_binder s !! id = Some t' → process_in s id = Some p →
    st_binder s' !! id = Some t' ∧
    ∃ p', process_in s' id = Some p' ∧ (¬ revived id → p_worker_id p' = p_worker_id p);
  dd_lock t' : t' ≠ t → st_fleet_lock s = Some t' → st_fleet_lock s' = Some t';
  dd_trace e : e ∈ st_trace s → e ∈ st_trace s';
}.

(** A token stands for a recorded dispatch. *)
Definition recorded t (tok : dispatch_recorded) s : Prop :=
  st_binder s !! tok_molecule tok = Some t ∧
  (∃ p, process_in s (tok_molecule tok) = Some p ∧ (¬ revived (tok_molecule tok) → p_worker_id p = tok_worker tok)) ∧
  DidSpawn t (tok_molecule tok) (tok_worker tok) ∈ st_trace s.

Definition spawned t (tok : dispatch_recorded) s : Prop := DidSpawn t (tok_molecule tok) (tok_worker tok) ∈ st_trace s.

Definition dispatch_post t (a : dispatch_answer) s : Prop :=
  match a with
  | AnsDispatch None (Ok (_, tok)) => recorded t tok s
  | AnsDispatch (Some _) (Ok (_, tok)) => revived (tok_molecule tok) ∧ spawned t tok s
  | _ => True
  end.

Lemma process_in_put t s id data id' :
  process_in (put_molecule t s id data) id' =
  if decide (id' = id) then d_process data else process_in s id'.
Proof.
  unfold process_in, put_molecule, set_molecules. cbn [st_molecules]. case_decide; subst.
  - by rewrite lookup_insert_eq.
  - by rewrite lookup_insert_ne.
Qed.

(** What a save leaves, whatever it does with receipts. *)
Lemma save_effect t s id data expected s' :
  save_molecule t s id data expected = Ok s' →
  st_molecules s' = <[id := MoleculeFile data ""]> (st_molecules s) ∧
  (∀ id', process_in s' id' = if decide (id' = id) then d_process data else process_in s id') ∧
  st_binder s' = binder_after t s id data ∧ st_fleet_lock s' = st_fleet_lock s ∧
  st_fleet s' = st_fleet s ∧ (∀ e, e ∈ st_trace s → e ∈ st_trace s').
Proof.
  intros (_ & [(r & _ & _ & ->)|[_ ->]])%save_molecule_inv.
  - split_and!; try done; [apply process_in_put|]. intros e. cbn. rewrite elem_of_app. by left.
  - split_and!; try done. apply process_in_put.
Qed.

Lemma ledger_inv_save t s id data expected s' :
  ledger_inv s → d_id data = id → save_molecule t s id data expected = Ok s' → ledger_inv s'.
Proof.
  intros HI Hid Hs. destruct (save_effect _ _ _ _ _ _ Hs) as (Hm & Hp & Hb & _). split.
  - intros id' f. rewrite Hm, lookup_insert_Some. intros [[<- <-]|[_ Hf]]; [done|].
    by eapply li_ids.
  - intros id' t'. rewrite Hb, Hp. unfold binder_after.
    destruct (process_in s id) as [p|] eqn:Hpi, (d_process data) as [p'|] eqn:Hd; case_decide; subst;
      rewrite ?lookup_insert_ne, ?lookup_delete_ne, ?lookup_delete_eq by done; try done;
      try (by apply (li_binder s)); intros Hb'; apply (li_binder s HI) in Hb'; by rewrite Hpi in Hb'.
Qed.

(** A step that touches no molecule. *)
Lemma ledger_plain t s s' :
  ledger_inv s → st_molecules s' = st_molecules s → st_binder s' = st_binder s →
  (∀ t', t' ≠ t → st_fleet_lock s = Some t' → st_fleet_lock s' = Some t') →
  (∀ e, e ∈ st_trace s → e ∈ st_trace s') →
  ledger_inv s' ∧ dispatch_does t s s'.
Proof.
  intros HI Hm Hb Hl Ht.
  assert (∀ id, process_in s' id = process_in s id) as Hp by (intros id; unfold process_in; by rewrite Hm).
  split; split; try done.
  - intros id f. rewrite Hm. apply (li_ids s HI).
  - intros id t'. rewrite Hb, Hp. apply (li_binder s HI).
  - by left.
  - intros id t' p _. rewrite Hb, Hp. eauto.
Qed.

Lemma ledger_same t s : ledger_inv s → ledger_inv s ∧ dispatch_does t s s.
Proof. intros HI. by apply ledger_plain. Qed.

(** A save under the fleet lock by the process that bound the record, or of a
    molecule that was unbound, or that keeps the worker or is revived. *)
Lemma locked_save t s id data expected s' :
  ledger_inv s → d_id data = id → st_fleet_lock s = Some t →
  save_molecule t s id data expected = Ok s' →
  (process_in s id = None ∨ st_binder s !! id = Some t ∨
   ∃ p p', process_in s id = Some p ∧ d_process data = Some p' ∧ (¬ revived id → p_worker_id p' = p_worker_id p)) →
  ledger_inv s' ∧ dispatch_does t s s'.
Proof.
  intros HI Hid Hl Hs Hwho. split; [by eapply ledger_inv_save|].
  destruct (save_effect _ _ _ _ _ _ Hs) as (Hm & Hp & Hb & Hl' & _ & Ht).
  split; [by right| |by rewrite Hl'|done].
  intros id' t' p Hne Hbi Hpi. rewrite Hb, Hp. unfold binder_after.
  destruct (decide (id' = id)) as [->|Hid'].
  - rewrite Hpi. destruct Hwho as [?|[?|(p1 & p2 & Hp1 & Hp2 & Hw)]]; [congruence..|].
    rewrite Hp2. simplify_eq. eauto.
  - split; [|eauto]. destruct (process_in s id), (d_process data); try done.
    + by rewrite lookup_delete_ne.
    + by rewrite lookup_insert_ne.
Qed.

Lemma dispatch_others_ok t s s' :
  ledger_inv s → dispatch_others s s' → ledger_inv s' ∧ dispatch_does t s s'.
Proof.
  intros HI Ho. destruct Ho as [s id data expected t1 s' Hs Hid Hd|s f]; [|by apply ledger_plain].
  split; [by eapply ledger_inv_save|].
  destruct (save_effect _ _ _ _ _ _ Hs) as (Hm & Hp & Hb & Hl & _ & Ht).
  assert (∀ id', process_in s' id' = process_in s id') as Hp' by (intros id'; rewrite Hp; by case_decide; subst).
  split; [by left| |by rewrite Hl|done].
  intros id' t' p _ Hbi Hpi. rewrite Hp', Hb. unfold binder_after. rewrite Hd.
  destruct (process_in s id); eauto.
Qed.

(** ** What holds under the fleet lock *)

#[local] Abbreviation Stable t P := (stable ledger_inv dispatch_does t P).
#[local] Abbreviation Wp t p Q := (wp ledger_inv dispatch_does t p Q).

Definition held t id (x : option molecule_process) s : Prop :=
  st_fleet_lock s = Some t ∧ process_in s id = x.

(** The process [t], which saw [x], wrote the record that the molecule has. *)
Definition owns t id (x : option molecule_process) (p : molecule_process) s : Prop :=
  held t id (Some p) s ∧ match x with None => st_binder s !! id = Some t | Some _ => revived id end.

Lemma rely_dispatch t s s' :
  rely ledger_inv dispatch_does t s s' → ∃ t', t' ≠ t ∧ dispatch_does t' s s'.
Proof.
  intros (HI & _ & [Ho|Hd]); [|done]. exists (S t). split; [lia|].
  by apply (dispatch_others_ok (S t) s s').
Qed.

Lemma anything_stable t : Stable t (λ _, True).
Proof. done. Qed.

Lemma held_stable t id x : Stable t (held t id x).
Proof.
  intros s s' [Hl Hp] (t' & Hne & Hd)%rely_dispatch. split; [by eapply (dd_lock t' s s')|].
  destruct (dd_process _ _ _ Hd id) as [->|Hl']; [done|]. congruence.
Qed.

Lemma owns_stable t id x p : Stable t (owns t id x p).
Proof.
  intros s s' [Hh Hb] Hr. split; [by eapply held_stable|].
  destruct x; [done|].
  apply rely_dispatch in Hr as (t' & Hne & Hd). by apply (dd_binder _ _ _ Hd id t p (not_eq_sym Hne) Hb (proj2 Hh)).
Qed.

Lemma owns_spawned_stable t id x p e : Stable t (λ s, owns t id x p s ∧ e ∈ st_trace s).
Proof.
  intros s s' [Ho He] Hr. split; [by eapply owns_stable|].
  apply rely_dispatch in Hr as (t' & _ & Hd). by apply (dd_trace _ _ _ Hd).
Qed.

Lemma recorded_stable t tok : Stable t (recorded t tok).
Proof.
  intros s s' (Hb & (p & Hp & Hw) & He) (t' & Hne & Hd)%rely_dispatch.
  destruct (dd_binder _ _ _ Hd _ t p (not_eq_sym Hne) Hb Hp) as (Hb' & p' & Hp' & Hw').
  split_and!; [done| |by apply (dd_trace _ _ _ Hd)]. exists p'. split; [done|]. intros Hno. by rewrite Hw', Hw.
Qed.

Lemma spawned_stable t tok : Stable t (λ s, revived (tok_molecule tok) ∧ spawned t tok s).
Proof. intros s s' [? He] (t' & _ & Hd)%rely_dispatch. split; [done|]. by apply (dd_trace _ _ _ Hd). Qed.

Lemma loaded t id s r :
  (r = (f ← load_file s id; Ok (file_data f)) ∨ ∃ e, r = Err e) →
  ∀ m, r = Ok m → ∃ f, st_molecules s !! id = Some f ∧ m = file_data f.
Proof.
  intros [->|[e ->]] m; [|done]. unfold load_file.
  destruct (st_molecules s !! id) as [f|]; cbn; [|done]. intros [= <-]. eauto.
Qed.

(** ** The calls *)

Lemma owns_plain t id x p s s' :
  owns t id x p s → st_molecules s' = st_molecules s → st_binder s' = st_binder s →
  st_fleet_lock s' = st_fleet_lock s → owns t id x p s'.
Proof.
  intros [[Hl Hp] Hb] Hm Hb' Hl'. unfold owns, held, process_in. by rewrite Hm, Hb', Hl'.
Qed.

Lemma fleet_read_wp t id x p s (Q : fleet → store → Prop) :
  owns t id x p s → (∀ f s', owns t id x p s' → Q f s') → Wp t load_fleet_or_default Q s.
Proof.
  intros Ho HQ. unfold load_fleet_or_default. eapply wp_call; [apply (owns_stable t id x p)|done|].
  intros s1 c r s' Ho1 HI (-> & _)%reading_inv. destruct (ledger_same t s1 HI).
  split_and!; [done..|]. by apply HQ.
Qed.

Lemma fleet_write_ok t id x p c f s r s' :
  owns t id x p s → ledger_inv s → exec_op c t _ (SaveFleet f) s = Some (r, s') →
  ledger_inv s' ∧ dispatch_does t s s' ∧ owns t id x p s'.
Proof.
  intros Ho HI [[-> _]|(a & [= _ <-] & _)]%writing_inv.
  - destruct (ledger_same t s HI). done.
  - by destruct (ledger_plain t s (set_fleet s (FleetFile f)) HI).
Qed.

Lemma spawn_ok t id x p c e s y s' :
  owns t id x p s → ledger_inv s → exec_op c t _ (EmitWorkerSpawned e) s = Some (y, s') →
  ledger_inv s' ∧ dispatch_does t s s' ∧ owns t id x p s' ∧
  (is_ok y = true → DidSpawn t (ws_molecule e) (ws_worker_id e) ∈ st_trace s').
Proof.
  intros Ho HI [[-> [e' ->]]|([] & [= <-] & Hx)]%writing_inv.
  - by destruct (ledger_same t s HI).
  - destruct (ledger_plain t s (push_effect s (DidSpawn t (ws_molecule e) (ws_worker_id e))) HI);
      try done; [by intros e'; cbn; rewrite elem_of_app; left|].
    split_and!; [done..|]. intros _. cbn. rewrite elem_of_app, list_elem_of_singleton. by right.
Qed.

Lemma register_wp t id x p r m s :
  d_id m = id → owns t id x p s →
  Wp t (register_tackle_worker r m)
    (λ y s, owns t id x p s ∧ (is_ok y = true → DidSpawn t id (dr_worker r) ∈ st_trace s)) s.
Proof.
  intros Hid Ho. unfold register_tackle_worker. apply wp_bind.
  eapply fleet_read_wp; [done|]. clear s Ho. intros f s Ho.
  destruct (simple_id_new "AgentId" "tackle") as [agent|e]; [|by split].
  eapply wp_call; [apply (owns_stable t id x p)|done|].
  clear s Ho. intros s c now s0 Ho HI [= <- <-]. destruct (ledger_same t s HI).
  split_and!; [done..|].
  eapply wp_try_call; [apply (owns_stable t id x p)|done|]. intros s1 c1 y s' Ho1 HI1 Hs.
  destruct (fleet_write_ok _ _ _ _ _ _ _ _ _ Ho1 HI1 Hs) as (? & ? & Ho').
  split_and!; [done..|]. destruct y; [|by split].
  eapply wp_try_call; [apply (owns_stable t id x p)|done|]. intros s2 c2 y s3 Ho2 HI2 Hs2.
  destruct (spawn_ok _ _ _ _ _ _ _ _ _ Ho2 HI2 Hs2) as (? & ? & Ho3 & Hin).
  split_and!; [done..|]. cbn [spawned_event ws_molecule ws_worker_id] in Hin. rewrite Hid in Hin.
  destruct y; [|by split]. split; [done|]. intros _. by apply Hin.
Qed.

(** The undo runs under the lock and touches a record of its own process. *)
Lemma undo_wp t id x p prior worker s :
  d_id prior = id → d_process prior = x → owns t id x p s → Wp t (undo_committed_writes prior worker) (λ _ _, True) s.
Proof.
  intros Hid Hx Ho. unfold undo_committed_writes. apply wp_bind. eapply fleet_read_wp; [done|].
  clear s Ho. intros f s Ho. eapply wp_call; [apply (owns_stable t id x p)|done|].
  clear s Ho. intros s c y s' Ho HI Hs.
  destruct (fleet_write_ok _ _ _ _ _ _ _ _ _ Ho HI Hs) as (? & ? & Ho'). split_and!; [done..|].
  eapply wp_call; [apply (owns_stable t id x p)|done|].
  intros s1 c1 x1 s1' Ho1 HI1 (-> & Hx1)%reading_inv.
  destruct (ledger_same t s1 HI1). split_and!; [done..|]. rewrite Hid in Hx1.
  pose proof (loaded t id s1 x1 Hx1) as Hl. destruct x1 as [current|e]; [|done].
  destruct (Hl current eq_refl) as (f1 & Hf1 & ->). destruct (bound_to_worker _ _); [|done].
  eapply wp_call; [apply (owns_stable t id x p)|done|]. intros s2 c2 now s2' Ho2 HI2 [= <- <-].
  destruct (ledger_same t s2 HI2). split_and!; [done..|].
  eapply wp_call; [apply (owns_stable t id x p)|done|]. intros s3 c3 x3 s3' Ho3 HI3 Hs3.
  rewrite Hid in Hs3. apply writing_early_inv in Hs3 as [[-> _]|(a & Hs3 & _)].
  { by destruct (ledger_same t s3 HI3). }
  destruct (save_molecule t s3 id _ None) as [s4|] eqn:Hsave; [|done]. cbn in Hs3. simplify_eq.
  pose proof (li_ids s1 HI1 _ _ Hf1 : d_id (restored (file_data f1) prior (clock_now c2)) = _) as Hd.
  destruct (locked_save _ _ _ _ _ _ HI3 Hd (proj1 (proj1 Ho3)) Hsave); [|done].
  right. destruct Ho3 as [[_ Hp3] Hx3]. destruct (d_process prior) as [p0|] eqn:Hprior; [right|by left].
  exists p, p0. split_and!; [done|by cbn|by intros []].
Qed.

(** The lock is taken and the molecule is read under it. *)
Lemma lock_wp t B (k : result cosmon_error () → prog store_op B) (Q : B → store → Prop) s :
  (∀ e s, Wp t (k (Err e)) Q s) → (∀ s, st_fleet_lock s = Some t → Wp t (k (Ok ())) Q s) →
  Wp t (g ← call LockFleet; k g) Q s.
Proof.
  intros He Hok. eapply wp_call; [apply anything_stable|done|].
  intros s1 c g s' _ HI Hs. cbn [exec ledger_machine dispatch_machine exec_op] in Hs.
  destruct (st_fleet_lock s1) eqn:Hl; [done|].
  apply writing_inv in Hs as [[-> [e ->]]|([] & [= <-] & Hg)].
  - destruct (ledger_same t s1 HI). split_and!; [done..|]. apply He.
  - destruct (ledger_plain t s1 (set_fleet_lock s1 (Some t)) HI); try done; [by rewrite Hl|].
    split_and!; [done..|]. destruct Hg as [->|[e ->]]; [by apply Hok|apply He].
Qed.

Lemma locked_stable t : Stable t (λ s, st_fleet_lock s = Some t).
Proof. intros s s' Hl (t' & Hne & Hd)%rely_dispatch. by eapply (dd_lock t' s s'). Qed.

Lemma load_wp t id B (k : result cosmon_error molecule_data → prog store_op B) (Q : B → store → Prop) s :
  st_fleet_lock s = Some t → (∀ e s, Wp t (k (Err e)) Q s) →
  (∀ s m, held t id (d_process m) s → d_id m = id → Wp t (k (Ok m)) Q s) →
  Wp t (r ← call (LoadMolecule id); k r) Q s.
Proof.
  intros Hl He Hok. eapply wp_call; [apply locked_stable|done|].
  intros s1 c r s' Hl1 HI (-> & Hr)%reading_inv. destruct (ledger_same t s1 HI).
  split_and!; [done..|]. pose proof (loaded t id s1 r Hr) as Hload.
  destruct r as [m|e]; [|apply He]. destruct (Hload m eq_refl) as (f & Hf & ->).
  apply Hok; [|by apply (li_ids s1 HI)]. split; [done|]. unfold process_in. by rewrite Hf.
Qed.


Lemma claim_check_none current mol : claim_check current mol = None → d_process current = d_process mol.
Proof.
  unfold claim_check. case_decide as Hp; [by destruct (d_process current)|done].
Qed.

Lemma commit_wp t mol r s :
  (d_process mol ≠ None → revived (d_id mol)) →
  Wp t (commit_dispatch mol r) (λ y s, dispatch_post t (AnsDispatch (d_process mol) y) s) s.
Proof.
  intros Hrev. unfold commit_dispatch, try at 1.
  assert (∀ e s, dispatch_post t (AnsDispatch (d_process mol) (Err e)) s) as Hpe by (intros e s'; by destruct (d_process mol)).
  apply lock_wp; [by intros; apply Hpe|]. clear s. intros s Hl.
  unfold try at 1. apply load_wp; [done|by intros; apply Hpe|]. clear s Hl. intros s current Hh Hid.
  destruct (claim_check current mol) as [e|] eqn:Hc; [apply Hpe|].
  apply claim_check_none in Hc. rewrite Hc in Hh.
  generalize dependent (d_process mol). generalize dependent (d_id mol). clear mol. intros id Hid x Hrev Hpe Hh Hc.
  eapply wp_call; [apply (held_stable t id x)|done|]. intros s1 c1 n1 s1' Hh1 HI1 [= <- <-].
  destruct (ledger_same t s1 HI1). split_and!; [done..|].
  eapply wp_call; [apply (held_stable t id x)|done|]. intros s2 c2 n2 s2' Hh2 HI2 [= <- <-].
  destruct (ledger_same t s2 HI2). split_and!; [done..|].
  set (updated := dispatched current r (clock_now c1) (clock_now c2)).
  set (p := dispatch_process r (clock_now c1)).
  eapply wp_try_call; [apply (held_stable t id x)|done|]. intros s3 c3 y s4 Hh3 HI3 Hs.
  apply writing_early_inv in Hs as [(-> & [e ->] & _)|([] & Hs & -> & _)].
  { destruct (ledger_same t s3 HI3). by split_and!. }
  destruct (save_molecule t s3 id updated None) as [s5|] eqn:Hsave; [|done]. cbn in Hs. injection Hs as ->.
  destruct Hh3 as [Hl3 Hp3].
  destruct (locked_save _ _ _ _ _ _ HI3 (Hid : d_id updated = id) Hl3 Hsave) as [HI4 Hd4].
  { destruct x as [p0|]; [right; right|by left]. exists p0, p. split_and!; [done|done|]. intros Hno. by destruct Hno; apply Hrev. }
  split_and!; [done..|]. destruct (save_effect _ _ _ _ _ _ Hsave) as (_ & Hp & Hb & Hl' & _).
  assert (owns t id x p s4) as Ho.
  { split; [split; [by rewrite Hl'|by rewrite Hp, decide_True]|]. destruct x; [by apply Hrev|]. rewrite Hb. unfold binder_after.
    rewrite Hp3. cbn. by rewrite lookup_insert_eq. }
  apply wp_bind. eapply wp_mono; [|by eapply (register_wp t id x p r updated)].
  clear - Hid Hc Hpe Hrev. intros y sy (Ho & Hin). destruct y as [[]|e].
  - eapply wp_call; [apply (owns_spawned_stable t id x p (DidSpawn t id (dr_worker r)))|by split; auto|].
    intros s' c y s'' [Ho' Hin'] HI (-> & _)%reading_inv. destruct (ledger_same t s' HI).
    split_and!; [done..|]. destruct Ho' as [[_ Hp] Hx]. destruct x; [by split|].
    split_and!; [done| |done]. exists p. by split.
  - apply wp_bind. eapply wp_mono; [|by eapply (undo_wp t id x p)]. intros; apply Hpe.
Qed.

(** A later witness keeps the worker of the process. *)
Lemma stamp_save_wp t id p m' (o : store_op (result cosmon_error ())) expected s :
  (o = SaveMolecule false id m' ∧ expected = None ∨ ∃ rev, o = SaveIfRevision id m' rev ∧ expected = Some rev) →
  held t id (Some p) s → d_id m' = id →
  (∃ p', d_process m' = Some p' ∧ p_worker_id p' = p_worker_id p) →
  Wp t (x ← call o; mret (is_ok x)) (λ _ _, True) s.
Proof.
  intros Ho Hh Hid (p' & Hp' & Hw). eapply wp_call; [apply (held_stable t id (Some p))|done|].
  clear s Hh. intros s c x s' [Hl Hp] HI Hs.
  assert (s' = s ∨ save_molecule t s id m' expected = Ok s') as [->|Hsave].
  { destruct Ho as [[-> ->]|(rev & -> & ->)]; cbn [exec ledger_machine dispatch_machine exec_op] in Hs;
      apply writing_early_inv in Hs as [[-> _]|(a & Hs & _)]; try (by left); right;
      destruct (save_molecule _ _ _ _ _) as [s1|]; cbn in Hs; by simplify_eq. }
  - by destruct (ledger_same t s HI).
  - destruct (locked_save _ _ _ _ _ _ HI Hid Hl Hsave); [|done]. right. right. eauto.
Qed.

Lemma pid_wp t id new_pid start s : Wp t (stamp_pid_witness id new_pid start) (λ _ _, True) s.
Proof.
  unfold stamp_pid_witness. apply lock_wp; [done|]. clear s. intros s Hl.
  apply load_wp; [done..|]. clear s Hl. intros s m Hh Hid.
  destruct (d_process m) as [p|]; [|done].
  eapply wp_call; [apply (held_stable t id (Some p))|done|]. intros s1 c n s1' Hh1 HI [= <- <-].
  destruct (ledger_same t s1 HI). split_and!; [done..|].
  eapply (stamp_save_wp t id p); [by left|done|done|]. cbn. by eexists.
Qed.

Lemma terminal_wp t id expected ti s : Wp t (stamp_terminal_witness id expected ti) (λ _ _, True) s.
Proof.
  unfold stamp_terminal_witness. apply lock_wp; [done|]. clear s. intros s Hl.
  eapply wp_call; [apply locked_stable|done|]. intros s1 c r s1' Hl1 HI (-> & _)%reading_inv.
  destruct (ledger_same t s1 HI). split_and!; [done..|]. destruct r as [[m0 revision]|e]; [|done].
  apply load_wp; [done..|]. intros s2 m Hh Hid. destruct expected as [e|]; [|done].
  destruct (d_process m) as [p|]; [|done]. case_decide; [|done].
  eapply (stamp_save_wp t id p); [right; eauto|done|done|]. cbn. by eexists.
Qed.

(** ** The system is sound *)

Lemma ledger_release t s : ledger_inv s → ledger_inv (release_locks t s) ∧ dispatch_does t s (release_locks t s).
Proof.
  intros HI. apply ledger_plain; try done. intros t' Hne Hl. cbn.
  rewrite decide_False; [done|]. by rewrite Hl; intros [= ->].
Qed.

Lemma dispatch_sound : sound ledger_inv dispatch_does (λ _ _, True) dispatch_post.
Proof.
  split; [|intros t [[p|] [[m tok]|e]|b]; cbn; try apply anything_stable; [apply spawned_stable|apply recorded_stable]|done|
            apply ledger_release|by intros t [[p|] [[m tok]|e]|b]|].
  - intros t p s Hp _ _. destruct Hp; apply wp_map; [by apply commit_wp|apply pid_wp|apply terminal_wp].
  - intros s s' HI Ho. by apply (dispatch_others_ok 0 s s').
Qed.

(** The process [t], which saw [seen], has returned the token [tok]. *)
Definition dispatched_by (y : system store_op store dispatch_answer) t (seen : option molecule_process) tok : Prop :=
  ∃ m, processes y !! t = Some (Returned (AnsDispatch seen (Ok (m, tok)))).

End Dispatch.

Section DispatchAlone.
Context `{StoreHash}.
#[local] Instance any_dispatch : Machine store_op store dispatch_answer := dispatch_machine (λ _, True).
Implicit Types (t : nat) (id : mid) (s : store).

(** ** One dispatch alone *)

(** How many operations did not work. *)
Fixpoint failures (cs : list circumstances) : nat :=
  match cs with
  | [] => 0
  | c :: cs => (match fares c with Works => 0 | _ => 1 end) + failures cs
  end.

Lemma failures_app cs1 cs2 : failures (cs1 ++ cs2) = failures cs1 + failures cs2.
Proof. induction cs1 as [|c cs1 IH]; cbn; [done|]. rewrite IH. lia. Qed.

(** The record after an undo: the date of its last update is all that is new. *)
Definition touched (m : molecule_data) (now : Z) : molecule_data :=
  with_claim m (d_status m) (d_assigned_worker m) (d_session_name m) (d_process m) (d_tackled_by m)
    (d_tackled_at m) now.

Lemma restore_dispatched m r started tackled now :
  restored (dispatched m r started tackled) m now = touched m now.
Proof.
  unfold restored, dispatched, touched, with_claim. cbn. f_equal.
  by destruct (d_status m).
Qed.

Lemma reconcile_role_idem w : reconcile_role (reconcile_role w) = reconcile_role w.
Proof. destruct w as [? ? ? ? ? [] ? ? ? ? ? ? ? ?]; try done. unfold reconcile_role; cbn. by destruct (derive_worker_role _ _). Qed.

Lemma reconcile_workers_idem f : reconcile_role <$> workers (reconcile_worker_roles f) = workers (reconcile_worker_roles f).
Proof.
  cbn. rewrite <- map_fmap_compose. apply map_fmap_ext. intros w x _. apply reconcile_role_idem.
Qed.

(** The workers that a reader of the fleet file sees. *)
Definition fleet_workers s : gmap string worker_data :=
  match load_fleet s with Ok f => workers f | Err _ => ∅ end.

Lemma fleet_workers_idem s : reconcile_role <$> fleet_workers s = fleet_workers s.
Proof.
  unfold fleet_workers, load_fleet. destruct (st_fleet s) as [|f|]; try apply fmap_empty.
  apply reconcile_workers_idem.
Qed.

Lemma tackle_worker_role r agent m now :
  reconcile_role (tackle_worker r agent m now) = tackle_worker r agent m now.
Proof. unfold tackle_worker, reconcile_role. cbn. by destruct (derive_worker_role _ _). Qed.

(** What one operation of the schedule does. *)
Lemma runs_load_fleet cs t s x :
  runs cs t load_fleet_or_default s = Some x →
  ∃ f, x = (f, s) ∧ (workers f = fleet_workers s ∨ (failures cs ≥ 1 ∧ f = fleet_default)).
Proof.
  unfold load_fleet_or_default. intros (c & cs' & r & s1 & -> & Hs & Hx)%runs_call.
  apply runs_ret in Hx as [-> ->]. cbn [exec any_dispatch dispatch_machine exec_op] in Hs.
  unfold reading in Hs. cbn. unfold fleet_workers.
  destruct (fares c); simplify_eq; eexists; (split; [done|]).
  - destruct (load_fleet s1); by left.
  - right. split; [lia|done].
  - right. split; [lia|done].
Qed.

Lemma runs_write {A} c s (f : result cosmon_error (A * store)) r s' :
  writing A c s f = Some (r, s') →
  (fares c = Works ∧ (∃ a, f = Ok (a, s') ∧ r = Ok a)) ∨
  ((fares c ≠ Works ∨ ∃ e, f = Err e) ∧ (∃ e, r = Err e) ∧ (s' = s ∨ ∃ a, f = Ok (a, s'))).
Proof. unfold writing. destruct (fares c), f as [[a s1]|e]; intros [= <- <-]; eauto 8. Qed.

Lemma fleet_workers_add s s' f r agent m now :
  st_fleet s' = FleetFile (add_worker f (dr_worker r) (tackle_worker r agent m now)) →
  fleet_workers s' = <[dr_worker r := tackle_worker r agent m now]> (reconcile_role <$> workers f).
Proof.
  intros Hf. unfold fleet_workers, load_fleet. rewrite Hf. cbn.
  by rewrite fmap_insert, tackle_worker_role.
Qed.

Lemma register_runs cs t r m s x s' :
  runs cs t (register_tackle_worker r m) s = Some (x, s') →
  st_molecules s' = st_molecules s ∧
  match x with
  | Ok _ =>
      DidSpawn t (d_id m) (dr_worker r) ∈ st_trace s' ∧
      ∃ now ws, fleet_workers s' = <[dr_worker r := tackle_worker r "tackle" m now]> ws ∧
                (failures cs = 0 → ws = fleet_workers s)
  | Err _ => 1 ≤ failures cs ∧
      (failures cs ≤ 1 → delete (dr_worker r) (fleet_workers s') = delete (dr_worker r) (fleet_workers s))
  end.
Proof.
  unfold register_tackle_worker. intros (cs1 & cs2 & f & s1 & -> & Hf & Hx)%runs_bind.
  apply runs_load_fleet in Hf as (f' & [= -> ->] & Hf). rewrite !failures_app.
  assert (simple_id_new "AgentId" "tackle" = Ok "tackle") as Hsid by by vm_compute.
  rewrite Hsid in Hx.
  apply runs_call in Hx as (c1 & cs3 & now & s2 & -> & [= <- <-] & Hx).
  apply runs_call in Hx as (c2 & cs4 & x2 & s3 & -> & Hs & Hx). cbn [failures].
  set (tw := tackle_worker r "tackle" m (clock_now c1)) in *.
  assert (st_molecules s3 = st_molecules s ∧ st_trace s3 = st_trace s) as [Hm3 Ht3]
    by (apply writing_inv in Hs as [[-> _]|(a & [= _ <-] & _)]; done).
  assert ((st_fleet s3 = st_fleet s ∨ st_fleet s3 = FleetFile (add_worker f' (dr_worker r) tw)) ∧
          (is_ok x2 = true → st_fleet s3 = FleetFile (add_worker f' (dr_worker r) tw)) ∧
          (is_ok x2 = false → fares c2 ≠ Works)) as (Hfl & Hok & Herr).
  { apply runs_write in Hs as [(Hw & a & [= <- <-] & ->)|([Hw|[e ?]] & [e' ->] & [->|[a [= _ <-]]])];
      try done; (split_and!; [auto|done|done]). }
  assert (reconcile_role <$> fleet_workers s = fleet_workers s) as Hid by apply fleet_workers_idem.
  assert (failures cs1 = 0 → reconcile_role <$> workers f' = fleet_workers s) as Hwf.
  { intros H0. destruct Hf as [->|[? _]]; [done|lia]. }
  assert (failures cs1 = 0 → delete (dr_worker r) (fleet_workers s3) = delete (dr_worker r) (fleet_workers s)) as Hdel.
  { intros H0. destruct Hfl as [Heq|Heq]; [by unfold fleet_workers, load_fleet; rewrite Heq|].
    rewrite (fleet_workers_add s _ _ _ _ _ _ Heq), delete_insert_eq. f_equal. by apply Hwf. }
  destruct x2 as [[]|e].
  - apply runs_call in Hx as (c3 & cs5 & x3 & s4 & -> & Hs3 & Hx). cbn [failures].
    assert (st_molecules s4 = st_molecules s3 ∧ fleet_workers s4 = fleet_workers s3) as [Hm4 Hf4]
      by (apply writing_inv in Hs3 as [[-> _]|(a & [= _ <-] & _)]; done).
    destruct x3 as [[]|e]; apply runs_ret in Hx as [-> [= -> ->]]; (split; [congruence|]).
    + split.
      * apply runs_write in Hs3 as [(_ & a & [= _ <-] & _)|(_ & [e ?] & _)]; [|done].
        cbn. rewrite elem_of_app, list_elem_of_singleton. by right.
      * exists (clock_now c1), (reconcile_role <$> workers f').
        rewrite Hf4, (fleet_workers_add s _ _ _ _ _ _ (Hok eq_refl)).
        split; [done|]. intros H0. apply Hwf. lia.
    + rewrite Hf4. apply runs_write in Hs3 as [(_ & a & _ & ?)|([Hw|[e' ?]] & _)]; [done| |done].
      destruct (fares c3); [done|split; [lia|intros H0; apply Hdel; lia]..].
  - apply runs_ret in Hx as [-> [= -> ->]]. split; [done|]. specialize (Herr eq_refl).
    destruct (fares c2); [done|split; [lia|intros H0; apply Hdel; lia]..].
Qed.

(** The store never refuses what an undo writes. *)
Lemma restore_allowed s id f prior now :
  st_molecules s !! id = Some f → write_refusal s id (restored (file_data f) prior now) None = None.
Proof.
  intros Hf. unfold write_refusal. rewrite Hf. case_decide as Hd; [|done].
  destruct Hd as [Hc [Hs|Hr]]; [|done]. by cbn in Hs; rewrite Hc in Hs.
Qed.

Lemma undo_runs cs t prior worker s x s' f :
  failures cs = 0 → runs cs t (undo_committed_writes prior worker) s = Some (x, s') →
  st_molecules s !! d_id prior = Some f → bound_to_worker (file_data f) worker = true →
  ∃ now, st_molecules s' = <[d_id prior := MoleculeFile (restored (file_data f) prior now) ""]> (st_molecules s) ∧
         fleet_workers s' = delete worker (fleet_workers s).
Proof.
  intros H0 Hx Hm Hb. unfold undo_committed_writes in Hx.
  apply runs_bind in Hx as (cs1 & cs2 & fl & s1 & -> & Hf & Hx). rewrite failures_app in H0.
  apply runs_load_fleet in Hf as (f' & [= -> ->] & [Hf|[? _]]); [|lia].
  apply runs_call in Hx as (c1 & cs3 & x1 & s2 & -> & Hs & Hx). cbn in H0.
  apply runs_write in Hs as [(_ & a & [= _ <-] & _)|([Hw|[e ?]] & _)]; [|by destruct (fares c1); [|lia..]|done].
  apply runs_call in Hx as (c2 & cs4 & x2 & s3 & -> & Hs & Hx). cbn in H0.
  cbn [exec any_dispatch dispatch_machine exec_op] in Hs. unfold reading, load_file in Hs. cbn in Hs. rewrite Hm in Hs.
  destruct (fares c2); [|lia..]. injection Hs as <- <-. cbn in Hx. rewrite Hb in Hx.
  apply runs_call in Hx as (c3 & cs5 & now & s4 & -> & [= <- <-] & Hx).
  apply runs_call in Hx as (c4 & cs6 & x4 & s5 & -> & Hs & Hx). cbn in H0.
  apply runs_ret in Hx as [-> [= _ ->]].
  apply writing_early_inv in Hs as [(_ & _ & [Hw|[e He]])|(a1 & Hs & _)].
  - by destruct (fares c4); [|lia..].
  - unfold save_molecule in He. rewrite restore_allowed in He by done.
    by repeat case_match.
  - destruct (save_molecule _ _ _ _ _) as [s6|e6] eqn:Hsave; [|done]. cbn in Hs.
    injection Hs as _ ->.
    destruct (save_effect _ _ _ _ _ _ Hsave) as (Hm5 & _ & _ & _ & Hf5 & _).
    exists (clock_now c3). split; [done|]. unfold fleet_workers at 1, load_fleet. rewrite Hf5. cbn.
    by rewrite fmap_delete, Hf, fleet_workers_idem.
Qed.

(** What a commit leaves behind, when it answers [x]. *)
Definition committed (cs : list circumstances) t (mol : molecule_data) (r : dispatch_record) s
    (m : molecule_data) (tok : dispatch_recorded) s' : Prop :=
  ∃ f started tackled, st_molecules s !! d_id mol = Some f ∧ claim_check (file_data f) mol = None ∧
    m = dispatched (file_data f) r started tackled ∧ tok = DispatchRecorded (d_id mol) (dr_worker r) ∧
    st_molecules s' = <[d_id mol := MoleculeFile m ""]> (st_molecules s) ∧
    DidSpawn t (d_id mol) (dr_worker r) ∈ st_trace s' ∧
    ∃ now ws, fleet_workers s' = <[dr_worker r := tackle_worker r "tackle" m now]> ws ∧
              (failures cs = 0 → ws = fleet_workers s).

Definition uncommitted (mol : molecule_data) (r : dispatch_record) s s' : Prop :=
  (st_molecules s' = st_molecules s ∧ fleet_workers s' = fleet_workers s) ∨
  ∃ f now, st_molecules s !! d_id mol = Some f ∧
    st_molecules s' = <[d_id mol := MoleculeFile (touched (file_data f) now) ""]> (st_molecules s) ∧
    fleet_workers s' = delete (dr_worker r) (fleet_workers s).

(** C27. A dispatch that runs alone and of which at most one operation fails
    either records all of it or leaves nothing: an answer [Ok] comes with the
    claim in the molecule, the worker in the fleet, and the spawn event; an
    error leaves the molecule as it was, but for its date, and no such worker. *)
Theorem commit_all_or_nothing cs t mol r s x s' :
  ledger_inv s → runs cs t (commit_dispatch mol r) s = Some (x, s') → failures cs ≤ 1 →
  match x with
  | Ok (m, tok) => committed cs t mol r s m tok s'
  | Err _ => uncommitted mol r s s'
  end.
Proof.
  intros HI Hx Hf1. unfold commit_dispatch, try in Hx.
  apply runs_call in Hx as (c1 & cs1 & g & s1 & -> & Hs & Hx). cbn [exec any_dispatch dispatch_machine exec_op] in Hs.
  destruct (st_fleet_lock s); [done|].
  assert (st_molecules s1 = st_molecules s ∧ fleet_workers s1 = fleet_workers s) as [Hm1 Hw1]
    by (apply writing_inv in Hs as [[-> _]|(a & [= _ <-] & _)]; done).
  clear Hs. destruct g as [[]|e]; [|apply runs_ret in Hx as [-> [= -> ->]]; by left].
  apply runs_call in Hx as (c2 & cs2 & l & s2 & -> & [-> Hl]%reading_inv & Hx).
  pose proof (loaded t _ _ _ Hl) as Hload.
  destruct l as [current|e]; [|apply runs_ret in Hx as [-> [= -> ->]]; by left].
  destruct (Hload current eq_refl) as (f & Hf & ->). rewrite Hm1 in Hf.
  pose proof (li_ids s HI _ _ Hf) as Hid.
  destruct (claim_check _ _) as [e|] eqn:Hc; [apply runs_ret in Hx as [-> [= -> ->]]; by left|].
  apply runs_call in Hx as (c3 & cs3 & n1 & s3 & -> & [= <- <-] & Hx).
  apply runs_call in Hx as (c4 & cs4 & n2 & s4 & -> & [= <- <-] & Hx).
  apply runs_call in Hx as (c5 & cs5 & saved & s5 & -> & Hs & Hx). cbn [failures] in *.
  set (updated := dispatched (file_data f) r (clock_now c3) (clock_now c4)) in *.
  apply writing_early_inv in Hs as [(-> & [e ->] & _)|([] & Hs & -> & Hok)];
    [apply runs_ret in Hx as [-> [= -> ->]]; by left|].
  destruct (save_molecule _ _ _ _ _) as [s6|e6] eqn:Hsave; [|done]. cbn in Hs. injection Hs as ->.
  destruct (save_effect _ _ _ _ _ _ Hsave) as (Hm5 & _ & _ & _ & Hf5 & _).
  assert (fleet_workers s5 = fleet_workers s) as Hw5
    by (rewrite <- Hw1; unfold fleet_workers, load_fleet; by rewrite Hf5).
  apply runs_bind in Hx as (cs6 & cs7 & x6 & s7 & -> & Hreg & Hx). rewrite failures_app in *.
  apply register_runs in Hreg as [Hm7 Hreg]. destruct x6 as [[]|e].
  - destruct Hreg as (Hin & now & ws & Hw7 & Hws).
    apply runs_call in Hx as (c8 & cs8 & l8 & s8 & -> & [-> _]%reading_inv & Hx).
    apply runs_ret in Hx as [-> [= -> ->]].
    exists f, (clock_now c3), (clock_now c4). split_and!; try done; [congruence|by rewrite <- Hid|].
    exists now, ws. split; [done|]. intros H0. rewrite <- Hw5. apply Hws. cbn [failures] in H0.
    rewrite failures_app in H0. lia.
  - destruct Hreg as [Hge Hdel]. apply runs_bind in Hx as (cs8 & cs9 & [] & s9 & -> & Hu & Hx).
    apply runs_ret in Hx as [-> [= -> ->]]. rewrite failures_app in Hf1.
    destruct (undo_runs cs8 t (file_data f) (dr_worker r) s7 () s9 (MoleculeFile updated ""))
      as (now & Hm9 & Hw9); [lia|done| | |].
    + by rewrite Hm7, Hm5, Hid, lookup_insert_eq.
    + cbn. by rewrite bool_decide_true.
    + right. exists f, now. split; [done|]. rewrite Hm9, Hw9, Hm7, Hm5, Hid, Hm1, insert_insert_eq.
      split; [unfold updated; cbn [file_data]; by rewrite restore_dispatched|]. rewrite Hdel by lia. by rewrite Hw5.
Qed.

End DispatchAlone.

(** ** At a concrete store *)

Definition ledger_hash : StoreHash :=
  {| state_hex f := mid_raw (d_id (file_data f)); key_hex key := key |}.

Section Sample.
#[local] Existing Instance ledger_hash.

Definition ready : molecule_data := sample_molecule (short_id "a") MoleculeStatus.Pending [] None.
Definition ready_store (f : fleet_file) : store :=
  Store {[ d_id ready := MoleculeFile ready "" ]} ∅ ∅ f None ∅ [].

Definition record_of (worker : string) : dispatch_record :=
  DispatchRecord None worker worker "claude" External None THuman "/r/wt" "/r".
Definition dispatcher (worker : string) : prog store_op dispatch_answer :=
  prog_map (AnsDispatch None) (commit_dispatch ready (record_of worker)).
Definition fair (now : Z) : circumstances := Circumstances Works now None.

(** What a resurrection sees after the first dispatch, and its dispatch. *)
Definition seen_by_reviver : molecule_data := dispatched ready (record_of "w1") 1 1.
Definition reviver : prog store_op dispatch_answer :=
  prog_map (AnsDispatch (d_process seen_by_reviver)) (commit_dispatch seen_by_reviver (record_of "w3")).

#[local] Instance sample_ledger : Machine store_op store dispatch_answer := dispatch_machine (λ id, id = d_id ready).

Lemma ready_inv f : ledger_inv (ready_store f).
Proof.
  split; [|by intros id t]. intros id g. unfold ready_store, st_molecules.
  rewrite lookup_singleton_Some. by intros [<- <-].
Qed.

Lemma dispatcher_client worker : dispatch_client (λ id, id = d_id ready) (dispatcher worker).
Proof. by apply (client_commit _ ready). Qed.

Lemma reviver_client : dispatch_client (λ id, id = d_id ready) reviver.
Proof. by apply (client_commit _ seen_by_reviver). Qed.

(** Two dispatchers with the same snapshot, and then a resurrection. *)
Definition race : list (circumstances * prog store_op dispatch_answer) :=
  [(fair 1, dispatcher "w1"); (fair 2, dispatcher "w2"); (fair 3, reviver)].

Lemma race_clients : Forall (λ x, dispatch_client (λ id, id = d_id ready) x.2) race.
Proof.
  apply Forall_cons_2; [apply dispatcher_client|]. apply Forall_cons_2; [apply dispatcher_client|].
  apply Forall_cons_2; [apply reviver_client|apply Forall_nil_2].
Qed.

Definition race_end : system store_op store dispatch_answer :=
  default (System (ready_store FleetAbsent) []) (play (M := sample_ledger) race (System (ready_store FleetAbsent) [])).

Definition won : dispatch_recorded := DispatchRecorded (d_id ready) "w1".

Example race_history :
  processes race_end =
    [Returned (AnsDispatch None (Ok (seen_by_reviver, won)));
     Returned (AnsDispatch None (Err (LClaimLost "w1" "claude" "adapter default (unrecorded)")));
     Returned (AnsDispatch (d_process seen_by_reviver)
       (Ok (dispatched seen_by_reviver (record_of "w3") 3 3, DispatchRecorded (d_id ready) "w3")))] ∧
  st_trace (shared race_end) = [DidSpawn 0 (d_id ready) "w1"; DidSpawn 2 (d_id ready) "w3"].
Proof. by vm_compute. Qed.

Lemma race_reachable : reachable (M := sample_ledger) (ready_store FleetAbsent) race_end.
Proof.
  unfold race_end. destruct (play (M := sample_ledger) race _) as [y|] eqn:Hy; [exact (play_steps (M := sample_ledger) _ _ _ race_clients Hy)|apply rtc_refl].
Qed.


(** The fleet file is written and then not synced: the dispatch is undone. *)
Definition late : circumstances := Circumstances (FailsLate "fsync") 7 None.
Definition late_schedule : list circumstances :=
  [fair 1; fair 2; fair 3; fair 4; fair 5; fair 6; fair 7; late; fair 9; fair 10; fair 11; fair 12; fair 13].
Definition late_result :=
  runs (M := any_dispatch) late_schedule 0 (commit_dispatch ready (record_of "w1")) (ready_store FleetAbsent).

Definition late_store : store :=
  match late_result with Some (_, s) => s | None => ready_store FleetAbsent end.

Example late_failure :
  late_result = Some (Err (LState (EStateStore "fsync")), late_store) ∧ fleet_workers late_store = ∅ ∧
  st_molecules late_store = {[ d_id ready := MoleculeFile (touched ready 12) "" ]}.
Proof. by vm_compute. Qed.

Lemma commit_all_or_nothing_witness :
  uncommitted ready (record_of "w1") (ready_store FleetAbsent) late_store.
Proof.
  apply (commit_all_or_nothing late_schedule 0 ready (record_of "w1") (ready_store FleetAbsent)
           (Err (LState (EStateStore "fsync"))) late_store (ready_inv FleetAbsent)).
  - by vm_compute.
  - vm_compute. lia.
Defined.

(** A fleet file that does not parse is replaced by one with the new worker
    only, and the dispatch succeeds. *)
Example unreadable_fleet_replaced :
  match run (M := any_dispatch) (fair 1) 0 (commit_dispatch ready (record_of "w1")) (ready_store FleetUnreadable) with
  | Some (Ok (_, tok), s) => tok = won ∧ elements (dom (fleet_workers s)) = ["w1"]
  | _ => False
  end.
Proof. by vm_compute. Qed.

End Sample.
