(* ===== verification/Diversity.v ===== *)
(** The inputs of a review committee: criticality
    ([crates/cosmon-core/src/criticality.rs]), the add-only requirements of
    [[provider_bias]] ([config.rs]) and the endpoints on which independence is
    measured ([provider_diversity.rs]). *)
From stdpp Require Import prelude gmap sets strings list.
From Stdlib Require Import Ascii.
From S2P Require Import Prelude Text.

(** ** Criticality *)

Inductive criticality_level : Set := Routine | Root | Security | Max.

#[export] Instance criticality_level_eq_dec : EqDecision criticality_level.
Proof. solve_decision. Defined.

(** The derived order is the order of declaration. *)
Definition level_rank (l : criticality_level) : nat :=
  match l with Routine => 0 | Root => 1 | Security => 2 | Max => 3 end.

Definition stake_tag (l : criticality_level) : string :=
  match l with
  | Routine => "stake:routine"
  | Root => "stake:root"
  | Security => "stake:security"
  | Max => "stake:max"
  end.

Definition requires_committee (l : criticality_level) : bool :=
  match l with Routine => false | _ => true end.

Inductive criticality_source : Set := SBaseline | SOperator | SFormula | SPolicy | SWorker.

Record criticality_declaration := CriticalityDeclaration {
  cd_subject : string;
  cd_revision : string;
  cd_level : criticality_level;
  cd_source : criticality_source;
  cd_actor : string;
  cd_reason : string;
  cd_declared_at : Z;
}.

Record downgrade_attempt := DowngradeAttempt {
  da_floor : criticality_level;
  da_declaration : criticality_declaration;
}.

Record effective_criticality := EffectiveCriticality {
  ec_level : criticality_level;
  ec_decisive : list criticality_declaration;
  ec_downgrades : list downgrade_attempt;
}.

Definition effective_step (e : effective_criticality) (d : criticality_declaration) :
    effective_criticality :=
  match level_rank (cd_level d) ?= level_rank (ec_level e) with
  | Gt => EffectiveCriticality (cd_level d) [d] (ec_downgrades e)
  | Eq => EffectiveCriticality (ec_level e) (ec_decisive e ++ [d]) (ec_downgrades e)
  | Lt => EffectiveCriticality (ec_level e) (ec_decisive e)
            (ec_downgrades e ++ [DowngradeAttempt (ec_level e) d])
  end.

Definition effective (declarations : list criticality_declaration) (subject revision : string) :
    effective_criticality :=
  foldl effective_step (EffectiveCriticality Routine [] [])
    (filter (λ d, cd_subject d = subject ∧ cd_revision d = revision) declarations).

Inductive criticality_drift : Set :=
| StakeTag | FormulaStake | UnclassifiedExpectedCriticality | MissingCommittee.

Definition projection_drift (e : effective_criticality) (tag : option string)
    (formula_stake : option criticality_level) (classification_expected committee_linked : bool) :
    list criticality_drift :=
  (if decide (tag ≠ Some (stake_tag (ec_level e))) then [StakeTag] else []) ++
  (match formula_stake with
   | Some l => if decide (level_rank l < level_rank (ec_level e)) then [FormulaStake] else []
   | None => []
   end) ++
  (if classification_expected && bool_decide (ec_decisive e = []) then [UnclassifiedExpectedCriticality]
   else []) ++
  (if requires_committee (ec_level e) && negb committee_linked then [MissingCommittee] else []).

(** ** Requirements *)

(** A [Vec] of seats that is read as a set. *)
Record provider_requirement_set := ProviderRequirementSet {
  additional_readers : list string;
  additional_falsifiers : list string;
  min_distinct_provider_endpoints : option N;
}.

Definition requirement_default : provider_requirement_set := ProviderRequirementSet [] [] None.

Definition join_floor (a b : option N) : option N :=
  match a, b with
  | Some x, Some y => Some (x `max` y)%N
  | Some x, None | None, Some x => Some x
  | None, None => None
  end.

Definition union_sorted (a b : list string) : list string :=
  btree_iter (list_to_set a ∪ list_to_set b).

Definition join (a b : provider_requirement_set) : provider_requirement_set :=
  ProviderRequirementSet
    (union_sorted (additional_readers a) (additional_readers b))
    (union_sorted (additional_falsifiers a) (additional_falsifiers b))
    (join_floor (min_distinct_provider_endpoints a) (min_distinct_provider_endpoints b)).

(** The profiles in the order of their names. *)
Record provider_bias_config := ProviderBiasConfig {
  pb_baseline : provider_requirement_set;
  pb_profiles : list (string * provider_requirement_set);
}.

Definition effective_requirements (b : provider_bias_config) : provider_requirement_set :=
  foldl join (join requirement_default (pb_baseline b)) (snd <$> pb_profiles b).

(** ** Endpoints *)

Record endpoint_tuple := EndpointTuple {
  ep_provider : string;
  ep_base_url : string;
  ep_family : string;
}.

#[export] Instance endpoint_tuple_eq_dec : EqDecision endpoint_tuple.
Proof. solve_decision. Defined.
#[export] Instance endpoint_tuple_countable : Countable endpoint_tuple.
Proof.
  refine (inj_countable' (λ e, (ep_provider e, ep_base_url e, ep_family e))
            (λ x, EndpointTuple x.1.1 x.1.2 x.2) _).
  by intros [].
Defined.

(** The fields of an [[adapters.<name>]] section that name an endpoint. *)
Record adapter_entry := AdapterEntry {
  ae_base_url : option string;
  ae_default_model : option string;
}.

(** The [[adapters]] table, when there is one. *)
Definition adapters_config : Type := option (gmap string adapter_entry).

Definition adapter_of (adapters : adapters_config) (seat : string) : option adapter_entry :=
  adapters ≫= λ a, a !! seat.

(** [declared]: a field that is set and says something. *)
Definition declared (field : option string) : option string :=
  f ← field; if is_empty (trim f) then None else Some (trim f).

Definition is_local_host (host : string) : bool :=
  contains_str "localhost" host || contains_str "127.0.0.1" host ||
  contains_str "0.0.0.0" host || contains_str "[::1]" host.

Definition normalize_base_url (base_url : option string) : string :=
  match base_url with
  | Some u => to_ascii_lowercase (trim_end_char "/"%char (trim u))
  | None => ""
  end.

Definition family_from_vendor_slug (vendor : string) : option string :=
  if bool_decide (vendor ∈ ["anthropic"]) then Some "anthropic"
  else if bool_decide (vendor ∈ ["openai"]) then Some "openai"
  else if bool_decide (vendor ∈ ["google"]) then Some "google"
  else if bool_decide (vendor ∈ ["deepseek"]) then Some "deepseek"
  else if bool_decide (vendor ∈ ["mistralai"; "mistral"]) then Some "mistral"
  else if bool_decide (vendor ∈ ["x-ai"; "xai"]) then Some "xai"
  else if bool_decide (vendor ∈ ["meta-llama"; "meta"]) then Some "llama"
  else if bool_decide (vendor ∈ ["qwen"; "alibaba"]) then Some "qwen"
  else if bool_decide (vendor ∈ ["moonshotai"; "moonshot"]) then Some "moonshot"
  else None.

Definition family_from_bare_model (m : string) : option string :=
  if starts_with "claude" m then Some "anthropic"
  else if starts_with "gpt" m || starts_with "o1" m || starts_with "o3" m || starts_with "o4" m
       then Some "openai"
  else if starts_with "grok" m then Some "xai"
  else if starts_with "moonshot" m || starts_with "kimi" m then Some "moonshot"
  else if starts_with "deepseek" m then Some "deepseek"
  else if starts_with "gemini" m then Some "google"
  else if starts_with "qwen" m then Some "qwen"
  else if starts_with "llama" m then Some "llama"
  else if starts_with "mistral" m || starts_with "mixtral" m then Some "mistral"
  else None.

Definition family_from_model (model : option string) : option string :=
  model ← model;
  let m := to_ascii_lowercase (trim model) in
  if is_empty m then None else
  match split_once "/"%char m with
  | Some (vendor, rest) =>
      match family_from_vendor_slug vendor with
      | Some fam => Some fam
      | None => Some (default m (family_from_bare_model rest))
      end
  | None => Some (default m (family_from_bare_model m))
  end.

Definition family_from_name (adapter_name : string) : string :=
  let n := to_ascii_lowercase (trim adapter_name) in
  if bool_decide (n ∈ ["claude"; "anthropic"]) then "anthropic"
  else if bool_decide (n ∈ ["openai"; "codex"]) then "openai"
  else if bool_decide (n ∈ ["xai"; "grok"]) then "xai"
  else if bool_decide (n ∈ ["moonshot"; "kimi"]) then "moonshot"
  else if bool_decide (n = "deepseek") then "deepseek"
  else if bool_decide (n ∈ ["gemini"; "google"]) then "google"
  else if is_empty n then "unknown" else n.

(** The vendors whose hosts are known by name. *)
Definition family_of_host (host : string) : option string :=
  if contains_str "anthropic" host then Some "anthropic"
  else if contains_str "openai.com" host then Some "openai"
  else if contains_str "x.ai" host then Some "xai"
  else if contains_str "moonshot" host then Some "moonshot"
  else if contains_str "deepseek" host then Some "deepseek"
  else if contains_str "googleapis" host || contains_str "generativelanguage" host then Some "google"
  else None.

Definition family_from_record (base_url model : option string) : option string :=
  match declared base_url with
  | Some url =>
      let host := to_ascii_lowercase url in
      match family_of_host host with
      | Some fam => Some fam
      | None =>
          if is_local_host host then Some (default "local" (family_from_model model))
          else Some (default (normalize_base_url (Some url)) (family_from_model model))
      end
  | None => family_from_model model
  end.

Definition provider_family (base_url model : option string) (adapter_name : string) : string :=
  default (family_from_name adapter_name) (family_from_record base_url model).

Definition provider_kind (base_url model : option string) (adapter_name : string) : string :=
  match declared base_url with
  | Some url =>
      let host := to_ascii_lowercase url in
      match family_of_host host with
      | Some fam => fam
      | None => if is_local_host host then "local" else host
      end
  | None => default (family_from_name adapter_name) (family_from_model model)
  end.

Definition resolve_endpoint_tuple (adapters : adapters_config) (seat : string) : endpoint_tuple :=
  let base_url := adapter_of adapters seat ≫= ae_base_url in
  let model := adapter_of adapters seat ≫= ae_default_model in
  EndpointTuple (provider_kind base_url model seat) (normalize_base_url base_url)
    (provider_family base_url model seat).

Definition is_named_vendor (family : string) : bool :=
  bool_decide (family ∈ ["anthropic"; "openai"; "xai"; "moonshot"; "deepseek"; "google"]).

Definition endpoint_is_derived (adapters : adapters_config) (seat : string) : bool :=
  match family_from_record (adapter_of adapters seat ≫= ae_base_url)
          (adapter_of adapters seat ≫= ae_default_model) with
  | Some _ => true
  | None => is_named_vendor (family_from_name seat)
  end.

(** ** The adapter and the model of a dispatch *)

Inductive model_composition : Type :=
| Coherent (family : string)
| Incoherent (adapter_family model_family : string)
| NotChecked (unnamed_family : string).

Definition is_refusal (c : model_composition) : bool :=
  match c with Incoherent _ _ => true | _ => false end.

(** The reason of [NotChecked] names the family that is no named vendor. *)
Definition classify_model_composition (adapters : adapters_config) (adapter_name model : string) :
    model_composition :=
  let base_url := adapter_of adapters adapter_name ≫= ae_base_url in
  let adapter_family := provider_family base_url None adapter_name in
  let model_family := default "unknown" (family_from_model (Some model)) in
  if negb (is_named_vendor adapter_family) then NotChecked adapter_family
  else if negb (is_named_vendor model_family) then NotChecked model_family
  else if decide (adapter_family = model_family) then Coherent adapter_family
  else Incoherent adapter_family model_family.

(** ** The requirements against the adapters *)

Inductive downgrade_violation : Type :=
| EndpointCollapse (members : list string) (tuple : endpoint_tuple)
| BelowFloor (distinct : nat) (families : list string) (min : N).

Definition required_seats (r : provider_requirement_set) : list string :=
  btree_iter (list_to_set (additional_readers r ++ additional_falsifiers r)).

(** The seats by their endpoint, in the order of the endpoints. *)
Definition endpoint_key (e : endpoint_tuple) : string * (string * string) :=
  (ep_provider e, (ep_base_url e, ep_family e)).
Definition endpoint_of_key (k : string * (string * string)) : endpoint_tuple :=
  EndpointTuple k.1 k.2.1 k.2.2.

Definition by_tuple (adapters : adapters_config) (seats : list string) :
    list (endpoint_tuple * list string) :=
  (λ k, (endpoint_of_key k,
         filter (λ s, endpoint_key (resolve_endpoint_tuple adapters s) = k) seats)) <$>
  btree_iter (list_to_set ((λ s, endpoint_key (resolve_endpoint_tuple adapters s)) <$> seats)).

Definition requirement_downgrade_violations (b : provider_bias_config) (adapters : adapters_config) :
    list downgrade_violation :=
  let e := effective_requirements b in
  let seats := required_seats e in
  if bool_decide (seats = []) && negb (is_some (min_distinct_provider_endpoints e)) then [] else
  let groups := by_tuple adapters seats in
  omap (λ g, if decide (1 < length g.2) then Some (EndpointCollapse g.2 g.1) else None) groups ++
  match min_distinct_provider_endpoints e with
  | Some min =>
      if decide (length groups < N.to_nat min)
      then [BelowFloor (length groups) (btree_iter (list_to_set (ep_family ∘ fst <$> groups))) min]
      else []
  | None => []
  end.

(** ** What is decided *)

Definition declared_for (ds : list criticality_declaration) subject revision :
    list criticality_declaration :=
  filter (λ d, cd_subject d = subject ∧ cd_revision d = revision) ds.

Lemma level_rank_inj l l' : level_rank l = level_rank l' → l = l'.
Proof. by destruct l, l'. Qed.

(** The fold after any list of declarations. *)
Lemma effective_fold ds :
  let e := foldl effective_step (EffectiveCriticality Routine [] []) ds in
  ec_decisive e = filter (λ d, cd_level d = ec_level e) ds ∧
  (∀ d, d ∈ ds → level_rank (cd_level d) ≤ level_rank (ec_level e)) ∧
  (ec_level e = Routine ∨ ∃ d, d ∈ ds ∧ cd_level d = ec_level e).
Proof.
  induction ds as [|d ds IH] using rev_ind; cbv zeta.
  { split_and!; [done|by intros d []%elem_of_nil|by left]. }
  rewrite foldl_snoc. destruct IH as (Hd & Hle & Hl).
  set (e := foldl effective_step _ ds) in *. unfold effective_step.
  destruct (level_rank (cd_level d) ?= level_rank (ec_level e)) eqn:Hc.
  - apply Nat.compare_eq_iff, level_rank_inj in Hc. cbn. rewrite filter_app, Hd, filter_cons_True by done.
    split_and!; [done| |right; exists d; split; [set_solver|done]].
    intros d' [Hin| ->%list_elem_of_singleton]%elem_of_app; [by apply Hle|by rewrite Hc].
  - apply Nat.compare_lt_iff in Hc. cbn.
    rewrite filter_app, Hd, filter_cons_False by (intros Heq; rewrite Heq in Hc; lia).
    rewrite app_nil_r. split_and!; [done| |destruct Hl as [?|(d' & ? & ?)]; [by left|right; set_solver]].
    intros d' [Hin| ->%list_elem_of_singleton]%elem_of_app; [by apply Hle|lia].
  - apply Nat.compare_gt_iff in Hc. cbn. split_and!; [| |right; exists d; split; [set_solver|done]].
    + rewrite filter_app, filter_cons_True by done.
      rewrite (list_filter_none (λ d', cd_level d' = cd_level d) ds); [done|].
      intros d' Hin Heq. specialize (Hle _ Hin). rewrite Heq in Hle. lia.
    + intros d' [Hin| ->%list_elem_of_singleton]%elem_of_app; [specialize (Hle _ Hin); lia|lia].
Qed.

(** The level in force is the highest that was declared, whatever the order;
    what decides it are exactly the declarations of that level. *)
Theorem effective_exact ds subject revision :
  let e := effective ds subject revision in
  ec_decisive e = filter (λ d, cd_level d = ec_level e) (declared_for ds subject revision) ∧
  (∀ d, d ∈ declared_for ds subject revision → level_rank (cd_level d) ≤ level_rank (ec_level e)) ∧
  (ec_level e = Routine ∨ ∃ d, d ∈ declared_for ds subject revision ∧ cd_level d = ec_level e).
Proof. apply effective_fold. Qed.

(** ** What a profile can change *)

Definition floor_of (r : provider_requirement_set) : N := default 0%N (min_distinct_provider_endpoints r).

Definition stronger (a b : provider_requirement_set) : Prop :=
  additional_readers a ⊆ additional_readers b ∧ additional_falsifiers a ⊆ additional_falsifiers b ∧
  (floor_of a ≤ floor_of b)%N.

Lemma elem_of_union_sorted x a b : x ∈ union_sorted a b ↔ x ∈ a ∨ x ∈ b.
Proof. unfold union_sorted. rewrite elem_of_btree_iter. set_solver. Qed.

Lemma join_stronger_l a b : stronger a (join a b).
Proof.
  split_and!; [intros x; cbn; rewrite elem_of_union_sorted; tauto..|].
  unfold floor_of. cbn. destruct (min_distinct_provider_endpoints a), (min_distinct_provider_endpoints b); cbn; lia.
Qed.

Lemma join_stronger_r a b : stronger b (join a b).
Proof.
  split_and!; [intros x; cbn; rewrite elem_of_union_sorted; tauto..|].
  unfold floor_of. cbn. destruct (min_distinct_provider_endpoints a), (min_distinct_provider_endpoints b); cbn; lia.
Qed.

#[export] Instance stronger_preorder : PreOrder stronger.
Proof.
  split; [intros a; by split_and!|]. intros a b c (? & ? & ?) (? & ? & ?).
  split_and!; [set_solver..|lia].
Qed.

Lemma join_all_stronger a l : stronger a (foldl join a l).
Proof.
  revert a. induction l as [|b l IH]; intros a; cbn; [done|].
  etransitivity; [apply join_stronger_l|apply IH].
Qed.

(** No profile takes anything away from what the project requires. *)
Theorem requirements_add_only b name profile :
  stronger (pb_baseline b) (effective_requirements b) ∧
  stronger (effective_requirements b)
    (effective_requirements (ProviderBiasConfig (pb_baseline b) (pb_profiles b ++ [(name, profile)]))).
Proof.
  unfold effective_requirements. split.
  - etransitivity; [apply join_stronger_r|apply join_all_stronger].
  - cbn. rewrite fmap_app, foldl_app. apply join_stronger_l.
Qed.

(** A host is matched by substrings, so that a host whose name ends in [x.ai]
    is taken for xAI. *)
Example host_substring :
  provider_family (Some "https://api.matrix.ai/v1") None "reader" = "xai".
Proof. by vm_compute. Qed.
