(* ===== verification/Committee.v ===== *)
(** The review committee of [crates/cosmon-core/src/committee.rs]: the
    adversarial contract of a seat and its digest, the roster with its two
    witnesses and its floor of distinct families, the delivered jury, and the
    fold of the seats' verdicts. *)
From stdpp Require Import prelude gmap sets strings list pretty.
From Stdlib Require Import Ascii.
From S2P Require Import Prelude Text Diversity.

(** ** The contract *)

Definition adversarial_briefing_version : N := 1.

Definition rule_line : string := "---".

Definition version_line (version : N) : string := "- **contract-version:** " +:+ pretty version.
Definition hash_line (contract_hash : string) : string := "- **contract-hash:** " +:+ contract_hash.

Definition header_text : list string :=
  ["# Committee posture (adversarial contract)"; "";
   "<!-- This file is DURABLE and regeneration-stable. `cs evolve` does NOT";
   "rewrite it; the per-step `briefing.md` only points here. Editing or";
   "deleting it breaks the seat's persona witness. -->"; ""].

Definition header_lines (version : N) (contract_hash : string) : list string :=
  header_text ++ [version_line version; hash_line contract_hash; ""].

Definition render_committee_posture (version : N) (contract_hash body : string) : string :=
  unlines (header_lines version contract_hash ++ [rule_line; ""]) +:+ body +:+ nl.

Record posture_contract := PostureContract {
  po_version : N;
  po_contract_hash : string;
  po_body : string;
}.

(** The lines before and after the first rule. *)
Fixpoint cut_at_rule (l : list string) : option (list string * list string) :=
  match l with
  | [] => None
  | x :: l =>
      if decide (trim x = rule_line) then Some ([], l)
      else '(m, b) ← cut_at_rule l; Some (x :: m, b)
  end.

Definition split_at_header_rule (text : string) : option (string * string) :=
  '(m, b) ← cut_at_rule (lines text); Some (unlines m, unlines b).

Definition field_of_line (name line : string) : option string :=
  rest ← strip_prefix "- **" (trim line);
  rest ← strip_prefix name rest;
  v ← strip_prefix ":**" rest;
  Some (trim v).

Definition posture_field (metadata name : string) : option string :=
  head (omap (field_of_line name) (lines metadata)).

Definition is_posture_metadata_line (line : string) : bool :=
  match strip_prefix "- **" (trim line) with Some rest => contains_str ":**" rest | None => false end.

Definition says_something (body : string) : bool :=
  existsb (λ l, negb (is_empty (trim l)) && negb (is_posture_metadata_line l)) (lines body).

Definition parse_committee_posture (text : string) : option posture_contract :=
  '(metadata, body) ← split_at_header_rule text;
  version ← posture_field metadata "contract-version" ≫= parse_unsigned u32_max;
  contract_hash ← posture_field metadata "contract-hash";
  if is_empty contract_hash then None else
  let body := trim body in
  if says_something body then Some (PostureContract version contract_hash body) else None.

(** ** Its digest *)

Definition contract_digest_input (body : string) : string := trim body +:+ nl.

(** The digests in hexadecimal. *)
Class Digests := {
  blake3_hex : string → string;
  sha256_hex : string → string;
  blake2b_hex : string → string;
}.

Definition supported_contract_digests : list string := ["blake3"; "sha256"; "blake2b-256"].

Definition digest_with `{Digests} (algorithm bytes : string) : option string :=
  if decide (algorithm = "blake3") then Some (blake3_hex bytes)
  else if decide (algorithm = "sha256") then Some (sha256_hex bytes)
  else if decide (algorithm = "blake2b-256") then Some (blake2b_hex bytes)
  else None.

Definition is_hex64 (s : string) : bool :=
  bool_decide (String.length s = 64) && all_chars is_ascii_hexdigit s.

Definition committee_contract_hash `{Digests} (body : string) : string :=
  "blake3:" +:+ blake3_hex (contract_digest_input body).

(** Why a hash is refused. *)
Inductive forged_reason : Type :=
| NoDigestOfTheBody
| NotHex64 (algorithm : string) (length : nat)
| NotTheDigest (algorithm : string).

Inductive contract_hash_verdict : Type :=
| Verified (algorithm : string)
| Forged (why : forged_reason)
| Unverifiable (names_algorithm : bool).

Definition refusal_of (v : contract_hash_verdict) : bool :=
  match v with Verified _ => false | _ => true end.

Definition named_algorithm (prefix : string) : option string :=
  last (omap (λ token, head (filter (λ a, a = to_ascii_lowercase (trim token)) supported_contract_digests))
             (split_on ":"%char prefix)).

Definition verify_contract_hash `{Digests} (declared body : string) : contract_hash_verdict :=
  let bytes := contract_digest_input body in
  let declared := trim declared in
  let '(prefix, hex) := default ("", declared) (rsplit_once ":"%char declared) in
  let hex := to_ascii_lowercase (trim hex) in
  if is_empty prefix then
    if negb (is_hex64 hex) then Unverifiable false else
    match filter (λ a, digest_with a bytes = Some hex) supported_contract_digests with
    | algorithm :: _ => Verified algorithm
    | [] => Forged NoDigestOfTheBody
    end
  else
    match named_algorithm prefix with
    | None => Unverifiable true
    | Some algorithm =>
        if negb (is_hex64 hex) then Forged (NotHex64 algorithm (String.length hex))
        else if decide (digest_with algorithm bytes = Some hex) then Verified algorithm
        else Forged (NotTheDigest algorithm)
    end.

(** ** Seats *)

Record observed_delivery := ObservedDelivery {
  posture_file_exists : bool;
  od_posture : option posture_contract;
  od_pointer : bool;
}.

Inductive seat_role : Set := Generator | Refuter.

Record family_witness := FamilyWitness { fw_endpoint : endpoint_tuple; fw_model : option string }.

(** [FamilyWitness::resolve] *)
Definition family_resolve (adapters : adapters_config) (seat : string) : family_witness :=
  FamilyWitness (resolve_endpoint_tuple adapters seat) (adapter_of adapters seat ≫= ae_default_model).

Record adversarial_briefing := AdversarialBriefing {
  ab_version : N;
  ab_contract_hash : string;
  injected : bool;
}.

Definition from_durable_injection (version : N) (contract_hash : string)
    (posture_contract_delivered briefing_references_posture : bool) : adversarial_briefing :=
  AdversarialBriefing version contract_hash (posture_contract_delivered && briefing_references_posture).

Definition briefing_is_valid (b : adversarial_briefing) : bool :=
  bool_decide (ab_version b = adversarial_briefing_version) &&
  negb (is_empty (trim (ab_contract_hash b))) && injected b.

Record persona_witness := PersonaWitness {
  pw_role_id : string;
  pw_briefing : option adversarial_briefing;
  falsification_artifact : option string;
}.

Definition briefing_ok (p : persona_witness) : bool :=
  match pw_briefing p with Some b => briefing_is_valid b | None => false end.
Definition artifact_ok (p : persona_witness) : bool :=
  match falsification_artifact p with Some a => negb (is_empty (trim a)) | None => false end.

(** [PersonaWitness::is_complete] *)
Definition persona_is_complete (p : persona_witness) : bool := briefing_ok p && artifact_ok p.

Record seat_candidate := SeatCandidate {
  sc_seat_id : string;
  sc_role : seat_role;
  sc_adapter : option string;
  sc_family : family_witness;
  sc_persona : persona_witness;
  sc_replaced_seat_id : option string;
  sc_replacement_reason : option string;
}.

Definition endpoint_of (s : seat_candidate) : endpoint_tuple := fw_endpoint (sc_family s).
Definition role_of (s : seat_candidate) : string := pw_role_id (sc_persona s).

Inductive seat_rejection : Type :=
| FamilyCollision (endpoint : endpoint_tuple) (collides_with : string)
| PersonaCollision (role_id collides_with : string)
| BriefingNotInjected
| FalsificationArtifactMissing.

Definition rejection_label (r : seat_rejection) : string :=
  match r with
  | FamilyCollision _ _ => "family-collision"
  | PersonaCollision _ _ => "persona-collision"
  | BriefingNotInjected => "briefing-not-injected"
  | FalsificationArtifactMissing => "falsification-artifact-missing"
  end.

Definition witness_axis (r : seat_rejection) : nat :=
  match r with FamilyCollision _ _ => 1 | _ => 2 end.

Definition is_delivery (r : seat_rejection) : bool :=
  match r with BriefingNotInjected | FalsificationArtifactMissing => true | _ => false end.

Record admitted_seat := AdmittedSeat {
  as_seat_id : string;
  as_endpoint : endpoint_tuple;
  as_model : option string;
  as_role_id : string;
}.

Record rejected_seat := RejectedSeat {
  rs_seat_id : string;
  rs_reason : seat_rejection;
  rs_endpoint : endpoint_tuple;
}.

(** ** The roster *)

Record committee_requirement := CommitteeRequirement {
  required : bool;
  min_distinct_families : nat;
}.

(** [committee_requirement] *)
Definition committee_requirement_of (level : criticality_level) (bias : provider_bias_config)
    (cross_provider : bool) : committee_requirement :=
  let stake_floor := match level with Routine | Root => 2 | Security | Max => 3 end in
  let config_floor :=
    match min_distinct_provider_endpoints (effective_requirements bias) with
    | Some n => N.to_nat n
    | None => 0
    end in
  CommitteeRequirement cross_provider (if cross_provider then stake_floor `max` config_floor else 0).

Record roster_plan := RosterPlan {
  rp_requirement : committee_requirement;
  rp_generator : admitted_seat;
  rp_admitted : list admitted_seat;
  rp_rejected : list rejected_seat;
  rp_floor_met : bool;
  rp_floor_reachable : bool;
}.

Definition admissible_seat_ids (p : roster_plan) : list string := as_seat_id <$> rp_admitted p.

Definition seat_family (s : admitted_seat) : string := ep_family (as_endpoint s).

Definition admitted_families (g : admitted_seat) (l : list admitted_seat) : gset string :=
  {[ seat_family g ]} ∪ list_to_set (seat_family <$> l).

(** Of the seats that are rejected for their papers only. *)
Definition delivery_families (l : list rejected_seat) : gset string :=
  list_to_set ((λ r, ep_family (rs_endpoint r)) <$> filter (λ r, is_delivery (rs_reason r)) l).

Definition distinct_families (p : roster_plan) : nat :=
  size (admitted_families (rp_generator p) (rp_admitted p)).

Definition reachable_families (p : roster_plan) : nat :=
  size (admitted_families (rp_generator p) (rp_admitted p) ∪ delivery_families (rp_rejected p)).

Definition floor_bearing_seats (p : roster_plan) : list string :=
  if required (rp_requirement p) then
    as_seat_id <$>
    filter (λ c, size (admitted_families (rp_generator p)
                   (filter (λ s, as_seat_id s ≠ as_seat_id c) (rp_admitted p)))
                 < min_distinct_families (rp_requirement p)) (rp_admitted p)
  else [].

Definition floor_is_single_point_of_failure (p : roster_plan) : bool :=
  rp_floor_met p && negb (bool_decide (floor_bearing_seats p = [])).

(** The loop of [plan_committee]. *)
Record planning := Planning {
  seen_endpoints : gmap endpoint_tuple string;
  seen_roles : gmap string string;
  pl_admitted : list admitted_seat;
  pl_rejected : list rejected_seat;
}.

Definition admit_as (s : seat_candidate) : admitted_seat :=
  AdmittedSeat (sc_seat_id s) (endpoint_of s) (fw_model (sc_family s)) (role_of s).

Definition reject_as (s : seat_candidate) (r : seat_rejection) : rejected_seat :=
  RejectedSeat (sc_seat_id s) r (endpoint_of s).

(** The first witness that fails. *)
Definition rejection (st : planning) (s : seat_candidate) : option seat_rejection :=
  match seen_endpoints st !! endpoint_of s with
  | Some other => Some (FamilyCollision (endpoint_of s) other)
  | None =>
      match seen_roles st !! role_of s with
      | Some other => Some (PersonaCollision (role_of s) other)
      | None =>
          if negb (briefing_ok (sc_persona s)) then Some BriefingNotInjected
          else if negb (artifact_ok (sc_persona s)) then Some FalsificationArtifactMissing
          else None
      end
  end.

Definition plan_step (st : planning) (s : seat_candidate) : planning :=
  match rejection st s with
  | Some r =>
      Planning (seen_endpoints st) (seen_roles st) (pl_admitted st) (pl_rejected st ++ [reject_as s r])
  | None =>
      Planning (<[endpoint_of s := sc_seat_id s]> (seen_endpoints st))
        (<[role_of s := sc_seat_id s]> (seen_roles st)) (pl_admitted st ++ [admit_as s]) (pl_rejected st)
  end.

Definition plan_start (g : seat_candidate) : planning :=
  Planning {[ endpoint_of g := sc_seat_id g ]} {[ role_of g := sc_seat_id g ]} [] [].

Definition plan_committee (g : seat_candidate) (refuters : list seat_candidate)
    (req : committee_requirement) : roster_plan :=
  let st := foldl plan_step (plan_start g) refuters in
  let p := RosterPlan req (admit_as g) (pl_admitted st) (pl_rejected st) false false in
  RosterPlan req (admit_as g) (pl_admitted st) (pl_rejected st)
    (negb (required req) || bool_decide (min_distinct_families req ≤ distinct_families p))
    (negb (required req) || bool_decide (min_distinct_families req ≤ reachable_families p)).

Definition sor_may_not_resurrect (p : roster_plan) (candidate_seat_id : string) : bool :=
  existsb (λ s, bool_decide (as_seat_id s = candidate_seat_id)) (rp_admitted p).

(** ** Verdicts *)

Inductive seat_verdict : Set := VConfirmed | VRefuted | VInconclusive.
Inductive seat_delivery : Set := Delivered | ProviderRefusal | DStalled | NotDispatched.

#[export] Instance seat_verdict_eq_dec : EqDecision seat_verdict.
Proof. solve_decision. Defined.
#[export] Instance seat_delivery_eq_dec : EqDecision seat_delivery.
Proof. solve_decision. Defined.

Definition delivered (d : seat_delivery) : bool := match d with Delivered => true | _ => false end.

Record seat_outcome := SeatOutcome {
  so_seat_id : string;
  so_verdict : seat_verdict;
  so_falsifier_red : bool;
  so_delivery : seat_delivery;
  so_realized_endpoint : option endpoint_tuple;
  so_realized_model : option string;
  so_switched_after_dispatch : bool;
}.

Inductive committee_verdict : Set := Confirmed | Refuted | Inconclusive.

#[export] Instance committee_verdict_eq_dec : EqDecision committee_verdict.
Proof. solve_decision. Defined.

Definition is_red (o : seat_outcome) : bool := bool_decide (so_verdict o = VRefuted) || so_falsifier_red o.

(** [committee_verdict] *)
Definition committee_verdict_of (outcomes : list seat_outcome) : committee_verdict :=
  if existsb is_red outcomes then Refuted
  else if bool_decide (0 < length outcomes) &&
          forallb (λ o, bool_decide (so_verdict o = VConfirmed) && negb (so_falsifier_red o)) outcomes
       then Confirmed else Inconclusive.

Inductive mechanism_polarity : Set := Defect | Fix.
Inductive converge_verdict : Set := Clean | Findings | CInconclusive.

#[export] Instance converge_verdict_eq_dec : EqDecision converge_verdict.
Proof. solve_decision. Defined.

Definition polarity_parse (raw : string) : option mechanism_polarity :=
  let w := to_ascii_lowercase (trim raw) in
  if decide (w = "defect") then Some Defect else if decide (w = "fix") then Some Fix else None.

Definition converge_parse (raw : string) : option converge_verdict :=
  let w := to_ascii_uppercase (trim raw) in
  if decide (w = "CLEAN") then Some Clean
  else if decide (w = "FINDINGS") then Some Findings
  else if decide (w = "INCONCLUSIVE") then Some CInconclusive else None.

Definition seat_verdict_parse (raw : string) : option seat_verdict :=
  let w := to_ascii_lowercase (trim raw) in
  if decide (w = "confirmed") then Some VConfirmed
  else if decide (w = "refuted") then Some VRefuted
  else if decide (w = "inconclusive") then Some VInconclusive else None.

Definition from_report_line (line : string) : option converge_verdict :=
  rest ← strip_prefix "VERDICT:" (trim line);
  converge_parse (default EmptyString (head (split_on "("%char rest))).

Definition map_through_polarity (p : mechanism_polarity) (v : seat_verdict) : converge_verdict :=
  match p, v with
  | Fix, VConfirmed | Defect, VRefuted => Clean
  | Fix, VRefuted | Defect, VConfirmed => Findings
  | _, VInconclusive => CInconclusive
  end.

Record seat_emission := SeatEmission {
  em_seat_id : string;
  em_mechanism_polarity : option mechanism_polarity;
  em_verdict : option seat_verdict;
  em_reported : option converge_verdict;
}.

Inductive seat_reading_refusal : Type :=
| NoVerdict
| MissingPolarity
| NoReport
| IncoherentFiles (implied reported : converge_verdict).

Definition read_seat_emission (e : seat_emission) : result seat_reading_refusal converge_verdict :=
  match em_reported e with
  | None => Err NoReport
  | Some reported =>
      match em_verdict e with
      | None => Ok reported
      | Some verdict =>
          match em_mechanism_polarity e with
          | None => Err MissingPolarity
          | Some polarity =>
              let implied := map_through_polarity polarity verdict in
              if decide (implied = reported) then Ok implied else Err (IncoherentFiles implied reported)
          end
      end
  end.

Record round_reading := RoundReading {
  rr_clean : bool;
  rr_readings : list (string * converge_verdict);
  rr_refusals : list (string * seat_reading_refusal);
}.

Definition read_converge_round (emissions : list seat_emission) : round_reading :=
  let readings := omap (λ e, match read_seat_emission e with
                             | Ok v => Some (em_seat_id e, v) | Err _ => None end) emissions in
  let refusals := omap (λ e, match read_seat_emission e with
                             | Err r => Some (em_seat_id e, r) | Ok _ => None end) emissions in
  RoundReading
    (bool_decide (0 < length emissions) && bool_decide (length refusals = 0) &&
     forallb (λ r, bool_decide (r.2 = Clean)) readings) readings refusals.

(** ** The jury that sat *)

Record seat_drift := SeatDrift {
  sd_seat_id : string;
  sd_specified : endpoint_tuple;
  sd_realized : option endpoint_tuple;
  sd_specified_model : option string;
  sd_realized_model : option string;
  human_switch : bool;
}.

Record seat_non_delivery := SeatNonDelivery { nd_seat_id : string; nd_delivery : seat_delivery }.

Record jury_integrity := JuryIntegrity {
  required_families : nat;
  delivered_families : nat;
  ji_floor_met : bool;
  non_delivering : list seat_non_delivery;
  drift : list seat_drift;
  unobserved : list string;
}.

Definition is_intact (j : jury_integrity) : bool :=
  ji_floor_met j && bool_decide (length (non_delivering j) = 0) &&
  bool_decide (length (unobserved j) = 0) && bool_decide (length (drift j) = 0).

(** [by_seat]: of several outcomes of a seat, the last. *)
Definition outcome_of (outcomes : list seat_outcome) (seat : string) : option seat_outcome :=
  last (filter (λ o, so_seat_id o = seat) outcomes).

Definition seat_drift_of (s : admitted_seat) (o : seat_outcome) : option seat_drift :=
  let endpoint_moved :=
    match so_realized_endpoint o with Some e => negb (bool_decide (e = as_endpoint s)) | None => false end in
  let model_moved :=
    match so_realized_model o with Some m => negb (bool_decide (Some m = as_model s)) | None => false end in
  if endpoint_moved || model_moved || so_switched_after_dispatch o then
    Some (SeatDrift (as_seat_id s) (as_endpoint s) (so_realized_endpoint o) (as_model s)
            (so_realized_model o) (so_switched_after_dispatch o))
  else None.

Record jury := Jury {
  ju_non_delivering : list seat_non_delivery;
  ju_drift : list seat_drift;
  ju_unobserved : list string;
  ju_families : gset string;
}.

Definition option_list {A} (o : option A) : list A := match o with Some a => [a] | None => [] end.

Definition jury_start (p : roster_plan) (outcomes : list seat_outcome) : jury :=
  let g := rp_generator p in
  let o := outcome_of outcomes (as_seat_id g) in
  let d := option_list (o ≫= seat_drift_of g) in
  match o ≫= so_realized_endpoint with
  | Some realized => Jury [] d [] {[ ep_family realized ]}
  | None => Jury [] d [as_seat_id g] ∅
  end.

Definition jury_step (outcomes : list seat_outcome) (j : jury) (s : admitted_seat) : jury :=
  match outcome_of outcomes (as_seat_id s) with
  | None =>
      Jury (ju_non_delivering j ++ [SeatNonDelivery (as_seat_id s) NotDispatched]) (ju_drift j)
        (ju_unobserved j) (ju_families j)
  | Some o =>
      if negb (delivered (so_delivery o)) then
        Jury (ju_non_delivering j ++ [SeatNonDelivery (as_seat_id s) (so_delivery o)]) (ju_drift j)
          (ju_unobserved j) (ju_families j)
      else
        let d := ju_drift j ++ option_list (seat_drift_of s o) in
        match so_realized_endpoint o with
        | None => Jury (ju_non_delivering j) d (ju_unobserved j ++ [as_seat_id s]) (ju_families j)
        | Some realized =>
            Jury (ju_non_delivering j) d (ju_unobserved j) ({[ ep_family realized ]} ∪ ju_families j)
        end
  end.

Definition jury_integrity_of (p : roster_plan) (outcomes : list seat_outcome) : jury_integrity :=
  let j := foldl (jury_step outcomes) (jury_start p outcomes) (rp_admitted p) in
  let req := rp_requirement p in
  JuryIntegrity (min_distinct_families req) (size (ju_families j))
    (negb (required req) || bool_decide (min_distinct_families req ≤ size (ju_families j)))
    (ju_non_delivering j) (ju_drift j) (ju_unobserved j).

Record committee_fold := CommitteeFold { cf_verdict : committee_verdict; cf_integrity : jury_integrity }.

Definition fold_committee (p : roster_plan) (outcomes : list seat_outcome) : committee_fold :=
  let integrity := jury_integrity_of p outcomes in
  if existsb is_red outcomes then CommitteeFold Refuted integrity
  else
    let door := committee_verdict_of (filter (λ o, delivered (so_delivery o)) outcomes) in
    CommitteeFold (if bool_decide (door = Confirmed) && negb (is_intact integrity)
                   then Inconclusive else door) integrity.

(** ** The declared roster *)

Record roster_spec := RosterSpec {
  ro_stake : criticality_level;
  ro_cross_provider : bool;
  ro_generator : seat_candidate;
  ro_refuters : list seat_candidate;
}.

Definition spec_plan (r : roster_spec) (bias : provider_bias_config) : roster_plan :=
  plan_committee (ro_generator r) (ro_refuters r)
    (committee_requirement_of (ro_stake r) bias (ro_cross_provider r)).

(** The generator first. *)
Definition seats (r : roster_spec) : list seat_candidate := ro_generator r :: ro_refuters r.

Definition with_briefing (s : seat_candidate) (b : adversarial_briefing) : seat_candidate :=
  SeatCandidate (sc_seat_id s) (sc_role s) (sc_adapter s) (sc_family s)
    (PersonaWitness (role_of s) (Some b) (falsification_artifact (sc_persona s)))
    (sc_replaced_seat_id s) (sc_replacement_reason s).

Definition with_family (s : seat_candidate) (f : family_witness) : seat_candidate :=
  SeatCandidate (sc_seat_id s) (sc_role s) (sc_adapter s) f (sc_persona s) (sc_replaced_seat_id s)
    (sc_replacement_reason s).

(** The lines of a refusal, by what they say. *)
Inductive posture_fault : Type :=
| HashDoesNotHold (v : contract_hash_verdict)
| NotTheContract (found_version : N) (found_hash : string) (version : N) (hash : string)
| NotAContract
| PostureMissing.

Inductive roster_violation : Type :=
| NoDirectory (seat : string)
| DeliveryContradicted (seat : string) (fault : option posture_fault) (pointer : bool)
| NoAdapter (seat : string) (declared : endpoint_tuple)
| GhostAdapter (seat name : string) (declared : endpoint_tuple)
| UnresolvableAdapter (seat name : string) (declared : endpoint_tuple)
| EndpointMismatch (seat name : string) (declared resolved : endpoint_tuple)
| FailsWitness (seat : string) (reason : seat_rejection)
| UnreachableFloor (reached floor : nat) (stake : criticality_level) (generator : string) (refuters : nat)
| StillSeatedBeside (seat by_ : string)
| CollapsedSeat (seat : string)
| EmptyReplaced (seat : string)
| NoReplacementReason (seat replaced : string)
| ReplacesItself (seat : string).

Definition posture_fault_of `{Digests} (observed : observed_delivery) (claimed : adversarial_briefing) :
    option posture_fault :=
  match od_posture observed with
  | Some found =>
      if decide (po_version found = ab_version claimed ∧ po_contract_hash found = ab_contract_hash claimed)
      then let v := verify_contract_hash (po_contract_hash found) (po_body found) in
           if refusal_of v then Some (HashDoesNotHold v) else None
      else Some (NotTheContract (po_version found) (po_contract_hash found) (ab_version claimed)
                   (ab_contract_hash claimed))
  | None => if posture_file_exists observed then Some NotAContract else Some PostureMissing
  end.

(** A seat after its delivery is observed, and what contradicts its claim. *)
Definition observe_seat `{Digests} (observe : string → option observed_delivery) (s : seat_candidate) :
    seat_candidate * list roster_violation :=
  match pw_briefing (sc_persona s) with
  | None => (s, [])
  | Some claimed =>
      match observe (sc_seat_id s) with
      | None =>
          if injected claimed then
            (with_briefing s (from_durable_injection (ab_version claimed) (ab_contract_hash claimed) false false),
             [NoDirectory (sc_seat_id s)])
          else (s, [])
      | Some observed =>
          let fault := posture_fault_of observed claimed in
          let derived := from_durable_injection (ab_version claimed) (ab_contract_hash claimed)
                           (negb (is_some fault)) (od_pointer observed) in
          (with_briefing s derived,
           if injected claimed && negb (injected derived)
           then [DeliveryContradicted (sc_seat_id s) fault (od_pointer observed)] else [])
      end
  end.

Definition map_seats (r : roster_spec) (f : seat_candidate → seat_candidate * list roster_violation) :
    roster_spec * list roster_violation :=
  (RosterSpec (ro_stake r) (ro_cross_provider r) (f (ro_generator r)).1 (fst ∘ f <$> ro_refuters r),
   (f (ro_generator r)).2 ++ concat (snd ∘ f <$> ro_refuters r)).

Definition with_observed_delivery `{Digests} (r : roster_spec)
    (observe : string → option observed_delivery) : roster_spec * list roster_violation :=
  map_seats r (observe_seat observe).

Definition built_in_adapter_names : list string :=
  ["claude"; "aider"; "codex"; "opencode"; "agy"; "openai"; "anthropic"; "llama-cpp"; "llama"; "local";
   "ollama"].

Definition resolve_seat (adapters : adapters_config) (s : seat_candidate) :
    seat_candidate * list roster_violation :=
  match sc_adapter s with
  | None => (s, [NoAdapter (sc_seat_id s) (endpoint_of s)])
  | Some name =>
      if negb (bool_decide (name ∈ built_in_adapter_names)) && negb (is_some (adapter_of adapters name))
      then (s, [GhostAdapter (sc_seat_id s) name (endpoint_of s)])
      else if negb (endpoint_is_derived adapters name)
      then (s, [UnresolvableAdapter (sc_seat_id s) name (endpoint_of s)])
      else
        let resolved := family_resolve adapters name in
        (with_family s resolved,
         if decide (fw_endpoint resolved = endpoint_of s) then []
         else [EndpointMismatch (sc_seat_id s) name (endpoint_of s) (fw_endpoint resolved)])
  end.

Definition resolved_spec (r : roster_spec) (adapters : adapters_config) :
    roster_spec * list roster_violation := map_seats r (resolve_seat adapters).

(** [RosterSpec::report] *)
Inductive advisory : Type :=
| NotOnTheBallot (seat : string) (reason : seat_rejection) (floor : nat)
| SinglePointOfFailure (bearing : list string).

Record roster_report := RosterReport { refusals : list roster_violation; advisories : list advisory }.

Definition is_echo (p : roster_plan) (r : rejected_seat) : bool :=
  match rs_reason r with FamilyCollision _ _ => rp_floor_reachable p | _ => false end.

Definition report (r : roster_spec) (bias : provider_bias_config) (adapters : adapters_config) :
    roster_report :=
  let '(resolved, out) := resolved_spec r adapters in
  let p := spec_plan resolved bias in
  let floor := min_distinct_families (rp_requirement p) in
  RosterReport
    (out ++
     omap (λ s, if is_echo p s then None else Some (FailsWitness (rs_seat_id s) (rs_reason s)))
       (rp_rejected p) ++
     (if rp_floor_reachable p then []
      else [UnreachableFloor (reachable_families p) floor (ro_stake r) (as_seat_id (rp_generator p))
              (length (rp_admitted p) + length (filter (λ s, is_delivery (rs_reason s)) (rp_rejected p)))]))
    (omap (λ s, if is_echo p s then Some (NotOnTheBallot (rs_seat_id s) (rs_reason s) floor) else None)
       (rp_rejected p) ++
     (if floor_is_single_point_of_failure p then [SinglePointOfFailure (floor_bearing_seats p)] else [])).

Definition roster_violations (r : roster_spec) (bias : provider_bias_config) (adapters : adapters_config) :
    list roster_violation := refusals (report r bias adapters).

(** [RosterSpec::reconvocation_violations] *)
Definition replacements (r : roster_spec) : list (string * string) :=
  omap (λ s, old ← sc_replaced_seat_id s; Some (sc_seat_id s, old)) (seats r).

Definition seat_reconvocation (r : roster_spec) (seat_collapsed : string → bool) (s : seat_candidate) :
    list roster_violation :=
  (if seat_collapsed (sc_seat_id s) then
     match filter (λ x, x.2 = sc_seat_id s) (replacements r) with
     | (by_, _) :: _ => [StillSeatedBeside (sc_seat_id s) by_]
     | [] => [CollapsedSeat (sc_seat_id s)]
     end
   else []) ++
  match sc_replaced_seat_id s with
  | None => []
  | Some old =>
      (if is_empty (trim old) then [EmptyReplaced (sc_seat_id s)] else []) ++
      (if match sc_replacement_reason s with Some r => is_empty (trim r) | None => true end
       then [NoReplacementReason (sc_seat_id s) old] else []) ++
      (if decide (old = sc_seat_id s) then [ReplacesItself (sc_seat_id s)] else [])
  end.

Definition reconvocation_violations (r : roster_spec) (seat_collapsed : string → bool) :
    list roster_violation := concat (seat_reconvocation r seat_collapsed <$> seats r).

(** ** The pin of the reviewed tree *)

Inductive reviewed_tree_resolution : Type :=
| NotPinned
| Resolved (start_point tree : string)
| Unreadable (pin : string)
| Unsatisfiable (pin : string) (offered : list (string * string)).

Definition min_reviewed_tree_pin : nat := 7.

Definition readable_pin (pin : string) : bool :=
  bool_decide (min_reviewed_tree_pin ≤ String.length pin) && bool_decide (String.length pin ≤ 40) &&
  all_chars is_ascii_hexdigit pin.

(** The first base whose tree starts with the pin. *)
Fixpoint base_of (pin : string) (bases : list (string * string)) : option (string * string) :=
  match bases with
  | [] => None
  | b :: rest => if starts_with pin (to_ascii_lowercase b.2) then Some b else base_of pin rest
  end.

Definition resolve_reviewed_tree (pin : option string) (bases : list (string * string)) :
    reviewed_tree_resolution :=
  match trim <$> pin with
  | None => NotPinned
  | Some p =>
      if is_empty p then NotPinned
      else
        let p := to_ascii_lowercase p in
        if negb (readable_pin p) then Unreadable p
        else
          match base_of p bases with
          | Some (start_point, tree) => Resolved start_point tree
          | None => Unsatisfiable p bases
          end
  end.

(** ** What the plan promises *)

(** Why a seat is off the ballot, given the seats on it. *)
Definition justified (ballot : list admitted_seat) (s : seat_candidate) (r : seat_rejection) : Prop :=
  match r with
  | FamilyCollision e other =>
      e = endpoint_of s ∧ ∃ a, a ∈ ballot ∧ as_endpoint a = endpoint_of s ∧ as_seat_id a = other
  | PersonaCollision role other =>
      role = role_of s ∧ ∃ a, a ∈ ballot ∧ as_role_id a = role_of s ∧ as_seat_id a = other
  | BriefingNotInjected => briefing_ok (sc_persona s) = false
  | FalsificationArtifactMissing => artifact_ok (sc_persona s) = false
  end.

Record planned (g : seat_candidate) (refuters : list seat_candidate) (ad : list admitted_seat)
    (rej : list rejected_seat) : Prop := {
  pl_endpoints : NoDup (as_endpoint <$> (admit_as g :: ad));
  pl_roles : NoDup (as_role_id <$> (admit_as g :: ad));
  pl_order : sublist ad (admit_as <$> refuters);
  pl_complete : length ad + length rej = length refuters;
  pl_each s : s ∈ refuters →
    admit_as s ∈ ad ∧ persona_is_complete (sc_persona s) = true ∨
    ∃ r, reject_as s r ∈ rej ∧ justified (admit_as g :: ad) s r;
  pl_from_ad a : a ∈ ad → ∃ s, s ∈ refuters ∧ a = admit_as s ∧ persona_is_complete (sc_persona s) = true;
  pl_from_rej x : x ∈ rej → ∃ s, s ∈ refuters ∧ x = reject_as s (rs_reason x) ∧
    justified (admit_as g :: ad) s (rs_reason x);
}.

(** The seen maps are the ballot. *)
Definition seen_ok {K} `{Countable K} (key : admitted_seat → K) (m : gmap K string)
    (ballot : list admitted_seat) : Prop :=
  ∀ k, match m !! k with
       | Some id => ∃ a, a ∈ ballot ∧ key a = k ∧ as_seat_id a = id
       | None => k ∉ key <$> ballot
       end.

Lemma seen_ok_snoc {K} `{Countable K} (key : admitted_seat → K) m ballot a :
  seen_ok key m ballot → seen_ok key (<[key a := as_seat_id a]> m) (ballot ++ [a]).
Proof.
  intros Hm k. specialize (Hm k). destruct (decide (k = key a)) as [->|Hne].
  - rewrite lookup_insert_eq. exists a. set_solver.
  - rewrite lookup_insert_ne by done. destruct (m !! k).
    + destruct Hm as (b & ? & ? & ?). exists b. set_solver.
    + rewrite fmap_app. set_solver.
Qed.

Lemma justified_mono b1 b2 s r : b1 ⊆ b2 → justified b1 s r → justified b2 s r.
Proof.
  intros Hsub. destruct r; cbn; [|intros (-> & a & ? & ? & ?)..|done|done].
  - intros (-> & a & ? & ? & ?). split; [done|]. exists a. auto.
  - split; [done|]. exists a. auto.
Qed.

Lemma rejection_justified g ad st s :
  seen_ok as_endpoint (seen_endpoints st) (admit_as g :: ad) →
  seen_ok as_role_id (seen_roles st) (admit_as g :: ad) →
  match rejection st s with
  | Some r => justified (admit_as g :: ad) s r
  | None => (endpoint_of s ∉ as_endpoint <$> (admit_as g :: ad)) ∧
            (role_of s ∉ as_role_id <$> (admit_as g :: ad)) ∧
            persona_is_complete (sc_persona s) = true
  end.
Proof.
  intros He Hr. specialize (He (endpoint_of s)). specialize (Hr (role_of s)). unfold rejection.
  destruct (seen_endpoints st !! endpoint_of s); [by split|].
  destruct (seen_roles st !! role_of s); [by split|]. unfold persona_is_complete.
  destruct (briefing_ok (sc_persona s)) eqn:Hb, (artifact_ok (sc_persona s)) eqn:Ha; cbn; try done.
Qed.

Lemma planning_ok g refuters :
  let st := foldl plan_step (plan_start g) refuters in
  planned g refuters (pl_admitted st) (pl_rejected st) ∧
  seen_ok as_endpoint (seen_endpoints st) (admit_as g :: pl_admitted st) ∧
  seen_ok as_role_id (seen_roles st) (admit_as g :: pl_admitted st).
Proof.
  induction refuters as [|s l IH] using rev_ind; cbv zeta.
  { split_and!.
    - split; cbn; try apply NoDup_singleton; try done; set_solver.
    - intros k. cbn. destruct (decide (k = endpoint_of g)) as [->|?].
      + rewrite lookup_singleton_eq. exists (admit_as g). set_solver.
      + rewrite lookup_singleton_ne by done. set_solver.
    - intros k. cbn. destruct (decide (k = role_of g)) as [->|?].
      + rewrite lookup_singleton_eq. exists (admit_as g). set_solver.
      + rewrite lookup_singleton_ne by done. set_solver. }
  rewrite foldl_snoc. destruct IH as ([Hne Hnr Ho Hc Heach Hfa Hfr] & He & Hr).
  set (st := foldl plan_step (plan_start g) l) in *. unfold plan_step.
  pose proof (rejection_justified g (pl_admitted st) st s He Hr) as Hj.
  destruct (rejection st s) as [r|]; cbn [pl_admitted pl_rejected seen_endpoints seen_roles].
  - split_and!; [|done..]. split; try done.
    + rewrite fmap_app. by apply sublist_inserts_r.
    + rewrite !length_app. cbn. lia.
    + intros s' [Hin| ->%list_elem_of_singleton]%elem_of_app.
      * destruct (Heach s' Hin) as [?|(r' & ? & ?)]; [by left|right; exists r'; set_solver].
      * right. exists r. set_solver.
    + intros a Ha. destruct (Hfa a Ha) as (s' & ? & ?). exists s'. set_solver.
    + intros x [Hin| ->%list_elem_of_singleton]%elem_of_app.
      * destruct (Hfr x Hin) as (s' & ? & ?). exists s'. set_solver.
      * exists s. set_solver.
  - destruct Hj as (Hj1 & Hj2 & Hj3).
    assert (admit_as g :: pl_admitted st ⊆ admit_as g :: (pl_admitted st ++ [admit_as s])) as Hsub by set_solver.
    split_and!; [|apply (seen_ok_snoc as_endpoint _ (admit_as g :: pl_admitted st) (admit_as s) He)
                 |apply (seen_ok_snoc as_role_id _ (admit_as g :: pl_admitted st) (admit_as s) Hr)].
    split.
    + change (NoDup (as_endpoint <$> ((admit_as g :: pl_admitted st) ++ [admit_as s]))).
      rewrite fmap_app. apply NoDup_app. split_and!; [done| |apply NoDup_singleton]. cbn. set_solver.
    + change (NoDup (as_role_id <$> ((admit_as g :: pl_admitted st) ++ [admit_as s]))).
      rewrite fmap_app. apply NoDup_app. split_and!; [done| |apply NoDup_singleton]. cbn. set_solver.
    + rewrite fmap_app. by apply sublist_app.
    + rewrite !length_app. cbn. lia.
    + intros s' [Hin| ->%list_elem_of_singleton]%elem_of_app.
      * destruct (Heach s' Hin) as [[? ?]|(r' & ? & ?)]; [left; set_solver|right; exists r'].
        split; [done|]. by eapply justified_mono.
      * left. set_solver.
    + intros a [Hin| ->%list_elem_of_singleton]%elem_of_app.
      * destruct (Hfa a Hin) as (s' & ? & ?). exists s'. set_solver.
      * exists s. set_solver.
    + intros x Hin. destruct (Hfr x Hin) as (s' & ? & ? & ?). exists s'. split_and!; [set_solver|done|].
      by eapply justified_mono.
Qed.

Lemma plan_ballot g refuters req :
  let p := plan_committee g refuters req in
  planned g refuters (rp_admitted p) (rp_rejected p) ∧ rp_generator p = admit_as g ∧ rp_requirement p = req.
Proof. split; [apply planning_ok|done]. Qed.

Lemma floor_iff (req : committee_requirement) n :
  negb (required req) || bool_decide (min_distinct_families req ≤ n) = true ↔
  (required req = true → min_distinct_families req ≤ n).
Proof. destruct (required req); cbn; rewrite ?bool_decide_eq_true; naive_solver. Qed.

Lemma plan_floors g refuters req :
  let p := plan_committee g refuters req in
  (rp_floor_met p = true ↔ (required req = true → min_distinct_families req ≤ distinct_families p)) ∧
  (rp_floor_reachable p = true ↔ (required req = true → min_distinct_families req ≤ reachable_families p)).
Proof. split; apply floor_iff. Qed.

(** [n] is the number of strings of which [P] holds. *)
Definition counts (n : nat) (P : string → Prop) : Prop := ∃ l, NoDup l ∧ length l = n ∧ ∀ x, x ∈ l ↔ P x.

Lemma counts_size (X : gset string) (P : string → Prop) : (∀ x, x ∈ X ↔ P x) → counts (size X) P.
Proof.
  intros HX. exists (elements X). split_and!; [apply NoDup_elements|done|].
  intros x. by rewrite elem_of_elements.
Qed.

(** The families that sit: the generator's and those of the admitted seats. *)
Definition sits (g : seat_candidate) (p : roster_plan) (family : string) : Prop :=
  family = ep_family (fw_endpoint (sc_family g)) ∨
  ∃ a, a ∈ rp_admitted p ∧ family = ep_family (as_endpoint a).

(** The families that only wait for papers: a seat whose two collisions are
    free lacks its briefing or its artifact. *)
Definition waits (p : roster_plan) (family : string) : Prop :=
  ∃ x, x ∈ rp_rejected p ∧ (rs_reason x = BriefingNotInjected ∨ rs_reason x = FalsificationArtifactMissing) ∧
    family = ep_family (rs_endpoint x).

Lemma families_sit g refuters req x :
  let p := plan_committee g refuters req in
  x ∈ admitted_families (rp_generator p) (rp_admitted p) ↔ sits g p x.
Proof.
  intros p. unfold admitted_families, sits. rewrite elem_of_union, elem_of_singleton, elem_of_list_to_set, list_elem_of_fmap.
  unfold seat_family. naive_solver.
Qed.

Lemma families_wait p x : x ∈ delivery_families (rp_rejected p) ↔ waits p x.
Proof.
  unfold delivery_families, waits. rewrite elem_of_list_to_set, list_elem_of_fmap.
  setoid_rewrite list_elem_of_filter. split.
  - intros (r & -> & Hr & Hin). exists r. split_and!; [done| |done]. destruct (rs_reason r); (by left) || (by right) || done.
  - intros (r & Hin & Hr & ->). exists r. split_and!; [done| |done]. by destruct Hr as [-> | ->].
Qed.

(** The seat of a candidate, and the line of one that is turned away. *)
Definition seated (s : seat_candidate) (a : admitted_seat) : Prop :=
  as_seat_id a = sc_seat_id s ∧ as_endpoint a = fw_endpoint (sc_family s) ∧ as_model a = fw_model (sc_family s) ∧
  as_role_id a = pw_role_id (sc_persona s).

Definition turned_away (s : seat_candidate) (x : rejected_seat) : Prop :=
  rs_seat_id x = sc_seat_id s ∧ rs_endpoint x = fw_endpoint (sc_family s).

Lemma floor_counts (req : committee_requirement) n P :
  counts n P →
  negb (required req) || bool_decide (min_distinct_families req ≤ n) = true ↔
  (required req = true → ∃ m, counts m P ∧ min_distinct_families req ≤ m).
Proof.
  intros Hn. rewrite floor_iff. split; [eauto|]. intros Hm Hreq. destruct (Hm Hreq) as (m & (l & Hl & <- & Hin) & Hle).
  destruct Hn as (l' & Hl' & <- & Hin').
  by rewrite (Permutation_length (NoDup_Permutation l' l Hl' Hl ltac:(intros x; by rewrite Hin', Hin))).
Qed.


(** ** The reachable floor *)

Definition roster_families (g : seat_candidate) (refuters : list seat_candidate) : gset string :=
  list_to_set ((λ s, ep_family (endpoint_of s)) <$> (g :: refuters)).

Definition reached_families (g : seat_candidate) (refuters : list seat_candidate) : gset string :=
  let st := foldl plan_step (plan_start g) refuters in
  admitted_families (admit_as g) (pl_admitted st) ∪ delivery_families (pl_rejected st).

(** Nobody is rejected for a role when the roles are distinct. *)
Lemma elem_of_admitted_families g l x :
  x ∈ admitted_families g l ↔ ∃ a, a ∈ g :: l ∧ seat_family a = x.
Proof.
  unfold admitted_families. rewrite elem_of_union, elem_of_singleton, elem_of_list_to_set, list_elem_of_fmap.
  split; [intros [->|(a & -> & ?)]; eexists; (split; [|done]); set_solver|].
  intros (a & [->|?]%elem_of_cons & <-); [by left|right; eauto].
Qed.

Lemma reached_all g refuters :
  NoDup (role_of <$> (g :: refuters)) → reached_families g refuters = roster_families g refuters.
Proof.
  intros Hnd. destruct (planning_ok g refuters) as ([_ _ _ _ Heach Hfa Hfr] & _ & _).
  unfold reached_families. set (st := foldl plan_step (plan_start g) refuters) in *. cbv zeta.
  apply leibniz_equiv. intros x. unfold roster_families.
  rewrite elem_of_union, elem_of_admitted_families, elem_of_list_to_set, list_elem_of_fmap. split.
  - intros [(a & [->|Ha]%elem_of_cons & <-)|Hx].
    + exists g. set_solver.
    + destruct (Hfa a Ha) as (s & Hs & -> & _). exists s. set_solver.
    + unfold delivery_families in Hx. rewrite elem_of_list_to_set, list_elem_of_fmap in Hx.
      destruct Hx as (r & -> & [_ Hr]%list_elem_of_filter).
      destruct (Hfr r Hr) as (s & Hs & -> & _). exists s. set_solver.
  - intros (s & -> & [->|Hs]%elem_of_cons); [left; exists (admit_as g); set_solver|].
    destruct (Heach s Hs) as [[Ha _]|(r & Hr & Hj)]; [left; exists (admit_as s); set_solver|].
    destruct r as [e other|role other| |]; cbn in Hj.
    + destruct Hj as (_ & a & Ha & Heq & _). left. exists a. split; [done|]. unfold seat_family. by rewrite Heq.
    + destruct Hj as (_ & a & Ha & Heq & _). left. exists a. split; [done|].
      assert (a = admit_as s) as ->; [|done]. apply elem_of_cons in Ha as [->|Ha].
      * f_equal. symmetry. by apply (NoDup_fmap_eq role_of (g :: refuters)); [|set_solver..|].
      * destruct (Hfa a Ha) as (s' & Hs' & -> & _). f_equal.
        by apply (NoDup_fmap_eq role_of (g :: refuters)); [|set_solver..|].
    + right. unfold delivery_families. rewrite elem_of_list_to_set, list_elem_of_fmap.
      exists (reject_as s BriefingNotInjected). split; [done|]. by apply list_elem_of_filter.
    + right. unfold delivery_families. rewrite elem_of_list_to_set, list_elem_of_fmap.
      exists (reject_as s FalsificationArtifactMissing). split; [done|]. by apply list_elem_of_filter.
Qed.

(** The same roster with other papers. *)
Definition same_roster (l l' : list seat_candidate) : Prop :=
  Forall2 (λ s s', endpoint_of s = endpoint_of s' ∧ role_of s = role_of s') l l'.

Definition papers_complete (l : list seat_candidate) : Prop :=
  Forall (λ s, persona_is_complete (sc_persona s) = true) l.

Lemma same_roster_families g l l' :
  same_roster l l' → roster_families g l = roster_families g l' ∧ role_of <$> l = role_of <$> l'.
Proof.
  intros Hs. unfold roster_families. cbn. split.
  - do 2 f_equal. apply list_eq_Forall2. rewrite Forall2_fmap. eapply Forall2_impl; [exact Hs|].
    by intros s s' [-> _].
  - apply list_eq_Forall2. rewrite Forall2_fmap. eapply Forall2_impl; [exact Hs|]. by intros s s' [_ ->].
Qed.

Lemma complete_reaches g refuters :
  papers_complete refuters → delivery_families (pl_rejected (foldl plan_step (plan_start g) refuters)) = ∅.
Proof.
  intros Hp. destruct (planning_ok g refuters) as ([_ _ _ _ _ _ Hfr] & _ & _).
  unfold delivery_families. rewrite list_filter_none; [done|].
  intros x Hx Hd. destruct (Hfr x Hx) as (s & Hs & Heq & Hj).
  unfold papers_complete in Hp. rewrite Forall_forall in Hp. specialize (Hp s Hs). unfold persona_is_complete in Hp.
  apply andb_prop in Hp as [Hb Ha].
  destruct (rs_reason x); cbn in *; try done; congruence.
Qed.

(** When the roles are pairwise distinct, the floor that a roster reaches is
    the floor that it meets once the papers of every seat are there; so a
    roster that does not reach its floor cannot meet it with any papers. *)
Theorem reachable_floor_exact g refuters refuters' req :
  NoDup (role_of <$> (g :: refuters)) → same_roster refuters refuters' →
  (papers_complete refuters' →
     reachable_families (plan_committee g refuters req) = distinct_families (plan_committee g refuters' req) ∧
     rp_floor_reachable (plan_committee g refuters req) = rp_floor_met (plan_committee g refuters' req)) ∧
  (rp_floor_met (plan_committee g refuters' req) = true →
     rp_floor_reachable (plan_committee g refuters req) = true).
Proof.
  intros Hnd Hs. destruct (same_roster_families g _ _ Hs) as [Hf Hr].
  assert (reached_families g refuters = reached_families g refuters') as Hreach.
  { rewrite !reached_all, Hf; [done| |done]. cbn in *. by rewrite <- Hr. }
  assert (papers_complete refuters' →
    reachable_families (plan_committee g refuters req) = distinct_families (plan_committee g refuters' req)) as Heq.
  { intros Hp. unfold reachable_families, distinct_families. cbn [rp_generator rp_admitted rp_rejected plan_committee].
    change (size (reached_families g refuters) = size (admitted_families (admit_as g)
      (pl_admitted (foldl plan_step (plan_start g) refuters')))).
    rewrite Hreach. unfold reached_families. by rewrite complete_reaches, (right_id_L ∅ (∪)). }
  split.
  - intros Hp. split; [by apply Heq|]. apply eq_iff_eq_true.
    rewrite (proj2 (plan_floors g refuters req)), (proj1 (plan_floors g refuters' req)). by rewrite Heq.
  - rewrite (proj2 (plan_floors g refuters req)), (proj1 (plan_floors g refuters' req)).
    assert (distinct_families (plan_committee g refuters' req) ≤ reachable_families (plan_committee g refuters' req)) as Hle
      by (unfold distinct_families, reachable_families; apply subseteq_size; set_solver).
    intros Hm Hreq. specialize (Hm Hreq).
    assert (reachable_families (plan_committee g refuters' req) = reachable_families (plan_committee g refuters req))
      as <-; [|lia]. change (size (reached_families g refuters') = size (reached_families g refuters)).
    by rewrite Hreach.
Qed.

(** ** What a confirmation means *)

(** The seat was seen to answer as the roster says. *)
Definition as_planned (s : admitted_seat) (o : seat_outcome) : Prop :=
  so_realized_endpoint o = Some (as_endpoint s) ∧
  (∀ m, so_realized_model o = Some m → as_model s = Some m) ∧
  so_switched_after_dispatch o = false.

Lemma no_drift_iff s o :
  seat_drift_of s o = None ∧ is_Some (so_realized_endpoint o) ↔ as_planned s o.
Proof.
  unfold seat_drift_of, as_planned.
  destruct (so_realized_endpoint o) as [e|], (so_realized_model o) as [m|], (so_switched_after_dispatch o);
    cbn; repeat case_bool_decide; cbn; (split; [intros [? [? ?]]|intros (? & Hm & ?)]); simplify_eq;
    try done; eauto; try (by specialize (Hm _ eq_refl); congruence); split_and!; try done; naive_solver.
Qed.

Definition sat (outcomes : list seat_outcome) (s : admitted_seat) : Prop :=
  ∃ o, outcome_of outcomes (as_seat_id s) = Some o ∧ delivered (so_delivery o) = true ∧ as_planned s o.

Definition clear (j : jury) : Prop := ju_non_delivering j = [] ∧ ju_drift j = [] ∧ ju_unobserved j = [].

Lemma option_list_nil {A} (o : option A) : option_list o = [] ↔ o = None.
Proof. by destruct o. Qed.

Lemma jury_step_clear outcomes j s :
  clear (jury_step outcomes j s) ↔ clear j ∧ sat outcomes s.
Proof.
  unfold clear, sat, jury_step. destruct (outcome_of outcomes (as_seat_id s)) as [o|].
  2: { cbn. split; [intros ([_ ?]%app_nil & _)|intros (_ & o & ? & _)]; done. }
  destruct (delivered (so_delivery o)) eqn:Hd; cbn.
  2: { split; [intros ([_ ?]%app_nil & _); done|intros (_ & o' & [= <-] & ? & _); congruence]. }
  pose proof (no_drift_iff s o) as Hn.
  destruct (so_realized_endpoint o) as [e|] eqn:He; cbn.
  - rewrite app_nil, option_list_nil. split.
    + intros (? & [? ?] & ?). split; [done|]. exists o. split_and!; [done..|]. apply Hn. split; [done|by eexists].
    + intros ((? & ? & ?) & o' & [= <-] & _ & Hp). apply Hn in Hp as [? _]. by split_and!.
  - split; [intros (_ & _ & [_ ?]%app_nil); done|].
    intros (_ & o' & [= <-] & _ & Hp). apply Hn in Hp as [_ []]. done.
Qed.

Lemma jury_clear outcomes l j :
  clear (foldl (jury_step outcomes) j l) ↔ clear j ∧ Forall (sat outcomes) l.
Proof.
  revert j. induction l as [|s l IH]; intros j; cbn.
  - rewrite Forall_nil. tauto.
  - rewrite IH, jury_step_clear, Forall_cons. tauto.
Qed.

Lemma jury_families outcomes l j :
  Forall (sat outcomes) l →
  ju_families (foldl (jury_step outcomes) j l) = list_to_set (seat_family <$> l) ∪ ju_families j.
Proof.
  intros Hs. revert j. induction Hs as [|s l (o & Ho & Hd & He & _) Hl IH]; intros j; cbn.
  - by rewrite (left_id_L ∅ (∪)).
  - rewrite IH. unfold jury_step. rewrite Ho, Hd, He. cbn. unfold seat_family. set_solver.
Qed.

(** The generator is seen, whether or not it reviewed. *)
Definition generator_seen (p : roster_plan) (outcomes : list seat_outcome) : Prop :=
  ∃ o, outcome_of outcomes (as_seat_id (rp_generator p)) = Some o ∧ as_planned (rp_generator p) o.

Lemma jury_start_clear p outcomes :
  clear (jury_start p outcomes) ↔ generator_seen p outcomes.
Proof.
  unfold jury_start, generator_seen, clear. destruct (outcome_of _ _) as [o|]; cbn.
  2: { split; [by intros (_ & _ & ?)|by intros (o & ? & _)]. }
  pose proof (no_drift_iff (rp_generator p) o) as Hn.
  destruct (so_realized_endpoint o) as [e|] eqn:He; cbn; rewrite option_list_nil.
  - split.
    + intros (_ & ? & _). exists o. split; [done|]. apply Hn. split; [done|by eexists].
    + intros (o' & [= <-] & Hp). apply Hn in Hp as [? _]. by split_and!.
  - split; [by intros (_ & _ & ?)|]. intros (o' & [= <-] & Hp). apply Hn in Hp as [_ []]. done.
Qed.

Lemma intact_iff p outcomes :
  is_intact (jury_integrity_of p outcomes) = true ↔
  generator_seen p outcomes ∧ Forall (sat outcomes) (rp_admitted p) ∧
  (required (rp_requirement p) = true → min_distinct_families (rp_requirement p) ≤ distinct_families p).
Proof.
  unfold is_intact, jury_integrity_of. cbn [ji_floor_met non_delivering unobserved drift].
  set (j := foldl _ _ _).
  rewrite !andb_true_iff, !bool_decide_eq_true, floor_iff.
  assert (length (ju_non_delivering j) = 0 ∧ length (ju_unobserved j) = 0 ∧ length (ju_drift j) = 0 ↔
          generator_seen p outcomes ∧ Forall (sat outcomes) (rp_admitted p)) as Hc.
  { rewrite <- jury_start_clear, <- jury_clear. unfold clear. rewrite !length_zero_iff_nil. naive_solver. }
  assert (generator_seen p outcomes → Forall (sat outcomes) (rp_admitted p) →
          size (ju_families j) = distinct_families p) as Hsize.
  { intros (o & Ho & He & _) Hs. unfold j. rewrite jury_families by done. unfold jury_start.
    rewrite Ho. cbn. rewrite He. cbn. unfold distinct_families, admitted_families, seat_family.
    by rewrite (comm_L (∪)). }
  split.
  - intros [[[Hf Hn] Hu] Hd]. destruct (proj1 Hc) as [Hg Hs]; [done|]. rewrite Hsize in Hf by done. done.
  - intros (Hg & Hs & Hf). destruct (proj2 Hc) as (? & ? & ?); [done|]. rewrite Hsize by done. done.
Qed.

Lemma not_red outcomes : existsb is_red outcomes = false ↔ ∀ o, o ∈ outcomes → is_red o = false.
Proof.
  rewrite <- not_true_iff_false, existsb_exists. split.
  - intros Hn o Ho. apply not_true_iff_false. intros Hr. apply Hn. exists o. by rewrite <- list_elem_of_In.
  - intros Hn (o & Ho & Hr). rewrite <- list_elem_of_In in Ho. by rewrite Hn in Hr.
Qed.

(** The plain door over the outcomes that were delivered. *)
Lemma elem_of_delivered o (outcomes : list seat_outcome) :
  o ∈ filter (λ o, delivered (so_delivery o)) outcomes ↔ o ∈ outcomes ∧ delivered (so_delivery o) = true.
Proof. rewrite list_elem_of_filter, Is_true_true. tauto. Qed.

Lemma door_confirms outcomes :
  (∀ o, o ∈ outcomes → is_red o = false) →
  committee_verdict_of (filter (λ o, delivered (so_delivery o)) outcomes) = Confirmed ↔
  (∃ o, o ∈ outcomes ∧ delivered (so_delivery o) = true) ∧
  (∀ o, o ∈ outcomes → delivered (so_delivery o) = true → so_verdict o = VConfirmed).
Proof.
  intros Hred. set (l := filter _ outcomes).
  assert (∀ o, o ∈ l ↔ o ∈ outcomes ∧ delivered (so_delivery o) = true) as Hl by (intros; apply elem_of_delivered).
  unfold committee_verdict_of.
  rewrite (proj2 (not_red l)) by (intros o Ho; by apply Hred, Hl).
  assert (0 < length l ↔ ∃ o, o ∈ outcomes ∧ delivered (so_delivery o) = true) as Hex.
  { split; [|intros (o & Ho%Hl)].
    - intros Hlen. destruct l as [|o l']; [cbn in Hlen; lia|]. exists o. apply Hl. left.
    - destruct l; [by apply elem_of_nil in Ho|cbn; lia]. }
  assert (forallb (λ o, bool_decide (so_verdict o = VConfirmed) && negb (so_falsifier_red o)) l = true ↔
          ∀ o, o ∈ outcomes → delivered (so_delivery o) = true → so_verdict o = VConfirmed) as Hall.
  { rewrite forallb_forall. split.
    - intros Hf o Ho Hd. specialize (Hf o ltac:(by apply list_elem_of_In, Hl)).
      by apply andb_prop in Hf as [Hv%bool_decide_eq_true _].
    - intros Hf o Ho%list_elem_of_In%Hl. destruct Ho as [Ho Hd]. rewrite (Hf o Ho Hd).
      specialize (Hred o Ho). by apply orb_false_iff in Hred as [_ ->]. }
  rewrite <- Hex, <- Hall. case_bool_decide; destruct (forallb _ l); cbn; naive_solver.
Qed.

(** C18. The fold confirms exactly when no outcome is red, at least one was
    delivered and every delivered one confirms, the generator and all the seats
    of the ballot were seen to answer on the endpoint and the model that the
    roster names, untouched by hand, every seat having delivered, and the
    ballot spans the required families. *)
Theorem fold_confirms_exact p outcomes :
  cf_verdict (fold_committee p outcomes) = Confirmed ↔
  (∀ o, o ∈ outcomes → is_red o = false) ∧
  (∃ o, o ∈ outcomes ∧ delivered (so_delivery o) = true) ∧
  (∀ o, o ∈ outcomes → delivered (so_delivery o) = true → so_verdict o = VConfirmed) ∧
  generator_seen p outcomes ∧ Forall (sat outcomes) (rp_admitted p) ∧
  (required (rp_requirement p) = true → min_distinct_families (rp_requirement p) ≤ distinct_families p).
Proof.
  rewrite <- intact_iff. unfold fold_committee.
  destruct (existsb is_red outcomes) eqn:Hred; cbn.
  { split; [done|]. intros (Hn & _). by rewrite (proj2 (not_red _) Hn) in Hred. }
  pose proof (proj1 (not_red _) Hred) as Hno. pose proof (door_confirms outcomes Hno) as Hdoor.
  destruct (bool_decide_reflect (committee_verdict_of
    (filter (λ o, delivered (so_delivery o)) outcomes) = Confirmed)) as [Hd|Hd]; cbn.
  - destruct (is_intact _); cbn; [|by split; [|intros (_ & _ & _ & ?)]].
    split; [|done]. intros _. split_and!; [done|by apply Hdoor..|done].
  - split; [done|]. intros (_ & H1 & H2 & _). by destruct Hd; apply Hdoor.
Qed.

(** ** A rendered contract parses *)

Lemma unlines_app l1 l2 : unlines (l1 ++ l2) = unlines l1 +:+ unlines l2.
Proof. induction l1 as [|x l IH]; [done|]. cbn [unlines app]. rewrite IH. by rewrite !string_app_assoc. Qed.

Lemma unlines_complete l : complete_text (unlines l).
Proof.
  induction l as [|x l IH]; [by left|]. cbn [unlines]. rewrite string_app_assoc. apply complete_text_app; [|done].
  apply complete_text_nl.
Qed.

Lemma printable_line x : all_chars is_printable x = true →
  contains_char nl_char x = false ∧ ends_with_char cr_char x = false.
Proof.
  intros Hx. split; [by apply (all_chars_not_contains is_printable)|].
  induction x as [|a x IH]; [done|]. cbn in Hx. apply andb_prop in Hx as [Ha Hx].
  cbn. destruct x as [|b x]; [|by apply IH]. apply bool_decide_eq_false. by intros ->.
Qed.

Lemma lines_unlines l : Forall (λ x, all_chars is_printable x = true) l → lines (unlines l) = l.
Proof.
  induction 1 as [|x l Hx Hl IH]; [done|]. cbn [unlines]. apply printable_line in Hx as [Hn Hc].
  rewrite string_app_assoc, lines_app by apply complete_text_nl. by rewrite IH, lines_line.
Qed.

(** [lines] forgets nothing of a text without carriage returns. *)
Lemma lines_cons c s : c ≠ nl_char → c ≠ cr_char → contains_char cr_char s = false →
  lines (String c s) = match lines s with [] => [String c EmptyString] | l :: rest => String c l :: rest end.
Proof.
  intros Hn Hc Hs. unfold lines. cbn [segments]. rewrite decide_False by done.
  destruct (segments s) as [|[l t] rest] eqn:Hseg; [by cbn|]. cbn.
  destruct t; [|done]. destruct l as [|a l]; cbn; [|done]. by rewrite decide_False.
Qed.

Lemma lines_snoc_nonempty s : lines (s +:+ nl) ≠ [].
Proof.
  unfold lines. intros Hl%fmap_nil_inv. destruct s as [|c s]; [by vm_compute in Hl|].
  rewrite string_app_cons in Hl. cbn [segments] in Hl. case_decide; [done|].
  by destruct (segments (s +:+ nl)) as [|[] ?].
Qed.

Lemma unlines_lines s : contains_char cr_char s = false → unlines (lines (s +:+ nl)) = s +:+ nl.
Proof.
  induction s as [|c s IH]; [done|]. rewrite string_app_cons. cbn [contains_char].
  intros [Hc Hs]%orb_false_iff. apply bool_decide_eq_false in Hc. specialize (IH Hs).
  destruct (decide (c = nl_char)) as [->|Hn].
  - change (lines (String nl_char (s +:+ nl))) with ("" :: lines (s +:+ nl)). cbn [unlines]. by rewrite IH.
  - rewrite lines_cons; [|done|congruence|by rewrite contains_char_app, Hs].
    destruct (lines (s +:+ nl)) as [|l rest] eqn:Hl; [by apply lines_snoc_nonempty in Hl|].
    cbn [unlines] in *. by rewrite string_app_cons, IH.
Qed.

Lemma cut_at_rule_app l1 l2 :
  Forall (λ x, trim x ≠ rule_line) l1 → cut_at_rule (l1 ++ rule_line :: l2) = Some (l1, l2).
Proof.
  induction 1 as [|x l Hx Hl IH]; [done|]. cbn [cut_at_rule app]. rewrite decide_False by done.
  by rewrite IH.
Qed.

Lemma digits_visible s : all_chars is_ascii_digit s = true → all_chars is_visible s = true.
Proof.
  apply all_chars_impl. intros c. unfold is_ascii_digit, is_visible. rewrite !bool_decide_eq_true.
  change (code "0"%char) with 48. change (code "9"%char) with 57. lia.
Qed.

Lemma visible_printable s : all_chars is_visible s = true → all_chars is_printable s = true.
Proof. apply all_chars_impl. intros c. unfold is_printable. by intros ->. Qed.

(** A line of the header with a visible value. *)
Lemma field_line_trim p v :
  all_chars is_printable p = true → v ≠ EmptyString → all_chars is_visible v = true →
  trim (String "-"%char (p +:+ v)) = String "-"%char (p +:+ v).
Proof.
  intros Hp Hne Hv. unfold trim. rewrite trim_start_opens by done.
  apply trim_end_visible, (ends_visible_app (String "-"%char p)); [done|by apply ends_visible_all].
Qed.

Lemma pretty_visible (n : N) : pretty n ≠ EmptyString ∧ all_chars is_visible (pretty n) = true.
Proof.
  split; [|apply digits_visible, pretty_N_digits]. intros Hp.
  pose proof (parse_unsigned_pretty n n ltac:(lia)) as Hq. by rewrite Hp in Hq.
Qed.

Lemma version_line_trim n : trim (version_line n) = version_line n.
Proof. by apply (field_line_trim " **contract-version:** "); [..|apply pretty_visible|apply pretty_visible]. Qed.

Lemma hash_line_trim h : h ≠ EmptyString → all_chars is_visible h = true → trim (hash_line h) = hash_line h.
Proof. intros. by apply (field_line_trim " **contract-hash:** "). Qed.

Section Render.
Context (version : N) (contract_hash : string).
Hypothesis Hne : contract_hash ≠ EmptyString.
Hypothesis Hvis : all_chars is_visible contract_hash = true.

Lemma header_printable : Forall (λ x, all_chars is_printable x = true) (header_lines version contract_hash).
Proof.
  repeat constructor.
  - unfold version_line. rewrite all_chars_app. apply andb_true_intro. split; [done|].
    apply visible_printable, pretty_visible.
  - unfold hash_line. rewrite all_chars_app. apply andb_true_intro. split; [done|]. by apply visible_printable.
Qed.

Lemma header_no_rule : Forall (λ x, trim x ≠ rule_line) (header_lines version contract_hash).
Proof.
  by repeat constructor.
Qed.

Lemma version_line_field :
  field_of_line "contract-version" (version_line version) = Some (pretty version).
Proof.
  unfold field_of_line. rewrite version_line_trim.
  change (Some (trim (String " "%char (pretty version))) = Some (pretty version)).
  by rewrite trim_space, trim_visible by apply pretty_visible.
Qed.

Lemma hash_line_fields :
  field_of_line "contract-hash" (version_line version) = None ∧
  field_of_line "contract-hash" (hash_line contract_hash) = Some contract_hash.
Proof.
  unfold field_of_line. rewrite version_line_trim, hash_line_trim by done. split; [done|].
  change (Some (trim (String " "%char contract_hash)) = Some contract_hash).
  by rewrite trim_space, trim_visible.
Qed.

Lemma header_version :
  posture_field (unlines (header_lines version contract_hash)) "contract-version" = Some (pretty version).
Proof.
  unfold posture_field. rewrite lines_unlines by apply header_printable. unfold header_lines.
  rewrite omap_app. assert (omap (field_of_line "contract-version") header_text = []) as -> by by vm_compute.
  cbn [omap list_omap app]. by rewrite version_line_field.
Qed.

Lemma header_hash :
  posture_field (unlines (header_lines version contract_hash)) "contract-hash" = Some contract_hash.
Proof.
  unfold posture_field. rewrite lines_unlines by apply header_printable. unfold header_lines.
  rewrite omap_app. assert (omap (field_of_line "contract-hash") header_text = []) as -> by by vm_compute.
  destruct hash_line_fields as [H1 H2]. cbn [omap list_omap app]. by rewrite H1, H2.
Qed.

Lemma render_lines body :
  lines (render_committee_posture version contract_hash body) =
  header_lines version contract_hash ++ rule_line :: "" :: lines (body +:+ nl).
Proof.
  unfold render_committee_posture. rewrite lines_app by apply unlines_complete.
  rewrite lines_unlines; [by rewrite <- app_assoc|].
  apply Forall_app. split; [apply header_printable|by repeat constructor].
Qed.

Lemma parse_render body :
  contains_char cr_char body = false → (version ≤ u32_max)%N → says_something (trim body) = true →
  parse_committee_posture (render_committee_posture version contract_hash body) =
  Some (PostureContract version contract_hash (trim body)).
Proof.
  intros Hcr Hv Hs. unfold parse_committee_posture, split_at_header_rule.
  rewrite render_lines, cut_at_rule_app by apply header_no_rule. cbn [mbind option_bind unlines].
  rewrite header_version, header_hash. cbn [mbind option_bind]. rewrite parse_unsigned_pretty by done.
  cbn [mbind option_bind]. unfold is_empty. rewrite bool_decide_eq_false_2 by done.
  rewrite unlines_lines by done. change ("" +:+ nl +:+ (body +:+ nl)) with (nl +:+ (body +:+ nl)).
  by rewrite trim_nl, trim_snoc_nl, Hs.
Qed.

End Render.

(** ** What a verified hash says *)

(** A digest is 64 lower-case hexadecimal digits. *)
Class DigestLaws `{Digests} := {
  blake3_hex64 bytes : is_hex64 (blake3_hex bytes) = true ∧ to_ascii_lowercase (blake3_hex bytes) = blake3_hex bytes;
}.

Lemma hexdigit_visible s : all_chars is_ascii_hexdigit s = true → all_chars is_visible s = true.
Proof.
  apply all_chars_impl. intros c. destruct c as [[] [] [] [] [] [] [] []]; vm_compute; done.
Qed.

Lemma own_hash_verifies `{DigestLaws} body :
  verify_contract_hash (committee_contract_hash body) (trim body) = Verified "blake3".
Proof.
  unfold verify_contract_hash, committee_contract_hash, contract_digest_input. rewrite trim_idem.
  set (hex := blake3_hex (trim body +:+ nl)).
  assert (is_hex64 hex = true ∧ to_ascii_lowercase hex = hex) as [Hx Hl] by apply blake3_hex64.
  pose proof Hx as [Hlen Hall]%andb_prop. apply bool_decide_eq_true in Hlen.
  assert (hex ≠ "") as Hne by (by intros Heq; rewrite Heq in Hlen).
  pose proof (hexdigit_visible _ Hall) as Hvis.
  assert (trim ("blake3:" +:+ hex) = "blake3:" +:+ hex) as -> by (apply trim_visible; [done|by rewrite all_chars_app]).
  assert (rsplit_once ":"%char ("blake3:" +:+ hex) = Some ("blake3", hex)) as ->.
  { change ("blake3:" +:+ hex) with ("blake3" +:+ String ":"%char hex). apply rsplit_once_some. split; [done|].
    by apply (all_chars_not_contains is_ascii_hexdigit). }
  cbn [default id]. rewrite trim_visible, Hl, Hx by done.
  assert (named_algorithm "blake3" = Some "blake3") as -> by by vm_compute.
  change (is_empty "blake3") with false. cbv iota. cbn [negb]. by rewrite decide_True.
Qed.

(** A contract that is rendered with its own hash parses, and the hash holds
    of the body that was parsed. *)
Theorem rendered_contract_verifies `{DigestLaws} version body :
  contains_char cr_char body = false → (version ≤ u32_max)%N → says_something (trim body) = true →
  ∃ po, parse_committee_posture (render_committee_posture version (committee_contract_hash body) body) = Some po ∧
    po_version po = version ∧ po_body po = trim body ∧
    verify_contract_hash (po_contract_hash po) (po_body po) = Verified "blake3".
Proof.
  intros Hcr Hv Hs. exists (PostureContract version (committee_contract_hash body) (trim body)).
  split; [|split_and!; [done..|apply own_hash_verifies]]. apply parse_render; [done| |done..].
  unfold committee_contract_hash. rewrite all_chars_app.
  destruct (blake3_hex64 (contract_digest_input body)) as [[_ Hh]%andb_prop _]. by apply hexdigit_visible.
Qed.

Lemma verified_digest `{Digests} declared body algorithm :
  verify_contract_hash declared body = Verified algorithm →
  ∃ hex, digest_with algorithm (contract_digest_input body) = Some (to_ascii_lowercase (trim hex)) ∧
    (trim declared = hex ∨ ∃ prefix, trim declared = prefix +:+ ":" +:+ hex).
Proof.
  unfold verify_contract_hash.
  destruct (default ("", trim declared) (rsplit_once ":"%char (trim declared))) as [prefix hex] eqn:Hsplit.
  assert (trim declared = hex ∨ ∃ prefix, trim declared = prefix +:+ ":" +:+ hex) as Hd.
  { destruct (rsplit_once ":"%char (trim declared)) as [[p h]|] eqn:Hr; cbn in Hsplit.
    - injection Hsplit as -> ->. apply rsplit_once_some in Hr as [Hr _]. right. by exists prefix.
    - injection Hsplit as <- <-. by left. }
  intros Hv. exists hex. split; [|done]. destruct (is_empty prefix).
  - destruct (negb _); [done|].
    destruct (filter _ supported_contract_digests) as [|a l] eqn:Hf; [done|]. injection Hv as ->.
    assert (algorithm ∈ filter (λ a, digest_with a (contract_digest_input body) =
      Some (to_ascii_lowercase (trim hex))) supported_contract_digests) as [? _]%list_elem_of_filter
      by (rewrite Hf; left). done.
  - destruct (named_algorithm prefix) as [a|]; [|done]. destruct (negb _); [done|].
    case_decide as Hdig; [|done]. by injection Hv as ->.
Qed.

(** ** Delivery is a fact about files *)

(** The contract that the seat's own directory holds is the one that its roster
    entry declares, its hash is a digest of its body, and the briefing points
    at it. *)
Definition contract_on_disk `{Digests} (observe : string → option observed_delivery) (s : seat_candidate) : Prop :=
  ∃ b od po algorithm hex,
    pw_briefing (sc_persona s) = Some b ∧ observe (sc_seat_id s) = Some od ∧ od_posture od = Some po ∧
    od_pointer od = true ∧ ab_version b = adversarial_briefing_version ∧
    po_version po = ab_version b ∧ po_contract_hash po = ab_contract_hash b ∧
    digest_with algorithm (contract_digest_input (po_body po)) = Some (to_ascii_lowercase (trim hex)) ∧
    (trim (po_contract_hash po) = hex ∨ ∃ prefix, trim (po_contract_hash po) = prefix +:+ ":" +:+ hex).

Lemma observed_delivered `{Digests} observe s :
  briefing_ok (sc_persona (observe_seat observe s).1) = true → contract_on_disk observe s.
Proof.
  unfold observe_seat, contract_on_disk, briefing_ok.
  destruct (pw_briefing (sc_persona s)) as [b|] eqn:Hb; [|cbn; by rewrite Hb].
  destruct (observe (sc_seat_id s)) as [od|].
  2: { destruct (injected b) eqn:Hi; cbn; [|rewrite Hb]; unfold briefing_is_valid; cbn;
         rewrite ?Hi, andb_false_r; done. }
  cbn. unfold briefing_is_valid. cbn.
  rewrite !andb_true_iff, bool_decide_eq_true, negb_true_iff. intros [[Hver _] [Hfault Hptr]].
  unfold posture_fault_of in Hfault. destruct (od_posture od) as [po|] eqn:Hpo; [|by destruct (posture_file_exists od)].
  case_decide as Heq; [|done]. destruct Heq as [Hpv Hph].
  destruct (verify_contract_hash (po_contract_hash po) (po_body po)) as [algorithm| |] eqn:Hv; [|done..].
  apply verified_digest in Hv as (hex & Hdig & Hhex).
  by exists b, od, po, algorithm, hex.
Qed.

(** C39. A seat is admitted to the roster that is planned from what is on disk
    only if its own directory holds the contract that it was seated under. *)
Theorem admitted_contract_delivered `{Digests} r observe bias a :
  a ∈ rp_admitted (spec_plan (with_observed_delivery r observe).1 bias) →
  ∃ s, s ∈ ro_refuters r ∧ as_seat_id a = sc_seat_id s ∧ as_endpoint a = endpoint_of s ∧
       contract_on_disk observe s ∧ artifact_ok (sc_persona s) = true.
Proof.
  intros Ha. destruct (plan_ballot (ro_generator (with_observed_delivery r observe).1)
    (ro_refuters (with_observed_delivery r observe).1)
    (committee_requirement_of (ro_stake r) bias (ro_cross_provider r))) as (Hp & _).
  destruct (pl_from_ad _ _ _ _ Hp a Ha) as (s' & Hs' & -> & [Hb Hart]%andb_prop). cbn in Hs'.
  apply list_elem_of_fmap in Hs' as (s & -> & Hs). exists s. split; [done|]. cbn in *.
  assert (sc_seat_id (observe_seat observe s).1 = sc_seat_id s ∧ endpoint_of (observe_seat observe s).1 = endpoint_of s ∧
          falsification_artifact (sc_persona (observe_seat observe s).1) = falsification_artifact (sc_persona s))
    as (Hid & He & Hf) by (unfold observe_seat; repeat case_match; done).
  split_and!; [done..|by apply observed_delivered|]. unfold artifact_ok in *. by rewrite <- Hf.
Qed.

(** ** The door of a round *)

(** A round is clean exactly when every seat reports a clean result and none of
    its two files contradicts the other. *)
Theorem round_clean_exact emissions :
  rr_clean (read_converge_round emissions) = true ↔
  emissions ≠ [] ∧ ∀ e, e ∈ emissions → em_reported e = Some Clean ∧
    (em_verdict e = None ∨ ∃ v p, em_verdict e = Some v ∧ em_mechanism_polarity e = Some p ∧
       map_through_polarity p v = Clean).
Proof.
  assert (∀ e, read_seat_emission e = Ok Clean ↔ em_reported e = Some Clean ∧
    (em_verdict e = None ∨ ∃ v p, em_verdict e = Some v ∧ em_mechanism_polarity e = Some p ∧
       map_through_polarity p v = Clean)) as Hread.
  { intros e. unfold read_seat_emission.
    destruct (em_reported e) as [rep|], (em_verdict e) as [v|], (em_mechanism_polarity e) as [p|];
      cbv zeta; try (case_decide as Hd); try naive_solver.
    subst rep. split; [intros [= Hc]; split; [by rewrite Hc|right; by exists v, p]|].
    by intros [[= ->] _]. }
  assert (rr_clean (read_converge_round emissions) = true ↔
          emissions ≠ [] ∧ ∀ e, e ∈ emissions → read_seat_emission e = Ok Clean) as ->;
    [|by setoid_rewrite Hread].
  unfold read_converge_round. cbn [rr_clean].
  rewrite !andb_true_iff, !bool_decide_eq_true, forallb_forall, length_zero_iff_nil, omap_nil_iff.
  assert (0 < length emissions ↔ emissions ≠ []) as -> by (destruct emissions; cbn; split; [lia|done|done|lia]).
  split.
  - intros [[Hne Href] Hall]. split; [done|]. intros e He. specialize (Href e He).
    destruct (read_seat_emission e) as [v|r] eqn:Hr; [|done]. f_equal.
    specialize (Hall (em_seat_id e, v)). cbn in Hall. apply bool_decide_eq_true in Hall; [done|].
    apply list_elem_of_In, list_elem_of_omap. exists e. by rewrite Hr.
  - intros [Hne Hall]. split_and!; [done|intros e He; by rewrite (Hall e He)|].
    intros x Hx%list_elem_of_In. apply list_elem_of_omap in Hx as (e & He & Hx).
    rewrite (Hall e He) in Hx. injection Hx as <-. by apply bool_decide_eq_true.
Qed.

(** ** At concrete rosters *)

Definition endpoint_on (family : string) : endpoint_tuple := EndpointTuple family "" family.
Definition contract_hex : string :=
  "0123456789abcdef0123456789abcdef0123456789abcdef0123456789abcdef".
Definition sample_digests : Digests :=
  {| blake3_hex _ := contract_hex; sha256_hex _ := contract_hex; blake2b_hex _ := contract_hex |}.

Definition delivered_briefing : adversarial_briefing :=
  AdversarialBriefing 1 ("blake3:" +:+ contract_hex) true.
Definition seat (id family role : string) (papers : bool) : seat_candidate :=
  SeatCandidate id Refuter None (FamilyWitness (endpoint_on family) None)
    (PersonaWitness role (if papers then Some delivered_briefing else None) (Some "attack.md")) None None.

Definition floor_of_three : committee_requirement := CommitteeRequirement true 3.
Definition author : seat_candidate := seat "author" "anthropic" "author" true.

Lemma reachable_floor_exact_witness :
  rp_floor_reachable (plan_committee author [seat "u" "openai" "r1" false; seat "v" "xai" "r2" true] floor_of_three)
  = rp_floor_met (plan_committee author [seat "u" "openai" "r1" true; seat "v" "xai" "r2" true] floor_of_three).
Proof.
  apply (reachable_floor_exact author [seat "u" "openai" "r1" false; seat "v" "xai" "r2" true]
           [seat "u" "openai" "r1" true; seat "v" "xai" "r2" true] floor_of_three).
  - apply (bool_decide_unpack _). by vm_compute.
  - by repeat constructor.
  - by repeat constructor.
Defined.

(** Without distinct roles the reachable floor is wrong both ways. Here the
    floor of three is met once the papers of [u] are there, and is reported out
    of reach before. *)
Definition undercounted (u : bool) : list seat_candidate :=
  [seat "u" "openai" "r1" u; seat "s" "openai" "r2" true; seat "x" "xai" "r2" true].

Example reachable_floor_undercounts :
  rp_floor_reachable (plan_committee author (undercounted false) floor_of_three) = false ∧
  rp_floor_met (plan_committee author (undercounted true) floor_of_three) = true.
Proof. by vm_compute. Qed.

(** Here it is reported within reach, and no papers meet it. *)
Definition overcounted (u v : bool) : list seat_candidate :=
  [seat "u" "openai" "r1" u; seat "v" "xai" "r1" v].

Example reachable_floor_overcounts :
  rp_floor_reachable (plan_committee author (overcounted false false) floor_of_three) = true ∧
  Forall (λ p, rp_floor_met (plan_committee author (overcounted p.1 p.2) floor_of_three) = false)
    [(true, true); (true, false); (false, true); (false, false)].
Proof. split; [by vm_compute|]. by repeat constructor. Qed.

Section SampleDigests.
#[local] Existing Instance sample_digests.

#[local] Instance sample_digest_laws : DigestLaws.
Proof. split. intros bytes. by vm_compute. Defined.

Definition sample_body : string := "Break the fix:" +:+ nl +:+ "- run the falsifier" +:+ nl.

Lemma rendered_contract_verifies_witness :
  ∃ po, parse_committee_posture (render_committee_posture 1 (committee_contract_hash sample_body) sample_body) =
          Some po ∧
    po_version po = 1%N ∧ po_body po = trim sample_body ∧
    verify_contract_hash (po_contract_hash po) (po_body po) = Verified "blake3".
Proof. apply (rendered_contract_verifies 1 sample_body); [by vm_compute|done|by vm_compute]. Defined.

Definition sample_roster : roster_spec :=
  RosterSpec Root true author [seat "u" "openai" "r1" true; seat "v" "xai" "r2" true].

(** The directory of [u] holds its contract; that of [v] a stub. *)
Definition sample_observe (id : string) : option observed_delivery :=
  if decide (id = "u") then
    Some (ObservedDelivery true
      (parse_committee_posture (render_committee_posture 1 (committee_contract_hash sample_body) sample_body)) true)
  else if decide (id = "v") then
    Some (ObservedDelivery true (parse_committee_posture ("# posture" +:+ nl)) true)
  else None.

Definition no_bias : provider_bias_config := ProviderBiasConfig requirement_default [].

Example sample_delivery :
  rp_admitted (spec_plan (with_observed_delivery sample_roster sample_observe).1 no_bias) =
    [admit_as (seat "u" "openai" "r1" true)] ∧
  (with_observed_delivery sample_roster sample_observe).2 =
    [NoDirectory "author"; DeliveryContradicted "v" (Some NotAContract) true].
Proof. by vm_compute. Qed.

Lemma admitted_contract_delivered_witness :
  ∃ s, s ∈ ro_refuters sample_roster ∧ "u" = sc_seat_id s ∧ endpoint_on "openai" = endpoint_of s ∧
       contract_on_disk sample_observe s ∧ artifact_ok (sc_persona s) = true.
Proof.
  apply (admitted_contract_delivered sample_roster sample_observe no_bias
           (admit_as (seat "u" "openai" "r1" true))).
  vm_compute. left.
Defined.

End SampleDigests.

(** Without a required committee the author's own review confirms. *)
Example author_confirms_alone :
  cf_verdict (fold_committee (plan_committee author [] (CommitteeRequirement false 0))
    [SeatOutcome "author" VConfirmed false Delivered (Some (endpoint_on "anthropic")) None false]) = Confirmed.
Proof. by vm_compute. Qed.

(** A seat is dispatched on the first base that carries its pinned tree, and on
    none when no base does. *)
Theorem reviewed_tree_exact pin bases :
  match resolve_reviewed_tree pin bases with
  | NotPinned => ∀ p, pin = Some p → trim p = EmptyString
  | Resolved start tree =>
      ∃ p pre post, pin = Some p ∧ bases = pre ++ (start, tree) :: post ∧
        starts_with (to_ascii_lowercase (trim p)) (to_ascii_lowercase tree) = true ∧
        (∀ b, b ∈ pre → starts_with (to_ascii_lowercase (trim p)) (to_ascii_lowercase b.2) = false)
  | Unreadable p => readable_pin p = false
  | Unsatisfiable p offered =>
      offered = bases ∧ ∀ b, b ∈ bases → starts_with p (to_ascii_lowercase b.2) = false
  end.
Proof.
  unfold resolve_reviewed_tree. destruct pin as [p|]; [|done]. cbn.
  destruct (is_empty (trim p)) eqn:He.
  { intros ? [= <-]. by apply bool_decide_eq_true in He. }
  destruct (readable_pin _) eqn:Hr; [|done]. cbn.
  assert (∀ q l, match base_of q l with
                 | Some b => ∃ pre post, l = pre ++ b :: post ∧
                     starts_with q (to_ascii_lowercase b.2) = true ∧
                     (∀ b', b' ∈ pre → starts_with q (to_ascii_lowercase b'.2) = false)
                 | None => ∀ b, b ∈ l → starts_with q (to_ascii_lowercase b.2) = false
                 end) as Hb.
  { intros q l. induction l as [|b l IH]; cbn; [by intros b ?%elem_of_nil|].
    destruct (starts_with q _) eqn:Hs.
    - exists [], l. split_and!; [done|done|]. by intros b' ?%elem_of_nil.
    - destruct (base_of q l) as [b0|].
      + destruct IH as (pre & post & -> & Hok & Hpre). exists (b :: pre), post. split_and!; [done|done|].
        intros b' [->|Hb']%elem_of_cons; [done|by apply Hpre].
      + intros b' [->|Hb']%elem_of_cons; [done|by apply IH]. }
  specialize (Hb (to_ascii_lowercase (trim p)) bases).
  destruct (base_of _ bases) as [[start tree]|]; [|done].
  destruct Hb as (pre & post & -> & Hok & Hpre). by exists p, pre, post.
Qed.
