(* ===== verification/Sor.v ===== *)
(** The selection of a routing candidate, [crates/cosmon-core/src/sor.rs]:
    hard constraints first, then a weighted score among what is admissible, and
    a receipt that says what was considered, rejected, scored and chosen.
    Scores are [i64]; their arithmetic wraps as in a release build. *)
From stdpp Require Import prelude gmap strings list sorting.
From S2P Require Import Prelude Text Diversity.

(** ** Machine integers *)

Definition i64_min : Z := -9223372036854775808.
Definition i64_max : Z := 9223372036854775807.
Definition two64 : Z := 18446744073709551616.

Definition wrap_i64 (z : Z) : Z := (z - i64_min) mod two64 + i64_min.
Definition in_i64 (z : Z) : Prop := (i64_min ≤ z ≤ i64_max)%Z.

Definition add_i64 (a b : Z) : Z := wrap_i64 (a + b).
Definition sub_i64 (a b : Z) : Z := wrap_i64 (a - b).
Definition mul_i64 (a b : Z) : Z := wrap_i64 (a * b).
Definition neg_i64 (a : Z) : Z := wrap_i64 (- a).

(** ** Observations *)

Inductive observation_status : Set := Fresh | Stale | Missing | HistoryUnavailable.

#[export] Instance observation_status_eq_dec : EqDecision observation_status.
Proof. solve_decision. Defined.

(** Instants and durations in nanoseconds. *)
Definition classify_observation (observed_at : option Z) (ttl now : Z) : observation_status :=
  match observed_at with
  | None => Missing
  | Some at_ => if decide (now - at_ ≤ ttl)%Z then Fresh else Stale
  end.

Definition has_value (s : observation_status) : bool :=
  match s with Fresh | Stale => true | _ => false end.

Inductive observation_source : Set := Probe | PriceTable | Calibration | Config.

Record observation := Observation {
  ob_value : option Z;
  ob_source : observation_source;
  ob_observed_at : option Z;
  ob_ttl_secs : Z;
  ob_status : observation_status;
  ob_hash : string;
}.

Definition without_hash (o : observation) : observation :=
  Observation (ob_value o) (ob_source o) (ob_observed_at o) (ob_ttl_secs o) (ob_status o) "".

Inductive local_consumption : Set := Available (n : N) | Unavailable.

(** [cap.saturating_sub(n)] *)
Definition headroom (c : local_consumption) (cap : N) : option N :=
  match c with Available n => Some (cap - n)%N | Unavailable => None end.

Definition is_known (c : local_consumption) : bool := match c with Available _ => true | _ => false end.

Record calibration_obs := CalibrationObs {
  ca_model_version : option string;
  ca_score_permille : option Z;
  ca_measured_at : option Z;
  ca_status : observation_status;
}.

Definition calibration_new (model_version : option string) (score : option Z) (measured_at : option Z)
    (ttl now : Z) : calibration_obs :=
  CalibrationObs model_version score measured_at
    (if is_some score then classify_observation measured_at ttl now else Missing).

(** ** Candidates and requests *)

Record sor_candidate := SorCandidate {
  c_adapter : string;
  c_model : option string;
  c_effort : option string;
  c_spawnable : bool;
  c_honors_pin : bool;
  c_capacity_ok : bool;
  c_diversity_ok : bool;
  c_consumption : local_consumption;
  c_budget_cap : option N;
  c_calibration : calibration_obs;
  c_availability : observation;
  c_cost : observation;
}.

Definition candidate_id (c : sor_candidate) : string :=
  match c_model c with Some m => c_adapter c +:+ "/" +:+ m | None => c_adapter c end.

Inductive reject_reason : Set :=
| NotSpawnable
| PinMismatch
| CapacityExhausted
| MissingCalibrationOnCritical
| StaleCalibrationOnCritical
| LocalHistoryUnavailableOnCritical
| BudgetExhausted
| DiversityRequirementUnmet.

#[export] Instance reject_reason_eq_dec : EqDecision reject_reason.
Proof. solve_decision. Defined.

Record sor_request := SorRequest {
  rq_subject : string;
  rq_revision : string;
  rq_criticality : criticality_level;
  rq_criticality_actors : list string;
  rq_policy_digest : string;
  rq_attempt : N;
  rq_supersedes : option N;
}.

Record reject_record := RejectRecord { rj_candidate : string; rj_reason : reject_reason }.

Record candidate_score := CandidateScore {
  s_candidate : string;
  s_version : N;
  s_quality : Z;
  s_headroom : Z;
  s_availability : Z;
  s_cost : Z;
  s_stale_penalty : Z;
  s_total : Z;
}.

Record score_weights := ScoreWeights {
  w_quality : Z;
  w_headroom : Z;
  w_availability : Z;
  w_cost : Z;
  w_stale_penalty : Z;
}.

Definition default_weights : score_weights := ScoreWeights 10 5 3 2 1000.

Record chosen_incarnation := ChosenIncarnation {
  ch_adapter : string;
  ch_model : option string;
  ch_effort : option string;
}.

Record routing_receipt := RoutingReceipt {
  re_schema_version : N;
  re_score_version : N;
  re_subject : string;
  re_revision : string;
  re_attempt : N;
  re_supersedes : option N;
  re_policy_digest : string;
  re_criticality : criticality_level;
  re_criticality_actors : list string;
  re_decided_at : Z;
  re_candidates_considered : list string;
  re_rejects : list reject_record;
  re_scores : list candidate_score;
  re_chosen : chosen_incarnation;
  re_receipt_hash : string;
}.

Definition with_receipt_hash (r : routing_receipt) (h : string) : routing_receipt :=
  RoutingReceipt (re_schema_version r) (re_score_version r) (re_subject r) (re_revision r) (re_attempt r)
    (re_supersedes r) (re_policy_digest r) (re_criticality r) (re_criticality_actors r) (re_decided_at r)
    (re_candidates_considered r) (re_rejects r) (re_scores r) (re_chosen r) h.

(** The hash of the canonical JSON of a receipt and of an observation. *)
Class SorHash := {
  receipt_digest : routing_receipt → string;
  observation_digest : observation → string;
}.

(** [Observation::observed] and [missing] *)
Definition observed `{SorHash} (value : option Z) (source : observation_source) (observed_at : option Z)
    (ttl now : Z) : observation :=
  let status := if is_some value then classify_observation observed_at ttl now else Missing in
  let o := Observation value source observed_at (num_seconds ttl) status "" in
  Observation value source observed_at (num_seconds ttl) status (observation_digest o).

Definition missing_observation `{SorHash} (source : observation_source) : observation :=
  let o := Observation None source None 0 Missing "" in
  Observation None source None 0 Missing (observation_digest o).

Definition seal `{SorHash} (r : routing_receipt) : routing_receipt :=
  with_receipt_hash r (receipt_digest (with_receipt_hash r "")).

Definition verify_hash `{SorHash} (r : routing_receipt) : bool :=
  bool_decide (receipt_digest (with_receipt_hash r "") = re_receipt_hash r).

(** ** Admission *)

Definition admit_candidate (c : sor_candidate) (rq : sor_request) : option reject_reason :=
  if negb (c_spawnable c) then Some NotSpawnable
  else if negb (c_honors_pin c) then Some PinMismatch
  else if negb (c_capacity_ok c) then Some CapacityExhausted
  else if negb (c_diversity_ok c) then Some DiversityRequirementUnmet
  else
    let budget :=
      match c_budget_cap c with
      | Some cap =>
          match headroom (c_consumption c) cap with
          | Some h => if decide (h = 0)%N then Some BudgetExhausted else None
          | None => None
          end
      | None => None
      end in
    if requires_committee (rq_criticality rq) then
      match ca_status (c_calibration c) with
      | Missing | HistoryUnavailable => Some MissingCalibrationOnCritical
      | Stale => Some StaleCalibrationOnCritical
      | Fresh => if is_known (c_consumption c) then budget else Some LocalHistoryUnavailableOnCritical
      end
    else budget.

(** ** Score *)

Definition stale_term (s : observation_status) (w : score_weights) : Z :=
  if decide (s = Stale) then w_stale_penalty w else 0%Z.

Definition score_version : N := 1.
Definition receipt_schema_version : N := 1.

Definition score_candidate (c : sor_candidate) (w : score_weights) : candidate_score :=
  let quality := mul_i64 (default 0%Z (ca_score_permille (c_calibration c))) (w_quality w) in
  let head :=
    match c_budget_cap c ≫= headroom (c_consumption c) with
    | Some h => mul_i64 (Z.of_N h) (w_headroom w)
    | None => 0%Z
    end in
  let availability := mul_i64 (default 0%Z (ob_value (c_availability c))) (w_availability w) in
  let cost := mul_i64 (neg_i64 (default 0%Z (ob_value (c_cost c)))) (w_cost w) in
  let penalty :=
    add_i64 (add_i64 (stale_term (ob_status (c_availability c)) w) (stale_term (ob_status (c_cost c)) w))
      (stale_term (ca_status (c_calibration c)) w) in
  CandidateScore (candidate_id c) score_version quality head availability cost penalty
    (sub_i64 (add_i64 (add_i64 (add_i64 quality head) availability) cost) penalty).

(** The comparison of [select]: the greater total, then the adapter, then the
    model. *)
Definition rank_key (x : sor_candidate * candidate_score) : Z * (string * option string) :=
  ((- s_total x.2)%Z, (c_adapter x.1, c_model x.1)).

(** ** Selection *)

Inductive sor_refusal : Type :=
| NoAdmissibleCandidate (subject : string) (rejects : list reject_record)
| NoCandidatesOffered (subject : string).

Record sor_decision := SorDecision { de_chosen : chosen_incarnation; de_receipt : routing_receipt }.

Definition incarnation_of (c : sor_candidate) : chosen_incarnation :=
  ChosenIncarnation (c_adapter c) (c_model c) (c_effort c).

Definition rejects_of (rq : sor_request) (l : list sor_candidate) : list reject_record :=
  omap (λ c, reason ← admit_candidate c rq; Some (RejectRecord (candidate_id c) reason)) l.

Definition admissible (rq : sor_request) (l : list sor_candidate) : list sor_candidate :=
  filter (λ c, admit_candidate c rq = None) l.

Definition select `{SorHash} (rq : sor_request) (candidates : list sor_candidate) (w : score_weights)
    (now : Z) : result sor_refusal sor_decision :=
  match candidates with
  | [] => Err (NoCandidatesOffered (rq_subject rq))
  | _ =>
      match sort_by rank_key ((λ c, (c, score_candidate c w)) <$> admissible rq candidates) with
      | [] => Err (NoAdmissibleCandidate (rq_subject rq) (rejects_of rq candidates))
      | ((winner, _) :: _) as ranked =>
          let chosen := incarnation_of winner in
          Ok (SorDecision chosen (seal
                (RoutingReceipt receipt_schema_version score_version (rq_subject rq) (rq_revision rq)
                   (rq_attempt rq) (rq_supersedes rq) (rq_policy_digest rq) (rq_criticality rq)
                   (rq_criticality_actors rq) now (candidate_id <$> candidates) (rejects_of rq candidates)
                   (snd <$> ranked) chosen "")))
      end
  end.

(** ** What is selected *)

Lemma seal_verifies `{SorHash} r : verify_hash (seal r) = true.
Proof. unfold verify_hash, seal. by apply bool_decide_eq_true. Qed.

(** The ranking of the admissible candidates. *)
Definition ranking (rq : sor_request) (l : list sor_candidate) (w : score_weights) :
    list (sor_candidate * candidate_score) :=
  sort_by rank_key ((λ c, (c, score_candidate c w)) <$> admissible rq l).

Lemma ranking_perm rq l w : ranking rq l w ≡ₚ (λ c, (c, score_candidate c w)) <$> admissible rq l.
Proof. apply sort_by_perm. Qed.

Lemma elem_of_admissible rq l c : c ∈ admissible rq l ↔ c ∈ l ∧ admit_candidate c rq = None.
Proof. unfold admissible. rewrite list_elem_of_filter. tauto. Qed.

(** [a] beats [b]: the greater score, then the smaller adapter and model. *)
Definition beats (w : score_weights) (a b : sor_candidate) : Prop :=
  rank_key (a, score_candidate a w) ≼ rank_key (b, score_candidate b w).

(** The winner is the first of the best. *)
Lemma ranking_head rq l w c s rest :
  ranking rq l w = (c, s) :: rest →
  s = score_candidate c w ∧ admit_candidate c rq = None ∧
  ∃ pre post, l = pre ++ c :: post ∧
    (∀ c', c' ∈ l → admit_candidate c' rq = None → beats w c c') ∧
    (∀ c', c' ∈ pre → admit_candidate c' rq = None → ¬ beats w c' c).
Proof.
  intros Hr. destruct (sort_by_head _ _ _ _ Hr) as (pre & post & Hl & Hmin & Hpre).
  apply fmap_app_inv in Hl as (lp & lq & -> & Hq & Hl). symmetry in Hq.
  apply fmap_cons_inv in Hq as (c' & lq' & [= <- ->] & -> & ->).
  split; [done|].
  assert (c ∈ admissible rq l) as [Hc Hadm]%elem_of_admissible by (rewrite Hl; set_solver).
  split; [done|]. clear Hc Hr.
  assert (∃ p q, l = p ++ c :: q ∧ admissible rq p = lp) as (p & q & Hsplit & Hp).
  { clear Hmin Hpre. unfold admissible in *. revert lp Hl. induction l as [|x l IH]; intros lp Hl.
    { by destruct lp. }
    destruct (decide (admit_candidate x rq = None)) as [Hx|Hx];
      [rewrite filter_cons_True in Hl by done | rewrite filter_cons_False in Hl by done].
    - destruct lp as [|y lp]; cbn in Hl; injection Hl as -> Hl.
      + exists [], l. done.
      + destruct (IH lp Hl) as (p & q & -> & Hp). exists (y :: p), q. split; [done|].
        rewrite filter_cons_True by done. by rewrite Hp.
    - destruct (IH lp Hl) as (p & q & -> & Hp). exists (x :: p), q. split; [done|].
      by rewrite filter_cons_False. }
  exists p, q. split; [done|]. split.
  - intros c' Hc' Ha. apply (Hmin (c', score_candidate c' w)). apply list_elem_of_fmap. exists c'.
    split; [done|]. by apply elem_of_admissible.
  - intros c' Hc' Ha Hb. apply (Hpre (c', score_candidate c' w)).
    + apply list_elem_of_fmap. exists c'. split; [done|]. rewrite <- Hp. by apply elem_of_admissible.
    + apply (anti_symm ord_le); [done|]. apply (Hmin (c', score_candidate c' w)). apply list_elem_of_fmap.
      exists c'. split; [done|]. apply elem_of_admissible. split; [|done]. rewrite Hsplit. set_solver.
Qed.

(** *** The conditions of admission, in the order of the code *)

Definition critical (rq : sor_request) : Prop := rq_criticality rq ≠ Routine.

Definition fails (rq : sor_request) (c : sor_candidate) (reason : reject_reason) : Prop :=
  match reason with
  | NotSpawnable => c_spawnable c = false
  | PinMismatch => c_honors_pin c = false
  | CapacityExhausted => c_capacity_ok c = false
  | DiversityRequirementUnmet => c_diversity_ok c = false
  | MissingCalibrationOnCritical =>
      critical rq ∧ (ca_status (c_calibration c) = Missing ∨ ca_status (c_calibration c) = HistoryUnavailable)
  | StaleCalibrationOnCritical => critical rq ∧ ca_status (c_calibration c) = Stale
  | LocalHistoryUnavailableOnCritical => critical rq ∧ c_consumption c = Unavailable
  | BudgetExhausted => ∃ cap n, c_budget_cap c = Some cap ∧ c_consumption c = Available n ∧ (cap ≤ n)%N
  end.

Definition reasons : list reject_reason :=
  [NotSpawnable; PinMismatch; CapacityExhausted; DiversityRequirementUnmet; MissingCalibrationOnCritical;
   StaleCalibrationOnCritical; LocalHistoryUnavailableOnCritical; BudgetExhausted].

Definition fit (rq : sor_request) (c : sor_candidate) : Prop := ∀ reason, ¬ fails rq c reason.

(** The first of the reasons that hold. *)
Definition refused_for (rq : sor_request) (c : sor_candidate) (reason : reject_reason) : Prop :=
  ∃ pre post, reasons = pre ++ reason :: post ∧ fails rq c reason ∧ ∀ r, r ∈ pre → ¬ fails rq c r.

Lemma requires_committee_critical rq : requires_committee (rq_criticality rq) = true ↔ critical rq.
Proof. unfold critical. destruct (rq_criticality rq); cbn; split; (done || by intros []). Qed.

(** The check of the budget. *)
Lemma budget_check (o : local_consumption) cap (e : option reject_reason) :
  e = match cap with
      | Some cap => match headroom o cap with Some h => if decide (h = 0)%N then Some BudgetExhausted else None | None => None end
      | None => None
      end →
  (e = Some BudgetExhausted ∧ ∃ x n, cap = Some x ∧ o = Available n ∧ (x ≤ n)%N) ∨
  (e = None ∧ ∀ x n, cap = Some x → o = Available n → ¬ (x ≤ n)%N).
Proof.
  intros ->. destruct cap as [x|]; [|right; naive_solver]. destruct o as [n|]; cbn; [|right; naive_solver].
  case_decide; [left|right]; (split; [done|]).
  - exists x, n. split_and!; [done..|lia].
  - intros ? ? [= <-] [= <-]. lia.
Qed.

Lemma refused_at rq c k reason :
  reasons !! k = Some reason → fails rq c reason → (∀ r, r ∈ take k reasons → ¬ fails rq c r) → refused_for rq c reason.
Proof.
  intros Hk Hf Hp. exists (take k reasons), (drop (S k) reasons). split_and!; [|done..].
  by rewrite (take_drop_middle reasons k reason).
Qed.

(** None of the earlier reasons holds. *)
Ltac earlier :=
  let r := fresh "r" in let Hr := fresh "Hr" in
  intros r Hr; cbn [take reasons] in Hr;
  repeat (apply elem_of_cons in Hr as [->|Hr]; [cbn; naive_solver congruence|]); by apply elem_of_nil in Hr.

Lemma admit_candidate_spec c rq :
  match admit_candidate c rq with None => fit rq c | Some reason => refused_for rq c reason end.
Proof.
  unfold admit_candidate.
  destruct (c_spawnable c) eqn:H1; cbn [negb]; [|apply (refused_at _ _ 0); [done..|]; earlier].
  destruct (c_honors_pin c) eqn:H2; cbn [negb];
    [|apply (refused_at _ _ 1); [done..|]; earlier].
  destruct (c_capacity_ok c) eqn:H3; cbn [negb];
    [|apply (refused_at _ _ 2); [done..|]; earlier].
  destruct (c_diversity_ok c) eqn:H4; cbn [negb];
    [|apply (refused_at _ _ 3); [done..|]; earlier].
  set (budget := match c_budget_cap c with Some _ => _ | None => None end).
  destruct (budget_check (c_consumption c) (c_budget_cap c) budget eq_refl) as [[-> Hb]|[-> Hb]].
  all: pose proof (requires_committee_critical rq) as Hcrit.
  all: destruct (requires_committee (rq_criticality rq)) eqn:Hc.
  all: try (assert (critical rq) by (by apply Hcrit)).
  all: try (assert (¬ critical rq) by (intros Hx; apply Hcrit in Hx; congruence)).
  all: try destruct (ca_status (c_calibration c)) eqn:H5; cbn.
  all: try destruct (c_consumption c) as [n|] eqn:H6; cbn.
  all: try (intros []; cbn; rewrite ?H5, ?H6;
    first [congruence|naive_solver|intros (? & ? & ? & ? & ?); eapply Hb; eauto; congruence]).
  all: first [apply (refused_at _ _ 4); [done|cbn; rewrite H5; naive_solver|]
             |apply (refused_at _ _ 5); [done|cbn; rewrite H5; naive_solver|]
             |apply (refused_at _ _ 6); [done|cbn; rewrite H6; naive_solver|]
             |apply (refused_at _ _ 7); [done|cbn; rewrite H6; exact Hb|]].
  all: earlier.
Qed.
(** *** The score and the order *)

Definition stale_mark (s : observation_status) : Z := match s with Stale => 1 | _ => 0 end.

(** The weighted sum that a score stands for, over the integers. *)
Definition weighted (w : score_weights) (c : sor_candidate) : Z :=
  w_quality w * default 0%Z (ca_score_permille (c_calibration c)) +
  w_headroom w *
    match c_budget_cap c, c_consumption c with Some cap, Available n => Z.of_N (cap - n) | _, _ => 0 end +
  w_availability w * default 0%Z (ob_value (c_availability c)) - w_cost w * default 0%Z (ob_value (c_cost c)) -
  w_stale_penalty w * (stale_mark (ob_status (c_availability c)) + stale_mark (ob_status (c_cost c)) +
                       stale_mark (ca_status (c_calibration c))).

(** The score of a candidate: the weighted sum in 64 bits. *)
Definition score (w : score_weights) (c : sor_candidate) : Z := wrap_i64 (weighted w c).

Lemma wrap_shift z : ∃ k, wrap_i64 z = (z + k * two64)%Z.
Proof.
  exists (- ((z - i64_min) `div` two64))%Z. unfold wrap_i64.
  pose proof (Z.div_mod (z - i64_min) two64 ltac:(done)). lia.
Qed.

Lemma wrap_same a b : (∃ k, a = b + k * two64)%Z → wrap_i64 a = wrap_i64 b.
Proof.
  intros [k ->]. unfold wrap_i64. f_equal. replace (b + k * two64 - i64_min)%Z with (b - i64_min + k * two64)%Z by lia.
  apply Z_mod_plus_full.
Qed.

(** Names the multiple by which an innermost wrap differs from its argument. *)
Ltac shift_as k :=
  match goal with
  | |- context [wrap_i64 ?z] =>
      lazymatch z with
      | context [wrap_i64 _] => fail
      | _ => destruct (wrap_shift z) as [k ->]
      end
  end.

Lemma penalty_shift w a b c :
  ∃ k, add_i64 (add_i64 (stale_term a w) (stale_term b w)) (stale_term c w) =
    (w_stale_penalty w * (stale_mark a + stale_mark b + stale_mark c) + k * two64)%Z.
Proof.
  assert (∀ s, stale_term s w = w_stale_penalty w * stale_mark s)%Z as Hs
    by (intros []; unfold stale_term; case_decide; cbn; (done || lia)).
  rewrite !Hs. unfold add_i64. shift_as k1. shift_as k2. exists (k1 + k2)%Z. ring.
Qed.

Lemma score_total w c : s_total (score_candidate c w) = score w c.
Proof.
  unfold score, weighted, score_candidate. cbn [s_total]. unfold sub_i64 at 1. apply wrap_same.
  destruct (penalty_shift w (ob_status (c_availability c)) (ob_status (c_cost c)) (ca_status (c_calibration c))) as [kp ->].
  set (room := match c_budget_cap c with Some cap => match c_consumption c with _ => _ end | None => _ end).
  assert (∃ k, match c_budget_cap c ≫= headroom (c_consumption c) with
               | Some h => mul_i64 (Z.of_N h) (w_headroom w) | None => 0%Z end = w_headroom w * room + k * two64)%Z as [kh ->].
  { subst room. destruct (c_budget_cap c) as [cap|]; cbn; [|exists 0%Z; lia].
    destruct (c_consumption c); cbn; [|exists 0%Z; lia]. unfold mul_i64. shift_as k. exists k. ring. }
  generalize (default 0%Z (ca_score_permille (c_calibration c))) as q, (default 0%Z (ob_value (c_availability c))) as a,
    (default 0%Z (ob_value (c_cost c))) as p. intros q a p. unfold add_i64, mul_i64, neg_i64.
  destruct (wrap_shift (q * w_quality w)) as [k1 ->], (wrap_shift (a * w_availability w)) as [k2 ->],
    (wrap_shift (- p)) as [k3 ->]. destruct (wrap_shift ((- p + k3 * two64) * w_cost w)) as [k4 ->].
  shift_as k5. shift_as k6. shift_as k7. exists (k1 + kh + k2 + k3 * w_cost w + k4 + k5 + k6 + k7 - kp)%Z. ring.
Qed.

Definition before (a b : string) : Prop := a ≠ b ∧ String.le a b.

Definition model_before (a b : option string) : Prop :=
  match a, b with None, Some _ => True | Some x, Some y => before x y | _, None => False end.

(** [a] ranks strictly above [b]: a greater score, or the same score and an
    earlier adapter, or the same adapter and an earlier model. *)
Definition ranks_above (w : score_weights) (a b : sor_candidate) : Prop :=
  (score w b < score w a)%Z ∨
  score w a = score w b ∧
    (before (c_adapter a) (c_adapter b) ∨ c_adapter a = c_adapter b ∧ model_before (c_model a) (c_model b)).
Lemma ranks_above_beats w a b : ranks_above w a b ↔ ¬ beats w b a.
Proof.
  unfold ranks_above, beats, rank_key. cbn [fst snd]. rewrite !score_total. unfold before, ord_le; cbn.
  unfold pair_le; cbn [fst snd]. unfold ord_le; cbn. unfold pair_le; cbn [fst snd]. unfold ord_le; cbn.
  generalize (score w a) as x, (score w b) as y. intros x y.
  assert (∀ s t : string, s ≠ t ∧ String.le s t ↔ ¬ String.le t s) as Hstr.
  { intros s t. split; [intros [Hn Hle] Hle'; apply Hn; by apply (anti_symm String.le)|].
    intros Hn. destruct (total String.le s t) as [Hle|]; [|done]. split; [|done]. intros ->. by apply Hn. }
  assert (model_before (c_model a) (c_model b) ↔ ¬ option_le (c_model b) (c_model a)) as Hmod.
  { unfold model_before, before, option_le. destruct (c_model a), (c_model b); cbn; [apply Hstr|tauto..]. }
  rewrite Hmod, Hstr. destruct (Z.lt_trichotomy x y) as [Hlt|[->|Hlt]].
  - split; [lia|]. intros Hn. exfalso. apply Hn. left. lia.
  - destruct (decide (c_adapter a = c_adapter b)) as [He|He].
    + rewrite He. assert (String.le (c_adapter b) (c_adapter b)) by done. split; [|intros Hn; right; split; [done|right; tauto]].
      intros [?|(_ & [?|[_ Ho]])]; [lia|done|]. intros [[? _]|(_ & [[? _]|[_ ?]])]; done.
    + split.
      * intros [?|(_ & [Ho|[? _]])]; [lia| |done]. intros [[? _]|(_ & [[_ ?]|[? _]])]; (done || congruence).
      * intros Hn. right. split; [done|]. left. intros Hle. apply Hn. right. split; [done|]. left. split; [congruence|done].
  - split; [|intros _; left; lia]. intros _ [[_ ?]|[? _]]; lia.
Qed.

(** *** What a decision must be *)

(** A line for each candidate that is not fit, in the order of the offer, with
    the first reason that holds of it. *)
Definition rejects_ok (rq : sor_request) (l : list sor_candidate) (rs : list reject_record) : Prop :=
  ∃ bad good, bad ++ good ≡ₚ l ∧ sublist bad l ∧ Forall (fit rq) good ∧
    Forall2 (λ c x, rj_candidate x = candidate_id c ∧ refused_for rq c (rj_reason x)) bad rs.

Definition scored (w : score_weights) (c : sor_candidate) (x : candidate_score) : Prop :=
  s_candidate x = candidate_id c ∧ s_version x = 1%N ∧ s_total x = score w c.

(** The scores of the fit candidates, the best first. *)
Definition scores_ok (rq : sor_request) (l : list sor_candidate) (w : score_weights) (c : sor_candidate)
    (xs : list candidate_score) : Prop :=
  ∃ ranked bad, head ranked = Some c ∧ ranked ++ bad ≡ₚ l ∧ Forall (fit rq) ranked ∧ Forall (λ c, ¬ fit rq c) bad ∧
    StronglySorted (λ a b, ¬ ranks_above w b a) ranked ∧ Forall2 (scored w) ranked xs.

Record receipt_ok `{SorHash} (rq : sor_request) (l : list sor_candidate) (w : score_weights) (now : Z)
    (c : sor_candidate) (r : routing_receipt) : Prop := {
  ro_schema : re_schema_version r = 1%N;
  ro_version : re_score_version r = 1%N;
  ro_subject : re_subject r = rq_subject rq;
  ro_revision : re_revision r = rq_revision rq;
  ro_attempt : re_attempt r = rq_attempt rq;
  ro_supersedes : re_supersedes r = rq_supersedes rq;
  ro_policy : re_policy_digest r = rq_policy_digest rq;
  ro_criticality : re_criticality r = rq_criticality rq;
  ro_actors : re_criticality_actors r = rq_criticality_actors rq;
  ro_decided : re_decided_at r = now;
  ro_considered : re_candidates_considered r = candidate_id <$> l;
  ro_rejects : rejects_ok rq l (re_rejects r);
  ro_scores : scores_ok rq l w c (re_scores r);
  ro_chosen : re_chosen r = ChosenIncarnation (c_adapter c) (c_model c) (c_effort c);
  ro_hash : re_receipt_hash r = receipt_digest (with_receipt_hash r "");
}.

Definition decision_ok `{SorHash} (rq : sor_request) (l : list sor_candidate) (w : score_weights) (now : Z)
    (d : sor_decision) : Prop :=
  ∃ pre c post, l = pre ++ c :: post ∧ fit rq c ∧
    (∀ c', c' ∈ l → fit rq c' → ¬ ranks_above w c' c) ∧ (∀ c', c' ∈ pre → fit rq c' → ranks_above w c c') ∧
    de_chosen d = ChosenIncarnation (c_adapter c) (c_model c) (c_effort c) ∧ receipt_ok rq l w now c (de_receipt d).

Lemma fit_admitted rq c : fit rq c ↔ admit_candidate c rq = None.
Proof.
  pose proof (admit_candidate_spec c rq) as Ha. destruct (admit_candidate c rq) as [r|]; [|done].
  destruct Ha as (pre & post & _ & Hf & _). split; [|done]. intros Hfit. by destruct (Hfit r).
Qed.

Lemma rejects_of_ok rq l : rejects_ok rq l (rejects_of rq l).
Proof.
  exists (filter (λ c, admit_candidate c rq ≠ None) l), (admissible rq l). unfold admissible, rejects_of. split_and!.
  - induction l as [|c l IH]; [done|]. rewrite !filter_cons. destruct (admit_candidate c rq) as [r|]; cbn.
    + rewrite decide_True, decide_False by done. cbn. by rewrite IH.
    + rewrite decide_False, decide_True by (done || intros Hn; by apply Hn). by rewrite <- Permutation_middle, IH.
  - apply sublist_filter.
  - apply Forall_forall. intros c [Hc _]%list_elem_of_filter. by apply fit_admitted.
  - induction l as [|c l IH]; [constructor|]. rewrite filter_cons. cbn.
    pose proof (admit_candidate_spec c rq) as Ha. destruct (admit_candidate c rq) as [r|]; cbn.
    + rewrite decide_True by done. constructor; [done|exact IH].
    + rewrite decide_False by (intros Hn; by apply Hn). exact IH.
Qed.

Lemma StronglySorted_map {A B} (R : relation A) (R' : relation B) (f : A → B) l :
  (∀ x y, x ∈ l → y ∈ l → R x y → R' (f x) (f y)) → StronglySorted R l → StronglySorted R' (f <$> l).
Proof.
  intros HR Hs. induction Hs as [|x l Hs IH Hx]; cbn; constructor.
  - apply IH. intros a b ? ?. apply HR; by right.
  - rewrite Forall_fmap. rewrite Forall_forall in Hx |- *. intros y Hy. cbn. apply HR; [left|by right|by apply Hx].
Qed.

Lemma ranking_scored rq l w c s rest :
  ranking rq l w = (c, s) :: rest → scores_ok rq l w c (ranking rq l w).*2.
Proof.
  intros Hr. assert (∀ x, x ∈ ranking rq l w → x.2 = score_candidate x.1 w ∧ fit rq x.1) as Hin.
  { intros x. rewrite (ranking_perm rq l w), list_elem_of_fmap. intros (c' & -> & [_ Hc]%elem_of_admissible).
    split; [done|]. by apply fit_admitted. }
  exists (ranking rq l w).*1, (filter (λ c, admit_candidate c rq ≠ None) l). split_and!.
  - by rewrite Hr.
  - rewrite (ranking_perm rq l w), <- list_fmap_compose. cbn. rewrite list_fmap_id. unfold admissible.
    clear. induction l as [|c l IH]; [done|]. rewrite !filter_cons. destruct (admit_candidate c rq) as [r|]; cbn.
    + rewrite decide_False, decide_True by done. by rewrite <- Permutation_middle, IH.
    + rewrite decide_True, decide_False by (done || intros Hn; by apply Hn). cbn. by rewrite IH.
  - rewrite Forall_fmap. apply Forall_forall. intros x Hx. by apply Hin.
  - apply Forall_forall. intros c' [Hc' _]%list_elem_of_filter. by rewrite fit_admitted.
  - apply (StronglySorted_map (λ x y, rank_key x ≼ rank_key y)); [|apply sort_by_sorted].
    intros [a sa] [b sb] Ha Hb Hle. destruct (Hin _ Ha) as [Hsa _], (Hin _ Hb) as [Hsb _]. cbn in *. subst.
    rewrite ranks_above_beats. intros Hn. by apply Hn.
  - apply Forall2_fmap, Forall_Forall2_diag, Forall_forall. intros x Hx. destruct (Hin x Hx) as [-> _].
    split_and!; [done..|apply score_total].
Qed.

(** C40. A selection never leaves the fit candidates: it answers the first of
    those with the greatest score, ties going to the earlier adapter and model.
    Its receipt carries the request, lists every candidate, each unfit one once
    with the first reason that holds of it, and the scores of the fit ones from
    the best down, and is sealed. It refuses exactly when nothing was offered or
    nothing is fit, and then lists why for every candidate. *)
Theorem select_exact `{SorHash} rq candidates w now :
  match select rq candidates w now with
  | Ok d => decision_ok rq candidates w now d
  | Err (NoCandidatesOffered s) => candidates = [] ∧ s = rq_subject rq
  | Err (NoAdmissibleCandidate s rejects) =>
      candidates ≠ [] ∧ s = rq_subject rq ∧ (∀ c, c ∈ candidates → ¬ fit rq c) ∧ rejects_ok rq candidates rejects
  end.
Proof.
  unfold select. destruct candidates as [|c0 l0] eqn:Hc; [done|].
  assert (candidates ≠ []) as Hne by (by rewrite Hc). rewrite <- Hc in *. clear Hc. rename candidates into l.
  change (sort_by rank_key _) with (ranking rq l w).
  destruct (ranking rq l w) as [|[c s] rest] eqn:Hr.
  - split_and!; [done|done| |apply rejects_of_ok]. intros c Hin Ha%fit_admitted.
    pose proof (ranking_perm rq l w) as Hp. rewrite Hr in Hp. apply Permutation_nil_l in Hp.
    symmetry in Hp. apply fmap_nil_inv in Hp.
    assert (c ∈ admissible rq l) as He by (by apply elem_of_admissible). rewrite Hp in He.
    by apply elem_of_nil in He.
  - pose proof (ranking_scored _ _ _ _ _ _ Hr) as Hscores. rewrite Hr in Hscores.
    destruct (ranking_head _ _ _ _ _ _ Hr) as (-> & Ha & pre & post & Hl & Hbest & Hfirst).
    exists pre, c, post. split_and!; [done|by apply fit_admitted| | |done|].
    + intros c' Hc' Hf%fit_admitted. rewrite ranks_above_beats. intros Hn. by apply Hn, Hbest.
    + intros c' Hc' Hf%fit_admitted. apply ranks_above_beats. by apply Hfirst.
    + constructor; try done. apply rejects_of_ok.
Qed.

(** A critical request is only given a candidate with a fresh calibration, a
    known consumption and a budget that is not used up. *)
Theorem admitted_critical c rq :
  admit_candidate c rq = None → requires_committee (rq_criticality rq) = true →
  ca_status (c_calibration c) = Fresh ∧ is_known (c_consumption c) = true ∧
  (∀ cap, c_budget_cap c = Some cap → ∃ n, c_consumption c = Available n ∧ (n < cap)%N).
Proof.
  intros Ha Hc. unfold admit_candidate in Ha. rewrite Hc in Ha.
  destruct (c_spawnable c), (c_honors_pin c), (c_capacity_ok c), (c_diversity_ok c),
    (ca_status (c_calibration c)); try done; cbn [negb] in Ha.
  destruct (c_consumption c) as [n|]; [|done]. split_and!; [done|done|]. intros cap Hcap.
  exists n. split; [done|]. rewrite Hcap in Ha. cbn in Ha. case_decide; [done|lia].
Qed.

(** ** The range of the score *)

Lemma wrap_i64_id z : in_i64 z → wrap_i64 z = z.
Proof.
  unfold in_i64, wrap_i64, i64_min, i64_max, two64. intros H. rewrite Z.mod_small by lia. lia.
Qed.

(** Removes an innermost wrap whose argument is in range. *)
Ltac unwrap :=
  match goal with
  | |- context [wrap_i64 ?z] =>
      lazymatch z with
      | context [wrap_i64 _] => fail
      | _ => rewrite (wrap_i64_id z) by (unfold in_i64, i64_min, i64_max; lia)
      end
  end.

(** The score of a candidate over the integers, for the default weights. *)
Definition plain_score (c : sor_candidate) : Z :=
  10 * default 0%Z (ca_score_permille (c_calibration c)) +
  5 * match c_budget_cap c ≫= headroom (c_consumption c) with Some h => Z.of_N h | None => 0 end +
  3 * default 0%Z (ob_value (c_availability c)) - 2 * default 0%Z (ob_value (c_cost c)) -
  1000 * Z.of_nat (length (filter (λ s, s = Stale)
            [ob_status (c_availability c); ob_status (c_cost c); ca_status (c_calibration c)])).

Definition score_bound : Z := 100000000000000000.

(** Within 10^17 nothing wraps: the score is the weighted sum that it
    stands for. *)
Theorem score_no_wrap c :
  (Z.abs (default 0 (ca_score_permille (c_calibration c))) ≤ score_bound)%Z →
  (Z.abs (default 0 (ob_value (c_availability c))) ≤ score_bound)%Z →
  (Z.abs (default 0 (ob_value (c_cost c))) ≤ score_bound)%Z →
  (∀ cap, c_budget_cap c = Some cap → (cap ≤ u32_max)%N) →
  s_total (score_candidate c default_weights) = plain_score c.
Proof.
  unfold score_bound, u32_max. intros Hq Ha Hk Hcap. unfold score_candidate, plain_score.
  cbn [s_total w_quality w_headroom w_availability w_cost default_weights].
  set (q := default 0%Z (ca_score_permille _)) in *. set (a := default 0%Z (ob_value (c_availability c))) in *.
  set (k := default 0%Z (ob_value (c_cost c))) in *.
  set (h := match c_budget_cap c ≫= headroom (c_consumption c) with Some h => Z.of_N h | None => 0%Z end).
  assert (0 ≤ h ≤ 4294967295)%Z as Hh.
  { subst h. destruct (c_budget_cap c) as [cap|] eqn:Hc; cbn; [|lia]. specialize (Hcap cap eq_refl).
    destruct (c_consumption c); cbn; lia. }
  assert (match c_budget_cap c ≫= headroom (c_consumption c) with
          | Some h => mul_i64 (Z.of_N h) 5 | None => 0%Z end = 5 * h)%Z as ->.
  { subst h. destruct (c_budget_cap c ≫= headroom (c_consumption c)) as [x|]; [|lia]. unfold mul_i64.
    rewrite wrap_i64_id by (unfold in_i64, i64_min, i64_max; lia). lia. }
  set (n := length (filter (λ s, s = Stale) _)).
  assert (add_i64 (add_i64 (stale_term (ob_status (c_availability c)) default_weights)
            (stale_term (ob_status (c_cost c)) default_weights))
            (stale_term (ca_status (c_calibration c)) default_weights) = 1000 * Z.of_nat n)%Z as ->.
  { subst n. unfold stale_term, add_i64. cbn [w_stale_penalty default_weights].
    destruct (ob_status (c_availability c)), (ob_status (c_cost c)), (ca_status (c_calibration c)); done. }
  assert (n ≤ 3) as Hn by (subst n; rewrite length_filter; cbn; lia).
  unfold sub_i64, add_i64, mul_i64, neg_i64.
  repeat unwrap. lia.
Qed.

Definition sample_observation (v : Z) : observation :=
  Observation (Some v) Config None 60 Fresh "".

Definition sample_candidate (quality availability cost : Z) : sor_candidate :=
  SorCandidate "claude" (Some "opus") None true true true true (Available 40) (Some 100%N)
    (CalibrationObs None (Some quality) None Fresh) (sample_observation availability)
    (sample_observation cost).

Lemma score_no_wrap_witness :
  s_total (score_candidate (sample_candidate 900 1 250) default_weights) = 8803%Z.
Proof.
  rewrite (score_no_wrap (sample_candidate 900 1 250));
    [done|vm_compute; discriminate|vm_compute; discriminate|vm_compute; discriminate|].
  intros cap [= <-]. vm_compute. discriminate.
Defined.

(** Past the range the terms wrap: a candidate of an enormous quality scores
    below one with none. *)
Example score_wraps :
  (s_total (score_candidate (sample_candidate (2 ^ 60) 1 250) default_weights) <
   s_total (score_candidate (sample_candidate 0 1 250) default_weights))%Z.
Proof. by vm_compute. Qed.
