(* ===== verification/Grant.v ===== *)
(** The authority to harvest, [crates/cosmon-core/src/harvest_authorization.rs]:
    the grant an operator signs and its canonical bytes, delegations and seals,
    the identity of a permit, and the decision [authorize] that turns a sealed
    grant and the facts of one harvest into a one-shot permit or a refusal.
    The digest and the printed instant are the interface [GrantText]. *)
From stdpp Require Import prelude gmap strings pretty list.
From Stdlib Require Import Ascii.
From S2P Require Import Prelude Text Ids Links Lease.

(** ** Grants *)

Definition harvest_grant_v1_tag : string := "cosmon-harvest-grant-v1".

(** [GrantEpoch(u64)] *)
Record grant_epoch := GrantEpoch { epoch_u64 : N }.

#[export] Instance grant_epoch_eq_dec : EqDecision grant_epoch.
Proof. solve_decision. Defined.

Definition grant_epoch_first : grant_epoch := GrantEpoch 1.
Definition grant_epoch_next (e : grant_epoch) : grant_epoch := GrantEpoch (u64_max `min` (epoch_u64 e + 1)).

Inductive harvest_action : Set := DoneAction.

#[export] Instance harvest_action_eq_dec : EqDecision harvest_action.
Proof. solve_decision. Defined.

Definition action_to_string (a : harvest_action) : string := match a with DoneAction => "done" end.

Inductive harvest_scope : Type :=
| MoleculeScope (molecule : mid)
| MissionScope (mission : mid) (policy_digest : string).

#[export] Instance harvest_scope_eq_dec : EqDecision harvest_scope.
Proof. solve_decision. Defined.

Definition scope_to_string (s : harvest_scope) : string :=
  match s with
  | MoleculeScope m => "molecule:" +:+ mid_raw m
  | MissionScope m digest => "mission:" +:+ mid_raw m +:+ "+policy:" +:+ digest
  end.

Inductive grant_error : Type :=
| FieldEmpty (field : string)
| FieldNotOneLine (field found : string)
| ReservationHoldsSeparator (found : string)
| RatificationIsNotMissionScoped (found : harvest_scope)
| DelegationHasReservations
| ReservationsNotCanonical.

Record harvest_grant := HarvestGrant {
  g_galaxy : string;
  g_scope : harvest_scope;
  g_base : string;
  g_action : harvest_action;
  g_reservations : list string;
  g_epoch : grant_epoch;
  g_expires : option Z;
}.

#[export] Instance harvest_grant_eq_dec : EqDecision harvest_grant.
Proof. solve_decision. Defined.

Definition one_line (field value : string) : result grant_error string :=
  if is_empty (trim value) then Err (FieldEmpty field)
  else if any_control value then Err (FieldNotOneLine field value)
  else Ok value.

Definition comma : ascii := ","%char.

(** The check of one reservation, in [validate] and [new]. *)
Definition reservation_ok (value : string) : result grant_error string :=
  value ← one_line "reservation" value;
  if contains_char comma value then Err (ReservationHoldsSeparator value) else Ok value.

Fixpoint reservations_ok (l : list string) : result grant_error unit :=
  match l with
  | [] => Ok tt
  | r :: l => _ ← reservation_ok r; reservations_ok l
  end.

Definition scope_ok (s : harvest_scope) : result grant_error unit :=
  match s with
  | MissionScope _ digest => _ ← one_line "policy_digest" digest; Ok tt
  | MoleculeScope _ => Ok tt
  end.

(** A [BTreeSet] in its order. *)
Definition canonical (l : list string) : list string := btree_iter (list_to_set l).

Definition validate_grant (g : harvest_grant) : result grant_error unit :=
  _ ← one_line "galaxy" (g_galaxy g);
  _ ← one_line "base" (g_base g);
  _ ← scope_ok (g_scope g);
  _ ← reservations_ok (g_reservations g);
  if decide (g_reservations g = canonical (g_reservations g)) then Ok tt
  else Err ReservationsNotCanonical.

Definition grant_new (galaxy : string) (scope : harvest_scope) (base : string) (action : harvest_action)
    (reservations : list string) (epoch : grant_epoch) (expires : option Z) :
    result grant_error harvest_grant :=
  galaxy ← one_line "galaxy" galaxy;
  base ← one_line "base" base;
  _ ← scope_ok scope;
  _ ← reservations_ok reservations;
  Ok (HarvestGrant galaxy scope base action (canonical reservations) epoch expires).

(** The digest of bytes, and [to_rfc3339]. *)
Class GrantText := {
  sha256 : string → list N;
  to_rfc3339 : Z → string;
}.

Definition reservations_text (l : list string) : string :=
  match l with [] => "none" | _ => join_with "," l end.

Definition expires_text `{GrantText} (e : option Z) : string :=
  match e with Some at_ => to_rfc3339 at_ | None => "none" end.

(** [fmt::Display for HarvestGrant]; [canonical_bytes] is its text. *)
Definition grant_to_string `{GrantText} (g : harvest_grant) : string :=
  harvest_grant_v1_tag +:+ nl +:+
  "galaxy=" +:+ g_galaxy g +:+ nl +:+
  "scope=" +:+ scope_to_string (g_scope g) +:+ nl +:+
  "base=" +:+ g_base g +:+ nl +:+
  "action=" +:+ action_to_string (g_action g) +:+ nl +:+
  "reservations=" +:+ reservations_text (g_reservations g) +:+ nl +:+
  "epoch=" +:+ pretty (epoch_u64 (g_epoch g)) +:+ nl +:+
  "expires=" +:+ expires_text (g_expires g) +:+ nl.

Definition grant_bytes `{GrantText} (g : harvest_grant) : string := grant_to_string g.

Definition hex_digest `{GrantText} (bytes : string) : string :=
  foldr (λ b s, hex2 b +:+ s) EmptyString (sha256 bytes).

Definition policy_digest `{GrantText} (bytes : string) : string := hex_digest bytes.

Definition fingerprint `{GrantText} (g : harvest_grant) : string := hex_digest (grant_bytes g).

Definition covers (g : harvest_grant) (molecule : mid) (mission : option mid)
    (policy : option string) : bool :=
  match g_scope g with
  | MoleculeScope sealed => bool_decide (sealed = molecule)
  | MissionScope sealed digest => bool_decide (mission = Some sealed) && bool_decide (policy = Some digest)
  end.

Definition rotation_statement `{GrantText} (tenant prior_digest new_public_key : string)
    (epoch : grant_epoch) : result grant_error string :=
  tenant ← one_line "tenant" tenant;
  prior ← one_line "prior_digest" prior_digest;
  Ok ("cosmon-harvest-root-rotation-v1" +:+ nl +:+ "tenant=" +:+ tenant +:+ nl +:+ "prior=" +:+ prior +:+
      nl +:+ "new=" +:+ policy_digest new_public_key +:+ nl +:+ "epoch=" +:+ pretty (epoch_u64 epoch) +:+ nl).

(** ** Sealed authorisations *)

Inductive done_authorization : Type :=
| Delegated (grant : harvest_grant) (attestation : operator_attestation)
| Ratified (grant : harvest_grant) (attestation : operator_attestation).

Definition auth_grant (a : done_authorization) : harvest_grant :=
  match a with Delegated g _ | Ratified g _ => g end.

Definition auth_attestation (a : done_authorization) : operator_attestation :=
  match a with Delegated _ t | Ratified _ t => t end.

(** [OperatorHarvestSeal::new] *)
Definition seal_new (g : harvest_grant) (t : operator_attestation) :
    result grant_error done_authorization :=
  match g_scope g with
  | MissionScope _ _ => Err (RatificationIsNotMissionScoped (g_scope g))
  | MoleculeScope _ => Ok (Ratified g t)
  end.

Definition validate_authorization (a : done_authorization) : result grant_error unit :=
  let g := auth_grant a in
  _ ← validate_grant g;
  match a, g_scope g with
  | Ratified _ _, MissionScope _ _ => Err (RatificationIsNotMissionScoped (g_scope g))
  | Delegated _ _, _ => if decide (g_reservations g = []) then Ok tt else Err DelegationHasReservations
  | _, _ => Ok tt
  end.

(** The digest of a fingerprint and a molecule. *)
Definition member_id `{GrantText} (g : harvest_grant) (molecule : mid) : string :=
  hex_digest (fingerprint g +:+ nl +:+ mid_raw molecule +:+ nl).

Definition permit_id `{GrantText} (a : done_authorization) (molecule : mid) : string :=
  match g_scope (auth_grant a) with
  | MoleculeScope _ => fingerprint (auth_grant a)
  | MissionScope _ _ => member_id (auth_grant a) molecule
  end.

(** The current identity of the permit and the one of older receipts. *)
Definition receipt_ids `{GrantText} (a : done_authorization) (molecule : mid) : list string :=
  [permit_id a molecule;
   match g_scope (auth_grant a) with
   | MoleculeScope _ => member_id (auth_grant a) molecule
   | MissionScope _ _ => fingerprint (auth_grant a)
   end].

(** ** Reservations *)

Definition is_reserved (tag : string) : bool :=
  bool_decide (tag ∈ ["hold:human"; "needs-review"; "needs-review-cross-provider"; "security"]) ||
  starts_with "security:" tag || bool_decide (tag = "no-auto-harvest") || starts_with "harvest_to:" tag.

Definition reservations_crossed (tags : list string) : list string :=
  canonical (filter (λ t, is_reserved t = true) tags).

(** ** Facts, receipts and permits *)

Record harvest_facts := HarvestFacts {
  hf_galaxy : string;
  hf_molecule : mid;
  hf_mission : option mid;
  hf_policy_digest : option string;
  hf_base : string;
  hf_action : harvest_action;
  hf_reservations_crossed : list string;
  hf_epoch : grant_epoch;
  hf_now : Z;
}.

Record harvest_effect := HarvestEffect {
  he_galaxy : string;
  he_molecule : mid;
  he_base : string;
}.

#[export] Instance harvest_effect_eq_dec : EqDecision harvest_effect.
Proof. solve_decision. Defined.

Definition effect_of (f : harvest_facts) : harvest_effect :=
  HarvestEffect (hf_galaxy f) (hf_molecule f) (hf_base f).

#[export] Instance operator_key_id_eq_dec : EqDecision operator_key_id.
Proof. solve_decision. Defined.

Record consumption_record := ConsumptionRecord {
  cr_permit : string;
  cr_grant : string;
  cr_effect : harvest_effect;
  cr_key_id : operator_key_id;
  cr_invocation_id : string;
}.

#[export] Instance consumption_record_eq_dec : EqDecision consumption_record.
Proof. solve_decision. Defined.

Record harvest_permit := HarvestPermit {
  hp_permit : string;
  hp_grant : string;
  hp_effect : harvest_effect;
  hp_key_id : operator_key_id;
}.

Inductive authorized_harvest : Type :=
| FreshPermit (p : harvest_permit)
| AlreadyLandedAs (r : consumption_record).

Inductive harvest_refusal : Type :=
| InvalidGrant (e : grant_error)
| NotSealed (e : attestation_error)
| WrongGalaxy (sealed actual : string)
| OutOfScope (molecule : mid) (scope : harvest_scope)
| WrongBase (sealed actual : string)
| WrongAction (sealed actual : harvest_action)
| ReservationNotNamed (reservation : string)
| ReservationRemoved (reservation : string)
| EpochSuperseded (sealed actual : grant_epoch)
| GrantExpiredAt (expired_at : Z)
| AlreadySpentElsewhere (spent_on requested : harvest_effect).

Inductive authorization_cause : Set :=
| ScopeMissing | CredentialExpired | CredentialRevoked | BindingChanged | Disabled | PolicyConflict
| KeyMissing | GrantMissing | GrantInvalid | SignatureInvalid | GrantMismatch | GrantExpired
| GrantRevoked | FactsChanged | FactsUnavailable | RecoveryRequired | EffectUnsupported
| OverrideRequiresRatification.

#[export] Instance authorization_cause_eq_dec : EqDecision authorization_cause.
Proof. solve_decision. Defined.

Definition cause_gate (c : authorization_cause) : string :=
  match c with
  | ScopeMissing => "scope"
  | CredentialExpired | CredentialRevoked => "credential"
  | BindingChanged => "binding"
  | Disabled | PolicyConflict => "policy"
  | KeyMissing => "key"
  | GrantMissing | GrantInvalid | SignatureInvalid | GrantMismatch | GrantExpired | GrantRevoked => "grant"
  | FactsChanged | FactsUnavailable => "facts"
  | RecoveryRequired => "receipt"
  | EffectUnsupported => "executor"
  | OverrideRequiresRatification => "override"
  end.

Definition cause_action (c : authorization_cause) : string :=
  match c with
  | ScopeMissing => "issue_scope"
  | CredentialExpired => "refresh_credential"
  | CredentialRevoked => "contact_administrator"
  | BindingChanged => "inspect_binding"
  | Disabled => "configure_harvest"
  | PolicyConflict | FactsUnavailable => "repair_configuration"
  | KeyMissing => "init_harvest"
  | GrantMissing | GrantMismatch | GrantExpired | GrantRevoked => "mint_grant"
  | GrantInvalid | SignatureInvalid => "inspect_grant"
  | FactsChanged => "retry_after_status"
  | RecoveryRequired => "reconcile_harvest"
  | EffectUnsupported => "use_library_effect"
  | OverrideRequiresRatification => "operator_review"
  end.

(** [HarvestRefusal::authorization_cause] *)
Definition refusal_cause (r : harvest_refusal) : authorization_cause :=
  match r with
  | InvalidGrant _ => GrantInvalid
  | NotSealed NoTrustRoot => KeyMissing
  | NotSealed _ => SignatureInvalid
  | EpochSuperseded _ _ => GrantRevoked
  | GrantExpiredAt _ => GrantExpired
  | WrongGalaxy _ _ | OutOfScope _ _ | WrongBase _ _ | WrongAction _ _ | ReservationNotNamed _
  | ReservationRemoved _ | AlreadySpentElsewhere _ _ => GrantMismatch
  end.

(** [HarvestSealVerifier] *)
Class HarvestSealVerifier (V : Type) := {
  seal_verify : V → harvest_grant → operator_attestation → result attestation_error unit;
  seal_key_id : V → operator_key_id;
}.

(** [NoHarvestTrustRoot]: a galaxy without a key, next to one with a key. *)
#[export] Instance optional_root {V} `{HarvestSealVerifier V} : HarvestSealVerifier (option V) :=
  {| seal_verify v g t := match v with Some v => seal_verify v g t | None => Err NoTrustRoot end;
     seal_key_id v := match v with Some v => seal_key_id v | None => OperatorKeyId (replicate 8 0%N) end |}.

(** ** The decision *)

(** The first reservation that one side does not know. *)
Definition reservation_refusal (named crossed : list string) : option harvest_refusal :=
  match list_find (λ c, c ∉ named) crossed with
  | Some (_, c) => Some (ReservationNotNamed c)
  | None =>
      match list_find (λ n, n ∉ crossed) named with
      | Some (_, n) => Some (ReservationRemoved n)
      | None => None
      end
  end.

(** What the facts hold against a grant, in the order of the source. *)
Definition facts_refusal (g : harvest_grant) (f : harvest_facts) : option harvest_refusal :=
  if decide (g_galaxy g ≠ hf_galaxy f) then Some (WrongGalaxy (g_galaxy g) (hf_galaxy f))
  else if negb (covers g (hf_molecule f) (hf_mission f) (hf_policy_digest f)) then
    Some (OutOfScope (hf_molecule f) (g_scope g))
  else if decide (g_base g ≠ hf_base f) then Some (WrongBase (g_base g) (hf_base f))
  else if decide (g_action g ≠ hf_action f) then Some (WrongAction (g_action g) (hf_action f))
  else
    match reservation_refusal (g_reservations g) (hf_reservations_crossed f) with
    | Some r => Some r
    | None =>
        if decide (g_epoch g ≠ hf_epoch f) then Some (EpochSuperseded (g_epoch g) (hf_epoch f))
        else
          match g_expires g with
          | Some expires => if decide (expires < hf_now f)%Z then Some (GrantExpiredAt expires) else None
          | None => None
          end
    end.

Definition authorize `{GrantText} {V} `{HarvestSealVerifier V} (a : done_authorization) (f : harvest_facts)
    (prior : option consumption_record) (v : V) : result harvest_refusal authorized_harvest :=
  let g := auth_grant a in
  match seal_verify v g (auth_attestation a) with
  | Err e => Err (NotSealed e)
  | Ok _ =>
      match validate_authorization a with
      | Err e => Err (InvalidGrant e)
      | Ok _ =>
          match facts_refusal g f with
          | Some r => Err r
          | None =>
              match prior with
              | Some record =>
                  if decide (cr_effect record = effect_of f) then Ok (AlreadyLandedAs record)
                  else Err (AlreadySpentElsewhere (cr_effect record) (effect_of f))
              | None =>
                  Ok (FreshPermit (HarvestPermit (permit_id a (hf_molecule f)) (fingerprint g) (effect_of f)
                                     (seal_key_id v)))
              end
          end
      end
  end.

(** ** What is authorised *)

(** The grant matches the facts. *)
Record matching (g : harvest_grant) (f : harvest_facts) : Prop := {
  ma_galaxy : g_galaxy g = hf_galaxy f;
  ma_scope : covers g (hf_molecule f) (hf_mission f) (hf_policy_digest f) = true;
  ma_base : g_base g = hf_base f;
  ma_action : g_action g = hf_action f;
  ma_reservations r : r ∈ g_reservations g ↔ r ∈ hf_reservations_crossed f;
  ma_epoch : g_epoch g = hf_epoch f;
  ma_alive e : g_expires g = Some e → (hf_now f ≤ e)%Z;
}.

(** The authority covers the harvest. *)
Definition covered `{GrantText} {V} `{HarvestSealVerifier V} (v : V) (a : done_authorization)
    (f : harvest_facts) : Prop :=
  seal_verify v (auth_grant a) (auth_attestation a) = Ok tt ∧ validate_authorization a = Ok tt ∧
  matching (auth_grant a) f.

(** What a refusal says is so. *)
Definition refused_for `{GrantText} {V} `{HarvestSealVerifier V} (v : V) (a : done_authorization)
    (f : harvest_facts) (prior : option consumption_record) (r : harvest_refusal) : Prop :=
  let g := auth_grant a in
  match r with
  | NotSealed e => seal_verify v g (auth_attestation a) = Err e
  | InvalidGrant e => validate_authorization a = Err e
  | WrongGalaxy s x => s = g_galaxy g ∧ x = hf_galaxy f ∧ s ≠ x
  | OutOfScope m s =>
      m = hf_molecule f ∧ s = g_scope g ∧
      covers g m (hf_mission f) (hf_policy_digest f) = false
  | WrongBase s x => s = g_base g ∧ x = hf_base f ∧ s ≠ x
  | WrongAction s x => s = g_action g ∧ x = hf_action f ∧ s ≠ x
  | ReservationNotNamed c => c ∈ hf_reservations_crossed f ∧ c ∉ g_reservations g
  | ReservationRemoved n => n ∈ g_reservations g ∧ n ∉ hf_reservations_crossed f
  | EpochSuperseded s x => s = g_epoch g ∧ x = hf_epoch f ∧ s ≠ x
  | GrantExpiredAt e => g_expires g = Some e ∧ (e < hf_now f)%Z
  | AlreadySpentElsewhere spent x =>
      covered v a f ∧ x = effect_of f ∧ spent ≠ x ∧ ∃ record, prior = Some record ∧ cr_effect record = spent
  end.

Lemma reservation_refusal_spec named crossed :
  match reservation_refusal named crossed with
  | None => ∀ r, r ∈ named ↔ r ∈ crossed
  | Some (ReservationNotNamed c) => c ∈ crossed ∧ c ∉ named
  | Some (ReservationRemoved n) => n ∈ named ∧ n ∉ crossed
  | Some _ => False
  end.
Proof.
  unfold reservation_refusal. destruct (list_find (λ c, c ∉ named) crossed) as [[i c]|] eqn:Hc.
  { apply list_find_Some in Hc as (Hi & Hn & _). split; [|done]. by eapply list_elem_of_lookup_2. }
  destruct (list_find (λ n, n ∉ crossed) named) as [[i n]|] eqn:Hn.
  { apply list_find_Some in Hn as (Hi & Hx & _). split; [|done]. by eapply list_elem_of_lookup_2. }
  apply list_find_None in Hc, Hn. rewrite Forall_forall in Hc, Hn.
  intros r. split; intros Hr; apply dec_stable; [by apply Hn|by apply Hc].
Qed.

Lemma facts_refusal_spec `{GrantText} {V} `{HarvestSealVerifier V} (v : V) a f prior :
  match facts_refusal (auth_grant a) f with
  | None => matching (auth_grant a) f
  | Some r => ¬ matching (auth_grant a) f ∧ refused_for v a f prior r ∧
              (∀ s x, r ≠ AlreadySpentElsewhere s x)
  end.
Proof.
  unfold facts_refusal. set (g := auth_grant a).
  destruct (decide (g_galaxy g ≠ hf_galaxy f)) as [Hg|Hg]; [by split_and!; [intros []| |]|].
  destruct (covers g _ _ _) eqn:Hc; cbn [negb];
    [|split_and!; [by intros [? Hs]; rewrite Hc in Hs|by split_and!|done]].
  destruct (decide (g_base g ≠ hf_base f)) as [Hb|Hb]; [by split_and!; [intros []| |]|].
  destruct (decide (g_action g ≠ hf_action f)) as [Ha|Ha]; [by split_and!; [intros []| |]|].
  pose proof (reservation_refusal_spec (g_reservations g) (hf_reservations_crossed f)) as Hr.
  destruct (reservation_refusal _ _) as [r|].
  { destruct r; try done; split_and!; try done; intros []; naive_solver. }
  destruct (decide (g_epoch g ≠ hf_epoch f)) as [He|He]; [by split_and!; [intros []| |]|].
  destruct (g_expires g) as [e|] eqn:Hx.
  - destruct (decide (e < hf_now f)%Z) as [Hlt|Hlt].
    + split_and!; [|done|done]. intros []. specialize (ma_alive0 e Hx). lia.
    + apply dec_stable in Hg, Hb, Ha, He. split; try done. intros e' He'. assert (e' = e) by congruence. lia.
  - apply dec_stable in Hg, Hb, Ha, He. split; try done. intros e' He'. congruence.
Qed.

(** C17. A harvest is authorised exactly when the seal of a valid grant verifies
    and the grant names its galaxy, molecule or mission under the policy in
    force, base, action, reservations and epoch and has not expired. Then a
    grant that was not spent gives the permit of this one effect, a grant that
    was spent on this effect answers the receipt, and one that was spent on
    another effect is refused; every other refusal names a condition that
    fails. *)
Theorem authorize_exact `{GrantText} {V} `{HarvestSealVerifier V} (v : V) a f prior :
  match authorize a f prior v with
  | Ok (FreshPermit p) =>
      covered v a f ∧ prior = None ∧
      p = HarvestPermit (permit_id a (hf_molecule f)) (fingerprint (auth_grant a)) (effect_of f) (seal_key_id v)
  | Ok (AlreadyLandedAs r) => covered v a f ∧ prior = Some r ∧ cr_effect r = effect_of f
  | Err r =>
      refused_for v a f prior r ∧
      (covered v a f → ∃ spent, r = AlreadySpentElsewhere spent (effect_of f))
  end.
Proof.
  unfold authorize, covered. destruct (seal_verify v _ _) as [[]|e] eqn:Hv; [|by split; [|intros (? & _)]].
  destruct (validate_authorization a) as [[]|e] eqn:Ha; [|by split; [|intros (_ & ? & _)]].
  pose proof (facts_refusal_spec v a f prior) as Hf. destruct (facts_refusal _ f) as [r|].
  - destruct Hf as (Hm & Hr & _). split; [done|]. by intros (_ & _ & ?).
  - destruct prior as [r|]; [|done]. destruct (decide (cr_effect r = effect_of f)) as [He|He].
    + done.
    + split; [|by eexists]. split_and!; try done. by exists r.
Qed.

Lemma authorize_sound `{GrantText} {V} `{HarvestSealVerifier V} (v : V) a f prior p :
  authorize a f prior v = Ok (FreshPermit p) →
  covered v a f ∧
  p = HarvestPermit (permit_id a (hf_molecule f)) (fingerprint (auth_grant a)) (effect_of f) (seal_key_id v).
Proof.
  unfold authorize, covered. destruct (seal_verify v _ _) as [[]|e]; [|done].
  destruct (validate_authorization a) as [[]|e]; [|done].
  pose proof (facts_refusal_spec v a f prior) as Hf. destruct (facts_refusal _ f) as [r|]; [done|].
  destruct prior as [r|]; [by case_decide|]. by intros [= <-].
Qed.

(** A fresh permit is for a grant that was not spent. *)
Lemma authorize_prior `{GrantText} {V} `{HarvestSealVerifier V} (v : V) a f prior p :
  authorize a f prior v = Ok (FreshPermit p) → prior = None ∧ hp_permit p = permit_id a (hf_molecule f).
Proof.
  unfold authorize. destruct (seal_verify v _ _); [|done]. destruct (validate_authorization a); [|done].
  destruct (facts_refusal _ f); [done|]. destruct prior as [r|]; [by case_decide|]. by intros [= <-].
Qed.

Lemma authorize_landed `{GrantText} {V} `{HarvestSealVerifier V} (v : V) a f prior r :
  authorize a f prior v = Ok (AlreadyLandedAs r) → covered v a f ∧ prior = Some r ∧ cr_effect r = effect_of f.
Proof.
  unfold authorize, covered. destruct (seal_verify v _ _) as [[]|e]; [|done].
  destruct (validate_authorization a) as [[]|e]; [|done].
  pose proof (facts_refusal_spec v a f prior) as Hf. destruct (facts_refusal _ f) as [x|]; [done|].
  destruct prior as [x|]; [|done]. case_decide as He; [|done]. intros [= <-]. done.
Qed.

(** ** What a signature covers *)

(** A printed instant is one line, not the word for none, and tells instants
    apart. *)
Class GrantTextLaws `{GrantText} := {
  rfc3339_line t : contains_char nl_char (to_rfc3339 t) = false;
  rfc3339_some t : to_rfc3339 t ≠ "none";
  rfc3339_inj t u : to_rfc3339 t = to_rfc3339 u → t = u;
}.

Lemma one_line_ok field value x :
  one_line field value = Ok x → x = value ∧ is_empty (trim value) = false ∧ contains_char nl_char value = false.
Proof.
  unfold one_line. destruct (is_empty (trim value)); [done|]. destruct (any_control value) eqn:Hc; [done|].
  intros [= <-]. split_and!; [done|done|]. by apply control_no_newline.
Qed.

Lemma reservations_ok_spec l :
  reservations_ok l = Ok tt →
  Forall (λ r, r ≠ EmptyString ∧ contains_char nl_char r = false ∧ contains_char comma r = false) l.
Proof.
  induction l as [|r l IH]; [constructor|]. cbn [reservations_ok].
  intros (x & Hr & Hl)%result_bind_ok. constructor; [|by apply IH].
  unfold reservation_ok in Hr. apply result_bind_ok in Hr as (y & (-> & He & Hn)%one_line_ok & Hr).
  destruct (contains_char comma r) eqn:Hc; [done|]. split_and!; [|done|done]. by intros ->.
Qed.

(** The identifiers of a scope were parsed. *)
Definition scope_wf (s : harvest_scope) : Prop :=
  match s with MoleculeScope m | MissionScope m _ => id_grammar m end.

(** What [validate] promises of a grant. *)
Record sealable (g : harvest_grant) : Prop := {
  se_galaxy : contains_char nl_char (g_galaxy g) = false;
  se_base : contains_char nl_char (g_base g) = false;
  se_scope : contains_char nl_char (scope_to_string (g_scope g)) = false;
  se_wf : scope_wf (g_scope g);
  se_reservations :
    Forall (λ r, r ≠ EmptyString ∧ contains_char nl_char r = false ∧ contains_char comma r = false)
      (g_reservations g);
}.

Lemma validate_sealable g : scope_wf (g_scope g) → validate_grant g = Ok tt → sealable g.
Proof.
  intros Hwf Hv. unfold validate_grant in Hv.
  apply result_bind_ok in Hv as (? & (_ & _ & Hg)%one_line_ok & Hv).
  apply result_bind_ok in Hv as (? & (_ & _ & Hb)%one_line_ok & Hv).
  apply result_bind_ok in Hv as ([] & Hs & Hv). apply result_bind_ok in Hv as ([] & Hr & _).
  split; [done|done| |done|by apply reservations_ok_spec].
  destruct (g_scope g) as [m|m d]; cbn [scope_to_string scope_ok scope_wf] in *; rewrite !contains_char_app.
  - by rewrite mid_no_newline.
  - apply result_bind_ok in Hs as (? & (_ & _ & Hd)%one_line_ok & _). by rewrite mid_no_newline, Hd.
Qed.

Lemma mid_no_plus m : id_grammar m → contains_char "+" (mid_raw m) = false.
Proof.
  intros [-> Hp _ Hd _ _ Hs]. unfold is_valid_molecule_prefix in Hp.
  rewrite !andb_true_iff in Hp. destruct Hp as [_ Hp].
  rewrite !contains_char_app, !orb_false_iff. split_and!; [|done| |done|].
  - by eapply all_chars_not_contains; [|exact Hp].
  - by eapply all_chars_not_contains; [|exact Hd].
  - by eapply all_chars_not_contains; [|exact Hs].
Qed.

Lemma scope_text_inj s s' : scope_wf s → scope_wf s' → scope_to_string s = scope_to_string s' → s = s'.
Proof.
  destruct s as [m|m d], s' as [m'|m' d']; cbn [scope_to_string scope_wf]; intros Hm Hm' He; try done.
  - apply (inj (String.append "molecule:")) in He. f_equal. by apply mid_raw_inj.
  - apply (inj (String.append "mission:")) in He.
    change (mid_raw m +:+ String "+" ("policy:" +:+ d) = mid_raw m' +:+ String "+" ("policy:" +:+ d')) in He.
    apply cut_first in He as [Hr Hd]; [|by apply mid_no_plus..].
    apply (inj (String.append "policy:")) in Hd. subst. f_equal. by apply mid_raw_inj.
Qed.

Lemma reservations_text_inj l l' :
  l ≠ ["none"] → l' ≠ ["none"] →
  Forall (λ r, r ≠ EmptyString ∧ contains_char nl_char r = false ∧ contains_char comma r = false) l →
  Forall (λ r, r ≠ EmptyString ∧ contains_char nl_char r = false ∧ contains_char comma r = false) l' →
  reservations_text l = reservations_text l' → l = l'.
Proof.
  assert (∀ r l, Forall (λ r, r ≠ EmptyString ∧ contains_char nl_char r = false ∧
            contains_char comma r = false) (r :: l) → join_with "," (r :: l) = "none" → r :: l = ["none"]) as Hnone.
  { intros r k Hk He. apply (join_with_inj comma); [done|done| | |exact He].
    - eapply Forall_impl; [exact Hk|]. naive_solver.
    - by repeat constructor. }
  intros Hn Hn' Hl Hl' He. destruct l as [|r l], l' as [|r' l']; [done| | |].
  - by destruct Hn'; apply Hnone.
  - by destruct Hn; apply Hnone.
  - apply (join_with_inj comma); [done|done| | |exact He].
    + eapply Forall_impl; [exact Hl|]. naive_solver.
    + eapply Forall_impl; [exact Hl'|]. naive_solver.
Qed.

Definition grant_lines `{GrantText} (g : harvest_grant) : list string :=
  [harvest_grant_v1_tag; "galaxy=" +:+ g_galaxy g; "scope=" +:+ scope_to_string (g_scope g);
   "base=" +:+ g_base g; "action=" +:+ action_to_string (g_action g);
   "reservations=" +:+ reservations_text (g_reservations g); "epoch=" +:+ pretty (epoch_u64 (g_epoch g));
   "expires=" +:+ expires_text (g_expires g)].

Lemma grant_text_lines `{GrantText} g : grant_to_string g = unlines (grant_lines g).
Proof.
  unfold grant_to_string, grant_lines. cbn [unlines]. rewrite string_app_nil_r.
  by repeat (rewrite string_app_cons || rewrite <- string_app_assoc).
Qed.

Lemma grant_lines_one_line `{GrantTextLaws} g :
  sealable g → Forall (λ x, contains_char nl_char x = false) (grant_lines g).
Proof.
  intros [Hg Hb Hs _ Hr]. unfold grant_lines. repeat constructor; rewrite ?contains_char_app.
  - by rewrite Hg.
  - by rewrite Hs.
  - by rewrite Hb.
  - by destruct (g_action g).
  - destruct (g_reservations g) as [|r l]; [done|]. unfold reservations_text.
    rewrite (join_with_no nl_char comma); [done|done|].
    eapply Forall_impl; [exact Hr|]. naive_solver.
  - by rewrite (digits_no_newline _ (pretty_N_digits _)).
  - destruct (g_expires g); cbn; [|done]. by rewrite rfc3339_line.
Qed.

(** No reservation, or the one that is called [none]. *)
Definition says_none (l : list string) : Prop := l = [] ∨ l = ["none"].

Lemma says_none_text l : says_none l → reservations_text l = reservations_text [].
Proof. by intros [-> | ->]. Qed.

Lemma says_none_dec l : says_none l ∨ l ≠ ["none"].
Proof. destruct (decide (l = ["none"])); [left; by right|by right]. Qed.

(** Two grants that say the same, but for that one name. *)
Definition same_grant (g h : harvest_grant) : Prop :=
  g_galaxy g = g_galaxy h ∧ g_scope g = g_scope h ∧ g_base g = g_base h ∧ g_action g = g_action h ∧
  g_epoch g = g_epoch h ∧ g_expires g = g_expires h ∧
  (g_reservations g = g_reservations h ∨ says_none (g_reservations g) ∧ says_none (g_reservations h)).

Lemma reservations_text_same l k :
  Forall (λ r, r ≠ EmptyString ∧ contains_char nl_char r = false ∧ contains_char comma r = false) l →
  Forall (λ r, r ≠ EmptyString ∧ contains_char nl_char r = false ∧ contains_char comma r = false) k →
  reservations_text l = reservations_text k → l = k ∨ says_none l ∧ says_none k.
Proof.
  intros Hl Hk. destruct (says_none_dec l) as [Nl|Nl], (says_none_dec k) as [Nk|Nk]; [by right| | |].
  - rewrite (says_none_text l Nl). intros He%reservations_text_inj; [|done..]. subst. right. split; [done|by left].
  - rewrite (says_none_text k Nk). intros He%reservations_text_inj; [|done..]. subst. right. split; [by left|done].
  - intros He%reservations_text_inj; [by left|done..].
Qed.

(** C38. The bytes that an operator signs determine the grant but for one
    collision: two valid grants have the same bytes exactly when they agree in
    every field, where no reservation and the one reservation called [none] are
    not told apart. *)
Theorem grant_bytes_injective `{GrantTextLaws} g h :
  scope_wf (g_scope g) → validate_grant g = Ok tt → scope_wf (g_scope h) → validate_grant h = Ok tt →
  grant_bytes g = grant_bytes h ↔ same_grant g h.
Proof.
  intros Wg Vg Wh Vh. apply validate_sealable in Vg as Sg, Vh as Sh; [|done..]. split.
  2:{ intros (E1 & E2 & E3 & E4 & E5 & E6 & Er).
      assert (reservations_text (g_reservations g) = reservations_text (g_reservations h)) as Et
        by (destruct Er as [->|[Hn Hm]]; [done|]; by rewrite (says_none_text _ Hn), (says_none_text _ Hm)).
      unfold grant_bytes. rewrite !grant_text_lines. unfold grant_lines. by rewrite E1, E2, E3, E4, E5, E6, Et. }
  intros He. unfold grant_bytes in He. rewrite !grant_text_lines in He.
  apply unlines_inj in He; [|by apply grant_lines_one_line..]. unfold grant_lines in He.
  apply (f_equal (λ l, (l !!! 1, l !!! 2, l !!! 3, l !!! 5, l !!! 6, l !!! 7))) in He.
  cbn [lookup_total list_lookup_total] in He.
  apply pair_equal_spec in He as [He Hx]. apply pair_equal_spec in He as [He Hep].
  apply pair_equal_spec in He as [He Hr]. apply pair_equal_spec in He as [He Hb].
  apply pair_equal_spec in He as [Hg Hs].
  apply (inj (String.append "galaxy=")) in Hg. apply (inj (String.append "scope=")) in Hs.
  apply (inj (String.append "base=")) in Hb. apply (inj (String.append "reservations=")) in Hr.
  apply (inj (String.append "epoch=")) in Hep. apply (inj (String.append "expires=")) in Hx.
  apply scope_text_inj in Hs; [|done..]. apply (inj pretty) in Hep.
  apply reservations_text_same in Hr; [|by apply se_reservations..].
  assert (g_expires g = g_expires h) as He.
  { destruct (g_expires g) as [t|], (g_expires h) as [u|]; cbn in Hx; [|..|done].
    - f_equal. by apply rfc3339_inj.
    - by destruct (rfc3339_some t).
    - by destruct (rfc3339_some u). }
  destruct g as [? ? ? [] ? [] ?], h as [? ? ? [] ? [] ?]. unfold same_grant. cbn in *. subst. by split_and!.
Qed.

(** A delegation reaches no reserved harvest. *)
Theorem delegation_unreserved `{GrantText} {V} `{HarvestSealVerifier V} (v : V) g t f :
  covered v (Delegated g t) f → hf_reservations_crossed f = [].
Proof.
  intros (_ & Hv & Hm). unfold validate_authorization in Hv. cbn in Hv.
  apply result_bind_ok in Hv as ([] & _ & Hv). case_decide as Hr; [|done].
  apply elem_of_nil_inv. intros r Hin. apply (ma_reservations _ _ Hm) in Hin. cbn in Hin.
  by rewrite Hr, elem_of_nil in Hin.
Qed.

(** ** Examples *)

Module GrantSamples.

(** The signature is the bytes that were signed; a digest is its input. *)
#[export] Instance sample_text : GrantText :=
  {| sha256 s := (λ c, N_of_ascii c) <$> String.list_ascii_of_string s; to_rfc3339 t := "at " +:+ pretty t |}.

#[export] Instance sample_laws : GrantTextLaws.
Proof.
  split.
  - intros t. change (to_rfc3339 t) with ("at " +:+ pretty t). rewrite contains_char_app.
    destruct t as [|p|p]; [done| |].
    + change (pretty (Z.pos p)) with (pretty (N.pos p)).
      by rewrite (digits_no_newline _ (pretty_N_digits (N.pos p))).
    + change (pretty (Z.neg p)) with ("-" +:+ pretty (N.pos p)). rewrite contains_char_app.
      by rewrite (digits_no_newline _ (pretty_N_digits (N.pos p))).
  - done.
  - intros t u He. apply (inj (String.append "at ")) in He. by apply (inj pretty).
Qed.

#[export] Instance sample_verifier : HarvestSealVerifier unit :=
  {| seal_verify _ g t := if decide (at_signature t = grant_bytes g) then Ok tt else Err DoesNotCoverTransfer;
     seal_key_id _ := OperatorKeyId [1; 2; 3; 4; 5; 6; 7; 8]%N |}.

Definition sample_grant (reservations : list string) (expires : option Z) : harvest_grant :=
  HarvestGrant "cosmon" (MoleculeScope sample_mission) "main" DoneAction reservations (GrantEpoch 1) expires.

Definition sample_seal (g : harvest_grant) : operator_attestation :=
  OperatorAttestation (OperatorKeyId []) (grant_bytes g) "" "" "".

Definition sample_facts (tags : list string) (now : Z) : harvest_facts :=
  HarvestFacts "cosmon" sample_mission None (Some "") "main" DoneAction (reservations_crossed tags)
    (GrantEpoch 1) now.

Example sealed_grant_lands :
  ∃ p, authorize (Ratified (sample_grant ["needs-review"] None) (sample_seal (sample_grant ["needs-review"] None)))
         (sample_facts ["kind:task"; "needs-review"] 5) None tt = Ok (FreshPermit p).
Proof. eexists. by vm_compute. Qed.

Example unnamed_reservation_refused :
  authorize (Ratified (sample_grant ["needs-review"] None) (sample_seal (sample_grant ["needs-review"] None)))
    (sample_facts ["needs-review"; "security:leak"] 5) None tt = Err (ReservationNotNamed "security:leak").
Proof. by vm_compute. Qed.

(** The bytes do not tell no reservation from a reservation called [none]. *)
Example none_reservation :
  validate_grant (sample_grant [] None) = Ok tt ∧ validate_grant (sample_grant ["none"] None) = Ok tt ∧
  grant_bytes (sample_grant [] None) = grant_bytes (sample_grant ["none"] None).
Proof. split_and!; by vm_compute. Qed.
End GrantSamples.
Import GrantSamples.

Lemma grant_bytes_injective_witness :
  grant_bytes (sample_grant [] (Some 7%Z)) = grant_bytes (sample_grant ["none"] (Some 7%Z)) ∧
  ¬ same_grant (sample_grant [] (Some 7%Z)) (sample_grant ["security"] (Some 7%Z)).
Proof.
  split.
  - refine (proj2 (grant_bytes_injective (sample_grant [] (Some 7%Z)) (sample_grant ["none"] (Some 7%Z)) _ _ _ _) _).
    + exact sample_mission_grammar.
    + by vm_compute.
    + exact sample_mission_grammar.
    + by vm_compute.
    + repeat (split; [reflexivity|]). right. split; [by left|by right].
  - intros (_ & _ & _ & _ & _ & _ & [Hr|[_ [Hr|Hr]]]); discriminate.
Defined.
