(* ===== verification/Ancestry.v ===== *)
(** The ancestry of a mission,
    [crates/cosmon-harvest/src/authorization_facts.rs]: the depth-first walk
    over the blockers of a molecule that finds the one root of its mission, or
    refuses on a cycle, on a molecule that does not load and on several roots. *)
From stdpp Require Import prelude gmap strings sorting list relations.
From S2P Require Import Prelude Text Ids Links State DagCompile.

Inductive ancestry_error : Type :=
| AncestorUnreadable (id : mid) (r : load_result)
| AncestryCycle
| NoUniqueRoot
| RootAbsent.

Record mission_ancestry := MissionAncestry {
  an_root : mid;
  an_edges : list (mid * list mid);
}.

(** The locals of the walk; the stack has its top first. *)
Record walk := Walk {
  w_visiting : gset mid;
  w_visited : gset mid;
  w_roots : gset mid;
  w_edges : list (mid * list mid);
  w_stack : list (mid * bool);
  w_error : option ancestry_error;
}.

Section Ancestry.
Context `{!StateStore}.

Definition with_stack (st : walk) (stack : list (mid * bool)) : walk :=
  Walk (w_visiting st) (w_visited st) (w_roots st) (w_edges st) stack (w_error st).

Definition refuse (st : walk) (e : ancestry_error) : walk :=
  Walk (w_visiting st) (w_visited st) (w_roots st) (w_edges st) (w_stack st) (Some e).

(** [for parent in parents]: [None] is the cycle. *)
Fixpoint push_parents (visiting : gset mid) (parents : list mid) (stack : list (mid * bool)) :
    option (list (mid * bool)) :=
  match parents with
  | [] => Some stack
  | p :: rest => if decide (p ∈ visiting) then None else push_parents visiting rest ((p, false) :: stack)
  end.

(** A molecule that is met for the first time. *)
Definition enter (st : walk) (id : mid) (rest : list (mid * bool)) : walk :=
  match load_molecule id with
  | Loaded m =>
      let parents := blocked_by m in
      let visiting := {[id]} ∪ w_visiting st in
      let st' := Walk visiting (w_visited st)
                   (if decide (parents = []) then {[id]} ∪ w_roots st else w_roots st)
                   (w_edges st ++ [(id, sort_ids parents)]) rest None in
      match push_parents visiting parents ((id, true) :: rest) with
      | Some stack => with_stack st' stack
      | None => refuse st' AncestryCycle
      end
  | r => refuse st (AncestorUnreadable id r)
  end.

(** One iteration of [while let Some((id, exit)) = stack.pop()]. *)
Definition walk_step (st : walk) : option walk :=
  match w_error st, w_stack st with
  | Some _, _ | None, [] => None
  | None, (id, true) :: rest =>
      Some (Walk (w_visiting st ∖ {[id]}) ({[id]} ∪ w_visited st) (w_roots st) (w_edges st) rest None)
  | None, (id, false) :: rest =>
      if decide (id ∈ w_visited st) then Some (with_stack st rest)
      else if decide (id ∈ w_visiting st) then Some (refuse st AncestryCycle)
      else Some (enter st id rest)
  end.

Definition walk_start (molecule : mid) : walk := Walk ∅ ∅ ∅ [] [(molecule, false)] None.

Definition parents_of (id : mid) : list mid :=
  match load_molecule id with Loaded m => blocked_by m | _ => [] end.

(** A molecule is entered once, and pushes its parents and its exit. *)
Definition enter_cost (id : mid) : nat := S (length (parents_of id)).
Definition ancestry_fuel : nat := S (sum_list_with enter_cost (elements store_ids)).

Definition strict_mission_ancestry (molecule : mid) : result ancestry_error mission_ancestry :=
  let st := loop (S ancestry_fuel) walk_step (walk_start molecule) in
  match w_error st with
  | Some e => Err e
  | None =>
      match elements (w_roots st) with
      | [root] => Ok (MissionAncestry root (sort_by fst (w_edges st)))
      | _ => Err NoUniqueRoot
      end
  end.

Definition strict_mission_root (molecule : mid) : result ancestry_error mid :=
  an_root <$> strict_mission_ancestry molecule.

(** ** Ancestors *)

(** [p] is recorded as a blocker of [id]. *)
Definition parent_of (id p : mid) : Prop := p ∈ parents_of id.

Definition loads (id : mid) : Prop := ∃ m, load_molecule id = Loaded m.

Definition ancestor (molecule id : mid) : Prop := rtc parent_of molecule id.

(** The walk from [id] down its parents ends. *)
Definition grounded (id : mid) : Prop := Acc (λ p x, parent_of x p) id.

Lemma grounded_acyclic x : grounded x → ¬ tc parent_of x x.
Proof.
  induction 1 as [x _ IH]. intros Ht.
  inversion Ht as [? ? H1|? y ? H1 H2]; subst.
  - by apply (IH x H1), tc_once.
  - apply (IH y H1). by eapply tc_r.
Qed.

(** ** The invariant *)

(** The stack, read from the top: the entries above an exit marker are parents
    of its molecule, and its other parents were visited. *)
Fixpoint stack_ok (m : mid) (visited : gset mid) (above : list mid) (st : list (mid * bool)) : Prop :=
  match st with
  | [] => (∀ p, p ∈ above → p = m) ∧ (m ∈ visited ∨ m ∈ above)
  | (p, false) :: st => stack_ok m visited (p :: above) st
  | (x, true) :: st =>
      loads x ∧ (∀ p, p ∈ above → parent_of x p) ∧ (∀ p, parent_of x p → p ∈ visited ∨ p ∈ above) ∧
      stack_ok m visited [x] st
  end.

Definition exits (st : list (mid * bool)) : list mid := fst <$> filter (λ e, e.2 = true) st.

(** Weaker for more visited molecules, and the visited ones may leave. *)
Lemma stack_ok_visit m v v' ab ab' st :
  v ⊆ v' → (∀ p, p ∈ ab' → p ∈ ab) → (∀ p, p ∈ ab → p ∈ v' ∨ p ∈ ab') →
  stack_ok m v ab st → stack_ok m v' ab' st.
Proof.
  intros Hv Hsub Hcov. revert ab ab' Hsub Hcov.
  induction st as [|[x []] st IH]; intros ab ab' Hsub Hcov; cbn [stack_ok].
  - intros [Ha [Hm|Hm]]; (split; [by eauto|]); [by left; apply Hv|]. by apply Hcov.
  - intros (Hx & Ha & Hp & Hst). split_and!; [done|by eauto| |].
    + intros p [Hpv|Hpa]%Hp; [by left; apply Hv|]. by apply Hcov.
    + eapply IH; [| |exact Hst]; [done|]. by right.
  - apply IH; intros p; rewrite !elem_of_cons; naive_solver.
Qed.

Lemma stack_ok_ancestor m v ab st y : stack_ok m v ab st → y ∈ ab → ancestor m y.
Proof.
  revert ab y. induction st as [|[x []] st IH]; intros ab y; cbn [stack_ok].
  - intros [Ha _] Hy. rewrite (Ha y Hy). apply rtc_refl.
  - intros (_ & Ha & _ & Hst) Hy. eapply rtc_r; [|by apply Ha].
    eapply IH; [exact Hst|]. by left.
  - intros Hst Hy. eapply IH; [exact Hst|]. by right.
Qed.

Lemma stack_ok_path m v ab st x y :
  stack_ok m v ab st → y ∈ ab → x ∈ exits st → tc parent_of x y.
Proof.
  revert ab y. induction st as [|[z []] st IH]; intros ab y; cbn [stack_ok].
  - intros _ _ Hx. by apply elem_of_nil in Hx.
  - intros (_ & Ha & _ & Hst) Hy Hx. change (exits ((z, true) :: st)) with (z :: exits st) in Hx.
    apply elem_of_cons in Hx as [->|Hx]; [by apply tc_once, Ha|].
    eapply tc_r; [|by apply Ha]. eapply IH; [exact Hst| |done]. by left.
  - intros Hst Hy Hx. change (exits ((z, false) :: st)) with (exits st) in Hx.
    eapply IH; [exact Hst| |done]. by right.
Qed.

Lemma stack_ok_pushed m v ab st ps :
  stack_ok m v (ps ++ ab) st → stack_ok m v ab (((λ p, (p, false)) <$> ps) ++ st).
Proof.
  revert ab. induction ps as [|p ps IH]; intros ab; [done|]. cbn. intros Hst. apply IH.
  eapply stack_ok_visit; [done| | |exact Hst]; intros q; set_solver.
Qed.

Lemma exits_pushed ps st : exits (((λ p, (p, false)) <$> ps) ++ st) = exits st.
Proof. by induction ps. Qed.

Lemma push_parents_spec visiting ps st :
  match push_parents visiting ps st with
  | Some st' => st' = ((λ p, (p, false)) <$> reverse ps) ++ st ∧ ∀ p, p ∈ ps → p ∉ visiting
  | None => ∃ p, p ∈ ps ∧ p ∈ visiting
  end.
Proof.
  revert st. induction ps as [|p ps IH]; intros st; cbn [push_parents].
  - split; [done|]. by intros p ?%elem_of_nil.
  - destruct (decide (p ∈ visiting)) as [Hp|Hp]; [exists p; set_solver|].
    specialize (IH ((p, false) :: st)). destruct (push_parents _ _ _) as [st'|].
    + destruct IH as [-> Hn]. split; [|set_solver].
      rewrite reverse_cons, fmap_app, <- app_assoc. done.
    + destruct IH as (q & Hq & Hv). exists q. set_solver.
Qed.

(** What the walk has found out before it refuses. *)
Record walk_inv (m : mid) (st : walk) : Prop := {
  wi_stack : stack_ok m (w_visited st) [] (w_stack st);
  wi_exits x : x ∈ w_visiting st ↔ x ∈ exits (w_stack st);
  wi_exits_nodup : NoDup (exits (w_stack st));
  wi_apart : w_visiting st ## w_visited st;
  wi_visited x : x ∈ w_visited st →
    ancestor m x ∧ loads x ∧ grounded x ∧ ∀ p, parent_of x p → p ∈ w_visited st;
  wi_visiting x : x ∈ w_visiting st → ancestor m x ∧ loads x;
  wi_roots x : x ∈ w_roots st ↔ x ∈ w_visiting st ∪ w_visited st ∧ parents_of x = [];
  wi_edges : NoDup (w_edges st).*1;
  wi_edges_dom x : x ∈ (w_edges st).*1 ↔ x ∈ w_visiting st ∪ w_visited st;
  wi_edges_parents x ps : (x, ps) ∈ w_edges st → ps = sort_ids (parents_of x);
}.

(** Why the walk refuses. *)
Definition refusal_ok (m : mid) (e : ancestry_error) : Prop :=
  match e with
  | AncestorUnreadable id r => ancestor m id ∧ load_molecule id = r ∧ ¬ loads id
  | AncestryCycle => ∃ x, ancestor m x ∧ tc parent_of x x
  | _ => False
  end.

Definition walk_ok (m : mid) (st : walk) : Prop :=
  match w_error st with Some e => refusal_ok m e | None => walk_inv m st end.

Lemma walk_start_ok m : walk_ok m (walk_start m).
Proof.
  unfold walk_ok. cbn. split; cbn; try apply NoDup_nil_2; set_solver.
Qed.

Lemma walk_exit_inv m id st rest :
  walk_inv m st → w_stack st = (id, true) :: rest →
  walk_inv m (Walk (w_visiting st ∖ {[id]}) ({[id]} ∪ w_visited st) (w_roots st) (w_edges st) rest None).
Proof.
  intros [Hst Hex Hnd Hap Hvd Hvg Hro Hed Hdom Hpar] Hs. rewrite Hs in *. cbn [stack_ok] in Hst.
  destruct Hst as (Hl & _ & Hps & Hst).
  change (exits ((id, true) :: rest)) with (id :: exits rest) in *. apply NoDup_cons in Hnd as [Hni Hnd].
  assert (∀ p, parent_of id p → p ∈ w_visited st) as Hps' by (intros p [Hp|Hp]%Hps; set_solver).
  assert (id ∈ w_visiting st) as Hid by (apply Hex; set_solver).
  split; cbn.
  - eapply stack_ok_visit; [| | |exact Hst]; set_solver.
  - intros x. rewrite elem_of_difference, Hex. set_solver.
  - done.
  - set_solver.
  - intros x [->%elem_of_singleton|Hx]%elem_of_union.
    + destruct (Hvg id Hid) as [Ha _]. split_and!; [done|done| |].
      * constructor. intros p Hp. by destruct (Hvd p (Hps' p Hp)) as (_ & _ & ? & _).
      * intros p Hp. apply elem_of_union_r. by apply Hps'.
    + destruct (Hvd x Hx) as (? & ? & ? & Hp). split_and!; [done..|]. intros p ?%Hp. set_solver.
  - intros x [Hx _]%elem_of_difference. by apply Hvg.
  - intros x. rewrite Hro. destruct (decide (x = id)) as [->|]; set_solver.
  - done.
  - intros x. rewrite Hdom. destruct (decide (x = id)) as [->|]; set_solver.
  - done.
Qed.

Lemma walk_skip_inv m id st rest :
  walk_inv m st → w_stack st = (id, false) :: rest → id ∈ w_visited st →
  walk_inv m (with_stack st rest).
Proof.
  intros [Hst Hex Hnd Hap Hvd Hvg Hro Hed Hdom Hpar] Hs Hid. rewrite Hs in *. cbn [stack_ok] in Hst.
  split; cbn; try done. eapply stack_ok_visit; [done| | |exact Hst]; set_solver.
Qed.

Lemma enter_ok m id st rest :
  walk_inv m st → w_stack st = (id, false) :: rest → id ∉ w_visited st → id ∉ w_visiting st →
  walk_ok m (enter st id rest).
Proof.
  intros [Hst Hex Hnd Hap Hvd Hvg Hro Hed Hdom Hpar] Hs Hnv Hni. rewrite Hs in *. cbn [stack_ok] in Hst.
  change (exits ((id, false) :: rest)) with (exits rest) in *.
  assert (ancestor m id) as Ha by (eapply stack_ok_ancestor; [exact Hst|by left]).
  unfold enter. destruct (load_molecule id) as [md| |e] eqn:Hl;
    [|cbn; split_and!; [done|done|intros [? ?]; congruence]..].
  assert (parents_of id = blocked_by md) as Hp by (unfold parents_of; by rewrite Hl).
  pose proof (push_parents_spec ({[id]} ∪ w_visiting st) (blocked_by md) ((id, true) :: rest)) as Hpush.
  destruct (push_parents _ _ _) as [stack|]; unfold walk_ok; cbn.
  - destruct Hpush as [-> Hfree]. split; cbn [w_visiting w_visited w_roots w_edges w_stack with_stack].
    + apply stack_ok_pushed. rewrite app_nil_r. cbn [stack_ok]. split_and!; [by exists md| | |done].
      * intros p. rewrite elem_of_reverse. unfold parent_of. by rewrite Hp.
      * unfold parent_of. rewrite Hp. intros p ?. right. by rewrite elem_of_reverse.
    + intros x. rewrite exits_pushed. change (exits ((id, true) :: rest)) with (id :: exits rest).
      rewrite elem_of_union, elem_of_singleton, elem_of_cons, Hex. done.
    + rewrite exits_pushed. change (exits ((id, true) :: rest)) with (id :: exits rest).
      apply NoDup_cons. split; [|done]. by rewrite <- Hex.
    + set_solver.
    + intros x Hx. by apply Hvd.
    + intros x [->%elem_of_singleton|Hx]%elem_of_union; [|by apply Hvg]. split; [done|by exists md].
    + intros x. rewrite <- Hp. case_decide as Hnil; set_unfold; rewrite Hro; set_unfold; naive_solver.
    + rewrite fmap_app. cbn. apply NoDup_app. split_and!; [done| |apply NoDup_singleton].
      intros x Hx ->%list_elem_of_singleton. apply Hdom in Hx. set_solver.
    + intros x. rewrite fmap_app, elem_of_app, Hdom. cbn. rewrite list_elem_of_singleton. set_solver.
    + intros x ps [Hx|[= -> ->]%list_elem_of_singleton]%elem_of_app; [by apply Hpar|]. by rewrite Hp.
  - destruct Hpush as (p & Hin & [->%elem_of_singleton|Hv]%elem_of_union).
    + exists id. split; [done|]. apply tc_once. unfold parent_of. by rewrite Hp.
    + assert (parent_of id p) as Hpar' by (unfold parent_of; by rewrite Hp).
      exists id. split; [done|]. apply (tc_l _ _ p); [done|].
      eapply stack_ok_path; [exact Hst|by left|]. by apply Hex.
Qed.

Lemma walk_step_ok m st st' : walk_ok m st → walk_step st = Some st' → walk_ok m st'.
Proof.
  unfold walk_step. intros Hok Hs. unfold walk_ok in Hok. destruct (w_error st) eqn:He; [done|].
  destruct (w_stack st) as [|[id []] rest] eqn:Hst; [done| |].
  - injection Hs as <-. unfold walk_ok. cbn. by apply walk_exit_inv.
  - destruct (decide (id ∈ w_visited st)) as [Hv|Hv].
    { injection Hs as <-. unfold walk_ok. cbn. rewrite He. by eapply walk_skip_inv. }
    destruct (decide (id ∈ w_visiting st)) as [Hg|Hg].
    + injection Hs as <-. unfold walk_ok. cbn. destruct Hok as [Hstk Hex _ _ _ _ _ _ _ _].
      rewrite Hst in Hstk, Hex. cbn [stack_ok] in Hstk. exists id. split.
      * eapply stack_ok_ancestor; [exact Hstk|by left].
      * eapply stack_ok_path; [exact Hstk|by left|]. by apply Hex.
    + injection Hs as <-. by apply enter_ok.
Qed.

(** ** The walk ends *)

Definition weight (X : gset mid) : nat := sum_list_with enter_cost (elements X).

Lemma weight_remove x X : x ∈ X → weight X = enter_cost x + weight (X ∖ {[x]}).
Proof.
  intros Hx. unfold weight. rewrite (union_difference_L {[x]} X) at 1 by set_solver.
  rewrite (elements_disj_union {[x]}) by set_solver. by rewrite elements_singleton, sum_list_with_app; cbn; lia.
Qed.

(** The entries on the stack and what the molecules not yet met can push. *)
Definition walk_measure (st : walk) : nat :=
  match w_error st with
  | Some _ => 0
  | None => S (length (w_stack st) + weight (store_ids ∖ (w_visiting st ∪ w_visited st)))
  end.

Lemma push_parents_length visiting ps st st' :
  push_parents visiting ps st = Some st' → length st' = length ps + length st.
Proof.
  intros Hs. pose proof (push_parents_spec visiting ps st) as Hps. rewrite Hs in Hps. destruct Hps as [-> _].
  by rewrite length_app, length_fmap, length_reverse.
Qed.

Lemma walk_step_decreases m st st' :
  walk_ok m st → walk_step st = Some st' → walk_measure st' < walk_measure st.
Proof.
  unfold walk_step. intros Hok Hs. unfold walk_ok in Hok. unfold walk_measure at 2.
  destruct (w_error st) eqn:He; [done|].
  destruct (w_stack st) as [|[id []] rest] eqn:Hst; [done| |].
  - injection Hs as <-. unfold walk_measure. cbn.
    assert (id ∈ w_visiting st) as Hid.
    { apply (wi_exits _ _ Hok). rewrite Hst. change (exits ((id, true) :: rest)) with (id :: exits rest). by left. }
    replace (w_visiting st ∖ {[id]} ∪ ({[id]} ∪ w_visited st)) with (w_visiting st ∪ w_visited st); [lia|].
    apply set_eq. intros x. destruct (decide (x = id)) as [->|]; set_solver.
  - destruct (decide (id ∈ w_visited st)) as [Hv|Hv].
    { injection Hs as <-. unfold walk_measure. cbn. rewrite He. lia. }
    destruct (decide (id ∈ w_visiting st)) as [Hg|Hg]; injection Hs as <-; [unfold walk_measure; cbn; lia|].
    unfold enter. destruct (load_molecule id) as [md| |e] eqn:Hl; [|unfold walk_measure; cbn; lia..].
    destruct (push_parents _ _ _) as [stack|] eqn:Hp; [|unfold walk_measure; cbn; lia].
    apply push_parents_length in Hp. unfold walk_measure. cbn. rewrite Hp. cbn.
    assert (id ∈ store_ids) as Hin by (apply store_ids_spec; by rewrite Hl).
    rewrite (weight_remove id (store_ids ∖ (w_visiting st ∪ w_visited st))) by set_solver.
    replace (store_ids ∖ ({[id]} ∪ w_visiting st ∪ w_visited st)) with
      (store_ids ∖ (w_visiting st ∪ w_visited st) ∖ {[id]}) by set_solver.
    unfold enter_cost, parents_of. rewrite Hl. lia.
Qed.

Lemma walk_ends m :
  let st := loop (S ancestry_fuel) walk_step (walk_start m) in walk_ok m st ∧ walk_step st = None.
Proof.
  split.
  - apply (loop_inv _ (walk_ok m)); [|apply walk_start_ok]. intros st st'. apply walk_step_ok.
  - apply (loop_exits _ (walk_ok m)) with (μ := walk_measure).
    + intros st st'. apply walk_step_ok.
    + intros st st'. apply walk_step_decreases.
    + apply walk_start_ok.
    + unfold walk_measure, walk_start, ancestry_fuel. cbn.
      replace (store_ids ∖ (∅ ∪ ∅)) with store_ids by set_solver. unfold weight. lia.
Qed.

(** ** What the walk answers *)

Lemma grounded_root x : grounded x → ∃ r, ancestor x r ∧ parents_of r = [].
Proof.
  induction 1 as [x _ IH]. destruct (parents_of x) as [|p ps] eqn:Hp; [exists x; split; [apply rtc_refl|done]|].
  assert (parent_of x p) as Hxp by (unfold parent_of; rewrite Hp; by left).
  destruct (IH p Hxp) as (r & Hr & Hn). exists r. split; [|done]. by eapply rtc_l.
Qed.

(** Every ancestor loads, and none is its own ancestor. *)
Definition sound_ancestry (m : mid) : Prop := ∀ x, ancestor m x → loads x ∧ ¬ tc parent_of x x.

Lemma walk_done m st :
  walk_inv m st → w_stack st = [] →
  sound_ancestry m ∧ (∃ r, ancestor m r ∧ parents_of r = []) ∧
  (∀ x, x ∈ w_roots st ↔ ancestor m x ∧ parents_of x = []) ∧
  (∀ x, x ∈ (w_edges st).*1 ↔ ancestor m x).
Proof.
  intros [Hst Hex _ _ Hvd _ Hro _ Hdom _] Hs. rewrite Hs in *. cbn [stack_ok] in Hst.
  destruct Hst as [_ [Hm|Hm]]; [|by apply elem_of_nil in Hm].
  assert (∀ x, x ∉ w_visiting st) as Hvg by (intros x Hx; apply Hex in Hx; by apply elem_of_nil in Hx).
  assert (∀ x, x ∈ w_visited st ↔ ancestor m x) as Hall.
  { intros x. split; [by intros (? & _)%Hvd|]. unfold ancestor. intros Hr.
    assert (∀ y p, y ∈ w_visited st → parent_of y p → p ∈ w_visited st) as Hclosed
      by (intros y p Hy; by destruct (Hvd y Hy) as (_ & _ & _ & ?); auto).
    clear Hvd. revert Hm. induction Hr as [y|y z x Hyz Hr IH]; [done|]. intros Hy. apply IH.
    by eapply Hclosed. }
  split_and!.
  - intros x (_ & Hl & Hg & _)%Hall%Hvd. split; [done|by apply grounded_acyclic].
  - destruct (Hvd m Hm) as (_ & _ & Hg & _). by apply grounded_root.
  - intros x. rewrite Hro, elem_of_union, <- Hall. specialize (Hvg x). tauto.
  - intros x. rewrite Hdom, elem_of_union, <- Hall. specialize (Hvg x). tauto.
Qed.

(** C37. The walk ends and answers the ancestry of a mission exactly: the one
    ancestor without blockers and every ancestor with its sorted blockers, in
    order, when all ancestors load and none is its own ancestor; otherwise it
    names an ancestor that does not load, or there is a cycle above the
    molecule, or two ancestors are roots. *)
Theorem mission_ancestry_exact m :
  match strict_mission_ancestry m with
  | Ok a =>
      sound_ancestry m ∧
      (∀ x, ancestor m x → parents_of x = [] ↔ x = an_root a) ∧ ancestor m (an_root a) ∧
      StronglySorted (λ e e', e.1 ≼ e'.1) (an_edges a) ∧ NoDup (an_edges a).*1 ∧
      (∀ x ps, (x, ps) ∈ an_edges a ↔ ancestor m x ∧ ps = sort_ids (parents_of x))
  | Err (AncestorUnreadable id r) => ancestor m id ∧ load_molecule id = r ∧ ¬ loads id
  | Err AncestryCycle => ∃ x, ancestor m x ∧ tc parent_of x x
  | Err NoUniqueRoot =>
      sound_ancestry m ∧
      ∃ x y, x ≠ y ∧ ancestor m x ∧ ancestor m y ∧ parents_of x = [] ∧ parents_of y = []
  | Err RootAbsent => False
  end.
Proof.
  unfold strict_mission_ancestry. destruct (walk_ends m) as [Hok Hend].
  set (st := loop _ _ _) in *. unfold walk_ok in Hok. unfold walk_step in Hend.
  destruct (w_error st) as [e|]; [by destruct e|].
  destruct (w_stack st) as [|[? []] ?] eqn:Hst; [|done|by repeat case_decide].
  destruct (walk_done m st Hok Hst) as (Hsound & (r & Hr & Hrn) & Hroots & Hdom).
  assert (r ∈ elements (w_roots st)) as Hrin by (by apply elem_of_elements, Hroots).
  pose proof (NoDup_elements (w_roots st)) as Hnd.
  assert (∀ x, x ∈ elements (w_roots st) ↔ ancestor m x ∧ parents_of x = []) as Hel
    by (intros x; by rewrite elem_of_elements, Hroots).
  destruct (elements (w_roots st)) as [|x [|y l]]; [by apply elem_of_nil in Hrin| |].
  - split_and!; [done| | | | |].
    + intros z Hz. specialize (Hel z). rewrite list_elem_of_singleton in Hel. cbn. tauto.
    + apply (Hel x). by left.
    + apply sort_by_sorted.
    + cbn [an_edges]. rewrite (sort_by_perm fst (w_edges st)). apply (wi_edges _ _ Hok).
    + intros z ps. cbn [an_edges]. rewrite (sort_by_perm fst (w_edges st)). split.
      * intros Hz. split; [|by apply (wi_edges_parents _ _ Hok)]. apply Hdom.
        apply list_elem_of_fmap. by exists (z, ps).
      * intros [Hz ->]. apply Hdom, list_elem_of_fmap in Hz as ([z' ps'] & -> & Hz).
        pose proof (wi_edges_parents _ _ Hok _ _ Hz) as ->. done.
  - split; [done|]. exists x, y. apply NoDup_cons in Hnd as [Hni _].
    destruct (proj1 (Hel x)) as [? ?]; [by left|]. destruct (proj1 (Hel y)) as [? ?]; [by right; left|].
    split_and!; try done. intros ->. apply Hni. by left.
Qed.
End Ancestry.
