(* ===== verification/JsonLines.v ===== *)
(** Files of JSON lines that are only appended to: what an append leaves when
    it succeeds, stops early or fails after the write, and what a later read
    finds. The codec of a line is the interface [LineCodec]. *)
From stdpp Require Import prelude countable strings pretty list.
From Stdlib Require Import Ascii.
From S2P Require Import Prelude Text.

(** [serde_json::to_string] and [serde_json::from_str] of one type. *)
Class LineCodec (A : Type) := {
  enc : A → string;
  dec : string → option A;
}.

(** What the code relies on: a record is written as one JSON object on one
    line; a text that was cut short is no JSON, and neither are two objects
    without a separator. *)
Class LineLaws (A : Type) `{LineCodec A} := {
  dec_enc (a : A) : dec (enc a) = Some a;
  enc_one_line (a : A) : contains_char nl_char (enc a) = false;
  enc_no_cr (a : A) : ends_with_char cr_char (enc a) = false;
  enc_opens (a : A) : ∃ s, enc a = String "{" s;
  dec_torn (a : A) p q : enc a = p +:+ q → p ≠ EmptyString → q ≠ EmptyString → dec p = None (A := A);
  dec_glued (a b : A) p q : enc b = p +:+ q → p ≠ EmptyString → dec (enc a +:+ p) = None (A := A);
}.

(** An append writes the whole line, or fails with some of its bytes written. *)
Inductive write_outcome : Set :=
| Written
| Stopped (bytes : nat).

Definition line_of {A} `{LineCodec A} (a : A) : string := enc a +:+ nl.

Definition append_record {A} `{LineCodec A} (c : string) (a : A) (w : write_outcome) : string :=
  match w with Written => c +:+ line_of a | Stopped n => c +:+ str_take n (line_of a) end.

(** A missing file reads as no lines. *)
Definition text_of (f : option string) : string := default EmptyString f.

Definition is_blank (l : string) : bool := is_empty (trim l).

Section JsonLines.
Context {A : Type} `{LineLaws A}.

(** The file holds exactly these records; its last line may lack its end. *)
Inductive holds (rs : list A) : string → Prop :=
| holds_complete c :
    complete_text c → lines c = enc <$> rs → holds rs c
| holds_open c rs' a :
    complete_text c → lines c = enc <$> rs' → rs = rs' ++ [a] → holds rs (c +:+ enc a).

(** Some line is neither blank nor a record. *)
Definition poisoned (c : string) : Prop := ∃ l, l ∈ lines c ∧ is_blank l = false ∧ dec l = None (A := A).

Lemma holds_empty : holds [] EmptyString.
Proof. apply holds_complete; [by left|done]. Qed.

Lemma opens_not_blank s : is_blank (String "{" s) = false.
Proof.
  unfold is_blank, trim. rewrite trim_start_opens by done.
  change (String "{" s) with ("{" +:+ s). by rewrite trim_end_app.
Qed.

Lemma segments_open l : l ≠ EmptyString → contains_char nl_char l = false → segments l = [(l, false)].
Proof.
  induction l as [|a l IH]; [done|]. intros _. cbn [contains_char]. intros [Ha Hl]%orb_false_iff.
  apply bool_decide_eq_false in Ha. cbn [segments]. rewrite decide_False by done.
  destruct l as [|b l]; [done|]. by rewrite IH.
Qed.

Lemma lines_open s l :
  complete_text s → l ≠ EmptyString → contains_char nl_char l = false → lines (s +:+ l) = lines s ++ [l].
Proof. intros Hs Hl Hn. rewrite lines_app by done. f_equal. unfold lines. by rewrite segments_open. Qed.

Lemma lines_closed s l :
  complete_text s → contains_char nl_char l = false → ends_with_char cr_char l = false →
  lines (s +:+ l +:+ nl) = lines s ++ [l].
Proof. intros Hs Hn Hc. by rewrite lines_app, lines_line. Qed.

(** The part of a line that was written. *)
Lemma str_take_line n l :
  str_take n (l +:+ nl) = l +:+ nl ∨ ∃ q, l = str_take n (l +:+ nl) +:+ q.
Proof.
  revert n. induction l as [|a l IH]; intros [|n]; [|by left; destruct n|by right; exists (String a l)|].
  - right. by exists EmptyString.
  - rewrite string_app_cons. cbn [str_take]. destruct (IH n) as [->|[q Hq]]; [by left|].
    right. exists q. by rewrite string_app_cons, <- Hq.
Qed.

Lemma enc_some (a : A) : enc a ≠ EmptyString.
Proof. destruct (enc_opens a) as [s ->]. done. Qed.

Lemma holds_lines rs c : holds rs c → lines c = enc <$> rs.
Proof.
  intros [c' _ Hl|c' rs' a Hc Hl ->]; [done|].
  by rewrite lines_open, Hl, fmap_app; [|done|apply enc_some|apply enc_one_line].
Qed.

Lemma poisoned_open s l :
  complete_text s → l ≠ EmptyString → contains_char nl_char l = false → is_blank l = false →
  dec l = None (A := A) → poisoned (s +:+ l).
Proof. intros. exists l. split; [|done]. rewrite lines_open by done. set_solver. Qed.

Lemma no_nl_prefix l p q : contains_char nl_char l = false → l = p +:+ q → contains_char nl_char p = false.
Proof. intros Hl ->. rewrite contains_char_app in Hl. by apply orb_false_iff in Hl as [? _]. Qed.

Lemma prefix_opens (a : A) p q : enc a = p +:+ q → p ≠ EmptyString → is_blank p = false.
Proof.
  destruct (enc_opens a) as [s ->]. destruct p as [|b p]; [done|]. intros [= <- _] _. apply opens_not_blank.
Qed.

Lemma glued_opens (a : A) p : is_blank (enc a +:+ p) = false.
Proof. destruct (enc_opens a) as [s ->]. rewrite string_app_cons. apply opens_not_blank. Qed.

(** An append adds its record, changes nothing, or leaves a line that no read
    accepts; it adds its record or spoils the file if it succeeds. *)
Lemma append_line_holds rs c (a : A) w :
  holds rs c →
  holds (rs ++ [a]) (append_record c a w) ∨ (w ≠ Written ∧ holds rs (append_record c a w)) ∨
  poisoned (append_record c a w).
Proof.
  assert (∀ c, complete_text c → lines c = enc <$> rs → holds (rs ++ [a]) (c +:+ enc a +:+ nl)) as Hfull.
  { intros d Hc Hl. apply holds_complete.
    - rewrite string_app_assoc. apply complete_text_nl.
    - by rewrite lines_closed, Hl, fmap_app; [|done|apply enc_one_line|apply enc_no_cr]. }
  assert (∀ c b, complete_text c → poisoned (c +:+ (enc b +:+ enc a) +:+ nl)) as Hglued.
  { intros d b Hd. exists (enc b +:+ enc a). rewrite lines_closed; [| | |].
    - split_and!; [set_solver|apply glued_opens|]. apply (dec_glued b a (enc a) EmptyString); [|apply enc_some].
      by rewrite string_app_nil_r.
    - done.
    - by rewrite contains_char_app, !enc_one_line.
    - destruct (enc_opens a) as [s Hs]. rewrite Hs, ends_with_char_app, <- Hs. apply enc_no_cr. }
  intros [d Hc Hl|d rs' b Hc Hl ->]; destruct w as [|n]; unfold append_record, line_of.
  - left. by apply Hfull.
  - destruct (str_take_line n (enc a)) as [->|[q Hq]]; [left; by apply Hfull|].
    destruct (str_take n (enc a +:+ nl)) as [|e t] eqn:Ht.
    { right. left. rewrite string_app_nil_r. split; [done|]. by apply holds_complete. }
    rewrite <- Ht in *. assert (str_take n (enc a +:+ nl) ≠ EmptyString) as Hne by (by rewrite Ht).
    destruct q as [|x q].
    + left. rewrite string_app_nil_r in Hq. rewrite <- Hq. by apply (holds_open _ _ rs).
    + right. right. apply poisoned_open; [done|done| | |].
      * by eapply no_nl_prefix; [apply (enc_one_line a)|].
      * by eapply prefix_opens.
      * by eapply dec_torn.
  - right. right. rewrite <- string_app_assoc, (string_app_assoc (enc b)). by apply Hglued.
  - rewrite <- string_app_assoc. destruct (str_take_line n (enc a)) as [->|[q Hq]].
    { right. right. rewrite (string_app_assoc (enc b)). by apply Hglued. }
    destruct (str_take n (enc a +:+ nl)) as [|e t] eqn:Ht.
    { right. left. rewrite string_app_nil_r. split; [done|]. by eapply holds_open. }
    rewrite <- Ht in *. assert (str_take n (enc a +:+ nl) ≠ EmptyString) as Hne by (by rewrite Ht).
    right. right. apply poisoned_open; [done| | |apply glued_opens|by eapply dec_glued].
    + destruct (enc_opens b) as [s ->]. done.
    + rewrite contains_char_app, enc_one_line. by eapply no_nl_prefix; [apply (enc_one_line a)|].
Qed.
End JsonLines.

(** ** A concrete codec *)

(** A record as its number between braces; the examples use it. *)
Module PackedLines.
Section Packed.
Context {A : Type} `{Countable A}.

Definition packed (a : A) : string := "{" +:+ pretty (N.pos (encode a)) +:+ "}".

Definition unpacked (s : string) : option A :=
  t ← strip_prefix "{" s;
  d ← strip_suffix "}" t;
  match digits_N 0 d with
  | N0 => None
  | Npos p => a ← decode p; if decide (packed a = s) then Some a else None
  end.

Lemma packed_unpacked a : unpacked (packed a) = Some a.
Proof.
  unfold unpacked. change (strip_prefix "{" (packed a)) with (Some (pretty (N.pos (encode a)) +:+ "}")).
  cbn [mbind option_bind]. rewrite strip_suffix_app. cbn [mbind option_bind].
  rewrite digits_N_pretty. cbn. rewrite decode_encode. cbn. by rewrite decide_True.
Qed.

Lemma unpacked_some s a : unpacked s = Some a → s = packed a.
Proof.
  unfold unpacked. destruct (strip_prefix "{" s) as [t|]; [|done]. cbn. destruct (strip_suffix "}" t) as [d|]; [|done].
  cbn. destruct (digits_N 0 d) as [|p]; [done|]. destruct (decode p) as [b|]; [|done]. cbn.
  case_decide as Hb; [|done]. by intros [= ->].
Qed.

Lemma packed_prefix a b p : packed a +:+ p = packed b → p = EmptyString.
Proof.
  unfold packed. rewrite <- !string_app_assoc. intros He. apply (inj (String.append "{")) in He.
  change (pretty (N.pos (encode a)) +:+ String "}" p = pretty (N.pos (encode b)) +:+ String "}" EmptyString) in He.
  by apply cut_first in He as [_ ?];
    [|by eapply all_chars_not_contains; [|apply pretty_N_digits]..].
Qed.

#[export] Instance packed_codec : LineCodec A := {| enc := packed; dec := unpacked |}.

#[export] Instance packed_laws : LineLaws A.
Proof.
  assert (∀ c a, is_ascii_digit c = false → c ≠ "{"%char → c ≠ "}"%char → contains_char c (packed a) = false) as Hno.
  { intros c a Hd Ho Hc. unfold packed. rewrite !contains_char_app.
    assert (contains_char c (pretty (N.pos (encode a))) = false) as ->
      by (eapply all_chars_not_contains; [exact Hd|apply pretty_N_digits]).
    cbn [contains_char]. by rewrite !bool_decide_eq_false_2. }
  split; cbn [enc dec packed_codec].
  - apply packed_unpacked.
  - intros a. by apply Hno.
  - intros a. unfold packed. rewrite string_app_assoc. change "}" with (String "}" EmptyString).
    by rewrite ends_with_char_app.
  - intros a. by eexists.
  - intros a p q He Hp Hq. destruct (unpacked p) as [b|] eqn:Hb; [|done]. apply unpacked_some in Hb as ->.
    symmetry in He. by apply packed_prefix in He.
  - intros a b p q He Hp. destruct (unpacked (packed a +:+ p)) as [c|] eqn:Hc; [|done].
    apply unpacked_some in Hc. by apply packed_prefix in Hc.
Qed.
End Packed.
End PackedLines.
