(* ===== verification/HarvestPolicy.v ===== *)
(** The policies around a harvest: the base branch it lands on
    ([crates/cosmon-harvest/src/base_branch.rs]), the effective remote policy
    ([crates/cosmon-core/src/remote_harvest.rs]), and the vocabulary of the
    door ([crates/cosmon-core/src/harvest_door.rs]): refusals and their exit
    codes, outcomes, options and the command line that carries them. *)
From stdpp Require Import prelude gmap strings pretty list.
From Stdlib Require Import Ascii.
From S2P Require Import Prelude Text Grant.

(** ** The base branch *)

Inductive base_source : Set := Persisted | EnvironmentBase | ConfiguredTrunk | OriginHead | DefaultBase.

#[export] Instance base_source_eq_dec : EqDecision base_source.
Proof. solve_decision. Defined.

Record resolved_base := ResolvedBase { rb_branch : string; rb_source : base_source }.

#[export] Instance resolved_base_eq_dec : EqDecision resolved_base.
Proof. solve_decision. Defined.

Definition default_base_branch : string := "main".

(** [map(str::trim).filter(|b| !b.is_empty())] *)
Definition named (s : option string) : option string :=
  match trim <$> s with
  | Some b => if is_empty b then None else Some b
  | None => None
  end.

(** What the process reads: [COSMON_BASE_BRANCH] and [origin/HEAD]. *)
Record ambient := Ambient { env_base : option string; origin_head : option string }.

Definition resolve_ambient_with_source (e : ambient) (configured_trunk : option string) : resolved_base :=
  match named (env_base e) with
  | Some explicit => ResolvedBase explicit EnvironmentBase
  | None =>
      match named configured_trunk with
      | Some trunk => ResolvedBase trunk ConfiguredTrunk
      | None =>
          match origin_head e with
          | Some head => ResolvedBase head OriginHead
          | None => ResolvedBase default_base_branch DefaultBase
          end
      end
  end.

Definition resolve_with_source (e : ambient) (persisted configured_trunk : option string) : resolved_base :=
  match named persisted with
  | Some base => ResolvedBase base Persisted
  | None => resolve_ambient_with_source e configured_trunk
  end.

Inductive base_validation_error : Type :=
| EmptyBase
| NoSuchBranch (branch : string).

(** [LocalBranchProbe] *)
Definition validate_requested_base (requested : string) (local_branch_exists : string → bool) :
    result base_validation_error string :=
  let requested := trim requested in
  if is_empty requested then Err EmptyBase
  else if negb (local_branch_exists requested) then Err (NoSuchBranch requested)
  else Ok requested.

Definition reference_trunk (e : ambient) (configured : option string) : string :=
  match named configured with
  | Some trunk => trunk
  | None => default default_base_branch (origin_head e)
  end.

(** ** The remote policy *)

Inductive remote_harvest_policy : Set := RemoteDisabled | RemoteScoped | RemoteSealed.

#[export] Instance remote_harvest_policy_eq_dec : EqDecision remote_harvest_policy.
Proof. solve_decision. Defined.

Inductive policy_provenance : Set := LegacyPolicy | ExplicitPolicy.

#[export] Instance policy_provenance_eq_dec : EqDecision policy_provenance.
Proof. solve_decision. Defined.

Record resolved_remote_policy := ResolvedRemotePolicy {
  rp_policy : remote_harvest_policy;
  rp_provenance : policy_provenance;
}.

(** [required] and [remote] of the configuration; [None] is the conflict. *)
Definition resolve_remote_policy (required : bool) (remote : option remote_harvest_policy) :
    option resolved_remote_policy :=
  match remote with
  | None =>
      Some (ResolvedRemotePolicy (if required then RemoteSealed else RemoteDisabled) LegacyPolicy)
  | Some RemoteScoped => if required then None else Some (ResolvedRemotePolicy RemoteScoped ExplicitPolicy)
  | Some p => Some (ResolvedRemotePolicy p ExplicitPolicy)
  end.

(** ** The door *)

Inductive door_refusal : Set :=
| NotCompleted | NotAuthorized | ReservationRequiresSeal | BacklogFull | MergeConflict
| BaseNotFastForward | PreDoneRefused | MissingReason | ProtectedPathModified.

#[export] Instance door_refusal_eq_dec : EqDecision door_refusal.
Proof. solve_decision. Defined.

Definition all_refusals : list door_refusal :=
  [NotCompleted; NotAuthorized; ReservationRequiresSeal; BacklogFull; MergeConflict; BaseNotFastForward;
   PreDoneRefused; MissingReason; ProtectedPathModified].

Definition refusal_text (r : door_refusal) : string :=
  match r with
  | NotCompleted => "not_completed"
  | NotAuthorized => "not_authorized"
  | ReservationRequiresSeal => "reservation_requires_seal"
  | BacklogFull => "backlog_full"
  | MergeConflict => "merge_conflict"
  | BaseNotFastForward => "base_not_fast_forward"
  | PreDoneRefused => "pre_done_refused"
  | MissingReason => "missing_reason"
  | ProtectedPathModified => "protected_path_modified"
  end.

Definition exit_code (r : door_refusal) : Z :=
  match r with
  | NotCompleted => 70
  | NotAuthorized => 71
  | ReservationRequiresSeal => 72
  | BacklogFull => 73
  | MergeConflict => 74
  | BaseNotFastForward => 75
  | PreDoneRefused => 76
  | MissingReason => 77
  | ProtectedPathModified => 78
  end.

Definition from_exit_code (code : Z) : option door_refusal :=
  snd <$> list_find (λ r, exit_code r = code) all_refusals.

Definition is_operator_configuration_fault (r : door_refusal) : bool :=
  match r with BaseNotFastForward => true | _ => false end.

Inductive door_outcome : Set :=
| Landed
| ClosedWithoutMerge
| AlreadyLanded (merged : bool)
| NoOp.

Definition outcome_text (o : door_outcome) : string :=
  match o with
  | Landed => "landed"
  | ClosedWithoutMerge => "closed_without_merge"
  | AlreadyLanded _ => "already_landed"
  | NoOp => "no_op"
  end.

Definition outcome_merged (o : door_outcome) : bool :=
  match o with Landed => true | ClosedWithoutMerge | NoOp => false | AlreadyLanded m => m end.

Inductive effect_failure : Type :=
| EffectUnavailable
| EffectRefused (r : door_refusal)
| EffectAuthorizationRefused (r : door_refusal) (cause : authorization_cause)
| EffectAuthorizationFault (cause : authorization_cause)
| EffectFailed (message : string).

Inductive merge_strategy : Set := MergeCommit | FfOnly.

#[export] Instance merge_strategy_eq_dec : EqDecision merge_strategy.
Proof. solve_decision. Defined.

Definition strategy_text (s : merge_strategy) : string :=
  match s with MergeCommit => "merge" | FfOnly => "ff-only" end.

Definition strategy_from_token (token : string) : option merge_strategy :=
  if decide (token = "merge") then Some MergeCommit
  else if decide (token = "ff-only") then Some FfOnly
  else None.

Record harvest_options := HarvestOptions {
  ho_reason : string;
  ho_strategy : merge_strategy;
  ho_force : bool;
  ho_if_completed : bool;
  ho_no_merge : bool;
  ho_no_worktree_remove : bool;
  ho_no_branch_delete : bool;
  ho_no_kill : bool;
  ho_no_auto_propel : bool;
  ho_propel_message : option string;
  ho_max_retries : N;
  ho_skip_pre_done_hook : bool;
  ho_deploy_off_trunk : bool;
}.

Definition default_max_retries : N := 3.

Definition options_new (reason : string) : harvest_options :=
  HarvestOptions reason MergeCommit false false false false false false false None default_max_retries
    false false.

Definition cs_done_argv (o : harvest_options) (molecule : string) : list string :=
  let flag (on : bool) (name : string) := if on then [name] else [] in
  ["done"; molecule; "--reason"; ho_reason o] ++
  flag (ho_force o) "--force" ++
  flag (ho_if_completed o) "--if-completed" ++
  flag (ho_no_merge o) "--no-merge" ++
  flag (ho_no_worktree_remove o) "--no-worktree-remove" ++
  flag (ho_no_branch_delete o) "--no-branch-delete" ++
  flag (ho_no_kill o) "--no-kill" ++
  flag (ho_no_auto_propel o) "--no-auto-propel" ++
  flag (ho_skip_pre_done_hook o) "--skip-pre-done-hook" ++
  flag (ho_deploy_off_trunk o) "--deploy-off-trunk" ++
  (if decide (ho_strategy o ≠ MergeCommit) then ["--strategy"; strategy_text (ho_strategy o)] else []) ++
  match ho_propel_message o with Some m => ["--propel-message"; m] | None => [] end ++
  (if decide (ho_max_retries o ≠ default_max_retries) then ["--max-retries"; pretty (ho_max_retries o)]
   else []).

Definition options_validate (o : harvest_options) : result door_refusal unit :=
  if is_empty (trim (ho_reason o)) then Err MissingReason else Ok tt.

Definition explicit_override_requested (o : harvest_options) : bool :=
  ho_force o || ho_skip_pre_done_hook o || ho_deploy_off_trunk o.

Definition reservation_tags : list string := ["hold:human"; "needs-review"; "security"; "no-auto-harvest"].
Definition reservation_tag_prefixes : list string := ["security:"; "harvest_to:"].

Definition requires_seal (tag : string) : bool :=
  bool_decide (tag ∈ reservation_tags) || existsb (λ p, starts_with p tag) reservation_tag_prefixes.

Definition reservation_requiring_seal (tags : list string) : option string :=
  snd <$> list_find (λ t, requires_seal t = true) tags.

(** ** Properties *)

Lemma exit_code_roundtrip code r : from_exit_code code = Some r ↔ exit_code r = code.
Proof.
  split.
  - unfold from_exit_code. destruct (list_find _ _) as [[i x]|] eqn:Hf; [|done]. intros [= <-].
    by apply list_find_Some in Hf as (_ & ? & _).
  - intros <-. by destruct r.
Qed.

(** The door stops at a tag that the authority reserves, but for one. *)
Theorem door_reservations tag :
  requires_seal tag = true ↔ is_reserved tag = true ∧ tag ≠ "needs-review-cross-provider".
Proof.
  unfold requires_seal, is_reserved, reservation_tags, reservation_tag_prefixes. cbn [existsb].
  rewrite !orb_true_iff, !bool_decide_eq_true, !elem_of_cons, !elem_of_nil. split.
  - intros [Ht|Ht]; (split; [naive_solver|]); intros ->; [naive_solver|by vm_compute in Ht; naive_solver].
  - naive_solver.
Qed.
