(* ===== verification/HarvestLedger.v ===== *)
(** The harvest ledgers and the decision under the trunk lock: the consumption
    receipts and the progress journal
    ([crates/cosmon-filestore/src/harvest_authority.rs]), the choice among the
    installed grants ([crates/cosmon-harvest/src/done_authority.rs]), the facts
    they are checked against ([authorization_facts.rs]) and the recovery of an
    interrupted harvest ([transaction.rs]). The trunk lock makes the calls
    sequential; a write may stop after any byte. *)
From stdpp Require Import prelude gmap strings list.
From Stdlib Require Import Ascii.
From S2P Require Import Prelude Text Ids Molecule Links Lease State DagCompile Ancestry Grant JsonLines HarvestPolicy.

(** ** Journal records *)

Inductive journal_stage : Set := Prepared | Integrated | Finalized.

#[export] Instance journal_stage_eq_dec : EqDecision journal_stage.
Proof. solve_decision. Defined.

Record journal_record := JournalRecord {
  j_version : N;
  j_stage : journal_stage;
  j_receipt : consumption_record;
  j_branch_head : option string;
  j_pre_merge_base : string;
  j_options_digest : string;
  j_hook_digest : string;
  j_merge_oid : option string;
}.

#[export] Instance journal_record_eq_dec : EqDecision journal_record.
Proof. solve_decision. Defined.

Definition j_permit (e : journal_record) : string := cr_permit (j_receipt e).
Definition j_invocation (e : journal_record) : string := cr_invocation_id (j_receipt e).

(** ** Consumption receipts *)

Inductive receipt_fault : Type :=
| LedgerUnreadable
| MalformedReceipt
| ConflictingReceipts (permit : string)
| AppendFailed.

(** What the file system answers to the calls of one request. *)
Record io := Io { io_read_fails : bool; io_write : write_outcome }.

Section Receipts.
Context `{LineCodec consumption_record}.

(** The loop of [receipt_recorded]. *)
Fixpoint recorded_in (permit : string) (ls : list string) (found : option consumption_record) :
    result receipt_fault (option consumption_record) :=
  match ls with
  | [] => Ok found
  | l :: ls =>
      if is_blank l then recorded_in permit ls found
      else
        match dec l with
        | None => Err MalformedReceipt
        | Some r =>
            if decide (cr_permit r = permit) then
              match found with
              | Some previous =>
                  if decide (previous ≠ r) then Err (ConflictingReceipts permit)
                  else recorded_in permit ls (Some r)
              | None => recorded_in permit ls (Some r)
              end
            else recorded_in permit ls found
        end
  end.

Definition receipt_recorded (f : option string) (o : io) (permit : string) :
    result receipt_fault (option consumption_record) :=
  if io_read_fails o then Err LedgerUnreadable else recorded_in permit (lines (text_of f)) None.

Fixpoint receipt_for (molecule : mid) (ls : list string) : result receipt_fault bool :=
  match ls with
  | [] => Ok false
  | l :: ls =>
      match dec l with
      | None => Err MalformedReceipt
      | Some r => (λ b, bool_decide (he_molecule (cr_effect r) = molecule) || b) <$> receipt_for molecule ls
      end
  end.

Definition has_receipt_for (f : option string) (o : io) (molecule : mid) : result receipt_fault bool :=
  if io_read_fails o then Err LedgerUnreadable else receipt_for molecule (lines (text_of f)).

Definition consume (f : option string) (o : io) (r : consumption_record) :
    option string * result receipt_fault unit :=
  (Some (append_record (text_of f) r (io_write o)),
   match io_write o with Written => Ok tt | Stopped _ => Err AppendFailed end).
End Receipts.

(** ** The journal *)

Inductive journal_error : Type :=
| JournalUnreadable
| EmptyLine (number : nat)
| MalformedLine (number : nat)
| UnsupportedVersion (version : N)
| OperationOfSeveralPermits
| InvalidIdentity
| PreparedNamesMerge
| IntegratedLacksMerge
| FinalizedLacksMerge
| OutOfOrder
| JournalAppendFailed.

Definition same_operation (old e : journal_record) : bool :=
  bool_decide (j_receipt old = j_receipt e) && bool_decide (j_branch_head old = j_branch_head e) &&
  bool_decide (j_pre_merge_base old = j_pre_merge_base e) &&
  bool_decide (j_options_digest old = j_options_digest e) &&
  bool_decide (j_hook_digest old = j_hook_digest e).

Definition stage_follows (old e : journal_record) : bool :=
  match j_stage old, j_stage e with
  | Prepared, Integrated | Integrated, Finalized => true
  | Prepared, Finalized => bool_decide (j_branch_head e = None)
  | _, _ => false
  end.

Definition validate_transition (prior : option journal_record) (e : journal_record) :
    result journal_error unit :=
  if bool_decide (j_version e ≠ 1%N) || is_empty (j_invocation e) || is_empty (j_pre_merge_base e) ||
     is_empty (j_options_digest e) || is_empty (j_hook_digest e)
  then Err InvalidIdentity
  else if match j_stage e with Prepared => is_some (j_merge_oid e) | _ => false end
  then Err PreparedNamesMerge
  else if match j_stage e with Integrated => negb (is_some (j_merge_oid e)) | _ => false end
  then Err IntegratedLacksMerge
  else if match j_stage e with
          | Finalized => negb (is_some (j_merge_oid e)) && is_some (j_branch_head e)
          | _ => false
          end
  then Err FinalizedLacksMerge
  else
    match prior with
    | None => if decide (j_stage e = Prepared) then Ok tt else Err OutOfOrder
    | Some old =>
        if same_operation old e && stage_follows old e &&
           (negb (is_some (j_merge_oid old)) || bool_decide (j_merge_oid old = j_merge_oid e))
        then Ok tt else Err OutOfOrder
    end.

Record progress := Progress {
  pr_entries : gmap string journal_record;
  pr_operations : gmap string string;
}.

Section Journal.
Context `{LineCodec journal_record}.

(** One line of [read_progress]. *)
Definition read_entry (p : progress) (e : journal_record) : result journal_error progress :=
  if decide (j_version e ≠ 1%N) then Err (UnsupportedVersion (j_version e))
  else if match pr_operations p !! j_invocation e with
          | Some other => bool_decide (other ≠ j_permit e)
          | None => false
          end
  then Err OperationOfSeveralPermits
  else
    _ ← validate_transition (pr_entries p !! j_permit e) e;
    Ok (Progress (<[j_permit e := e]> (pr_entries p)) (<[j_invocation e := j_permit e]> (pr_operations p))).

Fixpoint read_lines_from (number : nat) (p : progress) (ls : list string) : result journal_error progress :=
  match ls with
  | [] => Ok p
  | l :: ls =>
      if is_blank l then Err (EmptyLine number)
      else
        match dec l with
        | None => Err (MalformedLine number)
        | Some e => p' ← read_entry p e; read_lines_from (S number) p' ls
        end
  end.

Definition read_progress (f : option string) (o : io) : result journal_error progress :=
  if io_read_fails o then Err JournalUnreadable
  else read_lines_from 1 (Progress ∅ ∅) (lines (text_of f)).

Definition latest (f : option string) (o : io) (permit : string) :
    result journal_error (option journal_record) :=
  (λ p, pr_entries p !! permit) <$> read_progress f o.

Definition has_attempt_for (f : option string) (o : io) (molecule : mid) : result journal_error bool :=
  (λ p, bool_decide (map_Exists (λ _ e, he_molecule (cr_effect (j_receipt e)) = molecule) (pr_entries p)))
    <$> read_progress f o.

Definition journal_append (f : option string) (o : io) (e : journal_record) :
    option string * result journal_error unit :=
  match latest f o (j_permit e) with
  | Err err => (f, Err err)
  | Ok prior =>
      match validate_transition prior e with
      | Err err => (f, Err err)
      | Ok _ =>
          (Some (append_record (text_of f) e (io_write o)),
           match io_write o with Written => Ok tt | Stopped _ => Err JournalAppendFailed end)
      end
  end.
End Journal.

(** ** The choice among the installed grants *)

(** Why an authorisation could not be decided. *)
Inductive failure_reason : Type :=
| LedgerFault (e : receipt_fault)
| ReceiptOfAnotherGrant (permit : string)
| ConflictingAliases (grant : string)
| PreliminaryAncestryFault
| MissionGrantAppeared
| AncestryFault (e : ancestry_error)
| AncestryChanged.

Record authorization_failure := AuthorizationFailure {
  fl_reason : failure_reason;
  fl_cause : authorization_cause;
}.

Inductive considered : Type :=
| MalformedGrant
| RefusedGrant (r : harvest_refusal).

Inductive harvest_decision : Type :=
| NotInForce
| Authorized (r : consumption_record)
| AlreadyLandedBefore (r : consumption_record)
| Refused (lines : list considered) (cause : authorization_cause).

Definition targets_molecule (a : done_authorization) (f : harvest_facts) : bool :=
  match g_scope (auth_grant a) with
  | MoleculeScope m => bool_decide (m = hf_molecule f)
  | MissionScope m _ => bool_decide (hf_mission f = Some m)
  end.

Definition same_receipt (a b : consumption_record) : bool :=
  bool_decide (cr_grant a = cr_grant b) && bool_decide (cr_effect a = cr_effect b) &&
  bool_decide (cr_key_id a = cr_key_id b) && bool_decide (cr_invocation_id a = cr_invocation_id b).

Section Decision.
Context `{GrantText} {V : Type} `{HarvestSealVerifier V} `{LineCodec consumption_record}.

(** The loop over [receipt_ids]. *)
Fixpoint prior_receipt (f : option string) (o : io) (grant : string) (ids : list string)
    (prior : option consumption_record) : result authorization_failure (option consumption_record) :=
  match ids with
  | [] => Ok prior
  | permit :: ids =>
      match receipt_recorded f o permit with
      | Err e => Err (AuthorizationFailure (LedgerFault e) RecoveryRequired)
      | Ok None => prior_receipt f o grant ids prior
      | Ok (Some r) =>
          if decide (cr_grant r ≠ grant) then
            Err (AuthorizationFailure (ReceiptOfAnotherGrant permit) RecoveryRequired)
          else
            match prior with
            | Some previous =>
                if negb (same_receipt previous r) then
                  Err (AuthorizationFailure (ConflictingAliases grant) RecoveryRequired)
                else prior_receipt f o grant ids prior
            | None => prior_receipt f o grant ids (Some r)
            end
      end
  end.

(** The cause of a refusal: the first of the list that was seen. *)
Definition refusal_cause_of (root_present malformed : bool) (cands : list done_authorization)
    (causes : list (option authorization_cause)) : authorization_cause :=
  if negb root_present then KeyMissing
  else
    match cands with
    | [] => if malformed then GrantInvalid else GrantMissing
    | _ =>
        match list_find (λ c, Some c ∈ causes)
                [GrantInvalid; SignatureInvalid; GrantExpired; GrantRevoked; GrantMismatch; KeyMissing] with
        | Some (_, c) => c
        | None => GrantMissing
        end
    end.

(** One request under the trunk lock. *)
Record harvest_request := HarvestRequest {
  rq_verifier : V;
  rq_root_present : bool;
  rq_malformed : bool;
  rq_candidates : list done_authorization;
  rq_facts : done_authorization → result authorization_failure harvest_facts;
  rq_invocation_id : string;
  rq_io : io;
}.

Definition receipt_of (p : harvest_permit) (invocation : string) : consumption_record :=
  ConsumptionRecord (hp_permit p) (hp_grant p) (hp_effect p) (hp_key_id p) invocation.

(** The loop over the candidates, with the refusals so far and the last fault
    of the facts. *)
Fixpoint consider (q : harvest_request) (f : option string) (cands : list done_authorization)
    (refusals : list (considered * option authorization_cause)) (fault : option authorization_failure) :
    option string * result authorization_failure harvest_decision :=
  match cands with
  | [] =>
      (f, match fault with
          | Some e => Err e
          | None =>
              Ok (Refused (fst <$> refusals)
                    (refusal_cause_of (rq_root_present q) (rq_malformed q) (rq_candidates q) (snd <$> refusals)))
          end)
  | a :: cands =>
      match rq_facts q a with
      | Err e => consider q f cands refusals (Some e)
      | Ok facts =>
          match prior_receipt f (rq_io q) (fingerprint (auth_grant a)) (receipt_ids a (hf_molecule facts)) None with
          | Err e => (f, Err e)
          | Ok prior =>
              match authorize a facts prior (rq_verifier q) with
              | Ok (AlreadyLandedAs r) => (f, Ok (AlreadyLandedBefore r))
              | Ok (FreshPermit p) =>
                  let r := receipt_of p (rq_invocation_id q) in
                  let '(f', w) := consume f (rq_io q) r in
                  (f', match w with
                       | Ok _ => Ok (Authorized r)
                       | Err e => Err (AuthorizationFailure (LedgerFault e) RecoveryRequired)
                       end)
              | Err refusal =>
                  consider q f cands
                    (refusals ++ [(RefusedGrant refusal,
                                   if targets_molecule a facts then Some (refusal_cause refusal) else None)])
                    fault
              end
          end
      end
  end.

Definition authorize_candidates (q : harvest_request) (f : option string) :
    option string * result authorization_failure harvest_decision :=
  consider q f (rq_candidates q) (if rq_malformed q then [(MalformedGrant, Some GrantInvalid)] else []) None.

(** A sequence of requests on one ledger. *)
Fixpoint run_requests (qs : list harvest_request) (f : option string) :
    option string * list (result authorization_failure harvest_decision) :=
  match qs with
  | [] => (f, [])
  | q :: qs =>
      let '(f1, d) := authorize_candidates q f in
      let '(f2, ds) := run_requests qs f1 in (f2, d :: ds)
  end.

Definition authorized_receipt (d : result authorization_failure harvest_decision) :
    option consumption_record :=
  match d with Ok (Authorized r) => Some r | _ => None end.
End Decision.

(** ** The facts of a locked harvest *)

(** The fields of [AuthorizationFacts]; the key is the source and the digest
    of the pinned public key. *)
Record authorization_facts := AuthorizationFacts {
  af_config_bytes : string;
  af_project_id : string;
  af_status : molecule_status;
  af_base : resolved_base;
  af_tags : list string;
  af_protected_paths : list string;
  af_scope_allow : option string;
  af_persisted_base : option string;
  af_parents : list mid;
  af_molecule_project_id : option string;
  af_merged_at : option Z;
  af_archived : bool;
  af_epoch : grant_epoch;
  af_policy_bytes : option string;
  af_key : option (string * string);
}.

#[export] Instance authorization_facts_eq_dec : EqDecision authorization_facts.
Proof. solve_decision. Defined.

(** [require_unchanged]: every field is compared. *)
Definition require_unchanged (old current : authorization_facts) : bool := bool_decide (old = current).

Definition for_effect `{GrantText} (a : authorization_facts) (molecule : mid) (mission : option mid) (now : Z) :
    harvest_facts :=
  HarvestFacts (af_project_id a) molecule mission (Some (policy_digest (default EmptyString (af_policy_bytes a))))
    (rb_branch (af_base a)) DoneAction (reservations_crossed (af_tags a)) (af_epoch a) now.

#[export] Instance mission_ancestry_eq_dec : EqDecision mission_ancestry.
Proof. solve_decision. Defined.

(** The closure of [authorize_harvest_from_facts]: a mission grant needs the
    ancestry that the gates saw. *)
Definition locked_facts `{GrantText, StateStore} (a : authorization_facts) (molecule : mid)
    (preliminary : option (result ancestry_error mission_ancestry)) (now : Z) (auth : done_authorization) :
    result authorization_failure harvest_facts :=
  match g_scope (auth_grant auth) with
  | MoleculeScope _ => Ok (for_effect a molecule None now)
  | MissionScope _ _ =>
      match preliminary with
      | Some (Err _) => Err (AuthorizationFailure PreliminaryAncestryFault FactsUnavailable)
      | None => Err (AuthorizationFailure MissionGrantAppeared FactsChanged)
      | Some (Ok before) =>
          match strict_mission_ancestry molecule with
          | Err e => Err (AuthorizationFailure (AncestryFault e) FactsUnavailable)
          | Ok current =>
              if decide (before ≠ current) then Err (AuthorizationFailure AncestryChanged FactsChanged)
              else Ok (for_effect a molecule (Some (an_root current)) now)
          end
      end
  end.

(** ** A permit is spent once *)

Section SpentOnce.
Context `{GrantText} {V : Type} `{HarvestSealVerifier V} `{LineLaws consumption_record}.

Lemma recorded_in_none permit rs found :
  recorded_in permit (enc <$> rs) found = Ok None → found = None ∧ ∀ r, r ∈ rs → cr_permit r ≠ permit.
Proof.
  revert found. induction rs as [|r rs IH]; intros found; cbn [recorded_in fmap list_fmap].
  - intros [= ->]. split; [done|]. by intros r ?%elem_of_nil.
  - destruct (enc_opens r) as [s Hs]. rewrite Hs, opens_not_blank, <- Hs, dec_enc.
    destruct (decide (cr_permit r = permit)) as [Hp|Hp].
    + destruct found as [p|]; [case_decide; [done|]|]; by intros [? _]%IH.
    + intros [-> Hrs]%IH. split; [done|]. intros r' [->|Hr]%elem_of_cons; [done|by apply Hrs].
Qed.

Lemma recorded_in_poisoned permit ls found l :
  l ∈ ls → is_blank l = false → dec l = None (A := consumption_record) →
  ∃ e, recorded_in permit ls found = Err e.
Proof.
  intros Hin Hb Hd. revert found. induction ls as [|x ls IH]; intros found; [by apply elem_of_nil in Hin|].
  cbn [recorded_in]. apply elem_of_cons in Hin as [<-|Hin].
  { rewrite Hb, Hd. by eexists. }
  destruct (is_blank x); [by apply IH|]. destruct (dec x) as [r|]; [|by eexists].
  case_decide; [|by apply IH]. destruct found; [case_decide; [by eexists|]|]; by apply IH.
Qed.

Lemma recorded_poisoned f o permit : poisoned (A := consumption_record) (text_of f) → ∃ e, receipt_recorded f o permit = Err e.
Proof.
  intros (l & Hl & Hb & Hd). unfold receipt_recorded. destruct (io_read_fails o); [by eexists|].
  by eapply recorded_in_poisoned.
Qed.

Lemma prior_receipt_none f o grant permit ids prior :
  prior_receipt f o grant (permit :: ids) prior = Ok None → receipt_recorded f o permit = Ok None.
Proof.
  cbn [prior_receipt]. destruct (receipt_recorded f o permit) as [[r|]|e]; [|done|done].
  case_decide; [done|]. intros Hp. exfalso. revert Hp.
  assert (∀ ids p, prior_receipt f o grant ids (Some p) ≠ Ok None) as Hsome.
  { intros l. induction l as [|x l IH]; intros p; cbn [prior_receipt]; [done|].
    destruct (receipt_recorded f o x) as [[y|]|e]; [|by apply IH|done]. case_decide; [done|].
    destruct (negb _); [done|by apply IH]. }
  destruct prior as [p|]; [destruct (negb _); [done|]|]; by apply Hsome.
Qed.

(** What one request may do to the ledger. *)
Definition request_effect (q : harvest_request) (f f' : option string)
    (d : result authorization_failure harvest_decision) : Prop :=
  (f' = f ∧ authorized_receipt d = None) ∨
  ∃ a facts p, a ∈ rq_candidates q ∧ rq_facts q a = Ok facts ∧
    authorize a facts None (rq_verifier q) = Ok (FreshPermit p) ∧
    receipt_recorded f (rq_io q) (hp_permit p) = Ok None ∧
    f' = Some (append_record (text_of f) (receipt_of p (rq_invocation_id q)) (io_write (rq_io q))) ∧
    (∀ r, authorized_receipt d = Some r → r = receipt_of p (rq_invocation_id q) ∧ io_write (rq_io q) = Written).

Lemma consider_effect q f cands refusals fault f' d :
  (∀ a, a ∈ cands → a ∈ rq_candidates q) →
  consider q f cands refusals fault = (f', d) → request_effect q f f' d.
Proof.
  revert refusals fault. induction cands as [|a cands IH]; intros refusals fault Hin; cbn [consider].
  - intros [= <- <-]. left. split; [done|]. by destruct fault.
  - assert (∀ x, x ∈ cands → x ∈ rq_candidates q) as Hin' by (intros; apply Hin; by right).
    destruct (rq_facts q a) as [facts|e] eqn:Hf; [|by apply IH].
    destruct (prior_receipt _ _ _ _ _) as [prior|e] eqn:Hp; [|intros [= <- <-]; by left].
    destruct (authorize a facts prior (rq_verifier q)) as [[p|r]|refusal] eqn:Ha;
      [|intros [= <- <-]; by left|by apply IH].
    pose proof (authorize_prior _ _ _ _ _ Ha) as [-> Hpermit].
    cbn [consume]. intros Hd. right. exists a, facts, p.
    assert (receipt_recorded f (rq_io q) (hp_permit p) = Ok None) as Hr.
    { rewrite Hpermit. by eapply prior_receipt_none. }
    unfold consume in Hd. injection Hd as <- <-. split_and!; try done; [apply Hin; by left|].
    intros r. destruct (io_write (rq_io q)); [by intros [= <-]|done].
Qed.

(** A receipt that is found is the only one of its permit. *)
Lemma recorded_in_some permit rs found r :
  recorded_in permit (enc <$> rs) found = Ok (Some r) →
  cr_permit r = permit ∨ found = Some r → (∀ p, found = Some p → p = r) ∧ ∀ r', r' ∈ rs → cr_permit r' = permit → r' = r.
Proof.
  revert found. induction rs as [|x rs IH]; intros found; cbn [recorded_in fmap list_fmap].
  - intros [= ->] _. split; [by intros p [= ->]|]. by intros r' ?%elem_of_nil.
  - destruct (enc_opens x) as [s Hs]. rewrite Hs, opens_not_blank, <- Hs, dec_enc. intros Hrec Hwho.
    destruct (decide (cr_permit x = permit)) as [Hp|Hp].
    + assert (∀ p, found = Some p → p = x) as Hfound by (intros p ->; by case_decide).
      assert (recorded_in permit (enc <$> rs) (Some x) = Ok (Some r)) as Hx by (destruct found; [by case_decide|done]).
      destruct (IH (Some x) Hx) as [Hsame Hrs].
      { destruct Hwho as [?|Hf]; [by left|right]. by rewrite (Hfound r Hf). }
      specialize (Hsame x eq_refl). subst x. split; [done|]. intros r' [->|Hr']%elem_of_cons; [done|by apply Hrs].
    + destruct (IH found Hrec Hwho) as [Hsame Hrs]. split; [done|]. intros r' [->|Hr']%elem_of_cons Hp'; [done|by apply Hrs].
Qed.

Lemma recorded_in_permit permit ls found r :
  recorded_in permit ls found = Ok (Some r) → (∀ p, found = Some p → cr_permit p = permit) → cr_permit r = permit.
Proof.
  revert found. induction ls as [|l ls IH]; intros found; cbn [recorded_in]; [intros [= ->] Hf; by apply Hf|].
  destruct (is_blank l); [apply IH|]. destruct (dec l) as [x|]; [|done]. destruct (decide (cr_permit x = permit)); [|apply IH].
  destruct found; [case_decide; [done|]|]; intros Hr _; apply (IH _ Hr); by intros p [= <-].
Qed.

Lemma prior_receipt_some f o grant ids prior r :
  prior_receipt f o grant ids prior = Ok (Some r) →
  prior = Some r ∨ cr_grant r = grant ∧ cr_permit r ∈ ids ∧ receipt_recorded f o (cr_permit r) = Ok (Some r).
Proof.
  revert prior. induction ids as [|x ids IH]; intros prior; cbn [prior_receipt]; [intros [= ->]; by left|].
  assert (∀ p, prior_receipt f o grant ids p = Ok (Some r) → p = Some r ∨
    cr_grant r = grant ∧ cr_permit r ∈ x :: ids ∧ receipt_recorded f o (cr_permit r) = Ok (Some r)) as IH'.
  { intros p Hp. destruct (IH p Hp) as [?|(? & ? & ?)]; [by left|right]. split_and!; [done|by right|done]. }
  destruct (receipt_recorded f o x) as [[y|]|e] eqn:Hy; [|apply IH'|done]. case_decide as Hg; [done|].
  destruct prior as [p|]; [destruct (negb _); [done|apply IH']|]. intros [[= ->]|?]%IH'; right; [|done].
  assert (cr_permit r = x) as Hx.
  { unfold receipt_recorded in Hy. destruct (io_read_fails o); [done|]. by apply recorded_in_permit in Hy. }
  split_and!; [done|rewrite Hx; left|by rewrite Hx].
Qed.

(** What an answer that the effect has landed before rests on. *)
Definition landed_before (q : harvest_request) (f : option string) (r : consumption_record) : Prop :=
  (∃ a facts, a ∈ rq_candidates q ∧ rq_facts q a = Ok facts ∧ covered (rq_verifier q) a facts ∧
     cr_grant r = fingerprint (auth_grant a) ∧ cr_effect r = effect_of facts ∧ cr_permit r ∈ receipt_ids a (hf_molecule facts)) ∧
  receipt_recorded f (rq_io q) (cr_permit r) = Ok (Some r).

Lemma consider_landed q f cands refusals fault f' r :
  (∀ a, a ∈ cands → a ∈ rq_candidates q) →
  consider q f cands refusals fault = (f', Ok (AlreadyLandedBefore r)) → f' = f ∧ landed_before q f r.
Proof.
  revert refusals fault. induction cands as [|a cands IH]; intros refusals fault Hin; cbn [consider]; [by destruct fault|].
  assert (∀ x, x ∈ cands → x ∈ rq_candidates q) as Hin' by (intros; apply Hin; by right).
  destruct (rq_facts q a) as [facts|e] eqn:Hf; [|by apply IH].
  destruct (prior_receipt _ _ _ _ _) as [prior|e] eqn:Hp; [|done].
  destruct (authorize a facts prior (rq_verifier q)) as [[p|x]|refusal] eqn:Ha; [|intros [= <- <-]|by apply IH].
  { unfold consume. by destruct (io_write (rq_io q)). }
  split; [done|]. destruct (authorize_landed _ _ _ _ _ Ha) as (Hc & -> & He).
  apply prior_receipt_some in Hp as [?|(Hg & Hi & Hr)]; [done|]. split; [|done].
  exists a, facts. split_and!; [by apply Hin; left|done..].
Qed.

(** The ledger holds every receipt that was authorised, or no read accepts it. *)
Definition ledger_inv (spent : list consumption_record) (f : option string) : Prop :=
  poisoned (A := consumption_record) (text_of f) ∨
  ∃ rs, holds rs (text_of f) ∧ ∀ r, r ∈ spent → r ∈ rs.

Lemma request_ledger_inv q f f' d spent :
  ledger_inv spent f → request_effect q f f' d →
  ledger_inv (spent ++ option_list (authorized_receipt d)) f' ∧
  ∀ r, authorized_receipt d = Some r → ∀ r', r' ∈ spent → cr_permit r' ≠ cr_permit r.
Proof.
  intros Hinv [[-> Hd]|(a & facts & p & _ & _ & _ & Hrec & -> & Hd)].
  { rewrite Hd. cbn. by rewrite app_nil_r. }
  destruct Hinv as [Hpo|(rs & Hrs & Hsp)].
  { destruct (recorded_poisoned f (rq_io q) (hp_permit p) Hpo) as [e He]. congruence. }
  set (r := receipt_of p (rq_invocation_id q)) in *.
  assert (∀ r', r' ∈ rs → cr_permit r' ≠ cr_permit r) as Hnew.
  { unfold receipt_recorded in Hrec. destruct (io_read_fails (rq_io q)); [done|].
    rewrite (holds_lines _ _ Hrs) in Hrec. by apply recorded_in_none in Hrec as [_ ?]. }
  split.
  - destruct (append_line_holds _ _ r (io_write (rq_io q)) Hrs) as [Ha|[[Hw Ha]|Ha]].
    + right. exists (rs ++ [r]). split; [done|]. intros x [Hx|Hx]%elem_of_app; [set_solver|].
      destruct (authorized_receipt d) as [r0|]; [|by apply elem_of_nil in Hx].
      apply list_elem_of_singleton in Hx as ->. destruct (Hd r0 eq_refl) as [-> _]. set_solver.
    + right. exists rs. split; [done|]. intros x [Hx|Hx]%elem_of_app; [by apply Hsp|].
      destruct (authorized_receipt d) as [r0|]; [|by apply elem_of_nil in Hx].
      by destruct (Hd r0 eq_refl) as [_ ?].
    + by left.
  - intros r0 Hr0 r' Hr'. destruct (Hd r0 Hr0) as [-> _]. by apply Hnew, Hsp.
Qed.

(** An answer that the effect has landed before is the receipt that was spent. *)
Lemma landed_spent q f spent r r' :
  ledger_inv spent f → landed_before q f r' → r ∈ spent → cr_permit r' = cr_permit r → r' = r.
Proof.
  intros [Hpo|(rs & Hrs & Hsp)] [_ Hr] Hin Hp.
  { destruct (recorded_poisoned f (rq_io q) (cr_permit r') Hpo) as [e He]. congruence. }
  unfold receipt_recorded in Hr. destruct (io_read_fails (rq_io q)); [done|]. rewrite (holds_lines _ _ Hrs) in Hr.
  destruct (recorded_in_some _ _ _ _ Hr (or_introl eq_refl)) as [_ Hall]. symmetry. by apply Hall; [apply Hsp|].
Qed.

Lemma requests_landed qs f spent f' ds :
  ledger_inv spent f → run_requests qs f = (f', ds) →
  ∀ j q r, qs !! j = Some q → ds !! j = Some (Ok (AlreadyLandedBefore r)) →
    (∃ g, landed_before q g r) ∧
    ∀ r0, r0 ∈ spent ∨ (∃ i, i < j ∧ ds !! i = Some (Ok (Authorized r0))) → cr_permit r = cr_permit r0 → r = r0.
Proof.
  revert f spent ds. induction qs as [|q qs IH]; intros f spent ds Hinv; cbn [run_requests]; [intros _ j q r Hq; by rewrite lookup_nil in Hq|].
  destruct (authorize_candidates q f) as [f1 d] eqn:Hd. destruct (run_requests qs f1) as [f2 ds2] eqn:Hds. intros [= <- <-].
  assert (request_effect q f f1 d) as He by (by eapply consider_effect; [|exact Hd]).
  destruct (request_ledger_inv _ _ _ _ _ Hinv He) as [Hinv1 _]. intros [|j] q' r Hq Hr.
  - injection Hq as <-. injection Hr as ->. destruct (consider_landed q f _ _ _ _ _ (λ _ Ha, Ha) Hd) as [_ Hl]. split; [by exists f|].
    intros r0 [Hin|(i & Hi & _)] Hp; [exact (landed_spent q f spent r0 r Hinv Hl Hin Hp)|lia].
  - destruct (IH f1 _ ds2 Hinv1 Hds j q' r Hq Hr) as [Hl Hall]. split; [done|]. intros r0 Hr0 Hp. apply Hall; [|done].
    destruct Hr0 as [Hin|([|i] & Hi & Hr0)]; [left; apply elem_of_app; by left| |right; exists i; split; [lia|done]].
    injection Hr0 as ->. left. apply elem_of_app. right. left.
Qed.

Lemma requests_spent qs f spent f' ds :
  ledger_inv spent f → NoDup (cr_permit <$> spent) → run_requests qs f = (f', ds) →
  NoDup (cr_permit <$> spent ++ omap authorized_receipt ds) ∧
  ∀ i q d r, qs !! i = Some q → ds !! i = Some d → authorized_receipt d = Some r →
    ∃ a facts, a ∈ rq_candidates q ∧ rq_facts q a = Ok facts ∧ covered (rq_verifier q) a facts ∧
      r = ConsumptionRecord (permit_id a (hf_molecule facts)) (fingerprint (auth_grant a)) (effect_of facts)
            (seal_key_id (rq_verifier q)) (rq_invocation_id q).
Proof.
  revert f spent ds. induction qs as [|q qs IH]; intros f spent ds Hinv Hnd; cbn [run_requests].
  { intros [= <- <-]. rewrite app_nil_r. split; [done|]. intros i q d r Hq. by rewrite lookup_nil in Hq. }
  destruct (authorize_candidates q f) as [f1 d] eqn:Hd. destruct (run_requests qs f1) as [f2 ds2] eqn:Hds.
  intros [= <- <-]. assert (request_effect q f f1 d) as He.
  { by eapply consider_effect; [|exact Hd]. }
  destruct (request_ledger_inv _ _ _ _ _ Hinv He) as [Hinv1 Hfresh].
  destruct (IH f1 _ ds2 Hinv1) as [Hnd2 Hall]; [|exact Hds|].
  { rewrite fmap_app. apply NoDup_app. split_and!; [done| |by destruct (authorized_receipt d); repeat constructor; set_solver].
    intros x Hx Hx'. apply list_elem_of_fmap in Hx as (r' & -> & Hr').
    destruct (authorized_receipt d) as [r|] eqn:Hr; [|by apply elem_of_nil in Hx'].
    apply list_elem_of_singleton in Hx'. by apply (Hfresh r eq_refl r'). }
  split.
  - cbn [omap list_omap]. destruct (authorized_receipt d) as [r|]; cbn in Hnd2; [|by rewrite app_nil_r in Hnd2].
    by rewrite <- app_assoc in Hnd2.
  - intros [|i] q' d' r Hq' Hd' Hr; [|by eapply Hall]. injection Hq' as <-. injection Hd' as <-.
    destruct He as [[_ ?]|(a & facts & p & Ha & Hf & Hp & _ & _ & Hw)]; [congruence|].
    exists a, facts. split_and!; [done|done| |].
    + pose proof (authorize_sound _ _ _ _ _ Hp) as [? _]. done.
    + destruct (Hw r Hr) as [-> _]. pose proof (authorize_sound _ _ _ _ _ Hp) as [_ ->]. done.
Qed.

(** C5. Whatever requests are made on a ledger, with whatever grants, facts,
    keys and failing reads and writes, no permit is authorised twice; and what
    is authorised is the effect that a sealed grant among the candidates covers
    under the facts of its request. An answer that the effect has landed before
    carries a receipt of such a grant and effect, and it is the receipt of the
    first authorisation when its permit was authorised earlier. *)
Theorem permit_spent_once qs :
  let ds := (run_requests qs None).2 in
  NoDup (cr_permit <$> omap authorized_receipt ds) ∧
  (∀ i q d r, qs !! i = Some q → ds !! i = Some d → authorized_receipt d = Some r →
    ∃ a facts, a ∈ rq_candidates q ∧ rq_facts q a = Ok facts ∧ covered (rq_verifier q) a facts ∧
      r = ConsumptionRecord (permit_id a (hf_molecule facts)) (fingerprint (auth_grant a)) (effect_of facts)
            (seal_key_id (rq_verifier q)) (rq_invocation_id q)) ∧
  ∀ j q r, qs !! j = Some q → ds !! j = Some (Ok (AlreadyLandedBefore r)) →
    (∃ a facts, a ∈ rq_candidates q ∧ rq_facts q a = Ok facts ∧ covered (rq_verifier q) a facts ∧
       cr_grant r = fingerprint (auth_grant a) ∧ cr_effect r = effect_of facts ∧ cr_permit r ∈ receipt_ids a (hf_molecule facts)) ∧
    ∀ i first, i < j → ds !! i = Some (Ok (Authorized first)) → cr_permit r = cr_permit first → r = first.
Proof.
  destruct (run_requests qs None) as [f ds] eqn:Hds.
  assert (ledger_inv [] None) as Hinv by (right; exists []; split; [apply holds_empty|by intros r ?%elem_of_nil]).
  destruct (requests_spent qs None [] f ds Hinv (NoDup_nil_2) Hds) as [Hnd Hall]. split_and!; [done|done|].
  intros j q r Hq Hr. destruct (requests_landed qs None [] f ds Hinv Hds j q r Hq Hr) as [(g & Hl & _) Hsame].
  split; [done|]. intros i first Hi Hf. apply Hsame. right. by exists i.
Qed.
End SpentOnce.

(** ** The journal of one permit *)

Section JournalRuns.
Context `{LineLaws journal_record}.

(** A sequence of appends, with the entries whose append succeeded. *)
Fixpoint appends (ops : list (journal_record * io)) (f : option string) : option string * list journal_record :=
  match ops with
  | [] => (f, [])
  | (e, o) :: ops =>
      let '(f1, r) := journal_append f o e in
      let '(f2, acked) := appends ops f1 in
      (f2, match r with Ok _ => e :: acked | Err _ => acked end)
  end.

(** The entries of one permit. *)
Definition path_of (permit : string) (es : list journal_record) : list journal_record :=
  filter (λ e, j_permit e = permit) es.

(** Each entry follows the one before. *)
Definition legal_path (l : list journal_record) : Prop :=
  ∀ pre e post, l = pre ++ e :: post → validate_transition (last pre) e = Ok tt.

(** What an operation goes through. *)
Definition shapes : list (list journal_stage) :=
  [[]; [Prepared]; [Prepared; Integrated]; [Prepared; Finalized]; [Prepared; Integrated; Finalized]].

Lemma path_of_snoc p es e :
  path_of p (es ++ [e]) = path_of p es ++ (if decide (j_permit e = p) then [e] else []).
Proof. unfold path_of. by rewrite filter_app. Qed.

Lemma legal_path_snoc l e : legal_path l → validate_transition (last l) e = Ok tt → legal_path (l ++ [e]).
Proof.
  intros Hl He pre x post Heq. destruct post as [|y post] using rev_ind.
  - by apply app_inj_tail in Heq as [-> ->].
  - rewrite app_comm_cons, app_assoc in Heq. apply app_inj_tail in Heq as [-> _]. by eapply Hl.
Qed.

Lemma transition_ok prior e :
  validate_transition prior e = Ok tt →
  match prior with
  | None => j_stage e = Prepared
  | Some old => same_operation old e = true ∧ stage_follows old e = true ∧
      (∀ oid, j_merge_oid old = Some oid → j_merge_oid e = Some oid)
  end.
Proof.
  unfold validate_transition. repeat (match goal with |- context [if ?b then Err _ else _] => destruct b end; [done|]).
  destruct prior as [old|]; [|by case_decide].
  destruct (same_operation old e); [|done]. destruct (stage_follows old e); [|done]. cbn [andb].
  destruct (negb _ || _) eqn:Ho; [|done]. intros _. split_and!; [done|done|].
  intros oid Hoid. rewrite Hoid in Ho. cbn in Ho. apply bool_decide_eq_true in Ho. by rewrite Ho.
Qed.

Lemma read_entry_ok p e p' :
  read_entry p e = Ok p' → ∀ k, pr_entries p' !! k = if decide (j_permit e = k) then Some e else pr_entries p !! k.
Proof.
  unfold read_entry. destruct (decide _); [done|]. destruct (match _ with Some _ => _ | None => _ end); [done|].
  intros ([] & _ & [= <-])%result_bind_ok k. cbn. case_decide as Hk.
  - by rewrite Hk, lookup_insert_eq.
  - by rewrite lookup_insert_ne.
Qed.

Lemma last_path_cons p e es :
  last (path_of p (e :: es)) =
    match last (path_of p es) with Some x => Some x | None => if decide (j_permit e = p) then Some e else None end.
Proof.
  unfold path_of. destruct (decide (j_permit e = p)) as [Hp|Hp].
  - rewrite filter_cons_True by done. rewrite last_cons. by destruct (last _).
  - rewrite filter_cons_False by done. by destruct (last _).
Qed.

Lemma read_lines_last n p es p' k :
  read_lines_from n p (enc <$> es) = Ok p' →
  pr_entries p' !! k = match last (path_of k es) with Some e => Some e | None => pr_entries p !! k end.
Proof.
  revert n p. induction es as [|e es IH]; intros n p; cbn [read_lines_from fmap list_fmap]; [by intros [= <-]|].
  destruct (enc_opens e) as [s Hs]. rewrite Hs, opens_not_blank, <- Hs, dec_enc.
  intros (p1 & Hp1 & Hr)%result_bind_ok. rewrite (IH _ _ Hr), last_path_cons.
  destruct (last (path_of k es)); [done|]. rewrite (read_entry_ok _ _ _ Hp1). by case_decide.
Qed.

Lemma read_lines_poisoned n p ls l :
  l ∈ ls → is_blank l = false → dec l = None (A := journal_record) → ∃ e, read_lines_from n p ls = Err e.
Proof.
  intros Hin Hb Hd. revert n p. induction ls as [|x ls IH]; intros n p; [by apply elem_of_nil in Hin|].
  cbn [read_lines_from]. apply elem_of_cons in Hin as [<-|Hin]; [rewrite Hb, Hd; by eexists|].
  destruct (is_blank x); [by eexists|]. destruct (dec x) as [e|]; [|by eexists].
  destruct (read_entry p e) as [p'|err]; [by apply IH|by eexists].
Qed.

(** The journal holds legal paths only, among them every acknowledged entry in
    order, or no read accepts it. *)
Definition journal_inv (acked : list journal_record) (f : option string) : Prop :=
  poisoned (A := journal_record) (text_of f) ∨
  ∃ es, holds es (text_of f) ∧ sublist acked es ∧ ∀ p, legal_path (path_of p es).

Lemma journal_append_inv acked f o e f' r :
  journal_inv acked f → journal_append f o e = (f', r) →
  journal_inv (acked ++ match r with Ok _ => [e] | Err _ => [] end) f'.
Proof.
  intros Hinv. unfold journal_append. destruct (latest f o (j_permit e)) as [prior|err] eqn:Hlat;
    [|intros [= <- <-]; by rewrite app_nil_r].
  destruct (validate_transition prior e) as [[]|err] eqn:Hv; [|intros [= <- <-]; by rewrite app_nil_r].
  unfold latest, read_progress in Hlat. destruct (io_read_fails o); [done|].
  destruct Hinv as [(l & Hl & Hb & Hd)|(es & Hes & Hack & Hlegal)].
  { exfalso. destruct (read_lines_poisoned 1 (Progress ∅ ∅) _ l Hl Hb Hd) as [err Herr]. by rewrite Herr in Hlat. }
  rewrite (holds_lines _ _ Hes) in Hlat.
  destruct (read_lines_from _ _ _) as [p'|err] eqn:Hr; [|done]. cbn in Hlat. injection Hlat as Hlat.
  rewrite (read_lines_last _ _ _ _ (j_permit e) Hr) in Hlat. cbn in Hlat.
  assert (∀ p, legal_path (path_of p (es ++ [e]))) as Hlegal'.
  { intros p. rewrite path_of_snoc. case_decide as Hp; [|rewrite app_nil_r; apply Hlegal].
    apply legal_path_snoc; [apply Hlegal|]. subst p. rewrite <- Hv, <- Hlat.
    rewrite lookup_empty. by destruct (last _). }
  intros [= <- <-]. destruct (append_line_holds _ _ e (io_write o) Hes) as [Ha|[[Hw Ha]|Ha]].
  - right. exists (es ++ [e]). split_and!; [done| |done].
    destruct (io_write o); [by apply sublist_app|]. rewrite app_nil_r. by apply sublist_inserts_r.
  - right. exists es. split_and!; [done| |done]. destruct (io_write o); [done|]. by rewrite app_nil_r.
  - by left.
Qed.

Lemma appends_inv ops acked f f' acked' :
  journal_inv acked f → appends ops f = (f', acked') → journal_inv (acked ++ acked') f'.
Proof.
  revert acked f acked'. induction ops as [|[e o] ops IH]; intros acked f acked' Hinv; cbn [appends].
  { intros [= <- <-]. by rewrite app_nil_r. }
  destruct (journal_append f o e) as [f1 r] eqn:Hr. destruct (appends ops f1) as [f2 acked2] eqn:Ha.
  intros [= <- <-]. apply journal_append_inv with (acked := acked) in Hr; [|done].
  apply (IH _ _ _ Hr) in Ha. by destruct r; rewrite <- app_assoc in Ha.
Qed.

Lemma same_operation_spec a b :
  same_operation a b = true ↔
  j_receipt a = j_receipt b ∧ j_branch_head a = j_branch_head b ∧ j_pre_merge_base a = j_pre_merge_base b ∧
  j_options_digest a = j_options_digest b ∧ j_hook_digest a = j_hook_digest b.
Proof. unfold same_operation. rewrite !andb_true_iff, !bool_decide_eq_true. tauto. Qed.

(** One operation: its stages in order under one identity, and one merge. *)
Record one_operation (l : list journal_record) : Prop := {
  oo_shape : j_stage <$> l ∈ shapes;
  oo_same a b : a ∈ l → b ∈ l → same_operation a b = true;
  oo_merge a b x y : a ∈ l → b ∈ l → j_merge_oid a = Some x → j_merge_oid b = Some y → x = y;
  oo_branch a : a ∈ l → j_stage a = Finalized → is_Some (j_branch_head a) →
    ∃ b, b ∈ l ∧ j_stage b = Integrated;
}.

Lemma legal_path_operation l : legal_path l → one_operation l.
Proof.
  intros Hl. destruct l as [|a l].
  { split; [by left|intros ? ? ?%elem_of_nil; done..| |]; [intros ? ? ? ? ?%elem_of_nil; done|].
    by intros ? ?%elem_of_nil. }
  pose proof (transition_ok _ _ (Hl [] a l eq_refl)) as Ha. cbn in Ha.
  pose proof (Hl [] a l eq_refl) as Hva.
  assert (j_merge_oid a = None) as Hna.
  { unfold validate_transition in Hva. rewrite Ha in Hva. destruct (_ || _); [done|].
    by destruct (j_merge_oid a). }
  destruct l as [|b l].
  { split; cbn.
    - rewrite Ha. set_solver.
    - intros x y ->%list_elem_of_singleton ->%list_elem_of_singleton. by apply same_operation_spec.
    - intros x y ? ? ->%list_elem_of_singleton. congruence.
    - intros x ->%list_elem_of_singleton. congruence. }
  pose proof (transition_ok _ _ (Hl [a] b l eq_refl)) as (Hsab & Hfab & Hmab). cbn in Hfab.
  unfold stage_follows in Hfab. rewrite Ha in Hfab.
  apply same_operation_spec in Hsab as Eab.
  destruct l as [|c l].
  { split.
    - cbn. rewrite Ha. destruct (j_stage b); [done|set_solver..].
    - intros x y. rewrite !elem_of_cons, !elem_of_nil, same_operation_spec. intros [->|[->|[]]] [->|[->|[]]]; naive_solver.
    - intros x y u v. rewrite !elem_of_cons, !elem_of_nil. intros [->|[->|[]]] [->|[->|[]]]; congruence.
    - intros x. rewrite !elem_of_cons, !elem_of_nil. intros [->|[->|[]]]; [congruence|].
      intros Hb [h Hh]. rewrite Hb in Hfab. apply bool_decide_eq_true in Hfab. congruence. }
  pose proof (transition_ok _ _ (Hl [a; b] c l eq_refl)) as (Hsbc & Hfbc & Hmbc). cbn in Hfbc.
  unfold stage_follows in Hfbc. destruct (j_stage b) eqn:Hb; [done| |done].
  destruct (j_stage c) eqn:Hc; [done|done|]. apply same_operation_spec in Hsbc as Ebc.
  destruct l as [|d l].
  { split.
    - cbn. rewrite Ha, Hb, Hc. set_solver.
    - intros x y. rewrite !elem_of_cons, !elem_of_nil, same_operation_spec.
      intros [->|[->|[->|[]]]] [->|[->|[->|[]]]]; naive_solver congruence.
    - intros x y u v. rewrite !elem_of_cons, !elem_of_nil.
      intros [->|[->|[->|[]]]] [->|[->|[->|[]]]] Hu Hv; try congruence.
      + apply Hmbc in Hu. congruence.
      + apply Hmbc in Hv. congruence.
    - intros x. rewrite !elem_of_cons, !elem_of_nil. intros [->|[->|[->|[]]]]; [congruence|congruence|].
      intros _ _. exists b. split; [set_solver|done]. }
  pose proof (transition_ok _ _ (Hl [a; b; c] d l eq_refl)) as (_ & Hfcd & _). cbn in Hfcd.
  unfold stage_follows in Hfcd. by rewrite Hc in Hfcd.
Qed.

(** C36. Whatever is appended and however writes fail, the journal that can be
    read holds for each permit one operation under one identity, prepared, then
    integrated at most once with one merge, then finalized and nothing after
    it; every acknowledged entry is there, and a read answers the last entry of
    each permit. *)
Theorem journal_one_operation ops o :
  let '(f, acked) := appends ops None in
  match read_progress f o with
  | Ok p =>
      ∃ es, lines (text_of f) = enc <$> es ∧ sublist acked es ∧
        ∀ permit, one_operation (path_of permit es) ∧ pr_entries p !! permit = last (path_of permit es)
  | Err _ => True
  end.
Proof.
  destruct (appends ops None) as [f acked] eqn:Ha. apply (appends_inv ops []) in Ha; cbn [app] in Ha.
  2: { right. exists []. split_and!; [apply holds_empty|done|]. intros p pre e post He. by destruct pre. }
  destruct (read_progress f o) as [p|err] eqn:Hr; [|done].
  unfold read_progress in Hr. destruct (io_read_fails o); [done|].
  destruct Ha as [(l & Hl & Hb & Hd)|(es & Hes & Hack & Hlegal)].
  { destruct (read_lines_poisoned 1 (Progress ∅ ∅) _ l Hl Hb Hd) as [err Herr]. congruence. }
  rewrite (holds_lines _ _ Hes) in Hr. exists es. split_and!; [by apply holds_lines|done|].
  intros permit. split; [by apply legal_path_operation|].
  rewrite (read_lines_last _ _ _ _ permit Hr). cbn. rewrite lookup_empty. by destruct (last _).
Qed.
End JournalRuns.

(** ** The locked section of a harvest *)

(** What [cs done] reads under the trunk lock, after the facts. *)
Record locked_reads := LockedReads {
  lr_base_branch : string;
  lr_pre_merge_base : string;
  lr_branch_head : option string;
  lr_preliminary_git : option (string * option string);
  lr_options_digest : string;
  lr_hook_digest : string;
  lr_post_merge_hook : bool;
  lr_in_base : string → bool;
  lr_legacy_landed : bool;
}.

Inductive recovery : Set :=
| ReservationNotJournaled
| JournalFault
| LegacyWithoutOutcome
| RetryChanged
| HookChanged
| PreparedHeadChanged
| IntegrationAbsent
| MissingOid
| PostMergeOutcomeUnknown.

Inductive locked_outcome : Type :=
| Proceed (progress : option journal_record) (resuming_integrated : bool)
| LegacyLanded
| AlreadyFinalized (e : journal_record)
| HeadsChanged
| DecisionFailed (e : authorization_failure)
| DecisionRefused (lines : list considered) (cause : authorization_cause)
| RecoveryFault (what : recovery).

Section Locked.
Context `{LineCodec journal_record}.

Definition prepared_entry (c : locked_reads) (r : consumption_record) : journal_record :=
  JournalRecord 1 Prepared r (lr_branch_head c) (lr_pre_merge_base c) (lr_options_digest c)
    (lr_hook_digest c) None.

(** The retry of an operation whose receipt was found. *)
Definition resume (c : locked_reads) (e : journal_record) : locked_outcome :=
  match j_stage e with
  | Prepared =>
      if decide (j_hook_digest e ≠ lr_hook_digest c) then RecoveryFault HookChanged
      else if decide (lr_pre_merge_base c ≠ j_pre_merge_base e ∨ lr_branch_head c ≠ j_branch_head e)
      then RecoveryFault PreparedHeadChanged
      else Proceed (Some e) false
  | stage =>
      if decide (stage = Integrated ∧ j_hook_digest e ≠ lr_hook_digest c) then RecoveryFault HookChanged
      else
        match j_merge_oid e with
        | Some oid =>
            if negb (lr_in_base c oid) then RecoveryFault IntegrationAbsent
            else if decide (stage = Finalized) then AlreadyFinalized e
            else if lr_post_merge_hook c then RecoveryFault PostMergeOutcomeUnknown
            else Proceed (Some e) true
        | None =>
            if bool_decide (stage ≠ Finalized) || is_some (j_branch_head e) then RecoveryFault MissingOid
            else if decide (stage = Finalized) then AlreadyFinalized e
            else if lr_post_merge_hook c then RecoveryFault PostMergeOutcomeUnknown
            else Proceed (Some e) true
        end
  end.

(** The [match] on the decision. *)
Definition after_decision (c : locked_reads) (f : option string) (o : io)
    (d : result authorization_failure harvest_decision) : option string * locked_outcome :=
  match d with
  | Err e => (f, DecisionFailed e)
  | Ok NotInForce => (f, Proceed None false)
  | Ok (Refused lines cause) => (f, DecisionRefused lines cause)
  | Ok (Authorized r) =>
      let e := prepared_entry c r in
      let '(f', w) := journal_append f o e in
      (f', match w with Ok _ => Proceed (Some e) false | Err _ => RecoveryFault ReservationNotJournaled end)
  | Ok (AlreadyLandedBefore r) =>
      (f, match latest f o (cr_permit r) with
          | Err _ => RecoveryFault JournalFault
          | Ok None => if lr_legacy_landed c then LegacyLanded else RecoveryFault LegacyWithoutOutcome
          | Ok (Some e) =>
              if decide (j_receipt e ≠ r ∨ j_options_digest e ≠ lr_options_digest c ∨
                         he_base (cr_effect (j_receipt e)) ≠ lr_base_branch c)
              then RecoveryFault RetryChanged
              else resume c e
          end)
  end.

Definition locked_section (c : locked_reads) (f : option string) (o : io)
    (d : result authorization_failure harvest_decision) : option string * locked_outcome :=
  if decide (lr_preliminary_git c ≠ Some (lr_pre_merge_base c, lr_branch_head c)) then (f, HeadsChanged)
  else after_decision c f o d.

Definition with_stage (e : journal_record) (stage : journal_stage) (oid : option string) : journal_record :=
  JournalRecord (j_version e) stage (j_receipt e) (j_branch_head e) (j_pre_merge_base e)
    (j_options_digest e) (j_hook_digest e) oid.

(** After the gates of a merge: the integration is recorded. *)
Definition journal_integration (f : option string) (o : io) (progress : option journal_record) (head : string) :
    option string * result recovery (option journal_record) :=
  match progress with
  | Some e =>
      if bool_decide (j_stage e = Prepared) && is_some (j_branch_head e) then
        let e' := with_stage e Integrated (Some head) in
        let '(f', w) := journal_append f o e' in
        (f', match w with Ok _ => Ok (Some e') | Err _ => Err JournalFault end)
      else (f, Ok progress)
  | None => (f, Ok None)
  end.

(** At the end of the transaction. *)
Definition journal_outcome (f : option string) (o : io) (progress : option journal_record) :
    option string * result recovery unit :=
  match progress with
  | Some e =>
      if decide (j_stage e ≠ Finalized) then
        if bool_decide (j_stage e = Prepared) && is_some (j_branch_head e) then (f, Err MissingOid)
        else
          let '(f', w) := journal_append f o (with_stage e Finalized (j_merge_oid e)) in
          (f', match w with Ok _ => Ok tt | Err _ => Err JournalFault end)
      else (f, Ok tt)
  | None => (f, Ok tt)
  end.
End Locked.

(** ** Harvests on one base *)

(** The two ledgers, the head of the base with the heads it had before, and the
    permits whose merge landed. *)
Record harvest_state := HarvestState {
  hs_consumed : option string;
  hs_journal : option string;
  hs_head : string;
  hs_past : list string;
  hs_landed : list string;
}.

Section Landing.
Context `{GrantText} {V : Type} `{HarvestSealVerifier V} `{LineCodec consumption_record, LineCodec journal_record}.

(** One [cs done] under the trunk lock, up to the point where it stops: a
    refusal, a conflict, a merge that is rolled back by a gate and a kill leave
    the base as it was; a merge that lands gives the base a commit that was
    never its head; a branch that the base already contains is journaled as
    integrated at the head that is there. *)
Inductive harvest_run (q : harvest_request) (c : locked_reads) : harvest_state → harvest_state → Prop :=
| run_stops s f j out o :
    (authorize_candidates q (hs_consumed s)).1 = f →
    locked_section c (hs_journal s) o (authorize_candidates q (hs_consumed s)).2 = (j, out) →
    lr_pre_merge_base c = hs_head s →
    harvest_run q c s (HarvestState f j (hs_head s) (hs_past s) (hs_landed s))
| run_ends s f j j' progress resuming o o' :
    (authorize_candidates q (hs_consumed s)).1 = f →
    locked_section c (hs_journal s) o (authorize_candidates q (hs_consumed s)).2 = (j, Proceed progress resuming) →
    lr_pre_merge_base c = hs_head s →
    (journal_outcome j o' progress).1 = j' →
    harvest_run q c s (HarvestState f j' (hs_head s) (hs_past s) (hs_landed s))
| run_lands s f j j' e head o o' (finish : bool) o'' :
    (authorize_candidates q (hs_consumed s)).1 = f →
    locked_section c (hs_journal s) o (authorize_candidates q (hs_consumed s)).2 = (j, Proceed (Some e) false) →
    lr_pre_merge_base c = hs_head s →
    head ∉ hs_head s :: hs_past s →
    j' = j ∨
    (let '(j1, r) := journal_integration j o' (Some e) head in
     j' = match r with Ok p => if finish then (journal_outcome j1 o'' p).1 else j1 | Err _ => j1 end) →
    harvest_run q c s (HarvestState f j' head (hs_head s :: hs_past s) (j_permit e :: hs_landed s))
| run_already_merged s f j j' e o o' (finish : bool) o'' :
    (authorize_candidates q (hs_consumed s)).1 = f →
    locked_section c (hs_journal s) o (authorize_candidates q (hs_consumed s)).2 = (j, Proceed (Some e) false) →
    lr_pre_merge_base c = hs_head s →
    (let '(j1, r) := journal_integration j o' (Some e) (hs_head s) in
     j' = match r with Ok p => if finish then (journal_outcome j1 o'' p).1 else j1 | Err _ => j1 end) →
    harvest_run q c s (HarvestState f j' (hs_head s) (hs_past s) (hs_landed s)).

(** Other work moves the base. *)
Inductive harvest_system : harvest_state → harvest_state → Prop :=
| sys_run q c s s' : harvest_run q c s s' → harvest_system s s'
| sys_base s head :
    head ∉ hs_head s :: hs_past s →
    harvest_system s (HarvestState (hs_consumed s) (hs_journal s) head (hs_head s :: hs_past s) (hs_landed s)).

Definition harvest_start (head : string) : harvest_state := HarvestState None None head [] [].
End Landing.

(** ** A merge lands once *)

Section LandsOnce.
Context `{GrantText} {V : Type} `{HarvestSealVerifier V} `{LineCodec consumption_record}.
Context `{LineLaws journal_record}.

(** A landed permit is past its preparation, or was prepared on an earlier
    head. *)
Definition landed_ok (past landed : list string) (es : list journal_record) : Prop :=
  ∀ p, p ∈ landed → ∃ e, last (path_of p es) = Some e ∧ (j_stage e = Prepared → j_pre_merge_base e ∈ past).

Definition journal_good (past landed : list string) (f : option string) : Prop :=
  poisoned (A := journal_record) (text_of f) ∨
  ∃ es, holds es (text_of f) ∧ landed_ok past landed es.

Lemma last_path_permit p es e : last (path_of p es) = Some e → j_permit e = p.
Proof.
  intros He. apply last_Some_elem_of in He. by apply list_elem_of_filter in He as [? _].
Qed.

Lemma latest_good past landed f o permit prior :
  journal_good past landed f → latest f o permit = Ok prior →
  ∃ es, holds es (text_of f) ∧ landed_ok past landed es ∧ prior = last (path_of permit es).
Proof.
  intros Hg. unfold latest, read_progress. destruct (io_read_fails o); [done|].
  destruct Hg as [(l & Hl & Hb & Hd)|(es & Hes & Hok)].
  { destruct (read_lines_poisoned 1 (Progress ∅ ∅) _ l Hl Hb Hd) as [err Herr]. by rewrite Herr. }
  rewrite (holds_lines _ _ Hes). destruct (read_lines_from _ _ _) as [p'|err] eqn:Hr; [|done]. cbn.
  intros [= <-]. exists es. split_and!; [done|done|].
  rewrite (read_lines_last _ _ _ _ permit Hr). cbn. rewrite lookup_empty. by destruct (last _).
Qed.

Lemma landed_ok_snoc past landed es x :
  landed_ok past landed es → validate_transition (last (path_of (j_permit x) es)) x = Ok tt →
  landed_ok past landed (es ++ [x]).
Proof.
  intros Hok Hv p Hp. destruct (Hok p Hp) as (e & He & Hpre). rewrite path_of_snoc.
  case_decide as Hx; [|rewrite app_nil_r; by exists e]. subst p. rewrite last_snoc. exists x. split; [done|].
  rewrite He in Hv. apply transition_ok in Hv as (_ & Hf & _). unfold stage_follows in Hf.
  intros Hs. rewrite Hs in Hf. by destruct (j_stage e).
Qed.

(** What an append leaves. *)
Lemma append_good past landed f o x f' r :
  journal_good past landed f → journal_append f o x = (f', r) →
  journal_good past landed f' ∧
  (r = Ok tt → ∃ es, holds es (text_of f) ∧ landed_ok past landed es ∧
     validate_transition (last (path_of (j_permit x) es)) x = Ok tt ∧
     (poisoned (A := journal_record) (text_of f') ∨ holds (es ++ [x]) (text_of f'))).
Proof.
  intros Hg. unfold journal_append. destruct (latest f o (j_permit x)) as [prior|err] eqn:Hlat;
    [|intros [= <- <-]; by split].
  destruct (validate_transition prior x) as [[]|err] eqn:Hv; [|intros [= <- <-]; by split].
  destruct (latest_good _ _ _ _ _ _ Hg Hlat) as (es & Hes & Hok & ->).
  intros [= <- <-]. pose proof (landed_ok_snoc _ _ _ _ Hok Hv) as Hok'.
  destruct (append_line_holds _ _ x (io_write o) Hes) as [Ha|[[Hw Ha]|Ha]].
  - split; [right; by exists (es ++ [x])|]. intros _. exists es. by split_and!; [| | |right].
  - split; [right; by exists es|]. by destruct (io_write o).
  - split; [by left|]. intros _. exists es. by split_and!; [| | |left].
Qed.

(** A merge is only tried for a permit that did not land, under an entry that
    is prepared on the head of the base. *)
Lemma locked_section_good past landed head c f o d f' out :
  journal_good past landed f → head ∉ past → lr_pre_merge_base c = head →
  locked_section c f o d = (f', out) →
  journal_good past landed f' ∧
  ∀ e, out = Proceed (Some e) false →
    (j_permit e ∉ landed) ∧ j_pre_merge_base e = head ∧
    (poisoned (A := journal_record) (text_of f') ∨
     ∃ es, holds es (text_of f') ∧ last (path_of (j_permit e) es) = Some e ∧ landed_ok past landed es).
Proof.
  intros Hg Hhead Hc. unfold locked_section. case_decide; [by intros [= <- <-]|].
  unfold after_decision. destruct d as [[|r|r|lines cause]|e]; [by intros [= <- <-]| | |by intros [= <- <-]..].
  - destruct (journal_append f o (prepared_entry c r)) as [f1 w] eqn:Ha. intros [= <- <-].
    destruct (append_good _ _ _ _ _ _ _ Hg Ha) as [Hg' Hw]. split; [done|].
    intros e. destruct w as [[]|err]; [|done]. intros [= <-].
    destruct (Hw eq_refl) as (es & Hes & Hok & Hv & Hf). split_and!; [|done|].
    + intros Hin. destruct (Hok _ Hin) as (e & He & _). rewrite He in Hv.
      apply transition_ok in Hv as (_ & Hs & _). unfold stage_follows in Hs. by destruct (j_stage e).
    + destruct Hf as [Hf|Hf]; [by left|right]. exists (es ++ [prepared_entry c r]). split_and!; [done| |].
      * rewrite path_of_snoc, decide_True by done. apply last_snoc.
      * by apply landed_ok_snoc.
  - destruct (latest f o (cr_permit r)) as [[x|]|err] eqn:Hlat; [|by case_match; intros [= <- <-]|by intros [= <- <-]].
    destruct (latest_good _ _ _ _ _ _ Hg Hlat) as (es & Hes & Hok & Hx). symmetry in Hx.
    case_decide; [by intros [= <- <-]|]. intros [= <- <-]. split; [done|]. intros e Hr.
    unfold resume in Hr. pose proof (last_path_permit _ _ _ Hx) as Hp.
    assert (e = x ∧ j_stage x = Prepared ∧ lr_pre_merge_base c = j_pre_merge_base x) as (-> & Hs & Hb).
    { destruct (j_stage x); repeat (case_decide; try done); try (by repeat case_match).
      injection Hr as <-. split_and!; [done|done|]. apply dec_stable. tauto. }
    split_and!; [|congruence|right; exists es; by rewrite Hp].
    intros Hin. destruct (Hok _ Hin) as (y & Hy & Hpre). rewrite Hp in Hy. simplify_eq.
    apply Hhead. rewrite Hb. by apply Hpre.
Qed.

Lemma journal_outcome_good past landed f o p :
  journal_good past landed f → journal_good past landed (journal_outcome f o p).1.
Proof.
  intros Hg. unfold journal_outcome. destruct p as [e|]; [|done]. case_decide; [|done].
  destruct (_ && _); [done|]. destruct (journal_append _ _ _) as [f' w] eqn:Ha.
  by apply (append_good past landed) in Ha as [? _].
Qed.

Lemma journal_integration_good past landed f o p head :
  journal_good past landed f → journal_good past landed (journal_integration f o p head).1.
Proof.
  intros Hg. unfold journal_integration. destruct p as [e|]; [|done]. destruct (_ && _); [|done].
  destruct (journal_append _ _ _) as [f' w] eqn:Ha. by apply (append_good past landed) in Ha as [? _].
Qed.

Lemma journal_good_past past past' landed f :
  past ⊆ past' → journal_good past landed f → journal_good past' landed f.
Proof.
  intros Hp [?|(es & Hes & Hok)]; [by left|right]. exists es. split; [done|]. intros p Hin.
  destruct (Hok p Hin) as (e & He & Hpre). exists e. split; [done|]. intros Hs. by apply Hp, Hpre.
Qed.

Definition harvest_inv (s : harvest_state) : Prop :=
  (hs_head s ∉ hs_past s) ∧ NoDup (hs_landed s) ∧ journal_good (hs_past s) (hs_landed s) (hs_journal s).

Lemma harvest_run_inv (q : harvest_request) c s s' : harvest_inv s → harvest_run q c s s' → harvest_inv s'.
Proof.
  intros (Hhead & Hnd & Hg) Hrun.
  destruct Hrun as [s f j out o _ Hl Hc|s f j j' p resuming o o' _ Hl Hc <-|s f j j' e head o o' finish o'' _ Hl Hc Hfresh Hj'
    |s f j j' e o o' finish o'' _ Hl Hc Hj'].
  - destruct (locked_section_good _ _ _ _ _ _ _ _ _ Hg Hhead Hc Hl) as [Hg' _]. by split_and!.
  - destruct (locked_section_good _ _ _ _ _ _ _ _ _ Hg Hhead Hc Hl) as [Hg' _].
    split_and!; [done|done|]. by apply journal_outcome_good.
  - destruct (locked_section_good _ _ _ _ _ _ _ _ _ Hg Hhead Hc Hl) as [Hg' He].
    destruct (He e eq_refl) as (Hnew & Hpre & Hlast).
    assert (journal_good (hs_head s :: hs_past s) (j_permit e :: hs_landed s) j) as Hj.
    { destruct Hlast as [?|(es & Hes & Hle & Hok)]; [by left|right]. exists es. split; [done|].
      intros p [->|Hp]%elem_of_cons.
      - exists e. split; [done|]. intros _. rewrite Hpre. by left.
      - destruct (Hok p Hp) as (y & Hy & Hs). exists y. split; [done|]. intros ?. right. by apply Hs. }
    split_and!; cbn; [done|by constructor|]. destruct Hj' as [->|Hj']; [done|].
    pose proof (journal_integration_good _ _ _ o' (Some e) head Hj) as Hi.
    destruct (journal_integration j o' (Some e) head) as [j1 [p|err]]; cbn in Hi; subst j'; [|done].
    destruct finish; [by apply journal_outcome_good|done].
  - destruct (locked_section_good _ _ _ _ _ _ _ _ _ Hg Hhead Hc Hl) as [Hg' _]. split_and!; [done|done|].
    pose proof (journal_integration_good _ _ _ o' (Some e) (hs_head s) Hg') as Hi.
    destruct (journal_integration j o' (Some e) (hs_head s)) as [j1 [p|err]]; cbn in Hi; subst j'; [|done].
    destruct finish; [by apply journal_outcome_good|done].
Qed.

(** C6. Whatever harvests run on a base, stop, are killed or fail to write, in
    whatever order, the merge of a permit lands at most once. *)
Theorem merge_lands_once head s :
  rtc harvest_system (harvest_start head) s → NoDup (hs_landed s).
Proof.
  intros Hr. assert (harvest_inv s) as (_ & ? & _); [|done].
  assert (harvest_inv (harvest_start head)) as Hinit.
  { split_and!; cbn; [set_solver|constructor|]. right. exists []. split; [apply holds_empty|].
    by intros p ?%elem_of_nil. }
  revert Hinit. induction Hr as [s|s1 s2 s3 Hstep _ IH]; [done|]. intros Hinit. apply IH.
  destruct Hstep as [q c s s' Hrun|s head' Hfresh]; [by eapply harvest_run_inv|].
  destruct Hinit as (Hhead & Hnd & Hg). split_and!; [done|done|].
  eapply journal_good_past; [|exact Hg]. cbn. set_solver.
Qed.
End LandsOnce.

(** ** Examples *)

Module LedgerSamples.
Import GrantSamples.

#[export] Instance effect_countable : Countable harvest_effect.
Proof.
  refine (inj_countable' (λ e, (he_galaxy e, he_molecule e, he_base e))
            (λ '(a, b, c), HarvestEffect a b c) _). by intros [].
Defined.

#[export] Instance key_countable : Countable operator_key_id.
Proof. refine (inj_countable' key_bytes OperatorKeyId _). by intros []. Defined.

#[export] Instance receipt_countable : Countable consumption_record.
Proof.
  refine (inj_countable' (λ r, (cr_permit r, cr_grant r, cr_effect r, cr_key_id r, cr_invocation_id r))
            (λ '(a, b, c, d, e), ConsumptionRecord a b c d e) _). by intros [].
Defined.

#[export] Instance stage_countable : Countable journal_stage.
Proof.
  refine (inj_countable' (λ s, match s with Prepared => 0 | Integrated => 1 | Finalized => 2 end)
            (λ n, match n with 0 => Prepared | 1 => Integrated | _ => Finalized end) _). by intros [].
Defined.

#[export] Instance journal_countable : Countable journal_record.
Proof.
  refine (inj_countable' (λ e, (j_version e, j_stage e, j_receipt e, j_branch_head e, j_pre_merge_base e,
                                j_options_digest e, j_hook_digest e, j_merge_oid e))
            (λ '(a, b, c, d, e, f, g, h), JournalRecord a b c d e f g h) _). by intros [].
Defined.

#[export] Instance receipt_codec : LineCodec consumption_record := PackedLines.packed_codec.
#[export] Instance receipt_laws : LineLaws consumption_record := PackedLines.packed_laws.
#[export] Instance journal_codec : LineCodec journal_record := PackedLines.packed_codec.
#[export] Instance journal_laws : LineLaws journal_record := PackedLines.packed_laws.

Definition sample_auth : done_authorization :=
  Ratified (sample_grant ["security"] None) (sample_seal (sample_grant ["security"] None)).

Definition sample_io : io := Io false Written.

Definition sample_request : harvest_request (V := unit) :=
  HarvestRequest tt true false [sample_auth] (λ _, Ok (sample_facts ["security"] 5)) "cs-done:1" sample_io.

Definition sample_reads (base : string) (head : option string) : locked_reads :=
  LockedReads "main" base head (Some (base, head)) "options" "hooks" false (λ _, true) false.

Definition sample_receipt : consumption_record :=
  ConsumptionRecord (permit_id sample_auth sample_mission) (fingerprint (auth_grant sample_auth))
    (effect_of (sample_facts ["security"] 5)) (seal_key_id tt) "cs-done:1".

Definition sample_entry : journal_record := prepared_entry (sample_reads "c0" (Some "b0")) sample_receipt.
End LedgerSamples.
Import GrantSamples LedgerSamples.

(** After a merge conflict the branch is rebased: the retry finds its own
    preparation and is refused, for every new head of the branch. *)
Theorem rebased_retry_refused `{LineCodec journal_record} c e :
  j_stage e = Prepared → j_hook_digest e = lr_hook_digest c → lr_branch_head c ≠ j_branch_head e →
  resume c e = RecoveryFault PreparedHeadChanged.
Proof. intros Hs Hh Hb. unfold resume. rewrite Hs, decide_False by (intros Hn; by apply Hn). by rewrite decide_True by (by right). Qed.

Lemma permit_spent_once_witness :
  NoDup (cr_permit <$> omap authorized_receipt (run_requests [sample_request; sample_request] None).2).
Proof. apply (permit_spent_once [sample_request; sample_request]). Defined.

Lemma journal_one_operation_witness :
  match read_progress (appends [(sample_entry, sample_io); (sample_entry, sample_io)] None).1 sample_io with
  | Ok p => ∀ permit, ∃ es, one_operation (path_of permit es) ∧ pr_entries p !! permit = last (path_of permit es)
  | Err _ => True
  end.
Proof.
  pose proof (journal_one_operation [(sample_entry, sample_io); (sample_entry, sample_io)] sample_io) as Hj.
  destruct (appends _ None) as [f acked]. cbn [fst]. destruct (read_progress f sample_io) as [p|]; [|done].
  destruct Hj as (es & _ & _ & Hes). intros permit. exists es. apply Hes.
Defined.

Lemma sample_landing :
  ∃ s, harvest_system (V := unit) (harvest_start "c0") s ∧ hs_landed s = [j_permit sample_entry].
Proof.
  eexists. split; [|shelve].
  apply (sys_run sample_request (sample_reads "c0" (Some "b0"))).
  eapply (run_lands _ _ _ _ _ _ sample_entry "c1" sample_io sample_io false sample_io); [done| |done| |by left].
  - reflexivity.
  - apply (bool_decide_unpack _). by vm_compute.
  Unshelve. done.
Qed.

Lemma merge_lands_once_witness : NoDup [j_permit sample_entry].
Proof.
  destruct sample_landing as (s & Hs & <-). apply (merge_lands_once "c0" s). by apply rtc_once.
Defined.
