(* ===== verification/HarvestDoor.v ===== *)
(** The harvest door ([crates/cosmon-filestore/src/harvest_door.rs]): the checks
    before the effect, the effect, and what the record of the molecule says
    afterwards. With it the places that write that record: in a harvest
    ([crates/cosmon-harvest/src/transaction.rs]) the stamp of a landed merge and
    the reason of a missing one, and the stamp of the resident loop
    ([crates/cosmon-runtime/src/lib.rs]). The store is the port [StateStore]; the
    effect is a function of the deployment. *)
From stdpp Require Import prelude gmap strings pretty list.
From S2P Require Import Prelude Text Ids Molecule Links State Store Grant JsonLines HarvestPolicy HarvestLedger.

(** ** The record of a molecule *)

Inductive non_integration_reason : Set := Conflict | MergeFailed | PreDoneRefusal | NoBranch | MergeSkipped.

#[export] Instance non_integration_reason_eq_dec : EqDecision non_integration_reason.
Proof. solve_decision. Defined.

Definition non_integration_as_str (r : non_integration_reason) : string :=
  match r with
  | Conflict => "conflict"
  | MergeFailed => "merge-failed"
  | PreDoneRefusal => "pre-done-refused"
  | NoBranch => "no-branch"
  | MergeSkipped => "merge-skipped"
  end.

Definition is_retryable (r : non_integration_reason) : bool :=
  match r with Conflict | MergeFailed => true | _ => false end.

Record non_integration := NonIntegration {
  ni_reason : non_integration_reason;
  ni_at : Z;
  ni_base_branch : option string;
  ni_detail : option string;
}.

(** The fields of [MoleculeData] that a harvest reads and writes. *)
Record door_molecule := DoorMolecule {
  dm_status : molecule_status;
  dm_collapse_cause : option collapse_cause;
  dm_collapse_reason : option string;
  dm_tags : list string;
  dm_merged_at : option Z;
  dm_non_integration : option non_integration;
  dm_archived : bool;
}.

(** [terminalize_for_forced_teardown] *)
Definition terminalize (m : door_molecule) : door_molecule :=
  if is_terminal (dm_status m) then m
  else DoorMolecule MoleculeStatus.Collapsed
         (Some (default Manual (dm_collapse_cause m)))
         (Some (default "forced-teardown" (dm_collapse_reason m)))
         (dm_tags m) (dm_merged_at m) (dm_non_integration m) (dm_archived m).

Definition with_stamp (merged_at : option Z) (n : option non_integration) (m : door_molecule) : door_molecule :=
  DoorMolecule (dm_status m) (dm_collapse_cause m) (dm_collapse_reason m) (dm_tags m) merged_at n (dm_archived m).

Inductive contradicts_stamp : Set := StampWins | TopologyWins.

(** ** The door *)

Record door_refused := DoorRefused {
  dr_refusal : door_refusal;
  dr_detail : option string;
  dr_cause : option authorization_cause;
}.

Definition refused_with (r : door_refusal) (detail : string) : door_refused := DoorRefused r (Some detail) None.

Inductive land_error : Type :=
| LandRefused (r : door_refused)
| LandAuthorizationRefused (cause : authorization_cause)
| LandFault (e : cosmon_error)
| LandEffectFailed (message : string)
| LandEffectUnavailable.

Inductive door_decision : Set :=
| DecideAlreadyLanded (merged : bool)
| DecideNoOp
| DecideProceed.

(** [required], [remote] and [max_unintegrated] of the configuration. *)
Record authority_config := AuthorityConfig {
  ac_required : bool;
  ac_remote : option remote_harvest_policy;
  ac_max_unintegrated : option N;
}.

Definition default_backlog_ceiling : N := 8.

Definition backlog_ceiling (cfg : authority_config) : N := default default_backlog_ceiling (ac_max_unintegrated cfg).

Definition fault {A} (r : result cosmon_error A) : result land_error A :=
  match r with Ok a => Ok a | Err e => Err (LandFault e) end.

Definition refusal_from_record (n : non_integration) : door_refused :=
  let refusal := match ni_reason n with
                 | Conflict => MergeConflict
                 | MergeFailed => BaseNotFastForward
                 | PreDoneRefusal | NoBranch | MergeSkipped => PreDoneRefused
                 end in
  let base := match ni_base_branch n with Some b => " against " +:+ b | None => "" end in
  let extra := match ni_detail n with Some d => ": " +:+ d | None => "" end in
  refused_with refusal (non_integration_as_str (ni_reason n) +:+ base +:+ extra).

Definition closure_without_merge (o : harvest_options) (after : door_molecule) (n : non_integration) :
    option door_outcome :=
  if negb (dm_archived after) || is_some (dm_merged_at after) then None
  else match ni_reason n with
       | MergeSkipped => if ho_no_merge o then Some ClosedWithoutMerge else None
       | NoBranch => Some ClosedWithoutMerge
       | _ => None
       end.

(** [StateStore], as far as the door calls it; [list_molecules] filters by
    status. *)
Class DoorStore (S : Type) := {
  load_molecule : mid → S → result cosmon_error door_molecule;
  save_molecule : mid → door_molecule → S → result cosmon_error S;
  list_molecules : molecule_status → S → result cosmon_error (list door_molecule);
  lock_trunk : S → result cosmon_error unit;
  lock_fleet : S → result cosmon_error unit;
}.

(** [SealedHarvestEffect] *)
Record sealed_effect (S : Type) := SealedEffect {
  binds_trunk_lock : bool;
  harvest : mid → harvest_options → S → S * result effect_failure unit;
}.
Arguments SealedEffect {S}.
Arguments binds_trunk_lock {S}.
Arguments harvest {S}.

Section Door.
Context {S : Type} `{DoorStore S} `{LineCodec journal_record}.
Implicit Types (s : S) (m : mid) (o : harvest_options).

Definition unintegrated_census s : result cosmon_error nat :=
  (λ l, length (filter (λ d, dm_merged_at d = None ∧ is_Some (dm_non_integration d)) l))
    <$> list_molecules MoleculeStatus.Completed s.

(** Checks 4 and 5 of the decision. *)
Definition reservation_and_backlog (cfg : authority_config) (mol : door_molecule) s :
    result land_error door_decision :=
  match reservation_requiring_seal (dm_tags mol) with
  | Some tag =>
      Err (LandRefused (refused_with ReservationRequiresSeal ("reserved by `" +:+ tag +:+ "`")))
  | None =>
      backlog ← fault (unintegrated_census s);
      if decide (N.to_nat (backlog_ceiling cfg) ≤ backlog)%nat then
        Err (LandRefused (refused_with BacklogFull
          (pretty backlog +:+ " closed-but-unintegrated molecules, ceiling " +:+ pretty (backlog_ceiling cfg))))
      else Ok DecideProceed
  end.

Definition decide_with_authority (cfg : authority_config) m o (armed : bool)
    (journal : option (option string * io)) s : result land_error door_decision :=
  if negb armed then
    Err (LandRefused (refused_with NotAuthorized "this galaxy has not armed `[harvest_authority] required`"))
  else
    mol ← fault (load_molecule m s);
    _ ← match journal with
        | Some (f, r) =>
            match has_attempt_for f r m with
            | Ok _ => Ok tt
            | Err _ => Err (LandAuthorizationRefused RecoveryRequired)
            end
        | None => Ok tt
        end;
    if is_some (dm_merged_at mol) || dm_archived mol then
      Ok (DecideAlreadyLanded (is_some (dm_merged_at mol)))
    else if ho_if_completed o && bool_decide (dm_status mol ≠ MoleculeStatus.Completed) then Ok DecideNoOp
    else if negb (ho_force o) && bool_decide (dm_status mol ≠ MoleculeStatus.Completed) then
      Err (LandRefused (refused_with NotCompleted ("status is " +:+ status_as_str (dm_status mol))))
    else
      reservation_and_backlog cfg mol s.

(** [decide] *)
Definition decide_local (cfg : authority_config) m o s : result land_error door_decision :=
  decide_with_authority cfg m o (ac_required cfg) None s.

Definition decide_remote (cfg : authority_config) m o (policy : resolved_remote_policy)
    (journal : option string * io) s : result land_error door_decision :=
  decide_with_authority cfg m o (bool_decide (rp_policy policy ≠ RemoteDisabled)) (Some journal) s.

Definition recorded_non_integration m s : option non_integration :=
  match load_molecule m s with Ok mol => dm_non_integration mol | Err _ => None end.

Definition refused_effect m (r : door_refusal) (cause : option authorization_cause) s : land_error :=
  let detail :=
    match refusal_from_record <$> recorded_non_integration m s with
    | Some from_record => if decide (dr_refusal from_record = r) then dr_detail from_record else None
    | None => None
    end in
  LandRefused (DoorRefused r detail cause).

Definition interpret_effect m o (r : result effect_failure unit) s : result land_error door_outcome :=
  match r with
  | Ok _ =>
      after ← fault (load_molecule m s);
      match dm_non_integration after with
      | None =>
          if is_some (dm_merged_at after) then Ok Landed
          else if dm_archived after then Ok ClosedWithoutMerge
          else if ho_if_completed o then Ok NoOp
          else Err (LandRefused (refused_with NotCompleted "the harvest was a no-op and nothing was recorded"))
      | Some n =>
          match closure_without_merge o after n with
          | Some out => Ok out
          | None => Err (LandRefused (refusal_from_record n))
          end
      end
  | Err (EffectRefused r) => Err (refused_effect m r None s)
  | Err (EffectAuthorizationRefused r cause) => Err (refused_effect m r (Some cause) s)
  | Err EffectUnavailable => Err LandEffectUnavailable
  | Err (EffectAuthorizationFault cause) => Err (LandAuthorizationRefused cause)
  | Err (EffectFailed message) =>
      match recorded_non_integration m s with
      | Some n => Err (LandRefused (refusal_from_record n))
      | None => Err (LandEffectFailed message)
      end
  end.

(** What [land] and [land_remote] share: the decision, then the effect under
    the lock of whoever binds it, then its interpretation. *)
Definition through_door m o (decision : result land_error door_decision) (effect : sealed_effect S) s :
    S * result land_error door_outcome :=
  match decision with
  | Err e => (s, Err e)
  | Ok (DecideAlreadyLanded merged) => (s, Ok (AlreadyLanded merged))
  | Ok DecideNoOp => (s, Ok NoOp)
  | Ok DecideProceed =>
      if binds_trunk_lock effect then
        let '(s', r) := harvest effect m o s in (s', interpret_effect m o r s')
      else
        match lock_trunk s with
        | Err e => (s, Err (LandFault e))
        | Ok _ => let '(s', r) := harvest effect m o s in (s', interpret_effect m o r s')
        end
  end.

Definition land (cfg : authority_config) m o (effect : sealed_effect S) s : S * result land_error door_outcome :=
  match options_validate o with
  | Err r => (s, Err (LandRefused (refused_with r "the request named no reason for closing this molecule")))
  | Ok _ => through_door m o (decide_local cfg m o s) effect s
  end.

Definition land_remote (cfg : authority_config) m o (policy : resolved_remote_policy)
    (journal : option string * io) (effect : sealed_effect S) s : S * result land_error door_outcome :=
  match options_validate o with
  | Err r => (s, Err (LandRefused (DoorRefused r None None)))
  | Ok _ => through_door m o (decide_remote cfg m o policy journal s) effect s
  end.

(** ** The record of a harvest *)

(** Step 2a' of [cs done], once the merge landed at [now]. *)
Definition stamp_merged m (now : Z) s : S :=
  match load_molecule m s with
  | Err _ => s
  | Ok latest =>
      if is_some (dm_merged_at latest) then s
      else match save_molecule m (terminalize (with_stamp (Some now) None latest)) s with
           | Ok s' => s'
           | Err _ => s
           end
  end.

(** The stamp of the resident loop ([crates/cosmon-runtime/src/lib.rs], in
    [run]) once [on_complete] has answered [Ok] for a completed molecule: it
    keeps the reason that the record carries. *)
Definition stamp_on_complete m (now : Z) s : S :=
  match load_molecule m s with
  | Err _ => s
  | Ok latest =>
      if is_some (dm_merged_at latest) then s
      else match save_molecule m (with_stamp (Some now) (dm_non_integration latest) latest) s with
           | Ok s' => s'
           | Err _ => s
           end
  end.

Definition record_non_integration m (reason : non_integration_reason) (base detail : option string)
    (c : contradicts_stamp) (now : Z) s : S :=
  match lock_fleet s with
  | Err _ => s
  | Ok _ =>
      match load_molecule m s with
      | Err _ => s
      | Ok mol =>
          let write stamp :=
            match save_molecule m (with_stamp stamp (Some (NonIntegration reason now base detail)) mol) s with
            | Ok s' => s'
            | Err _ => s
            end in
          match c with
          | StampWins => if is_some (dm_merged_at mol) then s else write (dm_merged_at mol)
          | TopologyWins => write None
          end
      end
  end.
End Door.

(** What the code relies on: a saved molecule reads back, and the others read
    as before. *)
Class DoorStoreLaws (S : Type) `{DoorStore S} := {
  load_saved m d (s s' : S) : save_molecule m d s = Ok s' → load_molecule m s' = Ok d;
  load_others m m' d (s s' : S) : save_molecule m d s = Ok s' → m ≠ m' → load_molecule m' s' = load_molecule m' s;
}.

(** ** What passes the door *)

Section Passing.
Context {S : Type} `{DoorStore S} `{LineCodec journal_record}.
Implicit Types (s : S) (m : mid) (o : harvest_options).

Definition open_molecule (mol : door_molecule) : Prop := dm_merged_at mol = None ∧ dm_archived mol = false.

(** The reservations that the door knows; [needs-review-cross-provider], which
    the authority reserves too, is none of them. *)
Definition door_reserved (tag : string) : Prop :=
  tag ∈ ["hold:human"; "needs-review"; "security"; "no-auto-harvest"] ∨
  starts_with "security:" tag = true ∨ starts_with "harvest_to:" tag = true.

Lemma door_reserved_seal tag : requires_seal tag = false ↔ ¬ door_reserved tag.
Proof.
  unfold requires_seal, door_reserved, reservation_tags, reservation_tag_prefixes. cbn [existsb].
  rewrite orb_false_r, !orb_false_iff, bool_decide_eq_false.
  destruct (starts_with "security:" tag), (starts_with "harvest_to:" tag); naive_solver.
Qed.

Record passes_checks (cfg : authority_config) o (mol : door_molecule) s : Prop := {
  adm_open : open_molecule mol;
  adm_status : dm_status mol = MoleculeStatus.Completed ∨ ho_force o = true ∧ ho_if_completed o = false;
  adm_unreserved tag : tag ∈ dm_tags mol → ¬ door_reserved tag;
  adm_backlog : ∃ n, unintegrated_census s = Ok n ∧ (n < N.to_nat (backlog_ceiling cfg))%nat;
}.

Definition effect_runs (effect : sealed_effect S) m o s s' (r : result effect_failure unit) : Prop :=
  (binds_trunk_lock effect = true ∨ lock_trunk s = Ok tt) ∧ harvest effect m o s = (s', r).

Definition readable m (journal : option (option string * io)) : Prop :=
  match journal with Some (f, r) => ∃ b, has_attempt_for f r m = Ok b | None => True end.

(** What the record says after an effect that succeeded. *)
Definition record_says o (after : door_molecule) (out : door_outcome) : Prop :=
  match out with
  | Landed => dm_non_integration after = None ∧ dm_merged_at after ≠ None
  | ClosedWithoutMerge =>
      dm_merged_at after = None ∧ dm_archived after = true ∧
      match dm_non_integration after with
      | None => True
      | Some n => ni_reason n = NoBranch ∨ ni_reason n = MergeSkipped ∧ ho_no_merge o = true
      end
  | NoOp => open_molecule after ∧ dm_non_integration after = None ∧ ho_if_completed o = true
  | AlreadyLanded _ => False
  end.

Definition says (cfg : authority_config) m o (armed : bool) (journal : option (option string * io))
    (effect : sealed_effect S) s s' (out : door_outcome) : Prop :=
  (armed = true ∧ readable m journal ∧
   ∃ mol, load_molecule m s = Ok mol ∧
   match out with
   | AlreadyLanded b => s' = s ∧ ¬ open_molecule mol ∧ b = is_some (dm_merged_at mol)
   | NoOp => s' = s ∧ open_molecule mol ∧ ho_if_completed o = true ∧ dm_status mol ≠ MoleculeStatus.Completed
   | _ => False
   end) ∨
  armed = true ∧ readable m journal ∧
  ∃ mol after, load_molecule m s = Ok mol ∧ passes_checks cfg o mol s ∧
    effect_runs effect m o s s' (Ok tt) ∧ load_molecule m s' = Ok after ∧ record_says o after out.

Lemma fault_ok {A} (r : result cosmon_error A) a : fault r = Ok a ↔ r = Ok a.
Proof. destruct r; naive_solver. Qed.

Lemma open_dec mol : is_some (dm_merged_at mol) || dm_archived mol = false ↔ open_molecule mol.
Proof. unfold open_molecule. destruct (dm_merged_at mol), (dm_archived mol); naive_solver. Qed.

Lemma reservation_none tags :
  reservation_requiring_seal tags = None ↔ ∀ tag, tag ∈ tags → ¬ door_reserved tag.
Proof.
  setoid_rewrite <- door_reserved_seal. unfold reservation_requiring_seal. rewrite fmap_None, list_find_None, Forall_forall.
  split; intros Hf tag Hin; specialize (Hf tag Hin); destruct (requires_seal tag); naive_solver.
Qed.

Lemma decide_reads cfg m o armed journal s d :
  decide_with_authority cfg m o armed journal s = Ok d →
  armed = true ∧ readable m journal ∧ ∃ mol, load_molecule m s = Ok mol.
Proof.
  unfold decide_with_authority, readable. destruct armed; [|done]. cbn [negb].
  destruct (load_molecule m s) as [mol|]; [|done]. cbn.
  destruct journal as [[f r]|]; [destruct (has_attempt_for f r m); [|done]|]; eauto.
Qed.

Lemma decide_rest cfg m o journal s mol :
  readable m journal → load_molecule m s = Ok mol →
  decide_with_authority cfg m o true journal s = decide_with_authority cfg m o true None s.
Proof.
  unfold decide_with_authority, readable. intros Hr ->. cbn.
  destruct journal as [[f r]|]; [|done]. by destruct Hr as [b ->].
Qed.

Lemma reservation_and_backlog_spec cfg o mol s d :
  open_molecule mol →
  dm_status mol = MoleculeStatus.Completed ∨ ho_force o = true ∧ ho_if_completed o = false →
  reservation_and_backlog cfg mol s = Ok d ↔ d = DecideProceed ∧ passes_checks cfg o mol s.
Proof.
  intros Ho Hs. unfold reservation_and_backlog.
  destruct (reservation_requiring_seal _) as [tag|] eqn:Hr.
  { split; [done|]. intros [_ [_ _ Hu _]]. apply reservation_none in Hu. congruence. }
  rewrite reservation_none in Hr. destruct (unintegrated_census s) as [n|] eqn:Hn; cbn.
  - destruct (decide _).
    + split; [done|]. intros [_ [_ _ _ (n' & Hn' & ?)]]. assert (n' = n) as -> by congruence. lia.
    + split; [|naive_solver]. intros [= <-]. split; [done|]. constructor; eauto.
      eexists; split; [done|lia].
  - split; [done|]. intros [_ [_ _ _ (n' & Hn' & ?)]]. congruence.
Qed.

(** The answer of the decision, once the molecule is read. *)
Lemma decide_spec cfg m o s mol d :
  load_molecule m s = Ok mol →
  decide_with_authority cfg m o true None s = Ok d ↔
  match d with
  | DecideAlreadyLanded b => ¬ open_molecule mol ∧ b = is_some (dm_merged_at mol)
  | DecideNoOp => open_molecule mol ∧ ho_if_completed o = true ∧ dm_status mol ≠ MoleculeStatus.Completed
  | DecideProceed => passes_checks cfg o mol s
  end.
Proof.
  intros Hl. unfold decide_with_authority. rewrite Hl. cbn [negb fault mbind result_bind].
  destruct (is_some (dm_merged_at mol) || dm_archived mol) eqn:Ho.
  { assert (¬ open_molecule mol) by (rewrite <-open_dec; congruence).
    split; [by intros [= <-]|]. destruct d; [by intros [_ ->]|naive_solver|by intros []]. }
  apply open_dec in Ho.
  destruct (decide (dm_status mol = MoleculeStatus.Completed)) as [Hc|Hc].
  { rewrite bool_decide_false by naive_solver. rewrite !andb_false_r.
    rewrite (reservation_and_backlog_spec cfg o) by auto. destruct d; naive_solver. }
  rewrite bool_decide_true by done. rewrite !andb_true_r.
  assert (¬ (dm_status mol = MoleculeStatus.Completed ∨ ho_force o = true ∧ ho_if_completed o = false) →
          ¬ passes_checks cfg o mol s) as Hna by (intros ? []; done).
  destruct (ho_if_completed o) eqn:Hi.
  { split; [by intros [= <-]|]. destruct d; naive_solver. }
  destruct (ho_force o) eqn:Hf; cbn [negb].
  - rewrite (reservation_and_backlog_spec cfg o) by auto. destruct d; naive_solver.
  - split; [done|]. destruct d; naive_solver.
Qed.

Lemma interpret_ok m o s out r :
  interpret_effect m o r s = Ok out ↔
  r = Ok tt ∧ ∃ after, load_molecule m s = Ok after ∧ record_says o after out.
Proof.
  destruct r as [[]|f]; cbn.
  2:{ split; [|naive_solver]. destruct f; try done. by destruct (recorded_non_integration m s). }
  destruct (load_molecule m s) as [after|]; cbn; [|naive_solver].
  transitivity (record_says o after out); [|naive_solver].
  unfold closure_without_merge, record_says, open_molecule.
  destruct after as [? ? ? ? [stamp|] [[why ? ? ?]|] archived], out, archived; cbn;
    try destruct why; destruct (ho_no_merge o), (ho_if_completed o); cbn; intuition congruence.
Qed.

(** What [through_door] answers for the decision of [decide_with_authority]. *)
Lemma through_door_exact cfg m o armed journal effect s s' out :
  through_door m o (decide_with_authority cfg m o armed journal s) effect s = (s', Ok out) ↔
  says cfg m o armed journal effect s s' out.
Proof.
  unfold through_door, says. split.
  - intros Hd. destruct (decide_with_authority _ _ _ _ _ _) as [d|] eqn:Hdec; [|done].
    destruct (decide_reads _ _ _ _ _ _ _ Hdec) as (-> & Hr & mol & Hl).
    rewrite (decide_rest _ _ _ _ _ _ Hr Hl) in Hdec. apply (decide_spec _ _ _ _ _ _ Hl) in Hdec.
    destruct d; simplify_eq; [left; naive_solver|left; naive_solver|right].
    split_and!; [done..|]. exists mol.
    assert (∃ s1 r, (binds_trunk_lock effect = true ∨ lock_trunk s = Ok tt) ∧ harvest effect m o s = (s1, r) ∧
      (s1, interpret_effect m o r s1) = (s', Ok out)) as (s1 & r & Hb & Hh & Hi).
    { destruct (binds_trunk_lock effect); [|destruct (lock_trunk s) as [[]|]; [|done]];
        destruct (harvest effect m o s) as [s1 r]; eauto 7. }
    injection Hi as -> Hi. apply interpret_ok in Hi as (-> & after & ? & ?).
    exists after. unfold effect_runs. auto.
  - intros [(-> & Hr & mol & Hl & Ho)|(-> & Hr & mol & after & Hl & Ha & [Hb Hh] & Hl' & Hs)];
      rewrite (decide_rest _ _ _ _ _ _ Hr Hl).
    + destruct out; try done; destruct Ho as [-> Ho].
      * by rewrite (proj2 (decide_spec cfg m o s mol (DecideAlreadyLanded merged) Hl)).
      * by rewrite (proj2 (decide_spec cfg m o s mol DecideNoOp Hl)).
    + rewrite (proj2 (decide_spec cfg m o s mol DecideProceed Hl) Ha), Hh.
      assert (interpret_effect m o (Ok tt) s' = Ok out) as -> by (apply interpret_ok; eauto).
      destruct Hb as [->| ->]; [done|]. by destruct (binds_trunk_lock effect).
Qed.

Definition reason_given o : Prop := trim (ho_reason o) ≠ EmptyString.

Lemma options_valid o : options_validate o = Ok tt ↔ reason_given o.
Proof. unfold options_validate, is_empty, reason_given. case_bool_decide; naive_solver. Qed.

Lemma land_through cfg m o effect s s' out :
  land cfg m o effect s = (s', Ok out) ↔
  reason_given o ∧ through_door m o (decide_local cfg m o s) effect s = (s', Ok out).
Proof.
  rewrite <-options_valid. unfold land.
  destruct (options_validate o) as [[]|]; naive_solver.
Qed.

Lemma land_remote_through cfg m o policy journal effect s s' out :
  land_remote cfg m o policy journal effect s = (s', Ok out) ↔
  reason_given o ∧ through_door m o (decide_remote cfg m o policy journal s) effect s = (s', Ok out).
Proof.
  rewrite <-options_valid. unfold land_remote.
  destruct (options_validate o) as [[]|]; naive_solver.
Qed.

(** Everything that lets the effect run. *)
Definition lets_run (cfg : authority_config) m o (armed : bool) (journal : option (option string * io)) s : Prop :=
  reason_given o ∧ armed = true ∧ readable m journal ∧ ∃ mol, load_molecule m s = Ok mol ∧ passes_checks cfg o mol s.

(** An answer of a door: the effect was let through, ran once and decided the
    answer, or nothing happened and the answer is the same whatever the effect
    would do. *)
Definition only_through (door : sealed_effect S → S → S * result land_error door_outcome) (lets : S → Prop)
    m o (effect : sealed_effect S) s s' r : Prop :=
  lets s ∧ (∃ re, effect_runs effect m o s s' re ∧ r = interpret_effect m o re s') ∨
  s' = s ∧ ∀ effect', binds_trunk_lock effect' = binds_trunk_lock effect → door effect' s = (s, r).

Lemma through_door_only cfg m o armed journal effect s s' r :
  reason_given o → through_door m o (decide_with_authority cfg m o armed journal s) effect s = (s', r) →
  only_through (λ e s, through_door m o (decide_with_authority cfg m o armed journal s) e s)
    (lets_run cfg m o armed journal) m o effect s s' r.
Proof.
  intros Hreason. unfold through_door, only_through.
  destruct (decide_with_authority _ _ _ _ _ _) as [d|] eqn:Hdec; [|intros [= <- <-]; right; done].
  destruct d; [intros [= <- <-]; by right..|].
  assert (lets_run cfg m o armed journal s) as Hlets.
  { destruct (decide_reads _ _ _ _ _ _ _ Hdec) as (-> & Hr & mol & Hl).
    rewrite (decide_rest _ _ _ _ _ _ Hr Hl) in Hdec. apply (decide_spec _ _ _ _ _ _ Hl) in Hdec. split_and!; [done..|]. by exists mol. }
  unfold effect_runs. destruct (binds_trunk_lock effect) eqn:Hb.
  - destruct (harvest effect m o s) as [s1 re] eqn:Hh. intros [= <- <-]. left. eauto 7.
  - destruct (lock_trunk s) as [[]|e].
    + destruct (harvest effect m o s) as [s1 re] eqn:Hh. intros [= <- <-]. left. eauto 7.
    + intros [= <- <-]. right. split; [done|]. by intros effect' ->.
Qed.

Lemma land_only cfg m o effect s s' r :
  land cfg m o effect s = (s', r) →
  only_through (land cfg m o) (lets_run cfg m o (ac_required cfg) None) m o effect s s' r.
Proof.
  unfold land. destruct (options_validate o) as [[]|] eqn:Ho; [|intros [= <- <-]; by right].
  apply options_valid in Ho. intros Hd. by apply through_door_only.
Qed.

Lemma land_remote_only cfg m o policy journal effect s s' r :
  land_remote cfg m o policy journal effect s = (s', r) →
  only_through (land_remote cfg m o policy journal)
    (lets_run cfg m o (bool_decide (rp_policy policy ≠ RemoteDisabled)) (Some journal)) m o effect s s' r.
Proof.
  unfold land_remote. destruct (options_validate o) as [[]|] eqn:Ho; [|intros [= <- <-]; by right].
  apply options_valid in Ho. intros Hd. by apply through_door_only.
Qed.

(** C33. The door opens to what it should, and tells the truth about it. Both
    doors answer an outcome if and only if a reason was given, the authority is
    armed (the configuration for the local door, a policy other than disabled
    and a readable journal for the remote one), the molecule can be read, and:
    - [already landed]: the molecule was merged or archived, with what it says
      of the merge; nothing ran;
    - [no op] before the effect: [--if-completed] on an open molecule that is
      not completed; nothing ran;
    - otherwise the effect ran, under the trunk lock, on an open molecule that
      was completed (or forced), carried none of the reservations that the door
      knows, with the backlog below its ceiling; it succeeded; and the record
      read back is a merge with no reason against it ([landed]), an archive
      without a merge that the request asked for or that had no branch
      ([closed]), or untouched ([no op], only under [--if-completed]).
    Whatever a door answers, an error included: either all of that let the
    effect run, once, and the answer is read off it; or the store is as it was
    and the answer is the same whatever the effect would have done. *)
Theorem door_exact cfg m o policy journal effect s s' :
  (∀ out, land cfg m o effect s = (s', Ok out) ↔
     reason_given o ∧ says cfg m o (ac_required cfg) None effect s s' out) ∧
  (∀ out, land_remote cfg m o policy journal effect s = (s', Ok out) ↔
     reason_given o ∧ says cfg m o (bool_decide (rp_policy policy ≠ RemoteDisabled)) (Some journal) effect s s' out) ∧
  (∀ r, land cfg m o effect s = (s', r) →
     only_through (land cfg m o) (lets_run cfg m o (ac_required cfg) None) m o effect s s' r) ∧
  ∀ r, land_remote cfg m o policy journal effect s = (s', r) →
    only_through (land_remote cfg m o policy journal)
      (lets_run cfg m o (bool_decide (rp_policy policy ≠ RemoteDisabled)) (Some journal)) m o effect s s' r.
Proof.
  split_and!; [| |intros r; apply land_only|intros r; apply land_remote_only]; intros out.
  - rewrite land_through. unfold decide_local. by rewrite through_door_exact.
  - rewrite land_remote_through. unfold decide_remote. by rewrite through_door_exact.
Qed.

(** A refusal that the effect names reaches the caller under that name, with
    its cause, whatever the record says; an unnamed failure takes the name of
    the record, and without one its own message. *)
Theorem refusal_named m o s f :
  interpret_effect m o (Err f) s = Err
    match f with
    | EffectRefused r => refused_effect m r None s
    | EffectAuthorizationRefused r cause => refused_effect m r (Some cause) s
    | EffectUnavailable => LandEffectUnavailable
    | EffectAuthorizationFault cause => LandAuthorizationRefused cause
    | EffectFailed message =>
        match recorded_non_integration m s with
        | Some n => LandRefused (refusal_from_record n)
        | None => LandEffectFailed message
        end
    end ∧
  ∀ r cause, ∃ detail, refused_effect m r cause s = LandRefused (DoorRefused r detail cause) ∧
    (detail ≠ None → ∃ n, recorded_non_integration m s = Some n ∧ refusal_from_record n = DoorRefused r detail None).
Proof.
  split.
  - destruct f; cbn; try done. by destruct (recorded_non_integration m s).
  - intros r cause. unfold refused_effect. eexists; split; [done|].
    destruct (_ <$> _) as [fr|] eqn:Hf; [|intros Hd; by destruct (Hd eq_refl)].
    apply fmap_Some in Hf as (n & Hn & ->).
    destruct (decide _) as [<-|]; intros Hd; [|by destruct (Hd eq_refl)].
    exists n. split; [done|]. by destruct n.
Qed.
End Passing.

(** ** The record of a harvest *)

Section Recorded.
Context {S : Type} `{DoorStoreLaws S} `{LineCodec journal_record}.
Implicit Types (s : S) (m : mid).

(** A molecule is merged or has a reason why not, never both. *)
Definition partitioned (mol : door_molecule) : Prop :=
  dm_merged_at mol = None ∨ dm_non_integration mol = None.

Definition all_partitioned s : Prop := ∀ m mol, load_molecule m s = Ok mol → partitioned mol.

(** The writers of these two fields: [cs done], and the resident loop. *)
Inductive record_write : Type :=
| WriteStamp (m : mid) (now : Z)
| WriteReason (m : mid) (reason : non_integration_reason) (base detail : option string) (c : contradicts_stamp) (now : Z)
| WriteOnComplete (m : mid) (now : Z).

Definition written m (w : record_write) : Prop :=
  match w with WriteStamp m' _ | WriteReason m' _ _ _ _ _ | WriteOnComplete m' _ => m' = m end.

Definition write (w : record_write) s : S :=
  match w with
  | WriteStamp m now => stamp_merged m now s
  | WriteReason m reason base detail c now => record_non_integration m reason base detail c now s
  | WriteOnComplete m now => stamp_on_complete m now s
  end.

Definition writes (ws : list record_write) s : S := foldl (flip write) s ws.

(** The resident loop stamps over a reason. *)
Definition overstamps s (w : record_write) m : Prop :=
  ∃ now mol, w = WriteOnComplete m now ∧ load_molecule m s = Ok mol ∧ dm_merged_at mol = None ∧ dm_non_integration mol ≠ None.

Lemma terminalize_keeps mol :
  dm_merged_at (terminalize mol) = dm_merged_at mol ∧
  dm_non_integration (terminalize mol) = dm_non_integration mol ∧
  dm_archived (terminalize mol) = dm_archived mol ∧ is_terminal (dm_status (terminalize mol)) = true.
Proof. unfold terminalize. by destruct (is_terminal (dm_status mol)) eqn:?. Qed.

Lemma save_partitioned m m' d s mol :
  (∀ mol, load_molecule m' s = Ok mol → partitioned mol) → partitioned d →
  load_molecule m' (match save_molecule m d s with Ok s' => s' | Err _ => s end) = Ok mol → partitioned mol.
Proof.
  intros Hs Hd. destruct (save_molecule m d s) as [s'|] eqn:Hsave; [|apply Hs].
  destruct (decide (m = m')) as [<-|Hne].
  - rewrite (load_saved _ _ _ _ Hsave). by intros [= <-].
  - rewrite (load_others _ _ _ _ _ Hsave Hne). apply Hs.
Qed.

(** A write leaves a molecule partitioned that was, unless it overstamps it. *)
Lemma write_partitioned w s m mol :
  (∀ mol, load_molecule m s = Ok mol → partitioned mol) → ¬ overstamps s w m →
  load_molecule m (write w s) = Ok mol → partitioned mol.
Proof.
  intros Hs Hno. destruct w as [m0 now|m0 reason base detail c now|m0 now]; cbn [write].
  - unfold stamp_merged. destruct (load_molecule m0 s) as [latest|] eqn:Hl; [|apply Hs].
    destruct (is_some (dm_merged_at latest)); [apply Hs|]. apply save_partitioned; [done|].
    right. by rewrite (proj1 (proj2 (terminalize_keeps _))).
  - unfold record_non_integration. destruct (lock_fleet s); [|apply Hs].
    destruct (load_molecule m0 s) as [mol0|] eqn:Hl; [|apply Hs].
    destruct c; [destruct (dm_merged_at mol0) eqn:Hm; [apply Hs|]|]; (apply save_partitioned; [done|by left]).
  - unfold stamp_on_complete. destruct (load_molecule m0 s) as [latest|] eqn:Hl; [|apply Hs].
    destruct (dm_merged_at latest) eqn:Hm; cbn; [apply Hs|].
    destruct (decide (m0 = m)) as [->|Hne].
    + apply save_partitioned; [done|]. right. cbn. destruct (dm_non_integration latest) eqn:Hn; [|done].
      destruct Hno. exists now, latest. by rewrite Hn.
    + destruct (save_molecule m0 _ s) as [s1|] eqn:Hsave; [|apply Hs].
      rewrite (load_others _ _ _ _ _ Hsave Hne). apply Hs.
Qed.

Lemma partitioned_dec mol : partitioned mol ∨ dm_merged_at mol ≠ None ∧ dm_non_integration mol ≠ None.
Proof. unfold partitioned. destruct (dm_merged_at mol), (dm_non_integration mol); auto. Qed.

Lemma overstamps_dec s w m : overstamps s w m ∨ ¬ overstamps s w m.
Proof.
  unfold overstamps. destruct w as [m0 now|m0 reason base detail c now|m0 now]; [right; naive_solver..|].
  destruct (decide (m0 = m)) as [->|]; [|right; naive_solver].
  destruct (load_molecule m s) as [mol|]; [|right; naive_solver].
  destruct (dm_merged_at mol) eqn:Hm1; [right; naive_solver|].
  destruct (dm_non_integration mol) eqn:Hn1; [left; exists now, mol; by rewrite Hn1|right; naive_solver].
Qed.

(** A molecule with both is one that the resident loop stamped over a reason,
    and that no write has parted since. *)
Lemma both_overstamped ws s m mol :
  (∀ mol, load_molecule m s = Ok mol → partitioned mol) → load_molecule m (writes ws s) = Ok mol →
  ¬ partitioned mol → ∃ ws1 w ws2, ws = ws1 ++ w :: ws2 ∧ overstamps (writes ws1 s) w m.
Proof.
  revert mol. induction ws as [|w ws IH] using rev_ind; intros mol Hs Hl Hp; [by destruct Hp; eauto|].
  unfold writes in Hl. rewrite foldl_snoc in Hl. cbn in Hl. fold (writes ws s) in Hl.
  destruct (overstamps_dec (writes ws s) w m) as [Ho|Hno]; [by exists ws, w, []|].
  assert (¬ ∀ mol', load_molecule m (writes ws s) = Ok mol' → partitioned mol') as Hex
    by (intros Hall; by destruct Hp; eapply write_partitioned).
  destruct (load_molecule m (writes ws s)) as [mol'|] eqn:Hl'; [|destruct Hex; naive_solver].
  destruct (IH mol') as (ws1 & w1 & ws2 & -> & Ho); [done|done| |].
  { intros Hp'. apply Hex. by intros ? [= <-]. }
  exists ws1, w1, (ws2 ++ [w]). by rewrite <- app_assoc.
Qed.

(** What the door says after an effect of a molecule with both. *)
Lemma both_refused m o s mol :
  load_molecule m s = Ok mol → ¬ partitioned mol →
  ∃ n, dm_non_integration mol = Some n ∧ interpret_effect m o (Ok tt) s = Err (LandRefused (refusal_from_record n)).
Proof.
  intros Hl Hp. destruct (partitioned_dec mol) as [|[Hm Hn]]; [done|].
  destruct (dm_non_integration mol) as [n|] eqn:Hni; [|done]. exists n. split; [done|].
  cbn. rewrite Hl. cbn. rewrite Hni. unfold closure_without_merge. destruct (dm_merged_at mol); [|done]. by rewrite orb_true_r.
Qed.

End Recorded.

(** ** Samples *)

Module DoorSamples.
Import GrantSamples LedgerSamples.

(** A store that never fails. *)
#[local] Instance map_store : DoorStore (gmap mid door_molecule) := {
  load_molecule m s := match s !! m with Some d => Ok d | None => Err (ENotFound m) end;
  save_molecule m d s := Ok (<[m := d]> s);
  list_molecules st s := Ok (filter (λ d, dm_status d = st) (map_to_list s).*2);
  lock_trunk _ := Ok tt;
  lock_fleet _ := Ok tt;
}.

#[local] Instance map_store_laws : DoorStoreLaws (gmap mid door_molecule).
Proof.
  constructor; intros; cbn in *; simplify_eq.
  - by rewrite lookup_insert_eq.
  - by rewrite lookup_insert_ne.
Qed.

Definition a_molecule : mid := MoleculeId "task-20260731-9cf4" "task" "20260731" "9cf4".

Definition running : door_molecule := DoorMolecule MoleculeStatus.Running None None [] None None false.

Definition sample_store : gmap mid door_molecule := {[a_molecule := running]}.

Definition a_conflict : record_write := WriteReason a_molecule Conflict (Some "main") None StampWins 1.


(** A completed molecule whose effect merges it. *)
Definition merging : sealed_effect (gmap mid door_molecule) :=
  SealedEffect false (λ m _ s, (stamp_merged m 5 s, Ok tt)).

Definition completed : door_molecule := DoorMolecule MoleculeStatus.Completed None None ["temp:hot"] None None false.

(** A [cs done] that ends in a conflict exits with a failure, [on_complete]
    still answers [Ok], and the loop stamps the molecule as merged: the door
    still reports the conflict, a later request is told that it landed. *)
Example conflict_stamped :
  let s := writes [a_conflict; WriteOnComplete a_molecule 2] {[a_molecule := completed]} in
  interpret_effect a_molecule (options_new "done") (Ok tt) s =
    Err (LandRefused (refused_with MergeConflict "conflict against main")) ∧
  dm_merged_at <$> s !! a_molecule = Some (Some 2%Z) ∧
  ∃ effect, (land (AuthorityConfig true None None) a_molecule (options_new "done") effect s).2 = Ok (AlreadyLanded true).
Proof.
  split_and!; [vm_compute; reflexivity..|].
  exists (SealedEffect true (λ _ _ s, (s, Ok tt))). vm_compute. reflexivity.
Qed.

Example landing :
  (land (AuthorityConfig true None None) a_molecule (options_new "ship it") merging {[a_molecule := completed]}).2
  = Ok Landed.
Proof. vm_compute. reflexivity. Qed.

Example refused_without_reason :
  (land (AuthorityConfig true None None) a_molecule (options_new "  ") merging {[a_molecule := completed]}).2
  = Err (LandRefused (refused_with MissingReason "the request named no reason for closing this molecule")).
Proof. vm_compute. reflexivity. Qed.
End DoorSamples.
