(* ===== verification/Formula.v ===== *)
(** Formulas ([crates/cosmon-core/src/formula.rs]): a template of steps in TOML
    is parsed, checked and put in a topological order. The text is decoded by
    the TOML library, a parameter; everything after the decoding is modelled. *)
From stdpp Require Import prelude gmap strings sorting list.
From Stdlib Require Import Ascii.
From S2P Require Import Prelude Graph Text Paths Ids.

(** ** What the TOML holds *)

Record raw_query_spec := RawQuerySpec { rq_expr : string; rq_source : string; rq_output_var : string }.

Record raw_llm_spec := RawLlmSpec {
  rl_provider : string;
  rl_model : string;
  rl_prompt : option string;
  rl_prompt_file : option string;
  rl_output_path : string;
  rl_checkpoint_every : N;
  rl_timeout_per_checkpoint : N;
  rl_max_total_minutes : N;
  rl_max_retries : N;
}.

Record raw_parallel_limit := RawParallelLimit { rp_max : N; rp_mode : option string; rp_policy : option string }.

Record verification_spec := VerificationSpec { vs_criteria : string; vs_max_retries : N }.

Record raw_step := RawStep {
  rs_id : string;
  rs_title : string;
  rs_description : string;
  rs_acceptance : option string;
  rs_acceptance_artifacts : list string;
  rs_response_artifact : option string;
  rs_needs : list string;
  rs_skills : list string;
  rs_verification : option verification_spec;
  rs_validation : option string;
  rs_command : option string;
  rs_native : option string;
  rs_timeout : option N;
  rs_timeout_minutes : option N;
  rs_requires_parent_link : bool;
  rs_parallel_limit : option raw_parallel_limit;
  rs_query : option raw_query_spec;
  rs_llm : option raw_llm_spec;
  rs_adapter : option string;
  rs_model : option string;
  rs_harness : gmap string string;
}.

Record raw_tier := RawTier { rt_level : N; rt_measure : option string; rt_signature : option string }.

Record raw_var := RawVar {
  rv_description : option string;
  rv_type : option string;
  rv_required : option bool;
  rv_default : option string;
}.

Record raw_formula := RawFormula {
  rf_formula : string;
  rf_version : N;
  rf_description : string;
  rf_id_prefix : string;
  rf_type : option string;
  rf_freeze_on_last_step : bool;
  rf_deterministic : bool;
  rf_requires_capabilities : list string;
  rf_steps : list raw_step;
  rf_tier : option raw_tier;
  rf_vars : gmap string raw_var;
  rf_inputs : gmap string raw_var;
}.

(** ** Formulas *)

Inductive tier : Type :=
| TierZero
| TierOne (measure : string)
| TierTwo (signature : string).

Definition tier_level (t : tier) : N := match t with TierZero => 0 | TierOne _ => 1 | TierTwo _ => 2 end.
Definition tier_badge (t : tier) : string :=
  match t with TierZero => "T0" | TierOne _ => "T1" | TierTwo _ => "T2" end.

Inductive parallel_limit : Type :=
| Static (max : N)
| Smart (policy : string).

Definition static_max (p : parallel_limit) : option N :=
  match p with Static max => Some max | Smart _ => None end.

Inductive query_source : Type :=
| CurrentMoleculeState
| MoleculeState (id : molecule_id)
| QueryPrompt
| QueryBriefing
| QueryEvents.

Record query_spec := QuerySpec { qs_expr : string; qs_source : query_source; qs_output_var : string }.

Record llm_spec := LlmSpec {
  ls_provider : string;
  ls_model : string;
  ls_prompt : option string;
  ls_prompt_file : option string;
  ls_output_path : string;
  ls_checkpoint_every_secs : N;
  ls_timeout_per_checkpoint_secs : N;
  ls_max_total_minutes : N;
  ls_max_retries : N;
}.

Inductive validation_mode : Set := MTime | Blake3 | Sha256 | KeyedBlake3.

(** [ValidationMode::parse] *)
Definition validation_mode_parse (s : string) : option validation_mode :=
  if decide (s = "mtime") then Some MTime
  else if decide (s = "blake3") then Some Blake3
  else if decide (s = "sha256") then Some Sha256
  else if decide (s = "keyed_blake3") then Some KeyedBlake3
  else None.

Inductive worker_capability : Set := Shell | Vcs | CosmonCli.

Definition capability_token (c : worker_capability) : string :=
  match c with Shell => "shell" | Vcs => "vcs" | CosmonCli => "cs-cli" end.

(** [WorkerCapability::from_str] *)
Definition capability_from_str (s : string) : option worker_capability :=
  if decide (s = "shell") then Some Shell
  else if decide (s = "vcs") then Some Vcs
  else if decide (s = "cs-cli") then Some CosmonCli
  else None.

Record fstep := FStep {
  s_id : string;
  s_title : string;
  s_description : string;
  s_exit_criteria : option string;
  s_expected_artifacts : list string;
  s_response_artifact : option string;
  s_depends_on : list string;
  s_skills : list string;
  s_order : nat;
  s_validation_mode : option validation_mode;
  s_verification : option verification_spec;
  s_command : option string;
  s_native : option string;
  s_timeout : option N;
  s_timeout_minutes : option N;
  s_requires_parent_link : bool;
  s_parallel_limit : option parallel_limit;
  s_query : option query_spec;
  s_llm : option llm_spec;
  s_adapter : option string;
  s_model : option string;
  s_harness : gmap string string;
}.

Definition is_gate (s : fstep) : bool := is_some (s_command s).
Definition is_native (s : fstep) : bool := is_some (s_native s).
Definition is_query (s : fstep) : bool := is_some (s_query s).
Definition is_llm (s : fstep) : bool := is_some (s_llm s).
Definition is_automated (s : fstep) : bool := is_gate s || is_native s || is_query s || is_llm s.
Definition gate_timeout_secs (s : fstep) : N := default 300%N (s_timeout s).
Definition stall_timeout_minutes (s : fstep) : N := default 30%N (s_timeout_minutes s).

Record variable := Variable_ {
  v_description : option string;
  v_type : option string;
  v_required : bool;
  v_default : option string;
}.

Record formula := Formula_ {
  f_name : string;
  f_version : N;
  f_description : string;
  f_id_prefix : string;
  f_kind : option string;
  f_steps : list fstep;
  f_variables : gmap string variable;
  f_freeze_on_last_step : bool;
  f_tier : tier;
  f_deterministic : bool;
  f_requires_capabilities : list worker_capability;
}.

Definition verify_requires_execution (f : formula) : bool := negb (f_deterministic f).

(** ** Errors *)

Inductive tier_error : Type :=
| InvalidLevel (level : N)
| Tier0Nucleates (step : string)
| Tier1MissingMeasure
| Tier1MeasureNotReferenced (measure : string)
| Tier2Unsupported
| Tier2SignatureInvalid (path : string).

(** [OrderPanic] is the panic of [order_map[..]] and of the last resort of
    [toposort]; it is dead. *)
Inductive formula_error : Type :=
| TomlError (message : string)
| NoSteps
| DuplicateStepId (id : string)
| UnknownDependency (step dependency : string)
| CircularDependency (step : string)
| InvalidName (message : id_error)
| CommandAndNative (step : string)
| InvalidResponseArtifact (step path : string)
| MultipleStepKinds (step kinds : string)
| QueryMissingField (step field : string)
| QueryUnknownSource (step raw_source : string)
| LlmMissingField (step field : string)
| LlmPromptAmbiguous (step : string)
| ParallelLimitZero (step : string)
| ParallelLimitUnknownMode (step mode : string)
| UnknownValidationMode (step mode : string)
| UnknownCapability (token accepted : string)
| TierViolation (e : tier_error)
| OrderPanic.

(** ** The parts of a step *)

Definition is_blank_text (s : string) : bool := is_empty (trim s).

Definition build_parallel_limit (step_id : string) (raw : option raw_parallel_limit) :
    result formula_error (option parallel_limit) :=
  match raw with
  | None => Ok None
  | Some raw =>
      if decide (rp_max raw = 0%N) then Err (ParallelLimitZero step_id)
      else
        let mode := default "static" (rp_mode raw) in
        if decide (mode = "static") then Ok (Some (Static (rp_max raw)))
        else if decide (mode = "smart") then Ok (Some (Smart (default EmptyString (rp_policy raw))))
        else Err (ParallelLimitUnknownMode step_id mode)
  end.

Definition parse_query_source (step_id raw : string) : result formula_error query_source :=
  let trimmed := trim raw in
  if bool_decide (trimmed = "state") || bool_decide (trimmed = "molecule:current") then Ok CurrentMoleculeState
  else if decide (trimmed = "prompt") then Ok QueryPrompt
  else if decide (trimmed = "briefing") then Ok QueryBriefing
  else if decide (trimmed = "events") then Ok QueryEvents
  else match strip_prefix "molecule:" trimmed with
       | Some rest =>
           match parse_inner rest with
           | Ok id => Ok (MoleculeState id)
           | Err _ => Err (QueryUnknownSource step_id raw)
           end
       | None => Err (QueryUnknownSource step_id raw)
       end.

Definition build_query_spec (step_id : string) (raw : option raw_query_spec) :
    result formula_error (option query_spec) :=
  match raw with
  | None => Ok None
  | Some raw =>
      if is_blank_text (rq_expr raw) then Err (QueryMissingField step_id "expr")
      else if is_blank_text (rq_source raw) then Err (QueryMissingField step_id "source")
      else if is_blank_text (rq_output_var raw) then Err (QueryMissingField step_id "output_var")
      else
        source ← parse_query_source step_id (rq_source raw);
        Ok (Some (QuerySpec (rq_expr raw) source (rq_output_var raw)))
  end.

Definition build_llm_spec (step_id : string) (raw : option raw_llm_spec) :
    result formula_error (option llm_spec) :=
  match raw with
  | None => Ok None
  | Some raw =>
      if is_blank_text (rl_provider raw) then Err (LlmMissingField step_id "provider")
      else if is_blank_text (rl_model raw) then Err (LlmMissingField step_id "model")
      else
        match rl_prompt raw, rl_prompt_file raw with
        | None, None => Err (LlmMissingField step_id "prompt")
        | Some _, Some _ => Err (LlmPromptAmbiguous step_id)
        | _, _ =>
            if is_empty (rl_output_path raw) then Err (LlmMissingField step_id "output_path")
            else Ok (Some (LlmSpec (rl_provider raw) (rl_model raw) (rl_prompt raw) (rl_prompt_file raw)
                             (rl_output_path raw) (rl_checkpoint_every raw) (rl_timeout_per_checkpoint raw)
                             (rl_max_total_minutes raw) (rl_max_retries raw)))
        end
  end.

Definition build_validation_mode (step_id : string) (raw : option string) :
    result formula_error (option validation_mode) :=
  match raw with
  | None => Ok None
  | Some mode =>
      match validation_mode_parse mode with
      | Some m => Ok (Some m)
      | None => Err (UnknownValidationMode step_id mode)
      end
  end.

Definition validate_response_artifact_path (path : string) : bool :=
  negb (is_empty path) && negb (is_absolute path) && forallb is_normal (path_components path).

Definition check_response_artifact (step_id : string) (raw : option string) : result formula_error unit :=
  match raw with
  | Some path =>
      if validate_response_artifact_path path then Ok tt else Err (InvalidResponseArtifact step_id path)
  | None => Ok tt
  end.

(** ** The graph *)

Definition need_edges (steps : list raw_step) : list (string * string) :=
  steps ≫= λ s, (λ dep, (dep, rs_id s)) <$> rs_needs s.

Section Parse.
Context `{!HashOrder string}.

Definition topological_sort (steps : list raw_step) : result formula_error (list string) :=
  match toposort (need_edges steps) with
  | Err (CycleError n) => Err (CircularDependency n)
  | Err IndexPanic => Err OrderPanic
  | Ok result => Ok (result ++ sort_ids (filter (λ id, id ∉ result) (rs_id <$> steps)))
  end.

Definition order_of (ordered : list string) (id : string) : option nat :=
  fst <$> list_find (λ x, x = id) ordered.

(** The closure over the raw steps. *)
Definition build_step (ordered : list string) (s : raw_step) : result formula_error fstep :=
  match order_of ordered (rs_id s) with
  | None => Err OrderPanic
  | Some order =>
      parallel_limit ← build_parallel_limit (rs_id s) (rs_parallel_limit s);
      validation_mode ← build_validation_mode (rs_id s) (rs_validation s);
      query ← build_query_spec (rs_id s) (rs_query s);
      llm ← build_llm_spec (rs_id s) (rs_llm s);
      _ ← check_response_artifact (rs_id s) (rs_response_artifact s);
      Ok (FStep (rs_id s) (rs_title s) (rs_description s) (rs_acceptance s) (rs_acceptance_artifacts s)
            (rs_response_artifact s) (rs_needs s) (rs_skills s) order validation_mode (rs_verification s)
            (rs_command s) (rs_native s) (rs_timeout s) (rs_timeout_minutes s) (rs_requires_parent_link s)
            parallel_limit query llm (rs_adapter s) (rs_model s) (rs_harness s))
  end.

(** ** The checks of the whole *)

Fixpoint duplicate_step (seen : gset string) (steps : list raw_step) : option string :=
  match steps with
  | [] => None
  | s :: rest => if decide (rs_id s ∈ seen) then Some (rs_id s) else duplicate_step ({[rs_id s]} ∪ seen) rest
  end.

Definition step_kinds (s : raw_step) : list string :=
  (if is_some (rs_command s) then ["command"] else []) ++
  (if is_some (rs_native s) then ["native"] else []) ++
  (if is_some (rs_query s) then ["query"] else []) ++
  (if is_some (rs_llm s) then ["llm"] else []).

Definition kinds_error (s : raw_step) : option formula_error :=
  match step_kinds s with
  | [] | [_] => None
  | kinds =>
      if decide (kinds = ["command"; "native"]) then Some (CommandAndNative (rs_id s))
      else Some (MultipleStepKinds (rs_id s) (join_with ", " kinds))
  end.

Definition unknown_need (known : list string) (s : raw_step) : option formula_error :=
  match list_find (λ d, d ∉ known) (rs_needs s) with
  | Some (_, d) => Some (UnknownDependency (rs_id s) d)
  | None => None
  end.

(** The first step for which [f] has an error. *)
Fixpoint first_error (f : raw_step → option formula_error) (steps : list raw_step) : option formula_error :=
  match steps with
  | [] => None
  | s :: rest => match f s with Some e => Some e | None => first_error f rest end
  end.

Definition build_tier (raw : option raw_tier) : result tier_error tier :=
  match raw with
  | None => Ok TierZero
  | Some raw =>
      if decide (rt_level raw = 0%N) then Ok TierZero
      else if decide (rt_level raw = 1%N) then
        match rt_measure raw with Some m => Ok (TierOne m) | None => Err Tier1MissingMeasure end
      else if decide (rt_level raw = 2%N) then
        match rt_signature raw with None => Err Tier2Unsupported | Some p => Err (Tier2SignatureInvalid p) end
      else Err (InvalidLevel (rt_level raw))
  end.

Definition mentions_nucleate (s : string) : bool :=
  contains_str "cs nucleate " s || contains_str ("cs nucleate" +:+ nl) s || contains_str "cosmon_nucleate" s.

Definition step_nucleates (s : fstep) : bool :=
  match s_command s with Some c => mentions_nucleate c | None => false end.

Definition step_mentions (measure : string) (s : fstep) : bool :=
  contains_str measure (s_description s) || contains_str measure (s_title s) ||
  match s_exit_criteria s with Some c => contains_str measure c | None => false end.

Definition validate_tier (f : formula) : result tier_error unit :=
  match f_tier f with
  | TierZero =>
      match list_find (λ s, step_nucleates s = true) (f_steps f) with
      | Some (_, s) => Err (Tier0Nucleates (s_id s))
      | None => Ok tt
      end
  | TierOne measure =>
      if is_blank_text measure then Err Tier1MissingMeasure
      else if existsb (step_mentions measure) (f_steps f) || contains_str measure (f_description f) then Ok tt
      else Err (Tier1MeasureNotReferenced measure)
  | TierTwo _ => Err Tier2Unsupported
  end.

Definition build_capability (token : string) : result formula_error worker_capability :=
  match capability_from_str token with
  | Some c => Ok c
  | None => Err (UnknownCapability token (join_with ", " (capability_token <$> [Shell; Vcs; CosmonCli])))
  end.

Definition build_variable (v : raw_var) : variable :=
  Variable_ (rv_description v) (rv_type v) (default false (rv_required v)) (rv_default v).

(** [Formula::parse] after [toml::from_str]. *)
Definition parse_raw (raw : raw_formula) : result formula_error formula :=
  name ← map_err InvalidName (simple_id_new "FormulaId" (rf_formula raw));
  match rf_steps raw with
  | [] => Err NoSteps
  | steps =>
      match duplicate_step ∅ steps with
      | Some id => Err (DuplicateStepId id)
      | None =>
          match first_error kinds_error steps with
          | Some e => Err e
          | None =>
              match first_error (unknown_need (rs_id <$> steps)) steps with
              | Some e => Err e
              | None =>
                  ordered ← topological_sort steps;
                  built ← mapM (build_step ordered) steps;
                  tier ← map_err TierViolation (build_tier (rf_tier raw));
                  capabilities ← mapM build_capability (rf_requires_capabilities raw);
                  let f := Formula_ name (rf_version raw) (rf_description raw) (rf_id_prefix raw) (rf_type raw)
                             (sort_by s_order built)
                             (build_variable <$> rf_vars raw ∪ rf_inputs raw)
                             (rf_freeze_on_last_step raw) tier (rf_deterministic raw) capabilities in
                  _ ← map_err TierViolation (validate_tier f);
                  Ok f
              end
          end
      end
  end.

(** [Formula::parse]; [toml] is [toml::from_str]. *)
Definition parse (toml : string → result string raw_formula) (text : string) : result formula_error formula :=
  raw ← map_err TomlError (toml text);
  parse_raw raw.
End Parse.

(** The answer is sorted, so the order of the map does not show. *)
Definition missing_required_vars (f : formula) (provided : gmap string string) : list string :=
  sort_ids ((filter (λ kv,
    (v_required kv.2 = true ∧ v_default kv.2 = None) ∧
    default true (is_blank_text <$> provided !! kv.1) = true)
    (map_to_list (f_variables f))).*1).

(** ** What a formula promises *)

(** The kinds of execution a step declares. *)
Definition kinds_of (s : fstep) : nat := length (filter (λ b, b = true) [is_gate s; is_native s; is_query s; is_llm s]).

Definition tier_ok (f : formula) : Prop :=
  match f_tier f with
  | TierZero => ∀ s, s ∈ f_steps f → step_nucleates s = false
  | TierOne m =>
      is_blank_text m = false ∧
      ((∃ s, s ∈ f_steps f ∧ step_mentions m s = true) ∨ contains_str m (f_description f) = true)
  | TierTwo _ => False
  end.

Record formula_wf (f : formula) : Prop := {
  wf_name : f_name f ≠ EmptyString;
  wf_nonempty : f_steps f ≠ [];
  wf_ids : NoDup (s_id <$> f_steps f);
  wf_order i s : f_steps f !! i = Some s → s_order s = i;
  wf_deps i s d : f_steps f !! i = Some s → d ∈ s_depends_on s →
    ∃ j t, j < i ∧ f_steps f !! j = Some t ∧ s_id t = d;
  wf_kinds s : s ∈ f_steps f → kinds_of s ≤ 1;
  wf_limits s m : s ∈ f_steps f → s_parallel_limit s = Some (Static m) → (0 < m)%N;
  wf_tier : tier_ok f;
}.

(** What the raw text must satisfy. *)
Definition limit_valid (r : raw_parallel_limit) : Prop :=
  rp_max r ≠ 0%N ∧ (rp_mode r = None ∨ rp_mode r = Some "static" ∨ rp_mode r = Some "smart").

Definition query_valid (r : raw_query_spec) : Prop :=
  is_blank_text (rq_expr r) = false ∧ is_blank_text (rq_output_var r) = false ∧
  (trim (rq_source r) ∈ ["state"; "molecule:current"; "prompt"; "briefing"; "events"] ∨
   ∃ rest id, strip_prefix "molecule:" (trim (rq_source r)) = Some rest ∧ parse_inner rest = Ok id).

Definition llm_valid (r : raw_llm_spec) : Prop :=
  is_blank_text (rl_provider r) = false ∧ is_blank_text (rl_model r) = false ∧
  (is_Some (rl_prompt r) ∧ rl_prompt_file r = None ∨ rl_prompt r = None ∧ is_Some (rl_prompt_file r)) ∧
  rl_output_path r ≠ EmptyString.

Definition all_in {A} (o : option A) (P : A → Prop) : Prop := ∀ a, o = Some a → P a.

Record step_valid (s : raw_step) : Prop := {
  sv_kinds : length (step_kinds s) ≤ 1;
  sv_limit : all_in (rs_parallel_limit s) limit_valid;
  sv_mode : all_in (rs_validation s) (λ m, m ∈ ["mtime"; "blake3"; "sha256"; "keyed_blake3"]);
  sv_query : all_in (rs_query s) query_valid;
  sv_llm : all_in (rs_llm s) llm_valid;
  sv_artifact : all_in (rs_response_artifact s) (λ p, validate_response_artifact_path p = true);
}.

Definition raw_mentions (measure : string) (s : raw_step) : Prop :=
  contains_str measure (rs_description s) = true ∨ contains_str measure (rs_title s) = true ∨
  ∃ c, rs_acceptance s = Some c ∧ contains_str measure c = true.

Definition tier_valid (raw : raw_formula) : Prop :=
  match rf_tier raw with
  | None => ∀ s c, s ∈ rf_steps raw → rs_command s = Some c → mentions_nucleate c = false
  | Some t =>
      rt_level t = 0%N ∧ (∀ s c, s ∈ rf_steps raw → rs_command s = Some c → mentions_nucleate c = false) ∨
      rt_level t = 1%N ∧ ∃ m, rt_measure t = Some m ∧ is_blank_text m = false ∧
        ((∃ s, s ∈ rf_steps raw ∧ raw_mentions m s) ∨ contains_str m (rf_description raw) = true)
  end.

Record raw_valid (raw : raw_formula) : Prop := {
  rv_name : rf_formula raw ≠ EmptyString;
  rv_nonempty : rf_steps raw ≠ [];
  rv_ids : NoDup (rs_id <$> rf_steps raw);
  rv_needs s d : s ∈ rf_steps raw → d ∈ rs_needs s → d ∈ rs_id <$> rf_steps raw;
  rv_acyclic : acyclic (need_edges (rf_steps raw));
  rv_steps s : s ∈ rf_steps raw → step_valid s;
  rv_tier : tier_valid raw;
  rv_capabilities t : t ∈ rf_requires_capabilities raw → t ∈ ["shell"; "vcs"; "cs-cli"];
}.

(** *** What each part of a description becomes *)

Definition limit_from (r : option raw_parallel_limit) (l : option parallel_limit) : Prop :=
  match r with
  | None => l = None
  | Some r =>
      (rp_mode r = None ∨ rp_mode r = Some "static") ∧ l = Some (Static (rp_max r)) ∨
      rp_mode r = Some "smart" ∧ ∃ policy, l = Some (Smart policy) ∧
        (rp_policy r = Some policy ∨ rp_policy r = None ∧ policy = EmptyString)
  end.

Definition mode_from (r : option string) (m : option validation_mode) : Prop :=
  match m with
  | None => r = None
  | Some MTime => r = Some "mtime"
  | Some Blake3 => r = Some "blake3"
  | Some Sha256 => r = Some "sha256"
  | Some KeyedBlake3 => r = Some "keyed_blake3"
  end.

Definition source_from (r : string) (q : query_source) : Prop :=
  match q with
  | CurrentMoleculeState => trim r = "state" ∨ trim r = "molecule:current"
  | QueryPrompt => trim r = "prompt"
  | QueryBriefing => trim r = "briefing"
  | QueryEvents => trim r = "events"
  | MoleculeState id =>
      trim r ≠ "molecule:current" ∧ ∃ rest, strip_prefix "molecule:" (trim r) = Some rest ∧ parse_inner rest = Ok id
  end.

Definition query_from (r : option raw_query_spec) (q : option query_spec) : Prop :=
  match r, q with
  | None, None => True
  | Some r, Some q =>
      qs_expr q = rq_expr r ∧ source_from (rq_source r) (qs_source q) ∧ qs_output_var q = rq_output_var r
  | _, _ => False
  end.

Definition llm_from (r : option raw_llm_spec) (l : option llm_spec) : Prop :=
  match r, l with
  | None, None => True
  | Some r, Some l =>
      ls_provider l = rl_provider r ∧ ls_model l = rl_model r ∧
      ls_prompt l = rl_prompt r ∧ ls_prompt_file l = rl_prompt_file r ∧
      ls_output_path l = rl_output_path r ∧
      ls_checkpoint_every_secs l = rl_checkpoint_every r ∧
      ls_timeout_per_checkpoint_secs l = rl_timeout_per_checkpoint r ∧
      ls_max_total_minutes l = rl_max_total_minutes r ∧ ls_max_retries l = rl_max_retries r
  | _, _ => False
  end.

(** Every field of a step comes from the field of the description that
    bears its name. *)
Record step_from (s : raw_step) (st : fstep) : Prop := {
  sf_id : s_id st = rs_id s;
  sf_title : s_title st = rs_title s;
  sf_description : s_description st = rs_description s;
  sf_exit_criteria : s_exit_criteria st = rs_acceptance s;
  sf_expected_artifacts : s_expected_artifacts st = rs_acceptance_artifacts s;
  sf_response_artifact : s_response_artifact st = rs_response_artifact s;
  sf_depends_on : s_depends_on st = rs_needs s;
  sf_skills : s_skills st = rs_skills s;
  sf_validation_mode : mode_from (rs_validation s) (s_validation_mode st);
  sf_verification : s_verification st = rs_verification s;
  sf_command : s_command st = rs_command s;
  sf_native : s_native st = rs_native s;
  sf_timeout : s_timeout st = rs_timeout s;
  sf_timeout_minutes : s_timeout_minutes st = rs_timeout_minutes s;
  sf_requires_parent_link : s_requires_parent_link st = rs_requires_parent_link s;
  sf_parallel_limit : limit_from (rs_parallel_limit s) (s_parallel_limit st);
  sf_query : query_from (rs_query s) (s_query st);
  sf_llm : llm_from (rs_llm s) (s_llm st);
  sf_adapter : s_adapter st = rs_adapter s;
  sf_model : s_model st = rs_model s;
  sf_harness : s_harness st = rs_harness s;
}.

Definition variable_from (r : raw_var) (v : variable) : Prop :=
  v_description v = rv_description r ∧ v_type v = rv_type r ∧
  (v_required v = true ↔ rv_required r = Some true) ∧ v_default v = rv_default r.

Definition tier_from (r : option raw_tier) (t : tier) : Prop :=
  match t with
  | TierZero => r = None ∨ ∃ rt, r = Some rt ∧ rt_level rt = 0%N
  | TierOne m => ∃ rt, r = Some rt ∧ rt_level rt = 1%N ∧ rt_measure rt = Some m
  | TierTwo _ => False
  end.

Definition capability_from (token : string) (c : worker_capability) : Prop :=
  match c with Shell => token = "shell" | Vcs => token = "vcs" | CosmonCli => token = "cs-cli" end.

(** A variable of [vars] hides the one of [inputs] that bears its name. *)
Record formula_from (raw : raw_formula) (f : formula) : Prop := {
  ff_name : f_name f = rf_formula raw;
  ff_version : f_version f = rf_version raw;
  ff_description : f_description f = rf_description raw;
  ff_id_prefix : f_id_prefix f = rf_id_prefix raw;
  ff_kind : f_kind f = rf_type raw;
  ff_steps : ∃ built, Forall2 step_from (rf_steps raw) built ∧ f_steps f ≡ₚ built;
  ff_variables k :
    match rf_vars raw !! k, rf_inputs raw !! k with
    | Some r, _ | None, Some r => ∃ v, f_variables f !! k = Some v ∧ variable_from r v
    | None, None => f_variables f !! k = None
    end;
  ff_freeze : f_freeze_on_last_step f = rf_freeze_on_last_step raw;
  ff_tier : tier_from (rf_tier raw) (f_tier f);
  ff_deterministic : f_deterministic f = rf_deterministic raw;
  ff_capabilities : Forall2 capability_from (rf_requires_capabilities raw) (f_requires_capabilities f);
}.

(** *** The fault each refusal names *)

(** A raw step of the given identifier that satisfies [P]. *)
Definition has_step (raw : raw_formula) (id : string) (P : raw_step → Prop) : Prop :=
  ∃ s, s ∈ rf_steps raw ∧ rs_id s = id ∧ P s.

Definition declares (s : raw_step) (kind : string) : Prop :=
  kind = "command" ∧ is_Some (rs_command s) ∨ kind = "native" ∧ is_Some (rs_native s) ∨
  kind = "query" ∧ is_Some (rs_query s) ∨ kind = "llm" ∧ is_Some (rs_llm s).

Definition query_lacks (q : raw_query_spec) (field : string) : Prop :=
  field = "expr" ∧ is_blank_text (rq_expr q) = true ∨ field = "source" ∧ is_blank_text (rq_source q) = true ∨
  field = "output_var" ∧ is_blank_text (rq_output_var q) = true.

Definition llm_lacks (l : raw_llm_spec) (field : string) : Prop :=
  field = "provider" ∧ is_blank_text (rl_provider l) = true ∨ field = "model" ∧ is_blank_text (rl_model l) = true ∨
  field = "prompt" ∧ rl_prompt l = None ∧ rl_prompt_file l = None ∨
  field = "output_path" ∧ rl_output_path l = EmptyString.

Definition level_is (raw : raw_formula) (n : N) (P : raw_tier → Prop) : Prop :=
  ∃ t, rf_tier raw = Some t ∧ rt_level t = n ∧ P t.

Definition tier_fault (raw : raw_formula) (e : tier_error) : Prop :=
  match e with
  | InvalidLevel n => level_is raw n (λ _, (2 < n)%N)
  | Tier0Nucleates id =>
      (rf_tier raw = None ∨ level_is raw 0 (λ _, True)) ∧
      has_step raw id (λ s, ∃ c, rs_command s = Some c ∧ mentions_nucleate c = true)
  | Tier1MissingMeasure =>
      level_is raw 1 (λ t, rt_measure t = None ∨ ∃ m, rt_measure t = Some m ∧ is_blank_text m = true)
  | Tier1MeasureNotReferenced m =>
      level_is raw 1 (λ t, rt_measure t = Some m) ∧
      (∀ s, s ∈ rf_steps raw → ¬ raw_mentions m s) ∧ contains_str m (rf_description raw) = false
  | Tier2Unsupported => level_is raw 2 (λ t, rt_signature t = None)
  | Tier2SignatureInvalid p => level_is raw 2 (λ t, rt_signature t = Some p)
  end.

Definition fault_of (raw : raw_formula) (e : formula_error) : Prop :=
  match e with
  | InvalidName m => rf_formula raw = EmptyString ∧ m = IdEmpty "FormulaId"
  | NoSteps => rf_steps raw = []
  | DuplicateStepId id =>
      ∃ i j, i < j ∧ (rs_id <$> rf_steps raw) !! i = Some id ∧ (rs_id <$> rf_steps raw) !! j = Some id
  | UnknownDependency id d => has_step raw id (λ s, d ∈ rs_needs s) ∧ d ∉ rs_id <$> rf_steps raw
  | CircularDependency n =>
      ∃ c, tc (edge_rel (need_edges (rf_steps raw))) c c ∧ rtc (edge_rel (need_edges (rf_steps raw))) c n
  | CommandAndNative id =>
      has_step raw id (λ s, is_Some (rs_command s) ∧ is_Some (rs_native s) ∧ rs_query s = None ∧ rs_llm s = None)
  | MultipleStepKinds id listed =>
      has_step raw id (λ s, ∃ kinds, listed = join_with ", " kinds ∧ 2 ≤ length kinds ∧ NoDup kinds ∧
        ∀ k, k ∈ kinds ↔ declares s k)
  | InvalidResponseArtifact id p =>
      has_step raw id (λ s, rs_response_artifact s = Some p) ∧
      (p = EmptyString ∨ is_absolute p = true ∨ ∃ c, c ∈ path_components p ∧ is_normal c = false)
  | QueryMissingField id field => has_step raw id (λ s, ∃ q, rs_query s = Some q ∧ query_lacks q field)
  | QueryUnknownSource id r =>
      has_step raw id (λ s, ∃ q, rs_query s = Some q ∧ rq_source q = r) ∧ (∀ q, ¬ source_from r q)
  | LlmMissingField id field => has_step raw id (λ s, ∃ l, rs_llm s = Some l ∧ llm_lacks l field)
  | LlmPromptAmbiguous id =>
      has_step raw id (λ s, ∃ l, rs_llm s = Some l ∧ is_Some (rl_prompt l) ∧ is_Some (rl_prompt_file l))
  | ParallelLimitZero id => has_step raw id (λ s, ∃ l, rs_parallel_limit s = Some l ∧ rp_max l = 0%N)
  | ParallelLimitUnknownMode id mode =>
      has_step raw id (λ s, ∃ l, rs_parallel_limit s = Some l ∧ rp_mode l = Some mode) ∧ mode ∉ ["static"; "smart"]
  | UnknownValidationMode id mode =>
      has_step raw id (λ s, rs_validation s = Some mode) ∧ mode ∉ ["mtime"; "blake3"; "sha256"; "keyed_blake3"]
  | UnknownCapability token accepted =>
      token ∈ rf_requires_capabilities raw ∧ (token ∉ ["shell"; "vcs"; "cs-cli"]) ∧ accepted = "shell, vcs, cs-cli"
  | TierViolation t => tier_fault raw t
  | TomlError _ | OrderPanic => False
  end.

(** ** The parts *)

Lemma all_in_None {A} (P : A → Prop) : all_in None P ↔ True.
Proof. unfold all_in. naive_solver. Qed.

Lemma all_in_Some {A} (a : A) P : all_in (Some a) P ↔ P a.
Proof. unfold all_in. naive_solver. Qed.

Lemma is_ok_ex {E A} (r : result E A) : (∃ a, r = Ok a) ↔ is_ok r = true.
Proof. destruct r; naive_solver. Qed.

Lemma build_parallel_limit_ok id raw :
  (∃ l, build_parallel_limit id raw = Ok l) ↔ all_in raw limit_valid.
Proof.
  rewrite is_ok_ex. unfold build_parallel_limit, limit_valid.
  destruct raw as [[max mode policy]|]; [rewrite all_in_Some|by rewrite all_in_None]. cbn.
  case_decide; [naive_solver|]. destruct mode as [mode|]; cbn; [|naive_solver].
  case_decide; [naive_solver|]. case_decide; naive_solver.
Qed.

Lemma build_parallel_limit_static id raw m :
  build_parallel_limit id raw = Ok (Some (Static m)) → (0 < m)%N.
Proof.
  unfold build_parallel_limit. destruct raw as [[max mode policy]|]; cbn; [|done].
  case_decide; [done|]. case_decide; [|by case_decide]. intros [= <-]. lia.
Qed.

Lemma build_validation_mode_ok id raw :
  (∃ m, build_validation_mode id raw = Ok m) ↔
  all_in raw (λ m, m ∈ ["mtime"; "blake3"; "sha256"; "keyed_blake3"]).
Proof.
  rewrite is_ok_ex. unfold build_validation_mode, validation_mode_parse.
  destruct raw as [mode|]; [rewrite all_in_Some|by rewrite all_in_None].
  repeat (case_decide; [set_solver|]). set_solver.
Qed.

Lemma parse_query_source_ok id raw :
  (∃ q, parse_query_source id raw = Ok q) ↔
  (trim raw ∈ ["state"; "molecule:current"; "prompt"; "briefing"; "events"] ∨
   ∃ rest i, strip_prefix "molecule:" (trim raw) = Some rest ∧ parse_inner rest = Ok i).
Proof.
  rewrite is_ok_ex. unfold parse_query_source. generalize (trim raw) as t; intros t.
  repeat (case_bool_decide; [set_solver|]). cbn [orb]. repeat (case_decide; [set_solver|]).
  destruct (strip_prefix "molecule:" t) as [rest|] eqn:Hs; [|set_solver].
  destruct (parse_inner rest) as [i|] eqn:Hp; cbn; [split; [intros _; right; eauto|done]|].
  split; [done|]. intros [Hin|(? & ? & [= <-] & ?)]; [set_solver|congruence].
Qed.

Lemma build_query_spec_ok id raw : (∃ q, build_query_spec id raw = Ok q) ↔ all_in raw query_valid.
Proof.
  unfold build_query_spec, query_valid.
  destruct raw as [[e src v]|]; [rewrite all_in_Some|rewrite all_in_None; naive_solver].
  cbn [rq_expr rq_source rq_output_var].
  destruct (is_blank_text e); [naive_solver|].
  destruct (is_blank_text src) eqn:Hsrc.
  { split; [naive_solver|]. intros (_ & _ & Hs). exfalso. unfold is_blank_text, is_empty in Hsrc.
    apply bool_decide_eq_true in Hsrc. rewrite Hsrc in Hs. destruct Hs as [Hs|(? & ? & ? & _)]; [set_solver|done]. }
  destruct (is_blank_text v); [naive_solver|].
  rewrite <- (parse_query_source_ok id src).
  destruct (parse_query_source id src); cbn; naive_solver.
Qed.

Lemma build_llm_spec_ok id raw : (∃ q, build_llm_spec id raw = Ok q) ↔ all_in raw llm_valid.
Proof.
  rewrite is_ok_ex. unfold build_llm_spec, llm_valid.
  destruct raw as [r|]; [rewrite all_in_Some|by rewrite all_in_None].
  destruct (is_blank_text (rl_provider r)); [naive_solver|].
  destruct (is_blank_text (rl_model r)); [naive_solver|].
  unfold is_empty, is_Some. destruct (rl_prompt r), (rl_prompt_file r); try naive_solver;
    case_bool_decide; naive_solver.
Qed.

Lemma check_response_artifact_ok id raw :
  (∃ u, check_response_artifact id raw = Ok u) ↔ all_in raw (λ p, validate_response_artifact_path p = true).
Proof.
  rewrite is_ok_ex. unfold check_response_artifact.
  destruct raw as [p|]; [rewrite all_in_Some|by rewrite all_in_None].
  by destruct (validate_response_artifact_path p).
Qed.

Lemma build_parallel_limit_from id raw l : build_parallel_limit id raw = Ok l → limit_from raw l.
Proof.
  unfold build_parallel_limit, limit_from. destruct raw as [[max mode policy]|]; cbn; [|naive_solver].
  case_decide; [done|]. case_decide as Hm; [|case_decide as Hm'; [|done]]; intros [= <-].
  - left. destruct mode; naive_solver.
  - right. destruct mode; cbn in *; subst; [|done]. split; [done|]. exists (default EmptyString policy).
    split; [done|]. destruct policy; naive_solver.
Qed.

Lemma build_validation_mode_from id raw m : build_validation_mode id raw = Ok m → mode_from raw m.
Proof.
  unfold build_validation_mode, validation_mode_parse, mode_from. destruct raw as [r|]; [|by intros [= <-]].
  repeat (case_decide; [subst; by intros [= <-]|]). done.
Qed.

Lemma parse_query_source_from id raw q : parse_query_source id raw = Ok q → source_from raw q.
Proof.
  unfold parse_query_source, source_from. generalize (trim raw) as t; intros t.
  case_bool_decide as H1; [intros [= <-]; by left|]. case_bool_decide as H2; [intros [= <-]; by right|]. cbn [orb].
  repeat (case_decide; [by intros [= <-]|]).
  destruct (strip_prefix "molecule:" t) as [rest|] eqn:Hs; [|done].
  destruct (parse_inner rest) as [i|] eqn:Hp; [|done]. intros [= <-]. split; [done|]. exists rest. done.
Qed.

Lemma source_from_parsed id raw q : source_from raw q → ∃ q', parse_query_source id raw = Ok q'.
Proof.
  rewrite parse_query_source_ok. destruct q as [|i| | |]; cbn.
  - intros [-> | ->]; left; set_solver.
  - intros (_ & rest & ?). right. eauto.
  - intros ->; left; set_solver.
  - intros ->; left; set_solver.
  - intros ->; left; set_solver.
Qed.

Lemma build_query_spec_from id raw q : build_query_spec id raw = Ok q → query_from raw q.
Proof.
  unfold build_query_spec. destruct raw as [r|]; [|by intros [= <-]].
  repeat (destruct (is_blank_text _); [done|]).
  destruct (parse_query_source id (rq_source r)) as [src|] eqn:Hp; cbn; [|done]. intros [= <-].
  split_and!; [done| |done]. by eapply parse_query_source_from.
Qed.

Lemma build_llm_spec_from id raw l : build_llm_spec id raw = Ok l → llm_from raw l.
Proof.
  unfold build_llm_spec. destruct raw as [r|]; [|by intros [= <-]].
  repeat (destruct (is_blank_text _); [done|]).
  destruct (rl_prompt r) eqn:Hp, (rl_prompt_file r) eqn:Hf; try done; (destruct (is_empty _); [done|]);
    intros [= <-]; cbn; by rewrite Hp, Hf.
Qed.

Lemma kinds_error_none s : kinds_error s = None ↔ length (step_kinds s) ≤ 1.
Proof.
  unfold kinds_error. destruct (step_kinds s) as [|k [|k' l]]; cbn; [naive_solver lia..|].
  split; [by case_decide|lia].
Qed.

Lemma first_error_none f steps : first_error f steps = None ↔ ∀ s, s ∈ steps → f s = None.
Proof.
  induction steps as [|s steps IH]; cbn; [set_solver|]. destruct (f s) as [e|] eqn:Hf; [set_solver|].
  rewrite IH. set_solver.
Qed.

Lemma first_error_some f steps e : first_error f steps = Some e → ∃ s, s ∈ steps ∧ f s = Some e.
Proof.
  induction steps as [|s steps IH]; cbn; [done|]. destruct (f s) as [e'|] eqn:Hf.
  - intros [= ->]. exists s. split; [by left|done].
  - intros (z & ? & ?)%IH. exists z. split; [by right|done].
Qed.

Lemma duplicate_step_none seen steps :
  duplicate_step seen steps = None ↔
  NoDup (rs_id <$> steps) ∧ ∀ s, s ∈ steps → rs_id s ∉ seen.
Proof.
  revert seen. induction steps as [|s steps IH]; intros seen; cbn.
  { split; [split; [constructor|set_solver]|done]. }
  rewrite NoDup_cons. case_decide as Hs; [set_solver|]. rewrite IH, list_elem_of_fmap. set_solver.
Qed.

Lemma unknown_need_none known s : unknown_need known s = None ↔ ∀ d, d ∈ rs_needs s → d ∈ known.
Proof.
  unfold unknown_need. destruct (list_find _ _) as [[i d]|] eqn:Hf.
  - apply list_find_Some in Hf as (Hd & Hnot & _). apply list_elem_of_lookup_2 in Hd. naive_solver.
  - apply list_find_None in Hf. rewrite Forall_forall in Hf. split; [|done].
    intros _ d Hd. destruct (decide (d ∈ known)); [done|]. by destruct (Hf d Hd).
Qed.

Lemma build_capability_ok token :
  (∃ c, build_capability token = Ok c) ↔ token ∈ ["shell"; "vcs"; "cs-cli"].
Proof.
  rewrite is_ok_ex. unfold build_capability, capability_from_str.
  repeat (case_decide; [set_solver|]). set_solver.
Qed.

Lemma mapM_ok {E A B} (f : A → result E B) l :
  (∃ k, mapM f l = Ok k) ↔ ∀ x, x ∈ l → ∃ y, f x = Ok y.
Proof.
  induction l as [|x l IH]; cbn; [set_solver|]. split.
  - intros [k Hk]. destruct (f x) as [y|] eqn:Hf; cbn in Hk; [|done].
    destruct (mapM f l) as [k'|] eqn:Hl; cbn in Hk; [|done].
    destruct IH as [IH _]. intros z [->|Hz]%elem_of_cons; [eauto|]. by apply IH; [eauto|].
  - intros Hall. destruct (Hall x) as [y ->]; [left|]. cbn.
    destruct IH as [_ IH]. destruct IH as [k ->]; [|cbn; eauto]. intros z Hz. apply Hall. by right.
Qed.

Lemma mapM_Forall2 {E A B} (f : A → result E B) l k :
  mapM f l = Ok k → Forall2 (λ x y, f x = Ok y) l k.
Proof.
  revert k. induction l as [|x l IH]; intros k; cbn; [intros [= <-]; constructor|].
  destruct (f x) as [y|] eqn:Hf; cbn; [|done]. destruct (mapM f l) as [k'|] eqn:Hl; cbn; [|done].
  intros [= <-]. constructor; auto.
Qed.

(** ** The order *)

Lemma order_of_lookup ordered id i : NoDup ordered → order_of ordered id = Some i ↔ ordered !! i = Some id.
Proof.
  intros Hnd. unfold order_of. split.
  - destruct (list_find _ _) as [[j x]|] eqn:Hf; [|done]. intros [= <-].
    by apply list_find_Some in Hf as (Hl & -> & _).
  - intros Hl. assert (list_find (λ x, x = id) ordered = Some (i, id)) as ->; [|done].
    apply list_find_Some. split_and!; [done|done|]. intros j y Hj Hlt ->.
    assert (j = i) by (by eapply NoDup_lookup). lia.
Qed.

Lemma elem_of_need_edges steps d id :
  (d, id) ∈ need_edges steps ↔ ∃ s, s ∈ steps ∧ rs_id s = id ∧ d ∈ rs_needs s.
Proof.
  unfold need_edges. rewrite list_elem_of_bind. split.
  - intros (s & (d' & [= -> ->] & Hd)%list_elem_of_fmap & Hs). eauto.
  - intros (s & Hs & <- & Hd). exists s. rewrite list_elem_of_fmap. eauto.
Qed.

(** In [l], [a] comes before [b]. *)
Definition comes_before (l : list string) (a b : string) : Prop :=
  ∃ i j, i < j ∧ l !! i = Some a ∧ l !! j = Some b.

Lemma comes_before_app_l l k a b : comes_before l a b → comes_before (l ++ k) a b.
Proof. intros (i & j & ? & ? & ?). exists i, j. split_and!; [done|by apply lookup_app_l_Some..]. Qed.

Lemma topo_ordered_before edges (l : list string) d n :
  topo_ordered edges l → (d, n) ∈ edges → n ∈ l → comes_before l d n.
Proof.
  intros Ht He Hn. apply list_elem_of_split in Hn as (l1 & l2 & ->).
  assert (d ∈ l1) as [i Hi]%list_elem_of_lookup by (by eapply Ht).
  exists i, (length l1). split_and!.
  - by apply lookup_lt_Some in Hi.
  - by apply lookup_app_l_Some.
  - by apply list_lookup_middle.
Qed.

Section Order.
Context `{!HashOrder string}.

Lemma topological_sort_ok steps :
  (∃ l, topological_sort steps = Ok l) ↔ acyclic (need_edges steps).
Proof.
  rewrite <- toposort_ok_iff_acyclic, !is_ok_ex. unfold topological_sort.
  destruct (toposort _) as [l|[n|]]; done.
Qed.

Lemma topological_sort_error steps e :
  topological_sort steps = Err e → ∃ n, e = CircularDependency n ∧
    ∃ c, tc (edge_rel (need_edges steps)) c c ∧ rtc (edge_rel (need_edges steps)) c n.
Proof.
  unfold topological_sort. destruct (toposort_cases (need_edges steps)) as [(l & -> & _)|(n & -> & ?)]; [done|].
  intros [= <-]. eauto.
Qed.

Lemma topological_sort_spec steps ordered :
  NoDup (rs_id <$> steps) → (∀ s d, s ∈ steps → d ∈ rs_needs s → d ∈ rs_id <$> steps) →
  topological_sort steps = Ok ordered →
  ordered ≡ₚ rs_id <$> steps ∧
  ∀ s d, s ∈ steps → d ∈ rs_needs s → comes_before ordered d (rs_id s).
Proof.
  intros Hnd Hneeds. unfold topological_sort.
  destruct (toposort_cases (need_edges steps)) as [(l & -> & Hl & Hn & Ht)|(n & -> & _)]; [|done].
  intros [= <-].
  assert (∀ id, id ∈ l → id ∈ rs_id <$> steps) as Hin.
  { intros id Hid. apply Hn, elem_of_nodes_of in Hid as ([a b] & He & Hid).
    apply elem_of_need_edges in He as (s & Hs & <- & Hd).
    cbn in Hid. destruct Hid as [->| ->]; [by eapply Hneeds|]. apply list_elem_of_fmap. eauto. }
  split.
  - apply NoDup_Permutation.
    + apply NoDup_app. split_and!; [done| |by apply sort_ids_NoDup, NoDup_filter].
      intros id Hid Hf. by apply elem_of_sort_ids, list_elem_of_filter in Hf as [? _].
    + done.
    + intros id. rewrite elem_of_app, elem_of_sort_ids, list_elem_of_filter.
      destruct (decide (id ∈ l)); naive_solver.
  - intros s d Hs Hd. apply comes_before_app_l.
    assert ((d, rs_id s) ∈ need_edges steps) as He by (apply elem_of_need_edges; eauto).
    eapply topo_ordered_before; [done..|]. apply Hn, elem_of_nodes_of. exists (d, rs_id s). auto.
Qed.
End Order.

(** A list sorted by numbers that fill an interval is indexed by them. *)
Lemma sorted_orders {A} (order : A → nat) l :
  (order <$> l) ≡ₚ seq 0 (length l) → order <$> sort_by order l = seq 0 (length l).
Proof.
  intros Hp. apply (StronglySorted_unique le).
  - pose proof (sort_by_sorted order l) as Hs. induction Hs as [|x k Hs IH Hx]; cbn; [constructor|].
    constructor; [done|]. by rewrite Forall_fmap.
  - generalize 0. generalize (length l). clear. intros n. induction n as [|n IH]; intros k; cbn; constructor; [done|].
    rewrite Forall_forall. intros x ?%elem_of_seq. lia.
  - by rewrite (sort_by_perm order l).
Qed.

(** ** Parsing *)

Section Correct.
Context `{!HashOrder string}.

Lemma build_step_ok ordered s :
  length (step_kinds s) ≤ 1 → (∃ i, order_of ordered (rs_id s) = Some i) →
  (∃ st, build_step ordered s = Ok st) ↔ step_valid s.
Proof.
  intros Hk [i Hi]. unfold build_step. rewrite Hi.
  assert (step_valid s ↔
    (∃ l, build_parallel_limit (rs_id s) (rs_parallel_limit s) = Ok l) ∧
    (∃ m, build_validation_mode (rs_id s) (rs_validation s) = Ok m) ∧
    (∃ q, build_query_spec (rs_id s) (rs_query s) = Ok q) ∧
    (∃ q, build_llm_spec (rs_id s) (rs_llm s) = Ok q) ∧
    ∃ u, check_response_artifact (rs_id s) (rs_response_artifact s) = Ok u) as ->.
  { rewrite build_parallel_limit_ok, build_validation_mode_ok, build_query_spec_ok, build_llm_spec_ok,
      check_response_artifact_ok. split; [by intros []|by intros (? & ? & ? & ? & ?); constructor]. }
  destruct (build_parallel_limit _ _); cbn; [|naive_solver].
  destruct (build_validation_mode _ _); cbn; [|naive_solver].
  destruct (build_query_spec _ _); cbn; [|naive_solver].
  destruct (build_llm_spec _ _); cbn; [|naive_solver].
  destruct (check_response_artifact _ _); cbn; naive_solver.
Qed.

(** What a built step keeps, and what the checks use of it. *)
Record built_from (ordered : list string) (s : raw_step) (st : fstep) : Prop := {
  bf_step : step_from s st;
  bf_id : s_id st = rs_id s;
  bf_order : order_of ordered (rs_id s) = Some (s_order st);
  bf_deps : s_depends_on st = rs_needs s;
  bf_command : s_command st = rs_command s;
  bf_kinds : kinds_of st = length (step_kinds s);
  bf_limit m : s_parallel_limit st = Some (Static m) → (0 < m)%N;
  bf_mentions m : step_mentions m st = true ↔ raw_mentions m s;
}.

Lemma build_query_spec_some id raw q : build_query_spec id raw = Ok q → is_some q = is_some raw.
Proof.
  unfold build_query_spec. destruct raw as [r|]; [|by intros [= <-]].
  repeat (destruct (is_blank_text _); [done|]).
  destruct (parse_query_source _ _); cbn; [|done]. by intros [= <-].
Qed.

Lemma build_llm_spec_some id raw q : build_llm_spec id raw = Ok q → is_some q = is_some raw.
Proof.
  unfold build_llm_spec. destruct raw as [r|]; [|by intros [= <-]].
  repeat (destruct (is_blank_text _); [done|]).
  destruct (rl_prompt r), (rl_prompt_file r); try done; destruct (is_empty _); try done; by intros [= <-].
Qed.

Lemma build_step_from ordered s st : build_step ordered s = Ok st → built_from ordered s st.
Proof.
  unfold build_step. destruct (order_of ordered (rs_id s)) as [i|] eqn:Hi; [|done].
  destruct (build_parallel_limit _ _) as [l|] eqn:Hl; cbn; [|done].
  destruct (build_validation_mode _ _) as [m|] eqn:Hm; cbn; [|done].
  destruct (build_query_spec _ _) as [q|] eqn:Hq; cbn; [|done].
  destruct (build_llm_spec _ _) as [ll|] eqn:Hll; cbn; [|done].
  destruct (check_response_artifact _ _); cbn; [|done]. intros [= <-].
  constructor; try done; cbn.
  - constructor; cbn; eauto using build_parallel_limit_from, build_validation_mode_from,
      build_query_spec_from, build_llm_spec_from.
  - apply build_query_spec_some in Hq. apply build_llm_spec_some in Hll.
    unfold kinds_of, step_kinds, is_gate, is_native, is_query, is_llm. cbn [s_command s_native s_query s_llm].
    rewrite Hq, Hll.
    by destruct (rs_command s), (rs_native s), (rs_query s), (rs_llm s).
  - intros n ->. by eapply build_parallel_limit_static.
  - intros n. unfold step_mentions, raw_mentions. cbn. rewrite !orb_true_iff.
    destruct (rs_acceptance s) as [c|]; naive_solver.
Qed.

Lemma built_in_order (ids ordered : list string) raws built :
  ids = rs_id <$> raws → NoDup ids → ordered ≡ₚ ids → Forall2 (built_from ordered) raws built →
  s_id <$> sort_by s_order built = ordered ∧
  ∀ i s, sort_by s_order built !! i = Some s → s_order s = i.
Proof.
  intros -> Hnd Hp Hb. set (pos id := default 0 (order_of ordered id)).
  assert (NoDup ordered) as Hno by (by rewrite Hp).
  assert (s_order <$> built = pos <$> (rs_id <$> raws)) as Hpos.
  { clear Hnd Hp. induction Hb as [|s st raws built Hs Hb IH]; [done|]. rewrite !fmap_cons, IH. f_equal.
    unfold pos. by rewrite (bf_order _ _ _ Hs). }
  assert (pos <$> ordered = seq 0 (length ordered)) as Hseq.
  { apply list_eq. intros i. rewrite list_lookup_fmap. destruct (ordered !! i) as [id|] eqn:Hi; cbn.
    - rewrite lookup_seq_lt by (by eapply lookup_lt_Some). f_equal. unfold pos.
      by rewrite (proj2 (order_of_lookup ordered id i Hno) Hi).
    - symmetry. apply lookup_ge_None in Hi. by apply lookup_seq_ge. }
  assert (length built = length ordered) as Hlen.
  { rewrite Hp, length_fmap. symmetry. by eapply Forall2_length. }
  assert (s_order <$> sort_by s_order built = seq 0 (length built)) as Hord.
  { apply sorted_orders. by rewrite Hpos, <- Hp, Hseq, Hlen. }
  assert (∀ i s, sort_by s_order built !! i = Some s → s_order s = i) as Hi.
  { intros i s Hs. assert ((s_order <$> sort_by s_order built) !! i = Some (s_order s)) as Hsi
      by (by rewrite list_lookup_fmap, Hs).
    rewrite Hord in Hsi. by apply lookup_seq in Hsi as [-> _]. }
  split; [|done]. apply list_eq. intros i. rewrite list_lookup_fmap.
  destruct (sort_by s_order built !! i) as [s|] eqn:Hs; cbn.
  - symmetry. apply order_of_lookup; [done|]. specialize (Hi i s Hs).
    apply list_elem_of_lookup_2 in Hs. rewrite (sort_by_perm s_order built) in Hs.
    apply list_elem_of_lookup in Hs as [j Hj].
    destruct (Forall2_lookup_r _ _ _ _ _ Hb Hj) as (r & Hr & Hbf).
    by rewrite (bf_id _ _ _ Hbf), (bf_order _ _ _ Hbf), Hi.
  - symmetry. apply lookup_ge_None. apply lookup_ge_None in Hs.
    rewrite <- Hlen, <- (Permutation_length (sort_by_perm s_order built)). done.
Qed.

(** The formula that [parse_raw] answers, with what it was built from. *)
Definition assembled (raw : raw_formula) (built : list fstep) (t : tier) (caps : list worker_capability) : formula :=
  Formula_ (rf_formula raw) (rf_version raw) (rf_description raw) (rf_id_prefix raw) (rf_type raw)
    (sort_by s_order built) (build_variable <$> rf_vars raw ∪ rf_inputs raw)
    (rf_freeze_on_last_step raw) t (rf_deterministic raw) caps.

Lemma simple_id_ok kind s : (∃ x, simple_id_new kind s = Ok x) ↔ s ≠ EmptyString.
Proof. unfold simple_id_new, is_empty. case_bool_decide; naive_solver. Qed.

Lemma simple_id_same kind s x : simple_id_new kind s = Ok x → x = s.
Proof. unfold simple_id_new. destruct (is_empty s); [done|]. by intros [= <-]. Qed.

Lemma map_err_ok {E F A} (f : E → F) (r : result E A) a : map_err f r = Ok a ↔ r = Ok a.
Proof. destruct r; naive_solver. Qed.

Lemma parse_raw_stages raw f :
  parse_raw raw = Ok f ↔
  rf_formula raw ≠ EmptyString ∧ rf_steps raw ≠ [] ∧ NoDup (rs_id <$> rf_steps raw) ∧
  (∀ s, s ∈ rf_steps raw → length (step_kinds s) ≤ 1) ∧
  (∀ s, s ∈ rf_steps raw → ∀ d, d ∈ rs_needs s → d ∈ rs_id <$> rf_steps raw) ∧
  ∃ ordered built t caps,
    topological_sort (rf_steps raw) = Ok ordered ∧ mapM (build_step ordered) (rf_steps raw) = Ok built ∧
    build_tier (rf_tier raw) = Ok t ∧ mapM build_capability (rf_requires_capabilities raw) = Ok caps ∧
    f = assembled raw built t caps ∧ validate_tier f = Ok tt.
Proof.
  unfold parse_raw. rewrite <- (simple_id_ok "FormulaId").
  destruct (simple_id_new "FormulaId" (rf_formula raw)) as [name|] eqn:Hname; [|naive_solver].
  cbn [map_err mbind result_bind]. apply simple_id_same in Hname as ->.
  destruct (rf_steps raw) as [|s0 steps'] eqn:Hsteps; [naive_solver|].
  assert (rf_steps raw ≠ []) as Hne by (by rewrite Hsteps). rewrite <- Hsteps. clear Hsteps.
  destruct (duplicate_step ∅ _) as [id|] eqn:Hd.
  { split; [done|]. intros (_ & _ & Hnd & _).
    assert (duplicate_step ∅ (rf_steps raw) = None); [|congruence]. apply duplicate_step_none. set_solver. }
  apply duplicate_step_none in Hd as [Hnd _].
  destruct (first_error kinds_error _) as [e|] eqn:Hk.
  { split; [done|]. intros (_ & _ & _ & Hks & _).
    assert (first_error kinds_error (rf_steps raw) = None); [|congruence].
    apply first_error_none. intros s Hs. by apply kinds_error_none, Hks. }
  rewrite first_error_none in Hk. setoid_rewrite kinds_error_none in Hk.
  destruct (first_error (unknown_need _) _) as [e|] eqn:Hu.
  { split; [done|]. intros (_ & _ & _ & _ & Hus & _).
    assert (first_error (unknown_need (rs_id <$> rf_steps raw)) (rf_steps raw) = None); [|congruence].
    apply first_error_none. intros s Hs. by apply unknown_need_none, Hus. }
  rewrite first_error_none in Hu. setoid_rewrite unknown_need_none in Hu.
  transitivity (∃ ordered built t caps,
    topological_sort (rf_steps raw) = Ok ordered ∧ mapM (build_step ordered) (rf_steps raw) = Ok built ∧
    build_tier (rf_tier raw) = Ok t ∧ mapM build_capability (rf_requires_capabilities raw) = Ok caps ∧
    f = assembled raw built t caps ∧ validate_tier f = Ok tt);
    [|split; [intros Hx; split_and!; eauto|by intros (_ & _ & _ & _ & _ & Hx)]].
  split.
  - destruct (topological_sort _) as [ordered|] eqn:Ht; [|done]. cbn [map_err mbind result_bind].
    destruct (mapM _ (rf_steps raw)) as [built|] eqn:Hb; [|done]. cbn [map_err mbind result_bind].
    destruct (build_tier _) as [t|] eqn:Hbt; [|done]. cbn [map_err mbind result_bind].
    destruct (mapM build_capability _) as [caps|] eqn:Hc; [|done]. cbn [map_err mbind result_bind].
    change (Formula_ _ _ _ _ _ _ _ _ _ _ _) with (assembled raw built t caps).
    destruct (validate_tier _) as [[]|] eqn:Hv; [|done]. intros [= <-].
    exists ordered, built, t, caps. done.
  - intros (ordered & built & t & caps & -> & Hb & Hbt & Hc & -> & Hv).
    cbn [map_err mbind result_bind]. rewrite Hb. cbn [map_err mbind result_bind].
    rewrite Hbt. cbn [map_err mbind result_bind]. rewrite Hc. cbn [map_err mbind result_bind].
    change (Formula_ _ _ _ _ _ _ _ _ _ _ _) with (assembled raw built t caps). by rewrite Hv.
Qed.

Lemma Forall2_elem_l {A B} (R : A → B → Prop) l k x : Forall2 R l k → x ∈ l → ∃ y, y ∈ k ∧ R x y.
Proof.
  intros Hr [i Hi]%list_elem_of_lookup. destruct (Forall2_lookup_l _ _ _ _ _ Hr Hi) as (y & Hy & ?).
  exists y. split; [by eapply list_elem_of_lookup_2|done].
Qed.

Lemma Forall2_elem_r {A B} (R : A → B → Prop) l k y : Forall2 R l k → y ∈ k → ∃ x, x ∈ l ∧ R x y.
Proof. intros Hr%Forall2_flip Hy. by destruct (Forall2_elem_l _ _ _ _ Hr Hy) as (x & ? & ?); eauto. Qed.

Lemma nucleates_built ordered raws built :
  Forall2 (built_from ordered) raws built →
  (∀ st, st ∈ built → step_nucleates st = false) ↔
  ∀ s c, s ∈ raws → rs_command s = Some c → mentions_nucleate c = false.
Proof.
  intros Hb. split.
  - intros Hall s c Hs Hc. destruct (Forall2_elem_l _ _ _ _ Hb Hs) as (st & Hst & Hbf).
    specialize (Hall st Hst). unfold step_nucleates in Hall. by rewrite (bf_command _ _ _ Hbf), Hc in Hall.
  - intros Hall st Hst. destruct (Forall2_elem_r _ _ _ _ Hb Hst) as (s & Hs & Hbf).
    unfold step_nucleates. rewrite (bf_command _ _ _ Hbf). destruct (rs_command s) as [c|] eqn:Hc; eauto.
Qed.

Lemma mentions_built ordered raws built m :
  Forall2 (built_from ordered) raws built →
  (∃ st, st ∈ built ∧ step_mentions m st = true) ↔ ∃ s, s ∈ raws ∧ raw_mentions m s.
Proof.
  intros Hb. split.
  - intros (st & Hst & Hm). destruct (Forall2_elem_r _ _ _ _ Hb Hst) as (s & Hs & Hbf).
    exists s. split; [done|]. by apply (bf_mentions _ _ _ Hbf).
  - intros (s & Hs & Hm). destruct (Forall2_elem_l _ _ _ _ Hb Hs) as (st & Hst & Hbf).
    exists st. split; [done|]. by apply (bf_mentions _ _ _ Hbf).
Qed.

Lemma validate_tier_ok f : validate_tier f = Ok tt ↔ tier_ok f.
Proof.
  unfold validate_tier, tier_ok. destruct (f_tier f) as [|m|sg]; [| |done].
  - destruct (list_find _ _) as [[i s]|] eqn:Hf.
    + apply list_find_Some in Hf as (Hs%list_elem_of_lookup_2 & Hn & _).
      split; [done|]. intros Hall. rewrite (Hall s Hs) in Hn. done.
    + apply list_find_None in Hf. rewrite Forall_forall in Hf. split; [|done]. intros _ s Hs.
      specialize (Hf s Hs). by destruct (step_nucleates s).
  - destruct (is_blank_text m); [naive_solver|].
    assert (existsb (step_mentions m) (f_steps f) = true ↔ ∃ s, s ∈ f_steps f ∧ step_mentions m s = true) as He
      by (rewrite existsb_exists; setoid_rewrite list_elem_of_In; done).
    destruct (existsb _ _), (contains_str m (f_description f)); cbn; naive_solver.
Qed.

Lemma build_tier_ok raw t :
  build_tier raw = Ok t ↔
  match raw with
  | None => t = TierZero
  | Some r => rt_level r = 0%N ∧ t = TierZero ∨ rt_level r = 1%N ∧ ∃ m, rt_measure r = Some m ∧ t = TierOne m
  end.
Proof.
  unfold build_tier. destruct raw as [r|]; [|naive_solver].
  case_decide as H0; [rewrite H0; naive_solver|]. case_decide as H1; [rewrite H1; destruct (rt_measure r); naive_solver|].
  case_decide; [destruct (rt_signature r); naive_solver|naive_solver].
Qed.

Lemma tier_exact raw built ordered :
  Forall2 (built_from ordered) (rf_steps raw) built →
  (∃ t, build_tier (rf_tier raw) = Ok t ∧ ∀ caps, tier_ok (assembled raw built t caps)) ↔ tier_valid raw.
Proof.
  intros Hb. setoid_rewrite build_tier_ok.
  assert (∀ caps, tier_ok (assembled raw built TierZero caps) ↔
    ∀ s c, s ∈ rf_steps raw → rs_command s = Some c → mentions_nucleate c = false) as Hzero.
  { intros caps. rewrite <- (nucleates_built _ _ _ Hb). unfold tier_ok. cbn.
    by setoid_rewrite (sort_by_perm s_order built). }
  assert (∀ m caps, tier_ok (assembled raw built (TierOne m) caps) ↔
    is_blank_text m = false ∧
    ((∃ s, s ∈ rf_steps raw ∧ raw_mentions m s) ∨ contains_str m (rf_description raw) = true)) as Hone.
  { intros m caps. rewrite <- (mentions_built _ _ _ _ Hb). unfold tier_ok. cbn.
    by setoid_rewrite (sort_by_perm s_order built). }
  unfold tier_valid. destruct (rf_tier raw) as [r|].
  - split.
    + intros (t & [[Hl ->]|(Hl & m & Hm & ->)] & Hok); specialize (Hok []); [left|right].
      * by rewrite Hzero in Hok.
      * rewrite Hone in Hok. naive_solver.
    + intros [[Hl Hok]|(Hl & m & Hm & Hok)].
      * exists TierZero. split; [by left|]. intros caps. by rewrite Hzero.
      * exists (TierOne m). split; [right; eauto|]. intros caps. by rewrite Hone.
  - split; [intros (t & -> & Hok); by rewrite <- (Hzero [])|].
    intros Hok. exists TierZero. split; [done|]. intros caps. by rewrite Hzero.
Qed.

Lemma mapM_error {E A B} (f : A → result E B) l e : mapM f l = Err e → ∃ x, x ∈ l ∧ f x = Err e.
Proof.
  induction l as [|x l IH]; cbn; [done|]. destruct (f x) as [y|e'] eqn:Hf; cbn.
  - destruct (mapM f l) as [k|e'] eqn:Hl; cbn; [done|]. intros [= ->].
    destruct IH as (z & ? & ?); [done|]. exists z. split; [by right|done].
  - intros [= ->]. exists x. split; [by left|done].
Qed.

(** *** Every refusal names a fault *)

Lemma has_step_here raw s (P : raw_step → Prop) : s ∈ rf_steps raw → P s → has_step raw (rs_id s) P.
Proof. exists s. done. Qed.

Lemma limit_fault raw s e :
  s ∈ rf_steps raw → build_parallel_limit (rs_id s) (rs_parallel_limit s) = Err e → fault_of raw e.
Proof.
  intros Hs. unfold build_parallel_limit. destruct (rs_parallel_limit s) as [l|] eqn:Hl; [|done].
  case_decide; [intros [= <-]; cbn; apply has_step_here; eauto|].
  case_decide as H1; [done|]. case_decide as H2; [done|]. intros [= <-]. cbn in *.
  destruct (rp_mode l) as [m|] eqn:Hm; cbn in *; [|done].
  split; [apply has_step_here; eauto|set_solver].
Qed.

Lemma mode_fault raw s e :
  s ∈ rf_steps raw → build_validation_mode (rs_id s) (rs_validation s) = Err e → fault_of raw e.
Proof.
  intros Hs. unfold build_validation_mode, validation_mode_parse.
  destruct (rs_validation s) as [m|] eqn:Hm; [|done].
  repeat (case_decide; [done|]). intros [= <-]. split; [by apply has_step_here|set_solver].
Qed.

Lemma query_fault raw s e :
  s ∈ rf_steps raw → build_query_spec (rs_id s) (rs_query s) = Err e → fault_of raw e.
Proof.
  intros Hs. unfold build_query_spec. destruct (rs_query s) as [q|] eqn:Hq; [|done].
  destruct (is_blank_text (rq_expr q)) eqn:H1;
    [intros [= <-]; apply has_step_here; [done|]; exists q; split; [done|]; by left|].
  destruct (is_blank_text (rq_source q)) eqn:H2;
    [intros [= <-]; apply has_step_here; [done|]; exists q; split; [done|]; by right; left|].
  destruct (is_blank_text (rq_output_var q)) eqn:H3;
    [intros [= <-]; apply has_step_here; [done|]; exists q; split; [done|]; by right; right|].
  destruct (parse_query_source (rs_id s) (rq_source q)) as [src|e'] eqn:Hp; cbn; [done|]. intros [= ->].
  assert (e = QueryUnknownSource (rs_id s) (rq_source q)) as ->.
  { unfold parse_query_source in Hp. repeat case_match; congruence. }
  split; [apply has_step_here; eauto|]. intros src Hsrc.
  destruct (source_from_parsed (rs_id s) _ _ Hsrc) as [? ?]. congruence.
Qed.

Lemma llm_fault raw s e :
  s ∈ rf_steps raw → build_llm_spec (rs_id s) (rs_llm s) = Err e → fault_of raw e.
Proof.
  intros Hs. unfold build_llm_spec. destruct (rs_llm s) as [l|] eqn:Hl; [|done].
  assert (∀ field, llm_lacks l field → fault_of raw (LlmMissingField (rs_id s) field)) as Hlack
    by (intros field ?; apply has_step_here; eauto).
  unfold llm_lacks in Hlack.
  destruct (is_blank_text (rl_provider l)) eqn:H1; [intros [= <-]; apply Hlack; naive_solver|].
  destruct (is_blank_text (rl_model l)) eqn:H2; [intros [= <-]; apply Hlack; naive_solver|].
  destruct (is_empty (rl_output_path l)) eqn:H3.
  - apply bool_decide_eq_true in H3.
    destruct (rl_prompt l) eqn:Hp, (rl_prompt_file l) eqn:Hf; intros [= <-]; try (apply Hlack; naive_solver).
    apply has_step_here; [done|]. exists l. split_and!; eauto.
  - destruct (rl_prompt l) eqn:Hp, (rl_prompt_file l) eqn:Hf; intros [= <-]; try (apply Hlack; naive_solver).
    apply has_step_here; [done|]. exists l. split_and!; eauto.
Qed.

Lemma artifact_fault raw s e :
  s ∈ rf_steps raw → check_response_artifact (rs_id s) (rs_response_artifact s) = Err e → fault_of raw e.
Proof.
  intros Hs. unfold check_response_artifact. destruct (rs_response_artifact s) as [p|] eqn:Hp; [|done].
  destruct (validate_response_artifact_path p) eqn:Hv; [done|]. intros [= <-].
  split; [by apply has_step_here|]. unfold validate_response_artifact_path in Hv.
  rewrite !andb_false_iff, !negb_false_iff in Hv. destruct Hv as [[Hv|Hv]|Hv].
  - left. by apply bool_decide_eq_true in Hv.
  - by right; left.
  - right; right. revert Hv. generalize (path_components p) as cs. intros cs.
    induction cs as [|c cs IH]; cbn; [done|]. destruct (is_normal c) eqn:Hc; cbn; [|exists c; split; [by left|done]].
    intros (c' & ? & ?)%IH. exists c'. split; [by right|done].
Qed.

Lemma build_step_fault ordered raw s e :
  s ∈ rf_steps raw → rs_id s ∈ ordered → build_step ordered s = Err e → fault_of raw e.
Proof.
  intros Hs Hin. unfold build_step, order_of. destruct (list_find _ _) as [[i x]|] eqn:Hf.
  2:{ apply list_find_None in Hf. rewrite Forall_forall in Hf. by destruct (Hf _ Hin). }
  cbn [fmap option_fmap option_map fst].
  destruct (build_parallel_limit _ _) eqn:H1; cbn [mbind result_bind]; [|intros [= <-]; by eapply limit_fault].
  destruct (build_validation_mode _ _) eqn:H2; cbn [mbind result_bind]; [|intros [= <-]; by eapply mode_fault].
  destruct (build_query_spec _ _) eqn:H3; cbn [mbind result_bind]; [|intros [= <-]; by eapply query_fault].
  destruct (build_llm_spec _ _) eqn:H4; cbn [mbind result_bind]; [|intros [= <-]; by eapply llm_fault].
  destruct (check_response_artifact _ _) eqn:H5; cbn [mbind result_bind]; [done|].
  intros [= <-]; by eapply artifact_fault.
Qed.

Lemma kinds_fault raw s e : s ∈ rf_steps raw → kinds_error s = Some e → fault_of raw e.
Proof.
  intros Hs He.
  assert (NoDup (step_kinds s) ∧ ∀ k, k ∈ step_kinds s ↔ declares s k) as [Hnd Hk].
  { unfold step_kinds, declares. split.
    - destruct (rs_command s), (rs_native s), (rs_query s), (rs_llm s); cbn; by refine (bool_decide_unpack _ _).
    - intros k. unfold is_Some.
      destruct (rs_command s), (rs_native s), (rs_query s), (rs_llm s); cbn;
        rewrite ?elem_of_cons, elem_of_nil; naive_solver. }
  unfold kinds_error in He. destruct (step_kinds s) as [|k1 [|k2 ks]] eqn:Hsk; [done..|].
  case_decide as Hcn; injection He as <-.
  - apply has_step_here; [done|]. rewrite Hcn in Hsk. unfold step_kinds in Hsk.
    destruct (rs_command s), (rs_native s), (rs_query s), (rs_llm s); cbn in Hsk; simplify_eq; eauto.
  - apply has_step_here; [done|]. exists (k1 :: k2 :: ks). split_and!; [done|cbn; lia|done..].
Qed.

Lemma duplicate_step_fault seen steps id :
  duplicate_step seen steps = Some id →
  id ∈ seen ∧ id ∈ rs_id <$> steps ∨
  ∃ i j, i < j ∧ (rs_id <$> steps) !! i = Some id ∧ (rs_id <$> steps) !! j = Some id.
Proof.
  revert seen. induction steps as [|s steps IH]; intros seen; cbn; [done|].
  case_decide as Hs; [intros [= <-]; left; split; [done|by left]|].
  intros [[[->%elem_of_singleton|Hin]%elem_of_union Hid]|(i & j & ? & ? & ?)]%IH.
  - right. apply list_elem_of_lookup in Hid as [j Hj]. exists 0, (S j). split_and!; [lia|done..].
  - left. split; [done|by right].
  - right. exists (S i), (S j). split_and!; [lia|done..].
Qed.

Lemma need_fault raw s e :
  s ∈ rf_steps raw → unknown_need (rs_id <$> rf_steps raw) s = Some e → fault_of raw e.
Proof.
  intros Hs. unfold unknown_need. destruct (list_find _ _) as [[i d]|] eqn:Hf; [|done]. intros [= <-].
  apply list_find_Some in Hf as (Hd%list_elem_of_lookup_2 & Hnot & _). split; [by apply has_step_here|done].
Qed.

Lemma build_tier_fault raw e : build_tier (rf_tier raw) = Err e → tier_fault raw e.
Proof.
  unfold build_tier. destruct (rf_tier raw) as [t|] eqn:Ht; [|done].
  case_decide as H0; [done|]. case_decide as H1.
  { destruct (rt_measure t) eqn:Hm; [done|]. intros [= <-]. exists t. eauto. }
  case_decide as H2; [|intros [= <-]; exists t; split_and!; [done..|lia]].
  destruct (rt_signature t) eqn:Hsig; intros [= <-]; exists t; done.
Qed.

Lemma validate_tier_fault raw ordered built t caps e :
  Forall2 (built_from ordered) (rf_steps raw) built → build_tier (rf_tier raw) = Ok t →
  validate_tier (assembled raw built t caps) = Err e → tier_fault raw e.
Proof.
  intros Hb Ht%build_tier_ok. unfold validate_tier. cbn [assembled f_tier f_steps f_description].
  assert (t = TierZero ∧ (rf_tier raw = None ∨ level_is raw 0 (λ _, True)) ∨
    ∃ m, t = TierOne m ∧ level_is raw 1 (λ t, rt_measure t = Some m)) as [[-> Hz]|(m & -> & Hm)].
  { unfold level_is. destruct (rf_tier raw) as [r|]; [|naive_solver].
    destruct Ht as [[? ->]|(? & m & ? & ->)]; [left; split; [done|]; right; by exists r|].
    right. exists m. split; [done|]. by exists r. }
  - destruct (list_find _ _) as [[i st]|] eqn:Hf; [|done]. intros [= <-].
    apply list_find_Some in Hf as (Hst%list_elem_of_lookup_2 & Hn & _).
    rewrite (sort_by_perm s_order built) in Hst. destruct (Forall2_elem_r _ _ _ _ Hb Hst) as (s & Hs & Hbf).
    split; [done|]. rewrite (bf_id _ _ _ Hbf). apply has_step_here; [done|].
    unfold step_nucleates in Hn. rewrite (bf_command _ _ _ Hbf) in Hn. destruct (rs_command s); [eauto|done].
  - destruct Hm as (rt & Hrt & Hl & Hm).
    destruct (is_blank_text m) eqn:Hblank; [intros [= <-]; exists rt; eauto 6|].
    destruct (existsb (step_mentions m) _) eqn:He; [done|].
    destruct (contains_str m (rf_description raw)) eqn:Hd; [done|]. intros [= <-].
    split_and!; [by exists rt| |done]. intros s Hs Hmen.
    destruct (proj2 (mentions_built _ _ _ m Hb)) as (st & Hst & Hmst); [eauto|].
    assert (existsb (step_mentions m) (sort_by s_order built) = true); [|congruence].
    apply existsb_exists. exists st. split; [|done]. apply list_elem_of_In. by rewrite (sort_by_perm s_order built).
Qed.

Lemma ordered_steps raws ordered :
  NoDup (rs_id <$> raws) → (∀ s, s ∈ raws → ∀ d, d ∈ rs_needs s → d ∈ rs_id <$> raws) →
  topological_sort raws = Ok ordered →
  ordered ≡ₚ rs_id <$> raws ∧ ∀ s d, s ∈ raws → d ∈ rs_needs s → comes_before ordered d (rs_id s).
Proof. intros Hnd Hneeds Ht. apply topological_sort_spec; [done|by intros; eapply Hneeds|done]. Qed.

Lemma built_all ordered raws built :
  mapM (build_step ordered) raws = Ok built → Forall2 (built_from ordered) raws built.
Proof. intros Hm%mapM_Forall2. eapply Forall2_impl; [exact Hm|]. apply build_step_from. Qed.

Lemma parsed_wf raw f :
  parse_raw raw = Ok f →
  formula_wf f ∧ ∃ ordered built, Forall2 (built_from ordered) (rf_steps raw) built ∧ f_steps f ≡ₚ built.
Proof.
  rewrite parse_raw_stages.
  intros (Hname & Hne & Hnd & Hk & Hu & ordered & built & t & caps & Ht & Hm & _ & _ & -> & Hv).
  destruct (ordered_steps _ _ Hnd Hu Ht) as [Hp Hbefore].
  pose proof (built_all _ _ _ Hm) as Hb.
  destruct (built_in_order _ _ _ _ eq_refl Hnd Hp Hb) as [Hids Hord].
  assert (∀ s, s ∈ sort_by s_order built → ∃ r, r ∈ rf_steps raw ∧ built_from ordered r s) as Hfrom.
  { intros s Hs. rewrite (sort_by_perm s_order built) in Hs. by eapply Forall2_elem_r. }
  split; [|exists ordered, built; split; [done|apply (sort_by_perm s_order)]].
  constructor; cbn [assembled f_name f_steps]; [done| | |done| | | |by apply validate_tier_ok].
  - intros Hnil. assert (ordered = []) as Ho by (by rewrite <- Hids, Hnil). rewrite Ho in Hp.
    symmetry in Hp. apply Permutation_nil_r, fmap_nil_inv in Hp. done.
  - rewrite Hids, Hp. done.
  - intros i s d Hi Hd. destruct (Hfrom s) as (r & Hr & Hbf); [by eapply list_elem_of_lookup_2|].
    rewrite (bf_deps _ _ _ Hbf) in Hd. destruct (Hbefore r d Hr Hd) as (j & i' & Hlt & Hj & Hi').
    rewrite <- (bf_id _ _ _ Hbf) in Hi'.
    assert (ordered !! i = Some (s_id s)) as Hi2 by (by rewrite <- Hids, list_lookup_fmap, Hi).
    assert (i' = i) as -> by (eapply NoDup_lookup; [|done..]; by rewrite Hp).
    rewrite <- Hids, list_lookup_fmap in Hj. apply fmap_Some in Hj as (u & Hu' & ->). eauto.
  - intros s Hs. destruct (Hfrom s Hs) as (r & Hr & Hbf). rewrite (bf_kinds _ _ _ Hbf). by apply Hk.
  - intros s m Hs Hl. destruct (Hfrom s Hs) as (r & Hr & Hbf). by apply (bf_limit _ _ _ Hbf).
Qed.

Lemma parse_valid raw : (∃ f, parse_raw raw = Ok f) ↔ raw_valid raw.
Proof.
  setoid_rewrite parse_raw_stages. split.
  - intros (f & Hname & Hne & Hnd & Hk & Hu & ordered & built & t & caps & Ht & Hm & Hbt & Hc & -> & Hv).
    destruct (ordered_steps _ _ Hnd Hu Ht) as [Hp _].
    pose proof (built_all _ _ _ Hm) as Hb.
    constructor; [done|done|done|by intros; eapply Hu|by apply topological_sort_ok; eauto| | |].
    + intros s Hs. destruct (Forall2_elem_l _ _ _ _ Hb Hs) as (st & _ & Hbf).
      apply (build_step_ok ordered); [by apply Hk|eexists; apply (bf_order _ _ _ Hbf)|].
      apply (mapM_ok (build_step ordered) (rf_steps raw)); eauto.
    + apply (tier_exact raw built ordered Hb). exists t. split; [done|]. intros caps'.
      apply validate_tier_ok in Hv. exact Hv.
    + intros c Hin. apply build_capability_ok. apply (mapM_ok build_capability (rf_requires_capabilities raw)); eauto.
  - intros [Hname Hne Hnd Hneeds Hac Hsteps Htier Hcaps].
    apply topological_sort_ok in Hac as [ordered Ht].
    destruct (ordered_steps _ _ Hnd ltac:(by intros; eapply Hneeds) Ht) as [Hp _].
    assert (∃ built, mapM (build_step ordered) (rf_steps raw) = Ok built) as [built Hm].
    { apply mapM_ok. intros s Hs. apply build_step_ok; [by apply Hsteps| |by apply Hsteps].
      assert (rs_id s ∈ ordered) as [i Hi]%list_elem_of_lookup by (rewrite Hp; by apply list_elem_of_fmap_2).
      exists i. apply order_of_lookup; [by rewrite Hp|done]. }
    pose proof (built_all _ _ _ Hm) as Hb.
    apply (tier_exact raw built ordered Hb) in Htier as (t & Hbt & Hok).
    assert (∃ caps, mapM build_capability (rf_requires_capabilities raw) = Ok caps) as [caps Hc].
    { apply mapM_ok. intros c Hin. by apply build_capability_ok, Hcaps. }
    exists (assembled raw built t caps).
    split_and!; [done|done|done|by intros s Hs; apply Hsteps|by intros; eapply Hneeds|].
    exists ordered, built, t, caps. split_and!; [done..|]. by apply validate_tier_ok.
Qed.

Lemma parsed_from raw f : parse_raw raw = Ok f → formula_from raw f.
Proof.
  rewrite parse_raw_stages.
  intros (_ & _ & _ & _ & _ & ordered & built & t & caps & _ & Hm & Ht%build_tier_ok & Hc & -> & _).
  pose proof (built_all _ _ _ Hm) as Hb. constructor; cbn [assembled f_name f_version f_description f_id_prefix f_kind
    f_steps f_variables f_freeze_on_last_step f_tier f_deterministic f_requires_capabilities]; try done.
  - exists built. split; [|apply (sort_by_perm s_order)]. eapply Forall2_impl; [exact Hb|]. by intros ?? [].
  - intros k. rewrite lookup_fmap, lookup_union.
    assert (∀ r, variable_from r (build_variable r)) as Hv.
    { intros r. split_and!; [done..| |done]. cbn. destruct (rv_required r) as [[]|]; cbn; naive_solver. }
    destruct (rf_vars raw !! k), (rf_inputs raw !! k); cbn; eauto.
  - unfold tier_from. destruct (rf_tier raw) as [r|]; [|subst; by left]. destruct Ht as [[? ->]|(? & m & ? & ->)]; eauto.
  - apply mapM_Forall2 in Hc. eapply Forall2_impl; [exact Hc|]. intros token c.
    unfold build_capability, capability_from_str. repeat (case_decide; [intros [= <-]; assumption|]). done.
Qed.

Lemma parse_fault raw e : parse_raw raw = Err e → fault_of raw e.
Proof.
  unfold parse_raw. destruct (simple_id_new _ _) as [name|ie] eqn:Hname; cbn [map_err mbind result_bind].
  2:{ intros [= <-]. unfold simple_id_new, is_empty in Hname. case_bool_decide; [|done]. by injection Hname as <-. }
  destruct (rf_steps raw) as [|s0 steps'] eqn:Hsteps; [by intros [= <-]|]. rewrite <- Hsteps. clear Hsteps.
  destruct (duplicate_step ∅ _) eqn:Hd.
  { intros [= <-]. apply duplicate_step_fault in Hd as [[? _]|?]; [set_solver|done]. }
  apply duplicate_step_none in Hd as [Hnd _].
  destruct (first_error kinds_error _) eqn:Hk.
  { intros [= <-]. apply first_error_some in Hk as (s & ? & ?). by eapply kinds_fault. }
  destruct (first_error (unknown_need _) _) eqn:Hu.
  { intros [= <-]. apply first_error_some in Hu as (s & ? & ?). by eapply need_fault. }
  rewrite first_error_none in Hu. setoid_rewrite unknown_need_none in Hu.
  destruct (topological_sort _) as [ordered|e'] eqn:Ht; cbn [mbind result_bind].
  2:{ intros [= <-]. by apply topological_sort_error in Ht as (n & -> & ?). }
  destruct (ordered_steps _ _ Hnd Hu Ht) as [Hp _].
  destruct (mapM _ (rf_steps raw)) as [built|e'] eqn:Hm; cbn [mbind result_bind].
  2:{ intros [= <-]. apply mapM_error in Hm as (s & Hs & He). eapply build_step_fault; [done| |done].
      rewrite Hp. by apply list_elem_of_fmap_2. }
  pose proof (built_all _ _ _ Hm) as Hb.
  destruct (build_tier _) as [t|te] eqn:Hbt; cbn [map_err mbind result_bind];
    [|intros [= <-]; by apply build_tier_fault].
  destruct (mapM build_capability _) as [caps|e'] eqn:Hc; cbn [mbind result_bind].
  2:{ intros [= <-]. apply mapM_error in Hc as (c & Hin & He). unfold build_capability, capability_from_str in He.
      repeat (case_decide; [done|]). injection He as <-. split_and!; [done|set_solver|done]. }
  apply simple_id_same in Hname as ->.
  change (Formula_ _ _ _ _ _ _ _ _ _ _ _) with (assembled raw built t caps).
  destruct (validate_tier _) as [|te] eqn:Hv; cbn [map_err mbind result_bind]; [done|].
  intros [= <-]. by eapply validate_tier_fault.
Qed.

(** C10. A formula is accepted exactly when its description is well formed: a
    name, at least one step, distinct step identifiers, known and acyclic
    needs, at most one kind of execution per step, well formed limits,
    queries, models and artifact paths, a tier whose rule holds and known
    capabilities. Whatever is accepted carries the description field by field:
    each step is one raw step with every field where the description has it,
    and the steps are numbered in an order that respects the needs. Each
    refusal names a fault that the description has, and the index panics of
    the source never happen. *)
Theorem parse_exact raw :
  ((∃ f, parse_raw raw = Ok f) ↔ raw_valid raw) ∧
  (∀ f, parse_raw raw = Ok f → formula_wf f ∧ formula_from raw f) ∧
  (∀ e, parse_raw raw = Err e → fault_of raw e).
Proof.
  split_and!; [apply parse_valid| |apply parse_fault].
  intros f Hf. split; [by apply (parsed_wf raw)|by apply parsed_from].
Qed.
End Correct.
