(* ===== verification/Evolve.v ===== *)
(** The evolve decision ([crates/cosmon-core/src/evolve.rs]): one step of a
    formula is completed with evidence. Its composition with [Formula]: a parsed
    formula whose steps have identifiers is walked to its end, step by step, and
    never stops half way. *)
From stdpp Require Import prelude gmap strings pretty list.
From Stdlib Require Import Ascii.
From S2P Require Import Prelude Text Graph Ids Molecule Formula.

(** Unicode lower case, and the [Display] of an instant. *)
Class EvolveText := {
  to_lowercase : string → string;
  show_time : Z → string;
}.

Inductive evolve_refusal : Type :=
| NotRunnable (status : molecule_status)
| MissingEvidence (step_id : string)
| StepOutOfRange (index total : nat)
| UnmetDependency (step dependency : string).

Definition refusal_to_string (e : evolve_refusal) : string :=
  match e with
  | NotRunnable status => "molecule is " +:+ status_as_str status +:+ ", must be running to evolve"
  | MissingEvidence step => "--evidence is required to evolve past step " +:+ quoted step
  | StepOutOfRange index total =>
      "current step index " +:+ pretty index +:+ " is out of range (formula has " +:+ pretty total +:+ " steps)"
  | UnmetDependency step dependency =>
      "step " +:+ quoted step +:+ " depends on " +:+ quoted dependency +:+ " which is not yet completed"
  end.

Record evolve_request := EvolveRequest { er_evidence : string; er_timestamp : Z }.

Record completed_step_info := CompletedStepInfo { ci_id : string; ci_title : string; ci_index : nat }.

Inductive new_state : Type :=
| ActiveAt (current_step : nat) (step_id step_title : string)
| AllDone.

Record evolve_outcome := EvolveOutcome {
  eo_completed_step : completed_step_info;
  eo_new_state : new_state;
  eo_warnings : list string;
  eo_log_entry : string;
  eo_briefing : option string;
}.

Section Evolve.
Context `{EvolveText}.

Definition format_log_entry (s : fstep) (evidence : string) (timestamp : Z) (ns : new_state) : string :=
  "## Step " +:+ pretty (S (s_order s)) +:+ ": " +:+ s_title s +:+ " — COMPLETED" +:+ nl +:+
  "**Timestamp:** " +:+ show_time timestamp +:+ nl +:+
  "**Evidence:** " +:+ evidence +:+ nl +:+
  match ns with
  | ActiveAt _ _ title => "**Next:** " +:+ title +:+ nl
  | AllDone => "**Status:** MOLECULE COMPLETED" +:+ nl
  end +:+ nl.

Fixpoint bullets (l : list string) : string :=
  match l with [] => EmptyString | x :: l => "- " +:+ x +:+ nl +:+ bullets l end.

Definition section (title : string) (l : list string) : string :=
  match l with [] => EmptyString | _ => "### " +:+ title +:+ nl +:+ nl +:+ bullets l +:+ nl end.

Definition format_briefing (s : fstep) (index : nat) (f : formula) : string :=
  "# Molecule Briefing" +:+ nl +:+ nl +:+
  "## Current Step " +:+ pretty (S index) +:+ " of " +:+ pretty (length (f_steps f)) +:+ ": " +:+ s_title s +:+
    nl +:+ nl +:+
  (if is_empty (s_description s) then EmptyString else s_description s +:+ nl +:+ nl) +:+
  match s_exit_criteria s with
  | Some c => "### Exit Criteria" +:+ nl +:+ nl +:+ c +:+ nl +:+ nl
  | None => EmptyString
  end +:+
  section "Dependencies" (s_depends_on s) +:+ section "Skills" (s_skills s).

(** The exit criteria are looked for by their words of more than three
    bytes. *)
Definition criteria_warning (s : fstep) (evidence : string) : list string :=
  match s_exit_criteria s with
  | None => []
  | Some criteria =>
      let significant := filter (λ w, 3 < String.length w) (split_whitespace criteria) in
      match significant with
      | [] => []
      | _ =>
          if existsb (λ w, contains_str (to_lowercase w) (to_lowercase evidence)) significant then []
          else ["exit criteria for step " +:+ quoted (s_id s) +:+ " may not be addressed in evidence: " +:+
                quoted criteria]
      end
  end.

(** [evolve] *)
Definition evolve (status : molecule_status) (current_step : nat) (completed_steps : list string)
    (f : formula) (rq : evolve_request) : result evolve_refusal evolve_outcome :=
  if negb (bool_decide (status = MoleculeStatus.Running) || bool_decide (status = MoleculeStatus.Queued)) then
    Err (NotRunnable status)
  else
    match f_steps f !! current_step with
    | None => Err (StepOutOfRange current_step (length (f_steps f)))
    | Some s =>
        if is_empty (trim (er_evidence rq)) then Err (MissingEvidence (s_id s))
        else
          match list_find (λ d, d ∉ completed_steps) (s_depends_on s) with
          | Some (_, d) => Err (UnmetDependency (s_id s) d)
          | None =>
              let ns :=
                match f_steps f !! S current_step with
                | None => AllDone
                | Some next => ActiveAt (S current_step) (s_id next) (s_title next)
                end in
              let briefing :=
                match f_steps f !! S current_step with
                | None => None
                | Some next => Some (format_briefing next (S current_step) f)
                end in
              Ok (EvolveOutcome (CompletedStepInfo (s_id s) (s_title s) current_step) ns
                    (criteria_warning s (er_evidence rq))
                    (format_log_entry s (er_evidence rq) (er_timestamp rq) ns) briefing)
          end
    end.

(** ** What a step needs *)

Lemma evolve_ok status k completed f rq :
  (∃ out, evolve status k completed f rq = Ok out) ↔
  (status = MoleculeStatus.Running ∨ status = MoleculeStatus.Queued) ∧
  trim (er_evidence rq) ≠ EmptyString ∧
  ∃ s, f_steps f !! k = Some s ∧ ∀ d, d ∈ s_depends_on s → d ∈ completed.
Proof.
  rewrite is_ok_ex. unfold evolve.
  destruct (bool_decide (status = MoleculeStatus.Running) || bool_decide (status = MoleculeStatus.Queued)) eqn:Hst; cbn.
  2:{ apply orb_false_iff in Hst as [?%bool_decide_eq_false ?%bool_decide_eq_false]. naive_solver. }
  apply orb_true_iff in Hst. rewrite !bool_decide_eq_true in Hst.
  destruct (f_steps f !! k) as [s|]; [|naive_solver]. unfold is_empty.
  case_bool_decide; [naive_solver|].
  destruct (list_find _ _) as [[i d]|] eqn:Hf.
  - apply list_find_Some in Hf as (Hd%list_elem_of_lookup_2 & Hnot & _). naive_solver.
  - apply list_find_None in Hf. rewrite Forall_forall in Hf. split; [|done]. intros _. split_and!; [done..|].
    exists s. split; [done|]. intros d Hd. destruct (decide (d ∈ completed)); [done|]. by destruct (Hf d Hd).
Qed.

Lemma evolve_outcome_step status k completed f rq out :
  evolve status k completed f rq = Ok out →
  ∃ s, f_steps f !! k = Some s ∧ eo_completed_step out = CompletedStepInfo (s_id s) (s_title s) k ∧
    (eo_new_state out = AllDone ↔ S k = length (f_steps f)) ∧
    ∀ j id title, eo_new_state out = ActiveAt j id title → j = S k ∧ S k < length (f_steps f).
Proof.
  unfold evolve. destruct (negb _); [done|]. destruct (f_steps f !! k) as [s|] eqn:Hs; [|done].
  destruct (is_empty _); [done|]. destruct (list_find _ _) as [[? ?]|]; [done|]. intros [= <-].
  exists s. cbn [eo_completed_step eo_new_state]. apply lookup_lt_Some in Hs.
  destruct (f_steps f !! S k) as [next|] eqn:Hn.
  - apply lookup_lt_Some in Hn. split_and!; [done|done|split; [done|lia]|]. intros j id title [= <- _ _]. done.
  - apply lookup_ge_None in Hn. split_and!; [done|done|split; [intros _; lia|done]|done].
Qed.

(** ** A walk through a formula *)

(** What the two fields of a molecule become, and its status. *)
Record position := Position { po_status : molecule_status; po_step : nat; po_completed : list string }.

(** Why an evolve stops: the decision refuses, or the operation refuses the
    identifier of the completed step. *)
Inductive walk_refusal : Type :=
| EvolveRefused (e : evolve_refusal)
| StepIdRefused (e : id_error).

(** The advance of the operation on these fields; [freeze] is the flag of the
    molecule. *)
Definition advance (freeze : bool) (total : nat) (p : position) (out : evolve_outcome) : result walk_refusal position :=
  step_id ← map_err StepIdRefused (simple_id_new "StepId" (ci_id (eo_completed_step out)));
  let completed := po_completed p ++ [step_id] in
  match eo_new_state out with
  | ActiveAt k _ _ => Ok (Position MoleculeStatus.Running k completed)
  | AllDone =>
      Ok (Position (if freeze then MoleculeStatus.Frozen else MoleculeStatus.Completed) total completed)
  end.

(** The decision and the advance once for every request; the gates between the
    two (energy, verification, artifacts) let each step pass. *)
Fixpoint walk (f : formula) (freeze : bool) (total : nat) (rqs : list evolve_request) (p : position) :
    result walk_refusal position :=
  match rqs with
  | [] => Ok p
  | rq :: rqs =>
      out ← map_err EvolveRefused (evolve (po_status p) (po_step p) (po_completed p) f rq);
      p' ← advance freeze total p out;
      walk f freeze total rqs p'
  end.

Definition nameless (s : fstep) : Prop := s_id s = EmptyString.

Definition position_at (f : formula) (k : nat) : position :=
  Position MoleculeStatus.Running k (take k (s_id <$> f_steps f)).

Lemma take_ids f k s : f_steps f !! k = Some s →
  take (S k) (s_id <$> f_steps f) = take k (s_id <$> f_steps f) ++ [s_id s].
Proof. intros Hs. apply take_S_r. by rewrite list_lookup_fmap, Hs. Qed.

Lemma deps_completed f k s d :
  formula_wf f → f_steps f !! k = Some s → d ∈ s_depends_on s → d ∈ take k (s_id <$> f_steps f).
Proof.
  intros Hwf Hs Hd. destruct (wf_deps f Hwf k s d Hs Hd) as (j & t & Hj & Ht & <-).
  apply list_elem_of_lookup. exists j. rewrite lookup_take_lt by done. by rewrite list_lookup_fmap, Ht.
Qed.

(** One request at a step of the formula. *)
Definition after (f : formula) (freeze : bool) (total k : nat) : position :=
  if decide (S k = length (f_steps f))
  then Position (if freeze then MoleculeStatus.Frozen else MoleculeStatus.Completed) total (s_id <$> f_steps f)
  else position_at f (S k).

Lemma walk_step f freeze total rq rqs k s :
  formula_wf f → f_steps f !! k = Some s → trim (er_evidence rq) ≠ EmptyString →
  walk f freeze total (rq :: rqs) (position_at f k) =
    _ ← map_err StepIdRefused (simple_id_new "StepId" (s_id s)); walk f freeze total rqs (after f freeze total k).
Proof.
  intros Hwf Hs Hrq. cbn [walk position_at po_status po_step po_completed].
  destruct (proj2 (evolve_ok MoleculeStatus.Running k (take k (s_id <$> f_steps f)) f rq)) as [out Hout].
  { split_and!; [by left|done|]. exists s. split; [done|]. intros d Hd. by eapply deps_completed. }
  rewrite Hout. cbn [map_err mbind result_bind].
  destruct (evolve_outcome_step _ _ _ _ _ _ Hout) as (s' & Hs' & Hci & Hdone & Hact).
  assert (s' = s) as -> by congruence. unfold advance. rewrite Hci. cbn [ci_id po_completed].
  destruct (simple_id_new "StepId" (s_id s)) as [id|e] eqn:Hid; cbn [map_err mbind result_bind]; [|done].
  apply simple_id_same in Hid as ->. change (po_completed (position_at f k)) with (take k (s_id <$> f_steps f)).
  rewrite <- (take_ids f k s Hs). unfold after.
  destruct (eo_new_state out) as [j id title|] eqn:Hns; cbn [mbind result_bind].
  - destruct (Hact j id title eq_refl) as [-> Hlt]. by rewrite decide_False by lia.
  - rewrite (proj1 Hdone eq_refl), decide_True by done. rewrite take_ge; [done|]. by rewrite length_fmap.
Qed.

Lemma walk_prefix f freeze total rqs k :
  formula_wf f → k + length rqs < length (f_steps f) →
  Forall (λ rq, trim (er_evidence rq) ≠ EmptyString) rqs →
  (∀ i s, f_steps f !! i = Some s → i < k + length rqs → ¬ nameless s) →
  walk f freeze total rqs (position_at f k) = Ok (position_at f (k + length rqs)).
Proof.
  intros Hwf. revert k. induction rqs as [|rq rqs IH]; intros k Hlen Hev Hids; cbn [length] in *.
  { by rewrite Nat.add_0_r. }
  inversion Hev as [|? ? Hrq Hrest]; subst.
  destruct (lookup_lt_is_Some_2 (f_steps f) k) as [s Hs]; [lia|].
  rewrite (walk_step _ _ _ _ _ _ s) by done.
  destruct (proj2 (simple_id_ok "StepId" (s_id s))) as [id ->]; [eapply Hids; [done|lia]|]. cbn [map_err mbind result_bind].
  unfold after. rewrite decide_False by lia. rewrite <- Nat.add_succ_comm in *. apply IH; [lia|done|]. intros i t Ht Hi. eapply Hids; [done|lia].
Qed.

Lemma walk_app f freeze total l1 l2 p :
  walk f freeze total (l1 ++ l2) p = p' ← walk f freeze total l1 p; walk f freeze total l2 p'.
Proof.
  revert p. induction l1 as [|rq l1 IH]; intros p; cbn [app walk]; [done|].
  destruct (evolve _ _ _ _ _) as [out|e]; cbn [map_err mbind result_bind]; [|done].
  destruct (advance _ _ _ _); cbn [mbind result_bind]; [apply IH|done].
Qed.

(** The walk reaches the [k]th step when no step before it is nameless. *)
Lemma walk_reaches f freeze total rqs k s :
  formula_wf f → length rqs = length (f_steps f) →
  Forall (λ rq, trim (er_evidence rq) ≠ EmptyString) rqs →
  f_steps f !! k = Some s → (∀ i t, f_steps f !! i = Some t → i < k → ¬ nameless t) →
  walk f freeze total (take k rqs) (position_at f 0) = Ok (position_at f k) ∧
  walk f freeze total rqs (position_at f 0) =
    _ ← map_err StepIdRefused (simple_id_new "StepId" (s_id s));
    walk f freeze total (drop (S k) rqs) (after f freeze total k).
Proof.
  intros Hwf Hlen Hev Hs Hids. assert (k < length rqs) as Hk by (rewrite Hlen; by eapply lookup_lt_Some).
  destruct (lookup_lt_is_Some_2 rqs k Hk) as [rq Hrq].
  assert (walk f freeze total (take k rqs) (position_at f 0) = Ok (position_at f k)) as Hpre.
  { assert (length (take k rqs) = k) as Hl by (rewrite length_take; lia).
    rewrite walk_prefix; rewrite ?Hl; [done|done|lia|by apply Forall_take|]. intros i t Ht Hi. by eapply Hids. }
  split; [done|]. rewrite <- (take_drop_middle rqs k rq Hrq) at 1. rewrite walk_app, Hpre. cbn [mbind result_bind].
  apply walk_step; [done..|]. rewrite Forall_forall in Hev. apply Hev. by eapply list_elem_of_lookup_2.
Qed.

(** C11. From a running molecule at its first step, evidence that is not blank
    completes the steps of a parsed formula one by one, in the order of the
    formula and without an unmet dependency, up to the first step without an
    identifier. When every step has one, after as many requests as the formula
    has steps, and not before, the molecule is completed (or frozen, when it
    says so) with all steps recorded in order. A step without an identifier,
    which the parser accepts, is never left: its identifier is refused, with
    the steps before it completed. *)
Theorem parsed_formula_completes `{!HashOrder string} raw f freeze total rqs :
  parse_raw raw = Ok f → length rqs = length (f_steps f) →
  Forall (λ rq, trim (er_evidence rq) ≠ EmptyString) rqs →
  ((∀ s, s ∈ f_steps f → ¬ nameless s) →
     walk f freeze total rqs (Position MoleculeStatus.Running 0 []) =
       Ok (Position (if freeze then MoleculeStatus.Frozen else MoleculeStatus.Completed) total (s_id <$> f_steps f))) ∧
  (∀ n, n < length rqs → (∀ i s, f_steps f !! i = Some s → i < n → ¬ nameless s) →
     walk f freeze total (take n rqs) (Position MoleculeStatus.Running 0 []) =
       Ok (Position MoleculeStatus.Running n (take n (s_id <$> f_steps f)))) ∧
  (∀ k s, f_steps f !! k = Some s → nameless s →
     walk f freeze total (take k rqs) (Position MoleculeStatus.Running 0 []) =
       Ok (Position MoleculeStatus.Running k (take k (s_id <$> f_steps f))) ∧
     walk f freeze total rqs (Position MoleculeStatus.Running 0 []) = Err (StepIdRefused (IdEmpty "StepId"))).
Proof.
  intros Hp Hlen Hev. apply parsed_wf in Hp as [Hwf _].
  change (Position MoleculeStatus.Running 0 []) with (position_at f 0). split_and!.
  - intros Hnamed. assert (0 < length (f_steps f)) as Hpos.
    { destruct (f_steps f) eqn:Hf; cbn; [|lia]. by destruct (wf_nonempty f Hwf). }
    destruct (lookup_lt_is_Some_2 (f_steps f) (pred (length (f_steps f)))) as [s Hs]; [lia|].
    destruct (walk_reaches f freeze total rqs _ s Hwf Hlen Hev Hs) as [_ ->].
    { intros i t Ht _. apply Hnamed. by eapply list_elem_of_lookup_2. }
    destruct (proj2 (simple_id_ok "StepId" (s_id s))) as [id ->]; [by eapply Hnamed, list_elem_of_lookup_2|].
    cbn [map_err mbind result_bind]. unfold after. rewrite drop_ge, decide_True by lia. done.
  - intros n Hn Hids. destruct (lookup_lt_is_Some_2 (f_steps f) n) as [s Hs]; [lia|].
    by destruct (walk_reaches f freeze total rqs n s Hwf Hlen Hev Hs Hids) as [-> _].
  - intros k s Hs Hempty. destruct (walk_reaches f freeze total rqs k s Hwf Hlen Hev Hs) as [Hpre Hall].
    { intros i t Ht Hi Hnt. assert (i = k); [|lia].
      eapply NoDup_lookup; [apply (wf_ids f Hwf)|rewrite list_lookup_fmap, Ht; cbn; by rewrite Hnt|].
      rewrite list_lookup_fmap, Hs. cbn. by rewrite Hempty. }
    split; [done|]. rewrite Hall, Hempty. done.
Qed.
End Evolve.

(** ** Samples *)

Module EvolveSamples.
#[export] Instance sample_text : EvolveText :=
  {| to_lowercase := to_ascii_lowercase; show_time t := pretty t |}.

#[export] Instance sample_order : HashOrder string := plain_order.

Definition sample_step (id : string) (needs : list string) (acceptance : option string) : raw_step :=
  RawStep id id EmptyString acceptance [] None needs [] None None None None None None false None None None
    None None ∅.

(** The steps are listed against their order. *)
Definition sample_raw : raw_formula :=
  RawFormula "task-work" 1 "build a thing" "task" None false false []
    [sample_step "build" ["design"] (Some "binary runs"); sample_step "design" [] None] None ∅ ∅.

Definition sample_formula : formula :=
  match parse_raw sample_raw with Ok f => f | Err _ => Formula_ EmptyString 0 EmptyString EmptyString None [] ∅ false TierZero false [] end.

Example sample_parses : parse_raw sample_raw = Ok sample_formula ∧ s_id <$> f_steps sample_formula = ["design"; "build"].
Proof. vm_compute. done. Qed.

Lemma parsed_formula_completes_witness :
  walk sample_formula false 2 [EvolveRequest "sketched" 1; EvolveRequest "the binary runs" 2]
    (Position MoleculeStatus.Running 0 []) =
  Ok (Position MoleculeStatus.Completed 2 ["design"; "build"]).
Proof.
  refine (proj1 (parsed_formula_completes sample_raw sample_formula false 2 _ _ _ _) _).
  - vm_compute. reflexivity.
  - reflexivity.
  - repeat constructor; vm_compute; discriminate.
  - assert (∀ l : list fstep, Forall (λ s, s_id s ≠ EmptyString) l → ∀ s, s ∈ l → ¬ nameless s) as Hall
      by (intros l Hl s Hs; by apply (proj1 (Forall_forall _ _) Hl)).
    apply Hall. repeat constructor; vm_compute; discriminate.
Defined.

(** The names of steps are not checked: a step without one is accepted. *)
Example nameless_step_accepted :
  ∃ f, parse_raw (RawFormula "f" 1 EmptyString EmptyString None false false [] [sample_step EmptyString [] None]
                    None ∅ ∅) = Ok f ∧ s_id <$> f_steps f = [EmptyString].
Proof. eexists. split; vm_compute; reflexivity. Qed.
End EvolveSamples.
