(* ===== verification/LifeOps.v ===== *)
(** The operations on one molecule of [crates/cosmon-state/src/ops]: evolve,
    freeze, thaw, stuck, tag and await-operator, as processes of [Concurrent]
    over the state file of the molecule and the fleet lock; and what the command
    line adds to evolve ([crates/cosmon-cli/src/cmd/evolve.rs]): the gate step
    that follows is run at once. Verification commands, artifacts, git and the
    text files of a molecule are answers of the outside. *)
From stdpp Require Import prelude gmap strings list.
From Stdlib Require Import Ascii.
From S2P Require Import Prelude Text Ids Molecule Links Concurrent Store Formula Evolve.

(** ** Data *)

(** [StepBudget] *)
Record step_budget := StepBudget { sb_cap : N; sb_remaining : N }.

Definition is_exhausted (b : step_budget) : bool := bool_decide (sb_remaining b = 0%N).
Definition consume_step (b : step_budget) : step_budget := StepBudget (sb_cap b) (N.pred (sb_remaining b)).

Record pending_step := PendingStep { ps_target_step : nat; ps_started_at : Z; ps_commit_sha : option string }.

Record briefing_seal := BriefingSeal {
  bs_step : N;
  bs_hash : string;
  bs_sealed_at : Z;
  bs_briefing_bytes : N;
  bs_canonical_version : N;
  bs_snapshot : option string;
}.

(** The fields of [MoleculeData] that these operations read and write. *)
Record life := Life {
  lm_status : molecule_status;
  lm_kind : option molecule_kind;
  lm_updated_at : Z;
  lm_total_steps : nat;
  lm_current_step : nat;
  lm_completed_steps : list string;
  lm_energy_budget : option step_budget;
  lm_freeze_on_last_step : bool;
  lm_pending_step : option pending_step;
  lm_last_progress_at : option Z;
  lm_last_output_at : option Z;
  lm_briefing_seals : list briefing_seal;
  lm_tags : gset string;
  lm_stuck_at : option Z;
  lm_collapse_reason : option string;
  lm_variables : gmap string string;
}.

(** [mol.status = ..; mol.updated_at = ..], with the time of being stuck and
    the reason of a collapse. *)
Definition with_status (m : life) (st : molecule_status) (now : Z) (stuck_at : option Z) (reason : option string) : life :=
  Life st (lm_kind m) now (lm_total_steps m) (lm_current_step m) (lm_completed_steps m) (lm_energy_budget m)
    (lm_freeze_on_last_step m) (lm_pending_step m) (lm_last_progress_at m) (lm_last_output_at m)
    (lm_briefing_seals m) (lm_tags m) stuck_at reason (lm_variables m).

Definition with_tags (m : life) (tags : gset string) (now : Z) : life :=
  Life (lm_status m) (lm_kind m) now (lm_total_steps m) (lm_current_step m) (lm_completed_steps m)
    (lm_energy_budget m) (lm_freeze_on_last_step m) (lm_pending_step m) (lm_last_progress_at m)
    (lm_last_output_at m) (lm_briefing_seals m) tags (lm_stuck_at m) (lm_collapse_reason m) (lm_variables m).

Definition with_pending (m : life) (p : option pending_step) (now : Z) : life :=
  Life (lm_status m) (lm_kind m) now (lm_total_steps m) (lm_current_step m) (lm_completed_steps m)
    (lm_energy_budget m) (lm_freeze_on_last_step m) p (lm_last_progress_at m) (lm_last_output_at m)
    (lm_briefing_seals m) (lm_tags m) (lm_stuck_at m) (lm_collapse_reason m) (lm_variables m).

Definition with_seal (m : life) (s : briefing_seal) (now : Z) : life :=
  Life (lm_status m) (lm_kind m) now (lm_total_steps m) (lm_current_step m) (lm_completed_steps m)
    (lm_energy_budget m) (lm_freeze_on_last_step m) (lm_pending_step m) (lm_last_progress_at m)
    (lm_last_output_at m) (lm_briefing_seals m ++ [s]) (lm_tags m) (lm_stuck_at m) (lm_collapse_reason m)
    (lm_variables m).

(** The step is pushed, and step and status follow the outcome. *)
Definition advanced (m : life) (out : evolve_outcome) (now : Z) : life :=
  let '(st, k) :=
    match eo_new_state out with
    | ActiveAt k _ _ => (MoleculeStatus.Running, k)
    | AllDone =>
        (if lm_freeze_on_last_step m then MoleculeStatus.Frozen else MoleculeStatus.Completed, lm_total_steps m)
    end in
  Life st (lm_kind m) now (lm_total_steps m) k (lm_completed_steps m ++ [ci_id (eo_completed_step out)])
    (lm_energy_budget m) (lm_freeze_on_last_step m) (lm_pending_step m) (Some now) (Some now)
    (lm_briefing_seals m) (lm_tags m) (lm_stuck_at m) (lm_collapse_reason m) (lm_variables m).

(** [if let Some(mut b) = updated.energy_budget] *)
Definition spent (m : life) : life :=
  Life (lm_status m) (lm_kind m) (lm_updated_at m) (lm_total_steps m) (lm_current_step m) (lm_completed_steps m)
    (consume_step <$> lm_energy_budget m) (lm_freeze_on_last_step m) (lm_pending_step m) (lm_last_progress_at m)
    (lm_last_output_at m) (lm_briefing_seals m) (lm_tags m) (lm_stuck_at m) (lm_collapse_reason m) (lm_variables m).

(** [StuckReason], made from a string by its [From]. *)
Inductive stuck_reason : Type :=
| BlockerFailed | StuckTimeout | StuckMergeConflict | MissingPrerequisite | HumanRequested | EnergyExhausted
| OtherReason (s : string).

Definition stuck_reason_from (s : string) : stuck_reason :=
  if decide (s = "blocker_failed") then BlockerFailed
  else if decide (s = "timeout") then StuckTimeout
  else if decide (s = "merge_conflict") then StuckMergeConflict
  else if decide (s = "missing_prerequisite") then MissingPrerequisite
  else if decide (s = "human_requested") then HumanRequested
  else if decide (s = "energy_exhausted") then EnergyExhausted
  else OtherReason s.

Inductive irreversible_boundary : Set := Signature | ExternalSend | Publish | AuthoritativeValue.

Definition boundary_as_str (b : irreversible_boundary) : string :=
  match b with
  | Signature => "signature" | ExternalSend => "external-send" | Publish => "publish"
  | AuthoritativeValue => "authoritative-value"
  end.

Definition alert_tag (b : irreversible_boundary) : string :=
  match b with
  | Signature => "signature" | ExternalSend => "push" | Publish => "publish"
  | AuthoritativeValue => "irreversible"
  end.

(** [replace('_', '-')] *)
Fixpoint dashes (s : string) : string :=
  match s with
  | EmptyString => EmptyString
  | String c s => String (if decide (c = "_"%char) then "-"%char else c) (dashes s)
  end.

Definition boundary_from_str (s : string) : option irreversible_boundary :=
  let t := dashes (to_ascii_lowercase (trim s)) in
  if decide (t ∈ ["signature"; "sign"]) then Some Signature
  else if decide (t ∈ ["external-send"; "send"; "push"; "email"]) then Some ExternalSend
  else if decide (t ∈ ["publish"; "release"]) then Some Publish
  else if decide (t ∈ ["authoritative-value"; "authoritative"; "value"]) then Some AuthoritativeValue
  else None.

Definition awaiting_op_tag : string := "temp:awaiting-op".

(** [OperatorBlockCapability::from_tag]: key and value are what is before and
    after the first colon. *)
Definition capability_from_tag (tag : string) : option irreversible_boundary :=
  match split_once ":" tag with
  | Some (key, value) => if decide (key = "op-block") then boundary_from_str value else None
  | None => None
  end.

Definition capability_from_tags (tags : gset string) : option irreversible_boundary :=
  head (omap capability_from_tag (sort_ids (elements tags))).

Inductive life_event : Type :=
| EvEvolvedLegacy (step total : nat)
| EvStepCompleted (step total : nat) (evidence : option string)
| EvCompleted (reason : string) (summary : option string)
| EvBriefingSealed (s : briefing_seal)
| EvStatusChanged (from to : string)
| EvStuck (reason : stuck_reason)
| EvBlockedOnOperator (b : irreversible_boundary) (since : Z)
| EvAuthzDecision (verb subject_kind : string) (allowed : bool).

(** ** The state file and the lock *)

(** [ls_advances] is not in the source: it lists who completed which step. *)
Record life_store := LifeStore {
  ls_molecule : option life;
  ls_lock : option nat;
  ls_advances : list (nat * nat);
}.

Inductive step_refusal : Type :=
| RefuseRetry (output : string) (retries_remaining : N)
| RefuseExhausted (reason : string)
| RefuseUnsupported (what : string)
| RefuseOther (message : string).

Inductive life_op : Type → Type :=
| LockFleet : life_op (result cosmon_error ())
| UnlockFleet : life_op ()
| LoadMolecule : life_op (result cosmon_error life)
| SaveMolecule (m : life) : life_op (result cosmon_error ())
| Clock : life_op Z
| VerifyStep (m : life) (s : fstep) : life_op (result step_refusal ())
| MissingArtifacts (expected : list string) : life_op (list string)
| Repatriate (missing : list string) : life_op (list string)
| Warn (message : string) : life_op ()
| OnCompleted : life_op ()
| CommitStep (step : nat) (title label : string) : life_op ()
| EnsureTrusted : life_op (result string ())
| RunGate (command : string) : life_op (result string ())
| Emit (e : life_event) : life_op (option N)
| ReadLog : life_op string
| WriteLog (text : string) : life_op (result string ())
| WriteBriefing (text : string) : life_op (result string ())
| DeliverPosture : life_op (result string ())
| SealBriefing (step : N) : life_op (option briefing_seal)
| AfterBriefing (step : N) : life_op (result string ()).

(** What the outside answers. *)
Record outside := Outside {
  os_fate : fate;
  os_clock : Z;
  os_verify : result step_refusal ();
  os_paths : list string;
  os_text : string;
  os_outcome : result string ();
  os_sequence : option N;
  os_seal : option briefing_seal;
}.

Definition fated {A} (c : outside) (s : life_store) (f : result cosmon_error (A * life_store)) :
    option (result cosmon_error A * life_store) :=
  match os_fate c, f with
  | Works, Ok (a, s') => Some (Ok a, s')
  | Works, Err e => Some (Err e, s)
  | Fails why, _ | FailsLate why, _ => Some (Err (EStateStore why), s)
  end.

(** A molecule that is collapsed stays so. *)
Definition save_refused (s : life_store) (m : life) : bool :=
  match ls_molecule s with
  | Some current =>
      bool_decide (lm_status current = MoleculeStatus.Collapsed) &&
      bool_decide (lm_status m ≠ MoleculeStatus.Collapsed)
  | None => false
  end.

Definition advances_by (t : nat) (s : life_store) (m : life) : list (nat * nat) :=
  let before := length (default [] (lm_completed_steps <$> ls_molecule s)) in
  (λ i, (t, i)) <$> seq before (length (lm_completed_steps m) - before).

Definition put_life (t : nat) (s : life_store) (m : life) : life_store :=
  LifeStore (Some m) (ls_lock s) (ls_advances s ++ advances_by t s m).

Definition release_fleet (t : nat) (s : life_store) : life_store :=
  if decide (ls_lock s = Some t) then LifeStore (ls_molecule s) None (ls_advances s) else s.

Section Exec.
Context (id : mid).

Definition exec_life (c : outside) (t : nat) (R : Type) (o : life_op R) (s : life_store) :
    option (R * life_store) :=
  match o in life_op R return option (R * life_store) with
  | LockFleet =>
      match ls_lock s with
      | Some _ => None
      | None => fated c s (Ok ((), LifeStore (ls_molecule s) (Some t) (ls_advances s)))
      end
  | UnlockFleet => Some ((), release_fleet t s)
  | LoadMolecule =>
      fated c s (match ls_molecule s with Some m => Ok (m, s) | None => Err (ENotFound id) end)
  | SaveMolecule m =>
      fated c s (if save_refused s m
                 then Err (EStateStore ("molecule " +:+ mid_raw id +:+
                        " is collapsed; cannot leave Collapsed or replace its receipt"))
                 else Ok ((), put_life t s m))
  | Clock => Some (os_clock c, s)
  | VerifyStep _ _ => Some (os_verify c, s)
  | MissingArtifacts _ | Repatriate _ => Some (os_paths c, s)
  | Warn _ | OnCompleted | CommitStep _ _ _ => Some ((), s)
  | EnsureTrusted | RunGate _ | WriteLog _ | WriteBriefing _ | DeliverPosture | AfterBriefing _ => Some (os_outcome c, s)
  | Emit _ => Some (os_sequence c, s)
  | ReadLog => Some (os_text c, s)
  | SealBriefing _ => Some (os_seal c, s)
  end.
End Exec.

(** ** Evolve *)

Inductive evolve_error : Type :=
| OpMoleculeNotFound
| OpNotRunnable (status : molecule_status)
| OpRefused (e : evolve_refusal)
| OpEnergyExhausted (cap : N)
| OpVerificationRetry (step output : string) (retries_remaining : N)
| OpVerificationExhausted (reason : string)
| OpArtifactsMissing (step : string) (missing : list string)
| OpUnsupported (step what : string)
| OpStoreUnavailable (why : string)
| OpEffect (why : string).

(** [from_cosmon], and [store_err] of the body. *)
Definition store_err (e : cosmon_error) : evolve_error :=
  match e with ENotFound _ => OpMoleculeNotFound | other => OpStoreUnavailable (cosmon_to_string other) end.

(** The status codes of [OpsError]. *)
Definition evolve_http_status (e : evolve_error) : Z :=
  match e with
  | OpMoleculeNotFound => 404
  | OpRefused (MissingEvidence _) => 400
  | OpNotRunnable _ | OpRefused _ | OpEnergyExhausted _ | OpVerificationRetry _ _ _ | OpVerificationExhausted _
  | OpArtifactsMissing _ _ => 409
  | OpUnsupported _ _ => 501
  | OpStoreUnavailable _ | OpEffect _ => 503
  end.

Record evolve_view := EvolveView { vw_updated : life; vw_outcome : evolve_outcome }.

(** [let _g = store.lock_fleet()?]: the block holds the lock to its end. *)
Definition with_fleet {E A} (err : cosmon_error → E) (block : prog life_op (result E A)) : prog life_op (result E A) :=
  try! _ ← call LockFleet catch err;
  r ← block;
  _ ← call UnlockFleet;
  mret r.

(** [park_frozen] *)
Definition park_frozen (m : life) (reason : stuck_reason) : prog life_op (result evolve_error ()) :=
  now ← call Clock;
  try! _ ← call (SaveMolecule (with_status m MoleculeStatus.Frozen now (lm_stuck_at m) (lm_collapse_reason m)))
    catch store_err;
  _ ← call (Emit (EvStuck reason));
  mret (Ok ()).

Fixpoint warn_all (l : list string) : prog life_op () :=
  match l with [] => mret () | w :: l => _ ← call (Warn w); warn_all l end.

Definition id_error_to_string (e : id_error) : string :=
  match e with
  | IdEmpty kind => kind +:+ " cannot be empty"
  | IdInvalid kind reason => kind +:+ ": " +:+ reason
  end.

Definition non_empty (text : string) : option string := if is_empty (trim text) then None else Some text.

Section Ops.
Context `{EvolveText}.

(** [missing_expected_artifacts], with the repatriation of what is missing. *)
Definition check_artifacts (expected : list string) : prog life_op (list string) :=
  missing ← call (MissingArtifacts expected);
  match missing with
  | [] => mret []
  | _ =>
      back ← call (Repatriate missing);
      match back with [] => mret missing | _ => call (MissingArtifacts expected) end
  end.

(** The verdict on the verification of a step: [None] lets the step pass. *)
Definition judge (m : life) (step : string) (verdict : result step_refusal ()) :
    prog life_op (option evolve_error) :=
  match verdict with
  | Ok _ => mret None
  | Err (RefuseRetry output retries) => mret (Some (OpVerificationRetry step output retries))
  | Err (RefuseExhausted reason) =>
      r ← park_frozen m (stuck_reason_from reason);
      mret (Some (match r with Ok _ => OpVerificationExhausted reason | Err e => e end))
  | Err (RefuseUnsupported what) => mret (Some (OpUnsupported step what))
  | Err (RefuseOther message) => mret (Some (OpEffect message))
  end.

(** The advance itself, once the step has passed its gates. *)
Definition commit_advance (m : life) (out : evolve_outcome) : prog life_op (result evolve_error (life * evolve_outcome)) :=
  match simple_id_new "StepId" (ci_id (eo_completed_step out)) with
  | Err e => mret (Err (OpStoreUnavailable (id_error_to_string e)))
  | Ok _ =>
      now ← call Clock;
      let m1 := advanced (spent m) out now in
      started ← call Clock;
      let m2 := with_pending m1 (Some (PendingStep (lm_current_step m1) started None)) (lm_updated_at m1) in
      _ ← (if bool_decide (lm_status m2 = MoleculeStatus.Completed) then call OnCompleted else mret ());
      try! _ ← call (SaveMolecule m2) catch store_err;
      mret (Ok (m2, out))
  end.

(** The block under the fleet lock. *)
Definition advance_block (f : formula) (evidence : string) : prog life_op (result evolve_error (life * evolve_outcome)) :=
  try! m ← call LoadMolecule catch store_err;
  if is_terminal (lm_status m) then mret (Err (OpNotRunnable (lm_status m)))
  else if match lm_energy_budget m with Some b => is_exhausted b | None => false end then
    try! _ ← park_frozen m EnergyExhausted catch id;
    mret (Err (OpEnergyExhausted (default 0%N (sb_cap <$> lm_energy_budget m))))
  else
    now ← call Clock;
    match evolve (lm_status m) (lm_current_step m) (lm_completed_steps m) f (EvolveRequest evidence now) with
    | Err e => mret (Err (OpRefused e))
    | Ok out =>
        _ ← warn_all (eo_warnings out);
        match f_steps f !! ci_index (eo_completed_step out) with
        | None => mret (Err (OpEffect "index out of bounds"))
        | Some s =>
            verdict ← call (VerifyStep m s);
            stop ← judge m (s_id s) verdict;
            match stop with
            | Some e => mret (Err e)
            | None =>
                missing ← check_artifacts (s_expected_artifacts s);
                match missing with
                | [] => commit_advance m out
                | _ => mret (Err (OpArtifactsMissing (s_id s) missing))
                end
            end
        end
    end.

Definition log_header : string := "# Evolution Log" +:+ nl +:+ nl.

(** [render_task] *)
Definition render_task (vars : gmap string string) : string :=
  if decide (vars = ∅) then EmptyString
  else
    "## Task" +:+ nl +:+ nl +:+
    match vars !! "topic" with
    | Some topic => "### topic" +:+ nl +:+ nl +:+ topic +:+ nl +:+ nl
    | None => EmptyString
    end +:+
    foldr (λ key text,
      "### " +:+ key +:+ nl +:+ nl +:+ default EmptyString (vars !! key) +:+ nl +:+ nl +:+ text) EmptyString
      (sort_ids (filter (.≠ "topic") (elements (dom vars)))).

Definition completed_briefing : string :=
  "# Molecule Briefing" +:+ nl +:+ nl +:+ "**Status:** COMPLETED" +:+ nl +:+ nl +:+
  "All steps have been completed." +:+ nl.

(** [store.load_molecule(id)], a change of the record, and its save. *)
Definition seal_block (s : briefing_seal) : prog life_op (result cosmon_error ()) :=
  try! m ← call LoadMolecule catch id;
  now ← call Clock;
  call (SaveMolecule (with_seal m s now)).

Definition clear_pending_block : prog life_op (result evolve_error ()) :=
  try! m ← call LoadMolecule catch store_err;
  match lm_pending_step m with
  | None => mret (Ok ())
  | Some _ =>
      now ← call Clock;
      try! _ ← call (SaveMolecule (with_pending m None now)) catch store_err;
      mret (Ok ())
  end.

Definition seal_briefing (step : N) : prog life_op () :=
  sealed ← call (SealBriefing step);
  match sealed with
  | None => mret ()
  | Some s =>
      persisted ← with_fleet id (seal_block s);
      match persisted with
      | Err e => call (Warn ("could not persist briefing seal: " +:+ cosmon_to_string e))
      | Ok _ => _ ← call (Emit (EvBriefingSealed s)); mret ()
      end
  end.

(** The events and the text files, after the advance. *)
Definition record_advance (f : formula) (evidence : string) (updated : life) (out : evolve_outcome) :
    prog life_op (result evolve_error ()) :=
  let step := ci_index (eo_completed_step out) in
  _ ← call (Emit (EvEvolvedLegacy step (lm_total_steps updated)));
  _ ← call (Emit (EvStepCompleted step (lm_total_steps updated) (non_empty evidence)));
  _ ← match eo_new_state out with
      | AllDone => _ ← call (Emit (EvCompleted "all steps completed" (non_empty evidence))); mret ()
      | ActiveAt _ _ _ => mret ()
      end;
  existing ← call ReadLog;
  try! _ ← call (WriteLog ((if is_empty existing then log_header else existing) +:+ eo_log_entry out))
    catch (λ e, OpEffect ("failed to write log.md: " +:+ e));
  try! _ ← call (WriteBriefing
      match eo_briefing out with
      | Some b => render_task (lm_variables updated) +:+ b
      | None => completed_briefing
      end) catch (λ e, OpEffect ("failed to write briefing.md: " +:+ e));
  try! _ ← call DeliverPosture catch OpEffect;
  mret (Ok ()).

(** [u32::try_from(..).unwrap_or(u32::MAX)] *)
Definition seal_step (m : life) : N := u32_max `min` N.of_nat (lm_current_step m).

(** [evolve]; [after_advance] is the effect of the same name, which may change
    the record in hand. *)
Definition evolve_op (after_advance : life → evolve_outcome → prog life_op (result string life))
    (f : formula) (evidence : string) : prog life_op (result evolve_error evolve_view) :=
  try! adv ← with_fleet store_err (advance_block f evidence) catch id;
  try! updated ← after_advance adv.1 adv.2 catch OpEffect;
  try! _ ← record_advance f evidence updated adv.2 catch id;
  _ ← seal_briefing (seal_step updated);
  try! _ ← call (AfterBriefing (seal_step updated)) catch OpEffect;
  try! _ ← with_fleet store_err clear_pending_block catch id;
  mret (Ok (EvolveView updated adv.2)).

(** The default of the trait, which the remote route keeps. *)
Definition no_after_advance (m : life) (_ : evolve_outcome) : prog life_op (result string life) := mret (Ok m).

(** ** The gate of the command line *)

Definition gate_evidence (next : fstep) : string := "gate step " +:+ quoted (s_id next) +:+ " auto-executed (exit 0)".

(** The gate step is pushed; the status changes at the end only. *)
Definition gate_advanced (m : life) (next : fstep) (out : evolve_outcome) (now : Z) : life :=
  let '(st, k) :=
    match eo_new_state out with
    | ActiveAt k _ _ => (lm_status m, k)
    | AllDone =>
        (if lm_freeze_on_last_step m then MoleculeStatus.Frozen else MoleculeStatus.Completed, lm_total_steps m)
    end in
  Life st (lm_kind m) now (lm_total_steps m) k (lm_completed_steps m ++ [s_id next])
    (lm_energy_budget m) (lm_freeze_on_last_step m) (lm_pending_step m) (Some now) (Some now)
    (lm_briefing_seals m) (lm_tags m) (lm_stuck_at m) (lm_collapse_reason m) (lm_variables m).

Definition gate_block (f : formula) (next : fstep) (m : life) : prog life_op (result string life) :=
  match simple_id_new "StepId" (s_id next) with
  | Err e => mret (Err (id_error_to_string e))
  | Ok _ =>
      now ← call Clock;
      match evolve (lm_status m) (lm_current_step m) (lm_completed_steps m) f
              (EvolveRequest (gate_evidence next) now) with
      | Err e => mret (Err (refusal_to_string e))
      | Ok out =>
          later ← call Clock;
          let m' := gate_advanced m next out later in
          _ ← (if bool_decide (lm_status m' = MoleculeStatus.Completed) then call OnCompleted else mret ());
          try! _ ← call (SaveMolecule m') catch cosmon_to_string;
          _ ← call (Emit (EvStepCompleted (ci_index (eo_completed_step out)) (length (f_steps f))
                     (Some (gate_evidence next))));
          _ ← match eo_new_state out with
              | AllDone =>
                  _ ← call (Emit (EvCompleted ("gate step " +:+ quoted (s_id next) +:+
                             " auto-executed, all steps done") (Some (gate_evidence next))));
                  mret ()
              | ActiveAt _ _ _ => mret ()
              end;
          mret (Ok m')
      end
  end.

Definition gate_failed (reason : string) (m : life) : prog life_op (result string life) :=
  now ← call Clock;
  let m' := with_status m MoleculeStatus.Collapsed now (lm_stuck_at m) (Some reason) in
  try! _ ← call (SaveMolecule m') catch cosmon_to_string;
  mret (Ok m').

Definition step_name (s : fstep) : string := if is_empty (s_title s) then s_id s else s_title s.

(** [auto_commit_and_gate]: the record in hand is saved as it is; it is not
    read again under the lock. *)
Definition auto_commit_and_gate (f : formula) (m : life) (out : evolve_outcome) : prog life_op (result string life) :=
  let done := ci_index (eo_completed_step out) in
  _ ← call (CommitStep (S done) (default EmptyString (step_name <$> f_steps f !! done)) "step");
  match eo_new_state out with
  | AllDone => mret (Ok m)
  | ActiveAt k _ _ =>
      match f_steps f !! k with
      | None => mret (Ok m)
      | Some next =>
          match s_command next with
          | None => mret (Ok m)
          | Some command =>
              try! _ ← call EnsureTrusted catch id;
              ran ← call (RunGate command);
              match ran with
              | Ok _ =>
                  try! m' ← with_fleet cosmon_to_string (gate_block f next m) catch id;
                  _ ← call (CommitStep (length (lm_completed_steps m') `min` length (f_steps f)) (step_name next) "gate");
                  mret (Ok m')
              | Err reason => with_fleet cosmon_to_string (gate_failed reason m)
              end
          end
      end
  end.
End Ops.

(** ** Freeze, thaw, stuck *)

(** The errors of the five operations, with the status codes of [OpsError]. *)
Inductive life_error : Type :=
| ErrMoleculeNotFound
| ErrTerminalStatus (status : molecule_status)
| ErrInvalidStatus (status : molecule_status)
| ErrEmptyReason
| ErrNoQuestions
| ErrEmptyRequest
| ErrProtectedReservation (tag : string)
| ErrProtectedDecisionOptIn (tag : string)
| ErrStoreUnavailable (why : string).

Definition life_http_status (e : life_error) : Z :=
  match e with
  | ErrMoleculeNotFound => 404
  | ErrTerminalStatus _ | ErrInvalidStatus _ => 409
  | ErrEmptyReason | ErrNoQuestions | ErrEmptyRequest => 400
  | ErrProtectedReservation _ | ErrProtectedDecisionOptIn _ => 403
  | ErrStoreUnavailable _ => 503
  end.

Definition life_err (e : cosmon_error) : life_error :=
  match e with ENotFound _ => ErrMoleculeNotFound | other => ErrStoreUnavailable (cosmon_to_string other) end.

(** The subject of a call: its identifier, ["operator"] for the operator. *)
Definition derive_subject_kind (subject : string) : string :=
  if decide (subject = "operator") then "operator" else "jwt:" +:+ subject.

Definition authz (verb subject : string) : prog life_op () :=
  _ ← call (Emit (EvAuthzDecision verb (derive_subject_kind subject) (bool_decide (subject = "operator"))));
  mret ().

(** The view of freeze, thaw and stuck: the status before, and whether the
    molecule already was where it goes. *)
Record status_view := StatusView { sv_previous : molecule_status; sv_already : bool }.

Definition freeze (subject : string) (reason : option string) : prog life_op (result life_error status_view) :=
  try! m ← call LoadMolecule catch life_err;
  let prev := lm_status m in
  if bool_decide (prev = MoleculeStatus.Frozen) then
    _ ← authz "freeze" subject; mret (Ok (StatusView prev true))
  else if is_terminal prev then mret (Err (ErrTerminalStatus prev))
  else
    now ← call Clock;
    try! _ ← call (SaveMolecule (with_status m MoleculeStatus.Frozen now (lm_stuck_at m) (lm_collapse_reason m)))
      catch life_err;
    _ ← call (Emit (EvStatusChanged (status_as_str prev) "frozen"));
    _ ← match reason with
        | Some r => _ ← call (Emit (EvStuck (stuck_reason_from r))); mret ()
        | None => mret ()
        end;
    _ ← authz "freeze" subject;
    mret (Ok (StatusView prev false)).

Definition thaw (subject : string) : prog life_op (result life_error status_view) :=
  try! m ← call LoadMolecule catch life_err;
  let prev := lm_status m in
  if bool_decide (prev = MoleculeStatus.Running) then
    _ ← authz "thaw" subject; mret (Ok (StatusView prev true))
  else if bool_decide (prev ≠ MoleculeStatus.Frozen) then mret (Err (ErrInvalidStatus prev))
  else
    now ← call Clock;
    try! _ ← call (SaveMolecule (with_status m MoleculeStatus.Running now None (lm_collapse_reason m))) catch life_err;
    _ ← call (Emit (EvStatusChanged (status_as_str prev) "running"));
    _ ← authz "thaw" subject;
    mret (Ok (StatusView prev false)).

Definition stuck (subject reason : string) : prog life_op (result life_error status_view) :=
  if is_empty (trim reason) then mret (Err ErrEmptyReason)
  else
    try! m ← call LoadMolecule catch life_err;
    let prev := lm_status m in
    if is_terminal prev then mret (Err (ErrTerminalStatus prev))
    else
      let already := bool_decide (prev = MoleculeStatus.Frozen) in
      now ← call Clock;
      try! _ ← call (SaveMolecule (with_status m MoleculeStatus.Frozen now (Some now) (lm_collapse_reason m)))
        catch life_err;
      _ ← (if already then mret () else _ ← call (Emit (EvStatusChanged (status_as_str prev) "frozen")); mret ());
      _ ← call (Emit (EvStuck (stuck_reason_from reason)));
      _ ← authz "stuck" subject;
      mret (Ok (StatusView prev already)).

(** ** Tag *)

Definition is_runtime_reservation (tag : string) : bool :=
  bool_decide (tag ∈ ["hold:human"; "needs-review"; "needs-review-cross-provider"; "security"]) ||
  starts_with "security:" tag.

Record tag_delta := TagDelta {
  td_before : nat;
  td_after : nat;
  td_requested_add : list string;
  td_requested_remove : list string;
  td_final : gset string;
}.

Definition tag (subject_kind : string) (add remove : list string) : prog life_op (result life_error tag_delta) :=
  _ ← call (Emit (EvAuthzDecision "tag" subject_kind (bool_decide (subject_kind = "operator"))));
  match add, remove with
  | [], [] => mret (Err ErrEmptyRequest)
  | _, _ =>
      match list_find (λ t, is_runtime_reservation t = true) remove with
      | Some (_, t) => mret (Err (ErrProtectedReservation t))
      | None =>
          try! m ← call LoadMolecule catch life_err;
          if bool_decide (lm_kind m = Some Decision) && bool_decide ("auto:ok" ∈ add) then
            mret (Err (ErrProtectedDecisionOptIn "auto:ok"))
          else
            let tags := (lm_tags m ∪ list_to_set add) ∖ list_to_set remove in
            now ← call Clock;
            try! _ ← call (SaveMolecule (with_tags m tags now)) catch life_err;
            mret (Ok (TagDelta (size (lm_tags m)) (size tags) add remove tags))
      end
  end.

(** ** Await operator *)

Inductive await_outcome : Type :=
| OperatorBlocked (b : irreversible_boundary) (since : Z)
| SurfaceAndContinue.

Record await_view := AwaitView { av_questions : list string; av_outcome : await_outcome }.

(** The two tags are valid, so [Tag::new] does not fail. *)
Definition await_operator (subject : string) (questions : list string) : prog life_op (result life_error await_view) :=
  let questions := filter (λ q, is_empty q = false) (trim <$> questions) in
  match questions with
  | [] => mret (Err ErrNoQuestions)
  | _ =>
      try! m ← call LoadMolecule catch life_err;
      if is_terminal (lm_status m) then mret (Err (ErrTerminalStatus (lm_status m)))
      else
        match capability_from_tags (lm_tags m) with
        | None =>
            _ ← authz "await-operator" subject;
            mret (Ok (AwaitView questions SurfaceAndContinue))
        | Some b =>
            now ← call Clock;
            let tags := {[alert_tag b]} ∪ ({[awaiting_op_tag]} ∪ lm_tags m) in
            try! _ ← call (SaveMolecule (with_tags m tags now)) catch life_err;
            _ ← call (Emit (EvBlockedOnOperator b now));
            _ ← authz "await-operator" subject;
            mret (Ok (AwaitView questions (OperatorBlocked b now)))
        end
  end.
