(* ===== verification/LifeRuns.v ===== *)
(** Evolves that run at the same time, fail at any operation and are killed at
    any point ([crates/cosmon-state/src/ops/evolve.rs] with the effects of the
    remote route): the steps of a molecule are completed in the order of the
    formula, each by one call. The operations that do not take the fleet lock,
    and the gate of the command line, which does not read again under it, do
    not keep this; [LifeSamples] has the schedules. *)
From stdpp Require Import prelude gmap strings relations list.
From S2P Require Import Prelude Text Ids Molecule Links Concurrent Store Formula Evolve LifeOps.

Section Runs.
Context `{EvolveText} (mol_id : mid) (f : formula) (k0 : nat).

Definition step_ids : list string := s_id <$> f_steps f.

(** The completed steps are the first ones of the formula, and the position is
    after them. *)
Record in_order (m : life) : Prop := {
  io_total : lm_total_steps m = length (f_steps f);
  io_current : lm_current_step m = length (lm_completed_steps m);
  io_completed : lm_completed_steps m = take (length (lm_completed_steps m)) step_ids;
}.

Record life_inv (s : life_store) : Prop := {
  lv_molecule : ∃ m, ls_molecule s = Some m ∧ in_order m ∧
    (ls_advances s).*2 = seq k0 (length (lm_completed_steps m) - k0) ∧ k0 ≤ length (lm_completed_steps m);
}.

Definition same_progress (m m' : life) : Prop :=
  lm_total_steps m' = lm_total_steps m ∧ lm_current_step m' = lm_current_step m ∧
  lm_completed_steps m' = lm_completed_steps m.

(** Writers that are not evolves take the lock and leave the progress. *)
Definition life_others (s s' : life_store) : Prop :=
  ls_lock s = None ∧ ls_lock s' = None ∧ ls_advances s' = ls_advances s ∧
  ∃ m m', ls_molecule s = Some m ∧ ls_molecule s' = Some m' ∧ same_progress m m'.

Record life_does (t : nat) (s s' : life_store) : Prop := {
  lo_lock : ls_lock s' = ls_lock s ∨ ls_lock s = None ∧ ls_lock s' = Some t ∨ ls_lock s = Some t ∧ ls_lock s' = None;
  lo_molecule : ls_lock s = Some t ∨ ls_molecule s' = ls_molecule s;
  lo_advances : ∃ l, ls_advances s' = ls_advances s ++ l;
}.

Definition remote_evolve (evidence : string) : prog life_op (result evolve_error evolve_view) :=
  evolve_op no_after_advance f evidence.

#[local] Instance life_machine : Machine life_op life_store (result evolve_error evolve_view) := {
  choice := outside;
  exec := exec_life mol_id;
  release := release_fleet;
  others := life_others;
  client p := ∃ evidence, p = remote_evolve evidence;
}.

Abbreviation Rely := (rely life_inv life_does).
Abbreviation Stable := (stable life_inv life_does).
Abbreviation Wp := (wp life_inv life_does).

Definition completed_by (t : nat) (r : result evolve_error evolve_view) (s : life_store) : Prop :=
  match r with
  | Ok v => (t, ci_index (eo_completed_step (vw_outcome v))) ∈ ls_advances s
  | Err _ => True
  end.

(** ** Steps *)

Lemma life_does_refl t s : life_does t s s.
Proof. constructor; [by left|by right|exists []; by rewrite app_nil_r]. Qed.

Lemma release_fleet_ok t s : life_inv s → life_inv (release_fleet t s) ∧ life_does t s (release_fleet t s).
Proof.
  intros HI. unfold release_fleet. case_decide as Hl; [|split; [done|apply life_does_refl]].
  split; [destruct HI as [HI]; by constructor|].
  constructor; cbn; [by right; right|by left|exists []; by rewrite app_nil_r].
Qed.

Lemma rely_advances t s s' : Rely t s s' → ∃ l, ls_advances s' = ls_advances s ++ l.
Proof.
  intros (_ & _ & [(_ & _ & -> & _)|(t' & _ & Hd)]); [exists []; by rewrite app_nil_r|apply Hd].
Qed.

(** What grows stays. *)
Definition grows (P : life_store → Prop) : Prop :=
  ∀ s s' l, P s → ls_advances s' = ls_advances s ++ l → P s'.

Lemma grows_stable t P : grows P → Stable t P.
Proof. intros HP s s' Hs Hr. destruct (rely_advances t s s' Hr) as [l Hl]. by eapply HP. Qed.

Lemma grows_frame {B} t (p : prog life_op B) Q (P : life_store → Prop) s :
  grows P → P s → Wp t p Q s → Wp t p (λ b s, Q b s ∧ P s) s.
Proof.
  intros HP. apply wp_frame; [by apply grows_stable|]. intros s1 s2 Hs1 HG.
  destruct (lo_advances t s1 s2 HG) as [l Hl]. by eapply HP.
Qed.

Definition held (t : nat) (m : life) (s : life_store) : Prop := ls_lock s = Some t ∧ ls_molecule s = Some m.
Definition locked (t : nat) (s : life_store) : Prop := ls_lock s = Some t.

Lemma held_life_stable t m : Stable t (held t m).
Proof.
  intros s s' [Hl Hm] (_ & _ & [(Hn & _)|(t' & Hne & [Hlk Hmol _])]); [congruence|].
  split; [destruct Hlk as [->|[[? _]|[? _]]]; [done|congruence..]|].
  destruct Hmol as [?| ->]; [congruence|done].
Qed.

Lemma fleet_locked_stable t : Stable t (locked t).
Proof.
  unfold locked. intros s s' Hl (_ & _ & [(Hn & _)|(t' & Hne & [Hlk _ _])]); [congruence|].
  destruct Hlk as [->|[[? _]|[? _]]]; [done|congruence..].
Qed.

Lemma trivial_stable t : Stable t (λ _, True).
Proof. done. Qed.

(** An operation that leaves the store. *)
Definition quiet {R} (o : life_op R) : Prop :=
  ∀ c t s r s', exec_life mol_id c t R o s = Some (r, s') → s' = s.

Lemma wp_quiet {B R} t (o : life_op R) (k : R → prog life_op B) Q (P : life_store → Prop) s :
  quiet o → Stable t P → P s → (∀ r s, P s → Wp t (k r) Q s) → Wp t (r ← call o; k r) Q s.
Proof.
  intros Ho HP Hs Hk. eapply wp_call; [done..|]. intros s1 c r s2 HP1 HI He.
  apply Ho in He as ->. split_and!; [done|apply life_does_refl|by apply Hk].
Qed.

(** The same at the end of a block. *)
Lemma wp_quiet_last {R} t (o : life_op R) (P : life_store → Prop) s :
  quiet o → Stable t P → P s → Wp t (call o) (λ _, P) s.
Proof.
  intros Ho HP Hs. unfold call. eapply wp_vis; [done..|]. intros s1 c r s2 HP1 HI He.
  apply Ho in He as ->. split_and!; [done|apply life_does_refl|done].
Qed.

Lemma quiet_fated {A} c (s : life_store) (r : result cosmon_error (A * life_store)) x s' :
  (∀ a s'', r = Ok (a, s'') → s'' = s) → fated c s r = Some (x, s') → s' = s.
Proof.
  intros Hr. unfold fated. destruct (os_fate c); [|by intros [= _ <-]..].
  destruct r as [[a s'']|e]; intros [= _ <-]; [by eapply Hr|done].
Qed.

Ltac solve_quiet :=
  intros ?c ?t ?s ?r ?s'; cbn [exec_life];
  first [ by intros [= _ <-]
        | apply quiet_fated; intros ?a ?s''; case_match; by intros [= _ <-] ].

Lemma load_life_wp {B} t (k : result cosmon_error life → prog life_op B) Q s :
  locked t s → (∀ e s, locked t s → Wp t (k (Err e)) Q s) → (∀ m s, held t m s → Wp t (k (Ok m)) Q s) →
  Wp t (r ← call LoadMolecule; k r) Q s.
Proof.
  intros Hl He Hok. eapply wp_call; [apply fleet_locked_stable|done|].
  intros s1 c r s2 Hl1 HI Hs. cbn [exec life_machine exec_life] in Hs.
  assert (s2 = s1 ∧ ∀ m, r = Ok m → ls_molecule s1 = Some m) as [-> Hm].
  { unfold fated in Hs. destruct (os_fate c), (ls_molecule s1); injection Hs as <- <-; (split; [done|by intros ? [= <-]]). }
  split_and!; [done|apply life_does_refl|]. destruct r as [m|e]; [apply Hok; split; auto|by apply He].
Qed.

(** A save under the lock that keeps the progress, or completes the next
    step. *)
Definition next_of (m m' : life) : Prop :=
  lm_total_steps m' = lm_total_steps m ∧ lm_current_step m' = S (lm_current_step m) ∧
  ∃ s, f_steps f !! lm_current_step m = Some s ∧ lm_completed_steps m' = lm_completed_steps m ++ [s_id s].

Lemma save_keeps t m m' s c r s' :
  held t m s → life_inv s → same_progress m m' ∨ next_of m m' →
  exec_life mol_id c t _ (SaveMolecule m') s = Some (r, s') →
  life_inv s' ∧ life_does t s s' ∧ locked t s' ∧
  (r = Ok () → next_of m m' → (t, lm_current_step m) ∈ ls_advances s').
Proof.
  intros [Hl Hm] HI Hp. cbn [exec_life]. unfold fated.
  destruct (os_fate c); [|intros [= <- <-]; split_and!; [done|apply life_does_refl|done|done]..].
  destruct (save_refused s m'); intros [= <- <-]; [split_and!; [done|apply life_does_refl|done|done]|].
  destruct HI as [(m0 & Hm0 & [Ht Hc Hio] & Hadv & Hk)]. rewrite Hm in Hm0. injection Hm0 as <-.
  unfold put_life, advances_by. rewrite Hm. cbn [fmap option_fmap option_map default from_option id].
  destruct Hp as [(Ht' & Hc' & Hs')|(Ht' & Hc' & st & Hst & Hs')].
  - rewrite Hs', Nat.sub_diag. cbn [seq fmap list_fmap]. rewrite app_nil_r.
    split_and!.
    + constructor. exists m'. rewrite Hs'. split_and!; [done| |done|done].
      constructor; [congruence|congruence|]. by rewrite Hs'.
    + constructor; cbn; [by left|by left|exists []; by rewrite app_nil_r].
    + done.
    + intros _ (_ & Hc'' & _). lia.
  - assert (length (lm_completed_steps m') - length (lm_completed_steps m) = 1) as ->
      by (rewrite Hs', length_app; cbn; lia).
    cbn [seq fmap list_fmap]. split_and!.
    + constructor. exists m'. cbn [ls_molecule ls_advances]. rewrite fmap_app, Hadv. rewrite Hs', length_app. cbn.
      split_and!; [done| | |lia].
      * constructor; [congruence|rewrite Hc', Hs', length_app; cbn; lia|].
        rewrite Hs', length_app. cbn. rewrite Nat.add_1_r.
        rewrite (take_S_r step_ids (length (lm_completed_steps m)) (s_id st)) by
          (unfold step_ids; by rewrite list_lookup_fmap, <- Hc, Hst).
        by rewrite <- Hio.
      * replace (length (lm_completed_steps m) + 1 - k0) with (S (length (lm_completed_steps m) - k0)) by lia.
        rewrite seq_S. f_equal. cbn. f_equal. lia.
    + constructor; cbn; [by left|by left|by eexists].
    + done.
    + intros _ _. cbn. rewrite elem_of_app, list_elem_of_singleton, Hc. by right.
Qed.

(** ** The blocks *)

Lemma with_fleet_wp {E A} t (err : cosmon_error → E) (block : prog life_op (result E A)) Q s :
  (∀ r, grows (Q r)) → (∀ e s, Q (Err (err e)) s) → (∀ s, locked t s → Wp t block Q s) →
  Wp t (with_fleet err block) Q s.
Proof.
  intros HQ He Hb. unfold with_fleet, try. eapply wp_call; [apply trivial_stable|done|].
  intros s1 c r s2 _ HI Hs. cbn [exec life_machine exec_life] in Hs.
  destruct (ls_lock s1) eqn:Hl; [done|]. unfold fated in Hs.
  destruct (os_fate c); injection Hs as <- <-;
    [|split_and!; [done|apply life_does_refl|apply He]..].
  split_and!.
  - destruct HI as [HI]. by constructor.
  - constructor; cbn; [by right; left|by right|exists []; by rewrite app_nil_r].
  - apply wp_bind. eapply wp_mono; [|by apply Hb]. intros b s' HQb.
    eapply wp_call; [by apply grows_stable, HQ|done|]. intros s3 c' u s4 HQ3 HI3 [= <- <-].
    destruct (release_fleet_ok t s3 HI3). split_and!; [done..|]. cbn. eapply HQ; [done|].
    unfold release_fleet. case_decide; cbn; by rewrite app_nil_r.
Qed.

(** A save under the lock that ends what the block does to the store. *)
Lemma save_wp {B} t m m' (k : result cosmon_error () → prog life_op B) Q s :
  held t m s → same_progress m m' →
  (∀ r s, locked t s → Wp t (k r) Q s) → Wp t (r ← call (SaveMolecule m'); k r) Q s.
Proof.
  intros Hh Hp Hk. eapply wp_call; [apply held_life_stable|done|]. intros s1 c r s2 Hh1 HI Hs.
  destruct (save_keeps t m m' s1 c r s2 Hh1 HI (or_introl Hp) Hs) as (? & ? & ? & _).
  split_and!; [done..|by apply Hk].
Qed.

Lemma clock_wp {B} t (k : Z → prog life_op B) Q P s :
  Stable t P → P s → (∀ now s, P s → Wp t (k now) Q s) → Wp t (now ← call Clock; k now) Q s.
Proof. intros. apply (wp_quiet t Clock k Q P); [solve_quiet|done..]. Qed.

Lemma emit_wp {B} t e (k : option N → prog life_op B) Q P s :
  Stable t P → P s → (∀ r s, P s → Wp t (k r) Q s) → Wp t (r ← call (Emit e); k r) Q s.
Proof. intros. apply (wp_quiet t (Emit e) k Q P); [solve_quiet|done..]. Qed.

Definition any {B} : B → life_store → Prop := λ _ _, True.

Lemma park_frozen_wp t m reason s : held t m s → Wp t (park_frozen m reason) any s.
Proof.
  intros Hh. unfold park_frozen. eapply clock_wp; [apply held_life_stable|done|]. clear s Hh. intros now s Hh.
  unfold try. eapply save_wp; [done|by split_and!|]. intros [[]|e] s1 _; [|done].
  by eapply emit_wp; [apply trivial_stable|done|].
Qed.

Lemma warn_all_wp t l m s : held t m s → Wp t (warn_all l) (λ _, held t m) s.
Proof.
  revert s. induction l as [|w l IH]; intros s Hh; cbn [warn_all]; [done|].
  eapply wp_quiet; [solve_quiet|apply held_life_stable|done|]. intros _ s1 Hh1. by apply IH.
Qed.

Lemma check_artifacts_wp t expected m s : held t m s → Wp t (check_artifacts expected) (λ _, held t m) s.
Proof.
  intros Hh. unfold check_artifacts. eapply wp_quiet; [solve_quiet|apply held_life_stable|done|].
  clear s Hh. intros [|x missing] s Hh; [done|].
  eapply wp_quiet; [solve_quiet|apply held_life_stable|done|]. clear s Hh. intros [|y back] s Hh; [done|].
  apply wp_quiet_last; [solve_quiet|apply held_life_stable|done].
Qed.

Lemma judge_wp t m step verdict s :
  held t m s → Wp t (judge m step verdict) (λ stop s, stop = None → held t m s) s.
Proof.
  intros Hh. unfold judge. destruct verdict as [u|[o n|reason|w|msg]]; [by intros _|done| |done|done].
  apply wp_bind. eapply wp_mono; [|by apply park_frozen_wp]. by intros [u|e] s' _.
Qed.

Lemma advanced_next m out now started s :
  f_steps f !! lm_current_step m = Some s →
  eo_completed_step out = CompletedStepInfo (s_id s) (s_title s) (lm_current_step m) →
  (eo_new_state out = AllDone ↔ S (lm_current_step m) = length (f_steps f)) →
  (∀ j i title, eo_new_state out = ActiveAt j i title → j = S (lm_current_step m)) →
  lm_total_steps m = length (f_steps f) →
  next_of m (with_pending (advanced (spent m) out now)
    (Some (PendingStep (lm_current_step (advanced (spent m) out now)) started None)) now).
Proof.
  intros Hs Hci Hdone Hact Htot. unfold next_of, advanced. rewrite Hci.
  destruct (eo_new_state out) as [j i title|] eqn:Hns; cbn.
  - split_and!; [done|by eapply Hact|by eauto].
  - split_and!; [done| |by eauto]. rewrite Htot. symmetry. by apply Hdone.
Qed.

Lemma commit_advance_wp t m out evidence now s :
  held t m s →
  evolve (lm_status m) (lm_current_step m) (lm_completed_steps m) f (EvolveRequest evidence now) = Ok out →
  Wp t (commit_advance m out)
    (λ r s, match r with Ok (_, out') => (t, ci_index (eo_completed_step out')) ∈ ls_advances s | Err _ => True end) s.
Proof.
  intros Hh Hev. unfold commit_advance. destruct (simple_id_new _ _); [|done].
  eapply clock_wp; [apply held_life_stable|done|]. clear s Hh. intros n1 s Hh.
  eapply clock_wp; [apply held_life_stable|done|]. clear s Hh. intros n2 s Hh.
  apply wp_bind. eapply wp_mono with (Q := λ _, held t m).
  2:{ destruct (bool_decide _); [|done]. apply wp_quiet_last; [solve_quiet|apply held_life_stable|done]. }
  clear s Hh. intros _ s Hh. unfold try.
  eapply wp_call; [apply held_life_stable|done|]. intros s1 c r s2 Hh1 HI Hs.
  destruct (evolve_outcome_step _ _ _ _ _ _ Hev) as (st & Hst & Hci & Hdone & Hact).
  assert (next_of m (with_pending (advanced (spent m) out n1)
    (Some (PendingStep (lm_current_step (advanced (spent m) out n1)) n2 None))
    (lm_updated_at (advanced (spent m) out n1)))) as Hnext.
  { assert (lm_updated_at (advanced (spent m) out n1) = n1) as -> by (unfold advanced; by destruct (eo_new_state out)).
    eapply advanced_next; [done..| |]; [by intros j i title Hj; destruct (Hact j i title Hj)|].
    destruct HI as [(m0 & Hm0 & [Ht _ _] & _)]. destruct Hh1 as [_ Hm1]. congruence. }
  destruct (save_keeps t m _ s1 c r s2 Hh1 HI (or_intror Hnext) Hs) as (? & ? & ? & Hin).
  split_and!; [done..|]. destruct r as [[]|e]; [|done]. cbn. rewrite Hci. by apply Hin.
Qed.

Lemma advance_block_wp t evidence s :
  locked t s →
  Wp t (advance_block f evidence)
    (λ r s, match r with Ok (_, out) => (t, ci_index (eo_completed_step out)) ∈ ls_advances s | Err _ => True end) s.
Proof.
  intros Hl. unfold advance_block, try at 1. apply load_life_wp; [done|done|]. clear s Hl. intros m s Hh.
  destruct (is_terminal _); [done|]. destruct (match lm_energy_budget m with Some b => _ | None => _ end).
  { unfold try. apply wp_bind. eapply wp_mono; [|by apply park_frozen_wp]. by intros [u|e] s' _. }
  eapply clock_wp; [apply held_life_stable|done|]. clear s Hh. intros now s Hh.
  destruct (evolve _ _ _ _ _) as [out|e] eqn:Hev; [|done].
  apply wp_bind. eapply wp_mono with (Q := λ _, held t m); [|by apply warn_all_wp]. clear s Hh. intros _ s Hh.
  destruct (f_steps f !! _) as [st|]; [|done].
  eapply wp_quiet; [solve_quiet|apply held_life_stable|done|]. clear s Hh. intros verdict s Hh.
  apply wp_bind. eapply wp_mono; [|by apply judge_wp]. clear s Hh. intros [e|] s Hh; [done|].
  specialize (Hh eq_refl). apply wp_bind. eapply wp_mono with (Q := λ _, held t m); [|by apply check_artifacts_wp].
  clear s Hh. intros [|x missing] s Hh; [|done]. by eapply commit_advance_wp.
Qed.

(** ** After the advance *)

Lemma seal_block_wp t seal s : locked t s → Wp t (seal_block seal) any s.
Proof.
  intros Hl. unfold seal_block, try. apply load_life_wp; [done|done|]. clear s Hl. intros m s Hh.
  eapply clock_wp; [apply held_life_stable|done|]. clear s Hh. intros now s Hh.
  unfold call. change (Vis _ Ret) with (r ← call (SaveMolecule (with_seal m seal now)); mret r).
  eapply save_wp; [done|by split_and!|done].
Qed.

Lemma clear_pending_wp t s : locked t s → Wp t clear_pending_block any s.
Proof.
  intros Hl. unfold clear_pending_block, try at 1. apply load_life_wp; [done|done|]. clear s Hl. intros m s Hh.
  destruct (lm_pending_step m); [|done].
  eapply clock_wp; [apply held_life_stable|done|]. clear s Hh. intros now s Hh.
  unfold try. eapply save_wp; [done|by split_and!|]. by intros [[]|e] s' _.
Qed.

Lemma any_grows {B} (r : B) : grows (any r).
Proof. done. Qed.

Lemma quiet_any {B R} t (o : life_op R) (k : R → prog life_op B) s :
  quiet o → (∀ r s, Wp t (k r) any s) → Wp t (r ← call o; k r) any s.
Proof. intros Ho Hk. by eapply wp_quiet; [done|apply trivial_stable|done|]. Qed.

Lemma record_advance_wp t evidence updated out s : Wp t (record_advance f evidence updated out) any s.
Proof.
  unfold record_advance. apply quiet_any; [solve_quiet|]. intros _ s1. apply quiet_any; [solve_quiet|].
  intros _ s2. apply wp_bind. eapply wp_mono with (Q := any).
  2:{ destruct (eo_new_state out); [done|]. by apply quiet_any; [solve_quiet|]. }
  intros _ s3 _. apply quiet_any; [solve_quiet|]. intros existing s4. unfold try.
  apply quiet_any; [solve_quiet|]. intros [[]|e] s5; [|done].
  apply quiet_any; [solve_quiet|]. intros [[]|e] s6; [|done].
  apply quiet_any; [solve_quiet|]. by intros [[]|e] s7.
Qed.

Lemma seal_briefing_wp t step s : Wp t (seal_briefing step) any s.
Proof.
  unfold seal_briefing. apply quiet_any; [solve_quiet|]. intros [seal|] s1; [|done].
  apply wp_bind. eapply wp_mono; [|apply with_fleet_wp with (Q := any);
    [apply any_grows|done|intros; by apply seal_block_wp]].
  intros [[]|e] s2 _; [by apply quiet_any; [solve_quiet|]|].
  by apply wp_quiet_last with (P := λ _, True); [solve_quiet|apply trivial_stable|].
Qed.

Lemma remote_evolve_wp t evidence s : Wp t (remote_evolve evidence) (completed_by t) s.
Proof.
  unfold remote_evolve, evolve_op, try at 1. apply wp_bind.
  eapply wp_mono; [|apply with_fleet_wp with (Q := λ r s, match r with
      Ok (_, out) => (t, ci_index (eo_completed_step out)) ∈ ls_advances s | Err _ => True end)].
  - intros [[m out]|e] s1 Hin; [|done]. cbn [fst snd].
    eapply wp_mono; [|apply grows_frame with (P := λ s, (t, ci_index (eo_completed_step out)) ∈ ls_advances s); [|exact Hin|]].
    + intros b s2 [Hb Hin2]. exact (Hb Hin2).
    + intros s2 s3 l H2 ->. rewrite elem_of_app. by left.
    + unfold no_after_advance, try at 1. cbn [mbind prog_mbind prog_bind mret prog_ret].
      unfold try at 1. apply wp_bind. eapply wp_mono; [|apply record_advance_wp]. intros [[]|e] s2 _; [|done].
      apply wp_bind. eapply wp_mono; [|apply seal_briefing_wp]. intros _ s3 _. unfold try at 1.
      eapply wp_quiet; [solve_quiet|apply trivial_stable|done|]. intros [[]|e] s4 _; [|done].
      unfold try at 1. apply wp_bind.
      eapply wp_mono; [|apply with_fleet_wp with (Q := any); [apply any_grows|done|intros; by apply clear_pending_wp]].
      intros [[]|e] s5 _ Hin5; [exact Hin5|done].
  - intros [[m out]|e] s1 s2 l; [|done]. intros Hin ->. rewrite elem_of_app. by left.
  - done.
  - intros s1 Hl. by apply advance_block_wp.
Qed.
End Runs.

(** ** All interleavings *)

Section InOrder.
Context `{EvolveText} (mol_id : mid) (f : formula).
#[local] Existing Instance life_machine.

Abbreviation completed_step r := (ci_index (eo_completed_step (vw_outcome r))).

Lemma life_sound k0 : sound (life_inv f k0) life_does (λ _ _, True) completed_by (M := life_machine mol_id f).
Proof.
  split.
  - intros t p s [evidence ->] _ _. apply remote_evolve_wp.
  - intros t [v|e]; [|done]. apply grows_stable. intros s s' l H1 Hl. cbn. rewrite Hl, elem_of_app. by left.
  - done.
  - apply release_fleet_ok.
  - intros t [v|e] s _; [|done]. cbn. unfold release_fleet. by case_decide.
  - intros s s' [(m & Hm & [Ht Hc Hio] & Hadv & Hk)] (_ & _ & Ha & m1 & m2 & Hm1 & Hm2 & Ht' & Hc' & Hs').
    assert (m1 = m) as -> by congruence. constructor. exists m2. rewrite Hs', Ha.
    split_and!; [done| |done|done]. constructor; [congruence|congruence|]. by rewrite Hs'.
Qed.

(** C7. Whatever evolves of one molecule run at the same time, fail at any
    operation or are killed at any point, with other writers that take the
    fleet lock: the completed steps are always the first steps of the formula
    in its order, the position is after them, each step that was completed
    since the start was completed by one call, and what a call answers is a
    step that this call completed; so no two calls answer the same step. *)
Theorem evolve_in_order s0 m0 y :
  ls_molecule s0 = Some m0 → in_order f m0 → ls_advances s0 = [] →
  reachable s0 y (M := life_machine mol_id f) →
  (∃ m, ls_molecule (shared y) = Some m ∧ in_order f m ∧
     (ls_advances (shared y)).*2 = seq (lm_current_step m0) (lm_current_step m - lm_current_step m0)) ∧
  (∀ t v, processes y !! t = Some (Returned (Ok v)) → (t, completed_step v) ∈ ls_advances (shared y)) ∧
  (∀ t1 t2 v1 v2, processes y !! t1 = Some (Returned (Ok v1)) → processes y !! t2 = Some (Returned (Ok v2)) →
     completed_step v1 = completed_step v2 → t1 = t2).
Proof.
  intros Hm0 Hio Ha Hr.
  assert (life_inv f (lm_current_step m0) s0) as HI0.
  { constructor. exists m0. rewrite Ha, (io_current f m0 Hio), Nat.sub_diag. by split_and!. }
  pose proof (reachable_ok _ _ _ _ (life_sound (lm_current_step m0)) s0 y HI0 ltac:(done) Hr) as (HI & Hts & _).
  destruct HI as [(m & Hm & Hio' & Hadv & Hk)].
  assert (∀ t v, processes y !! t = Some (Returned (Ok v)) → (t, completed_step v) ∈ ls_advances (shared y)) as Hin
    by (intros t v Ht; apply (Hts t _ Ht)).
  split_and!; [|done|].
  - exists m. rewrite (io_current f m Hio'). done.
  - intros t1 t2 v1 v2 H1%Hin H2%Hin Heq. rewrite Heq in H1.
    apply list_elem_of_lookup in H1 as [i Hi], H2 as [j Hj].
    assert (NoDup (ls_advances (shared y)).*2) as Hnd by (rewrite Hadv; apply NoDup_seq).
    assert (i = j) as ->.
    { eapply NoDup_lookup; [exact Hnd|by rewrite list_lookup_fmap, Hi|by rewrite list_lookup_fmap, Hj]. }
    congruence.
Qed.
End InOrder.

(** ** Tag *)

Section Tag.
Context `{EvolveText} (mol_id : mid) (f : formula).
#[local] Existing Instance life_machine.

Lemma runs_load cs t (k : result cosmon_error life → prog life_op (result life_error tag_delta)) m s x :
  ls_molecule s = Some m → runs (M := life_machine mol_id f) cs t (r ← call LoadMolecule; k r) s = Some x →
  ∃ cs' r, runs (M := life_machine mol_id f) cs' t (k r) s = Some x ∧
    (r = Ok m ∨ ∃ why, r = Err (EStateStore why)).
Proof.
  intros Hm (c & cs' & r & s1 & -> & He & Hx)%runs_call. cbn [exec life_machine exec_life] in He.
  rewrite Hm in He. unfold fated in He. destruct (os_fate c); injection He as <- <-; eauto 6.
Qed.

Lemma runs_save cs t m' (k : result cosmon_error () → prog life_op (result life_error tag_delta)) s x :
  runs (M := life_machine mol_id f) cs t (r ← call (SaveMolecule m'); k r) s = Some x →
  ∃ cs' r s1, runs (M := life_machine mol_id f) cs' t (k r) s1 = Some x ∧
    (r = Ok () ∧ s1 = put_life t s m' ∨ (∃ why, r = Err (EStateStore why)) ∧ s1 = s).
Proof.
  intros (c & cs' & r & s1 & -> & He & Hx)%runs_call. cbn [exec life_machine exec_life] in He.
  exists cs', r, s1. split; [done|]. unfold fated in He.
  destruct (os_fate c), (save_refused s m'); injection He as <- <-; eauto.
Qed.

(** What a tag answer says of the request and of the record. *)
Definition tag_answered (add remove : list string) (m m' : life) (x : result life_error tag_delta) : Prop :=
  match x with
  | Ok d =>
      td_final d = (lm_tags m ∪ list_to_set add) ∖ list_to_set remove ∧ lm_tags m' = td_final d ∧
      td_before d = size (lm_tags m) ∧ td_after d = size (lm_tags m')
  | Err ErrEmptyRequest => add = [] ∧ remove = [] ∧ m' = m
  | Err (ErrProtectedReservation r) => r ∈ remove ∧ is_runtime_reservation r = true ∧ m' = m
  | Err (ErrProtectedDecisionOptIn r) => r = "auto:ok" ∧ r ∈ add ∧ lm_kind m = Some Decision ∧ m' = m
  | Err (ErrStoreUnavailable _) => m' = m
  | Err _ => False
  end.

(** C34. However the operations of a tag call fare: of the molecule only the
    tags and the time of the last update change, no tag that reserves the
    molecule for a human, a review or security is removed, an answer lists
    exactly the tags that were written, and each refusal leaves the record and
    has its reason. *)
Theorem tag_keeps_reservations cs t kind add remove s m x s' :
  ls_molecule s = Some m → runs (M := life_machine mol_id f) cs t (tag kind add remove) s = Some (x, s') →
  ∃ m', ls_molecule s' = Some m' ∧ m' = with_tags m (lm_tags m') (lm_updated_at m') ∧
    (∀ r, is_runtime_reservation r = true → r ∈ lm_tags m → r ∈ lm_tags m') ∧
    tag_answered add remove m m' x.
Proof.
  intros Hm. unfold tag. intros (c & cs1 & u & s1 & -> & [= _ <-] & Hx)%runs_call.
  assert (∀ x, tag_answered add remove m m x → ∃ m', ls_molecule s = Some m' ∧
    m' = with_tags m (lm_tags m') (lm_updated_at m') ∧
    (∀ r, is_runtime_reservation r = true → r ∈ lm_tags m → r ∈ lm_tags m') ∧
    tag_answered add remove m m' x) as Hsame by (intros y Hy; exists m; by destruct m).
  assert (∀ A (b : A), add ≠ [] ∨ remove ≠ [] → ∀ b', match add, remove with [], [] => b' | _, _ => b end = b) as Hcase
    by (intros A b Hne b'; destruct add, remove; naive_solver).
  destruct (decide (add = [] ∧ remove = [])) as [[-> ->]|Hne].
  { apply runs_ret in Hx as [_ [= -> ->]]. by apply Hsame. }
  rewrite Hcase in Hx by (destruct add, remove; naive_solver). clear Hcase.
  destruct (list_find _ remove) as [[i r]|] eqn:Hfind.
  { apply runs_ret in Hx as [_ [= -> ->]]. apply Hsame. apply list_find_Some in Hfind as (Hi & Hr & _).
    split_and!; [by eapply list_elem_of_lookup_2|done|done]. }
  apply list_find_None in Hfind. rewrite Forall_forall in Hfind.
  unfold try at 1 in Hx. apply (runs_load _ _ _ m) in Hx as (cs2 & r & Hx & [->|[why ->]]); [|apply runs_ret in Hx as [_ [= -> ->]]; by apply Hsame|done].
  destruct (_ && _) eqn:Hdec.
  { apply runs_ret in Hx as [_ [= -> ->]]. apply Hsame. apply andb_true_iff in Hdec as [Hk Ha].
    by rewrite bool_decide_eq_true in Hk, Ha. }
  apply runs_call in Hx as (c2 & cs3 & now & s2 & -> & [= _ <-] & Hx).
  unfold try in Hx. apply runs_save in Hx as (cs4 & r & s3 & Hx & [[-> ->]|[[why ->] ->]]);
    apply runs_ret in Hx as [_ [= -> ->]]; [|by apply Hsame].
  eexists. split_and!; [done|done| |done]. cbn. intros r Hr Hin. apply elem_of_difference. split; [set_solver|].
  rewrite elem_of_list_to_set. intros Hrm. exact (Hfind r Hrm Hr).
Qed.
End Tag.

(** ** Samples *)

Module LifeSamples.
Import EvolveSamples.

Definition works : outside := Outside Works 7 (Ok ()) [] EmptyString (Ok ()) None None.

Definition sample_life (f : formula) : life :=
  Life MoleculeStatus.Running None 0 (length (f_steps f)) 0 [] None false None None None [] ∅ None None ∅.

Definition life_start (f : formula) : life_store := LifeStore (Some (sample_life f)) None [].

Definition sample_id : mid :=
  {| mid_raw := "task-20260101-ab12"; mid_prefix := "task"; mid_date := "20260101"; mid_suffix := "ab12" |}.

#[export] Instance sample_machine : Machine life_op life_store (result evolve_error evolve_view) :=
  life_machine sample_id sample_formula.

Definition sample_evolve : prog life_op (result evolve_error evolve_view) := remote_evolve sample_formula "done".

Definition progress_of (s : life_store) : option (molecule_status * nat * list string) :=
  m ← ls_molecule s; Some (lm_status m, lm_current_step m, lm_completed_steps m).

Definition answer_of (r : result evolve_error evolve_view) : option nat :=
  match r with Ok v => Some (ci_index (eo_completed_step (vw_outcome v))) | Err _ => None end.

(** The first process is killed under the lock, just after it has written; the
    second completes the next step. *)
Definition sample_killed : option (prog life_op (result evolve_error evolve_view) * life_store) :=
  run_for 8 works 0 sample_evolve (life_start sample_formula).
Definition killed_store : life_store :=
  match sample_killed with Some (_, s) => release_fleet 0 s | None => life_start sample_formula end.
Definition sample_next : option (result evolve_error evolve_view * life_store) :=
  run_alone works 1 sample_evolve killed_store.
Definition sample_finish : system life_op life_store (result evolve_error evolve_view) :=
  match sample_next with Some (a, s) => System s [Dead; Returned a] | None => System killed_store [Dead] end.

Example sample_progress :
  progress_of killed_store = Some (MoleculeStatus.Running, 1, ["design"]) ∧
  progress_of (shared sample_finish) = Some (MoleculeStatus.Completed, 2, ["design"; "build"]) ∧
  ls_advances (shared sample_finish) = [(0, 0); (1, 1)].
Proof. vm_compute. done. Qed.

Lemma sample_evolve_client : client sample_evolve.
Proof. by exists "done". Qed.

Lemma sample_finish_reachable : reachable (life_start sample_formula) sample_finish.
Proof.
  unfold reachable, sample_finish. destruct sample_killed as [[p s]|] eqn:Hk; [|by vm_compute in Hk].
  pose proof (start_and_kill 8 works sample_evolve (life_start sample_formula) p s [] sample_evolve_client Hk) as Hkill.
  destruct sample_next as [[a s']|] eqn:Hr; unfold sample_next, killed_store in *; rewrite Hk in *; [|exact Hkill].
  etransitivity; [exact Hkill|]. exact (start_and_run works sample_evolve _ a s' [Dead] sample_evolve_client Hr).
Qed.

Lemma sample_in_order : in_order sample_formula (sample_life sample_formula).
Proof. by constructor. Qed.

Lemma evolve_in_order_witness :
  ∃ m, ls_molecule (shared sample_finish) = Some m ∧ in_order sample_formula m ∧
    (ls_advances (shared sample_finish)).*2 = seq 0 (lm_current_step m).
Proof.
  destruct (evolve_in_order sample_id sample_formula (life_start sample_formula) (sample_life sample_formula)
    sample_finish eq_refl sample_in_order eq_refl sample_finish_reachable) as [(m & Hm & Hio & Hs) _].
  exists m. split; [exact Hm|split; [exact Hio|]]. rewrite Hs. cbn. by rewrite Nat.sub_0_r.
Defined.

(** ** What the lock does not cover *)

(** A freeze does not take the lock. One that has read the molecule before an
    evolve and writes after it takes the completed step back: once thawed, the
    next evolve answers the same step. *)
Definition late_freeze : option (list (option nat) * option (molecule_status * nat * list string)) :=
  '(p, s1) ← run_for (M := sample_machine) 2 works 0 (freeze "operator" None) (life_start sample_formula);
  '(a1, s2) ← run (M := sample_machine) works 1 sample_evolve s1;
  '(_, s3) ← run (M := sample_machine) works 0 p s2;
  '(_, s4) ← run (M := sample_machine) works 2 (thaw "operator") s3;
  '(a2, s5) ← run (M := sample_machine) works 3 sample_evolve s4;
  Some ([answer_of a1; answer_of a2], progress_of s5).

Example late_freeze_repeats_a_step :
  late_freeze = Some ([Some 0; Some 0], Some (MoleculeStatus.Running, 1, ["design"])).
Proof. vm_compute. done. Qed.

(** The build step as a gate, which the command line runs at once after the
    design step. *)
Definition gate_raw : raw_formula :=
  RawFormula "task-work" 1 "build a thing" "task" None false false []
    [sample_step "design" [] None;
     RawStep "build" "build" EmptyString None [] None ["design"] [] None None (Some "just build") None None None
       false None None None None None ∅] None ∅ ∅.

Definition gate_formula : formula :=
  match parse_raw gate_raw with Ok f => f | Err _ => sample_formula end.

Definition gate_evolve : prog life_op (result evolve_error evolve_view) :=
  evolve_op (auto_commit_and_gate gate_formula) gate_formula "done".

(** The gate takes the lock again but does not read the molecule again: a
    freeze that is answered while the command runs is lost. *)
Definition freeze_before_gate :
    option (option (molecule_status * nat * list string) * option (molecule_status * nat * list string)) :=
  '(p, s1) ← run_for (M := sample_machine) 11 works 0 gate_evolve (life_start gate_formula);
  '(_, s2) ← run (M := sample_machine) works 1 (freeze "operator" None) s1;
  '(_, s3) ← run (M := sample_machine) works 0 p s2;
  Some (progress_of s2, progress_of s3).

Example gate_undoes_a_freeze :
  freeze_before_gate =
    Some (Some (MoleculeStatus.Frozen, 1, ["design"]), Some (MoleculeStatus.Completed, 2, ["design"; "build"])).
Proof. vm_compute. done. Qed.
(** An error after the advance does not take it back: the call says that the log
    could not be written, and the step is completed. *)
Definition disk_full : outside := Outside Works 7 (Ok ()) [] EmptyString (Err "disk full") None None.

Example error_after_the_advance :
  (λ '(r, s), (r, progress_of s)) <$> run (M := sample_machine) disk_full 0 sample_evolve (life_start sample_formula) =
  Some (Err (OpEffect "failed to write log.md: disk full"), Some (MoleculeStatus.Running, 1, ["design"])).
Proof. vm_compute. done. Qed.

(** ** A tag call on a molecule that waits for review *)

Definition reviewed_life : life :=
  with_tags (sample_life sample_formula) {["needs-review"; "temp:x"]} 0.

Definition reviewed_tag : option (result life_error tag_delta * life_store) :=
  runs (M := sample_machine) [works; works; works; works] 0 (tag "operator" ["auto:ok"] ["temp:x"])
    (LifeStore (Some reviewed_life) None []).

Example tag_of_a_reservation :
  fst <$> runs (M := sample_machine) [works] 0 (tag "operator" [] ["temp:x"; "security:audit"])
    (LifeStore (Some reviewed_life) None []) = Some (Err (ErrProtectedReservation "security:audit")).
Proof. vm_compute. done. Qed.

Lemma tag_keeps_reservations_witness :
  ∃ x s' m', reviewed_tag = Some (x, s') ∧ is_ok x = true ∧ ls_molecule s' = Some m' ∧ "needs-review" ∈ lm_tags m'.
Proof.
  destruct reviewed_tag as [[x s']|] eqn:Hr; [|by vm_compute in Hr].
  destruct (tag_keeps_reservations sample_id sample_formula [works; works; works; works] 0 "operator" ["auto:ok"] ["temp:x"]
    (LifeStore (Some reviewed_life) None []) reviewed_life x s' eq_refl Hr) as (m' & Hm' & _ & Hkeep & _).
  exists x, s', m'. split; [done|]. split.
  - apply (f_equal (fmap (is_ok ∘ fst))) in Hr. vm_compute in Hr. by injection Hr.
  - split; [exact Hm'|]. apply (Hkeep "needs-review"); [by vm_compute|set_solver].
Defined.
End LifeSamples.
