(* ===== verification/Reclaim.v ===== *)
(** What may be reclaimed ([crates/cosmon-core/src/worktree_reclaim.rs] and
    [session_reclaim.rs]): decisions over observations with three values, where
    what could not be observed never counts as absent. *)
From stdpp Require Import prelude gmap strings list.
From Stdlib Require Import Ascii.
From S2P Require Import Prelude Text Paths Ids Molecule.

Record observation_error := ObservationError {
  oe_operation : string;
  oe_path : string;
  oe_cause : string;
}.

#[export] Instance observation_error_eq_dec : EqDecision observation_error.
Proof. solve_decision. Defined.

Definition describe (e : observation_error) : string :=
  "`" +:+ oe_operation e +:+ "` in " +:+ oe_path e +:+ " failed: " +:+ oe_cause e.

Inductive status_observation : Type := StatusKnown (s : molecule_status) | StatusUnknown (e : observation_error).
Inductive consideration : Set := ConsiderNo | ConsiderYes.

#[export] Instance consideration_eq_dec : EqDecision consideration.
Proof. solve_decision. Defined.

(** ** Worktrees *)

Module Worktree.

Inductive molecule_record_observation : Type := RecordPresent | RecordAbsent | RecordUnknown (e : observation_error).
Inductive registration_observation : Type := Registered | Unregistered | RegistrationUnknown (e : observation_error).
Inductive lock_observation : Type := Held | Acquired | ProbeFailed (e : observation_error).
Inductive ahead_observation : Type := Zero | Positive (n : N) | AheadUnknown (e : observation_error).
Inductive dirty_observation : Type := Clean | Dirty (paths : list string) | DirtyUnknown (e : observation_error).
Inductive ignored_durable_observation : Type :=
| IgnoredAbsent | IgnoredPresent (paths : list string) | IgnoredUnknown (e : observation_error).
Inductive derived_roots_observation : Type := Validated (roots : gset path) | Unavailable (e : observation_error).

#[export] Instance registration_observation_eq_dec : EqDecision registration_observation.
Proof. solve_decision. Defined.
#[export] Instance ahead_observation_eq_dec : EqDecision ahead_observation.
Proof. solve_decision. Defined.
#[export] Instance dirty_observation_eq_dec : EqDecision dirty_observation.
Proof. solve_decision. Defined.
#[export] Instance ignored_durable_observation_eq_dec : EqDecision ignored_durable_observation.
Proof. solve_decision. Defined.

Definition consideration_gate (molecule : molecule_record_observation) (status : status_observation) : consideration :=
  match molecule with
  | RecordAbsent => ConsiderYes
  | RecordUnknown _ => ConsiderNo
  | RecordPresent =>
      match status with
      | StatusKnown (MoleculeStatus.Completed | MoleculeStatus.Collapsed) => ConsiderYes
      | _ => ConsiderNo
      end
  end.

Record derived_observation := DerivedObservation {
  do_path : path;
  do_molecule : molecule_record_observation;
  do_status : status_observation;
  do_lock : lock_observation;
  do_derived_set : derived_roots_observation;
}.

Inductive derived_selection_answer : Set := KeepDerived | ReclaimDerived.

Definition derived_selection (obs : derived_observation) : derived_selection_answer :=
  match consideration_gate (do_molecule obs) (do_status obs), do_lock obs with
  | ConsiderYes, Acquired => ReclaimDerived
  | _, _ => KeepDerived
  end.

Definition selected_derived_paths (obs : derived_observation) : gset path :=
  match derived_selection obs, do_derived_set obs with
  | ReclaimDerived, Validated roots => roots
  | _, _ => ∅
  end.

Record durable_observation := DurableObservation {
  ho_path : path;
  ho_molecule : molecule_record_observation;
  ho_status : status_observation;
  ho_registration : registration_observation;
  ho_ahead : ahead_observation;
  ho_dirty : dirty_observation;
  ho_ignored_durable : ignored_durable_observation;
}.

Inductive durable_eligibility_answer : Set := Withhold | Eligible.

Definition durable_eligibility (obs : durable_observation) : durable_eligibility_answer :=
  if decide (consideration_gate (ho_molecule obs) (ho_status obs) = ConsiderNo) then Withhold
  else if decide (ho_registration obs ≠ Registered) then Withhold
  else if decide (ho_ahead obs ≠ Zero) then Withhold
  else if decide (ho_dirty obs ≠ Clean) then Withhold
  else if decide (ho_ignored_durable obs ≠ IgnoredAbsent) then Withhold
  else Eligible.

Definition advisory_durable_paths (obs : durable_observation) : gset path :=
  match durable_eligibility obs with Eligible => {[ho_path obs]} | Withhold => ∅ end.

Record candidate_observation := CandidateObservation { co_derived : derived_observation; co_durable : durable_observation }.

Record reclamation_plan := ReclamationPlan { rp_derived : gset path; rp_durable_advisory : gset path }.

Definition plan (candidates : list candidate_observation) : reclamation_plan :=
  foldl (λ out c, ReclamationPlan (rp_derived out ∪ selected_derived_paths (co_derived c))
                    (rp_durable_advisory out ∪ advisory_durable_paths (co_durable c)))
    (ReclamationPlan ∅ ∅) candidates.

(** *** Derived roots *)

Inductive derived_root_rejection : Set := NotWorktreeLocal | Traversal | WorktreeRoot | DurableArea.

Definition durable_areas : list string := [".git"; ".cosmon"; ".worktrees"].

(** The loop over the components; [n] counts the names so far. *)
Fixpoint check_components (cs : list path_component) (names : path) : result derived_root_rejection path :=
  match cs with
  | [] => match names with [] => Err WorktreeRoot | _ => Ok names end
  | Normal name :: cs => if decide (name ∈ durable_areas) then Err DurableArea else check_components cs (names ++ [name])
  | (CurDir | ParentDir) :: _ => Err Traversal
  | RootDir :: _ => Err NotWorktreeLocal
  end.

(** The answer is the root by its names. *)
Definition validate_derived_root (root : string) : result derived_root_rejection path :=
  if is_absolute root then Err NotWorktreeLocal else check_components (path_components root) [].

(** *** The seam of purge and harvest *)

Inductive worktree_removal : Type := Remove | RefuseDirty (paths : list string) | WithholdRemoval (e : observation_error).

Definition worktree_removal_decision (dirty : dirty_observation) (force : bool) : worktree_removal :=
  match dirty with
  | DirtyUnknown e => WithholdRemoval e
  | Dirty paths => if force then Remove else RefuseDirty paths
  | Clean => Remove
  end.

(** The provided method of [WorktreeObservationPort]. *)
Class WorktreeObservationPort := {
  molecule_record : path → molecule_record_observation;
  molecule_status_of : path → status_observation;
  registration : path → registration_observation;
  lock : path → lock_observation;
  commits_ahead : path → ahead_observation;
  dirty : path → dirty_observation;
  ignored_durable : path → ignored_durable_observation;
  derived_roots : path → derived_roots_observation;
}.

Definition observe `{WorktreeObservationPort} (candidate : path) : candidate_observation :=
  let molecule := molecule_record candidate in
  let status := molecule_status_of candidate in
  CandidateObservation
    (DerivedObservation candidate molecule status (lock candidate) (derived_roots candidate))
    (DurableObservation candidate molecule status (registration candidate) (commits_ahead candidate)
       (dirty candidate) (ignored_durable candidate)).

(** *** Facts *)

Definition considered (molecule : molecule_record_observation) (status : status_observation) : Prop :=
  molecule = RecordAbsent ∨ molecule = RecordPresent ∧ ∃ s, status = StatusKnown s ∧ is_terminal s = true.

Lemma consideration_gate_yes molecule status :
  consideration_gate molecule status = ConsiderYes ↔ considered molecule status.
Proof. unfold considered. destruct molecule, status as [[]|]; cbn; naive_solver. Qed.

Lemma elem_of_selected obs p :
  p ∈ selected_derived_paths obs ↔
  considered (do_molecule obs) (do_status obs) ∧ do_lock obs = Acquired ∧
  ∃ roots, do_derived_set obs = Validated roots ∧ p ∈ roots.
Proof.
  rewrite <- consideration_gate_yes. unfold selected_derived_paths, derived_selection.
  destruct (consideration_gate _ _), (do_lock obs), (do_derived_set obs); set_solver.
Qed.

Lemma elem_of_advisory obs p :
  p ∈ advisory_durable_paths obs ↔
  p = ho_path obs ∧ considered (ho_molecule obs) (ho_status obs) ∧ ho_registration obs = Registered ∧
  ho_ahead obs = Zero ∧ ho_dirty obs = Clean ∧ ho_ignored_durable obs = IgnoredAbsent.
Proof.
  rewrite <- consideration_gate_yes. unfold advisory_durable_paths, durable_eligibility.
  destruct (consideration_gate _ _); [rewrite decide_True by done; set_solver|].
  rewrite decide_False by done. repeat (case_decide; [set_solver|]).
  rewrite elem_of_singleton. naive_solver.
Qed.

Lemma plan_from candidates d h :
  (∀ p, p ∈ rp_derived (foldl (λ out c, ReclamationPlan (rp_derived out ∪ selected_derived_paths (co_derived c))
                    (rp_durable_advisory out ∪ advisory_durable_paths (co_durable c))) (ReclamationPlan d h) candidates) ↔
    p ∈ d ∨ ∃ c, c ∈ candidates ∧ p ∈ selected_derived_paths (co_derived c)) ∧
  (∀ p, p ∈ rp_durable_advisory (foldl (λ out c, ReclamationPlan (rp_derived out ∪ selected_derived_paths (co_derived c))
                    (rp_durable_advisory out ∪ advisory_durable_paths (co_durable c))) (ReclamationPlan d h) candidates) ↔
    p ∈ h ∨ ∃ c, c ∈ candidates ∧ p ∈ advisory_durable_paths (co_durable c)).
Proof.
  revert d h. induction candidates as [|c l IH]; intros d h; cbn [foldl rp_derived rp_durable_advisory].
  - split; intros p; (split; [by left|]); by intros [?|(? & ?%elem_of_nil & _)].
  - split; intros p; [rewrite (proj1 (IH _ _))|rewrite (proj2 (IH _ _))];
      setoid_rewrite elem_of_cons; rewrite elem_of_union; naive_solver.
Qed.

Lemma check_components_ok cs names root :
  check_components cs names = Ok root ↔
  root ≠ [] ∧ ∃ l, root = names ++ l ∧ cs = Normal <$> l ∧ Forall (λ n, n ∉ durable_areas) l.
Proof.
  revert names. induction cs as [|[| | |name] cs IH]; intros names; cbn [check_components].
  - split.
    + destruct names; [done|]. intros [= <-]. split; [done|]. exists []. by rewrite app_nil_r.
    + intros (Hne & [|? ?] & -> & [=] & _). rewrite app_nil_r in *. by destruct names.
  - split; [done|]. by intros (_ & [|? ?] & _ & [=] & _).
  - split; [done|]. by intros (_ & [|? ?] & _ & [=] & _).
  - split; [done|]. by intros (_ & [|? ?] & _ & [=] & _).
  - case_decide as Hd.
    + split; [done|]. intros (_ & [|n l] & _ & [= -> _] & Hall). by apply Forall_cons in Hall as [? _].
    + rewrite IH. split.
      * intros (Hne & l & -> & -> & Hl). split; [done|]. exists (name :: l).
        rewrite <- (assoc_L app). split_and!; [done|done|by constructor].
      * intros (Hne & [|n l] & Hr & [= -> ->] & Hall); subst root. apply Forall_cons in Hall as [_ Hall]. split; [done|].
        exists l. by rewrite <- (assoc_L app).
Qed.

Lemma validate_derived_root_ok root names :
  validate_derived_root root = Ok names ↔
  is_absolute root = false ∧ names ≠ [] ∧ path_components root = Normal <$> names ∧
  Forall (λ n, n ∉ durable_areas) names.
Proof.
  unfold validate_derived_root. destruct (is_absolute root); [naive_solver|]. rewrite check_components_ok.
  naive_solver.
Qed.
End Worktree.

(** ** Sessions *)

Module Session.

Inductive ownership_observation : Type := Owned (id : string) | Unowned | OwnershipUnknown (e : observation_error).
Inductive attachment_observation : Type := Detached | Attached | AttachmentUnknown (e : observation_error).
Inductive scrollback_observation : Type := Captured (lines : nat) | ScrollbackUnavailable (e : observation_error).

#[export] Instance attachment_observation_eq_dec : EqDecision attachment_observation.
Proof. solve_decision. Defined.

Definition consideration_gate (ownership : ownership_observation) (status : status_observation) : consideration :=
  match ownership with
  | Unowned | OwnershipUnknown _ => ConsiderNo
  | Owned _ =>
      match status with
      | StatusKnown s => if is_terminal s then ConsiderYes else ConsiderNo
      | StatusUnknown _ => ConsiderNo
      end
  end.

Record session_observation := SessionObservation {
  so_name : string;
  so_ownership : ownership_observation;
  so_status : status_observation;
  so_attachment : attachment_observation;
  so_scrollback : scrollback_observation;
}.

Inductive session_selection_answer : Set := KeepSession | ReclaimSession.

Definition session_selection (obs : session_observation) : session_selection_answer :=
  if decide (consideration_gate (so_ownership obs) (so_status obs) = ConsiderNo) then KeepSession
  else if decide (so_attachment obs ≠ Detached) then KeepSession
  else match so_scrollback obs with Captured _ => ReclaimSession | ScrollbackUnavailable _ => KeepSession end.

Definition selected_session (obs : session_observation) : option string :=
  match session_selection obs with ReclaimSession => Some (so_name obs) | KeepSession => None end.

Lemma session_gate_yes ownership status :
  consideration_gate ownership status = ConsiderYes ↔
  ∃ id s, ownership = Owned id ∧ status = StatusKnown s ∧ is_terminal s = true.
Proof.
  split.
  - destruct ownership as [id| |], status as [s|]; cbn; try done. destruct (is_terminal s) eqn:Hs; [|done]. eauto.
  - intros (id & s & -> & -> & Hs). cbn. by rewrite Hs.
Qed.

Lemma session_selection_reclaim obs :
  session_selection obs = ReclaimSession ↔
  (∃ id s, so_ownership obs = Owned id ∧ so_status obs = StatusKnown s ∧ is_terminal s = true) ∧
  so_attachment obs = Detached ∧ ∃ n, so_scrollback obs = Captured n.
Proof.
  rewrite <- session_gate_yes. unfold session_selection.
  destruct (consideration_gate _ _); [rewrite decide_True by done; naive_solver|].
  rewrite decide_False by done. case_decide; [naive_solver|].
  destruct (so_scrollback obs); naive_solver.
Qed.
End Session.
