(* ===== verification/SessionPass.v ===== *)
(** The pass of [cs purge --sessions] over the sessions of a terminal
    multiplexer ([crates/cosmon-cli/src/cmd/session_reclaim.rs]), with the names
    that tie a session to its molecule ([crates/cosmon-core/src/slugify.rs]). *)
From stdpp Require Import prelude gmap strings list sorting.
From Stdlib Require Import Ascii.
From S2P Require Import Prelude Text Paths Ids Molecule Reclaim.

(** ** Names *)

Definition max_slug_len : nat := 30.
Definition max_slug_words : nat := 5.
Definition short_id_len : nat := 4.

Definition stop_words : list string :=
  ["a"; "an"; "the"; "of"; "for"; "to"; "in"; "on"; "at"; "with"; "and"; "or"; "but"; "is"; "are"; "be"; "by"; "from";
   "as"; "into"; "that"; "this"].

(** [s.split(|c| !c.is_ascii_alphanumeric())] *)
Fixpoint split_alphanumeric (s : string) : list string :=
  match s with
  | EmptyString => [EmptyString]
  | String c s =>
      if is_ascii_alphanumeric c then push_char c (split_alphanumeric s) else EmptyString :: split_alphanumeric s
  end.

(** The loop that appends the words. *)
Fixpoint append_words (out : string) (words : list string) : string :=
  match words with
  | [] => out
  | word :: words =>
      let candidate := if is_empty out then word else out +:+ "-" +:+ word in
      if decide (max_slug_len < String.length candidate) then out else append_words candidate words
  end.

(** [s.trim_start_matches(c)] *)
Fixpoint trim_start_char (c : ascii) (s : string) : string :=
  match s with String a s' => if decide (a = c) then trim_start_char c s' else s | EmptyString => EmptyString end.

Definition slug_words (input : string) : list string :=
  let words := filter (.≠ EmptyString) (split_alphanumeric (to_ascii_lowercase input)) in
  let meaningful := filter (.∉ stop_words) words in
  take max_slug_words (match meaningful with [] => words | _ => meaningful end).

Definition slugify (input : string) : string :=
  trim_end_char "-" (trim_start_char "-" (append_words EmptyString (slug_words input))).

Fixpoint only_alphanumeric (s : string) : string :=
  match s with
  | EmptyString => EmptyString
  | String c s => if is_ascii_alphanumeric c then String c (only_alphanumeric s) else only_alphanumeric s
  end.

Definition short_id (mol_id : string) : string :=
  let clean := only_alphanumeric mol_id in
  if decide (String.length clean ≤ short_id_len) then clean
  else str_drop (String.length clean - short_id_len) clean.

Definition session_name_for (topic : option string) (mol_id : string) : string :=
  let slug := default EmptyString (slugify <$> topic) in
  if is_empty slug then mol_id
  else
    let short := short_id mol_id in
    if is_empty short then slug else slug +:+ "-" +:+ short.

(** [MoleculeData::display_topic]: the first of three variables that is there
    and not empty. *)
Definition display_topic (variables : gmap string string) : option string :=
  head (omap (λ key, v ← variables !! key; if is_empty v then None else Some v) ["topic"; "title"; "description"]).

(** ** What is outside *)

(** The answer of a command, its texts decoded. *)
Inductive command_output : Type :=
| SpawnError (why : string)
| Exited (success : bool) (stdout stderr : string).

Record session_molecule := SessionMolecule {
  sm_id : string;
  sm_variables : gmap string string;
  sm_status : molecule_status;
}.

Record session_world := SessionWorld {
  sw_socket : string;
  sw_list : command_output;
  sw_molecules : result string (list session_molecule);
  sw_pinned_molecules : option (gset string);
  sw_pinned_workers : option (gset string);
  sw_tmux_pane : option string;
  sw_own_name : string → command_output;
  sw_panes : string → command_output;
  sw_capture : string → command_output;
  sw_molecule_dir : molecule_id → option path;
  sw_create_dir : path → option string;
  sw_write : path → option string;
  sw_kill : string → command_output;
}.

(** The texts that [Debug] prints are the only ones left open. *)
Class ReclaimText := { debug_str : string → string }.

Inductive session_effect : Type := Wrote (dest : path) (text : string) | Kill (name : string).

#[export] Instance session_effect_eq_dec : EqDecision session_effect.
Proof. solve_decision. Defined.

(** ** Data *)

Record live_session := LiveSession { ls_name : string; ls_attachment : Session.attachment_observation }.
Record owner := Owner { ow_molecule : string; ow_status : molecule_status }.

Record reclaimed := Reclaimed {
  rc_name : string;
  rc_molecule : string;
  rc_status : string;
  rc_scrollback : option (path * nat);
}.

Record withheld_session := WithheldSession { wh_name : string; wh_reasons : list string }.

Record session_pass := SessionPass {
  sp_selected : list reclaimed;
  sp_withheld : list withheld_session;
  sp_enumeration_errors : list observation_error;
  sp_executed : bool;
  sp_killed : list string;
  sp_failures : list observation_error;
}.

(** ** The parts of the pass *)

Section Pass.
Context `{ReclaimText} (w : session_world).

Definition attachment_of (attached : string) : Session.attachment_observation :=
  if decide (trim attached = "0") then Session.Detached
  else if all_chars is_ascii_digit (trim attached) && negb (is_empty (trim attached)) then Session.Attached
  else Session.AttachmentUnknown (ObservationError "parse #{session_attached}" (sw_socket w)
         ("unparseable attachment field " +:+ debug_str (trim attached))).

(** A name that is listed twice keeps the stronger of its observations. *)
Definition merge_attachment (existing observed : Session.attachment_observation) : Session.attachment_observation :=
  match observed, existing with
  | Session.AttachmentUnknown _, _ => observed
  | Session.Attached, Session.Detached => observed
  | _, _ => existing
  end.

Definition list_pane (by_name : gmap string Session.attachment_observation) (line : string) :
    gmap string Session.attachment_observation :=
  if is_empty (trim line) then by_name
  else
    match split_once "|" (trim line) with
    | None => by_name
    | Some (name, attached) =>
        let observed := attachment_of attached in
        <[trim name := match by_name !! trim name with
                       | Some existing => merge_attachment existing observed
                       | None => observed
                       end]> by_name
    end.

(** The map is a [BTreeMap]: its entries come in the order of the names. *)
Definition parse_pane_listing (stdout : string) : list live_session :=
  (λ '(name, attachment), LiveSession name attachment) <$>
    sort_by (fst : string * Session.attachment_observation → string) (map_to_list (foldl list_pane ∅ (lines stdout))).

Definition enumerate_sessions : result observation_error (list live_session) :=
  let fail cause := ObservationError "tmux list-panes -a" (sw_socket w) cause in
  match sw_list w with
  | SpawnError why => Err (fail ("failed to run tmux: " +:+ why))
  | Exited false _ stderr =>
      if contains_str "no server running" stderr || contains_str "no sessions" stderr ||
         contains_str "error connecting" stderr
      then Ok [] else Err (fail ("tmux list-panes failed: " +:+ stderr))
  | Exited true stdout _ => Ok (parse_pane_listing stdout)
  end.

Definition current_session : option string :=
  pane ← sw_tmux_pane w;
  match sw_own_name w pane with
  | Exited true stdout _ => if is_empty (trim stdout) then None else Some (trim stdout)
  | _ => None
  end.

Definition session_of (m : session_molecule) : string := session_name_for (display_topic (sm_variables m)) (sm_id m).

Definition ownership_index : result observation_error (gmap string owner) :=
  match sw_molecules w with
  | Err why => Err (ObservationError "list_molecules" ".cosmon/state" why)
  | Ok molecules => Ok (foldl (λ index m, <[session_of m := Owner (sm_id m) (sm_status m)]> index) ∅ molecules)
  end.

Definition scrollback_path (molecule session : string) : option path :=
  match parse_inner molecule with
  | Err _ => None
  | Ok id => dir ← sw_molecule_dir w id; Some (dir ++ ["session-scrollback-" +:+ session +:+ ".txt"])
  end.

Definition with_newline (text : string) : string := if ends_with_char nl_char text then text else text +:+ nl.

Fixpoint capture_panes (session : string) (many : bool) (captured : string) (panes : list string) :
    result observation_error string :=
  match panes with
  | [] => Ok captured
  | pane :: panes =>
      let fail cause := ObservationError "tmux capture-pane" (sw_socket w) cause in
      match sw_capture w pane with
      | SpawnError why => Err (fail ("failed to run tmux: " +:+ why))
      | Exited false _ stderr => Err (fail ("capture-pane " +:+ pane +:+ " of " +:+ session +:+ " failed: " +:+ stderr))
      | Exited true stdout _ =>
          let header := if many then "===== pane " +:+ pane +:+ " =====" +:+ nl else EmptyString in
          capture_panes session many (with_newline (captured +:+ header +:+ stdout)) panes
      end
  end.

Definition capture_scrollback (session : string) : result observation_error string :=
  let fail cause := ObservationError "tmux capture-pane" (sw_socket w) cause in
  match sw_panes w session with
  | SpawnError why => Err (fail ("failed to run tmux: " +:+ why))
  | Exited false _ stderr => Err (fail ("list-panes for " +:+ session +:+ " failed: " +:+ stderr))
  | Exited true stdout _ =>
      match filter (.≠ EmptyString) (trim <$> lines stdout) with
      | [] => Err (fail (session +:+ " reported no panes to capture"))
      | panes => capture_panes session (bool_decide (1 < length panes)) EmptyString panes
      end
  end.

Definition observe_scrollback (session : string) (dest : option path) (execute : bool) :
    Session.scrollback_observation * list session_effect :=
  match capture_scrollback session with
  | Err e => (Session.ScrollbackUnavailable e, [])
  | Ok captured =>
      match dest with
      | None =>
          (Session.ScrollbackUnavailable (ObservationError "resolve molecule_dir" session
             "the owning molecule has no on-disk directory to hold its scrollback"), [])
      | Some dest =>
          if negb execute then (Session.Captured (length (lines captured)), [])
          else
            let parent := removelast dest in
            match sw_create_dir w parent with
            | Some why => (Session.ScrollbackUnavailable (ObservationError "create_dir_all" (display parent) why), [])
            | None =>
                match sw_write w dest with
                | Some why => (Session.ScrollbackUnavailable (ObservationError "write scrollback" (display dest) why), [])
                | None => (Session.Captured (length (lines captured)), [Wrote dest captured])
                end
            end
      end
  end.

Definition observe_session (index : option (gmap string owner)) (live : live_session) (execute : bool) :
    Session.session_observation * option path * list session_effect :=
  let '(ownership, status) :=
    match index with
    | None =>
        (Session.OwnershipUnknown (ObservationError "list_molecules" ".cosmon/state"
           "the molecule enumeration failed; ownership is unknown"),
         StatusUnknown (ObservationError "list_molecules" ".cosmon/state" "no molecule could be read"))
    | Some index =>
        match index !! ls_name live with
        | None => (Session.Unowned,
            StatusUnknown (ObservationError "resolve owner" (ls_name live) "no owning molecule, so no status to read"))
        | Some o => (Session.Owned (ow_molecule o), StatusKnown (ow_status o))
        end
    end in
  let dest := match ownership with Session.Owned id => scrollback_path id (ls_name live) | _ => None end in
  let '(scrollback, effects) :=
    if decide (Session.consideration_gate ownership status = ConsiderYes) then
      observe_scrollback (ls_name live) dest execute
    else (Session.ScrollbackUnavailable (ObservationError "capture-pane" (ls_name live)
            "not attempted: the gate withheld this session"), []) in
  (Session.SessionObservation (ls_name live) ownership status (ls_attachment live) scrollback, dest, effects).

Definition withhold_reasons (obs : Session.session_observation) : list string :=
  match Session.so_ownership obs, Session.so_status obs with
  | Session.Unowned, _ =>
      ["no molecule claims this session name — cosmon does not own it, and a tmux socket is a shared namespace"]
  | Session.OwnershipUnknown e, _ => ["ownership could not be established: " +:+ describe e]
  | Session.Owned id, StatusUnknown e => ["status of " +:+ id +:+ " is unreadable: " +:+ describe e]
  | Session.Owned id, StatusKnown s =>
      if is_terminal s then []
      else ["molecule " +:+ id +:+ " is " +:+ status_as_str s +:+
            " — a session is derived state only once its molecule is terminal"]
  end ++
  match Session.so_attachment obs with
  | Session.Attached => ["a tmux client is attached — an operator is at this pane"]
  | Session.AttachmentUnknown e => ["attachment is unknown: " +:+ describe e]
  | Session.Detached => []
  end ++
  (if decide (Session.consideration_gate (Session.so_ownership obs) (Session.so_status obs) = ConsiderYes) then
     match Session.so_scrollback obs with
     | Session.ScrollbackUnavailable e => ["scrollback could not be secured, so the session stays up: " +:+ describe e]
     | Session.Captured _ => []
     end
   else []).

Definition reclaimed_from (obs : Session.session_observation) (dest : option path) : reclaimed :=
  let '(molecule, status) :=
    match Session.so_ownership obs, Session.so_status obs with
    | Session.Owned id, StatusKnown s => (id, status_as_str s)
    | _, _ => ("<unknown>", "<unknown>")
    end in
  let n := match Session.so_scrollback obs with Session.Captured n => n | _ => 0 end in
  Reclaimed (Session.so_name obs) molecule status ((λ d, (d, n)) <$> dest).

Definition kill_session (session : string) : result observation_error () :=
  match sw_kill w session with
  | SpawnError why => Err (ObservationError "tmux kill-session" session ("failed to run tmux: " +:+ why))
  | Exited true _ _ => Ok ()
  | Exited false _ stderr =>
      if contains_str "can't find session" stderr || contains_str "session not found" stderr then Ok ()
      else Err (ObservationError "tmux kill-session" session (trim stderr))
  end.

(** ** The pass *)

Definition pinned_by_owner (index : option (gmap string owner)) (pinned : gset string) (name : string) : bool :=
  match index ≫= λ owners, owners !! name with
  | Some o => bool_decide (ow_molecule o ∈ pinned)
  | None => false
  end.

(** One round of the loop over the live sessions. *)
Definition consider_session (index : option (gmap string owner)) (molecules workers : gset string) (execute : bool)
    (live : live_session) : (withheld_session + reclaimed) * list session_effect :=
  if pinned_by_owner index molecules (ls_name live) || bool_decide (ls_name live ∈ workers) then
    (inl (WithheldSession (ls_name live)
       ["pinned Exec launch: use incarnation-bound purge/done, never name-based session reclaim"]), [])
  else if bool_decide (current_session = Some (ls_name live)) then
    (inl (WithheldSession (ls_name live) ["this is the session `cs purge` is running in — never reclaimed"]), [])
  else
    let '(obs, dest, effects) := observe_session index live execute in
    match Session.session_selection obs with
    | Session.KeepSession => (inl (WithheldSession (Session.so_name obs) (withhold_reasons obs)), effects)
    | Session.ReclaimSession => (inr (reclaimed_from obs dest), effects)
    end.

Fixpoint consider_all (index : option (gmap string owner)) (molecules workers : gset string) (execute : bool)
    (sessions : list live_session) : list reclaimed * list withheld_session * list session_effect :=
  match sessions with
  | [] => ([], [], [])
  | live :: sessions =>
      let '(verdict, effects) := consider_session index molecules workers execute live in
      let '(selected, withheld, later) := consider_all index molecules workers execute sessions in
      match verdict with
      | inl h => (selected, h :: withheld, effects ++ later)
      | inr r => (r :: selected, withheld, effects ++ later)
      end
  end.

Fixpoint kill_all (targets : list reclaimed) : list string * list observation_error * list session_effect :=
  match targets with
  | [] => ([], [], [])
  | t :: targets =>
      let '(killed, failures, effects) := kill_all targets in
      match kill_session (rc_name t) with
      | Ok _ => (rc_name t :: killed, failures, Kill (rc_name t) :: effects)
      | Err e => (killed, e :: failures, Kill (rc_name t) :: effects)
      end
  end.

Definition run_pass (execute : bool) : session_pass * list session_effect :=
  match enumerate_sessions with
  | Err e => (SessionPass [] [] [e] execute [] [], [])
  | Ok sessions =>
      let '(index, errors) :=
        match ownership_index with Ok i => (Some i, []) | Err e => (None, [e]) end in
      match sw_pinned_molecules w, sw_pinned_workers w with
      | Some molecules, Some workers =>
          let '(selected, withheld, effects) := consider_all index molecules workers execute sessions in
          let '(killed, failures, kills) := if execute then kill_all selected else ([], [], []) in
          (SessionPass (sort_by rc_name selected) (sort_by wh_name withheld) errors execute killed failures,
           effects ++ kills)
      | _, _ =>
          (SessionPass [] [] (errors ++ [ObservationError "transport_pins" "ledger" "cannot prove legacy session ownership"])
             execute [] [], [])
      end
  end.
End Pass.

(** ** What the pass does *)

Section Safe.
Context `{ReclaimText} (w : session_world).

Lemma withhold_reasons_exact obs :
  withhold_reasons obs = [] ↔ Session.session_selection obs = Session.ReclaimSession.
Proof.
  rewrite Session.session_selection_reclaim. unfold withhold_reasons.
  destruct obs as [name [id| |e] [s|e'] attachment scrollback]; cbn; [|naive_solver..].
  destruct (is_terminal s) eqn:Hs; cbn.
  - destruct attachment, scrollback; cbn; naive_solver.
  - split; [done|]. intros ((id' & s' & _ & [= <-] & Hs') & _). congruence.
Qed.

(** What lets the session of a live entry go. *)
Record may_go (molecules workers : gset string) (index : gmap string owner) (live : live_session) (r : reclaimed) : Prop := {
  mg_name : rc_name r = ls_name live;
  mg_detached : ls_attachment live = Session.Detached;
  mg_owner : ∃ o, index !! ls_name live = Some o ∧ is_terminal (ow_status o) = true ∧ (ow_molecule o ∉ molecules) ∧
    rc_molecule r = ow_molecule o ∧ rc_status r = status_as_str (ow_status o) ∧
    ∃ dest, scrollback_path w (ow_molecule o) (ls_name live) = Some dest ∧
      ∃ text, capture_scrollback w (ls_name live) = Ok text ∧ rc_scrollback r = Some (dest, length (lines text));
  mg_unpinned : ls_name live ∉ workers;
  mg_not_own : current_session w ≠ Some (ls_name live);
}.

(** The file that keeps what was on the screen. *)
Definition saved (r : reclaimed) : list session_effect :=
  match rc_scrollback r, capture_scrollback w (rc_name r) with
  | Some (dest, _), Ok text => [Wrote dest text]
  | _, _ => []
  end.

Lemma observe_scrollback_captured session dest execute n effects :
  observe_scrollback w session dest execute = (Session.Captured n, effects) →
  ∃ d text, dest = Some d ∧ capture_scrollback w session = Ok text ∧ n = length (lines text) ∧
    effects = if execute then [Wrote d text] else [].
Proof.
  unfold observe_scrollback. destruct (capture_scrollback w session) as [text|e]; [|done].
  destruct dest as [d|]; [|done]. destruct execute; cbn.
  - destruct (sw_create_dir w _); [done|]. destruct (sw_write w d); [done|]. intros [= <- <-]. eauto 6.
  - intros [= <- <-]. eauto 6.
Qed.

Lemma observe_scrollback_effects session dest execute o effects :
  observe_scrollback w session dest execute = (o, effects) →
  effects = [] ∨ execute = true ∧ ∃ d text, effects = [Wrote d text].
Proof.
  unfold observe_scrollback. destruct (capture_scrollback w session) as [text|e]; [|intros [= _ <-]; by left].
  destruct dest as [d|]; [|intros [= _ <-]; by left]. destruct execute; cbn; [|intros [= _ <-]; by left].
  destruct (sw_create_dir w _); [intros [= _ <-]; by left|]. destruct (sw_write w d); intros [= _ <-]; eauto 6.
Qed.

Lemma consider_session_selects index molecules workers execute live r effects :
  consider_session w index molecules workers execute live = (inr r, effects) →
  ∃ owners, index = Some owners ∧ may_go molecules workers owners live r ∧
    effects = if execute then saved r else [].
Proof.
  unfold consider_session. destruct (_ || _) eqn:Hpin; [done|]. apply orb_false_iff in Hpin as [Hpin Hw].
  rewrite bool_decide_eq_false in Hw. destruct (bool_decide (current_session w = _)) eqn:Hown; [done|].
  rewrite bool_decide_eq_false in Hown. unfold observe_session.
  destruct index as [owners|]; [|intros Hx; by vm_compute in Hx || cbn in Hx].
  unfold pinned_by_owner in Hpin. cbn [mbind option_bind] in Hpin.
  destruct (owners !! ls_name live) as [o|] eqn:Ho; [|by cbn].
  rewrite bool_decide_eq_false in Hpin. case_decide as Hgate; [|].
  - destruct (observe_scrollback _ _ _ _) as [scrollback eff] eqn:Hs.
    destruct (Session.session_selection _) eqn:Hsel; [done|]. intros [= <- <-].
    apply Session.session_selection_reclaim in Hsel as ((id & s & [= <-] & [= <-] & Hterm) & Hdet & n & Hn). cbn in Hdet, Hn.
    subst scrollback. apply observe_scrollback_captured in Hs as (d & text & Hd & Ht & -> & ->).
    exists owners. split; [done|]. split.
    + constructor; cbn; [done|done| |done|done]. exists o. split_and!; [done|done|done|done|done|].
      exists d. split; [done|]. exists text. by rewrite Hd.
    + unfold saved. cbn. by rewrite Hd, Ht.
  - cbn. unfold Session.session_selection. cbn. by destruct (decide _); [|destruct (decide _)].
Qed.
Lemma consider_session_withholds index molecules workers execute live h effects :
  consider_session w index molecules workers execute live = (inl h, effects) →
  wh_name h = ls_name live ∧ wh_reasons h ≠ [].
Proof.
  unfold consider_session. destruct (_ || _); [by intros [= <- _]|]. destruct (bool_decide _); [by intros [= <- _]|].
  destruct (observe_session _ _ _ _) as [[obs dest] eff] eqn:Hobs.
  destruct (Session.session_selection obs) eqn:Hsel; [|done]. intros [= <- _]. cbn.
  split.
  - unfold observe_session in Hobs.
    repeat match type of Hobs with (let '_ := ?x in _) = _ => destruct x end. by injection Hobs as <- _ _.
  - intros Hr. apply withhold_reasons_exact in Hr. congruence.
Qed.

(** Nothing is written without [execute], and nothing but scrollback before
    the kills. *)
Lemma consider_session_writes index molecules workers execute live v effects :
  consider_session w index molecules workers execute live = (v, effects) →
  (execute = false → effects = []) ∧ ∀ name, Kill name ∉ effects.
Proof.
  unfold consider_session. destruct (_ || _); [intros [= _ <-]; set_solver|].
  destruct (bool_decide _); [intros [= _ <-]; set_solver|].
  destruct (observe_session _ _ _ _) as [[obs dest] eff] eqn:Hobs. intros Hv.
  assert (effects = eff) as -> by (destruct (Session.session_selection obs); by injection Hv). clear Hv.
  unfold observe_session in Hobs. destruct (match index with Some _ => _ | None => _ end) as [ownership status].
  case_decide; [|injection Hobs as _ _ <-; set_solver].
  destruct (observe_scrollback _ _ _ _) as [o e] eqn:Hs. injection Hobs as _ _ <-.
  apply observe_scrollback_effects in Hs as [->|(-> & d & text & ->)]; [set_solver|].
  split; [done|]. intros name Hin. apply list_elem_of_singleton in Hin. done.
Qed.

Lemma consider_all_spec index molecules workers execute sessions selected withheld effects :
  consider_all w index molecules workers execute sessions = (selected, withheld, effects) →
  (rc_name <$> selected) ++ (wh_name <$> withheld) ≡ₚ ls_name <$> sessions ∧
  (∀ r, r ∈ selected → ∃ live owners, live ∈ sessions ∧ index = Some owners ∧ may_go molecules workers owners live r ∧
     ∀ e, execute = true → e ∈ saved r → e ∈ effects) ∧
  (∀ h, h ∈ withheld → wh_reasons h ≠ []) ∧
  (execute = false → effects = []) ∧ ∀ name, Kill name ∉ effects.
Proof.
  revert selected withheld effects. induction sessions as [|live l IH]; intros selected withheld effects; cbn [consider_all].
  { intros [= <- <- <-]. split_and!; [done|set_solver..]. }
  destruct (consider_session _ _ _ _ _ _) as [v eff] eqn:Hv.
  destruct (consider_all _ _ _ _ _ l) as [[sel wit] later]. destruct (IH _ _ _ eq_refl) as (Hperm & Hsel & Hwit & Hno & Hkill).
  destruct (consider_session_writes _ _ _ _ _ _ _ Hv) as [Hno' Hkill'].
  destruct v as [h|r]; intros [= <- <- <-].
  - apply consider_session_withholds in Hv as [Hname Hreasons]. split_and!.
    + cbn. rewrite <- Permutation_middle, Hname. by rewrite Hperm.
    + intros r Hr. destruct (Hsel r Hr) as (live' & owners & Hl & Hi & Hgo & Hsave).
      exists live', owners. split_and!; [by right|done|done|]. intros e Hex He. apply elem_of_app. right. auto.
    + by intros h' [->|Hh']%elem_of_cons; auto.
    + intros Hex. by rewrite Hno', Hno.
    + intros name. rewrite elem_of_app. intros [Hk|Hk]; [by destruct (Hkill' name)|by destruct (Hkill name)].
  - apply consider_session_selects in Hv as (owners & Hi & Hgo & Heff). split_and!.
    + cbn. by rewrite (mg_name _ _ _ _ _ Hgo), Hperm.
    + intros r' [->|Hr']%elem_of_cons.
      * exists live, owners. split_and!; [by left|done|done|]. intros e -> He. apply elem_of_app. left. by rewrite Heff.
      * destruct (Hsel r' Hr') as (live' & owners' & Hl & Hi' & Hgo' & Hsave).
        exists live', owners'. split_and!; [by right|done|done|]. intros e Hex He. apply elem_of_app. right. auto.
    + done.
    + intros Hex. by rewrite Hno', Hno.
    + intros name. rewrite elem_of_app. intros [Hk|Hk]; [by destruct (Hkill' name)|by destruct (Hkill name)].
Qed.

Lemma kill_all_spec targets killed failures kills :
  kill_all w targets = (killed, failures, kills) →
  kills = (λ r, Kill (rc_name r)) <$> targets ∧
  killed = filter (λ n, is_ok (kill_session w n) = true) (rc_name <$> targets) ∧
  length killed + length failures = length targets.
Proof.
  revert killed failures kills. induction targets as [|t l IH]; intros killed failures kills; cbn [kill_all].
  { by intros [= <- <- <-]. }
  destruct (kill_all w l) as [[killed' failures'] kills']. destruct (IH _ _ _ eq_refl) as (-> & -> & Hlen).
  destruct (kill_session w (rc_name t)) as [u|e] eqn:Hk; intros [= <- <- <-]; (split; [done|]); rewrite !fmap_cons.
  - rewrite filter_cons_True by (by rewrite Hk). cbn. split; [done|lia].
  - rewrite filter_cons_False by (by rewrite Hk). cbn. split; [done|lia].
Qed.

Lemma parse_pane_listing_nodup stdout : NoDup (ls_name <$> parse_pane_listing w stdout).
Proof.
  unfold parse_pane_listing. rewrite <- list_fmap_compose.
  rewrite (list_fmap_ext _ fst) by (by intros _ [n a] _). rewrite sort_by_perm. apply NoDup_fst_map_to_list.
Qed.

Lemma enumerate_nodup sessions : enumerate_sessions w = Ok sessions → NoDup (ls_name <$> sessions).
Proof.
  unfold enumerate_sessions. destruct (sw_list w) as [why|[] out err]; [done| |].
  - intros [= <-]. apply parse_pane_listing_nodup.
  - destruct (_ || _); [|done]. intros [= <-]. constructor.
Qed.

(** A pass that saved and then killed. *)
Record pass_safe (execute : bool) (pass : session_pass) (saves : list session_effect) (kills : list string) : Prop := {
  pf_saves : ∀ name, Kill name ∉ saves;
  pf_dry : execute = false → saves = [];
  pf_once : NoDup kills;
  pf_kills : kills ≡ₚ if execute then rc_name <$> sp_selected pass else [];
  pf_killed : sp_killed pass = filter (λ n, is_ok (kill_session w n) = true) kills;
  pf_failures : length (sp_killed pass) + length (sp_failures pass) = length kills;
  pf_selected r : r ∈ sp_selected pass → ∃ sessions live owners molecules workers,
    enumerate_sessions w = Ok sessions ∧ live ∈ sessions ∧ ownership_index w = Ok owners ∧
    sw_pinned_molecules w = Some molecules ∧ sw_pinned_workers w = Some workers ∧
    may_go molecules workers owners live r ∧
    (execute = true → ∃ dest n text, rc_scrollback r = Some (dest, n) ∧ capture_scrollback w (rc_name r) = Ok text ∧
       Wrote dest text ∈ saves);
  pf_withheld h : h ∈ sp_withheld pass → wh_reasons h ≠ [];
  pf_all : sp_enumeration_errors pass = [] → ∃ sessions, enumerate_sessions w = Ok sessions ∧
    (rc_name <$> sp_selected pass) ++ (wh_name <$> sp_withheld pass) ≡ₚ ls_name <$> sessions;
}.

Lemma idle_pass_safe execute errors :
  errors ≠ [] → pass_safe execute (SessionPass [] [] errors execute [] []) [] [].
Proof.
  intros Hne. constructor; cbn; try done; [set_solver|constructor|by destruct execute|set_solver..].
Qed.

(** C13. The session pass on any world: first scrollback is written, then
    sessions are killed, and without [execute] neither; the killed sessions are
    the selected ones, each once; a selected session is live, detached, not
    pinned, not the caller's own, its name belongs in the index to a terminal
    molecule, and all its panes have been written to the directory of that
    molecule; what is withheld has a reason; and when nothing failed to be
    enumerated every live session is selected or withheld. *)
Theorem session_pass_safe execute pass trace :
  run_pass w execute = (pass, trace) →
  ∃ saves kills, trace = saves ++ (Kill <$> kills) ∧ pass_safe execute pass saves kills.
Proof.
  unfold run_pass. destruct (enumerate_sessions w) as [sessions|e] eqn:Hen.
  2:{ intros [= <- <-]. exists [], []. split; [done|by apply idle_pass_safe]. }
  destruct (match ownership_index w with Ok i => _ | Err e => _ end) as [index errors] eqn:Hidx.
  assert (∀ owners, index = Some owners → ownership_index w = Ok owners) as Howners
    by (intros owners; destruct (ownership_index w); injection Hidx as <- <-; by intros [= ->]).
  assert (∀ e, errors ++ [e] ≠ []) as Hearly by (by destruct errors).
  destruct (sw_pinned_molecules w) as [molecules|] eqn:Hpm;
    [|intros [= <- <-]; exists [], []; split; [done|by apply idle_pass_safe]].
  destruct (sw_pinned_workers w) as [workers|] eqn:Hpw;
    [|intros [= <- <-]; exists [], []; split; [done|by apply idle_pass_safe]].
  destruct (consider_all w index molecules workers execute sessions) as [[selected withheld] effects] eqn:Hall.
  destruct (if execute then _ else _) as [[killed failures] kills] eqn:Hk. intros [= <- <-].
  destruct (consider_all_spec _ _ _ _ _ _ _ _ Hall) as (Hperm & Hsel & Hwit & Hno & Hnk).
  assert (NoDup (rc_name <$> selected)) as Hnd.
  { pose proof (enumerate_nodup _ Hen) as Hnd. rewrite <- Hperm in Hnd. by apply NoDup_app in Hnd as [? _]. }
  exists effects, (if execute then rc_name <$> selected else []).
  assert (kills = Kill <$> (if execute then rc_name <$> selected else []) ∧
    killed = filter (λ n, is_ok (kill_session w n) = true) (if execute then rc_name <$> selected else []) ∧
    length killed + length failures = length (if execute then rc_name <$> selected else [])) as (-> & -> & Hlen).
  { destruct execute; [|by injection Hk as <- <- <-].
    destruct (kill_all_spec _ _ _ _ Hk) as (-> & -> & Hlen). by rewrite <- list_fmap_compose, length_fmap. }
  split; [done|]. constructor; cbn; [done|done|by destruct execute; [|constructor]| |done|done| | |].
  - destruct execute; [|done]. by rewrite sort_by_perm.
  - intros r Hr. rewrite sort_by_perm in Hr. destruct (Hsel r Hr) as (live & owners & Hlive & Hi & Hgo & Hsave).
    exists sessions, live, owners, molecules, workers. split_and!; [done|done|by apply Howners|done..|].
    intros Hex. destruct (mg_owner _ _ _ _ _ Hgo) as (o & _ & _ & _ & _ & _ & dest & Hd & text & Ht & Hs).
    rewrite <- (mg_name _ _ _ _ _ Hgo) in Ht. exists dest, (length (lines text)), text. split_and!; [done|done|].
    apply Hsave; [done|]. unfold saved. rewrite Hs, Ht. by left.
  - intros h Hh. rewrite sort_by_perm in Hh. by apply Hwit.
  - intros _. exists sessions. by rewrite !sort_by_perm.
Qed.
End Safe.

(** ** Names are valid *)

Definition word (w : string) : Prop := w ≠ EmptyString ∧ all_chars is_ascii_alphanumeric w = true.

Lemma words_join_valid l :
  l ≠ [] → Forall word l → is_valid_molecule_prefix (join_with "-" l) = true.
Proof.
  intros Hne Hl. apply dash_or_alnum_split.
  induction Hl as [|w l [Hw Ha] Hl IH]; [done|].
  assert (all_chars (λ c, is_ascii_alphanumeric c || bool_decide (c = "-"%char)) w = true) as Haw
    by (eapply all_chars_impl; [|exact Ha]; intros c Hc; by rewrite Hc).
  assert (contains_char "-" w = false) as Hno by (eapply all_chars_not_contains; [|exact Ha]; by vm_compute).
  assert (starts_with_char "-" w = false) as Hstart
    by (destruct w; [done|]; cbn in *; by apply orb_false_iff in Hno as [? _]).
  destruct l as [|w' l].
  - cbn. split_and!; [done|done|done|]. clear -Hno. induction w as [|a w IH]; [done|].
    cbn in Hno |- *. apply orb_false_iff in Hno as [Ha Hw]. destruct w; [done|by apply IH].
  - destruct (IH ltac:(done)) as (Hc & Hne' & Hs & He). rewrite join_with_cons. split_and!.
    + rewrite !all_chars_app, Haw, Hc. done.
    + by destruct w.
    + by destruct w.
    + destruct (join_with "-" (w' :: l)) as [|a t]; [done|].
      change (w +:+ "-" +:+ String a t) with (w +:+ String "-" (String a t)). rewrite ends_with_char_app. exact He.
Qed.

(** An [ep-] at the front is a word. *)
Lemma words_join_worker l :
  l ≠ [] → Forall word l → is_valid_molecule_prefix (worker_name (join_with "-" l)) = true.
Proof.
  intros Hne Hl. unfold worker_name. destruct (strip_prefix "ep-" (join_with "-" l)) as [rest|] eqn:Hstrip;
    [|by apply words_join_valid]. cbn [default from_option].
  destruct Hl as [|w l [Hw Ha] Hl]; [done|].
  assert (contains_char "-" w = false) as Hno by (eapply all_chars_not_contains; [|exact Ha]; by vm_compute).
  apply strip_prefix_some in Hstrip. change ("ep-" +:+ rest) with ("ep" +:+ String "-" rest) in Hstrip.
  destruct l as [|w' l].
  { change (join_with "-" [w]) with w in Hstrip. rewrite Hstrip, contains_char_app in Hno. by cbn in Hno. }
  rewrite join_with_cons in Hstrip. apply cut_first in Hstrip as [_ <-]; [|done|by vm_compute].
  by apply words_join_valid.
Qed.

Lemma split_alphanumeric_words s : Forall word (filter (.≠ EmptyString) (split_alphanumeric s)).
Proof.
  assert (Forall (λ w, all_chars is_ascii_alphanumeric w = true) (split_alphanumeric s)) as Hall.
  { induction s as [|c s IH]; cbn; [by constructor|]. destruct (is_ascii_alphanumeric c) eqn:Hc; [|by constructor].
    destruct (split_alphanumeric s) as [|w l]; cbn.
    - constructor; [|constructor]. cbn. by rewrite Hc.
    - apply Forall_cons in IH as [Hw Hl]. constructor; [|done]. cbn. by rewrite Hc. }
  rewrite Forall_forall in *. intros w [Hne Hin]%list_elem_of_filter. split; [done|by apply Hall].
Qed.

Lemma slug_words_words s : Forall word (slug_words s).
Proof.
  unfold slug_words. apply Forall_take. pose proof (split_alphanumeric_words (to_ascii_lowercase s)) as Hw.
  set (words := filter (.≠ EmptyString) _) in *. clearbody words.
  destruct (filter (.∉ stop_words) words) as [|w l] eqn:Hf; [done|]. rewrite <- Hf, Forall_forall in *.
  intros x [_ Hx]%list_elem_of_filter. by apply Hw.
Qed.

Lemma join_words_empty l : Forall word l → join_with "-" l = EmptyString → l = [].
Proof.
  intros Hl Hj. destruct Hl as [|w [|w' l] [Hw _] _]; [done|done|]. rewrite join_with_cons in Hj. by destruct w.
Qed.

Lemma join_with_snoc sep l x : l ≠ [] → join_with sep (l ++ [x]) = join_with sep l +:+ sep +:+ x.
Proof.
  intros Hne. induction l as [|y [|z l] IH]; [done|done|].
  change ((y :: z :: l) ++ [x]) with (y :: z :: (l ++ [x])). rewrite !join_with_cons.
  change (z :: l ++ [x]) with ((z :: l) ++ [x]). rewrite IH by done. by rewrite !string_app_assoc.
Qed.

(** The appended words are the first of the list, as far as they fit. *)
Lemma append_words_spec out words :
  Forall word out → Forall word words → String.length (join_with "-" out) ≤ max_slug_len →
  ∃ pre, pre `prefix_of` words ∧ append_words (join_with "-" out) words = join_with "-" (out ++ pre) ∧
    String.length (join_with "-" (out ++ pre)) ≤ max_slug_len.
Proof.
  intros Hd Hw. revert out Hd. induction Hw as [|w words Hw Hws IH]; intros out Hd Hlen; cbn [append_words].
  { exists []. by rewrite app_nil_r. }
  assert ((if is_empty (join_with "-" out) then w else join_with "-" out +:+ "-" +:+ w) = join_with "-" (out ++ [w])) as ->.
  { unfold is_empty. case_bool_decide as He.
    - by apply join_words_empty in He as ->.
    - rewrite join_with_snoc; [done|]. by intros ->. }
  case_decide as Hlong.
  { exists []. rewrite app_nil_r. split_and!; [apply prefix_nil|done|done]. }
  destruct (IH (out ++ [w])) as (pre & Hpre & -> & Hl); [apply Forall_app; split; [done|by apply Forall_singleton]|lia|].
  exists (w :: pre). rewrite <- (assoc_L app). split_and!; [by apply prefix_cons|done|by rewrite <- (assoc_L app) in Hl].
Qed.

Lemma trim_end_char_id c s : ends_with_char c s = false → trim_end_char c s = s.
Proof.
  induction s as [|a [|b s] IH]; [done| |]; intros He.
  - cbn in *. by rewrite bool_decide_eq_false in He; rewrite decide_False.
  - change (match trim_end_char c (String b s) with
            | EmptyString => if decide (a = c) then EmptyString else String a EmptyString
            | t => String a t end = String a (String b s)). by rewrite IH.
Qed.

Lemma slugify_spec s :
  ∃ pre, pre `prefix_of` slug_words s ∧ Forall word pre ∧ slugify s = join_with "-" pre ∧
    String.length (slugify s) ≤ max_slug_len.
Proof.
  destruct (append_words_spec [] (slug_words s)) as (pre & Hpre & Heq & Hlen);
    [constructor|apply slug_words_words|cbn; lia|].
  cbn [app join_with] in Heq, Hlen.
  assert (Forall word pre) as Hw.
  { destruct Hpre as [post Hpost]. pose proof (slug_words_words s) as Hall. rewrite Hpost in Hall.
    by apply Forall_app in Hall as [? _]. }
  assert (slugify s = join_with "-" pre) as Hs.
  { unfold slugify. rewrite Heq. destruct pre as [|w pre]; [done|].
    pose proof (words_join_valid (w :: pre) ltac:(done) Hw) as Hv. apply dash_or_alnum_split in Hv as (_ & _ & Hst & Hen).
    destruct (join_with "-" (w :: pre)) as [|a t]; [done|]. cbn in Hst. rewrite bool_decide_eq_false in Hst.
    cbn [trim_start_char]. rewrite decide_False by done. by apply trim_end_char_id. }
  exists pre. rewrite Hs. done.
Qed.

Lemma only_alphanumeric_all s : all_chars is_ascii_alphanumeric (only_alphanumeric s) = true.
Proof.
  induction s as [|c s IH]; [done|]. cbn. destruct (is_ascii_alphanumeric c) eqn:Hc; [|done]. cbn. by rewrite Hc.
Qed.

Lemma str_drop_all p n s : all_chars p s = true → all_chars p (str_drop n s) = true.
Proof.
  revert s. induction n as [|n IH]; intros [|a s]; cbn; try done. intros [_ Hs]%andb_true_iff. by apply IH.
Qed.

Lemma str_drop_length n s : String.length (str_drop n s) = String.length s - n.
Proof. revert s. induction n as [|n IH]; intros [|a s]; cbn; done. Qed.

Lemma short_id_word id : short_id id = EmptyString ∨ word (short_id id) ∧ String.length (short_id id) ≤ short_id_len.
Proof.
  destruct (decide (short_id id = EmptyString)) as [|Hne]; [by left|right]. split; [split; [done|]|]; unfold short_id.
  - case_decide; [apply only_alphanumeric_all|apply str_drop_all, only_alphanumeric_all].
  - case_decide; [done|]. rewrite str_drop_length. lia.
Qed.

(** A session has the identifier of its molecule as its name when the topic
    gives no slug; otherwise the name is a valid worker identifier of at most
    35 bytes, and the slug is at most 30. *)
Theorem session_name_bounded topic id :
  String.length (slugify topic) ≤ max_slug_len ∧
  (slugify topic = EmptyString ∧ session_name_for (Some topic) id = id ∨
   slugify topic ≠ EmptyString ∧
   worker_id_new (session_name_for (Some topic) id) = Ok (session_name_for (Some topic) id) ∧
   String.length (session_name_for (Some topic) id) ≤ max_slug_len + 1 + short_id_len).
Proof.
  destruct (slugify_spec topic) as (pre & _ & Hw & Hs & Hlen). split; [done|].
  unfold session_name_for. cbn [fmap option_fmap option_map default from_option Datatypes.id].
  destruct (is_empty (slugify topic)) eqn:He; [left; split; [by apply bool_decide_eq_true in He|done]|right].
  apply bool_decide_eq_false in He. split; [done|].
  assert (pre ≠ []) as Hne by (intros ->; by rewrite Hs in He).
  destruct (is_empty (short_id id)) eqn:Hsh.
  - split; [|lia]. apply worker_id_accepts. rewrite Hs. by apply words_join_worker.
  - apply bool_decide_eq_false in Hsh. destruct (short_id_word id) as [?|[Hsw Hsl]]; [done|]. split.
    + apply worker_id_accepts. rewrite Hs, <- join_with_snoc by done. apply words_join_worker; [by destruct pre|].
      apply Forall_app. split; [done|by apply Forall_singleton].
    + rewrite !string_length_app. cbn [String.length]. lia.
Qed.

(** ** Samples *)

Module SessionSamples.

#[export] Instance plain_reclaim_text : ReclaimText := {| debug_str := quoted |}.

Definition audit_molecule (id : string) (status : molecule_status) : session_molecule :=
  SessionMolecule id {["topic" := "Nightly audit"]} status.

Definition sample_world (molecules : list session_molecule) : session_world :=
  {| sw_socket := "cosmon"; sw_list := Exited true ("nightly-audit-ab12|0" +:+ nl +:+ "shell|1" +:+ nl) "";
     sw_molecules := Ok molecules; sw_pinned_molecules := Some ∅; sw_pinned_workers := Some ∅;
     sw_tmux_pane := None; sw_own_name := λ _, SpawnError "no tmux";
     sw_panes := λ _, Exited true ("%1" +:+ nl) ""; sw_capture := λ _, Exited true "all done" "";
     sw_molecule_dir := λ id, Some ["state"; mid_raw id]; sw_create_dir := λ _, None; sw_write := λ _, None;
     sw_kill := λ _, Exited true "" "" |}.

Definition finished_audits : list session_molecule := [audit_molecule "task-20260101-ab12" MoleculeStatus.Completed].

Example sample_pass :
  let '(pass, trace) := run_pass (sample_world finished_audits) true in
  trace = [Wrote ["state"; "task-20260101-ab12"; "session-scrollback-nightly-audit-ab12.txt"] ("all done" +:+ nl);
           Kill "nightly-audit-ab12"] ∧
  sp_killed pass = ["nightly-audit-ab12"] ∧ wh_name <$> sp_withheld pass = ["shell"].
Proof. vm_compute. done. Qed.

Lemma session_pass_safe_witness :
  ∃ pass saves kills, pass_safe (sample_world finished_audits) true pass saves kills ∧ sp_killed pass = ["nightly-audit-ab12"].
Proof.
  destruct (run_pass (sample_world finished_audits) true) as [pass trace] eqn:Hp.
  destruct (session_pass_safe (sample_world finished_audits) true pass trace Hp) as (saves & kills & _ & Hsafe).
  exists pass, saves, kills. split; [exact Hsafe|]. apply (f_equal (sp_killed ∘ fst)) in Hp. vm_compute in Hp. exact (eq_sym Hp).
Defined.

(** A name carries only the topic and the last four characters of the
    identifier: two molecules of the same topic can share it, and the session
    of the one that runs is then taken for that of the finished one. *)
Example shared_name_kills_a_running_session :
  let molecules := [audit_molecule "task-20260301-ab12" MoleculeStatus.Running; audit_molecule "task-20260101-ab12" MoleculeStatus.Completed] in
  NoDup (sm_id <$> molecules) ∧ sp_killed (run_pass (sample_world molecules) true).1 = ["nightly-audit-ab12"].
Proof. split; [by apply (bool_decide_eq_true_1 _); vm_compute|]. vm_compute. done. Qed.
End SessionSamples.
