(* ===== verification/WorktreePass.v ===== *)
(** The pass of [cs purge --worktrees] over the worktrees of a repository
    ([crates/cosmon-harvest/src/worktree_reclaim.rs] and
    [crates/cosmon-cli/src/cmd/worktree_reclaim.rs]): what git, the store, the
    build lock and the tree of files say of a candidate, and the removal of the
    build output that may go. *)
From stdpp Require Import prelude gmap strings list sorting pretty.
From Stdlib Require Import Ascii.
From S2P Require Import Prelude Text Paths Ids Molecule Store Reclaim.
Import Worktree.

Definition lock_anchor_text : string := "target/debug/.cargo-lock".
Definition lock_anchor : path := path_of_text lock_anchor_text.
Definition default_derived_roots : list string := ["target"].

(** The answer of [git -C cwd args]. *)
Inductive git_answer : Type :=
| GitOutput (stdout : string)
| GitUndecodable (why : string)
| GitFailed (code : option Z) (stderr : string)
| GitSpawnError (why : string).

(** [git worktree list --porcelain], decoded with losses. *)
Inductive listing_answer : Type :=
| Listing (stdout : string)
| ListingFailed (code : option Z) (stderr : string)
| ListingSpawnError (why : string).

(** What a removal does: it may leave a part. *)
Inductive removal : Type := RemovesAll | RemovesPart (kept : gset path) (why : string).

Record worktree_world := WorktreeWorld {
  ww_git : path → list string → git_answer;
  ww_load : molecule_id → result cosmon_error molecule_status;
  ww_id_error : id_error → string;
  ww_open_anchor : path → option string;
  ww_try_lock : path → bool;
  ww_poisoned : option string;
  ww_read_fails : path → bool;
  ww_entry_fails : path → bool;
  ww_os_error : path → string;
  ww_remove : path → removal;
  ww_parse_error : string → string;
  ww_size : path → N;
  ww_listing : path → listing_answer;
}.

Section Observer.
Context (w : worktree_world) (repo_root : path) (base_branch : string) (roots : list path).

(** ** The observer *)

Definition candidate_id (candidate : path) : result observation_error molecule_id :=
  match parse_inner (default EmptyString (last candidate)) with
  | Ok id => Ok id
  | Err e => Err (ObservationError "parse molecule id from directory name" (display candidate) (ww_id_error w e))
  end.

Definition git (cwd : path) (args : list string) : result observation_error string :=
  let op := "git " +:+ join_with " " args in
  match ww_git w cwd args with
  | GitOutput out => Ok out
  | GitUndecodable why | GitSpawnError why => Err (ObservationError op (display cwd) why)
  | GitFailed code stderr =>
      Err (ObservationError op (display cwd) ("exit " +:+ pretty (default (-1)%Z code) +:+ ": " +:+ trim stderr))
  end.

(** Two paths that both do not resolve count as the same, as in the source. *)
Definition assert_own_top_level (t : tree) (candidate : path) : result observation_error () :=
  match git candidate ["rev-parse"; "--show-toplevel"] with
  | Err e => Err e
  | Ok out =>
      let top := path_of_text (trim out) in
      if decide (canonicalize t top = canonicalize t candidate) then Ok ()
      else Err (ObservationError "git rev-parse --show-toplevel" (display candidate)
                  ("answered for " +:+ display top +:+ " — parent-repository fallback"))
  end.

Definition exclusion_established (root : path) : bool := bool_decide (root `prefix_of` lock_anchor).

Definition no_exclusion_reason (root : path) : string :=
  "no exclusion protocol covers `" +:+ join_with "/" root +:+
  "`: the acquired lock is Cargo's own build lock at `" +:+ lock_anchor_text +:+
  "`, which excludes Cargo and no other producer".

Definition observe_record (candidate : path) : molecule_record_observation :=
  match candidate_id candidate with
  | Err _ => RecordAbsent
  | Ok id =>
      match ww_load w id with
      | Ok _ => RecordPresent
      | Err (ENotFound _) => RecordAbsent
      | Err e => RecordUnknown (ObservationError "load molecule" (display candidate) (cosmon_to_string e))
      end
  end.

Definition observe_status (candidate : path) : status_observation :=
  match candidate_id candidate with
  | Err e => StatusUnknown e
  | Ok id =>
      match ww_load w id with
      | Ok s => StatusKnown s
      | Err e => StatusUnknown (ObservationError "load molecule status" (display candidate) (cosmon_to_string e))
      end
  end.

(** The worktrees that git lists. *)
Definition listed_worktrees (out : string) : list path :=
  omap (λ l, p ← strip_prefix "worktree " l; Some (path_of_text p)) (lines out).

Definition observe_registration (t : tree) (candidate : path) : registration_observation :=
  match git repo_root ["worktree"; "list"; "--porcelain"] with
  | Err e => RegistrationUnknown e
  | Ok out =>
      let target := canonicalize t candidate in
      if existsb (λ p, bool_decide (canonicalize t p = target ∧ is_Some target)) (listed_worktrees out)
      then Registered else Unregistered
  end.

Definition observe_lock (candidate : path) : lock_observation :=
  let anchor := candidate ++ lock_anchor in
  match ww_open_anchor w anchor with
  | Some why => ProbeFailed (ObservationError "open lock anchor" (display anchor) why)
  | None =>
      if ww_try_lock w anchor then
        match ww_poisoned w with
        | None => Acquired
        | Some why => ProbeFailed (ObservationError "retain lock guard" (display anchor) why)
        end
      else Held
  end.

Definition observe_ahead (t : tree) (candidate : path) : ahead_observation :=
  match assert_own_top_level t candidate with
  | Err e => AheadUnknown e
  | Ok _ =>
      match git candidate ["rev-parse"; "--verify"; "HEAD"] with
      | Err e => AheadUnknown e
      | Ok head =>
          let base := "refs/heads/" +:+ base_branch in
          match git repo_root ["rev-parse"; "--verify"; base] with
          | Err e => AheadUnknown e
          | Ok _ =>
              let range := base +:+ ".." +:+ trim head in
              match git repo_root ["rev-list"; "--count"; range] with
              | Err e => AheadUnknown e
              | Ok out =>
                  match parse_unsigned u64_max (trim out) with
                  | None =>
                      AheadUnknown (ObservationError ("git rev-list --count " +:+ range) (display candidate)
                        (ww_parse_error w (trim out)))
                  | Some 0%N => Zero
                  | Some n => Positive n
                  end
              end
          end
      end
  end.

(** [observe_dirty] *)
Definition observe_dirty (t : tree) (worktree : path) : dirty_observation :=
  if negb (is_dir t worktree) then Clean
  else
    let op := "git status --porcelain" in
    match ww_git w worktree ["status"; "--porcelain"] with
    | GitSpawnError why => DirtyUnknown (ObservationError op (display worktree) why)
    | GitFailed code stderr =>
        DirtyUnknown (ObservationError op (display worktree)
          ("exit " +:+ pretty (default (-1)%Z code) +:+ ": " +:+ trim stderr))
    | GitUndecodable why => DirtyUnknown (ObservationError "decode git status output" (display worktree) why)
    | GitOutput out =>
        match filter (λ l, trim l ≠ EmptyString) (lines out) with [] => Clean | l => Dirty l end
    end.

Definition observe_ignored (t : tree) (candidate : path) : ignored_durable_observation :=
  match assert_own_top_level t candidate with
  | Err e => IgnoredUnknown e
  | Ok _ =>
      match git candidate ["ls-files"; "--others"; "--ignored"; "--exclude-standard"; "--directory"] with
      | Err e => IgnoredUnknown e
      | Ok out =>
          match filter (λ l, ¬ Exists (λ root, (Normal <$> root) `prefix_of` path_components l) roots)
                  (filter (.≠ EmptyString) (trim <$> lines out)) with
          | [] => IgnoredAbsent
          | durable => IgnoredPresent durable
          end
      end
  end.

(** The loop over the configured roots: the roots that may go and those that
    are withheld; an error ends it. *)
Fixpoint derive_roots (t : tree) (candidate real : path) (roots : list path) :
    result observation_error (gset path * list (path * string)) :=
  match roots with
  | [] => Ok (∅, [])
  | root :: rest =>
      let p := candidate ++ root in
      if negb (exclusion_established root) then
        '(ok, withheld) ← derive_roots t candidate real rest;
        Ok (ok, (p, no_exclusion_reason root) :: withheld)
      else if negb (exists_at t p) then derive_roots t candidate real rest
      else
        match canonicalize t p with
        | None => Err (ObservationError "canonicalize derived root" (display p) (ww_os_error w p))
        | Some r =>
            if decide (real `prefix_of` r) then
              '(ok, withheld) ← derive_roots t candidate real rest;
              Ok ({[p]} ∪ ok, withheld)
            else Err (ObservationError "contain derived root" (display p)
                        ("resolves outside the candidate, to " +:+ display r))
        end
  end.

Definition derive (t : tree) (candidate : path) : result observation_error (gset path * list (path * string)) :=
  match canonicalize t candidate with
  | None => Err (ObservationError "canonicalize candidate" (display candidate) (ww_os_error w candidate))
  | Some real => derive_roots t candidate real roots
  end.

Definition observe_roots (t : tree) (candidate : path) : derived_roots_observation :=
  match derive t candidate with Ok (ok, _) => Validated ok | Err e => Unavailable e end.

(** What [withheld_roots] gives after the candidate was observed. *)
Definition withheld_roots (t : tree) (candidate : path) : list (path * string) :=
  match derive t candidate with Ok (_, withheld) => withheld | Err _ => [] end.

Definition observer (t : tree) : WorktreeObservationPort :=
  {| molecule_record := observe_record; molecule_status_of := observe_status;
     registration := observe_registration t; lock := observe_lock; commits_ahead := observe_ahead t;
     dirty := observe_dirty t; ignored_durable := observe_ignored t; derived_roots := observe_roots t |}.

(** ** Removal *)

Record reclaim_report := ReclaimReport {
  rr_removed : gset path;
  rr_preserved : gset path;
  rr_failures : list observation_error;
}.

Definition empty_report : reclaim_report := ReclaimReport ∅ ∅ [].

Context `{!HashOrder string}.

(** [read_dir]: the order of the entries is that of the file system. *)
Definition read_dir (t : tree) (dir : path) : option (list string) :=
  real ← canonicalize t dir;
  if bool_decide (node_at t real = Some DirNode) && negb (ww_read_fails w dir)
  then Some (hash_iter (names_in t real)) else None.

(** The loop over the entries; an error ends it, [None] is the end of the fuel. *)
Fixpoint each_entry {S} (f : string → S → option (S * option observation_error)) (names : list string) (s : S) :
    option (S * option observation_error) :=
  match names with
  | [] => Some (s, None)
  | n :: names =>
      match f n s with
      | Some (s, None) => each_entry f names s
      | r => r
      end
  end.

(** [remove_dir_all] of a directory, [remove_file] of anything else. *)
Definition remove_entry (t : tree) (dir : path) (name : string) (rep : reclaim_report) : tree * reclaim_report :=
  let p := dir ++ [name] in
  let failed why := ReclaimReport (rr_removed rep) (rr_preserved rep)
                      (rr_failures rep ++ [ObservationError "remove derived payload" (display p) why]) in
  let removed := ReclaimReport ({[p]} ∪ rr_removed rep) (rr_preserved rep) (rr_failures rep) in
  match place t dir name with
  | None => (t, failed (ww_os_error w p))
  | Some real =>
      if is_dir t p && negb (is_symlink t dir name) then
        match ww_remove w p with
        | RemovesAll => (remove_at t real ∅, removed)
        | RemovesPart kept why => (remove_at t real kept, failed why)
        end
      else
        match t !! real, ww_remove w p with
        | Some _, RemovesAll => (delete real t, removed)
        | None, _ => (t, failed (ww_os_error w p))
        | Some _, RemovesPart _ why => (t, failed why)
        end
  end.

Fixpoint reclaim_root (fuel : nat) (candidate root : path) (s : tree * reclaim_report) :
    option ((tree * reclaim_report) * option observation_error) :=
  match fuel with
  | 0 => None
  | S fuel =>
      match read_dir s.1 root with
      | None => Some (s, Some (ObservationError "read derived root" (display root) (ww_os_error w root)))
      | Some names =>
          each_entry (λ name '(t, rep),
            let p := root ++ [name] in
            if ww_entry_fails w p then
              Some ((t, rep), Some (ObservationError "read derived entry" (display root) (ww_os_error w p)))
            else if decide (p `prefix_of` candidate ++ lock_anchor) then
              if decide (p = candidate ++ lock_anchor) then
                Some ((t, ReclaimReport (rr_removed rep) ({[p]} ∪ rr_preserved rep) (rr_failures rep)), None)
              else reclaim_root fuel candidate p (t, rep)
            else Some (remove_entry t root name rep, None)) names s
      end
  end.

Definition reclaim_fuel : nat := S (length lock_anchor).

(** The loop over the selected roots. *)
Fixpoint reclaim_roots (candidate : path) (selected : list path) (s : tree * reclaim_report) :
    option ((tree * reclaim_report) * option observation_error) :=
  match selected with
  | [] => Some (s, None)
  | root :: rest =>
      if is_dir s.1 root then
        match reclaim_root reclaim_fuel candidate root s with
        | Some (s, None) => reclaim_roots candidate rest s
        | r => r
        end
      else reclaim_roots candidate rest s
  end.

(** The roots of a [BTreeSet], in its order. *)
Definition in_order (ps : gset path) : list path := sort_by (λ p : path, p) (elements ps).

(** [reclaim_derived]; [guards] are the candidates whose lock is held. *)
Definition reclaim_derived (guards : gset path) (obs : derived_observation) (t : tree) :
    option (tree * result observation_error reclaim_report) :=
  let selected := selected_derived_paths obs in
  if decide (selected = ∅) then Some (t, Ok empty_report)
  else if decide (do_path obs ∉ guards) then
    Some (t, Err (ObservationError "revalidate lock guard" (display (do_path obs))
                    "the acquired flock guard is no longer held by this observer"))
  else
    match reclaim_roots (do_path obs) (in_order selected) (t, empty_report) with
    | None => None
    | Some ((t, rep), None) => Some (t, Ok rep)
    | Some ((t, _), Some e) => Some (t, Err e)
    end.
End Observer.

(** ** Candidates *)

Inductive candidate_source : Set := FilesystemOnly | RegistrationOnly | Both.

Record enumerated_candidate := EnumeratedCandidate { ec_path : path; ec_source : candidate_source }.
Record enumeration := Enumeration { en_candidates : list enumerated_candidate; en_errors : list observation_error }.

Inductive worktree_dirs : Type := DirsAbsent | DirsListed (dirs : list path) | DirsUnreadable (e : observation_error).

Section Pass.
Context (w : worktree_world) `{!HashOrder string}.

Definition read_worktree_dirs (t : tree) (worktrees_root : path) : worktree_dirs :=
  if negb (exists_at t worktrees_root) then DirsAbsent
  else
    match read_dir w t worktrees_root with
    | None => DirsUnreadable (ObservationError "read .worktrees/" (display worktrees_root) (ww_os_error w worktrees_root))
    | Some names =>
        DirsListed (sort_by (λ p : path, p)
          (filter (λ p, is_dir t p = true) ((λ n, worktrees_root ++ [n]) <$>
             filter (λ n, ww_entry_fails w (worktrees_root ++ [n]) = false) names)))
    end.

Definition real_or_self (t : tree) (p : path) : path := default p (canonicalize t p).

(** One round of the loop that joins the two sources. *)
Fixpoint join_sources (t : tree) (fs_real git_real seen : gset path) (ps : list path) : list enumerated_candidate :=
  match ps with
  | [] => []
  | p :: ps =>
      let real := real_or_self t p in
      if decide (real ∈ seen) then join_sources t fs_real git_real seen ps
      else
        EnumeratedCandidate p
          (if decide (real ∈ fs_real) then if decide (real ∈ git_real) then Both else FilesystemOnly
           else RegistrationOnly)
        :: join_sources t fs_real git_real ({[real]} ∪ seen) ps
  end.

Definition enumerate_candidates (t : tree) (repo_root : path) : enumeration :=
  let repo_real := real_or_self t repo_root in
  let '(from_fs, errors) :=
    match read_worktree_dirs t (repo_root ++ [".worktrees"]) with
    | DirsAbsent => ([], [])
    | DirsListed dirs => (dirs, [])
    | DirsUnreadable e => ([], [e])
    end in
  let '(from_git, git_errors) :=
    let fail why := ([], [ObservationError "git worktree list --porcelain" (display repo_root) why]) in
    match ww_listing w repo_root with
    | Listing out => (filter (λ p, real_or_self t p ≠ repo_real) (listed_worktrees out), [])
    | ListingFailed code stderr => fail ("exit " +:+ pretty (default (-1)%Z code) +:+ ": " +:+ trim stderr)
    | ListingSpawnError why => fail why
    end in
  let fs_set : gset path := list_to_set from_fs in
  let git_set : gset path := list_to_set from_git in
  Enumeration
    (sort_by ec_path
       (join_sources t (set_map (real_or_self t) fs_set) (set_map (real_or_self t) git_set) ∅
          (in_order fs_set ++ in_order git_set)))
    (errors ++ git_errors).

(** ** The pass *)

Record selected_worktree := SelectedWorktree {
  sl_path : path;
  sl_source : candidate_source;
  sl_roots : gset path;
  sl_bytes : N;
}.

Record withheld_worktree := WithheldWorktree {
  wt_path : path;
  wt_source : candidate_source;
  wt_reasons : list string;
  wt_bytes : N;
}.

Record reclaim_pass := ReclaimPass {
  rp_selected : list selected_worktree;
  rp_withheld : list withheld_worktree;
  rp_enumeration_errors : list observation_error;
  rp_executed : bool;
  rp_removed : gset path;
  rp_preserved : gset path;
  rp_failures : list observation_error;
}.

Definition gate_reason (molecule : molecule_record_observation) (status : status_observation) : string :=
  match molecule, status with
  | RecordUnknown e, _ => "the molecule record could not be read: " +:+ describe e
  | RecordPresent, StatusUnknown e => "the molecule status could not be read: " +:+ describe e
  | RecordPresent, StatusKnown s =>
      "molecule is " +:+ status_as_str s +:+
      " — a molecule that is not Completed or Collapsed may still be resumed, and its worktree is where it resumes"
  | RecordAbsent, _ => "the consideration gate refused this candidate"
  end.

Definition derived_reason (obs : candidate_observation) : option string :=
  let d := co_derived obs in
  match consideration_gate (do_molecule d) (do_status d) with
  | ConsiderNo => Some (gate_reason (do_molecule d) (do_status d))
  | ConsiderYes =>
      match do_lock d with
      | Held =>
          Some ("another process holds the build lock at " +:+ display (do_path d ++ lock_anchor) +:+
                " — reclaiming under contention would delete a running build's output")
      | ProbeFailed e => Some ("the build lock could not be probed: " +:+ describe e +:+ " — no exclusion, no removal")
      | Acquired =>
          match do_derived_set d with
          | Unavailable e => Some ("the derived roots could not be inventoried: " +:+ describe e)
          | Validated roots => if decide (roots = ∅) then Some "no configured derived root is present here" else None
          end
      end
  end.

Definition durable_reason (obs : candidate_observation) : option string :=
  let h := co_durable obs in
  match durable_eligibility h, consideration_gate (ho_molecule h) (ho_status h) with
  | Eligible, _ => None
  | Withhold, ConsiderNo => Some (gate_reason (ho_molecule h) (ho_status h))
  | Withhold, ConsiderYes =>
      match ho_registration h, ho_ahead h, ho_dirty h, ho_ignored_durable h with
      | Unregistered, _, _, _ =>
          Some "git does not know this directory as a worktree — unregistered scratch, whose contents nothing else holds a copy of"
      | RegistrationUnknown e, _, _, _ => Some ("registration is unknown: " +:+ describe e)
      | Registered, Positive n, _, _ => Some (pretty n +:+ " commit(s) are not reachable from the base branch")
      | Registered, AheadUnknown e, _, _ =>
          Some ("ancestry is unknown: " +:+ describe e +:+ " — a ref that cannot be proven merged is not merged")
      | Registered, Zero, Dirty paths, _ =>
          Some (pretty (length paths) +:+ " uncommitted file(s) in the worktree: " +:+ join_with ", " paths)
      | Registered, Zero, DirtyUnknown e, _ => Some ("the worktree status is unknown: " +:+ describe e)
      | Registered, Zero, Clean, IgnoredPresent paths =>
          Some (pretty (length paths) +:+ " ignored but durable path(s) live here: " +:+ join_with ", " paths)
      | Registered, Zero, Clean, IgnoredUnknown e => Some ("the ignored-content inventory is unknown: " +:+ describe e)
      | Registered, Zero, Clean, IgnoredAbsent => None
      end
  end.

Definition prefixed (p : string) (o : option string) : list string := option_list ((λ why, p +:+ why) <$> o).

Definition with_report (pass : reclaim_pass) (r : result observation_error reclaim_report) : reclaim_pass :=
  match r with
  | Ok rep =>
      ReclaimPass (rp_selected pass) (rp_withheld pass) (rp_enumeration_errors pass) (rp_executed pass)
        (rp_removed pass ∪ rr_removed rep) (rp_preserved pass ∪ rr_preserved rep) (rp_failures pass ++ rr_failures rep)
  | Err e =>
      ReclaimPass (rp_selected pass) (rp_withheld pass) (rp_enumeration_errors pass) (rp_executed pass)
        (rp_removed pass) (rp_preserved pass) (rp_failures pass ++ [e])
  end.

Definition with_worktree (pass : reclaim_pass) (s : list selected_worktree) (h : list withheld_worktree) : reclaim_pass :=
  ReclaimPass (rp_selected pass ++ s) (rp_withheld pass ++ h) (rp_enumeration_errors pass) (rp_executed pass)
    (rp_removed pass) (rp_preserved pass) (rp_failures pass).

Definition sum_sizes (t : gset path) : N := foldr N.add 0%N (ww_size w <$> elements t).

Section Loop.
Context (repo_root : path) (base_branch : string) (roots : list path) (execute : bool).

(** Everything that is said against a candidate. *)
Definition reasons_against (t : tree) (p : path) (obs : candidate_observation) : list string :=
  prefixed "derived: " (derived_reason obs) ++ prefixed "durable: " (durable_reason obs) ++
  ((λ '(root, why), "root " +:+ display root +:+ ": " +:+ why) <$> withheld_roots w roots t p).

(** One round of the loop; the guard of a lock that was acquired is kept. *)
Definition pass_candidate (c : enumerated_candidate) (guards : gset path) (t : tree) (pass : reclaim_pass) :
    option (gset path * tree * reclaim_pass) :=
  let p := ec_path c in
  let obs := @observe (observer w repo_root base_branch roots t) p in
  let guards := match do_lock (co_derived obs) with Acquired => {[p]} ∪ guards | _ => guards end in
  let selected := selected_derived_paths (co_derived obs) in
  let reasons := reasons_against t p obs in
  let withheld := WithheldWorktree p (ec_source c) reasons (ww_size w p) in
  if decide (selected = ∅) then Some (guards, t, with_worktree pass [] [withheld])
  else
    let pass := with_worktree pass [SelectedWorktree p (ec_source c) selected (sum_sizes selected)]
                  (match reasons with [] => [] | _ => [withheld] end) in
    if execute then
      '(t, r) ← reclaim_derived w guards (co_derived obs) t;
      Some (guards, t, with_report pass r)
    else Some (guards, t, pass).

Fixpoint pass_candidates (cs : list enumerated_candidate) (guards : gset path) (t : tree) (pass : reclaim_pass) :
    option (tree * reclaim_pass) :=
  match cs with
  | [] => Some (t, pass)
  | c :: cs =>
      '(guards, t, pass) ← pass_candidate c guards t pass;
      pass_candidates cs guards t pass
  end.
End Loop.

Definition rejection_debug (r : derived_root_rejection) : string :=
  match r with
  | NotWorktreeLocal => "NotWorktreeLocal" | Traversal => "Traversal" | WorktreeRoot => "WorktreeRoot"
  | DurableArea => "DurableArea"
  end.

(** [GitWorktreeObserver::new]: every configured root is validated. *)
Fixpoint validate_roots (evict : list string) : result observation_error (list path) :=
  match evict with
  | [] => Ok []
  | root :: evict =>
      match validate_derived_root root with
      | Err why => Err (ObservationError "validate derived root" root (rejection_debug why))
      | Ok p => rest ← validate_roots evict; Ok (p :: rest)
      end
  end.

Definition run_pass (repo_root : path) (base_branch : string) (evict : list string) (execute : bool) (t : tree) :
    option (tree * result string reclaim_pass) :=
  match validate_roots evict with
  | Err e => Some (t, Err ("[worktree_reclaim].evict is invalid: " +:+ describe e))
  | Ok roots =>
      let en := enumerate_candidates t repo_root in
      '(t, pass) ← pass_candidates repo_root base_branch roots execute (en_candidates en) ∅ t
                     (ReclaimPass [] [] (en_errors en) execute ∅ ∅ []);
      Some (t, Ok pass)
  end.
End Pass.

(** ** What is removed *)

Lemma each_entry_keeps {S} (P : S → Prop) f names s s' e :
  (∀ n s s' e, P s → f n s = Some (s', e) → P s') → P s → each_entry f names s = Some (s', e) → P s'.
Proof.
  intros Hf. revert s. induction names as [|n names IH]; intros s Hs; cbn [each_entry]; [by intros [= <- _]|].
  destruct (f n s) as [[s1 [e1|]]|] eqn:Hn; [|by apply IH, (Hf n s s1 None)|done]. intros [= <- _]. by eapply Hf.
Qed.

Lemma each_entry_total {S} (f : string → S → option (S * option observation_error)) names s :
  (∀ n s, is_Some (f n s)) → is_Some (each_entry f names s).
Proof.
  intros Hf. revert s. induction names as [|n names IH]; intros s; cbn [each_entry]; [by eexists|].
  destruct (Hf n s) as [[s1 [e|]] ->]; [by eexists|apply IH].
Qed.

(** No link on the way from a candidate to the build lock. *)
Definition no_links (t : tree) (real : path) : Prop :=
  ∀ q, q `prefix_of` lock_anchor → ∀ target, t !! (real ++ q) ≠ Some (LinkNode target).

(** Strictly below the root [r] of a candidate, and not the build lock or a
    directory on the way to it. *)
Definition beneath (real r p : path) : Prop := (real ++ r) `prefix_of` p ∧ ¬ p `prefix_of` real ++ lock_anchor.

Lemma prefix_app_iff {A} (k l1 l2 : list A) : (k ++ l1) `prefix_of` (k ++ l2) ↔ l1 `prefix_of` l2.
Proof. split; [apply prefix_app_inv|apply prefix_app]. Qed.

Section Contained.
Context (w : worktree_world) `{!HashOrder string} (t0 : tree) (candidate real : path).
Hypothesis Hreal : canonicalize t0 candidate = Some real.
Hypothesis Hlinks : no_links t0 real.

Record only_beneath (rs : list path) (t : tree) : Prop := {
  ob_sub : t ⊆ t0;
  ob_changed p : t !! p ≠ t0 !! p → ∃ r, r ∈ rs ∧ beneath real r p;
}.

Lemma canonicalize_root t r d :
  t ⊆ t0 → r `prefix_of` lock_anchor → canonicalize t (candidate ++ r) = Some d → d = real ++ r.
Proof.
  intros Hsub Hr Hd. apply (canonicalize_below t0 candidate r d real Hreal); [|by eapply canonicalize_mono].
  intros q Hq. apply Hlinks. by etransitivity.
Qed.

(** A part of the tree that only lost what is under one entry. *)
Lemma only_beneath_less rs r r' name t t' :
  r ∈ rs → r `prefix_of` r' → ¬ (r' ++ [name]) `prefix_of` lock_anchor →
  only_beneath rs t → t' ⊆ t → (∀ p, t' !! p ≠ t !! p → (real ++ r' ++ [name]) `prefix_of` p) → only_beneath rs t'.
Proof.
  intros Hin Hpre Hn [Hsub Hch] Hsub' Hch'. split; [by etransitivity|]. intros p Hp.
  destruct (decide (t' !! p = t !! p)) as [He|Hne]; [apply Hch; congruence|].
  apply Hch' in Hne. exists r. split; [done|]. split.
  - etransitivity; [|exact Hne]. apply prefix_app_iff. etransitivity; [exact Hpre|]. by apply prefix_app_r.
  - intros Hp'. apply Hn. rewrite <- (prefix_app_iff real). by etransitivity.
Qed.

Lemma remove_entry_beneath rs r r' name t rep :
  r ∈ rs → r `prefix_of` r' → r' `prefix_of` lock_anchor → ¬ (r' ++ [name]) `prefix_of` lock_anchor →
  only_beneath rs t → only_beneath rs (remove_entry w t (candidate ++ r') name rep).1.
Proof.
  intros Hin Hpre Hr' Hn Hob. unfold remove_entry, place.
  destruct (canonicalize t (candidate ++ r')) as [d|] eqn:Hd; cbn [mbind option_bind]; [|done].
  apply (canonicalize_root t r' d (ob_sub _ _ Hob) Hr') in Hd as ->.
  assert (∀ kept, only_beneath rs (remove_at t ((real ++ r') ++ [name]) kept)) as Hat.
  { intros kept. eapply only_beneath_less; [done..|apply remove_at_subseteq|]. intros p Hp.
    rewrite (assoc_L app). by eapply remove_at_changed. }
  destruct (is_dir _ _ && _).
  - destruct (ww_remove w _); cbn; apply Hat.
  - destruct (t !! _); [|done]. destruct (ww_remove w _); cbn; [|done].
    eapply only_beneath_less; [done..|apply delete_subseteq|]. intros p Hp. rewrite (assoc_L app).
    destruct (decide (p = (real ++ r') ++ [name])) as [->|Hne]; [done|]. by rewrite lookup_delete_ne in Hp.
Qed.

Lemma reclaim_root_beneath fuel rs r r' t rep t' rep' e :
  r ∈ rs → r `prefix_of` r' → r' `prefix_of` lock_anchor → only_beneath rs t →
  reclaim_root w fuel candidate (candidate ++ r') (t, rep) = Some ((t', rep'), e) → only_beneath rs t'.
Proof.
  intros Hin. revert r' t rep t' rep' e. induction fuel as [|fuel IH]; intros r' t rep t' rep' e Hpre Hr' Hob; [done|].
  cbn [reclaim_root fst]. destruct (read_dir w t _) as [names|]; [|by intros [= <- _ _]]. intros Heach.
  enough (only_beneath rs (t', rep').1) by done. revert Heach.
  apply (each_entry_keeps (λ s, only_beneath rs s.1)); [|done]. clear t rep t' rep' Hob e.
  intros n [t rep] s' e Hob. destruct (ww_entry_fails w _); [by intros [= <- _]|].
  rewrite <- (assoc_L app). case_decide as Hp.
  - case_decide; [by intros [= <- _]|]. destruct s' as [t' rep']. intros Hrec. cbn.
    apply (IH (r' ++ [n]) t rep t' rep' e); [by apply prefix_app_r| |done|done]. by apply prefix_app_iff in Hp.
  - intros [= <- _]. rewrite prefix_app_iff in Hp. by eapply remove_entry_beneath.
Qed.

(** The fuel is enough. *)
Lemma reclaim_root_total fuel r s :
  r `prefix_of` lock_anchor → length lock_anchor - length r < fuel →
  is_Some (reclaim_root w fuel candidate (candidate ++ r) s).
Proof.
  revert r s. induction fuel as [|fuel IH]; intros r s Hr Hf; [lia|]. cbn [reclaim_root].
  destruct (read_dir w s.1 _) as [names|]; [|by eexists]. apply each_entry_total. intros n [t rep].
  destruct (ww_entry_fails w _); [by eexists|]. rewrite <- (assoc_L app). case_decide as Hp; [|by eexists].
  case_decide as He; [by eexists|]. apply prefix_app_iff in Hp. apply IH; [done|].
  pose proof (prefix_length _ _ Hp) as Hl. rewrite length_app in *. cbn in *. lia.
Qed.

Lemma reclaim_roots_spec rs selected t rep :
  Forall (λ p, ∃ r, p = candidate ++ r ∧ r ∈ rs ∧ r `prefix_of` lock_anchor) selected → only_beneath rs t →
  ∃ t' rep' e, reclaim_roots w candidate selected (t, rep) = Some ((t', rep'), e) ∧ only_beneath rs t'.
Proof.
  intros Hsel. revert t rep. induction Hsel as [|p selected (r & -> & Hin & Hr) Hsel IH]; intros t rep Hob;
    cbn [reclaim_roots fst]; [eauto 6|].
  destruct (is_dir t _); [|by apply IH].
  destruct (reclaim_root_total reclaim_fuel r (t, rep) Hr) as [[[t1 rep1] e1] H1]; [unfold reclaim_fuel; lia|].
  pose proof (reclaim_root_beneath _ rs r r t rep t1 rep1 e1 Hin ltac:(done) Hr Hob H1) as Hob1. rewrite H1.
  destruct e1; [eauto 6|by apply IH].
Qed.
End Contained.

(** ** The whole pass *)

Lemma derived_reason_none obs : derived_reason obs = None ↔ selected_derived_paths (co_derived obs) ≠ ∅.
Proof.
  unfold derived_reason, selected_derived_paths, derived_selection.
  destruct (consideration_gate _ _); [by split|]. destruct (do_lock _); [by split| |by split].
  destruct (do_derived_set _) as [roots|]; [|by split]. by case_decide.
Qed.

Section Safe.
Context (w : worktree_world) `{!HashOrder string}.

Lemma derive_roots_ok t candidate real roots ok withheld p :
  derive_roots w t candidate real roots = Ok (ok, withheld) → p ∈ ok →
  ∃ r, r ∈ roots ∧ r `prefix_of` lock_anchor ∧ p = candidate ++ r.
Proof.
  revert ok withheld. induction roots as [|r roots IH]; intros ok withheld; cbn [derive_roots]; [by intros [= <- <-] ?%elem_of_empty|].
  unfold exclusion_established. destruct (bool_decide (r `prefix_of` lock_anchor)) eqn:Hr; cbn [negb].
  2:{ destruct (derive_roots w t candidate real roots) as [[ok1 wh1]|e]; [|done]. intros [= <- _] Hp.
      destruct (IH _ _ eq_refl Hp) as (r' & Hr' & ?). exists r'. split; [by right|done]. }
  apply bool_decide_eq_true in Hr. destruct (exists_at t (candidate ++ r)); cbn [negb].
  2:{ intros Hd Hp. destruct (IH _ _ Hd Hp) as (r' & Hr' & ?). exists r'. split; [by right|done]. }
  destruct (canonicalize t (candidate ++ r)) as [q|]; [|done]. case_decide; [|done].
  destruct (derive_roots w t candidate real roots) as [[ok1 wh1]|e]; [|done]. intros [= <- _] [Hp|Hp]%elem_of_union.
  - apply elem_of_singleton in Hp as ->. exists r. split_and!; [by left|done|done].
  - destruct (IH _ _ eq_refl Hp) as (r' & Hr' & ?). exists r'. split; [by right|done].
Qed.

(** What lets build output go: the molecule of the candidate is absent or
    terminal and the lock of its build is held. *)
Definition cleared (candidate : path) : Prop :=
  considered (observe_record w candidate) (observe_status w candidate) ∧ observe_lock w candidate = Acquired.

Section Loop.
Context (repo_root : path) (base_branch : string) (roots : list path) (execute : bool).
Context (t0 : tree) (cs0 : list enumerated_candidate).
Hypothesis Hlinks : ∀ c real, c ∈ cs0 → canonicalize t0 (ec_path c) = Some real → no_links t0 real.

(** The removal of [p] from the tree is accounted for. *)
Definition accounted (p : path) : Prop :=
  ∃ c real r, c ∈ cs0 ∧ cleared (ec_path c) ∧ canonicalize t0 (ec_path c) = Some real ∧ r ∈ roots ∧
    r `prefix_of` lock_anchor ∧ beneath real r p.

Record progress (t : tree) : Prop := {
  pr_sub : t ⊆ t0;
  pr_dry : execute = false → t = t0;
  pr_changed p : t !! p ≠ t0 !! p → accounted p;
}.

Definition reported (pass : reclaim_pass) (c : enumerated_candidate) : Prop :=
  ec_path c ∈ sl_path <$> rp_selected pass ∨
  ∃ h, h ∈ rp_withheld pass ∧ wt_path h = ec_path c ∧ wt_reasons h ≠ [].

Lemma reported_report pass r c : reported (with_report pass r) c ↔ reported pass c.
Proof. by destruct r. Qed.

Lemma reported_more pass s h c : reported pass c → reported (with_worktree pass s h) c.
Proof.
  intros [Hs|(x & Hx & Hp & Hr)]; [left|right].
  - cbn. rewrite fmap_app. apply elem_of_app. by left.
  - exists x. split; [|done]. apply elem_of_app. by left.
Qed.

Lemma pass_candidate_spec c guards t pass :
  c ∈ cs0 → progress t →
  ∃ guards' t' pass', pass_candidate w repo_root base_branch roots execute c guards t pass = Some (guards', t', pass') ∧
    progress t' ∧ reported pass' c ∧ ∀ c', reported pass c' → reported pass' c'.
Proof.
  intros Hc Hpr. unfold pass_candidate. set (obs := @observe _ _). case_decide as Hsel.
  { exists (match do_lock (co_derived obs) with Acquired => {[ec_path c]} ∪ guards | _ => guards end).
    eexists _, _. split_and!; [done|done| |by intros; apply reported_more]. right. eexists. cbn [with_worktree rp_withheld].
    split; [apply elem_of_app; right; by apply list_elem_of_singleton|]. split; [done|]. cbn. unfold reasons_against.
    destruct (derived_reason obs) as [why|] eqn:Hd; [done|]. by apply derived_reason_none in Hd. }
  set (pass1 := with_worktree _ _ _).
  assert (reported pass1 c) as Hrep by (left; cbn; rewrite fmap_app; apply elem_of_app; right; by apply list_elem_of_singleton).
  assert (∀ c', reported pass c' → reported pass1 c') as Hmore by (intros; by apply reported_more).
  destruct execute eqn:Hex; [|eauto 8].
  destruct (set_choose_L _ Hsel) as [p0 Hp0]. apply elem_of_selected in Hp0 as (Hcons & Hlock & ok & Hok & _).
  assert (∃ withheld, derive w roots t (ec_path c) = Ok (ok, withheld)) as [withheld Hder].
  { change (observe_roots w roots t (ec_path c) = Validated ok) in Hok. unfold observe_roots in Hok.
    destruct (derive w roots t (ec_path c)) as [[ok' wh']|]; [|done]. injection Hok as ->. by eexists. }
  unfold derive in Hder. destruct (canonicalize t (ec_path c)) as [real|] eqn:Hreal; [|done].
  pose proof (canonicalize_mono _ _ _ _ (pr_sub _ Hpr) Hreal) as Hreal0.
  assert (no_links t real) as Hnl.
  { intros q Hq target Ht. apply (Hlinks c real Hc Hreal0 q Hq target). by eapply lookup_weaken, (pr_sub _ Hpr). }
  unfold reclaim_derived. rewrite decide_False by done. rewrite Hlock.
  rewrite decide_False by (intros Hn; apply Hn, elem_of_union_l, elem_of_singleton; reflexivity).
  destruct (reclaim_roots_spec w t (ec_path c) real Hreal Hnl (filter (λ r, r `prefix_of` lock_anchor) roots)
    (in_order (selected_derived_paths (co_derived obs))) t empty_report) as (t' & rep' & e & Hrr & Hob).
  { apply Forall_forall. intros p Hp. unfold in_order in Hp. rewrite sort_by_perm, elem_of_elements in Hp.
    apply elem_of_selected in Hp as (_ & _ & ok' & Hok' & Hp). rewrite Hok in Hok'. injection Hok' as <-.
    destruct (derive_roots_ok _ _ _ _ _ _ _ Hder Hp) as (r & Hr & Hpre & ->). exists r. split_and!; [done| |done].
    by apply list_elem_of_filter. }
  { split; [done|]. by intros p Hp. }
  assert (progress t') as Hpr'.
  { split.
    - etransitivity; [apply Hob|apply Hpr].
    - by rewrite Hex.
    - intros p Hp. destruct (decide (t' !! p = t !! p)) as [He|Hne]; [apply (pr_changed _ Hpr); congruence|].
      apply (ob_changed _ _ _ _ Hob) in Hne as (r & [Hpre Hr]%list_elem_of_filter & Hb).
      exists c, real, r. split_and!; try done. }
  change (do_path (co_derived obs)) with (ec_path c). rewrite Hrr. destruct e as [e|]; cbn [mbind option_bind];
    eexists _, _, _; (split_and!; [done|done|by apply reported_report|]); intros c' Hc'; apply reported_report; auto.
Qed.

Lemma pass_candidates_spec cs guards t pass :
  (∀ c, c ∈ cs → c ∈ cs0) → progress t →
  ∃ t' pass', pass_candidates w repo_root base_branch roots execute cs guards t pass = Some (t', pass') ∧
    progress t' ∧ (∀ c, c ∈ cs ∨ reported pass c → reported pass' c).
Proof.
  revert guards t pass. induction cs as [|c cs IH]; intros guards t pass Hcs Hpr; cbn [pass_candidates].
  { eexists _, _. split_and!; [done|done|]. by intros c [?%elem_of_nil|]. }
  destruct (pass_candidate_spec c guards t pass (Hcs c ltac:(by left)) Hpr) as (g & t1 & pass1 & -> & Hpr1 & Hc & Hmore).
  cbn [mbind option_bind]. destruct (IH g t1 pass1) as (t' & pass' & -> & Hpr' & Hrep); [intros; apply Hcs; by right|done|].
  eexists _, _. split_and!; [done|done|]. intros c' [[->|Hc']%elem_of_cons|Hc']; auto.
Qed.
End Loop.

(** C12. The worktree pass always ends. When no symbolic link lies between a
    candidate and the lock of its build, whatever fails: it only removes, and
    without [execute] nothing; what it removes lies strictly below a validated
    root of a candidate whose molecule is absent or terminal and whose build
    lock is held, and is neither that lock nor a directory on the way to it;
    and every candidate is reported, with a reason when nothing of it may
    go. *)
Theorem worktree_pass_contained repo_root base_branch evict execute t :
  (∀ c real, c ∈ en_candidates (enumerate_candidates w t repo_root) → canonicalize t (ec_path c) = Some real →
     no_links t real) →
  ∃ t' res, run_pass w repo_root base_branch evict execute t = Some (t', res) ∧
    t' ⊆ t ∧ (execute = false → t' = t) ∧
    (∀ p, t' !! p ≠ t !! p → ∃ roots, validate_roots evict = Ok roots ∧
       accounted roots t (en_candidates (enumerate_candidates w t repo_root)) p) ∧
    (∀ pass, res = Ok pass → ∀ c, c ∈ en_candidates (enumerate_candidates w t repo_root) → reported pass c).
Proof.
  intros Hlinks. unfold run_pass. destruct (validate_roots evict) as [roots|e] eqn:Hroots.
  2:{ eexists _, _. split_and!; [done|done|done|by intros p Hp|done]. }
  destruct (pass_candidates_spec repo_root base_branch roots execute t _ Hlinks
    (en_candidates (enumerate_candidates w t repo_root)) ∅ t
    (ReclaimPass [] [] (en_errors (enumerate_candidates w t repo_root)) execute ∅ ∅ [])) as (t' & pass' & -> & Hpr & Hrep);
    [done|by split; [|done|intros p Hp]|].
  eexists _, _. split_and!; [done|apply Hpr|apply Hpr| |].
  - intros p Hp. exists roots. split; [done|]. by apply (pr_changed _ _ _ _ _ Hpr).
  - intros pass [= <-] c Hc. apply Hrep. by left.
Qed.
End Safe.

(** ** Samples *)

Module WorktreeSamples.
#[local] Existing Instance plain_order.

Definition sample_worktree : path := ["r"; ".worktrees"; "task-20260101-ab12"].

Definition sample_world : worktree_world :=
  {| ww_git _ _ := GitOutput EmptyString; ww_load _ := Ok MoleculeStatus.Completed; ww_id_error _ := "bad id";
     ww_open_anchor _ := None; ww_try_lock _ := true; ww_poisoned := None; ww_read_fails _ := false;
     ww_entry_fails _ := false; ww_os_error _ := "os error"; ww_remove _ := RemovesAll; ww_parse_error _ := "bad number";
     ww_size _ := 1%N; ww_listing _ := Listing EmptyString |}.

Definition sample_tree (debug : node) : tree :=
  list_to_map
    [(["r"], DirNode); (["r"; ".worktrees"], DirNode); (sample_worktree, DirNode);
     (sample_worktree ++ ["note.txt"], FileNode); (sample_worktree ++ ["target"], DirNode);
     (sample_worktree ++ ["target"; "doc"], DirNode); (sample_worktree ++ ["target"; "doc"; "index.html"], FileNode);
     (sample_worktree ++ ["target"; "debug"], debug); (["shared"], DirNode); (["shared"; "app"], FileNode)].

Definition built_tree : tree :=
  <[sample_worktree ++ ["target"; "debug"; "app"] := FileNode]>
    (<[sample_worktree ++ lock_anchor := FileNode]> (sample_tree DirNode)).

(** The paths that a pass over the default roots removed. *)
Definition removed_paths (t : tree) : option (list path) :=
  '(t', _) ← run_pass sample_world ["r"] "main" default_derived_roots true t;
  Some (filter (λ p, t' !! p ≠ t !! p) (in_order (dom t))).

Example sample_removes :
  removed_paths built_tree =
    Some [sample_worktree ++ ["target"; "debug"; "app"]; sample_worktree ++ ["target"; "doc"];
          sample_worktree ++ ["target"; "doc"; "index.html"]].
Proof. vm_compute. done. Qed.

(** The root [target] is contained but [target/debug] is a link: the pass
    follows it on its way to the lock and removes what lies outside. *)
Example link_escapes :
  removed_paths (<[["shared"; ".cargo-lock"] := FileNode]> (sample_tree (LinkNode ["shared"]))) =
    Some [sample_worktree ++ ["target"; "doc"]; sample_worktree ++ ["target"; "doc"; "index.html"]; ["shared"; "app"]].
Proof. vm_compute. done. Qed.

Definition is_link (n : node) : bool := match n with LinkNode _ => true | _ => false end.

Lemma built_tree_plain real : no_links built_tree real.
Proof.
  intros q _ target Ht.
  assert (map_Forall (λ _ n, is_link n = false) built_tree) as Hall by (by apply (bool_decide_eq_true_1 _); vm_compute).
  by apply Hall in Ht.
Qed.

Lemma worktree_pass_contained_witness :
  ∃ t' res, run_pass sample_world ["r"] "main" default_derived_roots true built_tree = Some (t', res) ∧ t' ⊆ built_tree ∧
    ∀ pass, res = Ok pass → ∀ c, c ∈ en_candidates (enumerate_candidates sample_world built_tree ["r"]) → reported pass c.
Proof.
  destruct (worktree_pass_contained sample_world ["r"] "main" default_derived_roots true built_tree
    (λ c real _ _, built_tree_plain real)) as (t' & res & Hrun & Hsub & _ & _ & Hrep).
  exists t', res. split; [exact Hrun|split; [exact Hsub|exact Hrep]].
Defined.
End WorktreeSamples.
