(* ===== verification/WorkStore.v ===== *)
(** The custody of the messages of a work: the store of files of
    [crates/cosmon-state/src/work_message.rs], the operations of
    [crates/cosmon-state/src/work_ops.rs], and the two sources that put
    messages before a model, [crates/cosmon-cli/src/work_hook.rs] and
    [crates/cosmon-cli/src/work_turn_input.rs]. The calls are programs of
    [Concurrent] over one owner's directory; each operation on a file may fail,
    and an append may stop anywhere. *)
From stdpp Require Import prelude gmap strings list relations.
From Stdlib Require Import Ascii.
From S2P Require Import Prelude Text Ids Links Concurrent WorkMessage.

(** ** Logs of JSON lines *)

(** What an append wrote of its line: nothing, a part of the object, the object
    without its line end, or all. *)
Inductive append_outcome : Set := NoByte | LineCut | NoLineEnd | WholeLine.

(** How a log ends. A part of an object is no JSON, and neither are two objects
    on one line; nothing makes a log with such a line readable again. *)
Inductive log_end : Set := Closed | Unended | Broken.

(** The records that were written whole, and the end. *)
Record log (A : Type) := Log { lg_records : list A; lg_end : log_end }.
Arguments Log {A} lg_records lg_end.
Arguments lg_records {A} l.
Arguments lg_end {A} l.

Definition log_append {A} (l : log A) (a : A) (w : append_outcome) : log A :=
  match lg_end l, w with
  | _, NoByte | Broken, _ => l
  | Closed, WholeLine => Log (lg_records l ++ [a]) Closed
  | Closed, NoLineEnd => Log (lg_records l ++ [a]) Unended
  | Closed, LineCut | Unended, _ => Log (lg_records l) Broken
  end.

Definition log_or_empty {A} (o : option (log A)) : log A := default (Log [] Closed) o.

(** ** The directory of a work *)

Inductive live_insertion : Set := LiveSupported | LiveUnsupported | LiveUnknown.
Inductive context_observability : Set := ContextIsObserved | ContextUnavailable.
Inductive safe_point : Set := StepBoundary | AfterToolCall | BeforeProviderRequest.

(** The version of the harness is not observed by any writer. *)
Record adapter_capability := AdapterCapability {
  ac_schema_version : N;
  ac_seat : string;
  ac_adapter : delivery_adapter;
  ac_live_insertion : live_insertion;
  ac_context_observation : context_observability;
  ac_safe_points : list safe_point;
  ac_first_observed_at : Z;
}.

(** Who admitted a message and who reported it; no code reads it. *)
Inductive work_event : Type := DidAdmit (t : nat) (key : string) | DidConsume (t : nat) (key : string).

#[export] Instance work_event_eq_dec : EqDecision work_event.
Proof. solve_decision. Defined.

Record work_files := WorkFiles {
  wf_lock : option nat;
  wf_scope : option work_scope;
  wf_scopes : gmap string work_scope;
  wf_payloads : gmap string string;
  wf_notes : gmap string string;
  wf_envelopes : gmap string envelope;
  wf_receipts : gmap string (log receipt);
  wf_capabilities : gmap string (log adapter_capability);
  wf_output : list string;
  wf_trace : list work_event;
}.

Definition no_files : work_files := WorkFiles None None ∅ ∅ ∅ ∅ ∅ ∅ [] [].

Definition set_lock (s : work_files) (l : option nat) : work_files :=
  WorkFiles l (wf_scope s) (wf_scopes s) (wf_payloads s) (wf_notes s) (wf_envelopes s) (wf_receipts s)
    (wf_capabilities s) (wf_output s) (wf_trace s).
Definition set_scope (s : work_files) (x : option work_scope) : work_files :=
  WorkFiles (wf_lock s) x (wf_scopes s) (wf_payloads s) (wf_notes s) (wf_envelopes s) (wf_receipts s)
    (wf_capabilities s) (wf_output s) (wf_trace s).
Definition set_scopes (s : work_files) (x : gmap string work_scope) : work_files :=
  WorkFiles (wf_lock s) (wf_scope s) x (wf_payloads s) (wf_notes s) (wf_envelopes s) (wf_receipts s)
    (wf_capabilities s) (wf_output s) (wf_trace s).
Definition set_payloads (s : work_files) (x : gmap string string) : work_files :=
  WorkFiles (wf_lock s) (wf_scope s) (wf_scopes s) x (wf_notes s) (wf_envelopes s) (wf_receipts s)
    (wf_capabilities s) (wf_output s) (wf_trace s).
Definition set_notes (s : work_files) (x : gmap string string) : work_files :=
  WorkFiles (wf_lock s) (wf_scope s) (wf_scopes s) (wf_payloads s) x (wf_envelopes s) (wf_receipts s)
    (wf_capabilities s) (wf_output s) (wf_trace s).
Definition set_envelopes (s : work_files) (x : gmap string envelope) (tr : list work_event) : work_files :=
  WorkFiles (wf_lock s) (wf_scope s) (wf_scopes s) (wf_payloads s) (wf_notes s) x (wf_receipts s)
    (wf_capabilities s) (wf_output s) tr.
Definition set_receipts (s : work_files) (x : gmap string (log receipt)) (tr : list work_event) : work_files :=
  WorkFiles (wf_lock s) (wf_scope s) (wf_scopes s) (wf_payloads s) (wf_notes s) (wf_envelopes s) x
    (wf_capabilities s) (wf_output s) tr.
Definition set_capabilities (s : work_files) (x : gmap string (log adapter_capability)) : work_files :=
  WorkFiles (wf_lock s) (wf_scope s) (wf_scopes s) (wf_payloads s) (wf_notes s) (wf_envelopes s) (wf_receipts s)
    x (wf_output s) (wf_trace s).
Definition set_output (s : work_files) (x : list string) : work_files :=
  WorkFiles (wf_lock s) (wf_scope s) (wf_scopes s) (wf_payloads s) (wf_notes s) (wf_envelopes s) (wf_receipts s)
    (wf_capabilities s) x (wf_trace s).

Inductive work_store_error : Type :=
| WsIo
| WsJson
| WsDomain (e : work_message_error)
| CorruptEvidence
| NoScope
| PayloadMismatch
| ExistingPayloadMismatch
| EnvelopeConflict (key : string).

Abbreviation answer A := (result work_store_error A).

(** ** Operations on the files *)

Inductive work_op : Type → Type :=
| Lock : work_op (answer ())
| Unlock : work_op (answer ())
| Now : work_op Z
| ReadScope : work_op (answer (option work_scope))
| ListScopes : work_op (answer (list string))
| ReadScopeAt (rev : string) : work_op (answer work_scope)
| ListEnvelopes : work_op (answer (list string))
| ReadEnvelope (key : string) : work_op (answer envelope)
| ListReceipts : work_op (answer (list string))
| ReadReceipts (key : string) : work_op (answer (list receipt))
| ListCapabilities : work_op (answer (list string))
| ReadCapabilities (seat : string) : work_op (answer (list adapter_capability))
| ReadPayload (digest : string) : work_op (answer string)
| ReadNote (digest : string) : work_op (answer string)
| ListPayloads : work_op (answer (list string))
| StatPayload (digest : string) : work_op (answer (option string))
| CreateScope (rev : string) (s : work_scope) : work_op (answer bool)
| WriteScope (s : work_scope) : work_op (answer ())
| CreatePayload (digest bytes : string) : work_op (answer bool)
| CreateNote (digest bytes : string) : work_op (answer bool)
| CreateEnvelope (e : envelope) : work_op (answer bool)
| AppendReceipt (r : receipt) : work_op (answer ())
| AppendCapability (c : adapter_capability) : work_op (answer ())
| Output (text : string) : work_op (answer ()).

(** What the file system and the decoder of JSON answer. *)
Inductive file_fault : Set := IoFault | JsonFault.

Definition file_error (f : file_fault) : work_store_error := match f with IoFault => WsIo | JsonFault => WsJson end.

(** How an operation fares: it may fail, a write that fails may have had its
    effect, an append may stop, and the clock shows something. *)
Record circumstances := Circumstances {
  ci_fails : option file_fault;
  ci_effect : bool;
  ci_append : append_outcome;
  ci_now : Z;
}.

(** [json_paths]: the names of the files with an extension, in the order of
    their paths. *)
Definition in_path_order (extension : string) (names : gset string) : list string :=
  sort_by (λ n, n +:+ extension) (elements names).

Section Exec.
Context (c : circumstances) (t : nat).

Definition reading {A} (r : answer A) (s : work_files) : option (answer A * work_files) :=
  Some (match ci_fails c with Some f => Err (file_error f) | None => r end, s).

Definition writing {A} (a : A) (s' s : work_files) : option (answer A * work_files) :=
  match ci_fails c with
  | Some f => Some (Err (file_error f), if ci_effect c then s' else s)
  | None => Some (Ok a, s')
  end.

Definition found {A} (o : option A) : answer A := match o with Some a => Ok a | None => Err WsIo end.

Definition read_log {A} (o : option (log A)) : answer (list A) :=
  match o with
  | None => Err WsIo
  | Some l => match lg_end l with Broken => Err WsJson | _ => Ok (lg_records l) end
  end.

(** [write_create_only] *)
Definition create {A} (m : gmap string A) (k : string) (a : A) (put : gmap string A → work_files) (s : work_files) :
    option (answer bool * work_files) :=
  match m !! k with Some _ => writing false s s | None => writing true (put (<[k := a]> m)) s end.

(** [append_json_line] *)
Definition append {A} (m : gmap string (log A)) (k : string) (a : A) (put : gmap string (log A) → work_files)
    (s : work_files) : option (answer () * work_files) :=
  let s' := put (<[k := log_append (log_or_empty (m !! k)) a (ci_append c)]> m) in
  match ci_append c with
  | WholeLine => writing () s' s
  | _ => Some (Err WsIo, if ci_effect c then s' else s)
  end.

Definition consume_event (r : receipt) (w : append_outcome) : list work_event :=
  match w with NoByte => [] | _ => if is_consumed (rc_stage r) then [DidConsume t (rc_key r)] else [] end.

Definition work_exec_op {R} (o : work_op R) : work_files → option (R * work_files) :=
  match o with
  | Lock => λ s,
      match ci_fails c, wf_lock s with
      | Some f, _ => Some (Err (file_error f), s)
      | None, None => Some (Ok (), set_lock s (Some t))
      | None, Some _ => None
      end
  | Unlock => λ s,
      Some (match ci_fails c with Some f => Err (file_error f) | None => Ok () end,
            if decide (wf_lock s = Some t) then set_lock s None else s)
  | Now => λ s, Some (ci_now c, s)
  | ReadScope => λ s, reading (Ok (wf_scope s)) s
  | ListScopes => λ s, reading (Ok (in_path_order ".json" (dom (wf_scopes s)))) s
  | ReadScopeAt rev => λ s, reading (found (wf_scopes s !! rev)) s
  | ListEnvelopes => λ s, reading (Ok (in_path_order ".json" (dom (wf_envelopes s)))) s
  | ReadEnvelope k => λ s, reading (found (wf_envelopes s !! k)) s
  | ListReceipts => λ s, reading (Ok (in_path_order ".jsonl" (dom (wf_receipts s)))) s
  | ReadReceipts k => λ s, reading (read_log (wf_receipts s !! k)) s
  | ListCapabilities => λ s, reading (Ok (in_path_order ".jsonl" (dom (wf_capabilities s)))) s
  | ReadCapabilities seat => λ s, reading (read_log (wf_capabilities s !! seat)) s
  | ReadPayload d => λ s, reading (found (wf_payloads s !! d)) s
  | ReadNote d => λ s, reading (found (wf_notes s !! d)) s
  | ListPayloads => λ s, reading (Ok (in_path_order EmptyString (dom (wf_payloads s)))) s
  | StatPayload d => λ s, reading (Ok (wf_payloads s !! d)) s
  | CreateScope rev x => λ s, create (wf_scopes s) rev x (set_scopes s) s
  | WriteScope x => λ s, writing () (set_scope s (Some x)) s
  | CreatePayload d b => λ s, create (wf_payloads s) d b (set_payloads s) s
  | CreateNote d b => λ s, create (wf_notes s) d b (set_notes s) s
  | CreateEnvelope e => λ s,
      create (wf_envelopes s) (en_key e) e (λ m, set_envelopes s m (wf_trace s ++ [DidAdmit t (en_key e)])) s
  | AppendReceipt r => λ s,
      append (wf_receipts s) (rc_key r) r
        (λ m, set_receipts s m (wf_trace s ++ consume_event r (ci_append c))) s
  | AppendCapability x => λ s, append (wf_capabilities s) (ac_seat x) x (set_capabilities s) s
  | Output text => λ s, writing () (set_output s (wf_output s ++ [text])) s
  end.
End Exec.

(** The lock of a process that ends is free. *)
Definition release_lock (t : nat) (s : work_files) : work_files :=
  if decide (wf_lock s = Some t) then set_lock s None else s.

(** ** The store *)

Section Store.
Context `{WorkText}.

Abbreviation wprog A := (prog work_op A).

(** [.map(read).collect()] over the listed files. *)
Fixpoint read_each {A} (read : string → work_op (answer A)) (names : list string) : wprog (answer (list A)) :=
  match names with
  | [] => mret (Ok [])
  | n :: names =>
      try! a ← call (read n) catch id;
      try! l ← read_each read names catch id;
      mret (Ok (a :: l))
  end.

Record work_records := WorkRecords {
  wr_scope : option work_scope;
  wr_envelopes : list envelope;
  wr_receipts : list receipt;
  wr_capabilities : list adapter_capability;
  wr_history : list work_scope;
}.

Definition load_all : wprog (answer work_records) :=
  try! scope ← call ReadScope catch id;
  try! keys ← call ListEnvelopes catch id;
  try! envelopes ← read_each ReadEnvelope keys catch id;
  try! logs ← call ListReceipts catch id;
  try! receipts ← read_each ReadReceipts logs catch id;
  try! seats ← call ListCapabilities catch id;
  try! capabilities ← read_each ReadCapabilities seats catch id;
  try! revs ← call ListScopes catch id;
  try! history ← read_each ReadScopeAt revs catch id;
  mret (Ok (WorkRecords scope envelopes (concat receipts) (concat capabilities) history)).

(** The lock around an operation: [lock], the closure, [unlock]. *)
Definition with_lock {A} (operation : wprog (answer A)) : wprog (answer A) :=
  try! _ ← call Lock catch id;
  result ← operation;
  unlock ← call Unlock;
  mret (match result, unlock with Err e, _ => Err e | Ok _, Err e => Err e | Ok a, Ok _ => Ok a end).

Definition declare (scope : work_scope) : wprog (answer string) :=
  match scope_validate scope, revision scope with
  | Err e, _ => mret (Err (WsDomain e))
  | Ok _, Err e => mret (Err (WsDomain e))
  | Ok _, Ok rev =>
      with_lock (
        try! _ ← call (CreateScope rev scope) catch id;
        try! _ ← call (WriteScope scope) catch id;
        mret (Ok rev))
  end.

(** The bytes of a payload, checked against its envelope. *)
Definition read_payload (e : envelope) : wprog (answer string) :=
  try! bytes ← call (ReadPayload (en_payload_digest e)) catch id;
  mret (if decide (N.of_nat (String.length bytes) = en_payload_bytes e ∧ hash_of_bytes bytes = en_payload_digest e)
        then Ok bytes else Err ExistingPayloadMismatch).

Definition put_payload (digest bytes : string) : wprog (answer ()) :=
  if decide (hash_of_bytes bytes ≠ digest) then mret (Err PayloadMismatch)
  else
    try! created ← call (CreatePayload digest bytes) catch id;
    if created : bool then mret (Ok ())
    else
      try! existing ← call (ReadPayload digest) catch id;
      mret (if decide (hash_of_bytes existing ≠ digest) then Err ExistingPayloadMismatch else Ok ()).

Definition put_note (digest bytes : string) : wprog (answer ()) :=
  if decide (hash_of_bytes bytes ≠ digest) then mret (Err PayloadMismatch)
  else
    try! created ← call (CreateNote digest bytes) catch id;
    if created : bool then mret (Ok ())
    else
      try! existing ← call (ReadNote digest) catch id;
      mret (if decide (hash_of_bytes existing ≠ digest) then Err ExistingPayloadMismatch else Ok ()).

Inductive put_outcome : Set := Created | AlreadyPresent.

Definition put_envelope (e : envelope) : wprog (answer put_outcome) :=
  try! _ ← read_payload e catch id;
  try! created ← call (CreateEnvelope e) catch id;
  if created : bool then mret (Ok Created)
  else
    try! existing ← call (ReadEnvelope (en_key e)) catch id;
    mret (if decide (existing = e) then Ok AlreadyPresent else Err (EnvelopeConflict (en_key e))).

Definition is_corrupt (f : projection_finding) : bool :=
  match f with OrphanReceipt _ | ReceiptDigestMismatch _ | ConsumptionByNonRecipient _ => true | _ => false end.

(** What follows an admission. *)
Definition commit_admission (records : work_records) (decision : admission) (bytes : string) (now : Z) :
    wprog (answer admission) :=
  match decision with
  | Admit e =>
      try! _ ← put_payload (en_payload_digest e) bytes catch id;
      try! put ← put_envelope e catch id;
      match put with
      | AlreadyPresent => mret (Err (EnvelopeConflict (en_key e)))
      | Created =>
          try! _ ← call (AppendReceipt (for_envelope e Boundary now StageAdmitted)) catch id;
          mret (Ok decision)
      end
  | Duplicate e =>
      try! _ ← read_payload e catch id;
      if existsb (λ r, bool_decide (rc_key r = en_key e ∧ rc_stage r = StageAdmitted)) (wr_receipts records)
      then mret (Ok decision)
      else
        try! _ ← call (AppendReceipt (for_envelope e Boundary (en_admitted_at e) StageAdmitted)) catch id;
        mret (Ok decision)
  end.

Definition submit (s : submission) (bytes : string) (now : Z) : wprog (answer admission) :=
  if decide (hash_of_bytes bytes ≠ su_payload_digest s ∨ N.of_nat (String.length bytes) ≠ su_payload_bytes s)
  then mret (Err PayloadMismatch)
  else
    with_lock (
      try! records ← load_all catch id;
      match wr_scope records with
      | None => mret (Err NoScope)
      | Some scope =>
          match fold_with_history scope (wr_history records) (wr_envelopes records) (wr_receipts records) now with
          | Err e => mret (Err (WsDomain e))
          | Ok projection =>
              if existsb is_corrupt (wp_findings projection) then mret (Err CorruptEvidence)
              else
                match admit_submission scope projection s now with
                | Err e => mret (Err (WsDomain e))
                | Ok decision => commit_admission records decision bytes now
                end
          end
      end).

(** [UnsafePayload], for what is no regular file, has no case here: the store
    creates regular files only. *)
Inductive payload_finding : Type :=
| PayloadMissing (key expected : string)
| PayloadChanged (key expected observed : string)
| OrphanPayload (digest : string).

Record work_reconstruction := WorkReconstruction {
  wn_projection : option work_projection;
  wn_findings : list payload_finding;
}.

(** The loop over the envelopes. *)
Fixpoint check_payloads (envelopes : list envelope) : wprog (answer (list payload_finding)) :=
  match envelopes with
  | [] => mret (Ok [])
  | e :: envelopes =>
      try! payload ← call (StatPayload (en_payload_digest e)) catch id;
      let finding :=
        match payload with
        | None => [PayloadMissing (en_key e) (en_payload_digest e)]
        | Some bytes =>
            if decide (hash_of_bytes bytes ≠ en_payload_digest e ∨ N.of_nat (String.length bytes) ≠ en_payload_bytes e)
            then [PayloadChanged (en_key e) (en_payload_digest e) (hash_of_bytes bytes)] else []
        end in
      try! rest ← check_payloads envelopes catch id;
      mret (Ok (finding ++ rest))
  end.

Definition orphans (envelopes : list envelope) (names : list string) : list payload_finding :=
  OrphanPayload <$> filter (λ d, d ∉ en_payload_digest <$> envelopes) names.

Definition reconstruct (now : Z) : wprog (answer work_reconstruction) :=
  try! records ← load_all catch id;
  match
    match wr_scope records with
    | None => Ok None
    | Some scope =>
        p ← fold_with_history scope (wr_history records) (wr_envelopes records) (wr_receipts records) now; Ok (Some p)
    end
  with
  | Err e => mret (Err (WsDomain e))
  | Ok projection =>
      try! findings ← check_payloads (wr_envelopes records) catch id;
      try! names ← call ListPayloads catch id;
      mret (Ok (WorkReconstruction projection (findings ++ orphans (wr_envelopes records) names)))
  end.

(** ** The operations of a member *)

Record send_request := SendRequest {
  sq_scope_revision : string;
  sq_recipient : string;
  sq_key : option string;
  sq_sender_time : Z;
  sq_reply_to : option string;
  sq_phase : option string;
  sq_confidentiality : confidentiality;
  sq_ttl_secs : option N;
}.

Definition send (caller : admitted_work_caller) (q : send_request) (payload : string) (admitted_at : Z) :
    wprog (answer admission) :=
  submit (Submission (cl_scope_owner caller) (sq_scope_revision q) (cl_seat caller) (sq_recipient q) (sq_key q)
    (hash_of_bytes payload) (N.of_nat (String.length payload)) (sq_sender_time q) (sq_reply_to q) (sq_phase q)
    (sq_confidentiality q) (sq_ttl_secs q) (cl_evidence caller)) payload admitted_at.

Definition current_projection (caller : admitted_work_caller) (expected : string) (now : Z) :
    wprog (answer work_projection) :=
  try! records ← load_all catch id;
  mret (match wr_scope records with
        | None => Err NoScope
        | Some scope =>
            if decide (sc_owner scope ≠ cl_scope_owner caller) then
              Err (WsDomain (WrongScopeOwner (cl_scope_owner caller) (sc_owner scope)))
            else if decide (sc_seats scope !! cl_seat caller = None) then
              Err (WsDomain (NotAMember "caller" (cl_seat caller)))
            else
              match revision scope with
              | Err e => Err (WsDomain e)
              | Ok current =>
                  if decide (expected ≠ current) then Err (WsDomain (StaleScopeRevision expected current))
                  else
                    match fold_with_history scope (wr_history records) (wr_envelopes records) (wr_receipts records) now with
                    | Err e => Err (WsDomain e)
                    | Ok projection =>
                        if existsb is_corrupt (wp_findings projection) then Err CorruptEvidence else Ok projection
                    end
              end
        end).

Record pull_request := PullRequest {
  pq_scope_revision : string;
  pq_adapter : delivery_adapter;
  pq_mechanism : string;
  pq_peek : bool;
  pq_context_observation : option context_observation;
}.

Inductive page_decision : Set := Include | Stop | Skip.

Record pulled_message := PulledMessage { pm_envelope : envelope; pm_payload : string }.
Record bounded_pull := BoundedPull { bp_messages : list pulled_message; bp_undeliverable : list envelope }.

(** The loop over the deliverable envelopes; [include] is a closure with a state
    of its own, and [None] is no limit. *)
Fixpoint choose_page {X} (include : X → pulled_message → answer page_decision * X) (x : X)
    (max_messages : option nat) (max_bytes : N) (envelopes : list envelope) (page : bounded_pull) :
    wprog (answer bounded_pull) :=
  match envelopes with
  | [] => mret (Ok page)
  | e :: envelopes =>
      let full n := match max_messages with Some m => bool_decide (m ≤ n) | None => false end in
      if full (length (bp_messages page)) || full (length (bp_undeliverable page)) then mret (Ok page)
      else if decide (max_bytes < en_payload_bytes e)%N then
        choose_page include x max_messages max_bytes envelopes
          (BoundedPull (bp_messages page) (bp_undeliverable page ++ [e]))
      else
        try! payload ← read_payload e catch id;
        let message := PulledMessage e payload in
        match include x message with
        | (Err err, _) => mret (Err err)
        | (Ok Include, x) =>
            choose_page include x max_messages max_bytes envelopes
              (BoundedPull (bp_messages page ++ [message]) (bp_undeliverable page))
        | (Ok Skip, x) =>
            choose_page include x max_messages max_bytes envelopes
              (BoundedPull (bp_messages page) (bp_undeliverable page ++ [e]))
        | (Ok Stop, _) => mret (Ok page)
        end
  end.

(** The loop over the receipts of a delivery. *)
Fixpoint record_deliveries (a : delivery_adapter) (mechanism : string) (context : option context_observation) (now : Z)
    (envelopes : list envelope) : wprog (answer ()) :=
  match envelopes with
  | [] => mret (Ok ())
  | e :: envelopes =>
      try! _ ← call (AppendReceipt (for_envelope e (AdapterObserver a) now (DeliveryAttempted a mechanism Submitted))) catch id;
      match context with
      | None => record_deliveries a mechanism context now envelopes
      | Some o =>
          try! _ ← call (AppendReceipt (for_envelope e (AdapterObserver a) now (ContextDelivered a o))) catch id;
          record_deliveries a mechanism context now envelopes
      end
  end.

Definition pull_bounded {X} (include : X → pulled_message → answer page_decision * X) (x : X)
    (max_messages : option nat) (max_bytes : N) (caller : admitted_work_caller) (q : pull_request) (now : Z) :
    wprog (answer bounded_pull) :=
  with_lock (
    try! projection ← current_projection caller (pq_scope_revision q) now catch id;
    try! page ← choose_page include x max_messages max_bytes
                  (deliverable projection (cl_seat caller) (pq_adapter q) now) (BoundedPull [] []) catch id;
    if pq_peek q then mret (Ok page)
    else
      try! _ ← record_deliveries (pq_adapter q) (pq_mechanism q) (pq_context_observation q) now
                 (pm_envelope <$> bp_messages page) catch id;
      mret (Ok page)).

Definition pull (caller : admitted_work_caller) (q : pull_request) (now : Z) : wprog (answer (list pulled_message)) :=
  try! page ← pull_bounded (λ x _, (Ok Include, x)) () None u64_max caller q now catch id;
  mret (Ok (bp_messages page)).

Record acknowledge_request := AcknowledgeRequest {
  aq_scope_revision : string;
  aq_key : string;
  aq_payload_digest : string;
  aq_disposition : disposition;
  aq_reply : option string;
  aq_note : option string;
}.

Inductive acknowledge_outcome : Type := Recorded (r : receipt) | AlreadyRecorded.

(** The refusals before the report is looked at. *)
Definition acknowledge_refusal (caller : admitted_work_caller) (q : acknowledge_request) (p : work_projection)
    (v : envelope_view) (now : Z) : option work_message_error :=
  if decide (cl_evidence caller = AdmittedNonLocal ∧ is_some (ev_consumed v) = false ∧
             is_expired_at (ev_envelope v) now = true)
  then Some (EnvelopeExpired (aq_key q))
  else if decide (en_payload_digest (ev_envelope v) ≠ aq_payload_digest q) then
    Some (EnvelopeDigestMismatch (aq_key q) (aq_payload_digest q) (en_payload_digest (ev_envelope v)))
  else
    match aq_note q with
    | Some note =>
        if decide (max_payload_bytes (wp_budget p) < N.of_nat (String.length note))%N then
          Some (PayloadTooLarge (N.of_nat (String.length note)) (max_payload_bytes (wp_budget p)))
        else None
    | None => None
    end.

Definition acknowledge (caller : admitted_work_caller) (q : acknowledge_request) (now : Z) :
    wprog (answer acknowledge_outcome) :=
  with_lock (
    try! projection ← current_projection caller (aq_scope_revision q) now catch id;
    match wp_envelopes projection !! aq_key q with
    | None => mret (Err (WsDomain (UnknownEnvelope (aq_key q))))
    | Some view =>
        match acknowledge_refusal caller q projection view now with
        | Some e => mret (Err (WsDomain e))
        | None =>
            match accept_consumption projection (cl_seat caller) (aq_key q) (aq_disposition q) (aq_reply q)
                    (hash_of_bytes <$> aq_note q) now with
            | Err e => mret (Err (WsDomain e))
            | Ok (DuplicateConsumption _) => mret (Ok AlreadyRecorded)
            | Ok (Record_ r) =>
                try! _ ← match aq_note q with
                         | Some note => put_note (hash_of_bytes note) note
                         | None => mret (Ok ())
                         end catch id;
                try! _ ← call (AppendReceipt r) catch id;
                mret (Ok (Recorded r))
            end
        end
    end).

(** ** Messages before a model *)

(** [work-ref.json] of a member. *)
Record work_ref := WorkRef { wk_owner_molecule : mid; wk_seat : string }.

(** The texts of these errors are for people. *)
Inductive source_error : Type :=
| SourceStore (e : work_store_error)
| SourceDomain (e : work_message_error)
| ScopeMissing
| NotInRoster
| EnvelopeDisappeared (key : string)
| RecipientChanged (key : string).

Definition is_member (scope : work_scope) (member : mid) (r : work_ref) : bool :=
  bool_decide (sc_owner scope = wk_owner_molecule r) && bool_decide (seat_of scope member = Some (wk_seat r)).

Definition fold_records (scope : work_scope) (records : work_records) (now : Z) : result work_message_error work_projection :=
  fold_with_history scope (wr_history records) (wr_envelopes records) (wr_receipts records) now.

(** The blocks of the pending envelopes. *)
Fixpoint render_each (envelopes : list envelope) : wprog (result source_error (list (string * string))) :=
  match envelopes with
  | [] => mret (Ok [])
  | e :: envelopes =>
      try! payload ← read_payload e catch SourceStore;
      match render_for_context e payload with
      | Err err => mret (Err (SourceDomain err))
      | Ok text =>
          try! rest ← render_each envelopes catch id;
          mret (Ok ((en_key e, text) :: rest))
      end
  end.

Definition knows_adapter (records : work_records) (seat : string) (a : delivery_adapter) : bool :=
  existsb (λ c, bool_decide (ac_seat c = seat ∧ ac_adapter c = a)) (wr_capabilities records).

(** The capability is recorded once. *)
Definition record_capability_once (records : work_records) (c : adapter_capability) : wprog (answer ()) :=
  if knows_adapter records (ac_seat c) (ac_adapter c) then mret (Ok ()) else call (AppendCapability c).

(** The loop over the delivered envelopes of a hook. *)
Definition hook_context : context_observation := ContextUnknown "hook stdout; model input not observable".

(** [run] of a hook of the command line; [hook_doc] is its JSON document. *)
Definition work_hook (hook_doc : list string → string) (a : delivery_adapter) (member : mid) (r : work_ref) :
    wprog (result source_error ()) :=
  try! _ ← call Lock catch SourceStore;
  try! records ← load_all catch SourceStore;
  match wr_scope records with
  | None => mret (Err ScopeMissing)
  | Some scope =>
      if negb (is_member scope member r) then mret (Err NotInRoster)
      else
        now ← call Now;
        match fold_records scope records now with
        | Err e => mret (Err (SourceDomain e))
        | Ok projection =>
            let pending := deliverable projection (wk_seat r) a now in
            try! blocks ← render_each pending catch id;
            try! _ ← record_capability_once records
                       (AdapterCapability work_message_schema_version (wk_seat r) a LiveSupported ContextUnavailable
                          [AfterToolCall] now) catch SourceStore;
            match blocks with
            | [] => mret (Ok ())
            | _ =>
                try! _ ← call (Output (hook_doc (snd <$> blocks))) catch SourceStore;
                try! _ ← record_deliveries a "PostToolUse" (Some hook_context) now pending catch SourceStore;
                mret (Ok ())
            end
        end
  end.

(** [WorkTurnInput::check_member] *)
Definition check_member (member : mid) (r : work_ref) : wprog (result source_error ()) :=
  try! scope ← call ReadScope catch SourceStore;
  mret (match scope with
        | None => Err ScopeMissing
        | Some scope => if is_member scope member r then Ok () else Err NotInRoster
        end).

(** [WorkTurnInput::take] *)
Definition turn_take (member : mid) (r : work_ref) : wprog (result source_error (list (string * string))) :=
  try! _ ← check_member member r catch id;
  try! records ← load_all catch SourceStore;
  match wr_scope records with
  | None => mret (Err ScopeMissing)
  | Some scope =>
      now ← call Now;
      match fold_records scope records now with
      | Err e => mret (Err (SourceDomain e))
      | Ok projection => render_each (deliverable projection (wk_seat r) HarnessTurn now)
      end
  end.

Definition turn_evidence : string := "included in provider request; provider returned success".

(** The loop of [WorkTurnInput::record] over the inputs. *)
Fixpoint record_turns (r : work_ref) (succeeded : bool) (records : work_records) (now : Z) (keys : list string) :
    wprog (result source_error ()) :=
  match keys with
  | [] => mret (Ok ())
  | key :: keys =>
      match head (filter (λ e, en_key e = key) (wr_envelopes records)) with
      | None => mret (Err (EnvelopeDisappeared key))
      | Some e =>
          if decide (en_recipient e ≠ wk_seat r) then mret (Err (RecipientChanged key))
          else
            try! _ ← call (AppendReceipt (for_envelope e (AdapterObserver HarnessTurn) now
                       (DeliveryAttempted HarnessTurn "harness_turn"
                          (if succeeded then Submitted else DeliveryFailed "provider request failed")))) catch SourceStore;
            if succeeded then
              try! _ ← call (AppendReceipt (for_envelope e (AdapterObserver HarnessTurn) now
                         (ContextDelivered HarnessTurn (ContextObserved turn_evidence)))) catch SourceStore;
              record_turns r succeeded records now keys
            else record_turns r succeeded records now keys
      end
  end.

(** [WorkTurnInput::record]; no lock is taken. *)
Definition turn_record (r : work_ref) (keys : list string) (succeeded : bool) : wprog (result source_error ()) :=
  try! records ← load_all catch SourceStore;
  now ← call Now;
  try! _ ← record_turns r succeeded records now keys catch id;
  if succeeded && negb (bool_decide (keys = [])) then
    try! _ ← record_capability_once records
               (AdapterCapability work_message_schema_version (wk_seat r) HarnessTurn LiveSupported ContextIsObserved
                  [BeforeProviderRequest] now) catch SourceStore;
    mret (Ok ())
  else mret (Ok ()).
End Store.

(** ** The system *)

Inductive work_answer : Type :=
| AnsDeclare (r : answer string)
| AnsSubmit (r : answer admission)
| AnsPull (seat : string) (r : answer bounded_pull)
| AnsAcknowledge (r : answer acknowledge_outcome)
| AnsHook (r : result source_error ())
| AnsTake (seat : string) (r : result source_error (list (string * string)))
| AnsRecord (r : result source_error ())
| AnsReconstruct (r : answer work_reconstruction).

(** The callers: owners that declare scopes within two limits, members that
    send, pull and acknowledge, hooks, and turns with or without the lock. *)
Inductive work_client `{WorkText} (max_messages max_bytes : N) : prog work_op work_answer → Prop :=
| client_declare scope :
    (max_messages_per_seat (sc_budget scope) ≤ max_messages)%N → (max_bytes_per_seat (sc_budget scope) ≤ max_bytes)%N →
    work_client max_messages max_bytes (prog_map AnsDeclare (declare scope))
| client_submit s bytes now : work_client max_messages max_bytes (prog_map AnsSubmit (submit s bytes now))
| client_pull {X} (include : X → pulled_message → answer page_decision * X) x m b caller q now :
    (∀ x m, (include x m).1 ≠ Err CorruptEvidence) →
    work_client max_messages max_bytes (prog_map (AnsPull (cl_seat caller)) (pull_bounded include x m b caller q now))
| client_acknowledge caller q now :
    work_client max_messages max_bytes (prog_map AnsAcknowledge (acknowledge caller q now))
| client_hook doc a member r : work_client max_messages max_bytes (prog_map AnsHook (work_hook doc a member r))
| client_take member r : work_client max_messages max_bytes (prog_map (AnsTake (wk_seat r)) (turn_take member r))
| client_record r keys succeeded :
    work_client max_messages max_bytes (prog_map AnsRecord (turn_record r keys succeeded))
| client_reconstruct now : work_client max_messages max_bytes (prog_map AnsReconstruct (reconstruct now)).

Definition work_machine `{WorkText} (max_messages max_bytes : N) : Machine work_op work_files work_answer := {|
  choice := circumstances;
  exec := λ c t R o, work_exec_op c t o;
  release := release_lock;
  others := λ _ _, False;
  client := work_client max_messages max_bytes;
|}.
