(* ===== verification/WorkRuns.v ===== *)
(** All interleavings of the calls on one work: what the directory of the work
    always holds, whatever fails, stops or is killed, and what an answer
    promises. *)
From stdpp Require Import prelude gmap strings list relations.
From Stdlib Require Import Ascii.
From S2P Require Import Prelude Text Ids Links Concurrent WorkMessage WorkStore.

(** ** Readings of the directory *)

(** The receipts that only the holder of the lock writes. *)
Definition solid (r : receipt) : bool :=
  match rc_stage r with
  | DeliveryAttempted HarnessTurn _ _ | ContextDelivered _ _ => false
  | _ => true
  end.

Definition log_of (s : work_files) (k : string) : log receipt := log_or_empty (wf_receipts s !! k).

Definition solid_lines (s : work_files) (k : string) : list receipt := filter (λ r, solid r = true) (lg_records (log_of s k)).

Definition consumptions (l : list receipt) : list receipt := filter (λ r, is_consumed (rc_stage r) = true) l.

Definition attempted_by (a : delivery_adapter) (r : receipt) : bool :=
  match rc_stage r with DeliveryAttempted b _ _ => bool_decide (a = b) | _ => false end.

Definition attempts (a : delivery_adapter) (l : list receipt) : list receipt := filter (λ r, attempted_by a r = true) l.

Definition admitted_key (e : work_event) : option string := match e with DidAdmit _ k => Some k | _ => None end.
Definition consumed_key (e : work_event) : option string := match e with DidConsume _ k => Some k | _ => None end.

(** A receipt of an envelope that is there. *)
Definition receipt_sane (s : work_files) (r : receipt) : Prop :=
  ∃ e, wf_envelopes s !! rc_key r = Some e ∧ rc_payload_digest r = en_payload_digest e ∧
    (is_consumed (rc_stage r) = true → rc_observer r = SeatObserver (en_recipient e)).

Definition payload_kept `{WorkText} (s : work_files) (e : envelope) : Prop :=
  ∃ b, wf_payloads s !! en_payload_digest e = Some b ∧ hash_of_bytes b = en_payload_digest e ∧
    N.of_nat (String.length b) = en_payload_bytes e.

Record files_inv `{WorkText} (max_messages max_bytes : N) (s : work_files) : Prop := {
  fi_key k e : wf_envelopes s !! k = Some e → en_key e = k;
  fi_payload k e : wf_envelopes s !! k = Some e → payload_kept s e;
  fi_named d b : wf_payloads s !! d = Some b → hash_of_bytes b = d;
  fi_messages seat : (N.of_nat (length (sent_by (wf_envelopes s) seat)) ≤ max_messages)%N;
  fi_bytes seat : (bytes_of (sent_by (wf_envelopes s) seat) ≤ max_bytes)%N;
  fi_receipt k r : r ∈ lg_records (log_of s k) → rc_key r = k ∧ receipt_sane s r;
  fi_consumed k : length (consumptions (solid_lines s k)) ≤ 1;
  fi_attempts k e a : wf_envelopes s !! k = Some e → a ≠ HarnessTurn →
    (N.of_nat (length (attempts a (solid_lines s k))) ≤ en_max_delivery_attempts e)%N;
  fi_scope sc : wf_scope s = Some sc →
    (max_messages_per_seat (sc_budget sc) ≤ max_messages)%N ∧ (max_bytes_per_seat (sc_budget sc) ≤ max_bytes)%N;
  fi_did_admit t k : DidAdmit t k ∈ wf_trace s → is_Some (wf_envelopes s !! k);
  fi_did_consume t k : DidConsume t k ∈ wf_trace s → is_Some (wf_receipts s !! k) ∧
    (lg_end (log_of s k) = Broken ∨ ∃ r, r ∈ lg_records (log_of s k) ∧ is_consumed (rc_stage r) = true);
  fi_admits_once : NoDup (omap admitted_key (wf_trace s));
  fi_consumes_once : NoDup (omap consumed_key (wf_trace s));
}.

(** What may change while somebody else holds the lock. *)
Record quiet (s s' : work_files) : Prop := {
  qu_scope : wf_scope s' = wf_scope s;
  qu_envelopes : wf_envelopes s' = wf_envelopes s;
  qu_lines k : solid_lines s' k = solid_lines s k;
  qu_trace : wf_trace s' = wf_trace s;
}.

Record work_does (t : nat) (s s' : work_files) : Prop := {
  wd_lock t' : t' ≠ t → wf_lock s = Some t' → wf_lock s' = Some t';
  wd_quiet : wf_lock s = Some t ∨ quiet s s';
  wd_envelope k e : wf_envelopes s !! k = Some e → wf_envelopes s' !! k = Some e;
  wd_payload d b : wf_payloads s !! d = Some b → wf_payloads s' !! d = Some b;
  wd_trace e : e ∈ wf_trace s → e ∈ wf_trace s';
}.

Lemma quiet_refl s : quiet s s.
Proof. by split. Qed.

Lemma quiet_trans s1 s2 s3 : quiet s1 s2 → quiet s2 s3 → quiet s1 s3.
Proof. intros [? ? Hl ?] [? ? Hl' ?]. split; [congruence..| |congruence]. intros k. by rewrite Hl'. Qed.

Lemma filter_agree {A} (P P' : A → Prop) `{!∀ x, base.Decision (P x)} `{!∀ x, base.Decision (P' x)} (l : list A) :
  (∀ x, x ∈ l → P x ↔ P' x) → filter P l = filter P' l.
Proof.
  induction l as [|x l IH]; intros Hl; [done|]. rewrite !filter_cons, IH by (intros; apply Hl; by right).
  by apply decide_ext, Hl; left.
Qed.

Lemma elem_of_concat {A} (x : A) (ls : list (list A)) : x ∈ concat ls ↔ ∃ l, x ∈ l ∧ l ∈ ls.
Proof.
  induction ls as [|l ls IH]; cbn.
  - rewrite elem_of_nil. split; [done|]. by intros (l & _ & ?%elem_of_nil).
  - rewrite elem_of_app, IH. setoid_rewrite elem_of_cons. naive_solver.
Qed.

Lemma log_append_records {A} (l : log A) a w :
  lg_records (log_append l a w) = lg_records l ∨
  lg_records (log_append l a w) = lg_records l ++ [a] ∧ lg_end l = Closed.
Proof. unfold log_append. destruct (lg_end l), w; cbn; auto. Qed.

Lemma log_append_broken {A} (l : log A) a w : lg_end l = Broken → log_append l a w = l.
Proof. unfold log_append. intros ->. by destruct w. Qed.

(** Something was written: it is there, or the log is unreadable. *)
Lemma log_append_written {A} (l : log A) a w :
  w ≠ NoByte → lg_end (log_append l a w) = Broken ∨ a ∈ lg_records (log_append l a w).
Proof.
  intros Hw. unfold log_append. destruct (lg_end l) eqn:Hl, w; cbn; auto; try done; right; apply elem_of_app; right;
    by apply list_elem_of_singleton.
Qed.

Section Mailbox.
Context `{WorkText} (max_messages max_bytes : N).
Implicit Types (t : nat) (s : work_files).

#[local] Abbreviation Inv := (files_inv max_messages max_bytes).
#[local] Instance machine : Machine work_op work_files work_answer := work_machine max_messages max_bytes.

(** ** Steps *)

Record same_core s s' : Prop := {
  sm_scope : wf_scope s' = wf_scope s;
  sm_payloads : wf_payloads s' = wf_payloads s;
  sm_envelopes : wf_envelopes s' = wf_envelopes s;
  sm_receipts : wf_receipts s' = wf_receipts s;
  sm_trace : wf_trace s' = wf_trace s;
}.

Lemma same_core_quiet s s' : same_core s s' → quiet s s'.
Proof. intros [? ? ? Hr ?]. split; try done. intros k. unfold solid_lines, log_of. by rewrite Hr. Qed.

(** A step that touches nothing the invariant speaks of. *)
Lemma plain_ok t s s' :
  Inv s → same_core s s' → (∀ t', t' ≠ t → wf_lock s = Some t' → wf_lock s' = Some t') → Inv s' ∧ work_does t s s'.
Proof.
  intros HI Hs Hl. pose proof (same_core_quiet _ _ Hs) as Hq. destruct s as [l1 sc1 scs1 p1 n1 e1 r1 c1 o1 tr1], s' as [l2 sc2 scs2 p2 n2 e2 r2 c2 o2 tr2].
  destruct Hs as [Hsc Hp He Hr Ht]. cbn in Hsc, Hp, He, Hr, Ht. subst. destruct HI. split; [by split|]. split; auto.
Qed.

Lemma same_ok t s : Inv s → Inv s ∧ work_does t s s.
Proof. intros HI. by apply plain_ok. Qed.

(** When a receipt may be appended. *)
Record appendable s (r : receipt) : Prop := {
  ap_sane : receipt_sane s r;
  ap_consume : is_consumed (rc_stage r) = true →
    consumptions (solid_lines s (rc_key r)) = [] ∧ ∀ t, DidConsume t (rc_key r) ∉ wf_trace s;
  ap_attempt e a : wf_envelopes s !! rc_key r = Some e → attempted_by a r = true → a ≠ HarnessTurn →
    (N.of_nat (length (attempts a (solid_lines s (rc_key r)))) < en_max_delivery_attempts e)%N;
}.

Definition appended t s (r : receipt) (w : append_outcome) : work_files :=
  set_receipts s (<[rc_key r := log_append (log_or_empty (wf_receipts s !! rc_key r)) r w]> (wf_receipts s))
    (wf_trace s ++ consume_event t r w).

Lemma appended_log t s r w k :
  log_of (appended t s r w) k = if decide (k = rc_key r) then log_append (log_of s k) r w else log_of s k.
Proof.
  unfold log_of, appended. cbn. case_decide; subst; [by rewrite lookup_insert_eq|by rewrite lookup_insert_ne].
Qed.

Lemma appended_lines t s r w k :
  solid_lines (appended t s r w) k = solid_lines s k ∨
  k = rc_key r ∧ solid r = true ∧ solid_lines (appended t s r w) k = solid_lines s k ++ [r].
Proof.
  unfold solid_lines. rewrite appended_log. case_decide as Hk; [|by left].
  destruct (log_append_records (log_of s k) r w) as [->|[-> _]]; [by left|].
  rewrite filter_app, filter_cons, filter_nil. case_decide as Hr; [by right|left]. by rewrite app_nil_r.
Qed.

Lemma elem_of_appended t s r w k r' :
  r' ∈ lg_records (log_of (appended t s r w) k) → r' ∈ lg_records (log_of s k) ∨ k = rc_key r ∧ r' = r.
Proof.
  rewrite appended_log. case_decide as Hk; [|by left].
  destruct (log_append_records (log_of s k) r w) as [->|[-> _]]; [by left|].
  intros [Hr|Hr%list_elem_of_singleton]%elem_of_app; auto.
Qed.

Lemma appended_keeps t s r w k r' : r' ∈ lg_records (log_of s k) → r' ∈ lg_records (log_of (appended t s r w) k).
Proof.
  rewrite appended_log. intros Hr. case_decide; [|done].
  destruct (log_append_records (log_of s k) r w) as [->|[-> _]]; [done|]. apply elem_of_app. by left.
Qed.

Lemma appended_inv t s r w : Inv s → appendable s r → Inv (appended t s r w).
Proof.
  intros HI [Hsane Hcons Hatt]. split; try apply HI; cbn [appended set_receipts wf_envelopes wf_trace wf_receipts].
  - intros k r' [Hr|[-> ->]]%elem_of_appended; [by apply (fi_receipt _ _ _ HI)|by split].
  - intros k. destruct (appended_lines t s r w k) as [->|(-> & Hs & ->)]; [apply HI|].
    unfold consumptions. rewrite filter_app, filter_cons, filter_nil. case_decide as Hc.
    + rewrite length_app. destruct (Hcons Hc) as [Hn _]. unfold consumptions in Hn. by rewrite Hn.
    + rewrite app_nil_r. apply HI.
  - intros k e a He Ha. destruct (appended_lines t s r w k) as [->|(-> & Hs & ->)]; [by apply (fi_attempts _ _ _ HI)|].
    unfold attempts. rewrite filter_app, filter_cons, filter_nil, length_app. case_decide as Hc; cbn.
    + pose proof (Hatt e a He Hc Ha). unfold attempts in *. lia.
    + rewrite Nat.add_0_r. by apply (fi_attempts _ _ _ HI).
  - intros t' k Hin. apply elem_of_app in Hin as [Hin|Hin]; [by apply (fi_did_admit _ _ _ HI t')|].
    exfalso. unfold consume_event in Hin. destruct w; try destruct (is_consumed _); set_solver.
  - intros t' k [Hin|Hin]%elem_of_app.
    + destruct (fi_did_consume _ _ _ HI _ _ Hin) as [[l Hl] Hline]. split.
      { destruct (decide (rc_key r = k)) as [<-|]; [rewrite lookup_insert_eq; eauto|rewrite lookup_insert_ne; eauto]. }
      destruct Hline as [Hb|(r' & Hr' & Hc)]; [left|right; exists r'; split; [by apply appended_keeps|done]].
      rewrite appended_log. case_decide; [|done]. by rewrite log_append_broken.
    + unfold consume_event in Hin. destruct (is_consumed (rc_stage r)) eqn:Hc; [|by destruct w; set_solver].
      assert (w ≠ NoByte ∧ k = rc_key r) as [Hw ->] by (destruct w; set_solver).
      split; [rewrite lookup_insert_eq; eauto|]. rewrite appended_log, decide_True by done.
      destruct (log_append_written (log_of s (rc_key r)) r w Hw); eauto.
  - rewrite omap_app. assert (omap admitted_key (consume_event t r w) = []) as ->; [|rewrite app_nil_r; apply HI].
    unfold consume_event. by destruct w, (is_consumed _).
  - rewrite omap_app. apply NoDup_app. split_and!; [apply HI| |].
    + intros k (ev & Hev & Hk)%list_elem_of_omap (ev' & Hev' & Hk')%list_elem_of_omap.
      unfold consume_event in Hev'. destruct (is_consumed (rc_stage r)) eqn:Hc; [|destruct w; set_solver].
      assert (ev' = DidConsume t (rc_key r)) as -> by (destruct w; set_solver).
      destruct ev as [|t' k']; [done|]. cbn in Hk, Hk'. simplify_eq. by apply (proj2 (Hcons eq_refl) t').
    + unfold consume_event. destruct w, (is_consumed _); cbn; repeat constructor; set_solver.
Qed.

Lemma appended_quiet t s r w : solid r = false → quiet s (appended t s r w).
Proof.
  intros Hs. split; try done.
  - intros k. by destruct (appended_lines t s r w k) as [?|(_ & ? & _)]; [|congruence].
  - cbn. unfold consume_event. assert (is_consumed (rc_stage r) = false) as -> by (unfold solid in Hs; by destruct (rc_stage r)).
    destruct w; apply app_nil_r.
Qed.

Lemma appended_ok t s r w :
  Inv s → appendable s r → (solid r = false ∨ wf_lock s = Some t) → Inv (appended t s r w) ∧ work_does t s (appended t s r w).
Proof.
  intros HI Ha Hwho. split; [by apply appended_inv|]. split; try done.
  - destruct Hwho; [right; by apply appended_quiet|by left].
  - intros e He. apply elem_of_app. by left.
Qed.

Lemma payload_step t s d b :
  Inv s → wf_lock s = Some t → hash_of_bytes b = d → wf_payloads s !! d = None →
  Inv (set_payloads s (<[d := b]> (wf_payloads s))) ∧ work_does t s (set_payloads s (<[d := b]> (wf_payloads s))).
Proof.
  intros HI Hl Hb Hd. assert (∀ d' b', wf_payloads s !! d' = Some b' → <[d := b]> (wf_payloads s) !! d' = Some b') as Hsub
    by (intros d' b' Hd'; rewrite lookup_insert_ne; [done|congruence]).
  split; [|split; auto]. destruct HI. split; try done.
  - intros k e He. destruct (fi_payload0 k e He) as (b' & Hb' & ?). exists b'. split; [by apply Hsub|done].
  - cbn. intros d' b'. rewrite lookup_insert_Some. intros [[<- <-]|[_ ?]]; [done|by apply fi_named0].
Qed.

Lemma envelope_step t s e :
  Inv s → wf_lock s = Some t → wf_envelopes s !! en_key e = None → payload_kept s e →
  (N.of_nat (length (sent_by (wf_envelopes s) (en_sender e))) + 1 ≤ max_messages)%N →
  (bytes_of (sent_by (wf_envelopes s) (en_sender e)) + en_payload_bytes e ≤ max_bytes)%N →
  let s' := set_envelopes s (<[en_key e := e]> (wf_envelopes s)) (wf_trace s ++ [DidAdmit t (en_key e)]) in
  Inv s' ∧ work_does t s s'.
Proof.
  intros HI Hl Hfree Hp Hm Hb s'.
  assert (∀ k e', wf_envelopes s !! k = Some e' → wf_envelopes s' !! k = Some e') as Hsub
    by (intros k e' He'; cbn; rewrite lookup_insert_ne; [done|congruence]).
  split; [|split; try done; [by left|intros ev Hev; apply elem_of_app; by left]]. destruct HI. split; try done; cbn.
  - intros k e'. rewrite lookup_insert_Some. intros [[<- <-]|[_ He]]; [done|eauto].
  - intros k e'. rewrite lookup_insert_Some. intros [[<- <-]|[_ He]]; [done|eauto].
  - intros seat. rewrite sent_by_insert, length_app by done. case_decide; subst; cbn [length]; [etrans; [|exact Hm]; clear; lia|apply fi_messages0].
  - intros seat. rewrite sent_by_insert by done. case_decide; subst; cbn; [|apply fi_bytes0].
    etrans; [|exact Hb]. unfold bytes_of. clear. lia.
  - intros k r Hr. destruct (fi_receipt0 k r Hr) as [Hk (e' & He & Hd & Hc)]. split; [done|]. exists e'. split; [by apply Hsub|done].
  - intros k e' a. rewrite lookup_insert_Some. intros [[<- <-]|[_ He]] Ha; [|eauto].
    assert (attempts a (solid_lines s (en_key e)) = []) as Hnone; [|by (etrans; [|apply N.le_0_l]); unfold solid_lines, log_of in *; cbn; rewrite Hnone].
    unfold attempts, solid_lines. rewrite (list_filter_none _ (filter _ _)); [done|].
    intros r [_ Hr]%list_elem_of_filter. destruct (fi_receipt0 _ _ Hr) as [Hk (e' & He & _)]. congruence.
  - intros t' k [Hin|Hin%list_elem_of_singleton]%elem_of_app.
    + destruct (fi_did_admit0 _ _ Hin) as [e' He]. exists e'. by apply Hsub.
    + injection Hin as -> ->. rewrite lookup_insert_eq. eauto.
  - intros t' k [Hin|Hin%list_elem_of_singleton]%elem_of_app; [by eapply fi_did_consume0|done].
  - rewrite omap_app. cbn. apply NoDup_app. split_and!; [done| |repeat constructor; set_solver].
    intros k (ev & Hev & Hk)%list_elem_of_omap ->%list_elem_of_singleton. destruct ev as [t' k'|]; [|done]. injection Hk as ->.
    destruct (fi_did_admit0 _ _ Hev). congruence.
  - rewrite omap_app. cbn. by rewrite app_nil_r.
Qed.

Lemma scope_step t s sc :
  Inv s → wf_lock s = Some t →
  (max_messages_per_seat (sc_budget sc) ≤ max_messages)%N → (max_bytes_per_seat (sc_budget sc) ≤ max_bytes)%N →
  Inv (set_scope s (Some sc)) ∧ work_does t s (set_scope s (Some sc)).
Proof.
  intros HI Hl Hm Hb. split; [|split; auto]. destruct HI. split; try done. by intros sc' [= <-].
Qed.

(** ** How the operations fare *)

Lemma file_writing_inv {A} c (a : A) s' s r s2 :
  writing c a s' s = Some (r, s2) → (s2 = s ∧ ∃ f, r = Err (file_error f)) ∨ (s2 = s' ∧ (r = Ok a ∨ ∃ f, r = Err (file_error f))).
Proof. unfold writing. destruct (ci_fails c), (ci_effect c); intros [= <- <-]; eauto 6. Qed.

Lemma create_inv {A} c (m : gmap string A) k a put s r s2 :
  create c m k a put s = Some (r, s2) →
  (s2 = s ∧ ((∃ f, r = Err (file_error f)) ∨ r = Ok false ∧ is_Some (m !! k))) ∨
  (m !! k = None ∧ s2 = put (<[k := a]> m) ∧ (r = Ok true ∨ ∃ f, r = Err (file_error f))).
Proof.
  unfold create. destruct (m !! k) eqn:Hk; intros [[-> [f ->]]|[-> Hr]]%file_writing_inv; eauto 8.
  left. split; [done|]. destruct Hr as [->|[f ->]]; eauto.
Qed.

Lemma append_inv {A} c (m : gmap string (log A)) k a put s r s2 :
  append c m k a put s = Some (r, s2) →
  (s2 = s ∧ ∃ f, r = Err (file_error f)) ∨
  (s2 = put (<[k := log_append (log_or_empty (m !! k)) a (ci_append c)]> m) ∧
   ((r = Ok () ∧ ci_append c = WholeLine) ∨ ∃ f, r = Err (file_error f))).
Proof.
  unfold append. destruct (ci_append c) eqn:Hc;
    try (destruct (ci_effect c); intros [= <- <-]; [right|left]; (split; [done|]); [right|]; by exists IoFault).
  intros [[-> [f ->]]|[-> [->|[f ->]]]]%file_writing_inv; eauto 6.
Qed.

Lemma file_reading_inv {A} c (x : answer A) s r s2 : reading c x s = Some (r, s2) → s2 = s ∧ (r = x ∨ ∃ f, r = Err (file_error f)).
Proof. unfold reading. destruct (ci_fails c); intros [= <- <-]; eauto. Qed.

(** ** The lock *)

#[local] Abbreviation Stable t P := (stable Inv work_does t P).
#[local] Abbreviation Wp t p Q := (wp Inv work_does t p Q).
#[local] Abbreviation Rely t := (rely Inv work_does t).

Lemma rely_work t s s' : Rely t s s' → Inv s' ∧ ∃ t', t' ≠ t ∧ work_does t' s s'.
Proof. intros (_ & HI & [[]|Hd]). done. Qed.

Lemma work_true_stable t : Stable t (λ _, True).
Proof. done. Qed.

(** The process holds the lock and has seen the directory as [s0]. *)
Definition held t s0 s : Prop := wf_lock s = Some t ∧ quiet s0 s.

Lemma held_refl t s : wf_lock s = Some t → held t s s.
Proof. split; [done|apply quiet_refl]. Qed.

Lemma work_held_stable t s0 : Stable t (held t s0).
Proof.
  intros s s' [Hl Hq] [_ (t' & Hne & Hd)]%rely_work. split; [by eapply (wd_lock t' s s')|].
  destruct (wd_quiet _ _ _ Hd) as [Hl'|Hq']; [congruence|]. by eapply quiet_trans.
Qed.

Lemma held_with_stable t s0 (P : work_files → Prop) : Stable t P → Stable t (λ s, held t s0 s ∧ P s).
Proof. intros HP s s' [Hh Hs] Hr. split; [by eapply work_held_stable|by eapply HP]. Qed.

Lemma envelope_stable t k e : Stable t (λ s, wf_envelopes s !! k = Some e).
Proof. intros s s' Hs [_ (t' & _ & Hd)]%rely_work. by apply (wd_envelope _ _ _ Hd). Qed.

Lemma trace_stable t ev : Stable t (λ s, ev ∈ wf_trace s).
Proof. intros s s' Hs [_ (t' & _ & Hd)]%rely_work. by apply (wd_trace _ _ _ Hd). Qed.

Lemma payload_kept_stable t e : Stable t (λ s, payload_kept s e).
Proof.
  intros s s' (b & Hb & Hs) [_ (t' & _ & Hd)]%rely_work. exists b. split; [by apply (wd_payload _ _ _ Hd)|done].
Qed.

(** The lock is given back, where it was held. *)
Lemma release_lock_ok t s : Inv s → Inv (release_lock t s) ∧ work_does t s (release_lock t s) ∧ same_core s (release_lock t s).
Proof.
  intros HI. unfold release_lock. case_decide as Hl; [|destruct (same_ok t s HI) as [? ?]; split_and!; [done|done|by split]].
  destruct (plain_ok t s (set_lock s None) HI) as [? ?]; [by split|intros t' Hne Hl'; rewrite Hl in Hl'; by injection Hl' as ->|].
  split_and!; [done|done|by split].
Qed.

(** [with_lock]: the operation starts with the lock and may do what it wants
    to with it. *)
Lemma with_lock_wp t {A} (operation : prog work_op (answer A)) (Q : answer A → work_files → Prop) s :
  (∀ r s s', Inv s → Q r s → same_core s s' → Q r s') →
  (∀ r, Stable t (Q r)) → (∀ f s, Q (Err (file_error f)) s) →
  (∀ s, Inv s → wf_lock s = Some t → Wp t operation Q s) → Wp t (with_lock operation) Q s.
Proof.
  intros Hcore HQ Herr Hop. unfold with_lock. eapply wp_try_call; [apply work_true_stable|done|].
  intros s1 c r s2 _ HI He. cbn in He. destruct (ci_fails c) as [f|].
  { injection He as <- <-. destruct (same_ok t s1 HI). split_and!; [done..|apply Herr]. }
  destruct (wf_lock s1) eqn:Hl; [done|]. injection He as <- <-.
  destruct (plain_ok t s1 (set_lock s1 (Some t)) HI) as [HI2 Hd]; [by split|intros t'; by rewrite Hl|].
  split_and!; [done..|]. apply wp_bind. eapply wp_mono; [|by apply Hop]. clear - Hcore HQ Herr. intros result s HQs.
  eapply wp_call; [apply HQ|exact HQs|]. clear s HQs. intros s c u s' HQs HI He. cbn in He. injection He as <- <-.
  destruct (release_lock_ok t s HI) as (? & ? & Hs).
  split_and!; [done..|]. destruct result as [a|e]; [destruct (ci_fails c); [apply Herr|]|]; exact (Hcore _ s _ HI HQs Hs).
Qed.

(** ** What a load sees *)

Lemma read_each_wp t {A} (read : string → work_op (answer A)) (R : string → A → work_files → Prop) ks
    (P : work_files → Prop) (Q : answer (list A) → work_files → Prop) s :
  Stable t P → (∀ k a, Stable t (R k a)) → P s →
  (∀ k c r s s', P s → Inv s → work_exec_op c t (read k) s = Some (r, s') → s' = s ∧ match r with Ok a => R k a s | Err e => ∃ f, e = file_error f end) →
  (∀ l s, P s → Forall2 (λ k a, R k a s) ks l → Q (Ok l) s) → (∀ f s, P s → Q (Err (file_error f)) s) →
  Wp t (read_each read ks) Q s.
Proof.
  intros HP HR. revert P Q s HP. induction ks as [|k ks IH]; intros P Q s HP Hs Hread Hok Herr; cbn [read_each].
  { by apply Hok. }
  eapply wp_try_call; [exact HP|done|]. intros s1 c r s2 HPs1 HI He.
  destruct (Hread _ _ _ _ _ HPs1 HI He) as [-> Hr]. destruct (same_ok t s1 HI). split_and!; [done..|].
  destruct r as [a|e]; [|destruct Hr as [f ->]; by apply Herr]. apply wp_try.
  apply (IH (λ s, P s ∧ R k a s)).
  - intros s2 s3 [? ?] Hrel. split; [by eapply HP|by eapply HR].
  - by split.
  - intros k' c' r' s2 s2' [HPs _] HI2 He2. by eapply Hread.
  - intros l s2 [HPs2 Ha] Hl. apply Hok; [done|]. by constructor.
  - intros e s2 [HPs2 _]. by apply Herr.
Qed.

(** A read of one file. *)
Lemma read_wp t {A B} (o : work_op (answer A)) (x : work_files → answer A) (k : A → prog work_op (answer B))
    (P : work_files → Prop) Q s :
  (∀ c s, work_exec_op c t o s = reading c (x s) s) → Stable t P → P s →
  (∀ e s, x s = Err e → ∃ f, e = file_error f) →
  (∀ a s, P s → Inv s → x s = Ok a → Wp t (k a) Q s) → (∀ f s, P s → Q (Err (file_error f)) s) →
  Wp t (try (call o) id k) Q s.
Proof.
  intros Ho HP Hs Hx Hk Herr. eapply wp_try_call; [exact HP|done|]. intros s1 c r s2 HPs HI He.
  cbn [exec machine work_machine] in He. rewrite Ho in He. apply file_reading_inv in He as [-> Hr].
  destruct (same_ok t s1 HI). split_and!; [done..|]. destruct r as [a|e].
  - apply Hk; [done..|]. by destruct Hr as [<-|[e ?]].
  - assert (∃ f, e = file_error f) as [f ->]; [|by apply Herr].
    destruct Hr as [Hr|[f [= ->]]]; [by eapply Hx|eauto].
Qed.

Record loads (P : work_files → Prop) (records : work_records) s : Prop := {
  ld_scope : ∃ s1, P s1 ∧ Inv s1 ∧ wr_scope records = wf_scope s1;
  ld_envelopes : ∃ s1, P s1 ∧ Forall2 (λ k e, wf_envelopes s !! k = Some e ∧ en_key e = k)
      (in_path_order ".json" (dom (wf_envelopes s1))) (wr_envelopes records);
  ld_receipts : ∃ s1 rss, P s1 ∧ Inv s1 ∧ wr_receipts records = concat rss ∧
      Forall2 (λ k rs, ∃ s2, P s2 ∧ Inv s2 ∧ read_log (wf_receipts s2 !! k) = Ok rs)
        (in_path_order ".jsonl" (dom (wf_receipts s1))) rss;
}.

Lemma pure_stable t (φ : Prop) : Stable t (λ _, φ).
Proof. by intros s s' Hφ _. Qed.

Lemma and_stable t (P P' : work_files → Prop) : Stable t P → Stable t P' → Stable t (λ s, P s ∧ P' s).
Proof. intros HP HP' s s' [? ?] Hr. split; [by eapply HP|by eapply HP']. Qed.

Lemma forall2_stable t {A B} (R : A → B → work_files → Prop) l l' :
  (∀ a b, Stable t (R a b)) → Stable t (λ s, Forall2 (λ a b, R a b s) l l').
Proof. intros HR s s' Hl Hr. eapply Forall2_impl; [exact Hl|]. intros a b Hab. exact (HR a b s s' Hab Hr). Qed.

Lemma read_log_err {A} (o : option (log A)) e : read_log o = Err e → ∃ f, e = file_error f.
Proof.
  destruct o as [l|]; cbn; [|intros [= <-]; by exists IoFault].
  destruct (lg_end l); try done. intros [= <-]. by exists JsonFault.
Qed.

Lemma load_all_wp t P Q s :
  Stable t P → P s → (∀ records s, P s → loads P records s → Q (Ok records) s) → (∀ f s, P s → Q (Err (file_error f)) s) →
  Wp t load_all Q s.
Proof.
  intros HP Hs Hok Herr. unfold load_all.
  eapply (read_wp t ReadScope (λ s, Ok (wf_scope s)) _ P); [done..| |exact Herr]. clear s Hs.
  intros scope s1 Hs1 HI1 [= <-].
  eapply (read_wp t ListEnvelopes (λ s, Ok (in_path_order ".json" (dom (wf_envelopes s)))) _ P); [done..| |exact Herr].
  intros keys s2 Hs2 HI2 [= <-]. set (keys := in_path_order _ _).
  apply wp_try. eapply (read_each_wp t ReadEnvelope (λ k e s, wf_envelopes s !! k = Some e ∧ en_key e = k) keys P);
    [done|by intros; apply and_stable; [apply envelope_stable|apply pure_stable]|done| | |exact Herr].
  { intros k c r s s' _ HI He. cbn in He. apply file_reading_inv in He as [-> Hr]. split; [done|].
    destruct Hr as [->|[f ->]]; [|eauto]. unfold found. destruct (wf_envelopes s !! k) eqn:Hk; [|by exists IoFault].
    split; [done|by apply (fi_key _ _ _ HI)]. }
  intros envelopes s3 Hs3 Henv.
  assert (Stable t (λ s, P s ∧ Forall2 (λ k e, wf_envelopes s !! k = Some e ∧ en_key e = k) keys envelopes)) as HP2.
  { apply and_stable; [done|]. apply (forall2_stable t (λ k e s, wf_envelopes s !! k = Some e ∧ en_key e = k)).
    intros. apply and_stable; [apply envelope_stable|apply pure_stable]. }
  eapply (read_wp t ListReceipts (λ s, Ok (in_path_order ".jsonl" (dom (wf_receipts s)))) _ _); [done|exact HP2|done|done| |by intros f s [? _]; apply Herr].
  intros logs s4 [Hs4 Henv4] HI4 [= <-].
  apply wp_try. eapply (read_each_wp t ReadReceipts (λ k rs _, ∃ s, P s ∧ Inv s ∧ read_log (wf_receipts s !! k) = Ok rs) _ _);
    [exact HP2|intros; apply pure_stable|done| | |by intros f s [? _]; apply Herr].
  { intros k c r s s' [HPs _] HI He. cbn in He. apply file_reading_inv in He as [-> Hr]. split; [done|].
    destruct Hr as [->|[f ->]]; [|eauto]. destruct (read_log _) as [l|e] eqn:Hl; [by exists s|by eapply read_log_err]. }
  intros rss s5 [Hs5 Henv5] Hrss.
  eapply (read_wp t ListCapabilities (λ s, Ok (in_path_order ".jsonl" (dom (wf_capabilities s)))) _ _); [done|exact HP2|done|done| |by intros f s [? _]; apply Herr].
  intros seats s6 Hs6 _ _. apply wp_try.
  eapply (read_each_wp t ReadCapabilities (λ _ _ _, True) _ _); [exact HP2|intros; apply pure_stable|done| | |by intros f s [? _]; apply Herr].
  { intros k c r s s' _ _ He. cbn in He. apply file_reading_inv in He as [-> Hr]. split; [done|].
    destruct Hr as [->|[f ->]]; [|eauto]. destruct (read_log _) eqn:Hl; [done|by eapply read_log_err]. }
  intros caps s7 Hs7 _.
  eapply (read_wp t ListScopes (λ s, Ok (in_path_order ".json" (dom (wf_scopes s)))) _ _); [done|exact HP2|done|done| |by intros f s [? _]; apply Herr].
  intros revs s8 Hs8 _ _. apply wp_try.
  eapply (read_each_wp t ReadScopeAt (λ _ _ _, True) _ _); [exact HP2|intros; apply pure_stable|done| | |by intros f s [? _]; apply Herr].
  { intros k c r s s' _ _ He. cbn in He. apply file_reading_inv in He as [-> Hr]. split; [done|].
    destruct Hr as [->|[f ->]]; [|eauto]. unfold found. destruct (wf_scopes s !! k); [done|by exists IoFault]. }
  intros history s9 [Hs9 Henv9] _. apply Hok; [done|]. split; cbn; [by exists s1|by exists s2|by exists s4, rss].
Qed.

Lemma elem_of_in_path_order ext X k : k ∈ in_path_order ext X ↔ k ∈ X.
Proof. unfold in_path_order. by rewrite sort_by_perm, elem_of_elements. Qed.

Lemma in_path_order_nodup ext X : NoDup (in_path_order ext X).
Proof. unfold in_path_order. rewrite sort_by_perm. apply NoDup_elements. Qed.

Lemma envelope_at_keys (m : gmap string envelope) ks es k :
  NoDup ks → Forall2 (λ k e, m !! k = Some e ∧ en_key e = k) ks es →
  envelope_at es k = if decide (k ∈ ks) then m !! k else None.
Proof.
  intros Hnd Hes. unfold envelope_at. assert (filter (λ e, en_key e = k) es = option_list (if decide (k ∈ ks) then m !! k else None)) as ->.
  2:{ case_decide; [|done]. by destruct (m !! k). }
  induction Hes as [|k' e ks es [He Hk'] Hes IH].
  { rewrite decide_False by apply not_elem_of_nil. done. }
  apply NoDup_cons in Hnd as [Hnot Hnd]. rewrite filter_cons, (IH Hnd). destruct (decide (en_key e = k)) as [Hk|Hk].
  - assert (k' = k) as -> by congruence. rewrite decide_False by done. rewrite decide_True by left. by rewrite He.
  - assert (k ∈ k' :: ks ↔ k ∈ ks) as Hiff.
    { rewrite elem_of_cons. split; [|auto]. intros [->|]; [congruence|done]. }
    f_equal. by apply decide_ext.
Qed.

Lemma lines_of_keys (f : string → list receipt) ks rss k :
  NoDup ks → Forall2 (λ k rs, filter (λ r, solid r = true) rs = f k ∧ ∀ r, r ∈ rs → rc_key r = k) ks rss →
  filter (λ r, solid r = true ∧ rc_key r = k) (concat rss) = if decide (k ∈ ks) then f k else [].
Proof.
  intros Hnd Hrs. induction Hrs as [|k' rs ks rss [Hf Hk'] Hrs IH].
  { rewrite decide_False by apply not_elem_of_nil. done. }
  apply NoDup_cons in Hnd as [Hnot Hnd]. cbn [concat]. rewrite filter_app, (IH Hnd). destruct (decide (k' = k)) as [->|Hne].
  - rewrite (decide_False (P := k ∈ ks)), decide_True, app_nil_r by (done || by left). rewrite <- Hf.
    apply filter_agree. intros r Hr. rewrite (Hk' r Hr). naive_solver.
  - rewrite list_filter_none by (intros r Hr [_ Hkr]; apply Hne; rewrite <- Hkr; symmetry; by apply Hk').
    assert (k ∈ k' :: ks ↔ k ∈ ks) as Hiff by (rewrite elem_of_cons; naive_solver).
    by apply decide_ext.
Qed.

(** What a load under the lock has seen of the directory. *)
Record seen s (records : work_records) : Prop := {
  sn_scope : wr_scope records = wf_scope s;
  sn_envelope k : envelope_at (wr_envelopes records) k = wf_envelopes s !! k;
  sn_sane r : r ∈ wr_receipts records → receipt_sane s r;
  sn_lines k : filter (λ r, solid r = true ∧ rc_key r = k) (wr_receipts records) = solid_lines s k;
  sn_consumed t k : DidConsume t k ∈ wf_trace s →
    ∃ r, r ∈ wr_receipts records ∧ rc_key r = k ∧ is_consumed (rc_stage r) = true;
}.

Lemma read_log_ok {A} (o : option (log A)) l :
  read_log o = Ok l → ∃ x, o = Some x ∧ lg_end x ≠ Broken ∧ l = lg_records x.
Proof. destruct o as [x|]; cbn; [|done]. destruct (lg_end x) eqn:Hx; intros [= <-]; exists x; rewrite Hx; done. Qed.

Lemma load_seen t s0 records s : Inv s0 → held t s0 s → loads (held t s0) records s → seen s0 records.
Proof.
  intros HI0 [_ Hq] [(s1 & [_ Hq1] & _ & Hsc) (s2 & [_ Hq2] & Henv) (s3 & rss & [_ Hq3] & HI3 & Hrc & Hrss)].
  assert (Forall2 (λ k rs, filter (λ r, solid r = true) rs = solid_lines s0 k ∧ (∀ r, r ∈ rs → rc_key r = k ∧ receipt_sane s0 r) ∧
    ∀ t k', k' = k → DidConsume t k' ∈ wf_trace s0 → ∃ r, r ∈ rs ∧ is_consumed (rc_stage r) = true)
    (in_path_order ".jsonl" (dom (wf_receipts s3))) rss) as Hrs.
  { eapply Forall2_impl; [exact Hrss|]. cbn. intros k rs (s4 & [_ Hq4] & HI4 & (l & Hl & Hend & ->)%read_log_ok).
    assert (log_of s4 k = l) as Hlog by (unfold log_of; by rewrite Hl). split_and!.
    - rewrite <- (qu_lines _ _ Hq4). unfold solid_lines. by rewrite Hlog.
    - intros r Hr. rewrite <- Hlog in Hr. destruct (fi_receipt _ _ _ HI4 _ _ Hr) as [Hk (e & He & Hs)]. split; [done|].
      exists e. by rewrite <- (qu_envelopes _ _ Hq4).
    - intros t' k' -> Hin. rewrite <- (qu_trace _ _ Hq4) in Hin.
      destruct (fi_did_consume _ _ _ HI4 _ _ Hin) as [_ [Hb|Hr]]; rewrite Hlog in *; done. }
  split.
  - by rewrite Hsc, (qu_scope _ _ Hq1).
  - intros k. rewrite (envelope_at_keys (wf_envelopes s0) (in_path_order ".json" (dom (wf_envelopes s2))) _ _ (in_path_order_nodup _ _)).
    2:{ eapply Forall2_impl; [exact Henv|]. cbn. intros k' e. by rewrite (qu_envelopes _ _ Hq). }
    case_decide as Hk; [done|]. rewrite elem_of_in_path_order, (qu_envelopes _ _ Hq2), not_elem_of_dom in Hk. done.
  - intros r Hr. rewrite Hrc in Hr. apply elem_of_concat in Hr as (rs & Hr & [i Hi]%list_elem_of_lookup).
    destruct (Forall2_lookup_r _ _ _ _ _ Hrs Hi) as (k & _ & _ & Hok & _). by apply Hok.
  - intros k. rewrite Hrc, (lines_of_keys (solid_lines s0) (in_path_order ".jsonl" (dom (wf_receipts s3)))).
    2:{ apply in_path_order_nodup. }
    2:{ eapply Forall2_impl; [exact Hrs|]. cbn. intros k' rs (Hf & Hok & _). split; [done|]. intros r Hr. by apply Hok. }
    case_decide as Hk; [done|]. rewrite elem_of_in_path_order, not_elem_of_dom in Hk.
    rewrite <- (qu_lines _ _ Hq3). unfold solid_lines, log_of. by rewrite Hk.
  - intros t' k Hin. assert (k ∈ in_path_order ".jsonl" (dom (wf_receipts s3))) as Hk.
    { rewrite elem_of_in_path_order, elem_of_dom. apply (fi_did_consume _ _ _ HI3 t'). by rewrite (qu_trace _ _ Hq3). }
    apply list_elem_of_lookup in Hk as [i Hi]. destruct (Forall2_lookup_l _ _ _ _ _ Hrs Hi) as (rs & Hrs' & _ & Hok & Hc).
    destruct (Hc t' k eq_refl Hin) as (r & Hr & Hcr). exists r. split_and!; [|by apply Hok|done].
    rewrite Hrc. apply elem_of_concat. exists rs. split; [done|]. by eapply list_elem_of_lookup_2.
Qed.

(** ** What a projection under the lock says *)

Record projected s (scope : work_scope) (p : work_projection) : Prop := {
  pj_budget : wp_budget p = sc_budget scope;
  pj_envelopes : ev_envelope <$> wp_envelopes p = wf_envelopes s;
  pj_clean : existsb is_corrupt (wp_findings p) = false;
  pj_fresh k v : wp_envelopes p !! k = Some v → ev_consumed v = None →
    consumptions (solid_lines s k) = [] ∧ ∀ t, DidConsume t k ∉ wf_trace s;
  pj_attempts k v a : wp_envelopes p !! k = Some v → a ≠ HarnessTurn →
    length (attempts_by v a) = length (attempts a (solid_lines s k));
}.

Lemma attempts_length a l :
  length (filter (λ x, av_adapter x = a) (omap attempt_of l)) = length (filter (λ r, attempted_by a r = true) l).
Proof.
  induction l as [|r l IH]; [done|]. cbn [omap list_omap]. rewrite (filter_cons _ r). unfold attempt_of at 1.
  case_decide as Hd; unfold attempted_by in Hd; destruct (rc_stage r) as [|b m o|b o|h rp n|]; try done; rewrite filter_cons; cbn.
  - apply bool_decide_eq_true in Hd as <-. rewrite decide_True by done. cbn. by rewrite IH.
  - apply not_true_is_false, bool_decide_eq_false in Hd. by rewrite decide_False by congruence.
Qed.

Lemma attempted_solid a r : a ≠ HarnessTurn → attempted_by a r = true → solid r = true.
Proof. unfold attempted_by, solid. destruct (rc_stage r) as [|b m o|b o|h rp n|]; try done. intros Ha Hb%bool_decide_eq_true. by destruct b. Qed.

Lemma seen_projected s records scope now p :
  Inv s → seen s records →
  fold_with_history scope (wr_history records) (wr_envelopes records) (wr_receipts records) now = Ok p → projected s scope p.
Proof.
  intros HI Hseen (current & earlier & _ & _ & _ & Hb & Hviews & Hfind)%fold_views.
  assert (∀ k v, wp_envelopes p !! k = Some v → ∃ e x b, wf_envelopes s !! k = Some e ∧ en_key e = k ∧
    v = described_view e x b (receipts_of e (wr_receipts records))) as Hview.
  { intros k v. rewrite Hviews, (sn_envelope _ _ Hseen). destruct (wf_envelopes s !! k) as [e|] eqn:He; [|done].
    intros [= <-]. eexists e, _, _. split_and!; [done|by apply (fi_key _ _ _ HI)|done]. }
  assert (∀ k e, wf_envelopes s !! k = Some e → en_key e = k →
    receipts_of e (wr_receipts records) = filter (λ r, rc_key r = k) (wr_receipts records)) as Hmine.
  { intros k e He Hk. unfold receipts_of. apply filter_agree. intros r Hr. rewrite Hk.
    destruct (sn_sane _ _ Hseen r Hr) as (e' & He' & Hd & _). split; [naive_solver|]. intros Hkr. split; [done|]. congruence. }
  split.
  - done.
  - apply map_eq. intros k. rewrite lookup_fmap, Hviews, (sn_envelope _ _ Hseen). by destruct (wf_envelopes s !! k).
  - apply not_true_is_false. intros (f & Hf & Hcf)%existsb_exists.
    apply list_elem_of_In, Hfind in Hf as [(e & _ & Hf)|(r & Hr & Hf)].
    + unfold envelope_findings in Hf. case_decide; [by apply elem_of_nil in Hf|].
      apply elem_of_cons in Hf as [->|Hf]; [done|]. destruct (recipient_bound_now _ _ _); [by apply elem_of_nil in Hf|].
      by apply list_elem_of_singleton in Hf as ->.
    + destruct (sn_sane _ _ Hseen r Hr) as (e & He & Hd & Hc). unfold receipt_finding in Hf.
      rewrite (sn_envelope _ _ Hseen), He, decide_False in Hf by (intros Hne; by apply Hne).
      destruct (is_consumed (rc_stage r)) eqn:Hcr; [|done]. by rewrite bool_decide_eq_true_2 in Hf by (by apply Hc).
  - intros k v Hv Hnone. destruct (Hview k v Hv) as (e & x & b & He & Hk & ->). cbn in Hnone.
    assert (∀ r, r ∈ wr_receipts records → rc_key r = k → is_consumed (rc_stage r) = false) as Hno.
    { intros r Hr Hkr. destruct (is_consumed (rc_stage r)) eqn:Hc; [|done]. exfalso.
      destruct (sn_sane _ _ Hseen r Hr) as (e' & He' & Hd & Ho). rewrite Hkr, He in He'. injection He' as <-.
      assert (is_Some (consumption_of e r)) as [n Hn].
      { unfold consumption_of. destruct (rc_stage r); try done. rewrite decide_True by (by apply Ho). eauto. }
      assert (n ∈ omap (consumption_of e) (receipts_of e (wr_receipts records))) as Hin.
      { apply list_elem_of_omap. exists r. split; [|done]. rewrite (Hmine k e He Hk). by apply list_elem_of_filter. }
      destruct (omap _ _); [by apply elem_of_nil in Hin|done]. }
    split.
    + unfold consumptions. apply list_filter_none. intros r Hr Hc. rewrite <- (sn_lines _ _ Hseen) in Hr.
      apply list_elem_of_filter in Hr as [[_ Hkr] Hr]. rewrite Hno in Hc; done.
    + intros t Hin. destruct (sn_consumed _ _ Hseen t k Hin) as (r & Hr & Hkr & Hc). rewrite Hno in Hc; done.
  - intros k v a Hv Ha. destruct (Hview k v Hv) as (e & x & b & He & Hk & ->). unfold attempts_by. cbn.
    rewrite attempts_length, (Hmine k e He Hk), <- (sn_lines _ _ Hseen). unfold attempts. rewrite !list_filter_filter.
    f_equal. apply filter_agree. intros r _. split; [|naive_solver]. intros [Hat Hkr]. split; [done|]. split; [|done].
    by eapply attempted_solid.
Qed.
End Mailbox.
