(* ===== verification/WorkCalls.v ===== *)
(** The calls on a work, one by one: what each does with the directory of the
    work while others run, and the properties of all interleavings. *)
From stdpp Require Import prelude gmap strings list relations pretty.
From Stdlib Require Import Ascii.
From S2P Require Import Prelude Text Ids Links Concurrent WorkMessage WorkStore WorkRuns.

Section Calls.
Context `{WorkText} (max_messages max_bytes : N).
Implicit Types (t : nat) (s : work_files).

#[local] Abbreviation Inv := (files_inv max_messages max_bytes).
#[local] Hint Extern 0 (Machine _ work_files _) => exact (machine max_messages max_bytes) : typeclass_instances.
#[local] Abbreviation Stable t P := (stable Inv work_does t P).
#[local] Abbreviation Wp t p Q := (wp Inv work_does t p Q).

(** ** What lasts *)

(** Errors of files and of checks; evidence that contradicts itself is the one
    that never comes. *)
Definition harmless (e : work_store_error) : Prop := e ≠ CorruptEvidence.

Lemma file_harmless f : harmless (file_error f).
Proof. by destruct f. Qed.
#[local] Hint Resolve file_harmless : core.

(** What no step of anybody undoes. *)
Definition lasting (F : work_files → Prop) : Prop := ∀ t s s', F s → work_does t s s' → F s'.

Lemma lasting_stable t F : lasting F → Stable t F.
Proof. intros HF s s' Hs [_ (t' & _ & Hd)]%rely_work. by eapply HF. Qed.

Lemma lasting_pure (φ : Prop) : lasting (λ _, φ).
Proof. by intros ?. Qed.

Lemma lasting_and (F F' : work_files → Prop) : lasting F → lasting F' → lasting (λ s, F s ∧ F' s).
Proof. intros HF HF' t s s' [? ?] Hd. split; [by eapply HF|by eapply HF']. Qed.

Lemma lasting_all {X} (P : X → Prop) (F : X → work_files → Prop) :
  (∀ x, lasting (F x)) → lasting (λ s, ∀ x, P x → F x s).
Proof. intros HF t s s' Hs Hd x Hx. eapply HF; [by apply Hs|done]. Qed.

Lemma lasting_envelope k e : lasting (λ s, wf_envelopes s !! k = Some e).
Proof. intros t s s' Hs Hd. by apply (wd_envelope _ _ _ Hd). Qed.

Lemma lasting_payload d b : lasting (λ s, wf_payloads s !! d = Some b).
Proof. intros t s s' Hs Hd. by apply (wd_payload _ _ _ Hd). Qed.

Lemma lasting_event ev : lasting (λ s, ev ∈ wf_trace s).
Proof. intros t s s' Hs Hd. by apply (wd_trace _ _ _ Hd). Qed.
#[local] Hint Resolve lasting_pure lasting_and lasting_envelope lasting_payload lasting_event : core.

(** A call carries along what lasts. *)
Lemma lasting_frame {B} t (p : prog work_op B) Q F s :
  lasting F → F s → Wp t p Q s → Wp t p (λ b s, Q b s ∧ F s) s.
Proof. intros HF. apply wp_frame; [by apply lasting_stable|]. intros s1 s2. apply HF. Qed.

(** The postcondition of a call: what lasts after an answer. *)
Definition after {B} (F : B → work_files → Prop) (r : answer B) s : Prop :=
  match r with Ok b => F b s | Err e => harmless e end.

Lemma after_err {B} (F : B → work_files → Prop) e s : harmless e → after F (Err e) s.
Proof. done. Qed.

Lemma same_core_does s s' : same_core s s' → work_does (S (default 0 (wf_lock s))) (set_lock s None) s'.
Proof.
  intros [? He Hp Hr Ht]. split; cbn; [done| |congruence..].
  right. split; cbn; try done. intros k. unfold solid_lines, log_of. cbn. by rewrite Hr.
Qed.

Lemma lasting_core F s s' : lasting F → F s → same_core s s' → F s'.
Proof.
  intros HF Hs Hc. eapply (HF (S (default 0 (wf_lock s)))); [|by apply same_core_does].
  eapply (HF (default 0 (wf_lock s))); [exact Hs|]. split; try done.
  - intros t' Hne Hl. rewrite Hl in Hne. done.
  - right. by split.
Qed.

(** An operation under the lock. *)
Lemma locked_wp t {A} (operation : prog work_op (answer A)) (F : A → work_files → Prop) s :
  (∀ a, lasting (F a)) → (∀ s, Inv s → wf_lock s = Some t → Wp t operation (after F) s) →
  Wp t (with_lock operation) (after F) s.
Proof.
  intros HF Hop. apply with_lock_wp.
  - intros [a|e] s1 s2 _ Hs Hc; [exact (lasting_core (F a) _ _ (HF a) Hs Hc)|done].
  - intros [a|e]; [exact (lasting_stable t (F a) (HF a))|by intros ?].
  - intros f s1. apply after_err. auto.
  - done.
Qed.

(** ** Steps under the lock *)

Lemma held_lock t s0 s : held t s0 s → wf_lock s = Some t.
Proof. by intros []. Qed.

Lemma held_envelope t s0 s : held t s0 s → wf_envelopes s = wf_envelopes s0.
Proof. intros [_ Hq]. apply Hq. Qed.

Lemma held_quiet t s0 s s' : held t s0 s → quiet s s' → wf_lock s' = wf_lock s → held t s0 s'.
Proof. intros [Hl Hq] Hq' Hl'. split; [congruence|by eapply quiet_trans]. Qed.

Lemma read_payload_wp t e (P : work_files → Prop) (Q : answer string → work_files → Prop) s :
  Stable t P → P s →
  (∀ b s, P s → wf_payloads s !! en_payload_digest e = Some b → hash_of_bytes b = en_payload_digest e →
     N.of_nat (String.length b) = en_payload_bytes e → Q (Ok b) s) →
  (∀ err s, P s → harmless err → Q (Err err) s) → Wp t (read_payload e) Q s.
Proof.
  intros HP Hs Hok Herr. unfold read_payload.
  apply (read_wp max_messages max_bytes t (ReadPayload (en_payload_digest e)) (λ s, found (wf_payloads s !! en_payload_digest e)) _ P); [done..| | |].
  - intros err s1. cbn. destruct (_ !! en_payload_digest e); cbn; [done|]. intros [= <-]. by exists IoFault.
  - intros b s1 Hs1 HI Hb. unfold found in Hb. destruct (wf_payloads s1 !! _) as [b'|] eqn:Hb'; simplify_eq.
    change (Q (if decide (N.of_nat (String.length b) = en_payload_bytes e ∧ hash_of_bytes b = en_payload_digest e)
               then Ok b else Err ExistingPayloadMismatch) s1).
    case_decide as Hc; [apply Hok; naive_solver|by apply Herr].
  - intros f s1 Hs1. by apply Herr.
Qed.

(** A file that is created or compared, [put_payload] and [put_note]. *)
Lemma create_or_compare_wp t s0 d (make : work_op (answer bool)) (look : work_op (answer string))
    (m : work_files → gmap string string) (b : string) (put : work_files → gmap string string → work_files)
    (Q : answer () → work_files → Prop) s :
  (∀ c s, work_exec_op c t make s = create c (m s) d b (put s) s) →
  (∀ c s, work_exec_op c t look s = reading c (found (m s !! d)) s) →
  (∀ s, Inv s → wf_lock s = Some t → m s !! d = None → Inv (put s (<[d := b]> (m s))) ∧ work_does t s (put s (<[d := b]> (m s))) ∧
     quiet s (put s (<[d := b]> (m s))) ∧ wf_lock (put s (<[d := b]> (m s))) = wf_lock s) →
  held t s0 s → (∀ s, held t s0 s → Q (Ok ()) s) → (∀ e s, harmless e → Q (Err e) s) →
  Wp t (try (call make) id (λ created : bool, if created then mret (Ok ())
        else try (call look) id (λ existing, mret (if decide (hash_of_bytes existing ≠ d) then Err ExistingPayloadMismatch else Ok ())))) Q s.
Proof.
  intros Hmake Hlook Hput Hh Hok Herr. eapply wp_try_call; [apply (work_held_stable max_messages max_bytes t s0)|exact Hh|].
  clear s Hh. intros s1 c r s2 Hh HI He. cbn [exec machine work_machine] in He. rewrite Hmake in He.
  apply create_inv in He as [[-> Hr]|(Hfree & -> & Hr)].
  - destruct (same_ok _ _ t s1 HI). split_and!; [done..|]. destruct r as [[]|e]; [by destruct Hr as [[? ?]|[? _]]| |].
    + apply (read_wp max_messages max_bytes t look (λ s, found (m s !! d)) _ (held t s0)); [done|apply work_held_stable|done| | |].
      * intros err s3. cbn. destruct (m s3 !! d); cbn; [done|]. intros [= <-]. by exists IoFault.
      * intros b' s3 Hh3 _ _. cbn. case_decide; [by apply Herr|by apply Hok].
      * intros f s3 _. by apply Herr.
    + destruct Hr as [[f [= ->]]|[? _]]; [|done]. apply Herr, file_harmless.
  - destruct (Hput s1 HI (proj1 Hh) Hfree) as (? & ? & Hq & Hl). split_and!; [done..|].
    assert (held t s0 (put s1 (<[d := b]> (m s1)))) as Hh2 by (by eapply held_quiet).
    destruct Hr as [->|[f ->]]; [by apply Hok|apply Herr, file_harmless].
Qed.

Lemma put_payload_wp t s0 d b (Q : answer () → work_files → Prop) s :
  held t s0 s → (∀ s, held t s0 s → Q (Ok ()) s) → (∀ e s, harmless e → Q (Err e) s) →
  Wp t (put_payload d b) Q s.
Proof.
  intros Hh Hok Herr. unfold put_payload. case_decide as Hd; [by apply Herr|].
  apply (create_or_compare_wp t s0 d _ _ wf_payloads b set_payloads); try done. intros s1 HI Hl Hfree.
  destruct (payload_step _ _ t s1 d b HI Hl Hd Hfree). split_and!; [done..|by split|done].
Qed.

Lemma put_note_wp t s0 d b (Q : answer () → work_files → Prop) s :
  held t s0 s → (∀ s, held t s0 s → Q (Ok ()) s) → (∀ e s, harmless e → Q (Err e) s) →
  Wp t (put_note d b) Q s.
Proof.
  intros Hh Hok Herr. unfold put_note. case_decide; [by apply Herr|].
  apply (create_or_compare_wp t s0 d _ _ wf_notes b set_notes); try done. intros s1 HI Hl Hfree.
  destruct (plain_ok _ _ t s1 (set_notes s1 (<[d := b]> (wf_notes s1))) HI); [by split|done|]. split_and!; [done..|by split|done].
Qed.

(** An append, with or without the lock. *)
Lemma append_wp t {B F} r (h : work_store_error → F) (k : () → prog work_op (result F B)) (P : work_files → Prop) Q s :
  Stable t P → P s → (∀ s, P s → Inv s → appendable s r ∧ (solid r = false ∨ wf_lock s = Some t)) →
  (∀ s, P s → Inv s → Wp t (k ()) Q (appended t s r WholeLine)) →
  (∀ f s, Q (Err (h (file_error f))) s) →
  Wp t (try (call (AppendReceipt r)) h k) Q s.
Proof.
  intros HP Hs Hap Hok Herr. eapply wp_try_call; [exact HP|exact Hs|]. intros s1 c x s2 HPs HI He. cbn in He.
  destruct (Hap s1 HPs HI) as [Ha Hw].
  apply append_inv in He as [[-> [f ->]]|[-> Hx]].
  - destruct (same_ok _ _ t s1 HI). by split_and!.
  - destruct (appended_ok _ _ t s1 r (ci_append c) HI Ha Hw). split_and!; [done..|].
    destruct Hx as [[-> ->]|[f ->]]; [by apply Hok|done].
Qed.

(** ** Projections and pages *)

(** A load under the lock. *)
Lemma locked_load_wp t s0 Q s :
  Inv s0 → held t s0 s → (∀ records s, held t s0 s → seen s0 records → Q (Ok records) s) →
  (∀ e s, harmless e → Q (Err e) s) → Wp t load_all Q s.
Proof.
  intros HI0 Hh Hok Herr. apply (load_all_wp _ _ t (held t s0)); [apply work_held_stable|done| |].
  - intros records s1 Hh1 Hl. apply Hok; [done|]. by eapply load_seen.
  - intros f s1 _. apply Herr, file_harmless.
Qed.

Lemma current_projection_wp t s0 caller rev now Q s :
  Inv s0 → held t s0 s → (∀ scope p s, held t s0 s → projected s0 scope p → Q (Ok p) s) →
  (∀ e s, harmless e → Q (Err e) s) → Wp t (current_projection caller rev now) Q s.
Proof.
  intros HI0 Hh Hok Herr. unfold current_projection. apply wp_try.
  apply (locked_load_wp t s0); [done..| |done]. clear s Hh. intros records s Hh Hseen.
  assert (∀ e, harmless e → Wp t (mret (Err e)) Q s) as Hno by (intros; by apply Herr).
  destruct (wr_scope records) as [scope|]; [|by apply Hno].
  case_decide; [by apply Hno|]. case_decide; [by apply Hno|].
  destruct (revision scope) as [current|e]; [|by apply Hno]. case_decide; [by apply Hno|].
  destruct (fold_with_history _ _ _ _ _) as [p|e] eqn:Hf; [|by apply Hno].
  pose proof (seen_projected _ _ _ _ _ _ _ HI0 Hseen Hf) as Hp. cbn. rewrite (pj_clean _ _ _ Hp). by eapply Hok.
Qed.

(** An envelope that an adapter may deliver. *)
Record offered s (a : delivery_adapter) (seat : string) (e : envelope) : Prop := {
  of_stored : wf_envelopes s !! en_key e = Some e;
  of_recipient : en_recipient e = seat;
  of_attempts : a ≠ HarnessTurn → (N.of_nat (length (attempts a (solid_lines s (en_key e)))) < en_max_delivery_attempts e)%N;
}.

Lemma NoDup_fmap_filter {X Y} (f : X → Y) (P : X → Prop) `{!∀ x, base.Decision (P x)} l :
  NoDup (f <$> l) → NoDup (f <$> filter P l).
Proof.
  induction l as [|x l IH]; [done|]. rewrite fmap_cons, NoDup_cons, filter_cons. intros [Hx Hl]. case_decide; [|by apply IH].
  rewrite fmap_cons. constructor; [|by apply IH]. intros (y & Hy & [_ Hin]%list_elem_of_filter)%list_elem_of_fmap.
  apply Hx, list_elem_of_fmap. eauto.
Qed.

Lemma deliverable_offered s scope p seat a now :
  Inv s → projected s scope p →
  NoDup (en_key <$> deliverable p seat a now) ∧ ∀ e, e ∈ deliverable p seat a now → offered s a seat e.
Proof.
  intros HI Hp.
  assert (∀ k v, wp_envelopes p !! k = Some v → wf_envelopes s !! k = Some (ev_envelope v) ∧ en_key (ev_envelope v) = k) as Hkey.
  { intros k v Hv. assert (wf_envelopes s !! k = Some (ev_envelope v)) as He
      by (by rewrite <- (pj_envelopes _ _ _ Hp), lookup_fmap, Hv). split; [done|]. by apply (fi_key _ _ _ HI). }
  split.
  - unfold deliverable. rewrite <- list_fmap_compose. apply NoDup_fmap_filter. unfold values_in_order.
    apply (values_nodup (en_key ∘ ev_envelope)); [apply btree_iter_NoDup|by intros k; rewrite elem_of_btree_iter, elem_of_dom|].
    cbn. intros k k' v v' _ _ Hv Hv' Heq. destruct (Hkey _ _ Hv), (Hkey _ _ Hv'). congruence.
  - intros e (v & -> & [Hm Hv]%list_elem_of_filter)%list_elem_of_fmap. apply elem_of_values in Hv as [k Hv].
    destruct (Hkey k v Hv) as [Hs Hk]. unfold may_offer in Hm.
    apply andb_prop in Hm as [Hm Hc]. apply andb_prop in Hc as [Hc _]. apply andb_prop in Hc as [_ Hc].
    do 4 apply andb_prop in Hm as [Hm _]. apply bool_decide_eq_true in Hm, Hc. split; [by rewrite Hk|done|].
    intros Ha. by rewrite Hk, <- (pj_attempts _ _ _ Hp k v a Hv Ha).
Qed.

Lemma offered_quiet s s' a seat e : offered s a seat e → quiet s s' → offered s' a seat e.
Proof. intros [? ? ?] Hq. split; [by rewrite (qu_envelopes _ _ Hq)|done|]. by rewrite (qu_lines _ _ Hq). Qed.

(** A receipt of a delivery of an offered envelope. *)
Lemma attempt_appendable s a seat e st now m o c :
  offered s a seat e → st = DeliveryAttempted a m o ∨ st = ContextDelivered a c →
  appendable s (for_envelope e (AdapterObserver a) now st).
Proof.
  intros [He Hr Ha] Hst. split; cbn.
  - exists e. split_and!; [done..|]. by destruct Hst as [-> | ->].
  - by destruct Hst as [-> | ->].
  - intros e' a'. rewrite He. intros [= <-] Hat. unfold attempted_by in Hat. cbn in Hat.
    destruct Hst as [-> | ->]; [|done]. apply bool_decide_eq_true in Hat as ->. done.
Qed.

Lemma offered_append t s r w a seat e : offered s a seat e → rc_key r ≠ en_key e ∨ solid r = false → offered (appended t s r w) a seat e.
Proof.
  intros [? ? Ha] Hr. split; [done..|]. destruct (appended_lines t s r w (en_key e)) as [->|(Hk & Hs & _)]; [done|].
  exfalso. destruct Hr as [?|?]; congruence.
Qed.

Lemma record_deliveries_wp t a seat m c now es Q s :
  wf_lock s = Some t → NoDup (en_key <$> es) → (∀ e, e ∈ es → offered s a seat e) →
  (∀ s, Q (Ok ()) s) → (∀ e s, harmless e → Q (Err e) s) →
  Wp t (record_deliveries a m c now es) Q s.
Proof.
  intros Hl Hnd Hes Hok Herr. revert s Hl Hes. induction es as [|e es IH]; intros s Hl Hes; cbn [record_deliveries]; [apply Hok|].
  apply NoDup_cons in Hnd as [Hnot Hnd]. specialize (IH Hnd).
  assert (∀ e', e' ∈ es → en_key e ≠ en_key e') as Hne by (intros e' He' Heq; apply Hnot; rewrite Heq; by apply list_elem_of_fmap_2).
  assert (∀ e' s1, held t s s1 → e' ∈ e :: es → offered s1 a seat e') as Hof by (intros e' s1 [_ Hq] He'; by eapply offered_quiet; [apply Hes|]).
  apply (append_wp t _ id _ (held t s)); [apply work_held_stable|by apply held_refl| | |by intros; apply Herr, file_harmless].
  - intros s1 Hh HI. split; [|right; by eapply held_lock]. apply (attempt_appendable s1 a seat e _ now m Submitted hook_context); [apply Hof; [done|left]|by left].
  - intros s1 Hh _. set (s2 := appended t s1 _ _).
    assert (∀ e', e' ∈ es → offered s2 a seat e') as Hes2
      by (intros e' He'; apply offered_append; [apply Hof; [done|by right]|left; by apply Hne]).
    assert (wf_lock s2 = Some t) as Hl2 by exact (held_lock _ _ _ Hh).
    destruct c as [o|]; [|by apply IH].
    assert (receipt_sane s2 (for_envelope e (AdapterObserver a) now (ContextDelivered a o))) as Hsane
      by (exists e; split_and!; [apply (of_stored _ _ _ _ (Hof e s1 Hh ltac:(left)))|done..]).
    apply (append_wp t _ id _ (held t s2)); [apply work_held_stable|by apply held_refl| | |by intros; apply Herr, file_harmless].
    + intros s3 [Hl3 Hq3] HI. split; [|by left]. split; [|done..]. destruct Hsane as (e' & He' & ?). exists e'.
      by rewrite (qu_envelopes _ _ Hq3).
    + intros s3 [Hl3 Hq3] _. apply IH; [done|]. intros e' He'. apply offered_append; [|by right].
      by eapply offered_quiet; [apply Hes2|].
Qed.

(** What a member is given: the envelope is stored and so are these bytes. *)
Record kept s (seat : string) (e : envelope) (payload : string) : Prop := {
  kp_envelope : wf_envelopes s !! en_key e = Some e;
  kp_recipient : en_recipient e = seat;
  kp_payload : wf_payloads s !! en_payload_digest e = Some payload;
  kp_digest : hash_of_bytes payload = en_payload_digest e;
  kp_bytes : N.of_nat (String.length payload) = en_payload_bytes e;
}.

Lemma lasting_kept seat e payload : lasting (λ s, kept s seat e payload).
Proof.
  intros t s s' [He Hr Hp Hd Hb] Hw. split; [by apply (wd_envelope _ _ _ Hw)|done|by apply (wd_payload _ _ _ Hw)|done..].
Qed.

Lemma choose_page_wp t s0 {X} (include : X → pulled_message → answer page_decision * X) x m b a seat es page Q s :
  (∀ x m, (include x m).1 ≠ Err CorruptEvidence) → held t s0 s →
  (∀ e, e ∈ es → offered s0 a seat e) → (∀ x, x ∈ bp_messages page → kept s seat (pm_envelope x) (pm_payload x)) →
  (∀ page' s, held t s0 s → (pm_envelope <$> bp_messages page') `sublist_of` (pm_envelope <$> bp_messages page) ++ es →
     (∀ x, x ∈ bp_messages page' → kept s seat (pm_envelope x) (pm_payload x)) → Q (Ok page') s) →
  (∀ e s, harmless e → Q (Err e) s) →
  Wp t (choose_page include x m b es page) Q s.
Proof.
  intros Hinc. revert x page s. induction es as [|e es IH]; intros x page s Hh Hes Hpage Hok Herr; cbn [choose_page].
  { apply Hok; [done| |done]. by rewrite app_nil_r. }
  assert (∀ page' : bounded_pull, (pm_envelope <$> bp_messages page') `sublist_of` (pm_envelope <$> bp_messages page) ++ es →
    (pm_envelope <$> bp_messages page') `sublist_of` (pm_envelope <$> bp_messages page) ++ e :: es) as Hskip
    by (intros page' Hs; etrans; [exact Hs|]; apply sublist_app; [done|by apply sublist_cons]).
  destruct (_ || _); [apply Hok; [done|by apply sublist_inserts_r|done]|].
  case_decide.
  { apply (IH x _ s); [done|intros e' He'; apply Hes; by right|done| |done]. intros page' s1 Hh1 Hs1 Hp1. apply Hok; [done|by apply Hskip|done]. }
  apply wp_try. set (F s := ∀ x, x ∈ bp_messages page → kept s seat (pm_envelope x) (pm_payload x)).
  assert (lasting F) as HF by (apply lasting_all; intros; apply lasting_kept).
  apply (read_payload_wp t e (λ s, held t s0 s ∧ F s)); [by apply held_with_stable, lasting_stable|done| |by intros; apply Herr].
  intros payload s1 [Hh1 Hp1] Hb Hd Hlen.
  assert (kept s1 seat e payload) as Hk.
  { pose proof (Hes e ltac:(left)) as Ho. split; [|apply Ho|done..]. rewrite (held_envelope _ _ _ Hh1). apply Ho. }
  pose proof (Hinc x (PulledMessage e payload)) as Hx. destruct (include x (PulledMessage e payload)) as [[[]|err] x'].
  - apply (IH x' _ s1); [done|intros e' He'; apply Hes; by right| | |done].
    + cbn. intros y [Hy|Hy%list_elem_of_singleton]%elem_of_app; [by apply Hp1|by subst y].
    + cbn. intros page' s2 Hh2 Hs2 Hp2. apply Hok; [done| |done]. by rewrite fmap_app, <- app_assoc in Hs2.
  - apply Hok; [done|by apply sublist_inserts_r|done].
  - apply (IH x' _ s1); [done|intros e' He'; apply Hes; by right|done| |done]. intros page' s2 Hh2 Hs2 Hp2. apply Hok; [done|by apply Hskip|done].
  - apply Herr. cbn in Hx. intros ->. done.
Qed.

(** ** Submissions *)

Hypothesis Hmessages : (max_messages ≤ u32_max)%N.
Hypothesis Hbytes : (max_bytes < u64_max)%N.

Definition submitted t (d : admission) s : Prop :=
  match d with
  | Admit e => wf_envelopes s !! en_key e = Some e ∧ DidAdmit t (en_key e) ∈ wf_trace s
  | Duplicate e => wf_envelopes s !! en_key e = Some e
  end.

Lemma lasting_submitted t d : lasting (submitted t d).
Proof. destruct d; [apply lasting_and; auto|apply lasting_envelope]. Qed.

(** The line of an admission, whoever writes it. *)
Lemma admitted_append_wp t e observer now (d : admission) s :
  wf_lock s = Some t → wf_envelopes s !! en_key e = Some e → submitted t d s →
  Wp t (try (call (AppendReceipt (for_envelope e observer now StageAdmitted))) id (λ _, mret (Ok d))) (after (submitted t)) s.
Proof.
  intros Hl He Hd. apply (append_wp t _ id _ (λ s', held t s s' ∧ submitted t d s')).
  - apply held_with_stable, lasting_stable, lasting_submitted.
  - split; [by apply held_refl|done].
  - intros s1 [Hh _] HI. split; [|right; by eapply held_lock]. split; [|done..]. exists e. cbn.
    by rewrite (held_envelope _ _ _ Hh).
  - intros s1 [Hh Hd1] HI. destruct d; cbn in *; [destruct Hd1; split; [done|]|done]. apply elem_of_app. by left.
  - intros f s1. apply after_err, file_harmless.
Qed.

Lemma put_envelope_wp t s0 e Q s :
  held t s0 s → wf_envelopes s0 !! en_key e = None →
  (N.of_nat (length (sent_by (wf_envelopes s0) (en_sender e))) + 1 ≤ max_messages)%N →
  (bytes_of (sent_by (wf_envelopes s0) (en_sender e)) + en_payload_bytes e ≤ max_bytes)%N →
  (∀ s, wf_lock s = Some t → wf_envelopes s !! en_key e = Some e → DidAdmit t (en_key e) ∈ wf_trace s → Q (Ok Created) s) →
  (∀ e s, harmless e → Q (Err e) s) →
  Wp t (put_envelope e) Q s.
Proof.
  intros Hh Hfree Hm Hb Hok Herr. unfold put_envelope. apply wp_try.
  apply (read_payload_wp t e (held t s0)); [apply work_held_stable|done| |by intros; apply Herr].
  clear s Hh. intros bytes s Hh Hp Hd Hlen.
  eapply (wp_try_call _ _ t _ id _ _ (λ s, held t s0 s ∧ payload_kept s e));
    [apply held_with_stable, payload_kept_stable|split; [done|by exists bytes]|].
  clear s Hh Hp. intros s c r s2 [Hh Hk] HI He. cbn in He.
  assert (wf_envelopes s !! en_key e = None) as Hno by (by rewrite (held_envelope _ _ _ Hh)).
  apply create_inv in He as [[-> [[f ->]|[_ [x Hx]]]]|(_ & -> & Hr)]; [| congruence |].
  - destruct (same_ok _ _ t s HI). split_and!; [done..|]. apply Herr, file_harmless.
  - destruct (envelope_step _ _ t s e HI (held_lock _ _ _ Hh) Hno Hk) as [HI2 Hd2]; [by rewrite (held_envelope _ _ _ Hh)..|].
    split_and!; [done..|]. destruct Hr as [->|[f ->]]; [|apply Herr, file_harmless]. apply Hok; cbn.
    + by eapply held_lock.
    + by rewrite lookup_insert_eq.
    + apply elem_of_app. right. by apply list_elem_of_singleton.
Qed.

Lemma commit_admission_wp t s0 scope p sub now records d bytes s :
  Inv s0 → held t s0 s → projected s0 scope p → wf_scope s0 = Some scope → admit_submission scope p sub now = Ok d →
  Wp t (commit_admission records d bytes now) (after (submitted t)) s.
Proof.
  intros HI0 Hh Hp Hsc Ha. pose proof (admit_cases scope p sub now) as Hc. rewrite Ha in Hc. destruct d as [e|e].
  - destruct Hc as [_ Hn]. cbn [commit_admission]. pose proof (nm_envelope _ _ _ _ _ Hn) as He.
    assert (en_key e = submission_key sub ∧ en_sender e = su_sender sub ∧ en_payload_bytes e = su_payload_bytes sub)
      as (Hkey & Hsender & Hpb) by (by rewrite He).
    apply wp_try. apply (put_payload_wp t s0); [done| |by intros; apply after_err].
    clear s Hh. intros s Hh. apply wp_try.
    assert (wf_envelopes s0 !! en_key e = None) as Hfree.
    { rewrite <- (pj_envelopes _ _ _ Hp), lookup_fmap, Hkey. by rewrite (nm_free _ _ _ _ _ Hn). }
    destruct (fi_scope _ _ _ HI0 _ Hsc) as [Hm Hb].
    pose proof (nm_messages _ _ _ _ _ Hn) as Hm1. pose proof (nm_bytes _ _ _ _ _ Hn) as Hb1.
    rewrite (usage_sent p _ _ (pj_envelopes _ _ _ Hp)) in Hm1, Hb1. cbn [us_messages us_bytes] in Hm1, Hb1.
    apply (put_envelope_wp t s0); [done|done| | | |by intros; apply after_err].
    + rewrite Hsender. clear - Hm Hm1 Hmessages. lia.
    + rewrite Hsender, Hpb. clear - Hb Hb1 Hbytes. lia.
    + clear s Hh. intros s Hl Hs Ht. by apply admitted_append_wp.
  - destruct Hc as (_ & v & Hv & -> & _). cbn [commit_admission]. set (e := ev_envelope v).
    assert (wf_envelopes s0 !! en_key e = Some e) as He.
    { assert (wf_envelopes s0 !! submission_key sub = Some e) as He by (by rewrite <- (pj_envelopes _ _ _ Hp), lookup_fmap, Hv).
      by rewrite (fi_key _ _ _ HI0 _ _ He). }
    apply wp_try. apply (read_payload_wp t e (held t s0)); [apply work_held_stable|done| |by intros; apply after_err].
    clear s Hh. intros b s Hh _ _ _.
    assert (wf_envelopes s !! en_key e = Some e) as Hes by (by rewrite (held_envelope _ _ _ Hh)).
    destruct (existsb _ _); [done|]. by apply admitted_append_wp; [eapply held_lock|..].
Qed.

Lemma submit_wp t sub bytes now s : Wp t (submit sub bytes now) (after (submitted t)) s.
Proof.
  unfold submit. case_decide; [done|]. apply locked_wp; [apply lasting_submitted|]. clear s. intros s HI Hl.
  apply wp_try. apply (locked_load_wp t s); [done|by apply held_refl| |by intros; apply after_err].
  intros records s1 Hh Hseen. destruct (wr_scope records) as [scope|] eqn:Hsc; [|done].
  destruct (fold_with_history _ _ _ _ _) as [p|e] eqn:Hf; [|done].
  pose proof (seen_projected _ _ _ _ _ _ _ HI Hseen Hf) as Hp. rewrite (pj_clean _ _ _ Hp).
  destruct (admit_submission scope p sub now) as [d|e] eqn:Ha; [|done].
  eapply commit_admission_wp; [exact HI|done|done| |done]. by rewrite <- (sn_scope _ _ Hseen).
Qed.

(** ** Declarations, pages and reports *)

Lemma declare_wp t scope s :
  (max_messages_per_seat (sc_budget scope) ≤ max_messages)%N → (max_bytes_per_seat (sc_budget scope) ≤ max_bytes)%N →
  Wp t (declare scope) (after (λ _ _, True)) s.
Proof.
  intros Hm Hb. unfold declare. destruct (scope_validate scope); [|done]. destruct (revision scope) as [rev|]; [|done].
  apply locked_wp; [intros; apply lasting_pure|]. clear s. intros s HI Hl.
  eapply (wp_try_call _ _ t _ id _ _ (held t s)); [apply work_held_stable|by apply held_refl|].
  intros s1 c r s2 Hh HI1 He. cbn in He.
  assert (s2 = s1 ∨ s2 = set_scopes s1 (<[rev := scope]> (wf_scopes s1))) as Hs2 by (apply create_inv in He; naive_solver).
  assert (∀ e, r = Err e → harmless e) as Hr.
  { apply create_inv in He as [[_ [[f ->]|[-> _]]]|(_ & _ & [->|[f ->]])]; intros e [= <-]; apply file_harmless. }
  destruct (plain_ok _ _ t s1 s2 HI1) as [HI2 Hd2]; [by destruct Hs2 as [-> | ->]..|]. split_and!; [done..|].
  assert (held t s s2) as Hh2 by (eapply held_quiet; [exact Hh|by destruct Hs2 as [-> | ->]..]).
  destruct r as [b|e]; [|by apply Hr]. clear He Hs2 Hr HI1 HI2 Hd2 Hh.
  eapply (wp_try_call _ _ t _ id _ _ (held t s)); [apply work_held_stable|exact Hh2|]. clear Hh2 s1 s2 c.
  intros s1 c r s2 Hh HI1 He. cbn in He. apply file_writing_inv in He as [[-> [f ->]]|[-> Hr]].
  - destruct (same_ok _ _ t s1 HI1). split_and!; [done..|]. apply after_err, file_harmless.
  - destruct (scope_step _ _ t s1 scope HI1 (held_lock _ _ _ Hh) Hm Hb). split_and!; [done..|].
    destruct Hr as [->|[f ->]]; [done|]. apply after_err, file_harmless.
Qed.

Definition pulled (seat : string) (page : bounded_pull) s : Prop :=
  ∀ x, x ∈ bp_messages page → kept s seat (pm_envelope x) (pm_payload x).

Lemma lasting_pulled seat page : lasting (pulled seat page).
Proof. apply lasting_all. intros x. apply lasting_kept. Qed.

Lemma pull_wp t {X} (include : X → pulled_message → answer page_decision * X) x m b caller q now s :
  (∀ x m, (include x m).1 ≠ Err CorruptEvidence) →
  Wp t (pull_bounded include x m b caller q now) (after (pulled (cl_seat caller))) s.
Proof.
  intros Hinc. unfold pull_bounded. apply locked_wp; [apply lasting_pulled|]. clear s. intros s HI Hl.
  apply wp_try. apply (current_projection_wp t s); [done|by apply held_refl| |by intros; apply after_err].
  intros scope p s1 Hh1 Hp. destruct (deliverable_offered s scope p (cl_seat caller) (pq_adapter q) now HI Hp) as [Hnd Hof].
  apply wp_try. eapply (choose_page_wp t s); [done|done|exact Hof|by intros y ?%elem_of_nil| |by intros; apply after_err].
  intros page s2 Hh2 Hsub Hpg. cbn in Hsub. destruct (pq_peek q); [done|].
  apply wp_try. eapply wp_mono; [|apply (lasting_frame t _ (after (λ _ _, True)) (pulled (cl_seat caller) page)); [apply lasting_pulled|done|]].
  - intros [[]|e] s3 [He Hs3]; done.
  - apply (record_deliveries_wp t _ (cl_seat caller)); [by eapply held_lock| | |done|done].
    + eapply sublist_NoDup; [exact Hnd|]. by apply fmap_sublist.
    + intros e He. eapply offered_quiet; [apply Hof|apply Hh2]. eapply elem_of_sublist; [done|]. done.
Qed.

Definition reported t (o : acknowledge_outcome) s : Prop :=
  match o with
  | Recorded r => DidConsume t (rc_key r) ∈ wf_trace s ∧ receipt_sane s r ∧ is_consumed (rc_stage r) = true
  | AlreadyRecorded => True
  end.

Lemma lasting_sane r : lasting (λ s, receipt_sane s r).
Proof. intros t s s' (e & He & Hr) Hd. exists e. split; [by apply (wd_envelope _ _ _ Hd)|done]. Qed.

Lemma lasting_reported t o : lasting (reported t o).
Proof. destruct o; [|by intros ?]. apply lasting_and; [auto|]. apply lasting_and; [apply lasting_sane|auto]. Qed.

Lemma accept_fresh s scope p seat key how reply note now r :
  Inv s → projected s scope p → accept_consumption p seat key how reply note now = Ok (Record_ r) →
  is_consumed (rc_stage r) = true ∧ appendable s r.
Proof.
  intros HI Hp. unfold accept_consumption. destruct (wp_envelopes p !! key) as [v|] eqn:Hv; [|done].
  case_decide as Hs; [done|]. destruct (ev_consumed v) eqn:Hc; [done|]. destruct (match reply with Some r => _ | None => false end); [done|].
  intros [= <-]. split; [done|].
  assert (wf_envelopes s !! key = Some (ev_envelope v)) as He by (by rewrite <- (pj_envelopes _ _ _ Hp), lookup_fmap, Hv).
  assert (en_key (ev_envelope v) = key) as Hk by (by apply (fi_key _ _ _ HI)).
  split; cbn; rewrite ?Hk; [| |done].
  - exists (ev_envelope v). cbn. rewrite Hk. split_and!; [done..|]. intros _. by f_equal.
  - intros _. by apply (pj_fresh _ _ _ Hp key v).
Qed.

Lemma appendable_quiet s s' r : appendable s r → quiet s s' → appendable s' r.
Proof.
  intros [(x & Hx & Hs) Hc Ha] [_ Hqe Hql Hqt]. split.
  - exists x. by rewrite Hqe.
  - rewrite Hql, Hqt. done.
  - intros e' a. rewrite Hqe, Hql. apply Ha.
Qed.

Lemma acknowledge_wp t caller q now s : Wp t (acknowledge caller q now) (after (reported t)) s.
Proof.
  unfold acknowledge. apply locked_wp; [apply lasting_reported|]. clear s. intros s HI Hl.
  apply wp_try. apply (current_projection_wp t s); [done|by apply held_refl| |by intros; apply after_err].
  intros scope p s1 Hh Hp. destruct (wp_envelopes p !! aq_key q) as [view|]; [|done].
  destruct (acknowledge_refusal _ _ _ _ _); [done|].
  destruct (accept_consumption _ _ _ _ _ _ _) as [[r|v]|e] eqn:Ha; [|done..].
  destruct (accept_fresh s scope p _ _ _ _ _ _ _ HI Hp Ha) as [Hr Hap].
  assert (∀ s1, held t s s1 →
    Wp t (try (call (AppendReceipt r)) id (λ _, mret (Ok (Recorded r)))) (after (reported t)) s1) as Happend.
  { intros s2 Hh2. apply (append_wp t _ id _ (held t s)); [apply work_held_stable|done| | |].
    - intros s3 Hh3 _. split; [|right; by eapply held_lock]. by eapply appendable_quiet; [|apply Hh3].
    - intros s3 Hh3 _. split_and!; [| |done].
      + cbn. rewrite Hr. apply elem_of_app. right. by apply list_elem_of_singleton.
      + destruct (ap_sane _ _ Hap) as (e & He & ?). exists e. cbn. by rewrite (held_envelope _ _ _ Hh3).
    - intros f s3. apply after_err, file_harmless. }
  apply wp_try. destruct (aq_note q) as [note|]; [|by apply Happend].
  apply (put_note_wp t s); [done|done|by intros; apply after_err].
Qed.

(** ** Messages before a model *)

(** The errors of a store are harmless here too. *)
Definition after_source {B} (F : B → work_files → Prop) (r : result source_error B) s : Prop :=
  match r with Ok b => F b s | Err (SourceStore e) => harmless e | Err _ => True end.

Definition listed (es : list envelope) s : Prop := ∀ e, e ∈ es → wf_envelopes s !! en_key e = Some e.

Lemma lasting_listed es : lasting (listed es).
Proof. apply lasting_all. intros e. apply lasting_envelope. Qed.

(** A load without the lock: the envelopes are there. *)
Lemma free_load_wp t Q s :
  (∀ records s, listed (wr_envelopes records) s → Q (Ok records) s) → (∀ e s, harmless e → Q (Err e) s) →
  Wp t load_all Q s.
Proof.
  intros Hok Herr. apply (load_all_wp _ _ t (λ _, True)); [apply work_true_stable|done| |intros f s1 _; apply Herr, file_harmless].
  intros records s1 _ [_ (s2 & _ & Hes) _]. apply Hok. intros e [i Hi]%list_elem_of_lookup.
  destruct (Forall2_lookup_r _ _ _ _ _ Hes Hi) as (k & _ & He & Hk). by rewrite Hk.
Qed.

(** The blocks that a source hands over. *)
Definition shown seat (blocks : list (string * string)) s : Prop :=
  ∀ b, b ∈ blocks → ∃ e payload, kept s seat e payload ∧ b.1 = en_key e ∧ render_for_context e payload = Ok b.2.

Lemma lasting_shown seat blocks : lasting (shown seat blocks).
Proof.
  apply lasting_all. intros b t s s' (e & payload & Hk & Hb) Hd. exists e, payload. split; [|done].
  by eapply (lasting_kept seat e payload).
Qed.

Lemma render_each_wp t seat es (P : work_files → Prop) (Q : result source_error (list (string * string)) → work_files → Prop) s :
  Stable t P → P s → listed es s → (∀ e, e ∈ es → en_recipient e = seat) →
  (∀ blocks s, P s → shown seat blocks s → Q (Ok blocks) s) →
  (∀ e s, (∀ x, e = SourceStore x → harmless x) → Q (Err e) s) → Wp t (render_each es) Q s.
Proof.
  intros HP. revert Q s. induction es as [|e es IH]; intros Q s Hs Hes Hr Hok Herr; cbn [render_each].
  { apply Hok; [done|]. by intros b ?%elem_of_nil. }
  apply wp_try. apply (read_payload_wp t e (λ s, P s ∧ listed (e :: es) s)).
  { apply and_stable; [done|]. apply lasting_stable, lasting_listed. }
  { done. }
  2:{ intros err s1 _ Hh. apply Herr. by intros x [= <-]. }
  clear s Hs Hes. intros b s [Hs Hes] Hb Hd Hlen.
  assert (kept s seat e b) as Hk by (split; [apply Hes; left|apply Hr; left|done..]).
  destruct (render_for_context e b) as [text|err] eqn:Ht; [|by apply Herr].
  apply wp_try.
  eapply wp_mono; [|apply (lasting_frame t _ (λ r s, match r with Ok blocks => P s ∧ shown seat blocks s
     | Err e => ∀ x, e = SourceStore x → harmless x end) (λ s, kept s seat e b)); [apply lasting_kept|done|]].
  - intros [blocks|err] s1 [Hx Hk1]; [|by apply Herr]. destruct Hx as [HP1 Hsh]. apply Hok; [done|].
    intros y [->|Hy]%elem_of_cons; [|by apply Hsh]. by exists e, b.
  - apply IH; [done|by intros e' He'; apply Hes; right|by intros e' He'; apply Hr; right|done|done].
Qed.

(** Writes that the invariant does not speak of. *)
Definition plain_op (o : work_op (answer ())) : Prop :=
  ∀ c t s r s', work_exec_op c t o s = Some (r, s') → same_core s s' ∧ wf_lock s' = wf_lock s ∧ (∀ e, r = Err e → harmless e).

Lemma output_plain text : plain_op (Output text).
Proof.
  intros c t s r s' He. cbn in He. apply file_writing_inv in He as [[-> [f ->]]|[-> [->|[f ->]]]];
    (split_and!; [by split|done|intros e [= <-]; apply file_harmless]) || (split_and!; [by split|done..]).
Qed.

Lemma capability_plain c : plain_op (AppendCapability c).
Proof.
  intros ci t s r s' He. cbn in He. apply append_inv in He as [[-> [f ->]]|[-> [[-> _]|[f ->]]]];
    (split_and!; [by split|done|intros e [= <-]; apply file_harmless]) || (split_and!; [by split|done..]).
Qed.

Lemma plain_call_wp t o (P : work_files → Prop) (Q : answer () → work_files → Prop) s :
  plain_op o → Stable t P → P s → (∀ s s', P s → same_core s s' → wf_lock s' = wf_lock s → P s') →
  (∀ s, P s → Q (Ok ()) s) → (∀ e s, harmless e → Q (Err e) s) → Wp t (call o) Q s.
Proof.
  intros Ho HP Hs Hk Hok Herr. eapply wp_vis; [exact HP|exact Hs|]. clear s Hs. intros s c r s' Hs HI He. cbn in He.
  destruct (Ho _ _ _ _ _ He) as (Hc & Hl & Hx). destruct (plain_ok _ _ t s s' HI Hc) as [? ?]; [by rewrite Hl|].
  split_and!; [done..|]. destruct r as [[]|e]; [apply Hok; by eapply Hk|]. by apply Herr, Hx.
Qed.

Lemma capability_once_wp t records c (P : work_files → Prop) (Q : answer () → work_files → Prop) s :
  Stable t P → P s → (∀ s s', P s → same_core s s' → wf_lock s' = wf_lock s → P s') →
  (∀ s, P s → Q (Ok ()) s) → (∀ e s, harmless e → Q (Err e) s) → Wp t (record_capability_once records c) Q s.
Proof.
  intros HP Hs Hk Hok Herr. unfold record_capability_once. destruct (knows_adapter _ _ _); [by apply Hok|].
  by apply (plain_call_wp t _ P); [apply capability_plain|..].
Qed.

Lemma held_core t s0 s s' : held t s0 s → same_core s s' → wf_lock s' = wf_lock s → held t s0 s'.
Proof. intros Hh Hc Hl. eapply held_quiet; [done|by apply same_core_quiet|done]. Qed.

Lemma work_hook_wp t doc a member r s : Wp t (work_hook doc a member r) (after_source (λ _ _, True)) s.
Proof.
  unfold work_hook. eapply (wp_try_call _ _ t Lock SourceStore _ _ (λ _, True)); [apply work_true_stable|done|].
  clear s. intros s c x s0 _ HI He. cbn in He. destruct (ci_fails c) as [f|].
  { injection He as <- <-. destruct (same_ok _ _ t s HI). split_and!; [done..|]. exact (file_harmless f). }
  destruct (wf_lock s) eqn:Hl; [done|]. injection He as <- <-.
  destruct (plain_ok _ _ t s (set_lock s (Some t)) HI) as [HI0 Hd]; [by split|intros t'; by rewrite Hl|].
  split_and!; [done..|]. clear Hd. assert (held t (set_lock s (Some t)) (set_lock s (Some t))) as Hh0 by by apply held_refl.
  set (s0 := set_lock s (Some t)) in *. clearbody s0. clear s c HI Hl.
  apply wp_try. apply (locked_load_wp t s0); [done|done| |done]. intros records s Hh Hseen.
  destruct (wr_scope records) as [scope|]; [|done]. destruct (negb _); [done|].
  eapply (wp_call _ _ t Now _ _ (held t s0)); [apply work_held_stable|exact Hh|]. clear s Hh Hh0. intros s c now s' Hh HI He.
  cbn in He. injection He as <- <-. destruct (same_ok _ _ t s HI). split_and!; [done..|].
  destruct (fold_records scope records (ci_now c)) as [p|e] eqn:Hf; [|done]. set (now := ci_now c) in *. clearbody now.
  pose proof (seen_projected _ _ _ _ _ _ _ HI0 Hseen Hf) as Hp.
  destruct (deliverable_offered s0 scope p (wk_seat r) a now HI0 Hp) as [Hnd Hof].
  apply wp_try. apply (render_each_wp t (wk_seat r) _ (held t s0)); [apply work_held_stable|done| | | |].
  { intros e He. rewrite (held_envelope _ _ _ Hh). apply (Hof e He). }
  { intros e He. apply (Hof e He). }
  2:{ intros e s1 He. destruct e; try done. by apply He. }
  clear s Hh HI H0 H1. intros blocks s Hh _. apply wp_try.
  apply (capability_once_wp t _ _ (held t s0)); [apply work_held_stable|done|by intros; eapply held_core| |done].
  clear s Hh. intros s Hh. destruct blocks as [|b blocks]; [done|]. apply wp_try.
  apply (plain_call_wp t _ (held t s0)); [apply output_plain|apply work_held_stable|done|by intros; eapply held_core| |done].
  clear s Hh. intros s Hh. apply wp_try. apply (record_deliveries_wp t _ (wk_seat r)); [by eapply held_lock|done| |done|done].
  intros e He. eapply offered_quiet; [by apply Hof|apply Hh].
Qed.

Lemma check_member_wp t member r Q s :
  (∀ s, Q (Ok ()) s) → (∀ e s, (∀ x, e = SourceStore x → harmless x) → Q (Err e) s) → Wp t (check_member member r) Q s.
Proof.
  intros Hok Herr. unfold check_member. eapply (wp_try_call _ _ t ReadScope SourceStore _ _ (λ _, True)); [apply work_true_stable|done|].
  intros s1 c x s2 _ HI He. cbn in He. apply file_reading_inv in He as [-> Hx]. destruct (same_ok _ _ t s1 HI). split_and!; [done..|].
  destruct x as [[scope|]|e]; cbn.
  - destruct (is_member _ _ _); [apply Hok|by apply Herr].
  - by apply Herr.
  - destruct Hx as [?|[f [= ->]]]; [done|]. apply Herr. intros x [= <-]. apply file_harmless.
Qed.

Lemma folded_listed scope history es rs now p seat a :
  fold_with_history scope history es rs now = Ok p →
  ∀ e, e ∈ deliverable p seat a now → e ∈ es ∧ en_recipient e = seat.
Proof.
  intros (current & earlier & _ & _ & _ & _ & Hv & _)%fold_views e (v & -> & [Hm Hin]%list_elem_of_filter)%list_elem_of_fmap.
  apply elem_of_values in Hin as [k Hk]. rewrite Hv in Hk. destruct (envelope_at es k) as [e|] eqn:He; [|done]. injection Hk as <-.
  split; [by apply envelope_at_some in He as [? _]|]. unfold may_offer in Hm. do 5 apply andb_prop in Hm as [Hm _].
  by apply bool_decide_eq_true in Hm.
Qed.

Lemma turn_take_wp t member r s : Wp t (turn_take member r) (after_source (shown (wk_seat r))) s.
Proof.
  unfold turn_take. apply wp_try. apply check_member_wp; [|intros [] ? He; try done; by apply He].
  clear s. intros s. apply wp_try. apply free_load_wp; [|done]. clear s. intros records s Hes.
  destruct (wr_scope records) as [scope|]; [|done].
  eapply (wp_call _ _ t Now _ _ (listed (wr_envelopes records))); [apply lasting_stable, lasting_listed|exact Hes|].
  clear s Hes. intros s c now s' Hes HI He. cbn in He. injection He as <- <-. destruct (same_ok _ _ t s HI). split_and!; [done..|].
  destruct (fold_records scope records (ci_now c)) as [p|e] eqn:Hf; [|done].
  pose proof (folded_listed _ _ _ _ _ _ (wk_seat r) HarnessTurn Hf) as Hin.
  apply (render_each_wp t (wk_seat r) _ (λ _, True)); [apply work_true_stable|done| | |done|intros [] ? He; try done; by apply He].
  - intros e He. by apply Hes, Hin.
  - intros e He. by apply Hin.
Qed.

Lemma turn_append_wp t {B} e now st es (k : () → prog work_op (result source_error B)) (Q : result source_error B → work_files → Prop) s :
  listed es s → e ∈ es → (∃ m o, st = DeliveryAttempted HarnessTurn m o) ∨ (∃ c, st = ContextDelivered HarnessTurn c) →
  (∀ s, listed es s → Wp t (k ()) Q s) → (∀ e s, harmless e → Q (Err (SourceStore e)) s) →
  Wp t (try (call (AppendReceipt (for_envelope e (AdapterObserver HarnessTurn) now st))) SourceStore k) Q s.
Proof.
  intros Hes He Hst Hk Herr. apply (append_wp t _ SourceStore _ (listed es)); [apply lasting_stable, lasting_listed|done| | |].
  - intros s1 Hs1 _. split; [|left; by destruct Hst as [(? & ? & ->)|(? & ->)]]. split; cbn.
    + exists e. split_and!; [by apply Hs1|done|]. by destruct Hst as [(? & ? & ->)|(? & ->)].
    + by destruct Hst as [(? & ? & ->)|(? & ->)].
    + intros e' a _. destruct Hst as [(? & ? & ->)|(? & ->)]; unfold attempted_by; cbn; [|done]. by intros ->%bool_decide_eq_true.
  - intros s1 Hs1 _. by apply Hk.
  - intros f s1. apply Herr, file_harmless.
Qed.

Lemma record_turns_wp t r ok records now keys (Q : result source_error () → work_files → Prop) s :
  listed (wr_envelopes records) s → (∀ s, Q (Ok ()) s) → (∀ e s, (∀ x, e = SourceStore x → harmless x) → Q (Err e) s) →
  Wp t (record_turns r ok records now keys) Q s.
Proof.
  intros Hes Hok Herr. revert s Hes. induction keys as [|key keys IH]; intros s Hes; cbn [record_turns]; [apply Hok|].
  assert (∀ e s, harmless e → Q (Err (SourceStore e)) s) as Herr' by (intros e s1 He; apply Herr; by intros x [= <-]).
  destruct (head _) as [e|] eqn:He; [|by apply Herr].
  assert (e ∈ wr_envelopes records) as Hin by (by apply head_Some_elem_of, list_elem_of_filter in He as [_ ?]).
  case_decide; [by apply Herr|]. eapply turn_append_wp; [exact Hes|done|left; eauto| |done].
  clear s Hes. intros s Hes. destruct ok; [|by apply IH]. by eapply turn_append_wp; [exact Hes|..|exact IH|]; [|right; eauto|].
Qed.

Lemma turn_record_wp t r keys ok s : Wp t (turn_record r keys ok) (after_source (λ _ _, True)) s.
Proof.
  unfold turn_record. apply wp_try. apply free_load_wp; [|done]. clear s. intros records s Hes.
  eapply (wp_call _ _ t Now _ _ (listed (wr_envelopes records))); [apply lasting_stable, lasting_listed|exact Hes|].
  clear s Hes. intros s c now s' Hes HI He. cbn in He. injection He as <- <-. destruct (same_ok _ _ t s HI). split_and!; [done..|].
  apply wp_try. apply record_turns_wp; [done| |intros [] ? He; try done; by apply He]. clear. intros s.
  destruct (_ && _); [|done]. apply wp_try. by apply (capability_once_wp t _ _ (λ _, True)).
Qed.

(** ** Reconstruction *)

(** A reconstruction without the lock finds no payload missing or changed. *)
Definition reconstructed (r : work_reconstruction) : Prop := ∀ f, f ∈ wn_findings r → ∃ d, f = OrphanPayload d.

Lemma check_payloads_wp t es Q s :
  listed es s → (∀ s, Q (Ok []) s) → (∀ e s, harmless e → Q (Err e) s) → Wp t (check_payloads es) Q s.
Proof.
  revert Q s. induction es as [|e es IH]; intros Q s Hes Hok Herr; cbn [check_payloads]; [apply Hok|].
  apply (read_wp max_messages max_bytes t (StatPayload (en_payload_digest e)) (λ s, Ok (wf_payloads s !! en_payload_digest e)) _ (listed (e :: es)));
    [done|apply lasting_stable, lasting_listed|done|done| |intros f s1 _; apply Herr, file_harmless].
  clear s Hes. intros x s Hes HI [= <-].
  destruct (fi_payload _ _ _ HI _ _ (Hes e ltac:(left))) as (b & Hb & Hd & Hlen). rewrite Hb, decide_False by (intros [?|?]; done).
  apply wp_try. apply IH; [intros e' He'; apply Hes; by right|done|done].
Qed.

Lemma reconstruct_wp t now s : Wp t (reconstruct now) (after (λ r _, reconstructed r)) s.
Proof.
  unfold reconstruct. apply wp_try. apply free_load_wp; [|by intros; apply after_err]. clear s. intros records s Hes.
  destruct (match wr_scope records with Some _ => _ | None => _ end) as [projection|e]; [|done].
  apply wp_try. apply check_payloads_wp; [done| |by intros; apply after_err]. clear s Hes. intros s.
  apply (read_wp max_messages max_bytes t ListPayloads (λ s, Ok (in_path_order EmptyString (dom (wf_payloads s)))) _ (λ _, True));
    [done|apply work_true_stable|done|done| |intros f s1 _; apply after_err, file_harmless].
  intros names s1 _ _ _. intros f. cbn. intros (d & -> & _)%list_elem_of_fmap. by exists d.
Qed.

(** ** All interleavings *)

Definition answer_ok t (a : work_answer) s : Prop :=
  match a with
  | AnsDeclare r => after (λ _ _, True) r s
  | AnsSubmit r => after (submitted t) r s
  | AnsPull seat r => after (pulled seat) r s
  | AnsAcknowledge r => after (reported t) r s
  | AnsHook r | AnsRecord r => after_source (λ _ _, True) r s
  | AnsTake seat r => after_source (shown seat) r s
  | AnsReconstruct r => after (λ r _, reconstructed r) r s
  end.

Lemma lasting_after {B} (F : B → work_files → Prop) r : (∀ b, lasting (F b)) → lasting (after F r).
Proof. intros HF. destruct r as [b|e]; [apply HF|by intros ?]. Qed.

Lemma lasting_after_source {B} (F : B → work_files → Prop) r : (∀ b, lasting (F b)) → lasting (after_source F r).
Proof. intros HF. destruct r as [b|[]]; [apply HF|by intros ?..]. Qed.

Lemma lasting_answer t a : lasting (answer_ok t a).
Proof.
  destruct a; cbn; (apply lasting_after || apply lasting_after_source); intros;
    auto using lasting_submitted, lasting_pulled, lasting_reported, lasting_shown.
Qed.

Lemma calls_sound : sound Inv work_does (λ _ _, True) answer_ok.
Proof.
  split.
  - intros t p s Hp _ _. destruct Hp; apply wp_map; cbn.
    + by apply declare_wp.
    + apply submit_wp.
    + by apply pull_wp.
    + apply acknowledge_wp.
    + apply work_hook_wp.
    + apply turn_take_wp.
    + apply turn_record_wp.
    + apply reconstruct_wp.
  - intros t a. apply lasting_stable, lasting_answer.
  - done.
  - intros t s HI. by destruct (release_lock_ok _ _ t s HI) as (? & ? & _).
  - intros t a s HI Ha. destruct (release_lock_ok _ _ t s HI) as (_ & _ & Hc). by eapply lasting_core; [apply lasting_answer|..].
  - done.
Qed.

Lemma no_files_inv : Inv no_files.
Proof.
  split; cbn; try done; try (by intros; apply N.le_0_l); try (by intros; lia).
  - by intros k r ?%elem_of_nil.
  - intros k. unfold solid_lines, log_of. cbn [wf_receipts no_files]. rewrite lookup_empty. cbn. clear; lia.
  - by intros t k ?%elem_of_nil.
  - by intros t k ?%elem_of_nil.
  - constructor.
  - constructor.
Qed.

Lemma mailbox_ok y : reachable no_files y → system_ok Inv work_does (λ _ _, True) answer_ok y.
Proof. apply reachable_ok; [apply calls_sound|apply no_files_inv|done]. Qed.

Lemma nodup_omap_eq {X} (f : X → option string) (l : list X) x y k :
  NoDup (omap f l) → x ∈ l → y ∈ l → f x = Some k → f y = Some k → x = y.
Proof.
  induction l as [|z l IH]; [by intros _ ?%elem_of_nil|]. cbn. intros Hnd Hx Hy Hfx Hfy.
  assert (∀ w, w ∈ l → f w = Some k → f z ≠ Some k) as Hne.
  { intros w Hw Hfw Hfz. rewrite Hfz in Hnd. apply NoDup_cons in Hnd as [Hnot _]. apply Hnot, list_elem_of_omap. eauto. }
  assert (NoDup (omap f l)) as Hnd' by (destruct (f z); [by apply NoDup_cons in Hnd as [_ ?]|done]).
  apply elem_of_cons in Hx as [->|Hx], Hy as [->|Hy]; [done| | |by apply IH].
  - by destruct (Hne y).
  - by destruct (Hne x).
Qed.

(** C8. Whatever runs on a work at the same time, fails, stops in the middle of
    a write or is killed: every message stays with its bytes, no sender exceeds
    the declared budget, every receipt belongs to its message, a message has at
    most one report, from its recipient, and no adapter that works under the
    lock offers a message more often than the message allows. What a call
    answered stays true: a message it admitted is stored, a page holds stored
    messages for its reader with their bytes, a report is the recipient's, a
    reconstruction misses no payload and finds none changed, and no call finds
    evidence that contradicts itself. Two calls never both admit
    one key and never both report on it. *)
Theorem mailbox_safe y :
  reachable no_files y →
  Inv (shared y) ∧
  (∀ t a, processes y !! t = Some (Returned a) → answer_ok t a (shared y)) ∧
  (∀ t t' e e', processes y !! t = Some (Returned (AnsSubmit (Ok (Admit e)))) →
     processes y !! t' = Some (Returned (AnsSubmit (Ok (Admit e')))) → en_key e = en_key e' → t = t') ∧
  (∀ t t' r r', processes y !! t = Some (Returned (AnsAcknowledge (Ok (Recorded r)))) →
     processes y !! t' = Some (Returned (AnsAcknowledge (Ok (Recorded r')))) → rc_key r = rc_key r' → t = t').
Proof.
  intros (HI & Hts & _)%mailbox_ok.
  assert (∀ t a, processes y !! t = Some (Returned a) → answer_ok t a (shared y)) as Ha by (intros t a Ht; exact (Hts t _ Ht)).
  split_and!; [done|done| |].
  - intros t t' e e' Ht Ht' Hk. destruct (Ha _ _ Ht) as [_ He]. destruct (Ha _ _ Ht') as [_ He'].
    pose proof (nodup_omap_eq admitted_key _ _ _ (en_key e) (fi_admits_once _ _ _ HI) He He' eq_refl) as Heq.
    rewrite Hk in Heq. by injection (Heq eq_refl).
  - intros t t' r r' Ht Ht' Hk. destruct (Ha _ _ Ht) as [He _]. destruct (Ha _ _ Ht') as [He' _].
    pose proof (nodup_omap_eq consumed_key _ _ _ (rc_key r) (fi_consumes_once _ _ _ HI) He He' eq_refl) as Heq.
    rewrite Hk in Heq. by injection (Heq eq_refl).
Qed.
End Calls.

(** ** Samples *)

Module MailRuns.
Import MailSamples.

#[local] Instance mail_machine : Machine work_op work_files work_answer := machine 2 100.
#[local] Abbreviation play := (play (M := mail_machine)).

Definition at_second (n : Z) : circumstances := Circumstances None true WholeLine (n * 1000000000).

Definition caller (seat : string) : admitted_work_caller := AdmittedWorkCaller work seat CallerEnvSameUid.
Definition this_revision : string := match revision mail_scope with Ok r => r | Err _ => "" end.
Definition to_critic : send_request := SendRequest this_revision "critic" (Some "m-1") 0 None None Internal None.

Definition do_declare := prog_map AnsDeclare (declare mail_scope).
Definition do_send (payload : string) (now : Z) := prog_map AnsSubmit (send (caller "author") to_critic payload now).
Definition do_pull (now : Z) :=
  prog_map (AnsPull "critic") (pull_bounded (λ (x : unit) _, (Ok Include, x)) () None u64_max (caller "critic")
    (PullRequest this_revision PullAdapter "pull" false None) now).
Definition do_report (now : Z) :=
  prog_map AnsAcknowledge (acknowledge (caller "critic")
    (AcknowledgeRequest this_revision "m-1" (hash_of_bytes "draft") Considered None (Some "read it")) now).
Definition critic_ref : work_ref := WorkRef work "critic".
Definition do_take := prog_map (AnsTake "critic") (turn_take critic critic_ref).
Definition do_record := prog_map AnsRecord (turn_record critic_ref ["m-1"] true).

(** A message is sent twice, pulled, reported on twice, and pulled again. *)
Definition exchange : list (circumstances * prog work_op work_answer) :=
  [(at_second 0, do_declare); (at_second 1, do_send "draft" 1); (at_second 2, do_send "draft" 2);
   (at_second 3, do_pull 3); (at_second 4, do_report 4); (at_second 5, do_report 5); (at_second 9, do_pull 9)].

Lemma exchange_clients : Forall (λ x, work_client 2 100 x.2) exchange.
Proof.
  repeat apply Forall_cons_2; [..|apply Forall_nil_2]; cbn [snd];
    first [by apply client_declare|apply client_submit|by apply (client_pull _ _ _ _ _ _ (caller "critic"))|apply client_acknowledge].
Qed.

Definition kind_of (a : process work_op work_answer) : string :=
  match a with
  | Returned (AnsDeclare (Ok _)) => "declared_calls"
  | Returned (AnsSubmit (Ok (Admit _))) => "admitted"
  | Returned (AnsSubmit (Ok (Duplicate _))) => "duplicate"
  | Returned (AnsPull _ (Ok page)) => "page of " +:+ pretty (length (bp_messages page))
  | Returned (AnsAcknowledge (Ok (Recorded _))) => "recorded"
  | Returned (AnsAcknowledge (Ok AlreadyRecorded)) => "already recorded"
  | Returned (AnsTake _ (Ok l)) => "took " +:+ pretty (length l)
  | Returned (AnsRecord (Ok _)) => "recorded turns"
  | Returned (AnsSubmit (Err WsJson)) => "unreadable"
  | _ => "failed"
  end.

Lemma mailbox_safe_witness :
  ∃ y, reachable no_files y ∧
    kind_of <$> processes y = ["declared_calls"; "admitted"; "duplicate"; "page of 1"; "recorded"; "already recorded"; "page of 0"] ∧
    files_inv 2 100 (shared y) ∧ (∀ t a, processes y !! t = Some (Returned a) → answer_ok t a (shared y)).
Proof.
  destruct (play exchange (System no_files [])) as [y|] eqn:Hy; [|exfalso; vm_compute in Hy; discriminate].
  assert (reachable no_files y) as Hr by exact (play_steps (M := mail_machine) _ _ _ exchange_clients Hy).
  exists y. split; [exact Hr|]. split.
  - apply (f_equal (fmap (λ y, kind_of <$> processes y))) in Hy. vm_compute in Hy. vm_compute. congruence.
  - destruct (mailbox_safe 2 100 ltac:(vm_compute; discriminate) ltac:(vm_compute; reflexivity) y Hr) as (HI & Ha & _).
    split; [exact HI|exact Ha].
Defined.

(** Two turns are taken before either is recorded, and both are recorded:
    without the lock an adapter makes more attempts than the message allows. *)
Definition two_turns : list (circumstances * prog work_op work_answer) :=
  [(at_second 0, do_declare); (at_second 1, do_send "draft" 1); (at_second 2, do_take); (at_second 3, do_take);
   (at_second 4, do_record); (at_second 5, do_record)].

Lemma turns_exceed_the_attempts :
  ∃ y e, reachable no_files y ∧
    kind_of <$> processes y = ["declared_calls"; "admitted"; "took 1"; "took 1"; "recorded turns"; "recorded turns"] ∧
    wf_envelopes (shared y) !! "m-1" = Some e ∧ en_max_delivery_attempts e = 1%N ∧
    length (attempts HarnessTurn (lg_records (log_of (shared y) "m-1"))) = 2.
Proof.
  destruct (play two_turns (System no_files [])) as [y|] eqn:Hy; [|exfalso; vm_compute in Hy; discriminate].
  assert (reachable no_files y) as Hr.
  { apply (play_steps (M := mail_machine) two_turns); [|done]. repeat apply Forall_cons_2; [..|apply Forall_nil_2]; cbn [snd];
      first [by apply client_declare|apply client_submit|apply (client_take _ _ critic critic_ref)|apply client_record]. }
  vm_compute in Hy. injection Hy as <-. eexists _, _. split; [exact Hr|].
  split; [vm_compute; reflexivity|]. split; [vm_compute; reflexivity|]. split; vm_compute; reflexivity.
Qed.

(** The line of an admission is cut. The message is stored, but no retry mends
    the log, and the work stays unreadable for its author and its reader. *)
Definition cut_line : circumstances := Circumstances None true LineCut 1000000000.

Example torn_line_stays :
  (λ y, kind_of <$> processes y) <$>
    play [(at_second 0, do_declare); (cut_line, do_send "draft" 1); (at_second 2, do_send "draft" 2);
          (at_second 3, do_send "draft" 3)] (System no_files []) =
  Some ["declared_calls"; "failed"; "unreadable"; "unreadable"].
Proof. vm_compute. done. Qed.

(** A line without its end is read, and the next append ruins it. *)
Example unended_line_is_ruined :
  (λ y, kind_of <$> processes y) <$>
    play [(at_second 0, do_declare); (Circumstances None true NoLineEnd 1000000000, do_send "draft" 1);
          (at_second 2, do_send "draft" 2); (at_second 3, do_pull 3); (at_second 4, do_send "draft" 4)] (System no_files []) =
  Some ["declared_calls"; "failed"; "duplicate"; "page of 1"; "unreadable"].
Proof. vm_compute. done. Qed.
End MailRuns.
