(* ===== verification/WorkRetry.v ===== *)
(** A submission that runs while nothing fails: from any state that calls,
    faults and kills can leave, with no line cut, it is settled, and a retry
    finds it settled. *)
From stdpp Require Import prelude gmap strings list relations.
From Stdlib Require Import Ascii.
From S2P Require Import Prelude Text Ids Links Concurrent WorkMessage WorkStore WorkRuns WorkCalls.

Section Retry.
Context `{WorkText} (max_messages max_bytes : N).
Implicit Types (t : nat) (s : work_files).

#[local] Abbreviation Inv := (files_inv max_messages max_bytes).
#[local] Instance retry_machine : Machine work_op work_files work_answer := machine max_messages max_bytes.

(** Nothing fails. *)
Definition calm (now : Z) : circumstances := Circumstances None true WholeLine now.

(** Nobody holds the lock, and no line was cut. *)
Record tidy s : Prop := {
  td_lock : wf_lock s = None;
  td_receipts k l : wf_receipts s !! k = Some l → lg_end l = Closed;
  td_capabilities k l : wf_capabilities s !! k = Some l → lg_end l = Closed;
}.

#[local] Abbreviation runs_to now t p s r s' := (run (M := retry_machine) (calm now) t p s = Some (r, s')).

(** ** Reads *)

Lemma run_read_each now t s {A} (read : string → work_op (answer A)) (R : string → A → Prop) ks :
  (∀ k, k ∈ ks → ∃ a, work_exec_op (calm now) t (read k) s = Some (Ok a, s) ∧ R k a) →
  ∃ l, runs_to now t (read_each read ks) s (Ok l) s ∧ Forall2 R ks l.
Proof.
  induction ks as [|k ks IH]; intros Hks; cbn [read_each]; [exists []; split; [done|constructor]|].
  destruct (Hks k ltac:(left)) as (a & Ha & HR). destruct (IH ltac:(intros; apply Hks; by right)) as (l & Hl & HRl).
  exists (a :: l). split; [|by constructor]. erewrite run_try by exact Ha. unfold try. rewrite run_bind, Hl. done.
Qed.

Lemma run_try_read now t s {A B} (o : work_op (answer A)) (k : A → prog work_op (answer B)) a :
  work_exec_op (calm now) t o s = Some (Ok a, s) →
  run (M := retry_machine) (calm now) t (try (call o) id k) s = run (M := retry_machine) (calm now) t (k a) s.
Proof. intros Ho. by erewrite run_try by exact Ho. Qed.

Lemma run_try_bind now t s {A B} (p : prog work_op (answer A)) (k : A → prog work_op (answer B)) a s' :
  runs_to now t p s (Ok a) s' →
  run (M := retry_machine) (calm now) t (try p id k) s = run (M := retry_machine) (calm now) t (k a) s'.
Proof. intros Hp. unfold try. by rewrite run_bind, Hp. Qed.

Lemma run_load now t s0 s :
  held t s0 s → Inv s → (∀ k l, wf_receipts s !! k = Some l → lg_end l = Closed) →
  (∀ k l, wf_capabilities s !! k = Some l → lg_end l = Closed) →
  ∃ records, runs_to now t load_all s (Ok records) s ∧ loads max_messages max_bytes (held t s0) records s.
Proof.
  intros Hh HI Hr Hc. unfold load_all.
  rewrite (run_try_read now t s ReadScope _ (wf_scope s)) by done.
  rewrite (run_try_read now t s ListEnvelopes _ _ eq_refl).
  destruct (run_read_each now t s ReadEnvelope (λ k e, wf_envelopes s !! k = Some e ∧ en_key e = k)
    (in_path_order ".json" (dom (wf_envelopes s)))) as (es & Hes & Hfe).
  { intros k [e He]%elem_of_in_path_order%elem_of_dom. exists e. split; [cbn; unfold found; by rewrite He|].
    split; [done|by apply (fi_key _ _ _ HI)]. }
  rewrite (run_try_bind now t s _ _ _ _ Hes). rewrite (run_try_read now t s ListReceipts _ _ eq_refl).
  destruct (run_read_each now t s ReadReceipts (λ k rs, read_log (wf_receipts s !! k) = Ok rs)
    (in_path_order ".jsonl" (dom (wf_receipts s)))) as (rss & Hrs & Hfr).
  { intros k [l Hl]%elem_of_in_path_order%elem_of_dom. exists (lg_records l). cbn. rewrite Hl. cbn. by rewrite (Hr k l Hl). }
  rewrite (run_try_bind now t s _ _ _ _ Hrs). rewrite (run_try_read now t s ListCapabilities _ _ eq_refl).
  destruct (run_read_each now t s ReadCapabilities (λ _ _, True) (in_path_order ".jsonl" (dom (wf_capabilities s)))) as (cs & Hcs & _).
  { intros k [l Hl]%elem_of_in_path_order%elem_of_dom. exists (lg_records l). split; [|done]. cbn. rewrite Hl. cbn. by rewrite (Hc k l Hl). }
  rewrite (run_try_bind now t s _ _ _ _ Hcs). rewrite (run_try_read now t s ListScopes _ _ eq_refl).
  destruct (run_read_each now t s ReadScopeAt (λ _ _, True) (in_path_order ".json" (dom (wf_scopes s)))) as (hs & Hhs & _).
  { intros k [x Hx]%elem_of_in_path_order%elem_of_dom. exists x. split; [|done]. cbn. unfold found. by rewrite Hx. }
  rewrite (run_try_bind now t s _ _ _ _ Hhs). eexists. split; [done|]. split; cbn.
  - by exists s.
  - by exists s.
  - exists s, rss. split_and!; [done..|]. eapply Forall2_impl; [exact Hfr|]. intros k rs Hk. by exists s.
Qed.

(** ** The lock *)

Lemma set_lock_twice s l : wf_lock s = None → set_lock (set_lock s l) None = s.
Proof. destruct s. cbn. by intros ->. Qed.

Lemma run_with_lock now t s {A} (op : prog work_op (answer A)) r s' :
  wf_lock s = None → runs_to now t op (set_lock s (Some t)) r s' → wf_lock s' = Some t →
  runs_to now t (with_lock op) s r (set_lock s' None).
Proof.
  intros Hl Hop Hl'. unfold with_lock. rewrite (run_try (M := retry_machine) _ t Lock id _ s () (set_lock s (Some t))) by (cbn; by rewrite Hl).
  rewrite run_bind, Hop. cbn. rewrite decide_True by done. by destruct r.
Qed.

Lemma inv_set_lock s l : Inv s → Inv (set_lock s l).
Proof. intros [? ? ? ? ? ? ? ? ? ? ? ? ?]. by split. Qed.

(** ** Writes *)

Definition stored s (d bytes : string) : work_files := set_payloads s (<[d := bytes]> (wf_payloads s)).

Lemma run_put_payload now t s d bytes :
  Inv s → hash_of_bytes bytes = d → (∀ b, hash_of_bytes b = d → b = bytes) →
  runs_to now t (put_payload d bytes) s (Ok ()) (stored s d bytes).
Proof.
  intros HI Hd Hcoll. unfold put_payload. rewrite decide_False by (intros Hne; by apply Hne).
  destruct (wf_payloads s !! d) as [b|] eqn:Hb.
  - assert (b = bytes) as -> by (by apply Hcoll, (fi_named _ _ _ HI)).
    assert (stored s d bytes = s) as -> by (unfold stored; rewrite insert_id by done; by destruct s).
    rewrite (run_try (M := retry_machine) _ t (CreatePayload d bytes) id _ s false s) by (cbn; unfold create; by rewrite Hb).
    rewrite (run_try_read now t s (ReadPayload d) _ bytes) by (cbn; unfold found; by rewrite Hb).
    rewrite decide_False by (intros Hne; by apply Hne). done.
  - by rewrite (run_try (M := retry_machine) _ t (CreatePayload d bytes) id _ s true (stored s d bytes))
      by (cbn; unfold create; by rewrite Hb).
Qed.

Lemma run_read_payload now t s e bytes :
  wf_payloads s !! en_payload_digest e = Some bytes → hash_of_bytes bytes = en_payload_digest e →
  N.of_nat (String.length bytes) = en_payload_bytes e → runs_to now t (read_payload e) s (Ok bytes) s.
Proof.
  intros Hb Hd Hlen. unfold read_payload.
  rewrite (run_try_read now t s (ReadPayload (en_payload_digest e)) _ bytes) by (cbn; unfold found; by rewrite Hb).
  by rewrite decide_True.
Qed.

Definition entered t s (e : envelope) : work_files :=
  set_envelopes s (<[en_key e := e]> (wf_envelopes s)) (wf_trace s ++ [DidAdmit t (en_key e)]).

Lemma run_put_envelope now t s e bytes :
  wf_payloads s !! en_payload_digest e = Some bytes → hash_of_bytes bytes = en_payload_digest e →
  N.of_nat (String.length bytes) = en_payload_bytes e → wf_envelopes s !! en_key e = None →
  runs_to now t (put_envelope e) s (Ok Created) (entered t s e).
Proof.
  intros Hb Hd Hlen Hfree. unfold put_envelope. rewrite (run_try_bind now t s _ _ bytes s) by by apply run_read_payload.
  by rewrite (run_try (M := retry_machine) _ t (CreateEnvelope e) id _ s true (entered t s e)) by (cbn; unfold create; by rewrite Hfree).
Qed.

Lemma run_append now t s r {A} (a : A) :
  runs_to now t (try (call (AppendReceipt r)) id (λ _, mret (Ok a))) s (Ok a) (appended t s r WholeLine).
Proof. done. Qed.

Lemma appended_tidy t s r :
  (∀ k l, wf_receipts s !! k = Some l → lg_end l = Closed) →
  ∀ k l, wf_receipts (appended t s r WholeLine) !! k = Some l → lg_end l = Closed.
Proof.
  intros Hs k l. cbn. rewrite lookup_insert_Some. intros [[<- <-]|[_ ?]]; [|by eapply Hs].
  destruct (wf_receipts s !! rc_key r) as [l'|] eqn:Hl; [|done]. cbn. unfold log_append. by rewrite (Hs _ _ Hl).
Qed.

Lemma appended_in t s r :
  (∀ k l, wf_receipts s !! k = Some l → lg_end l = Closed) → r ∈ lg_records (log_of (appended t s r WholeLine) (rc_key r)).
Proof.
  intros Hs. rewrite appended_log, decide_True by done. unfold log_of, log_or_empty, log_append.
  assert (lg_end (default (Log [] Closed) (wf_receipts s !! rc_key r)) = Closed) as ->
    by (destruct (wf_receipts s !! rc_key r) as [l|] eqn:Hl; [by eapply Hs|done]).
  cbn. apply elem_of_app. right. by apply list_elem_of_singleton.
Qed.

(** ** Submissions *)

(** Scopes have canonical forms. *)
Hypothesis Hhash : ∀ scope why, hash_of_scope scope ≠ Err why.

(** The log of a message has the line of its admission. *)
Definition admission_noted s (k : string) : Prop := ∃ r, r ∈ solid_lines s k ∧ rc_stage r = StageAdmitted.

Lemma seen_admission s records k :
  seen s records →
  existsb (λ r, bool_decide (rc_key r = k ∧ rc_stage r = StageAdmitted)) (wr_receipts records) = true ↔ admission_noted s k.
Proof.
  intros Hs. rewrite existsb_exists. split.
  - intros (r & Hr%list_elem_of_In & [Hk Hst]%bool_decide_eq_true). exists r. split; [|done].
    rewrite <- (sn_lines _ _ Hs). apply list_elem_of_filter. split; [split; [by unfold solid; rewrite Hst|done]|done].
  - intros (r & Hr & Hst). rewrite <- (sn_lines _ _ Hs) in Hr. apply list_elem_of_filter in Hr as [[_ Hk] Hr].
    exists r. split; [by apply list_elem_of_In|]. by apply bool_decide_eq_true.
Qed.

(** What a submission does up to its decision. *)
Lemma run_submit now t s sub bytes scope :
  Inv s → tidy s → wf_scope s = Some scope →
  hash_of_bytes bytes = su_payload_digest sub → N.of_nat (String.length bytes) = su_payload_bytes sub →
  ∃ records p, seen (set_lock s (Some t)) records ∧ projected (set_lock s (Some t)) scope p ∧
    (∀ r s', match admit_submission scope p sub now with
       | Err e => r = Err (WsDomain e) ∧ s' = set_lock s (Some t)
       | Ok d => runs_to now t (commit_admission records d bytes now) (set_lock s (Some t)) r s'
       end → wf_lock s' = Some t → runs_to now t (submit sub bytes now) s r (set_lock s' None)).
Proof.
  intros HI Ht Hsc Hd Hlen. set (s1 := set_lock s (Some t)).
  assert (Inv s1) as HI1 by by apply inv_set_lock. assert (held t s1 s1) as Hh by by apply held_refl.
  destruct (run_load now t s1 s1 Hh HI1) as (records & Hrun & Hl); [apply Ht..|].
  pose proof (load_seen _ _ t s1 records s1 HI1 Hh Hl) as Hseen.
  destruct (fold_with_history scope (wr_history records) (wr_envelopes records) (wr_receipts records) now) as [p|e] eqn:Hf.
  2:{ destruct (fold_fails _ _ _ _ _ _ Hf) as (x & why & _ & Hx & _). by destruct (Hhash x why). }
  exists records, p. split; [done|]. split; [by eapply seen_projected|]. intros r s' Hr Hl'.
  unfold submit. rewrite decide_False by (intros [?|?]; done). apply run_with_lock; [apply Ht| |done].
  rewrite (run_try_bind now t s1 _ _ records s1 Hrun), (sn_scope _ _ Hseen). cbn [wf_scope set_lock s1]. rewrite Hsc, Hf.
  rewrite (pj_clean _ _ _ (seen_projected _ _ _ _ _ _ _ HI1 Hseen Hf)).
  destruct (admit_submission scope p sub now) as [d|e]; [done|]. by destruct Hr as [-> ->].
Qed.

(** A message that is there with its admission: a retry changes nothing. *)
Lemma run_settled now t s sub bytes scope e :
  Inv s → tidy s → wf_scope s = Some scope →
  hash_of_bytes bytes = su_payload_digest sub → N.of_nat (String.length bytes) = su_payload_bytes sub →
  may_enter scope sub → (∀ p, ev_envelope <$> wp_envelopes p = wf_envelopes s → same_message scope p sub e) →
  admission_noted s (en_key e) →
  runs_to now t (submit sub bytes now) s (Ok (Duplicate e)) s.
Proof.
  intros HI Ht Hsc Hd Hlen Hme Hsame Hnoted.
  destruct (run_submit now t s sub bytes scope HI Ht Hsc Hd Hlen) as (records & p & Hseen & Hp & Hrun).
  pose proof (Hsame p (pj_envelopes _ _ _ Hp)) as Hs.
  assert (wf_envelopes s !! submission_key sub = Some e) as He.
  { destruct Hs as (v & Hv & -> & _). pose proof (pj_envelopes _ _ _ Hp) as Hpe.
    cbn in Hpe. by rewrite <- Hpe, lookup_fmap, Hv. }
  destruct (fi_payload _ _ _ HI _ _ He) as (b & Hb & Hbd & Hbl).
  rewrite <- (set_lock_twice s (Some t)) at 2 by apply Ht. apply Hrun; [|done].
  rewrite (admit_duplicate scope p sub now e Hme Hs). cbn [commit_admission].
  rewrite (run_try_bind now t _ _ _ b _ (run_read_payload now t (set_lock s (Some t)) e b Hb Hbd Hbl)).
  assert (existsb (λ r, bool_decide (rc_key r = en_key e ∧ rc_stage r = StageAdmitted)) (wr_receipts records) = true) as ->; [|done].
  by apply (seen_admission _ _ _ Hseen).
Qed.

Lemma lookup_stored (p : work_projection) (m : gmap string envelope) k e :
  ev_envelope <$> wp_envelopes p = m → m !! k = Some e → ∃ v, wp_envelopes p !! k = Some v ∧ ev_envelope v = e.
Proof. intros <-. rewrite lookup_fmap. destruct (wp_envelopes p !! k) as [v|]; [intros [= <-]; by exists v|done]. Qed.

Lemma same_message_any scope p p' sub e :
  ev_envelope <$> wp_envelopes p' = ev_envelope <$> wp_envelopes p → same_message scope p sub e → same_message scope p' sub e.
Proof.
  intros Hp (v & Hv & -> & Hr). destruct (lookup_stored p' _ (submission_key sub) (ev_envelope v) Hp) as (v' & Hv' & He).
  { by rewrite lookup_fmap, Hv. }
  exists v'. split; [done|]. split; [done|]. done.
Qed.

(** The result of an admission: the bytes, the message and its first line. *)
Definition admitted_files t s (e : envelope) (bytes : string) (now : Z) : work_files :=
  appended t (entered t (stored s (en_payload_digest e) bytes) e) (for_envelope e Boundary now StageAdmitted) WholeLine.

Lemma run_commit_admit now t s records e bytes :
  Inv s → hash_of_bytes bytes = en_payload_digest e → N.of_nat (String.length bytes) = en_payload_bytes e →
  (∀ b, hash_of_bytes b = hash_of_bytes bytes → b = bytes) → wf_envelopes s !! en_key e = None →
  runs_to now t (commit_admission records (Admit e) bytes now) s (Ok (Admit e)) (admitted_files t s e bytes now).
Proof.
  intros HI Hd Hlen Hcoll Hfree. cbn [commit_admission].
  rewrite (run_try_bind now t s _ _ () (stored s (en_payload_digest e) bytes))
    by (apply run_put_payload; [done..|]; intros b Hb; apply Hcoll; by rewrite Hd).
  rewrite (run_try_bind now t _ _ _ Created (entered t (stored s (en_payload_digest e) bytes) e)); [by rewrite run_append|].
  apply (run_put_envelope now t _ e bytes); [cbn; by rewrite lookup_insert_eq|done..].
Qed.

Lemma noted_appended t s e now :
  (∀ k l, wf_receipts s !! k = Some l → lg_end l = Closed) →
  admission_noted (appended t s (for_envelope e Boundary now StageAdmitted) WholeLine) (en_key e).
Proof.
  intros Hs. exists (for_envelope e Boundary now StageAdmitted). split; [|done]. apply list_elem_of_filter. split; [done|].
  exact (appended_in t s (for_envelope e Boundary now StageAdmitted) Hs).
Qed.

Lemma appended_settled t s r : tidy (set_lock s None) → tidy (set_lock (appended t s r WholeLine) None).
Proof.
  intros [_ Hr Hc]. split; [done| |exact Hc]. exact (appended_tidy t s r Hr).
Qed.

(** The store after a submission that was accepted. *)
Record settled scope s (sub : submission) (bytes : string) (e : envelope) : Prop := {
  se_enter : may_enter scope sub;
  se_scope : wf_scope s = Some scope;
  se_stored : wf_envelopes s !! en_key e = Some e;
  se_payload : wf_payloads s !! en_payload_digest e = Some bytes;
  se_noted : admission_noted s (en_key e);
  se_same p : ev_envelope <$> wp_envelopes p = wf_envelopes s → same_message scope p sub e;
}.

Lemma run_duplicate now t s records sub bytes scope p e :
  Inv s → tidy (set_lock s None) → wf_lock s = Some t → wf_scope s = Some scope → seen s records → projected s scope p →
  hash_of_bytes bytes = su_payload_digest sub → (∀ b, hash_of_bytes b = hash_of_bytes bytes → b = bytes) →
  may_enter scope sub → same_message scope p sub e →
  ∃ s', runs_to now t (commit_admission records (Duplicate e) bytes now) s (Ok (Duplicate e)) s' ∧
    wf_lock s' = Some t ∧ tidy (set_lock s' None) ∧ settled scope s' sub bytes e.
Proof.
  intros HI Ht Hl Hsc Hseen Hp Hd Hcoll Hme Hs.
  assert (∀ p' : work_projection, ev_envelope <$> wp_envelopes p' = wf_envelopes s → same_message scope p' sub e) as Hany
    by (intros p' Hp'; eapply same_message_any; [by rewrite Hp', <- (pj_envelopes _ _ _ Hp)|done]).
  assert (wf_envelopes s !! submission_key sub = Some e) as He
    by (destruct Hs as (v & Hv & -> & _); by rewrite <- (pj_envelopes _ _ _ Hp), lookup_fmap, Hv).
  assert (en_key e = submission_key sub) as Hk by (by apply (fi_key _ _ _ HI)).
  destruct (fi_payload _ _ _ HI _ _ He) as (b & Hb & Hbd & Hbl).
  assert (en_payload_digest e = su_payload_digest sub) as Hde.
  { destruct Hs as (v & _ & _ & Hr). unfold retry_matches in Hr. by case_decide. }
  assert (b = bytes) as -> by (apply Hcoll; congruence).
  cbn [commit_admission]. rewrite (run_try_bind now t _ _ _ bytes _ (run_read_payload now t s e bytes Hb Hbd Hbl)).
  destruct (existsb _ (wr_receipts records)) eqn:Hn.
  - exists s. split_and!; [done..|]. split; [done|done|by rewrite Hk|done| |done]. by apply (seen_admission _ _ _ Hseen).
  - exists (appended t s (for_envelope e Boundary (en_admitted_at e) StageAdmitted) WholeLine).
    split_and!; [done|done|by apply appended_settled|]. split; [done|done|by rewrite Hk|done| |done]. apply noted_appended, Ht.
Qed.

Lemma run_retry now t s sub bytes scope e :
  Inv s → tidy s → hash_of_bytes bytes = su_payload_digest sub → N.of_nat (String.length bytes) = su_payload_bytes sub →
  settled scope s sub bytes e → runs_to now t (submit sub bytes now) s (Ok (Duplicate e)) s.
Proof. intros HI Ht Hd Hlen [? ? _ _ ? ?]. by apply (run_settled now t s sub bytes scope e). Qed.

(** A submission whose payload is as it says. *)
Lemma run_decided now t s sub bytes scope :
  Inv s → tidy s → wf_scope s = Some scope → (∀ b, hash_of_bytes b = hash_of_bytes bytes → b = bytes) →
  hash_of_bytes bytes = su_payload_digest sub → N.of_nat (String.length bytes) = su_payload_bytes sub →
  ∃ r s', runs_to now t (submit sub bytes now) s r s' ∧ tidy s' ∧
    match r with
    | Ok d => ∃ e, (d = Admit e ∨ d = Duplicate e) ∧ settled scope s' sub bytes e
    | Err err => s' = s ∧ ∃ p e, err = WsDomain e ∧ ev_envelope <$> wp_envelopes p = wf_envelopes s ∧ submission_fault scope p sub now e
    end.
Proof.
  intros HI Ht Hsc Hcoll Hd Hlen. destruct (run_submit now t s sub bytes scope HI Ht Hsc Hd Hlen) as (records & p & Hseen & Hp & Hrun).
  set (s1 := set_lock s (Some t)) in *. assert (Inv s1) as HI1 by by apply inv_set_lock.
  assert (set_lock s1 None = s) as Hback by (by apply set_lock_twice, Ht).
  assert (tidy (set_lock s1 None)) as Ht1 by by rewrite Hback.
  pose proof (admit_cases scope p sub now) as Hc.
  destruct (admit_submission scope p sub now) as [[e|e]|err]; [destruct Hc as [Hme Hn]|destruct Hc as [Hme Hs]|].
  - pose proof (nm_envelope _ _ _ _ _ Hn) as Hshape.
    assert (en_key e = submission_key sub ∧ en_payload_digest e = su_payload_digest sub ∧ en_payload_bytes e = su_payload_bytes sub)
      as (Hk & Hde & Hpb) by (by rewrite Hshape).
    assert (wf_envelopes s1 !! en_key e = None) as Hfree
      by (by rewrite <- (pj_envelopes _ _ _ Hp), lookup_fmap, Hk, (nm_free _ _ _ _ _ Hn)).
    exists (Ok (Admit e)), (set_lock (admitted_files t s1 e bytes now) None). split_and!.
    + apply Hrun; [|done]. apply run_commit_admit; [done|by rewrite Hde|by rewrite Hpb|done|done].
    + apply appended_settled. destruct Ht1. by split.
    + exists e. split; [by left|].
      assert (wf_envelopes (set_lock (admitted_files t s1 e bytes now) None) !! en_key e = Some e) as Hin by (cbn; by rewrite lookup_insert_eq).
      split; [done|done|done|cbn; by rewrite lookup_insert_eq| |].
      * apply (noted_appended t (entered t (stored s1 (en_payload_digest e) bytes) e)). apply Ht.
      * intros p' Hp'. destruct (lookup_stored p' _ _ e Hp' Hin) as (v & Hv & Hev). by eapply new_message_same.
  - destruct (run_duplicate now t s1 records sub bytes scope p e HI1 Ht1 eq_refl Hsc Hseen Hp Hd Hcoll Hme Hs)
      as (s' & Hr & Hl' & Ht' & [? ? ? ? ? ?]).
    exists (Ok (Duplicate e)), (set_lock s' None). split_and!; [by apply Hrun|done|]. exists e. split; [by right|]. by split.
  - exists (Err (WsDomain err)), s. split; [|split; [done|split; [done|]]].
    + rewrite <- Hback at 2. by apply Hrun.
    + exists p, err. split_and!; [done|exact (pj_envelopes _ _ _ Hp)|apply Hc].
Qed.

(** C16. From any state that calls, faults and kills can leave, with the lock
    free, no line cut and a scope declared, a submission that meets no fault
    ends: it is refused for a fault of its own and changes nothing, or it is
    accepted, and then the message, its bytes and the line of its admission are
    there. Whoever submits it again after that, at any time, is told that it is
    a duplicate, and nothing changes. Scopes have canonical forms, and no other
    bytes have the hash of the payload. *)
Theorem submission_settles y now now' t t' sub bytes scope
    (Hmessages : (max_messages ≤ u32_max)%N) (Hbytes : (max_bytes < u64_max)%N) :
  reachable no_files y → tidy (shared y) → wf_scope (shared y) = Some scope →
  (∀ b, hash_of_bytes b = hash_of_bytes bytes → b = bytes) →
  ∃ r s', runs_to now t (submit sub bytes now) (shared y) r s' ∧
    match r with
    | Ok d => ∃ e, (d = Admit e ∨ d = Duplicate e) ∧ wf_envelopes s' !! en_key e = Some e ∧
        wf_payloads s' !! en_payload_digest e = Some bytes ∧ admission_noted s' (en_key e) ∧
        runs_to now' t' (submit sub bytes now') s' (Ok (Duplicate e)) s'
    | Err err => s' = shared y ∧
        (err = PayloadMismatch ∧
           (hash_of_bytes bytes ≠ su_payload_digest sub ∨ N.of_nat (String.length bytes) ≠ su_payload_bytes sub) ∨
         ∃ p e, err = WsDomain e ∧ ev_envelope <$> wp_envelopes p = wf_envelopes (shared y) ∧ submission_fault scope p sub now e)
    end.
Proof.
  intros (HI & _)%mailbox_ok Ht Hsc Hcoll; [|done..].
  destruct (decide (hash_of_bytes bytes ≠ su_payload_digest sub ∨ N.of_nat (String.length bytes) ≠ su_payload_bytes sub)) as [Hm|Hm].
  { exists (Err PayloadMismatch), (shared y). split; [|split; [done|by left]]. unfold submit. by rewrite decide_True. }
  assert (hash_of_bytes bytes = su_payload_digest sub ∧ N.of_nat (String.length bytes) = su_payload_bytes sub) as [Hd Hlen]
    by (split; apply dec_stable; naive_solver).
  destruct (run_decided now t (shared y) sub bytes scope HI Ht Hsc Hcoll Hd Hlen) as (r & s' & Hrun & Ht' & Hr).
  exists r, s'. split; [done|]. destruct r as [d|err]; [|destruct Hr; split; [done|by right]].
  destruct Hr as (e & He & Hs). exists e. split_and!; [done|apply Hs..|].
  destruct (wp_run _ _ (M := retry_machine) _ _ _ _ _ _ _ HI (submit_wp _ _ Hmessages Hbytes t sub bytes now (shared y)) Hrun) as [HI' _].
  by apply (run_retry now' t' s' sub bytes scope e).
Qed.
End Retry.

(** ** Samples *)

Module RetrySamples.

(** One payload has a hash of its own. *)
#[local] Instance marked_text : WorkText := {|
  hash_of_bytes s := if decide (s = "draft") then MailSamples.zeros 64 else "1" +:+ s;
  hash_of_scope s := hash_of_scope (WorkText := MailSamples.mail_text) s;
  to_rfc3339 := to_rfc3339 (WorkText := MailSamples.mail_text);
  instant_max := instant_max (WorkText := MailSamples.mail_text);
|}.

Lemma draft_alone b : hash_of_bytes b = hash_of_bytes "draft" → b = "draft".
Proof.
  cbn [hash_of_bytes marked_text]. rewrite (decide_True (P := "draft" = "draft")) by done. case_decide; [done|].
  rewrite string_app_cons, string_app_nil_l. vm_compute. discriminate.
Qed.

Definition draft : submission :=
  Submission MailSamples.work MailRuns.this_revision "author" "critic" (Some "m-1")
    (hash_of_bytes "draft") 5 0 None None Internal None CallerEnvSameUid.

Definition declared_calls : list (circumstances * prog work_op work_answer) :=
  [(calm 0, prog_map AnsDeclare (declare MailSamples.mail_scope))].

Lemma submission_settles_witness :
  ∃ y r s', reachable (M := machine 2 100) no_files y ∧
    run (M := machine 2 100) (calm 1) 7 (submit draft "draft" 1) (shared y) = Some (r, s') ∧
    ∃ e, r = Ok (Admit e) ∧ run (M := machine 2 100) (calm 2) 8 (submit draft "draft" 2) s' = Some (Ok (Duplicate e), s').
Proof.
  destruct (play (M := machine 2 100) declared_calls (System no_files [])) as [y|] eqn:Hy; [|exfalso; vm_compute in Hy; discriminate].
  assert (reachable (M := machine 2 100) no_files y) as Hr.
  { apply (play_steps (M := machine 2 100) declared_calls); [|done]. apply Forall_cons_2; [by apply client_declare|apply Forall_nil_2]. }
  assert (tidy (shared y) ∧ wf_scope (shared y) = Some MailSamples.mail_scope) as [Ht Hsc].
  { clear Hr. vm_compute in Hy. injection Hy as <-. split; [|reflexivity]. split; [reflexivity|by intros k l Hl; exfalso; vm_compute in Hl; destruct k..]. }
  assert (∀ scope why, hash_of_scope scope ≠ Err why) as Hhash by (intros scope why; discriminate).
  assert (2 ≤ u32_max)%N as Hm by (vm_compute; discriminate). assert (100 < u64_max)%N as Hb by (vm_compute; reflexivity).
  destruct (submission_settles 2 100 Hhash y 1 2 7 8 draft "draft" MailSamples.mail_scope Hm Hb Hr Ht Hsc draft_alone)
    as (r & s' & Hrun & Hres).
  exists y, r, s'. split; [exact Hr|]. split; [exact Hrun|].
  clear Ht Hsc Hr. vm_compute in Hy. injection Hy as <-.
  assert (r = Ok (Admit (envelope_of draft MailSamples.work MailRuns.this_revision "m-1" 1 60000000001 1))) as ->
    by (apply (f_equal (fmap fst)) in Hrun; vm_compute in Hrun; vm_compute; congruence).
  destruct Hres as (e & He & _ & _ & _ & Hagain). exists e. split; [|exact Hagain].
  destruct He as [->|?]; [reflexivity|discriminate].
Defined.
End RetrySamples.
