(* ===== verification/Collaboration.v ===== *)
(** Who may act for a work seat or a mission from another machine:
    [crates/cosmon-core/src/collaboration.rs] (bindings, admission, recheck)
    and the admission of [crates/cosmon-rpp-adapter/src/collaboration.rs] with
    the scope decision of [auth/scopes.rs]. Hashes are those of [WorkText]. *)
From stdpp Require Import prelude gmap strings list.
From Stdlib Require Import Ascii.
From S2P Require Import Prelude Text Ids Links WorkMessage.

(** ** Identifiers *)

Definition binding_schema_version : N := 1.
Definition proof_domain : string := "cosmon-collaboration-attachment-proof-v1".
Definition proof_secret_bytes : nat := 32.
Definition proof_prefix : string := "cap1-".
Definition max_label_bytes : nat := 120.

(** [{byte:02x}] of each byte. *)
Fixpoint to_hex (bytes : string) : string :=
  match bytes with
  | EmptyString => EmptyString
  | String c bytes =>
      let n := N.of_nat (code c) in String (hex_digit (n / 16)) (String (hex_digit (n mod 16)) (to_hex bytes))
  end.

Inductive collaboration_scope : Set := WorkRead | WorkWrite | SessionsRead | SessionsWrite.

#[export] Instance collaboration_scope_eq_dec : EqDecision collaboration_scope.
Proof. solve_decision. Defined.

Definition scope_index (s : collaboration_scope) : nat :=
  match s with WorkRead => 0 | WorkWrite => 1 | SessionsRead => 2 | SessionsWrite => 3 end.

(** [ALL], which is also the derived order. *)
Definition all_scopes : list collaboration_scope := [WorkRead; WorkWrite; SessionsRead; SessionsWrite].

#[export] Instance collaboration_scope_countable : Countable collaboration_scope.
Proof. refine (inj_countable scope_index (all_scopes !!.) _). by intros []. Defined.

Definition scope_str (s : collaboration_scope) : string :=
  match s with
  | WorkRead => "cosmon:work:read"
  | WorkWrite => "cosmon:work:write"
  | SessionsRead => "cosmon:sessions:read"
  | SessionsWrite => "cosmon:sessions:write"
  end.

Inductive binding_spec_error : Type :=
| InvalidBindingId (kind value : string)
| InvalidIdentity (field : string)
| UnknownScope (value : string)
| NoScopeGranted
| ScopeOutsideCapability (scope : collaboration_scope) (capability : string)
| InvalidLabel
| MalformedProof.

Definition is_lower_hex (c : ascii) : bool := is_ascii_digit c || bool_decide (code "a" ≤ code c ∧ code c ≤ code "f").

(** [binding_id!]: [BindingId::new] and [AttachmentId::new]. *)
Definition prefixed_id_new (kind prefix value : string) : result binding_spec_error string :=
  if match strip_prefix prefix value with
     | Some hex => bool_decide (16 ≤ String.length hex ≤ 64) && all_chars is_lower_hex hex
     | None => false
     end
  then Ok value else Err (InvalidBindingId kind value).

Definition binding_prefix : string := "cb-".
Definition attachment_prefix : string := "att-".
Definition binding_id_new (value : string) : result binding_spec_error string := prefixed_id_new "binding id" binding_prefix value.
Definition attachment_id_new (value : string) : result binding_spec_error string :=
  prefixed_id_new "attachment id" attachment_prefix value.

(** [from_random] *)
Definition id_from_random (prefix bytes : string) : string := prefix +:+ to_hex bytes.

(** [saturating_add] *)
Definition revision_next (r : N) : N := N.min u64_max (r + 1).

(** ** Identities, scopes and capabilities *)

Record admitted_identity := AdmittedIdentity {
  ai_issuer : string;
  ai_subject : string;
  ai_audience : string;
  ai_tenant : string;
}.

#[export] Instance admitted_identity_eq_dec : EqDecision admitted_identity.
Proof. solve_decision. Defined.

Definition identity_fields (i : admitted_identity) : list (string * string) :=
  [("issuer", ai_issuer i); ("subject", ai_subject i); ("audience", ai_audience i); ("tenant", ai_tenant i)].

Definition bad_component (value : string) : bool :=
  is_empty value || bool_decide (512 < String.length value) || any_control value.

(** The loop over the fields. *)
Fixpoint check_identity (fields : list (string * string)) : result binding_spec_error () :=
  match fields with
  | [] => Ok ()
  | (field, value) :: fields => if bad_component value then Err (InvalidIdentity field) else check_identity fields
  end.

Definition identity_validate (i : admitted_identity) : result binding_spec_error () := check_identity (identity_fields i).

Definition identity_new (issuer subject audience tenant : string) : result binding_spec_error admitted_identity :=
  let i := AdmittedIdentity issuer subject audience tenant in _ ← identity_validate i; Ok i.

Definition scope_parse (value : string) : result binding_spec_error collaboration_scope :=
  match head (filter (λ s, scope_str s = value) all_scopes) with
  | Some s => Ok s
  | None => Err (UnknownScope value)
  end.

Definition satisfies (held required : collaboration_scope) : bool :=
  bool_decide (held = required) ||
  match held, required with WorkWrite, WorkRead | SessionsWrite, SessionsRead => true | _, _ => false end.

Definition is_work (s : collaboration_scope) : bool := match s with WorkRead | WorkWrite => true | _ => false end.

Inductive collaboration_capability : Type :=
| WorkSeat (owner : mid) (seat : string)
| PilotMission (mission : mid).

#[export] Instance collaboration_capability_eq_dec : EqDecision collaboration_capability.
Proof. solve_decision. Defined.

Inductive collaboration_target : Type := TargetWork (owner : mid) | TargetMission (mission : mid).

Definition family (c : collaboration_capability) : string :=
  match c with WorkSeat _ _ => "work seat" | PilotMission _ => "pilot mission" end.

Definition admits_scope (c : collaboration_capability) (s : collaboration_scope) : bool :=
  match c with WorkSeat _ _ => is_work s | PilotMission _ => negb (is_work s) end.

Definition covers (c : collaboration_capability) (t : collaboration_target) : bool :=
  match c, t with
  | WorkSeat owner _, TargetWork wanted => bool_decide (owner = wanted)
  | PilotMission mission, TargetMission wanted => bool_decide (mission = wanted)
  | _, _ => false
  end.

(** ** Proofs of attachment *)

Record attachment_proof := AttachmentProof { expose_secret : string }.

Definition proof_from_secret_bytes (bytes : string) : attachment_proof := AttachmentProof (proof_prefix +:+ to_hex bytes).

Definition proof_parse (text : string) : result binding_spec_error attachment_proof :=
  let text := trim text in
  if match strip_prefix proof_prefix text with
     | Some hex => bool_decide (String.length hex = 2 * proof_secret_bytes) && all_chars is_ascii_hexdigit hex
     | None => false
     end
  then Ok (AttachmentProof (to_ascii_lowercase text)) else Err MalformedProof.

Definition verifier `{WorkText} (p : attachment_proof) : string :=
  hash_of_bytes (proof_domain +:+ String (ascii_of_nat 31) (expose_secret p)).

Definition verifier_matches `{WorkText} (v : string) (p : attachment_proof) : bool := bool_decide (verifier p = v).

(** ** Bindings *)

Record collaboration_binding := CollaborationBinding {
  cb_schema_version : N;
  cb_id : string;
  cb_identity : admitted_identity;
  cb_capability : collaboration_capability;
  cb_attachment : string;
  cb_verifier : string;
  cb_scopes : gset collaboration_scope;
  cb_revision : N;
  cb_label : option string;
  cb_created_at : Z;
  cb_revoked_at : option Z;
}.

#[export] Instance collaboration_binding_eq_dec : EqDecision collaboration_binding.
Proof. solve_decision. Defined.

Record binding_spec := BindingSpec {
  bs_identity : admitted_identity;
  bs_capability : collaboration_capability;
  bs_scopes : gset collaboration_scope;
  bs_label : option string;
}.

Definition outside_capability (b : collaboration_binding) : option collaboration_scope :=
  head (filter (λ s, s ∈ cb_scopes b ∧ admits_scope (cb_capability b) s = false) all_scopes).

Definition binding_validate (b : collaboration_binding) : result binding_spec_error () :=
  _ ← identity_validate (cb_identity b);
  if decide (cb_scopes b = ∅) then Err NoScopeGranted
  else
    match outside_capability b with
    | Some s => Err (ScopeOutsideCapability s (family (cb_capability b)))
    | None =>
        match cb_label b with
        | Some label =>
            if decide (max_label_bytes < String.length label) then Err InvalidLabel
            else if any_control label then Err InvalidLabel else Ok ()
        | None => Ok ()
        end
    end.

(** [CollaborationBinding::provision] *)
Definition provision_binding `{WorkText} (spec : binding_spec) (id attachment : string) (p : attachment_proof)
    (created_at : Z) : result binding_spec_error collaboration_binding :=
  let b := CollaborationBinding binding_schema_version id (bs_identity spec) (bs_capability spec) attachment (verifier p)
             (bs_scopes spec) 1 (bs_label spec) created_at None in
  _ ← binding_validate b; Ok b.

Definition is_active (b : collaboration_binding) : bool := bool_decide (cb_revoked_at b = None).

Definition revoked (b : collaboration_binding) (at_ : Z) : collaboration_binding :=
  if negb (is_active b) then b
  else
    CollaborationBinding (cb_schema_version b) (cb_id b) (cb_identity b) (cb_capability b) (cb_attachment b) (cb_verifier b)
      (cb_scopes b) (revision_next (cb_revision b)) (cb_label b) (cb_created_at b) (Some at_).

Definition grants (b : collaboration_binding) (required : collaboration_scope) : bool :=
  existsb (λ s, bool_decide (s ∈ cb_scopes b) && satisfies s required) all_scopes.

Inductive binding_set_error : Type :=
| DuplicateBinding (kind value : string)
| InvalidBinding (id : string) (source : binding_spec_error).

(** [BindingSet]: the bindings by attachment. *)
Abbreviation binding_set := (gmap string collaboration_binding).

(** The loop of [BindingSet::new]. *)
Fixpoint collect_bindings (ids : gset string) (set : binding_set) (l : list collaboration_binding) :
    result binding_set_error binding_set :=
  match l with
  | [] => Ok set
  | b :: l =>
      match binding_validate b with
      | Err e => Err (InvalidBinding (cb_id b) e)
      | Ok _ =>
          if decide (cb_id b ∈ ids) then Err (DuplicateBinding "binding id" (cb_id b))
          else if decide (is_Some (set !! cb_attachment b)) then Err (DuplicateBinding "attachment id" (cb_attachment b))
          else collect_bindings ({[cb_id b]} ∪ ids) (<[cb_attachment b := b]> set) l
      end
  end.

Definition binding_set_new (l : list collaboration_binding) : result binding_set_error binding_set := collect_bindings ∅ ∅ l.

(** ** Admission *)

Record admission_request := AdmissionRequest {
  ar_identity : admitted_identity;
  ar_attachment : string;
  ar_proof : attachment_proof;
  ar_target : collaboration_target;
  ar_required : collaboration_scope;
}.

Inductive collaboration_refusal : Set := BindingMissing | BindingRevoked | ScopeMissing.

Definition refusal_code (r : collaboration_refusal) : string :=
  match r with
  | BindingMissing => "binding_missing"
  | BindingRevoked => "binding_revoked"
  | ScopeMissing => "scope_missing"
  end.

Record admitted_collaborator := AdmittedCollaborator {
  ac_binding : string;
  ac_revision : N;
  ac_attachment : string;
  ac_identity : admitted_identity;
  ac_capability : collaboration_capability;
  ac_scope : collaboration_scope;
}.

Definition work_caller (a : admitted_collaborator) : option admitted_work_caller :=
  match ac_capability a with
  | WorkSeat owner seat => Some (AdmittedWorkCaller owner seat AdmittedNonLocal)
  | PilotMission _ => None
  end.

(** The chain of [filter]s. *)
Definition matching `{WorkText} (set : binding_set) (q : admission_request) : option collaboration_binding :=
  b ← set !! ar_attachment q;
  if decide (cb_identity b = ar_identity q ∧ covers (cb_capability b) (ar_target q) = true ∧
             verifier_matches (cb_verifier b) (ar_proof q) = true)
  then Some b else None.

(** [admit] *)
Definition collaborator_admit `{WorkText} (set : binding_set) (q : admission_request) :
    result collaboration_refusal admitted_collaborator :=
  match matching set q with
  | None => Err BindingMissing
  | Some b =>
      if negb (is_active b) then Err BindingRevoked
      else if negb (grants b (ar_required q)) then Err ScopeMissing
      else Ok (AdmittedCollaborator (cb_id b) (cb_revision b) (cb_attachment b) (cb_identity b) (cb_capability b) (ar_required q))
  end.

Definition still_matching (set : binding_set) (a : admitted_collaborator) : option collaboration_binding :=
  b ← set !! ac_attachment a;
  if decide (cb_id b = ac_binding a ∧ cb_identity b = ac_identity a ∧ cb_capability b = ac_capability a) then Some b else None.

Definition recheck (set : binding_set) (a : admitted_collaborator) : result collaboration_refusal () :=
  match still_matching set a with
  | None => Err BindingMissing
  | Some b =>
      if negb (is_active b) || negb (bool_decide (cb_revision b = ac_revision a)) then Err BindingRevoked
      else if negb (grants b (ac_scope a)) then Err ScopeMissing
      else Ok ()
  end.

(** ** The boundary of HTTP *)

Definition molecule_harvest_scope : string := "cosmon:molecule:harvest".
Definition grant_source_jwt : string := "jwt".
Definition grant_source_binding : string := "binding".

(** The binding of an identity that declares scopes is the whole grant. *)
Definition scope_decision (token_scopes : list string) (binding_grant : option (list string)) (wanted_any : list string) :
    option string :=
  match binding_grant with
  | Some allowed => if existsb (λ w, bool_decide (w ∈ allowed)) wanted_any then Some grant_source_binding else None
  | None =>
      if existsb (λ w, negb (bool_decide (w = molecule_harvest_scope)) && bool_decide (w ∈ token_scopes)) wanted_any
      then Some grant_source_jwt else None
  end.

Record validated_jwt := ValidatedJwt { jw_iss : string; jw_sub : string; jw_aud : string; jw_scopes : list string }.

Definition attachment_header : string := "cosmon-attachment".
Definition attachment_proof_header : string := "cosmon-attachment-proof".

(** [HeaderValue::to_str]: visible ASCII and tabs. *)
Definition header_char (c : ascii) : bool := bool_decide (32 ≤ code c < 127 ∨ code c = 9).

(** The value of a header that is there once. *)
Definition header (headers : list (string * string)) (name : string) : option string :=
  match snd <$> filter (λ h, h.1 = name) headers with
  | [value] => if all_chars header_char value then Some value else None
  | _ => None
  end.

Definition result_ok {E A} (r : result E A) : option A := match r with Ok a => Some a | Err _ => None end.

Definition carries (jwt : validated_jwt) (granted : option (list string)) (s : collaboration_scope) : bool :=
  is_some (scope_decision (jw_scopes jwt) granted [scope_str s]).

(** [admit_collaborator] up to the bindings: what it asks of them. [granted] is
    what the map of habilitations allows the caller. *)
Definition collaborator_request (jwt : validated_jwt) (granted : option (list string)) (tenant : string)
    (headers : list (string * string)) (target : collaboration_target) (required : collaboration_scope) :
    result collaboration_refusal admission_request :=
  if negb (existsb (λ held, satisfies held required && carries jwt granted held) all_scopes) then Err ScopeMissing
  else
    match value ← header headers attachment_header; result_ok (attachment_id_new value) with
    | None => Err BindingMissing
    | Some attachment =>
        match value ← header headers attachment_proof_header; result_ok (proof_parse value) with
        | None => Err BindingMissing
        | Some proof =>
            match identity_new (jw_iss jwt) (jw_sub jwt) (jw_aud jwt) tenant with
            | Err _ => Err BindingMissing
            | Ok caller => Ok (AdmissionRequest caller attachment proof target required)
            end
        end
    end.

(** ** Sets of bindings *)

Lemma collect_bindings_ok ids set l set' :
  collect_bindings ids set l = Ok set' ↔
    Forall (λ b, binding_validate b = Ok ()) l ∧ NoDup (cb_id <$> l) ∧ NoDup (cb_attachment <$> l) ∧
    (∀ b, b ∈ l → (cb_id b ∉ ids) ∧ set !! cb_attachment b = None) ∧
    ∀ k, set' !! k = match head (filter (λ b, cb_attachment b = k) l) with Some b => Some b | None => set !! k end.
Proof.
  revert ids set. induction l as [|b l IH]; intros ids set; cbn [collect_bindings fmap list_fmap].
  { split; [intros [= ->]; split_and!; [constructor..|by intros b ?%elem_of_nil|done]|].
    intros (_ & _ & _ & _ & Hk). f_equal. apply map_eq. intros k. by rewrite Hk. }
  rewrite Forall_cons, !NoDup_cons. destruct (binding_validate b) as [[]|e] eqn:Hv; [|split; [done|intros ([? _] & _); done]].
  case_decide as Hid; [split; [done|]; intros (_ & _ & _ & Hb & _); by destruct (Hb b ltac:(left))|].
  case_decide as Hat; [split; [done|]; intros (_ & _ & _ & Hb & _); destruct (Hb b ltac:(left)) as [_ Hn]; by rewrite Hn in Hat; destruct Hat|].
  assert (set !! cb_attachment b = None) as Hnone by (by apply eq_None_not_Some). rewrite IH.
  assert (∀ k, ((match head (filter (λ b, cb_attachment b = k) l) with Some b0 => Some b0 | None => <[cb_attachment b := b]> set !! k end) =
     (match head (filter (λ b, cb_attachment b = k) (b :: l)) with Some b0 => Some b0 | None => set !! k end)) ∨ cb_attachment b ∈ cb_attachment <$> l) as Hsame.
  { intros k. rewrite filter_cons. case_decide as Hk; [|left; destruct (head _); [done|]; by rewrite lookup_insert_ne].
    destruct (head (filter _ l)) as [b'|] eqn:Hh; [right|left; cbn; subst k; by rewrite lookup_insert_eq].
    apply head_Some_elem_of, list_elem_of_filter in Hh as [Hb' Hin]. rewrite Hk, <- Hb'. by apply list_elem_of_fmap_2. }
  split.
  - intros (Hall & Hid' & Hat' & Hfree & Hk).
    assert (cb_id b ∉ cb_id <$> l) as Hn1.
    { intros (b' & Heq & Hin)%list_elem_of_fmap. destruct (Hfree b' Hin) as [Hnot _]. apply Hnot. rewrite <- Heq. set_solver. }
    assert (cb_attachment b ∉ cb_attachment <$> l) as Hn2.
    { intros (b' & Heq & Hin)%list_elem_of_fmap. destruct (Hfree b' Hin) as [_ Hnot]. rewrite <- Heq, lookup_insert_eq in Hnot. done. }
    split_and!; [done|done|done|done|done|done| |].
    + intros b' [->|Hin]%elem_of_cons; [done|]. destruct (Hfree b' Hin) as [H1 H2]. split; [set_solver|].
      apply lookup_insert_None in H2 as [? _]. done.
    + intros k. rewrite Hk. by destruct (Hsame k).
  - intros ((_ & Hall) & [Hn1 Hid'] & [Hn2 Hat'] & Hfree & Hk). split_and!; [done..| |].
    + intros b' Hin. destruct (Hfree b' ltac:(by right)) as [H1 H2]. split.
      * intros [Heq%elem_of_singleton|?]%elem_of_union; [|done]. apply Hn1. rewrite <- Heq. by apply list_elem_of_fmap_2.
      * rewrite lookup_insert_ne; [done|]. intros Heq. apply Hn2. rewrite Heq. by apply list_elem_of_fmap_2.
    + intros k. rewrite Hk. by destruct (Hsame k).
Qed.

Lemma binding_set_lookup l set k b :
  binding_set_new l = Ok set → set !! k = Some b ↔ b ∈ l ∧ cb_attachment b = k.
Proof.
  intros (_ & _ & Hat & _ & Hk)%collect_bindings_ok. rewrite Hk, lookup_empty. split.
  - destruct (head _) as [b'|] eqn:Hh; [|done]. intros [= <-]. by apply head_Some_elem_of, list_elem_of_filter in Hh as [? ?].
  - intros [Hin <-]. assert (∀ b', b' ∈ l → cb_attachment b' = cb_attachment b → b' = b) as Hinj.
    { intros b' Hin' Heq. clear Hk. induction l as [|x l IH]; [by apply elem_of_nil in Hin|].
      rewrite fmap_cons in Hat. apply NoDup_cons in Hat as [Hx Hat].
      apply elem_of_cons in Hin as [->|Hin], Hin' as [->|Hin']; [done| | |by apply IH].
      - destruct Hx. rewrite <- Heq. by apply list_elem_of_fmap_2.
      - destruct Hx. rewrite Heq. by apply list_elem_of_fmap_2. }
    destruct (head _) as [b'|] eqn:Hh.
    + apply head_Some_elem_of, list_elem_of_filter in Hh as [Heq Hin']. f_equal. by apply Hinj.
    + apply head_None in Hh. assert (b ∈ filter (λ b0, cb_attachment b0 = cb_attachment b) l) as Hb by (by apply list_elem_of_filter).
      rewrite Hh in Hb. by apply elem_of_nil in Hb.
Qed.

Lemma grants_spec b s : grants b s = true ↔ ∃ held, held ∈ cb_scopes b ∧ satisfies held s = true.
Proof.
  unfold grants. rewrite existsb_exists. split.
  - intros (h & _ & [Hh Hs]%andb_prop). apply bool_decide_eq_true in Hh. eauto.
  - intros (h & Hh & Hs). exists h. rewrite Hs, bool_decide_eq_true_2 by done. split; [|done]. destruct h; cbn; auto.
Qed.

Lemma outside_none b : outside_capability b = None ↔ ∀ s, s ∈ cb_scopes b → admits_scope (cb_capability b) s = true.
Proof.
  unfold outside_capability. split.
  - intros Hh s Hs. destruct (admits_scope (cb_capability b) s) eqn:Ha; [done|]. exfalso.
    apply head_None in Hh. assert (s ∈ filter (λ s, s ∈ cb_scopes b ∧ admits_scope (cb_capability b) s = false) all_scopes) as Hin
      by (apply list_elem_of_filter; split; [done|]; destruct s; cbn; set_solver).
    rewrite Hh in Hin. by apply elem_of_nil in Hin.
  - intros Hall. destruct (head _) as [s|] eqn:Hh; [|done]. apply head_Some_elem_of, list_elem_of_filter in Hh as [[Hs Ha] _].
    rewrite Hall in Ha; done.
Qed.

(** ** Admissions *)

#[local] Arguments grants : simpl never.

Section Admission.
Context `{WorkText}.

Lemma satisfies_admits c held required : admits_scope c held = true → satisfies held required = true → admits_scope c required = true.
Proof. by destruct c, held, required. Qed.

(** A request names a binding by its attachment and fits it. *)
Record fits (q : admission_request) (b : collaboration_binding) : Prop := {
  ft_attachment : cb_attachment b = ar_attachment q;
  ft_identity : cb_identity b = ar_identity q;
  ft_target : covers (cb_capability b) (ar_target q) = true;
  ft_proof : verifier (ar_proof q) = cb_verifier b;
}.

Lemma matching_spec l set q b : binding_set_new l = Ok set → matching set q = Some b ↔ b ∈ l ∧ fits q b.
Proof.
  intros Hl. unfold matching, verifier_matches. split.
  - destruct (set !! ar_attachment q) as [b'|] eqn:Hb; [|done]. cbn. case_decide as Hd; [|done]. intros [= ->].
    apply (binding_set_lookup _ _ _ _ Hl) in Hb as [Hin Ha]. destruct Hd as (Hi & Hc & Hv). apply bool_decide_eq_true in Hv.
    split; [done|]. by split.
  - intros [Hin [Ha Hi Hc Hv]]. assert (set !! ar_attachment q = Some b) as -> by (by apply (binding_set_lookup _ _ _ _ Hl)).
    cbn. rewrite decide_True; [done|]. split_and!; [done..|]. by apply bool_decide_eq_true.
Qed.

(** The caller on whose behalf a work operation then runs. *)
Definition acts_for (b : collaboration_binding) (q : admission_request) (c : admitted_work_caller) : Prop :=
  cb_capability b = WorkSeat (cl_scope_owner c) (cl_seat c) ∧ ar_target q = TargetWork (cl_scope_owner c) ∧
  cl_evidence c = AdmittedNonLocal.

(** C15. Over a valid set of bindings a request is admitted exactly when one
    binding, the only one of its attachment, has the caller's identity, covers
    the target, knows the proof, is not revoked and grants the scope; the scope
    then belongs to the binding's family, the seat and the work are the
    binding's, and a recheck against the same set agrees. Each refusal says
    which of these failed first, and the first four fail alike. *)
Theorem collaborator_exact l set q :
  binding_set_new l = Ok set →
  match collaborator_admit set q with
  | Ok a => ∃ b, b ∈ l ∧ fits q b ∧ (∀ b', b' ∈ l → cb_attachment b' = ar_attachment q → b' = b) ∧
      cb_revoked_at b = None ∧ (∃ held, held ∈ cb_scopes b ∧ satisfies held (ar_required q) = true) ∧
      admits_scope (cb_capability b) (ar_required q) = true ∧
      a = AdmittedCollaborator (cb_id b) (cb_revision b) (ar_attachment q) (ar_identity q) (cb_capability b) (ar_required q) ∧
      (∀ c, work_caller a = Some c → acts_for b q c) ∧ recheck set a = Ok ()
  | Err BindingMissing => ∀ b, b ∈ l → ¬ fits q b
  | Err BindingRevoked => ∃ b, b ∈ l ∧ fits q b ∧ cb_revoked_at b ≠ None
  | Err ScopeMissing => ∃ b, b ∈ l ∧ fits q b ∧ cb_revoked_at b = None ∧
      ∀ held, held ∈ cb_scopes b → satisfies held (ar_required q) = false
  end.
Proof.
  intros Hl. unfold collaborator_admit. destruct (matching set q) as [b|] eqn:Hm.
  2:{ intros b Hin Hf. assert (matching set q = Some b) by (by apply (matching_spec l)). congruence. }
  apply (matching_spec _ _ _ _ Hl) in Hm as [Hin Hf]. unfold is_active. case_bool_decide as Hr; cbn [negb]; [|by exists b].
  destruct (grants b (ar_required q)) eqn:Hg; cbn [negb].
  2:{ exists b. split_and!; [done..|]. intros held Hh. destruct (satisfies held _) eqn:Hs; [|done].
      assert (grants b (ar_required q) = true) by (apply grants_spec; eauto). congruence. }
  pose proof Hg as (held & Hh & Hs)%grants_spec. pose proof Hl as (Hval & _)%collect_bindings_ok.
  rewrite Forall_forall in Hval. specialize (Hval b Hin).
  assert (admits_scope (cb_capability b) (ar_required q) = true) as Hadm.
  { apply (satisfies_admits _ held); [|done]. unfold binding_validate in Hval. destruct (identity_validate _); [|done]. cbn in Hval.
    case_decide; [done|]. destruct (outside_capability b) eqn:Ho; [done|]. by apply outside_none. }
  assert (set !! ar_attachment q = Some b) as Hlook by (apply (binding_set_lookup _ _ _ _ Hl); split; [done|apply Hf]).
  exists b. split_and!; [done|done| |done|by exists held|done| | |].
  - intros b' Hb' Ha'. assert (set !! ar_attachment q = Some b') as Hlook' by (by apply (binding_set_lookup _ _ _ _ Hl)). congruence.
  - by rewrite (ft_attachment _ _ Hf), (ft_identity _ _ Hf).
  - intros c. unfold work_caller. cbn. pose proof (ft_target _ _ Hf) as Ht. unfold acts_for.
    destruct (cb_capability b) as [owner seat|mission]; [|done]. intros [= <-]. cbn in *. destruct (ar_target q) as [wanted|]; [|done].
    apply bool_decide_eq_true in Ht. by subst.
  - unfold recheck, still_matching. cbn. rewrite (ft_attachment _ _ Hf), Hlook. cbn. rewrite decide_True by done.
    unfold is_active. rewrite !bool_decide_eq_true_2 by done. cbn. by rewrite Hg.
Qed.

(** ** Rechecks *)

Lemma recheck_ok l set a :
  binding_set_new l = Ok set →
  recheck set a = Ok () ↔ ∃ b, b ∈ l ∧ cb_id b = ac_binding a ∧ cb_attachment b = ac_attachment a ∧ cb_identity b = ac_identity a ∧
    cb_capability b = ac_capability a ∧ cb_revision b = ac_revision a ∧ cb_revoked_at b = None ∧ grants b (ac_scope a) = true.
Proof.
  intros Hl. unfold recheck, still_matching. split.
  - destruct (set !! ac_attachment a) as [b|] eqn:Hb; [|done]. cbn. apply (binding_set_lookup _ _ _ _ Hl) in Hb as [Hin Ha].
    case_decide as Hd; [|done]. unfold is_active. destruct Hd as (? & ? & ?).
    case_bool_decide as Hr; [|done]. case_bool_decide; [|done]. cbn. destruct (grants b _) eqn:Hg; [|done]. intros _.
    exists b. by split_and!.
  - intros (b & Hin & Hid & Ha & Hi & Hc & Hrev & Hr & Hg).
    assert (set !! ac_attachment a = Some b) as -> by (by apply (binding_set_lookup _ _ _ _ Hl)). cbn. rewrite decide_True by done.
    unfold is_active. rewrite !bool_decide_eq_true_2 by done. cbn. by rewrite Hg.
Qed.
End Admission.

(** The names of the scopes are told apart. *)
Lemma scope_parse_str s : scope_parse (scope_str s) = Ok s.
Proof. by destruct s. Qed.

(** ** Samples *)

Module CollaborationSamples.
Import MailSamples.

Definition remote_critic : admitted_identity := AdmittedIdentity "https://issuer" "critic" "cosmon" "lab".

Definition secret : attachment_proof := proof_from_secret_bytes (zeros 32).

Definition critic_binding : collaboration_binding :=
  CollaborationBinding 1 (id_from_random binding_prefix "12345678") remote_critic (WorkSeat work "critic")
    (id_from_random attachment_prefix "abcdefgh") (verifier secret) {[WorkWrite]} 1 None 0 None.

Definition mission_binding : collaboration_binding :=
  CollaborationBinding 1 (id_from_random binding_prefix "87654321") remote_critic (PilotMission critic)
    (id_from_random attachment_prefix "hgfedcba") (verifier secret) {[SessionsRead]} 1 (Some "laptop") 0 None.

Definition remote_jwt : validated_jwt := ValidatedJwt "https://issuer" "critic" "cosmon" ["cosmon:work:write"].

Definition remote_headers : list (string * string) :=
  [("cosmon-attachment", id_from_random attachment_prefix "abcdefgh"); ("cosmon-attachment-proof", expose_secret secret)].

Definition remote_request : admission_request :=
  AdmissionRequest remote_critic (id_from_random attachment_prefix "abcdefgh") secret (TargetWork work) WorkRead.

(** Ids and proofs that the store makes are well formed, and a request of the
    boundary reaches the admission; a header that is there twice does not. *)
Example sample_request :
  binding_id_new (cb_id critic_binding) = Ok (cb_id critic_binding) ∧
  proof_parse (" " +:+ expose_secret secret) = Ok secret ∧
  collaborator_request remote_jwt None "lab" remote_headers (TargetWork work) WorkRead = Ok remote_request ∧
  collaborator_request remote_jwt None "lab" (remote_headers ++ remote_headers) (TargetWork work) WorkRead = Err BindingMissing ∧
  collaborator_request remote_jwt (Some []) "lab" remote_headers (TargetWork work) WorkRead = Err ScopeMissing.
Proof. vm_compute. done. Qed.

Definition sample_set : binding_set := default ∅ (result_ok (binding_set_new [critic_binding; mission_binding])).
Definition sample_admission : option admitted_collaborator := result_ok (collaborator_admit sample_set remote_request).

Lemma collaborator_exact_witness :
  ∃ a b, binding_set_new [critic_binding; mission_binding] = Ok sample_set ∧ collaborator_admit sample_set remote_request = Ok a ∧
    fits remote_request b ∧ recheck sample_set a = Ok () ∧ work_caller a = Some (AdmittedWorkCaller work "critic" AdmittedNonLocal).
Proof.
  assert (is_some (result_ok (binding_set_new [critic_binding; mission_binding])) = true) as Hok by (vm_compute; reflexivity).
  assert (binding_set_new [critic_binding; mission_binding] = Ok sample_set) as Hl.
  { unfold sample_set. destruct (binding_set_new _); [reflexivity|discriminate]. }
  assert ((sample_admission ≫= work_caller) = Some (AdmittedWorkCaller work "critic" AdmittedNonLocal)) as Hcaller by (vm_compute; reflexivity).
  unfold sample_admission in Hcaller. pose proof (collaborator_exact [critic_binding; mission_binding] sample_set remote_request Hl) as Hc.
  destruct (collaborator_admit sample_set remote_request) as [a|r]; [|discriminate].
  destruct Hc as (b & _ & Hf & _ & _ & _ & _ & _ & _ & Hr). exists a, b.
  split; [exact Hl|]. split; [reflexivity|]. split; [exact Hf|]. split; [exact Hr|exact Hcaller].
Defined.

Example sample_refusals :
  match binding_set_new [revoked critic_binding 5; mission_binding] with
  | Ok set => collaborator_admit set remote_request = Err BindingRevoked
  | Err _ => False
  end ∧
  binding_set_new [critic_binding; critic_binding] = Err (DuplicateBinding "binding id" (cb_id critic_binding)).
Proof. vm_compute. done. Qed.
End CollaborationSamples.
