(* ===== verification/Bindings.v ===== *)
(** The custody of collaboration bindings,
    [crates/cosmon-state/src/collaboration.rs]: provision and revocation under
    the exclusive lock, admission without a lock, and effects that run under
    the shared lock after a recheck. The calls are programs of [Concurrent]
    over one directory of bindings. *)
From stdpp Require Import prelude gmap strings list relations.
From Stdlib Require Import Ascii.
From S2P Require Import Prelude Text Ids Links Concurrent WorkMessage Collaboration.

(** ** The directory *)

(** What a name of the directory can be; a file too large or not of this kind
    was put there by somebody else. *)
Inductive dir_entry : Type := NotRegular | TooLarge | NotBinding | BindingRecord (b : collaboration_binding).

(** Who revoked and for whom an effect ran; no code reads it. *)
Inductive binding_event : Type := DidRevoke (t : nat) (id : string) | DidEffect (t : nat) (a : admitted_collaborator).

Abbreviation directory := (gmap string dir_entry).

Record binding_files := BindingFiles {
  bf_exclusive : option nat;
  bf_shared : gset nat;
  bf_lock_file : bool;
  bf_entries : directory;
  bf_trace : list binding_event;
}.

(** The texts of [Corrupt] are for people. *)
Inductive collaboration_store_error : Type :=
| CsIo
| CsJson
| CsSpec (e : binding_spec_error)
| CsSet (e : binding_set_error)
| CsCorrupt
| CsFull
| CsUnknownBinding (id : string)
| CsRefused (r : collaboration_refusal).

Abbreviation store_answer A := (result collaboration_store_error A).

Inductive commit_error : Type := CommitBinding (e : collaboration_store_error) | CommitEffect.

Definition max_bindings : nat := 256.

Definition file_name (id : string) : string := id +:+ ".json".

(** ** Operations *)

Inductive binding_op : Type → Type :=
| LockExclusive : binding_op (store_answer ())
| LockShared : binding_op (store_answer ())
| DropLock : binding_op ()
| ListBindings : binding_op (store_answer (list string))
| ReadBinding (name : string) : binding_op (store_answer dir_entry)
| DrawIds (current : binding_set) : binding_op (store_answer (string * string))
| DrawSecret : binding_op (store_answer string)
| WriteBinding (b : collaboration_binding) : binding_op (store_answer ())
| Effect (a : admitted_collaborator) : binding_op (result () ()).

(** How an operation fares: it may fail, a write that fails may have had its
    effect, a directory is listed in some order, randomness gives some bytes,
    and the effect of a request succeeds or not. *)
Record binding_circumstances := BindingCircumstances {
  bc_fails : option collaboration_store_error;
  bc_effect : bool;
  bc_order : list string;
  bc_id : string;
  bc_attachment : string;
  bc_secret : string;
  bc_outcome : bool;
}.

Definition ids_taken (current : binding_set) (id attachment : string) : bool :=
  existsb (λ b, bool_decide (cb_id b = id) || bool_decide (cb_attachment b = attachment)) (values_in_order current).

Section Exec.
Context (c : binding_circumstances) (t : nat).

(** Only input, output and the encoder fail by chance. *)
Definition trouble : option collaboration_store_error :=
  match bc_fails c with Some CsIo => Some CsIo | Some CsJson => Some CsJson | _ => None end.

Definition answers {A} (r : store_answer A) (s : binding_files) : option (store_answer A * binding_files) :=
  Some (match trouble with Some e => Err e | None => r end, s).

Definition revoke_event (b : collaboration_binding) : list binding_event :=
  if is_active b then [] else [DidRevoke t (cb_id b)].

Definition exec_binding {R} (o : binding_op R) : binding_files → option (R * binding_files) :=
  match o with
  | LockExclusive => λ s,
      match trouble with
      | Some e => Some (Err e, BindingFiles (bf_exclusive s) (bf_shared s) (bf_lock_file s || bc_effect c) (bf_entries s) (bf_trace s))
      | None =>
          if decide (bf_exclusive s = None ∧ bf_shared s = ∅)
          then Some (Ok (), BindingFiles (Some t) ∅ true (bf_entries s) (bf_trace s)) else None
      end
  | LockShared => λ s,
      match trouble with
      | Some e => Some (Err e, s)
      | None =>
          if negb (bf_lock_file s) then Some (Err (CsRefused BindingMissing), s)
          else if decide (bf_exclusive s = None)
          then Some (Ok (), BindingFiles None ({[t]} ∪ bf_shared s) (bf_lock_file s) (bf_entries s) (bf_trace s)) else None
      end
  | DropLock => λ s,
      Some (tt, BindingFiles (if decide (bf_exclusive s = Some t) then None else bf_exclusive s) (bf_shared s ∖ {[t]})
                  (bf_lock_file s) (bf_entries s) (bf_trace s))
  | ListBindings => λ s,
      let names := elements (dom (bf_entries s)) in
      answers (Ok (if decide (bc_order c ≡ₚ names) then bc_order c else names)) s
  | ReadBinding name => λ s, answers (match bf_entries s !! name with Some e => Ok e | None => Err CsIo end) s
  | DrawIds current => λ s,
      let id := id_from_random binding_prefix (bc_id c) in
      let attachment := id_from_random attachment_prefix (bc_attachment c) in
      match trouble with
      | Some e => Some (Err e, s)
      | None => if ids_taken current id attachment then None else Some (Ok (id, attachment), s)
      end
  | DrawSecret => λ s, answers (Ok (bc_secret c)) s
  | WriteBinding b => λ s,
      let s' := BindingFiles (bf_exclusive s) (bf_shared s) (bf_lock_file s)
                  (<[file_name (cb_id b) := BindingRecord b]> (bf_entries s)) (bf_trace s ++ revoke_event b) in
      match trouble with Some e => Some (Err e, if bc_effect c then s' else s) | None => Some (Ok (), s') end
  | Effect a => λ s,
      Some (if bc_outcome c then Ok () else Err (),
            BindingFiles (bf_exclusive s) (bf_shared s) (bf_lock_file s) (bf_entries s) (bf_trace s ++ [DidEffect t a]))
  end.
End Exec.

(** The locks of a process that ends are free. *)
Definition release_binding_locks (t : nat) (s : binding_files) : binding_files :=
  BindingFiles (if decide (bf_exclusive s = Some t) then None else bf_exclusive s) (bf_shared s ∖ {[t]})
    (bf_lock_file s) (bf_entries s) (bf_trace s).

(** ** The store *)

Section Store.
Context `{WorkText}.

Abbreviation bprog A := (prog binding_op A).

Definition read_binding (name : string) : bprog (store_answer collaboration_binding) :=
  try! e ← call (ReadBinding name) catch id;
  mret (match e with
        | NotRegular | TooLarge => Err CsCorrupt
        | NotBinding => Err CsJson
        | BindingRecord b => if decide (binding_schema_version < cb_schema_version b)%N then Err CsCorrupt else Ok b
        end).

(** The loop over the directory; a name is text when it is UTF-8. *)
Fixpoint read_bindings (names : list string) (bindings : list collaboration_binding) :
    bprog (store_answer (list collaboration_binding)) :=
  match names with
  | [] => mret (Ok bindings)
  | name :: names =>
      if decide (from_utf8_lossy name ≠ name) then mret (Err CsCorrupt)
      else if starts_with "." name then read_bindings names bindings
      else
        match strip_suffix ".json" name with
        | None => mret (Err CsCorrupt)
        | Some stem =>
            if decide (max_bindings ≤ length bindings) then mret (Err CsCorrupt)
            else
              try! b ← read_binding name catch id;
              if decide (cb_id b ≠ stem) then mret (Err CsCorrupt) else read_bindings names (bindings ++ [b])
        end
  end.

(** [CollaborationBindingReader::load] *)
Definition load_bindings : bprog (store_answer binding_set) :=
  try! names ← call ListBindings catch id;
  try! bindings ← read_bindings names [] catch id;
  mret (map_err CsSet (binding_set_new bindings)).

(** A lock that is dropped at the end. *)
Definition then_drop {A} (operation : bprog A) : bprog A :=
  r ← operation; _ ← call DropLock; mret r.

Definition provision (spec : binding_spec) (now : Z) : bprog (store_answer (collaboration_binding * attachment_proof)) :=
  try! _ ← call LockExclusive catch id;
  then_drop (
    try! current ← load_bindings catch id;
    if decide (max_bindings ≤ size current) then mret (Err CsFull)
    else
      try! ids ← call (DrawIds current) catch id;
      try! secret ← call DrawSecret catch id;
      let proof := proof_from_secret_bytes secret in
      match provision_binding spec ids.1 ids.2 proof now with
      | Err e => mret (Err (CsSpec e))
      | Ok b => try! _ ← call (WriteBinding b) catch id; mret (Ok (b, proof))
      end).

Definition revoke (id_ : string) (now : Z) : bprog (store_answer collaboration_binding) :=
  try! _ ← call LockExclusive catch id;
  then_drop (
    try! current ← load_bindings catch id;
    match head (filter (λ b, cb_id b = id_) (values_in_order current)) with
    | None => mret (Err (CsUnknownBinding id_))
    | Some b =>
        let after := revoked b now in
        if decide (after = b) then mret (Ok after)
        else try! _ ← call (WriteBinding after) catch id; mret (Ok after)
    end).

(** [CollaborationBindingReader::admit] *)
Definition reader_admit (q : admission_request) : bprog (store_answer admitted_collaborator) :=
  try! set ← load_bindings catch id;
  mret (map_err CsRefused (collaborator_admit set q)).

(** [CollaborationBindingReader::commit] *)
Definition commit {T} (a : admitted_collaborator) (effect : bprog (result () T)) : bprog (result commit_error T) :=
  try! _ ← call LockShared catch CommitBinding;
  then_drop (
    try! set ← load_bindings catch CommitBinding;
    match recheck set a with
    | Err r => mret (Err (CommitBinding (CsRefused r)))
    | Ok _ => try effect (λ _, CommitEffect) (λ x, mret (Ok x))
    end).

(** ** The boundary *)

(** [CollaborationAdmissionError], and what the wire says of it. *)
Inductive collaboration_admission_error : Set := AdmissionRefused (r : collaboration_refusal) | AdmissionCorrupt | AdmissionUnavailable.

Definition admission_code (e : collaboration_admission_error) : string :=
  match e with
  | AdmissionRefused r => refusal_code r
  | AdmissionCorrupt => "corrupt_evidence"
  | AdmissionUnavailable => "custody_unavailable"
  end.

Definition admission_http_status (e : collaboration_admission_error) : N :=
  match e with AdmissionRefused _ => 403 | AdmissionCorrupt => 500 | AdmissionUnavailable => 503 end.

Definition admission_error_of (e : collaboration_store_error) : collaboration_admission_error :=
  match e with
  | CsRefused r => AdmissionRefused r
  | CsIo => AdmissionUnavailable
  | CsJson | CsSpec _ | CsSet _ | CsCorrupt | CsFull | CsUnknownBinding _ => AdmissionCorrupt
  end.

(** What a route gives to the admission; the token is validated before. *)
Record collaboration_admission := CollaborationAdmission {
  ca_granted : option (list string);
  ca_jwt : validated_jwt;
  ca_tenant : string;
  ca_headers : list (string * string);
  ca_target : collaboration_target;
  ca_required : collaboration_scope;
}.

Definition request_of (c : collaboration_admission) : result collaboration_refusal admission_request :=
  collaborator_request (ca_jwt c) (ca_granted c) (ca_tenant c) (ca_headers c) (ca_target c) (ca_required c).

Definition admit_collaborator (c : collaboration_admission) : bprog (result collaboration_admission_error admitted_collaborator) :=
  match request_of c with
  | Err r => mret (Err (AdmissionRefused r))
  | Ok q => try! a ← reader_admit q catch admission_error_of; mret (Ok a)
  end.

(** How the routes report a commit: a refusal of the binding, or the answer of
    the effect. *)
Definition route_commit (a : admitted_collaborator) (effect : bprog (result () ())) :
    bprog (result (option collaboration_admission_error) ()) :=
  try! x ← commit a effect catch (λ e, match e with CommitBinding e => Some (admission_error_of e) | CommitEffect => None end);
  mret (Ok x).

(** A route: the caller is admitted, and the effect is committed. *)
Definition remote_call (c : collaboration_admission) : bprog (result (option collaboration_admission_error) ()) :=
  try! a ← admit_collaborator c catch Some;
  route_commit a (call (Effect a)).
End Store.

(** ** The system *)

Inductive binding_answer : Type :=
| AnsProvision (r : store_answer (collaboration_binding * attachment_proof))
| AnsRevoke (id : string) (r : store_answer collaboration_binding)
| AnsAdmit (q : admission_request) (r : store_answer admitted_collaborator)
| AnsCommit (a : admitted_collaborator) (r : result commit_error ())
| AnsRemote (c : collaboration_admission) (r : result (option collaboration_admission_error) ()).

Inductive binding_client `{WorkText} : prog binding_op binding_answer → Prop :=
| client_provision spec now : binding_client (prog_map AnsProvision (provision spec now))
| client_revoke id now : binding_client (prog_map (AnsRevoke id) (revoke id now))
| client_admit q : binding_client (prog_map (AnsAdmit q) (reader_admit q))
| client_commit a : binding_client (prog_map (AnsCommit a) (commit a (call (Effect a))))
| client_remote c : binding_client (prog_map (AnsRemote c) (remote_call c)).

#[export] Instance binding_machine `{WorkText} : Machine binding_op binding_files binding_answer := {|
  choice := binding_circumstances;
  exec := λ c t R o, exec_binding c t o;
  release := release_binding_locks;
  others := λ _ _, False;
  client := binding_client;
|}.
