(* ===== verification/BindingRuns.v ===== *)
(** All interleavings of provisions, revocations, admissions and effects: a
    revocation is a fence for the effects of its binding. *)
From stdpp Require Import prelude gmap strings list relations.
From Stdlib Require Import Ascii.
From S2P Require Import Prelude Text Ids Links Concurrent WorkMessage Collaboration Bindings.

(** ** Names *)

Lemma file_name_inj a b : file_name a = file_name b → a = b.
Proof. unfold file_name. intros Heq. pose proof (strip_suffix_app a ".json") as Ha. rewrite Heq, strip_suffix_app in Ha. by injection Ha. Qed.

Lemma strip_suffix_inv p s r : strip_suffix p s = Some r → s = r +:+ p.
Proof.
  revert r. induction s as [|a s IH]; intros r; cbn [strip_suffix]; case_decide as Hs.
  - intros [= <-]. by subst.
  - done.
  - intros [= <-]. by subst.
  - destruct (strip_suffix p s) as [r'|]; [|done]. intros [= <-]. by rewrite (IH r' eq_refl).
Qed.

Lemma fresh_id_not_hidden prefix bytes : prefix = binding_prefix → starts_with "." (file_name (id_from_random prefix bytes)) = false.
Proof. by intros ->. Qed.

(** ** The invariant *)

(** What a revocation leaves of a binding. *)
Definition successor (b b' : collaboration_binding) : Prop := b' = b ∨ ∃ at_, is_active b = true ∧ b' = revoked b at_.

Lemma successor_refl b : successor b b.
Proof. by left. Qed.

Lemma successor_trans b b1 b2 : successor b b1 → successor b1 b2 → successor b b2.
Proof.
  intros [->|(at1 & Ha & ->)]; [done|]. intros [->|(at2 & Ha2 & _)]; [right; eauto|].
  revert Ha2. unfold revoked. rewrite Ha. done.
Qed.

Lemma successor_same b b' :
  successor b b' → cb_id b' = cb_id b ∧ cb_identity b' = cb_identity b ∧ cb_capability b' = cb_capability b ∧
    cb_attachment b' = cb_attachment b ∧ cb_verifier b' = cb_verifier b ∧ cb_scopes b' = cb_scopes b.
Proof. intros [->|(at_ & Ha & ->)]; [done|]. unfold revoked. by rewrite Ha. Qed.

Lemma successor_revoked b b' : successor b b' → is_active b = false → b' = b.
Proof. intros [->|(at_ & Ha & ->)]; [done|]. congruence. Qed.

Lemma revoked_inactive b at_ : is_active (revoked b at_) = false.
Proof. unfold revoked. by destruct (is_active b) eqn:Ha. Qed.

Definition entry_of (s : binding_files) (id : string) (b : collaboration_binding) : Prop :=
  bf_entries s !! file_name id = Some (BindingRecord b) ∧ cb_id b = id.

Definition revoked_entry (id : string) (s : binding_files) : Prop := ∃ b, entry_of s id b ∧ is_active b = false.

(** A binding that stands behind an effect. *)
Definition backs (a : admitted_collaborator) (b : collaboration_binding) : Prop :=
  cb_identity b = ac_identity a ∧ cb_capability b = ac_capability a ∧ cb_attachment b = ac_attachment a ∧
  grants b (ac_scope a) = true.

Definition backed_effect (a : admitted_collaborator) (s : binding_files) : Prop := ∃ b, entry_of s (ac_binding a) b ∧ backs a b.

(** No effect of a binding comes after its revocation. *)
Definition fenced (l : list binding_event) : Prop :=
  ∀ l1 l2 t id, l = l1 ++ DidRevoke t id :: l2 → ∀ t' a, DidEffect t' a ∈ l2 → ac_binding a ≠ id.

Definition effects_of (t : nat) (l : list binding_event) : list admitted_collaborator :=
  omap (λ ev, match ev with DidEffect t' a => if decide (t' = t) then Some a else None | DidRevoke _ _ => None end) l.

Lemma effects_of_app t l l' : effects_of t (l ++ l') = effects_of t l ++ effects_of t l'.
Proof. apply omap_app. Qed.

Lemma effects_of_revoke t t' b : effects_of t (revoke_event t' b) = [].
Proof. unfold revoke_event. by destruct (is_active b). Qed.

Record bindings_inv (s : binding_files) : Prop := {
  bi_lock t : bf_exclusive s = Some t → bf_shared s = ∅;
  bi_revoked t id : DidRevoke t id ∈ bf_trace s → revoked_entry id s;
  bi_effect t a : DidEffect t a ∈ bf_trace s → backed_effect a s;
  bi_fenced : fenced (bf_trace s);
}.

Record binding_does (t : nat) (s s' : binding_files) : Prop := {
  bd_exclusive t' : t' ≠ t → bf_exclusive s = Some t' → bf_exclusive s' = Some t';
  bd_shared t' : t' ≠ t → t' ∈ bf_shared s → t' ∈ bf_shared s';
  bd_entries : bf_entries s' = bf_entries s ∨ bf_exclusive s = Some t;
  bd_kept n b : bf_entries s !! n = Some (BindingRecord b) →
    ∃ b', bf_entries s' !! n = Some (BindingRecord b') ∧ successor b b';
  bd_trace : ∃ l, bf_trace s' = bf_trace s ++ l ∧ (∀ t', t' ≠ t → effects_of t' l = []) ∧
    ∀ t' a, DidEffect t' a ∈ l → ¬ revoked_entry (ac_binding a) s;
}.

Lemma fenced_snoc l ev :
  fenced l → (∀ t a t' id, ev = DidEffect t a → DidRevoke t' id ∈ l → ac_binding a ≠ id) → fenced (l ++ [ev]).
Proof.
  intros Hl Hev l1 l2 t id Heq t' a Hin.
  destruct l2 as [|x l2 _] using rev_ind; [by apply elem_of_nil in Hin|].
  change (l1 ++ DidRevoke t id :: l2 ++ [x]) with (l1 ++ (DidRevoke t id :: l2) ++ [x]) in Heq.
  rewrite app_assoc in Heq. apply app_inj_tail in Heq as [Heq Hx].
  apply elem_of_app in Hin as [Hin|Hin%list_elem_of_singleton]; [by eapply Hl|].
  subst x. apply (Hev t' a t id); [done|]. rewrite Heq. apply elem_of_app. right. left.
Qed.

Lemma entry_kept t s s' id b : binding_does t s s' → entry_of s id b → ∃ b', entry_of s' id b' ∧ successor b b'.
Proof.
  intros Hd [He Hid]. destruct (bd_kept _ _ _ Hd _ _ He) as (b' & He' & Hs). exists b'. split; [|done].
  split; [done|]. by destruct (successor_same _ _ Hs) as [-> _].
Qed.

Lemma revoked_kept t s s' id : binding_does t s s' → revoked_entry id s → revoked_entry id s'.
Proof.
  intros Hd (b & He & Ha). destruct (entry_kept _ _ _ _ _ Hd He) as (b' & He' & Hs). exists b'. split; [done|].
  by rewrite (successor_revoked _ _ Hs Ha).
Qed.

Lemma backed_kept t s s' a : binding_does t s s' → backed_effect a s → backed_effect a s'.
Proof.
  intros Hd (b & He & Hb). destruct (entry_kept _ _ _ _ _ Hd He) as (b' & He' & Hs). exists b'. split; [done|].
  destruct (successor_same _ _ Hs) as (_ & Hi & Hc & Hat & _ & Hsc). unfold backs, grants in *. by rewrite Hi, Hc, Hat, Hsc.
Qed.

(** A step that leaves the directory and the events. *)
Lemma lock_step t s s' :
  bindings_inv s → bf_entries s' = bf_entries s → bf_trace s' = bf_trace s →
  (∀ t', t' ≠ t → bf_exclusive s = Some t' → bf_exclusive s' = Some t') → (∀ t', t' ≠ t → t' ∈ bf_shared s → t' ∈ bf_shared s') →
  (∀ t', bf_exclusive s' = Some t' → bf_shared s' = ∅) → bindings_inv s' ∧ binding_does t s s'.
Proof.
  intros HI He Ht Hx Hs Hl. assert (binding_does t s s') as Hd.
  { split; [done|done|by left| |].
    - intros n b Hn. exists b. rewrite He. split; [done|apply successor_refl].
    - exists []. rewrite app_nil_r. split_and!; [done..|]. by intros t' a ?%elem_of_nil. }
  split; [|done]. split; [done|..]; rewrite ?Ht.
  - intros t' id Hin. eapply revoked_kept; [done|]. by eapply bi_revoked.
  - intros t' a Hin. eapply backed_kept; [done|]. by eapply bi_effect.
  - apply HI.
Qed.

Lemma same_files t s : bindings_inv s → bindings_inv s ∧ binding_does t s s.
Proof. intros HI. apply lock_step; try done. apply HI. Qed.

(** An effect of a binding that is not revoked. *)
Lemma effect_step t s a b :
  bindings_inv s → entry_of s (ac_binding a) b → is_active b = true → backs a b →
  let s' := BindingFiles (bf_exclusive s) (bf_shared s) (bf_lock_file s) (bf_entries s) (bf_trace s ++ [DidEffect t a]) in
  bindings_inv s' ∧ binding_does t s s'.
Proof.
  intros HI He Ha Hb s'. assert (¬ revoked_entry (ac_binding a) s) as Hno.
  { intros (b' & [He' _] & Ha'). destruct He as [He _]. rewrite He in He'. injection He' as <-. congruence. }
  split; split; cbn; try apply HI; try done.
  - intros t' id [Hin|Hin%list_elem_of_singleton]%elem_of_app; [|done]. by apply (bi_revoked _ HI t').
  - intros t' a' [Hin|Hin%list_elem_of_singleton]%elem_of_app; [by apply (bi_effect _ HI t')|]. injection Hin as -> ->. by exists b.
  - apply fenced_snoc; [apply HI|]. intros t1 a1 t2 id [= <- <-] Hin <-. by apply Hno, (bi_revoked _ HI t2).
  - by left.
  - intros n b' Hn. exists b'. split; [done|apply successor_refl].
  - exists [DidEffect t a]. split; [done|]. split; [intros t' Hne; cbn; by rewrite decide_False|].
    intros t' a' Hin%list_elem_of_singleton. by injection Hin as -> ->.
Qed.

(** A write of the holder of the exclusive lock: a new file or a revocation. *)
Lemma write_step t s b :
  bindings_inv s → bf_exclusive s = Some t →
  (bf_entries s !! file_name (cb_id b) = None ∧ is_active b = true ∨
   ∃ b0 at_, entry_of s (cb_id b) b0 ∧ is_active b0 = true ∧ b = revoked b0 at_) →
  let s' := BindingFiles (bf_exclusive s) (bf_shared s) (bf_lock_file s) (<[file_name (cb_id b) := BindingRecord b]> (bf_entries s))
              (bf_trace s ++ revoke_event t b) in
  bindings_inv s' ∧ binding_does t s s'.
Proof.
  intros HI Hx Hb s'. assert (binding_does t s s') as Hd.
  { split; cbn; [done|done|by right| |].
    - intros n b' Hn. destruct (decide (file_name (cb_id b) = n)) as [<-|Hne].
      + rewrite lookup_insert_eq. exists b. split; [done|]. destruct Hb as [[Hnone _]|(b0 & at_ & [He _] & Ha & ->)]; [congruence|].
        rewrite Hn in He. simplify_eq. right. eauto.
      + rewrite lookup_insert_ne by done. exists b'. split; [done|apply successor_refl].
    - exists (revoke_event t b). split; [done|]. split; [intros; apply effects_of_revoke|]. intros t' a Hin. exfalso. unfold revoke_event in Hin.
      destruct (is_active b); [by apply elem_of_nil in Hin|by apply list_elem_of_singleton in Hin]. }
  split; [|done]. split; cbn.
  - apply HI.
  - intros t' id [Hin|Hin]%elem_of_app; [by eapply revoked_kept, bi_revoked|].
    unfold revoke_event in Hin. destruct (is_active b) eqn:Ha; [by apply elem_of_nil in Hin|].
    apply list_elem_of_singleton in Hin as [= -> ->]. exists b. split; [|done]. split; [cbn; by rewrite lookup_insert_eq|done].
  - intros t' a [Hin|Hin]%elem_of_app; [by eapply backed_kept, bi_effect|]. exfalso. unfold revoke_event in Hin.
    destruct (is_active b); [by apply elem_of_nil in Hin|by apply list_elem_of_singleton in Hin].
  - unfold revoke_event. destruct (is_active b); [rewrite app_nil_r; apply HI|]. apply fenced_snoc; [apply HI|]. by intros.
Qed.

Section Runs.
Context `{WorkText}.
Implicit Types (t : nat) (s : binding_files).

#[local] Abbreviation Stable t P := (stable bindings_inv binding_does t P).
#[local] Abbreviation Wp t p Q := (wp bindings_inv binding_does t p Q).

Lemma rely_binding t s s' : rely bindings_inv binding_does t s s' → bindings_inv s ∧ bindings_inv s' ∧ ∃ t', t' ≠ t ∧ binding_does t' s s'.
Proof. intros (HI & HI' & [[]|Hd]). done. Qed.

(** ** Locks *)

Definition writes t (E : directory) s : Prop := bf_exclusive s = Some t ∧ bf_entries s = E.
Definition reads t (E : directory) s : Prop := t ∈ bf_shared s ∧ bf_entries s = E.

Lemma writes_stable t E : Stable t (writes t E).
Proof.
  intros s s' [Hx He] (_ & _ & t' & Hne & Hd)%rely_binding. split; [by apply (bd_exclusive _ _ _ Hd)|].
  destruct (bd_entries _ _ _ Hd) as [->|Hx']; [done|]. congruence.
Qed.

Lemma reads_stable t E : Stable t (reads t E).
Proof.
  intros s s' [Hx He] (HI & _ & t' & Hne & Hd)%rely_binding. split; [by apply (bd_shared _ _ _ Hd)|].
  destruct (bd_entries _ _ _ Hd) as [->|Hx']; [done|]. rewrite (bi_lock _ HI _ Hx') in Hx. set_solver.
Qed.

Lemma revoked_stable t id : Stable t (revoked_entry id).
Proof. intros s s' Hr (_ & _ & t' & _ & Hd)%rely_binding. by eapply revoked_kept. Qed.

Lemma event_stable t ev : Stable t (λ s, ev ∈ bf_trace s).
Proof. intros s s' Hr (_ & _ & t' & _ & Hd)%rely_binding. destruct (bd_trace _ _ _ Hd) as (l & -> & _). apply elem_of_app. by left. Qed.

(** ** Loads *)

Lemma answers_inv {A} c (x : store_answer A) s r s' : answers c x s = Some (r, s') → s' = s ∧ (r = x ∨ ∃ e, r = Err e).
Proof. unfold answers. destruct (trouble c); intros [= <- <-]; eauto. Qed.

(** A read, whatever it answers. *)
Lemma binding_read_wp t {A B F} (o : binding_op (store_answer A)) (x : binding_circumstances → binding_files → store_answer A)
    (h : collaboration_store_error → F) (k : A → prog binding_op (result F B)) (P : binding_files → Prop) Q s :
  (∀ c s, exec_binding c t o s = answers c (x c s) s) → Stable t P → P s →
  (∀ c a s, P s → bindings_inv s → x c s = Ok a → Wp t (k a) Q s) → (∀ e s, P s → Q (Err (h e)) s) → Wp t (try (call o) h k) Q s.
Proof.
  intros Ho HP Hs Hk Herr. eapply wp_try_call; [exact HP|exact Hs|]. intros s1 c r s2 HPs HI He.
  cbn in He. rewrite Ho in He. apply answers_inv in He as [-> Hr]. destruct (same_files t s1 HI). split_and!; [done..|].
  destruct r as [a|e]; [|by apply Herr]. destruct Hr as [Hr|[e ?]]; [|done]. by eapply Hk.
Qed.

(** The bindings that a load read of a directory. *)
Definition read_from (E : directory) (names : list string) (l : list collaboration_binding) : Prop :=
  (∀ b, b ∈ l → E !! file_name (cb_id b) = Some (BindingRecord b)) ∧
  ∀ n, n ∈ names → starts_with "." n = false → ∃ b, b ∈ l ∧ n = file_name (cb_id b).

(** [At] is what an entry that was read tells of the directory from then on. *)
Lemma read_bindings_wp t (At : string → dir_entry → binding_files → Prop) (P : binding_files → Prop)
    (Q : store_answer (list collaboration_binding) → binding_files → Prop) names acc s :
  Stable t P → (∀ n e, Stable t (At n e)) → P s → (∀ s n e, P s → bf_entries s !! n = Some e → At n e s) →
  (∀ b, b ∈ acc → At (file_name (cb_id b)) (BindingRecord b) s) →
  (∀ l s, P s → (∀ b, b ∈ acc ++ l → At (file_name (cb_id b)) (BindingRecord b) s) →
     (∀ n, n ∈ names → starts_with "." n = false → ∃ b, b ∈ l ∧ n = file_name (cb_id b)) → Q (Ok (acc ++ l)) s) →
  (∀ e s, P s → Q (Err e) s) → Wp t (read_bindings names acc) Q s.
Proof.
  intros HP HAt Hs Hread. revert acc s Hs. induction names as [|n names IH]; intros acc s Hs Hacc Hok Herr; cbn [read_bindings].
  { rewrite <- (app_nil_r acc). apply Hok; [done|by rewrite app_nil_r|by intros n ?%elem_of_nil]. }
  assert (∀ e, Wp t (mret (Err e)) Q s) as Hno by (intros; by apply Herr).
  case_decide; [apply Hno|]. destruct (starts_with "." n) eqn:Hdot.
  { apply IH; [done..| |done]. intros l s1 Hs1 Hl Hn. apply Hok; [done|done|]. intros n' [->|Hin]%elem_of_cons Hd; [congruence|by apply Hn]. }
  destruct (strip_suffix ".json" n) as [stem|] eqn:Hstem; [|apply Hno]. apply strip_suffix_inv in Hstem. case_decide; [apply Hno|].
  apply wp_try. unfold read_binding.
  apply (binding_read_wp t (ReadBinding n) (λ _ s, match bf_entries s !! n with Some e => Ok e | None => Err CsIo end) _ _
    (λ s, P s ∧ ∀ b, b ∈ acc → At (file_name (cb_id b)) (BindingRecord b) s)); [done| |done| |by intros e s1 [Hs1 _]; apply Herr].
  { intros s1 s2 [Hs1 Ha] Hr. split; [by eapply HP|]. intros b Hb. eapply HAt; [by apply Ha|done]. }
  intros _ e s1 [Hs1 Ha] _ He. destruct (bf_entries s1 !! n) as [e'|] eqn:Hn; [|done]. injection He as ->. pose proof (Hread _ _ _ Hs1 Hn) as Hat.
  destruct e as [| | |b]; try (by apply Herr). cbn. case_decide; [by apply Herr|]. case_decide as Hid; [by apply Herr|].
  assert (n = file_name (cb_id b)) as Hnb by (unfold file_name; by rewrite Hid). apply IH; [done| | |done].
  - intros b' [Hin| ->%list_elem_of_singleton]%elem_of_app; [by apply Ha|]. by rewrite <- Hnb.
  - intros l s2 Hs2 Hl Hn2. rewrite <- app_assoc. rewrite <- app_assoc in Hl. apply Hok; [done|done|].
    intros n' [->|Hin]%elem_of_cons Hd; [exists b; split; [left|done]|].
    destruct (Hn2 n' Hin Hd) as (b' & ? & ?). exists b'. split; [by right|done].
Qed.

(** What a load under a lock returns. *)
Definition loaded (E : directory) (set : binding_set) : Prop :=
  ∃ l, binding_set_new l = Ok set ∧ read_from E (elements (dom E)) l.

Lemma load_bindings_wp t E (P : binding_files → Prop) (Q : store_answer binding_set → binding_files → Prop) s :
  Stable t P → P s → (∀ s, P s → bf_entries s = E) → (∀ set s, P s → loaded E set → Q (Ok set) s) → (∀ e s, P s → Q (Err e) s) →
  Wp t load_bindings Q s.
Proof.
  intros HP Hs HE Hok Herr. unfold load_bindings.
  eapply (binding_read_wp t ListBindings (λ c s, Ok (if decide (bc_order c ≡ₚ elements (dom (bf_entries s))) then bc_order c else elements (dom (bf_entries s)))) _ _ P);
    [done..| |by intros; apply Herr].
  clear s Hs. intros c names s Hs _ Hnames. injection Hnames as Hnames. rewrite (HE s Hs) in Hnames.
  assert (names ≡ₚ elements (dom E)) as Hperm by (subst names; by case_decide). apply wp_try.
  apply (read_bindings_wp t (λ n e _, E !! n = Some e) P); [done|by intros n e s1 s2 ? _|done|by intros s1 n e Hs1; rewrite (HE s1 Hs1)|by intros b ?%elem_of_nil| |by intros; apply Herr].
  clear s Hs. intros l s Hs Hl Hn. cbn [app] in *. destruct (binding_set_new l) as [set|e] eqn:Hset; [|by apply Herr].
  apply Hok; [done|]. exists l. split; [done|]. split; [done|]. intros n Hin. apply Hn. by rewrite Hperm.
Qed.

(** A load without a lock: what it read may have been revoked since. *)
Definition has_been (b : collaboration_binding) (s : binding_files) : Prop := ∃ b', entry_of s (cb_id b) b' ∧ successor b b'.

Lemma has_been_stable t b : Stable t (has_been b).
Proof.
  intros s s' (b1 & He & Hs) (_ & _ & t' & _ & Hd)%rely_binding. destruct (entry_kept _ _ _ _ _ Hd He) as (b2 & He2 & Hs2).
  exists b2. split; [done|]. by eapply successor_trans.
Qed.

Lemma free_load_bindings_wp t (P : binding_files → Prop) (Q : store_answer binding_set → binding_files → Prop) s :
  Stable t P → P s → (∀ set l s, P s → binding_set_new l = Ok set → (∀ b, b ∈ l → has_been b s) → Q (Ok set) s) →
  (∀ e s, P s → Q (Err e) s) → Wp t load_bindings Q s.
Proof.
  intros HP Hs Hok Herr. unfold load_bindings.
  eapply (binding_read_wp t ListBindings (λ c s, Ok (if decide (bc_order c ≡ₚ elements (dom (bf_entries s))) then bc_order c else elements (dom (bf_entries s)))) _ _ P);
    [done..| |by intros; apply Herr].
  clear s Hs. intros c names s Hs _ _. apply wp_try.
  set (At := λ n e s, ∀ b, e = BindingRecord b → n = file_name (cb_id b) → has_been b s).
  apply (read_bindings_wp t At P); [done| |done| |by intros b ?%elem_of_nil| |by intros; apply Herr].
  - intros n e s1 s2 Ha Hr b He Hn. eapply has_been_stable; [by apply Ha|done].
  - intros s1 n e _ Hn b -> ->. exists b. split; [done|apply successor_refl].
  - intros l s2 Hs2 Hl _. cbn [app] in *. destruct (binding_set_new l) as [set|e] eqn:Hset; [|by apply Herr].
    apply (Hok set l); [done|done|]. intros b Hb. by apply (Hl b Hb b).
Qed.

(** ** Answers *)

(** [t] has not run an effect. *)
Definition calm t s : Prop := effects_of t (bf_trace s) = [].

(** [a] is what the request [q] was admitted as, by a binding that fits it. *)
Definition admitted_as (q : admission_request) (a : admitted_collaborator) s : Prop :=
  ac_identity a = ar_identity q ∧ ac_attachment a = ar_attachment q ∧ ac_scope a = ar_required q ∧
  ∃ b, entry_of s (ac_binding a) b ∧ backs a b ∧ fits q b.

(** What a call that answered [x] has done. *)
Definition answer_ok t (x : binding_answer) s : Prop :=
  match x with
  | AnsProvision (Ok (b, proof)) => calm t s ∧ has_been b s ∧ is_active b = true ∧ cb_verifier b = verifier proof
  | AnsRevoke id (Ok b) => calm t s ∧ entry_of s id b ∧ is_active b = false
  | AnsAdmit q (Ok a) => calm t s ∧ admitted_as q a s
  | AnsCommit a (Ok _) | AnsCommit a (Err CommitEffect) => effects_of t (bf_trace s) = [a]
  | AnsRemote c (Ok _) | AnsRemote c (Err None) =>
      ∃ q a, request_of c = Ok q ∧ effects_of t (bf_trace s) = [a] ∧ admitted_as q a s
  | _ => calm t s
  end.

Lemma has_been_kept t s s' b : binding_does t s s' → has_been b s → has_been b s'.
Proof.
  intros Hd (b1 & He & Hs). destruct (entry_kept _ _ _ _ _ Hd He) as (b2 & He2 & Hs2). exists b2. split; [done|]. by eapply successor_trans.
Qed.

Lemma successor_fits q a b b' : successor b b' → backs a b → fits q b → backs a b' ∧ fits q b'.
Proof.
  intros (_ & Hi & Hc & Hat & Hv & Hsc)%successor_same Hb [? ? ? ?]. unfold backs, grants in *. rewrite Hi, Hc, Hat, Hsc. split; [done|]. split; congruence.
Qed.

Lemma admitted_kept t s s' q a : binding_does t s s' → admitted_as q a s → admitted_as q a s'.
Proof.
  intros Hd (? & ? & ? & b & He & Hb & Hf). split_and!; [done..|]. destruct (entry_kept _ _ _ _ _ Hd He) as (b' & He' & Hs).
  exists b'. split; [done|]. by eapply successor_fits.
Qed.

Lemma answer_kept t t' x s s' :
  binding_does t' s s' → effects_of t (bf_trace s') = effects_of t (bf_trace s) → answer_ok t x s → answer_ok t x s'.
Proof.
  intros Hd Ht. unfold answer_ok, calm. rewrite Ht. destruct x as [[[b p]|]|id [b|]|q [a|]|a [|[]]|c [|[]]]; try done.
  - intros (? & ? & ?). split_and!; [done|by eapply has_been_kept|naive_solver..].
  - intros (? & He & Ha). destruct (entry_kept _ _ _ _ _ Hd He) as (b' & He' & Hs). by rewrite (successor_revoked _ _ Hs Ha) in He'.
  - intros [? ?]. split; [done|]. by eapply admitted_kept.
  - intros (q' & a' & ? & ? & ?). exists q', a'. split_and!; [done..|]. by eapply admitted_kept.
  - intros (q' & a' & ? & ? & ?). exists q', a'. split_and!; [done..|]. by eapply admitted_kept.
Qed.

Lemma effects_rely t s s' : rely bindings_inv binding_does t s s' → effects_of t (bf_trace s') = effects_of t (bf_trace s).
Proof.
  intros (_ & _ & t' & Hne & Hd)%rely_binding. destruct (bd_trace _ _ _ Hd) as (l & -> & Hl & _). by rewrite effects_of_app, Hl, app_nil_r by done.
Qed.

Lemma calm_stable t : Stable t (calm t).
Proof. intros s s' Hc Hr. unfold calm. by rewrite (effects_rely _ _ _ Hr). Qed.

Lemma answer_stable t x : Stable t (answer_ok t x).
Proof. intros s s' Hx Hr. pose proof (rely_binding _ _ _ Hr) as (_ & _ & t' & _ & Hd). eapply answer_kept; [done|by apply effects_rely|done]. Qed.

(** ** Calls *)

Lemma release_bindings_ok t s : bindings_inv s → bindings_inv (release_binding_locks t s) ∧ binding_does t s (release_binding_locks t s).
Proof.
  intros HI. apply lock_step; [done..| | |]; cbn.
  - intros t' Hne Hx. rewrite decide_False; [done|congruence].
  - clear HI. set_solver.
  - intros t'. case_decide; [done|]. intros Hx. rewrite (bi_lock _ HI _ Hx). clear; set_solver.
Qed.

Lemma then_drop_wp {A} t (p : prog binding_op A) (f : A → binding_answer) s :
  Wp t p (λ r, answer_ok t (f r)) s → Wp t (then_drop p) (λ r, answer_ok t (f r)) s.
Proof.
  intros Hp. unfold then_drop. apply wp_bind. eapply wp_mono; [|exact Hp]. intros r s1 Hr.
  eapply wp_call; [apply answer_stable|exact Hr|]. intros s2 c u s3 Hr2 HI2 [= <- <-].
  destruct (release_bindings_ok t s2 HI2). split_and!; [done..|]. by eapply answer_kept.
Qed.

Definition writing t E s : Prop := writes t E s ∧ calm t s.
Definition reading t E s : Prop := reads t E s ∧ calm t s.

Lemma writing_stable t E : Stable t (writing t E).
Proof. intros s s' [? ?] Hr. split; [by eapply writes_stable|by eapply calm_stable]. Qed.

Lemma reading_stable t E : Stable t (reading t E).
Proof. intros s s' [? ?] Hr. split; [by eapply reads_stable|by eapply calm_stable]. Qed.

(** A call under the exclusive lock. *)
Lemma exclusive_wp {A} t (p : prog binding_op (store_answer A)) (f : store_answer A → binding_answer) s :
  calm t s → (∀ e s, calm t s → answer_ok t (f (Err e)) s) →
  (∀ E s, writing t E s → Wp t p (λ r, answer_ok t (f r)) s) →
  Wp t (try (call LockExclusive) id (λ _, then_drop p)) (λ r, answer_ok t (f r)) s.
Proof.
  intros Hc Herr Hp. eapply wp_try_call; [apply calm_stable|done|]. clear s Hc. intros s c r s' Hc HI He. cbn in He.
  destruct (trouble c) as [e|].
  { injection He as <- <-.
    assert (let s' := BindingFiles (bf_exclusive s) (bf_shared s) (bf_lock_file s || bc_effect c) (bf_entries s) (bf_trace s) in
      bindings_inv s' ∧ binding_does t s s') as [? ?] by (apply lock_step; [done..|apply HI]).
    split_and!; [done..|by apply Herr]. }
  case_decide as Hfree; [|done]. injection He as <- <-. destruct Hfree as [Hx Hs].
  assert (bindings_inv (BindingFiles (Some t) ∅ true (bf_entries s) (bf_trace s)) ∧
    binding_does t s (BindingFiles (Some t) ∅ true (bf_entries s) (bf_trace s))) as [HI' Hd].
  { apply lock_step; [done..| | |done]; cbn; [by rewrite Hx|]. by rewrite Hs. }
  split_and!; [done..|]. apply then_drop_wp. by apply (Hp (bf_entries s)).
Qed.

(** A load under a lock shows every binding, and the lookup by id finds it. *)
Lemma loaded_entry E set id e :
  loaded E set → E !! file_name id = Some e → starts_with "." (file_name id) = false →
  ∃ b, b ∈ values_in_order set ∧ cb_id b = id.
Proof.
  intros (l & Hl & _ & Hn) He Hdot. destruct (Hn (file_name id)) as (b & Hb & Heq%file_name_inj); [|done|].
  { apply elem_of_elements, elem_of_dom. eauto. }
  exists b. split; [|done]. apply elem_of_values. exists (cb_attachment b). by apply (binding_set_lookup _ _ _ _ Hl).
Qed.

Lemma loaded_value E set b : loaded E set → b ∈ values_in_order set → E !! file_name (cb_id b) = Some (BindingRecord b).
Proof. intros (l & Hl & Hr & _) [k Hk]%elem_of_values. apply Hr. by apply (binding_set_lookup _ _ _ _ Hl) in Hk as [? _]. Qed.

Lemma drawn_fresh E set id attachment :
  loaded E set → ids_taken set id attachment = false → starts_with "." (file_name id) = false → E !! file_name id = None.
Proof.
  intros Hl Hno Hdot. destruct (E !! file_name id) as [e|] eqn:He; [|done]. destruct (loaded_entry _ _ _ _ Hl He Hdot) as (b & Hb & Hid).
  assert (ids_taken set id attachment = true); [|congruence]. unfold ids_taken. apply existsb_exists. exists b.
  split; [by apply list_elem_of_In|]. by rewrite bool_decide_eq_true_2.
Qed.

(** The write of a call, with whatever it answers. *)
Lemma write_wp t E b (h : store_answer () → binding_answer) s :
  writing t E s →
  (E !! file_name (cb_id b) = None ∧ is_active b = true ∨
   ∃ b0 at_, E !! file_name (cb_id b) = Some (BindingRecord b0) ∧ cb_id b0 = cb_id b ∧ is_active b0 = true ∧ b = revoked b0 at_) →
  (∀ s, calm t s → entry_of s (cb_id b) b → answer_ok t (h (Ok ())) s) → (∀ e s, calm t s → answer_ok t (h (Err e)) s) →
  Wp t (call (WriteBinding b)) (λ r, answer_ok t (h r)) s.
Proof.
  intros Hs Hb Hok Herr. eapply wp_vis; [apply writing_stable|exact Hs|]. clear s Hs. intros s c r s' [[Hx HE] Hc] HI He.
  cbn in He. cbn [wp].
  assert (let s' := BindingFiles (bf_exclusive s) (bf_shared s) (bf_lock_file s) (<[file_name (cb_id b) := BindingRecord b]> (bf_entries s))
            (bf_trace s ++ revoke_event t b) in bindings_inv s' ∧ binding_does t s s') as [HI' Hd].
  { apply write_step; [done..|]. rewrite HE. destruct Hb as [?|(b0 & at_ & ? & ? & ? & ?)]; [by left|right]. exists b0, at_. by rewrite <- HE in *. }
  set (s1 := BindingFiles _ _ _ _ _) in *.
  assert (calm t s1) as Hc1 by (unfold calm, s1; cbn [bf_trace]; by rewrite effects_of_app, effects_of_revoke, app_nil_r).
  assert (entry_of s1 (cb_id b) b) by (split; [cbn; by rewrite lookup_insert_eq|done]).
  destruct (trouble c) as [e|]; injection He as <- <-; [|split_and!; [done..|by apply Hok]].
  destruct (bc_effect c); [split_and!; [done..|by apply Herr]|]. destruct (same_files t s HI). split_and!; [done..|by apply Herr].
Qed.

Lemma provision_ok spec id attachment proof now b :
  provision_binding spec id attachment proof now = Ok b → cb_id b = id ∧ is_active b = true ∧ cb_verifier b = verifier proof.
Proof.
  unfold provision_binding. intros Hb. set (b0 := CollaborationBinding _ _ _ _ _ _ _ _ _ _ _) in Hb.
  destruct (binding_validate b0); [|done]. by injection Hb as <-.
Qed.

(** An operation of a call under the exclusive lock that leaves the store. *)
Lemma quiet_wp t {A B F} (o : binding_op (store_answer A)) (h : collaboration_store_error → F) (k : A → prog binding_op (result F B)) E
    (Q : result F B → binding_files → Prop) s :
  (∀ c s r s', exec_binding c t o s = Some (r, s') → s' = s) → writing t E s →
  (∀ c a s, writing t E s → exec_binding c t o s = Some (Ok a, s) → Wp t (k a) Q s) → (∀ e s, writing t E s → Q (Err (h e)) s) →
  Wp t (try (call o) h k) Q s.
Proof.
  intros Ho Hs Hk Herr. eapply wp_try_call; [apply writing_stable|exact Hs|]. clear s Hs. intros s c r s' Hs HI He. cbn in He.
  pose proof (Ho _ _ _ _ He) as ->. destruct (same_files t s HI). split_and!; [done..|]. destruct r as [a|e]; [by eapply Hk|by apply Herr].
Qed.

Lemma provision_wp t spec now s : calm t s → Wp t (provision spec now) (λ r, answer_ok t (AnsProvision r)) s.
Proof.
  intros Hc. apply (exclusive_wp t _ AnsProvision); [done|done|]. clear s Hc. intros E s Hs. apply wp_try.
  apply (load_bindings_wp t E (writing t E)); [apply writing_stable|done|by intros s1 [[_ ?] _]| |by intros e s1 [_ ?]].
  clear s Hs. intros set s Hs Hl. case_decide as Hfull; [by destruct Hs|].
  apply (quiet_wp t (DrawIds set) id _ E); [|done| |by intros e s1 [_ ?]].
  { intros c s1 r s' He. cbn in He. destruct (trouble c); [by injection He|]. by destruct (ids_taken _ _ _); [|injection He]. }
  clear s Hs. intros c ids s Hs He. cbn in He. destruct (trouble c); [done|].
  destruct (ids_taken _ _ _) eqn:Hfresh; [done|]. injection He as <-. clear Hfull.
  apply (quiet_wp t DrawSecret id _ E); [by intros c' s1 r s' [-> _]%answers_inv|done| |by intros e s1 [_ ?]].
  clear s Hs. intros _ secret s Hs _. cbn [fst snd].
  destruct (provision_binding _ _ _ _ _) as [b|e] eqn:Hb; [|by destruct Hs].
  apply provision_ok in Hb as (Hid & Ha & Hv). apply wp_try.
  eapply wp_mono; [|apply (write_wp t E b (λ r, AnsProvision (match r with Ok _ => Ok (b, proof_from_secret_bytes secret) | Err e => Err e end)));
    [done| | |done]]; [by intros [] s1| |].
  - left. rewrite Hid. split; [|done]. by eapply drawn_fresh.
  - intros s1 Hc1 He1. split_and!; [done| |done|done]. exists b. split; [done|apply successor_refl].
Qed.

Lemma revoke_wp t id now s : calm t s → Wp t (revoke id now) (λ r, answer_ok t (AnsRevoke id r)) s.
Proof.
  intros Hc. apply (exclusive_wp t _ (AnsRevoke id)); [done|done|]. clear s Hc. intros E s Hs. apply wp_try.
  apply (load_bindings_wp t E (writing t E)); [apply writing_stable|done|by intros s1 [[_ ?] _]| |by intros e s1 [_ ?]].
  clear s Hs. intros set s Hs Hl. destruct (head _) as [b|] eqn:Hh; [|by destruct Hs].
  apply head_Some_elem_of, list_elem_of_filter in Hh as [Hid Hb]. pose proof (loaded_value _ _ _ Hl Hb) as He.
  assert (cb_id (revoked b now) = id) as Hid' by (rewrite <- Hid; unfold revoked; by destruct (is_active b)).
  cbn zeta. case_decide as Hsame.
  - destruct Hs as [[_ HE] Hc]. split; [done|]. split; [|apply revoked_inactive]. rewrite Hsame. split; [|done]. rewrite HE. by rewrite <- Hid.
  - apply wp_try.
    eapply wp_mono; [|apply (write_wp t E (revoked b now) (λ r, AnsRevoke id (match r with Ok _ => Ok (revoked b now) | Err e => Err e end)));
      [done| | |done]]; [by intros [] s1| |].
    + right. exists b, now. rewrite Hid', <- Hid. split_and!; [done|done| |done].
      destruct (is_active b) eqn:Ha; [done|]. destruct Hsame. unfold revoked. by rewrite Ha.
    + intros s1 Hc1 He1. split; [done|]. rewrite Hid' in He1. split; [done|apply revoked_inactive].
Qed.

Lemma reader_admit_wp t q s : calm t s → Wp t (reader_admit q) (λ r, answer_ok t (AnsAdmit q r)) s.
Proof.
  intros Hc. unfold reader_admit. apply wp_try. apply (free_load_bindings_wp t (calm t)); [apply calm_stable|done| |done].
  clear s Hc. intros set l s Hc Hl Hb. cbn [wp mret prog_ret]. destruct (collaborator_admit set q) as [a|r] eqn:Ha; [|done].
  split; [done|]. unfold collaborator_admit in Ha. destruct (matching set q) as [b|] eqn:Hm; [|done].
  apply (matching_spec _ _ _ _ Hl) in Hm as [Hin Hf]. destruct (negb (is_active b)); [done|].
  destruct (grants b (ar_required q)) eqn:Hg; [|done]. injection Ha as <-. split; [apply Hf|]. split; [apply Hf|]. split; [done|].
  destruct (Hb b Hin) as (b' & He & Hs). exists b'. split; [done|]. by apply (successor_fits _ _ b).
Qed.

Lemma lock_shared_wp {A F} t (p : prog binding_op (result F A)) (h : collaboration_store_error → F) (f : result F A → binding_answer) s :
  calm t s → (∀ e s, calm t s → answer_ok t (f (Err (h e))) s) →
  (∀ E s, reading t E s → Wp t p (λ r, answer_ok t (f r)) s) →
  Wp t (try (call LockShared) h (λ _, then_drop p)) (λ r, answer_ok t (f r)) s.
Proof.
  intros Hc Herr Hp. eapply wp_try_call; [apply calm_stable|exact Hc|]. clear s Hc. intros s c r s' Hc HI He. cbn in He.
  destruct (same_files t s HI) as [_ Hsame]. destruct (trouble c) as [e|]; [injection He as <- <-; split_and!; [done..|by apply Herr]|].
  destruct (bf_lock_file s); cbn [negb] in He; [|injection He as <- <-; split_and!; [done..|by apply Herr]].
  case_decide as Hx; [|done]. injection He as <- <-.
  assert (let s' := BindingFiles None ({[t]} ∪ bf_shared s) true (bf_entries s) (bf_trace s) in bindings_inv s' ∧ binding_does t s s') as [HI' Hd].
  { apply lock_step; [done..| | |done]; cbn; [by rewrite Hx|]. clear. set_solver. }
  split_and!; [done..|]. apply then_drop_wp. apply (Hp (bf_entries s)). split; [|done]. split; [cbn; clear; set_solver|done].
Qed.

(** The effect runs while the binding that was rechecked cannot change. *)
Lemma commit_binding_wp t a s : calm t s → Wp t (commit a (call (Effect a))) (λ r, answer_ok t (AnsCommit a r)) s.
Proof.
  intros Hc. apply (lock_shared_wp t _ CommitBinding (AnsCommit a)); [done|done|]. clear s Hc. intros E s Hs. apply wp_try.
  apply (load_bindings_wp t E (reading t E)); [apply reading_stable|done|by intros s1 [[_ ?] _]| |by intros e s1 [_ ?]].
  clear s Hs. intros set s Hs (l & Hl & Hr & _). destruct (recheck set a) as [[]|r] eqn:Hre; [|by destruct Hs].
  apply (recheck_ok l set a Hl) in Hre as (b & Hin & Hid & Hat & Hi & Hcap & _ & Hrev & Hg).
  eapply wp_try_call; [apply reading_stable|exact Hs|]. clear s Hs. intros s c r s' [[_ HE] Hc] HI He. cbn in He.
  assert (let s' := BindingFiles (bf_exclusive s) (bf_shared s) (bf_lock_file s) (bf_entries s) (bf_trace s ++ [DidEffect t a]) in
    bindings_inv s' ∧ binding_does t s s') as [HI' Hd].
  { apply (effect_step t s a b); [done| | |done]; [|unfold is_active; by rewrite bool_decide_eq_true_2].
    split; [|done]. rewrite HE, <- Hid. by apply Hr. }
  assert (effects_of t (bf_trace s ++ [DidEffect t a]) = [a]) as Heff
    by (rewrite effects_of_app, Hc; cbn; by rewrite decide_True).
  destruct (bc_outcome c); injection He as <- <-; by split_and!.
Qed.

Lemma remote_wp t c s : calm t s → Wp t (remote_call c) (λ r, answer_ok t (AnsRemote c r)) s.
Proof.
  intros Hc. unfold remote_call, admit_collaborator. apply wp_try. destruct (request_of c) as [q|r] eqn:Hq; [|done].
  apply wp_try. eapply wp_mono; [|by apply reader_admit_wp]. clear s Hc.
  intros [a|e] s; cbn [answer_ok]; [|done]. intros [Hc Ha]. cbn [wp mret prog_ret]. unfold route_commit. apply wp_try.
  eapply wp_mono; [|eapply (wp_frame _ _ _ _ _ (admitted_as q a)); [| |exact Ha|by apply commit_binding_wp]].
  - intros r s1 [Hr Ha1]. destruct r as [[]|[]]; cbn in *; eauto.
  - intros s1 s2 H1 (_ & _ & t' & _ & Hd)%rely_binding. by eapply admitted_kept.
  - intros s1 s2 H1 Hd. by eapply admitted_kept.
Qed.

Lemma bindings_sound : sound bindings_inv binding_does calm answer_ok.
Proof.
  split.
  - intros t p s Hp _ Hc. destruct Hp; apply wp_map; cbn.
    + by apply provision_wp.
    + by apply revoke_wp.
    + by apply reader_admit_wp.
    + by apply commit_binding_wp.
    + by apply remote_wp.
  - apply answer_stable.
  - apply calm_stable.
  - intros t s. apply release_bindings_ok.
  - intros t a s HI Ha. destruct (release_bindings_ok t s HI) as [_ Hd]. by eapply answer_kept.
  - done.
Qed.

(** A directory that nobody uses. *)
Definition at_rest s : Prop := bf_exclusive s = None ∧ bf_shared s = ∅ ∧ bf_trace s = [].

Lemma at_rest_inv s : at_rest s → bindings_inv s ∧ ∀ t, calm t s.
Proof.
  intros (Hx & Hs & Ht). split; [|by intros t; unfold calm; rewrite Ht]. split; rewrite ?Hx, ?Ht; [done|by intros ? ? ?%elem_of_nil..|].
  by intros [] l2 t id.
Qed.

(** The events after a point have no effect of [id], which is revoked. *)
Definition fenced_since (l : list binding_event) (id : string) s : Prop :=
  revoked_entry id s ∧ ∃ l', bf_trace s = l ++ l' ∧ ∀ t a, DidEffect t a ∈ l' → ac_binding a ≠ id.

Lemma fenced_since_stable t l id : Stable t (fenced_since l id).
Proof.
  intros s s' [Hr (l' & Hl & Hno)] (_ & _ & t' & _ & Hd)%rely_binding. split; [by eapply revoked_kept|].
  destruct (bd_trace _ _ _ Hd) as (l2 & -> & _ & Hno2). exists (l' ++ l2). split; [by rewrite Hl, app_assoc|].
  intros t2 a [Hin|Hin]%elem_of_app; [by eapply Hno|]. intros <-. by apply (Hno2 t2 a).
Qed.

(** C9. Provisions, revocations, admissions and effects run at the same time on
    any directory of bindings, and may fail or be killed at any point. No
    effect of a binding follows the write of its revocation, and once a
    revocation has returned no effect of its binding ever follows. Every effect
    has a binding behind it that grants its scope to its identity. A call
    answers for what it did: a refused commit ran no effect and a commit that
    got through ran it once, a provisioned binding is stored and knows its
    proof, and an admission is the request's, by a binding that fits it. *)
Theorem revocation_fences s0 y :
  at_rest s0 → reachable s0 y →
  fenced (bf_trace (shared y)) ∧
  (∀ t a, DidEffect t a ∈ bf_trace (shared y) → backed_effect a (shared y)) ∧
  (∀ t x, processes y !! t = Some (Returned x) → answer_ok t x (shared y)) ∧
  ∀ t id b y', processes y !! t = Some (Returned (AnsRevoke id (Ok b))) → rtc step y y' →
    ∃ l, bf_trace (shared y') = bf_trace (shared y) ++ l ∧ ∀ t' a, DidEffect t' a ∈ l → ac_binding a ≠ id.
Proof.
  intros [HI0 Hc0]%at_rest_inv Hy. pose proof (reachable_ok _ _ _ _ bindings_sound _ _ HI0 Hc0 Hy) as Hok. pose proof Hok as (HI & Hts & _).
  assert (∀ t x, processes y !! t = Some (Returned x) → answer_ok t x (shared y)) as Ha by (intros t x Ht; exact (Hts t _ Ht)).
  split_and!; [apply HI|apply HI|done|]. intros t id b y' Ht Hr. destruct (Ha _ _ Ht) as (_ & He & Hrev).
  destruct (steps_stable _ _ _ _ bindings_sound (fenced_since (bf_trace (shared y)) id) y y') as [_ Hl]; [by intros; apply fenced_since_stable|done|done| |done].
  split; [by exists b|]. exists []. rewrite app_nil_r. split; [done|]. by intros t' a ?%elem_of_nil.
Qed.
End Runs.

(** ** Samples *)

Module BindingSamples.
Import MailSamples CollaborationSamples.

#[local] Abbreviation play := (play (M := binding_machine)).
#[local] Abbreviation play_steps := (play_steps (M := binding_machine)).

(** Every operation succeeds; [bytes] are what randomness gives. *)
Definition smooth (bytes : string) : binding_circumstances := BindingCircumstances None false [] bytes bytes (zeros 32) true.

Definition empty_directory : binding_files := BindingFiles None ∅ false ∅ [].

Definition critic_spec : binding_spec := BindingSpec remote_critic (WorkSeat work "critic") {[WorkWrite]} (Some "laptop").

Definition bytes : string := "12345678".
Definition critic_id : string := id_from_random binding_prefix bytes.

Definition critic_call : collaboration_admission :=
  CollaborationAdmission None remote_jwt "lab"
    [("cosmon-attachment", id_from_random attachment_prefix bytes); ("cosmon-attachment-proof", expose_secret secret)] (TargetWork work) WorkRead.

Definition do_provision : binding_circumstances * prog binding_op binding_answer :=
  (smooth bytes, prog_map AnsProvision (provision critic_spec 0)).
Definition do_remote : binding_circumstances * prog binding_op binding_answer :=
  (smooth bytes, prog_map (AnsRemote critic_call) (remote_call critic_call)).
Definition do_revoke : binding_circumstances * prog binding_op binding_answer :=
  (smooth bytes, prog_map (AnsRevoke critic_id) (revoke critic_id 5)).

Lemma before_revocation_clients : Forall (λ x, binding_client x.2) [do_remote; do_provision; do_remote; do_revoke].
Proof.
  apply Forall_cons_2; [exact (client_remote critic_call)|]. apply Forall_cons_2; [exact (client_provision critic_spec 0)|].
  apply Forall_cons_2; [exact (client_remote critic_call)|]. apply Forall_cons_2; [exact (client_revoke critic_id 5)|apply Forall_nil_2].
Qed.

Lemma after_revocation_clients : Forall (λ x, binding_client x.2) [do_remote; do_revoke].
Proof. apply Forall_cons_2; [exact (client_remote critic_call)|]. apply Forall_cons_2; [exact (client_revoke critic_id 5)|apply Forall_nil_2]. Qed.

Definition kind_of (x : process binding_op binding_answer) : string :=
  match x with
  | Returned (AnsProvision (Ok _)) => "provisioned"
  | Returned (AnsProvision (Err _)) => "not provisioned"
  | Returned (AnsRevoke _ (Ok _)) => "revoked"
  | Returned (AnsRemote _ (Ok _)) => "done"
  | Returned (AnsRemote _ (Err (Some e))) => admission_code e
  | _ => "other"
  end.

Lemma revocation_fences_witness :
  ∃ y y', reachable empty_directory y ∧ rtc step y y' ∧
    kind_of <$> processes y' = ["binding_missing"; "provisioned"; "done"; "revoked"; "binding_revoked"; "revoked"] ∧
    fenced (bf_trace (shared y')) ∧ length (bf_trace (shared y')) = 2 ∧
    ∃ l, bf_trace (shared y') = bf_trace (shared y) ++ l ∧ ∀ t a, DidEffect t a ∈ l → ac_binding a ≠ critic_id.
Proof.
  assert (at_rest empty_directory) as Hrest by (split; [reflexivity|split; reflexivity]).
  destruct (play [do_remote; do_provision; do_remote; do_revoke] (System empty_directory [])) as [y|] eqn:Hy;
    [|exfalso; vm_compute in Hy; discriminate].
  destruct (play [do_remote; do_revoke] y) as [y'|] eqn:Hy'; [|exfalso; vm_compute in Hy; injection Hy as <-; vm_compute in Hy'; discriminate].
  assert (reachable empty_directory y) as Hr.
  { exact (play_steps _ _ _ before_revocation_clients Hy). }
  assert (rtc step y y') as Hr'.
  { exact (play_steps _ _ _ after_revocation_clients Hy'). }
  assert (reachable empty_directory y') as Hr2 by (unfold reachable; transitivity y; assumption).
  destruct (revocation_fences empty_directory y' Hrest Hr2) as (Hf & _).
  destruct (revocation_fences empty_directory y Hrest Hr) as (_ & _ & _ & Hsince).
  assert (∃ b, processes y !! 3 = Some (Returned (AnsRevoke critic_id (Ok b)))) as [b Hb].
  { clear -Hy. vm_compute in Hy. injection Hy as <-. eexists. vm_compute. reflexivity. }
  exists y, y'. split; [exact Hr|]. split; [exact Hr'|]. specialize (Hsince _ _ _ _ Hb Hr').
  clear -Hy Hy' Hf Hsince. split; [|split; [exact Hf|split; [|exact Hsince]]];
    clear Hf Hsince; vm_compute in Hy; injection Hy as <-; vm_compute in Hy'; injection Hy' as <-; vm_compute; reflexivity.
Defined.

(** A directory that stops a load stops every call: a file that is no binding
    is put there, and nobody can revoke any more. *)
Example stray_file_stops_revocation :
  (λ y, kind_of <$> processes y) <$>
    play [do_remote; do_revoke] (System (BindingFiles None ∅ true {[file_name (cb_id critic_binding) := BindingRecord critic_binding; "notes.txt" := NotBinding]} []) []) =
  Some ["corrupt_evidence"; "other"].
Proof. vm_compute. done. Qed.
End BindingSamples.
